(* ===== verification/_CoqProject ===== *)
-Q . S2P
Prelude.v
Pool.v
PoolSystem.v
PoolRuns.v
PoolSafety.v
PoolTheorems.v
PoolMethods.v
PoolSpec.v
GoStrings.v
Prepared.v
PreparedTheorems.v
TrackedParams.v
Relay.v
RelayTheorems.v
RelayClaims.v
RelayStream.v
HBA.v
HBATheorems.v
Config.v
ConfigTheorems.v
BackendAddr.v
Registry.v
RegistryLemmas.v
RegistryOps.v
RegistryTheorems.v
RegistryReload.v
DNSWatcher.v
GoCrypto.v
Scram.v
ScramTheorems.v
ChannelBinding.v
AuthQuery.v
Session.v
SessionTheorems.v
SessionCancel.v
BackendConnect.v
BackendConnectTheorems.v
Limits.v
LimitsTheorems.v
RateLimit.v
Startup.v
Server.v
ServerRuns.v
ServerTheorems.v
AdminSQL.v
AdminSQLTheorems.v
GoURL.v
AdminAuth.v
AdminAuthTheorems.v
Health.v
AdminUI.v
AdminUITheorems.v
AdminServer.v
AdminServerTheorems.v
Wiring.v
WiringTheorems.v
Sockets.v
Metrics.v
FloatFacts.v
RateLimitTheorems.v
Proxy.v
ProxySession.v
ProxyTheorems.v
ProxyRuns.v
MetricsDesc.v
Html.v
Templ.v
Templates.v
TemplatesTheorems.v
Dashboard.v
PeerCred.v
Gateway.v
GatewayRouting.v
GatewayTheorems.v
GatewayRuns.v
GatewayConfig.v
AuditLog.v
AuditTheorems.v
