(* ===== verification/Prelude.v ===== *)
(** * pgman, a PostgreSQL connection pooler: verification development

    pgman accepts PostgreSQL clients, authenticates them, and multiplexes their
    sessions over a bounded set of backend connections.  This library models
    the Go sources as executable Rocq definitions with the sources' names, and
    proves what makes them correct.

    ** The program's parts

    The process (main.go) is assembled from a configuration (config.go): it
    opens its listeners (unix_socket.go), accepts clients and runs one handler
    for each.  A client is authenticated (hba.go in front of the SCRAM code in
    auth.go, with verifiers that may come from auth_query.go), passes the limits
    (ratelimit.go, rate_limit.go, conn_limits.go), is registered (session.go) and
    routed by database and user to a pool (router.go over registry.go).  It is
    then served by the relay (relay.go), which acquires a backend from the pool
    (pool/pool.go) for each transaction, makes the session's state true on it
    (tracked_params.go, prepared_stmts.go), forwards messages both ways and
    gives the backend back.  Backends are dialed by backend_connect.go; users
    who log in with SCRAM can have connections under their own role, opened with
    the key recovered from their login (scram_clientkey.go,
    scram_passthrough.go).  A reload (reload.go) reconciles the registry with a
    changed file, the reaper (passthrough_reaper.go) and the DNS watchers
    (dns_watcher.go) act on their own.  Operators use a console over the
    Postgres protocol (admin_sql.go), an HTTP listener with a dashboard
    (admin_auth.go, oidc_auth.go, ui.go, web/) and metrics (metrics.go,
    pgbouncer_metrics.go, health.go).

    ** The files

    - [Prelude]: results and error propagation, machine integers, ranging over
      maps, counting, tactics.  [GoStrings], [GoCrypto], [GoURL]: what the
      sources use of Go's strings, sha256, hmac, base64 and net/url packages.
    - pool/pool.go.  [Pool]: the state (record [Pool]) and every method as a
      machine of program counters whose steps are the atomic operations and
      critical sections of the code; dial results, health checks and expired
      contexts are choices of the environment.  [PoolSystem]: any number of
      goroutines interleaving those machines, and the effect of each step on
      the counted quantities.  [PoolRuns]: an executable scheduler.
      [PoolSafety]: the invariants.  [PoolTheorems], [PoolMethods]: capacity,
      exclusive ownership, no use after close, exact bookkeeping, no misuse, no
      lost wake-up, draining, the breaker, release and reconnect.  [PoolSpec]:
      an abstract pool of free, busy and gone connections and the simulation.
    - prepared_stmts.go, listen_warn.go.  [Prepared]: the two caches, replay,
      eviction.  [PreparedTheorems]: replay against a server that may fail
      messages and then discards up to the next Sync, and the bounds.
    - tracked_params.go.  [TrackedParams]: the SET batch and that the server
      reads back exactly the parameters.
    - relay.go.  [Relay]: one session as a phase machine, [step], from an input
      (a client or backend message, an error, a timeout, the pool's answer) to
      the actions it takes.  [RelayTheorems], [RelayClaims], [RelayStream]:
      backends are used linearly, scrubbed before use, reused only outside a
      transaction; replies, COPY streams and failures are delivered as the
      protocol requires.
    - relay.go over pool/pool.go.  [Proxy]: any number of relay sessions over the
      contract of [PoolSpec], with a log of what each server has been sent and
      by whom.  [ProxySession]: what one step of one session does to the
      connection it holds.  [ProxyTheorems]: sessions are isolated from each
      other, statements are their own, and the pool's contract is kept.
      [ProxyRuns]: an executable scheduler and concrete runs.
    - hba.go.  [HBA]: tokenizer, parser, matching, decision, with CIDR parsing.
      [HBATheorems]: rules print and parse back; acceptance is sound.
      peer_cred_linux.go, peer_cred_other.go.  [PeerCred]: the kernel's word on
      a Unix socket, and what authentication reads off a connection.
    - config.go.  [Config]: the structs, defaults, validation, lifecycle merge.
      [ConfigTheorems]: what [loadConfig] accepts.
    - backend_addr.go.  [BackendAddr]: the address check, and that it refuses
      exactly the documented networks.
    - registry.go, router.go, reload.go.  [Registry]: entries keyed by pool name
      and identity, the database names that route to them, and every operation;
      [Resolve] in its two halves, since it drops its lock in between, and a
      reload as one step for each time it takes the lock ([reloadStep]).
      [RegistryLemmas], [RegistryOps]: the invariant and its preservation in
      every interleaving of requests, of which each resize is by pool name
      ([by_name]).  [RegistryTheorems]: identities and eviction.
      [RegistryReload]: a reload among clients ends with exactly the file.
    - scram_clientkey.go, scram_passthrough.go, auth.go.  [Scram] and
      [ScramTheorems]: key recovery, the key store, the client half of the
      exchange, verifiers.  [ChannelBinding]: the hash of the certificate an
      exchange is bound to, with SHA-384 and SHA-512, and generated verifiers.
    - auth_query.go.  [AuthQuery]: cached lookups interleaved with invalidation.
      dns_watcher.go.  [DNSWatcher]: when a pool is reconnected.
    - conn_limits.go, ratelimit.go, events.go.  [Limits], [LimitsTheorems]: caps,
      lockout, the event ring.  rate_limit.go.  [RateLimit]: token buckets in
      float64; [FloatFacts]: what is needed of IEEE 754; [RateLimitTheorems]:
      how much is granted, and when again.
    - session.go.  [Session], [SessionTheorems]: the sharded session table is one
      map; registration, snapshots, what a cancel connection sends.
      [SessionCancel]: cancel requests interleaved with running sessions.
    - backend_connect.go and the dialers of main.go.  [BackendConnect],
      [BackendConnectTheorems]: targets, TLS, the startup handshake.
    - main.go.  [Startup]: one connection's handler, stage by stage.  [Server]:
      accept loops, handlers and the shutdown, interleaved; [ServerRuns]: a
      scheduler; [ServerTheorems]: limits, clean-up, drain.  [Wiring],
      [WiringTheorems]: how the options, the authentication chain and the
      listeners follow from the configuration, the order of start and stop, the
      SIGHUP loop, passthrough_reaper.go and the command line.  [Sockets]:
      unix_socket.go and client_write.go.
    - main.go over registry.go and relay.go.  [Gateway]: the process of [Server],
      the registry with its writers and one [Proxy] for every pool ever built,
      in one system: a handler that has logged in and been routed starts its
      relay in its pool.  [GatewayRouting]: a pool that was handed out exists and
      dials as it was specified.  [GatewayTheorems]: the invariant of the system.
      [GatewayRuns]: an executable scheduler and the run of two users.
      [GatewayConfig]: the system started from a configuration file.
    - audit.go, logging.go.  [AuditLog]: the audit sink, every call that writes to
      it, the bytes of log/slog's JSON handler, the login counters, the choice of
      level and format.  [AuditTheorems]: a JSON reader, what it makes of the
      stream, and that refusals are on it.
    - admin_sql.go.  [AdminSQL], [AdminSQLTheorems]: the console, with every
      access to shared state a separate step.
    - admin_auth.go, oidc_auth.go, admin_tls.go.  [AdminAuth],
      [AdminAuthTheorems]: who gets in.  [AdminServer], [AdminServerTheorems]:
      the routes of the admin listener behind that check.  health.go.  [Health].
    - ui.go.  [AdminUI], [AdminUITheorems]: the handlers and what they do to the
      registry; the framing of the event stream.
    - web/.  [Html]: an HTML tokenizer, as the reader of what is written.
      [Templ]: the interface of the templ library and its laws.  [Templates]:
      the generated components, and the templates as structures.
      [TemplatesTheorems]: a component writes what its template says, whatever
      the data.  [Dashboard]: the page and the event stream of ui.go over the
      registry, the pools, the sessions and the events, and what a browser sees.
    - metrics.go, pgbouncer_metrics.go.  [Metrics]: what a scrape collects and
      counts.  [MetricsDesc]: the descriptors, and that registering them and
      scraping never panics.

    ** What the theorems show

    The pool: at most the limit is in use and no connection is used twice, in
    every interleaving; it refines its contract; parked callers wake up and
    Close drains.  The relay: backends are acquired and given back linearly, in
    a clean state, outside a transaction; with the pool, no session sees what
    another one sent, and a statement means what its session prepared.  The whole
    process: from any configuration that loads, every message on any connection
    of any pool is for a session that the configured authentication let in and,
    as long as no resize is addressed to the key of one user's entry, whose user
    and database entitle it to the identity the pool dials with, while pools come
    and go.  Routing: under that same condition an identity has its own pool, a
    reload converges to the file and displaced pools are drained; running sessions
    keep theirs.  Access: a login succeeds only by the configured rules (with
    authentication switched off, for everybody), admin requests only by the
    configured means, cancels only with the right secret.  Limits: connections, sessions per user
    and database, session rate, in the process as configured; everything taken
    is given back; a reported drain is complete.  The audit stream reads back
    as exactly the events, whatever bytes clients send, and every login refused
    by authentication, rate or cap is on it.  The dashboard: data is never markup.

    ** Conventions

    A function that can fail returns [result].  A mutex-protected method is one
    step; where the code drops a lock or uses atomics, it is several.  Time is
    an argument or a choice, in nanoseconds.  A Go [int] is a [Z]; counters
    that the code keeps non-negative are [nat].  A loop over a map is proved
    for every order ([MapRange], or a permutation in the statement).  Code that
    is not in the repository is a parameter: the YAML decoder, the SCRAM
    conversation, pgconn, bcrypt, the OIDC library, templ, Unicode case folding,
    the answer of SO_PEERCRED and the user database.  Specifications that are
    not code of the proxy: the SQL lexer in [TrackedParams], the server of
    [PreparedTheorems], which treats the messages of the extended protocol as
    PostgreSQL documents it and leaves open which of them fail and what SQL text
    does to its statements, the log of [Proxy], the histories [past], [logins] and
    [requests] of [Gateway], the tokenizer of [Html], the reader of event
    streams in [AdminUITheorems] and the JSON reader of [AuditTheorems].

    ** Fuel

    Recursion is structural except for the loops below, whose fuel is proved or
    evidently enough: comment skipping in [isDDL] and white space in
    [TrimSpace] (the length of the text, which shrinks), evictions (the size of
    the cache, one entry per round), SHA-2 blocks (the length of the padded
    message), decimal printing (twenty digits for an int64), reading a SET
    batch or an audit line back (its length), and the undisturbed runs of a
    pool's methods.  The retry loop of [registerSession] has the code's own
    bound.  The schedulers of [PoolRuns], [ServerRuns], [ProxyRuns] and
    [GatewayRuns] play a given list of moves and are only used to reach
    concrete states.  Theorems about runs quantify over every finite run.

    ** What the theorems do not cover

    Wire encoding is pgproto3's and is not modelled: messages are values.
    Sockets, TLS and goroutine scheduling appear only through the inputs they
    produce.  [own_statements] is for configurations that reset with DISCARD ALL
    and without the same-session skip, a client that sends no DDL, which drops the
    caches, does not prepare a name that is still open and keeps to COPY messages
    during COPY, and a server that has lost no Parse or Close of a named statement
    to an error and whose SQL text prepares nothing; [reload_converges] is for a
    reload during which no other request changes a pool; [GatewayConfig] has the options of the
    start, which a reload does not change, and fewer than 2^64 sessions; the
    tokenizer of [Html] leaves the normalisation of newlines to the browser.
    Theorems without a claim number show behaviours that differ from what a
    comment promises or that look unintended: in the pool, warm-up exceeding
    the limit and Reconnect racing with Release; in the relay, the end of a
    CopyBoth stream, an abandoned batch that the next session's server runs,
    acknowledgements swallowed by count, statement mode pooling an open
    transaction, a stale statement with the same-session skip, a statement lost
    with a failed batch; in the registry, aliases that collide and the route a
    reload then loses, a stale or evicted pass-through entry, resizing by a
    per-user key; a cancel that reaches the next session, an invalidated
    verifier stored again, TLS decided by the text of a DSN, the drain flag set
    late, console commands that crash when a pool is removed under them, a
    rebound page that passes the origin check, a carriage return that ends an
    event, a second error after an HBA refusal, links of per-user pools that
    match no route, a session-rate refusal that no login counter shows, and
    options that cannot be switched off as documented.

    ** Not modelled

    Every Go file with code of its own is modelled.  The embedded JavaScript and
    the file server that serves them, the Prometheus text format, the JSON of
    the probes and Go's HTTP protocol are outside the repository's code.  The
    texts of log lines and of most error messages are not modelled; an error is
    a constructor that says which one it is. *)

From stdpp Require Export gmap strings list fin_maps sorting.

(** ** Scope, results and error propagation

    Go functions that return [(T, error)] are modelled by [result E T]; the
    [let?] notation is the early return [if err != nil { return ..., err }]. *)

Declare Scope go_scope.
Delimit Scope go_scope with go.

Inductive result (E A : Type) : Type :=
| Ok (a : A)
| Err (e : E).
Arguments Ok {E A} a.
Arguments Err {E A} e.

Notation "'let?' x := c 'in' k" :=
  (match c with Ok x => k | Err e => Err e end)
  (at level 10, x pattern, c at level 200, k at level 200) : go_scope.
Open Scope go_scope.

Definition is_ok {E A} (r : result E A) : bool :=
  match r with Ok _ => true | Err _ => false end.

#[export] Instance result_eq_dec {E A} `{!EqDecision E, !EqDecision A} :
  EqDecision (result E A).
Proof. solve_decision. Defined.

(** ** Fixed-width integers

    Go's [int64] arithmetic wraps around: [wrap64] is the value that is left
    in the register, [in64] says that a number is representable. *)

Definition two63 : Z := 9223372036854775808.
Definition two64 : Z := 18446744073709551616.
Definition wrap64 (z : Z) : Z := (z + two63) `mod` two64 - two63.
Definition in64 (z : Z) : Prop := (- two63 ≤ z < two63)%Z.

Lemma wrap64_range z : in64 (wrap64 z).
Proof.
  unfold in64, wrap64.
  pose proof (Z.mod_pos_bound (z + two63) two64 ltac:(done)).
  unfold two63, two64 in *; lia.
Qed.

Lemma wrap64_id z : in64 z → wrap64 z = z.
Proof.
  unfold in64, wrap64; intros H. rewrite Z.mod_small; unfold two63, two64 in *; lia.
Qed.

(** Durations are [int64] nanoseconds. *)
Definition Millisecond : Z := 1000000.
Definition Second : Z := 1000000000.
Definition Minute : Z := 60 * Second.
Definition Hour : Z := 60 * Minute.

(** ** Ranging over a map

    A [for k, v := range m] loop visits every binding once, in an order the
    language leaves open: [range] is the order of one run, and what is proved
    for every instance holds for every order. *)

Class MapRange := {
  range : ∀ {V}, gmap string V → list (string * V);
  range_perm : ∀ V (m : gmap string V), range m ≡ₚ map_to_list m;
}.

#[export] Instance map_to_list_range : MapRange :=
  {| range V m := map_to_list m; range_perm V m := reflexivity _ |}.

Section range.
Context `{MapRange} {V : Type}.
Implicit Types m : gmap string V.

Lemma elem_of_range m k v : (k, v) ∈ range m ↔ m !! k = Some v.
Proof. by rewrite range_perm, elem_of_map_to_list. Qed.

Lemma NoDup_range_fst m : NoDup (range m).*1.
Proof. rewrite range_perm. apply NoDup_fst_map_to_list. Qed.

Lemma range_empty : range (∅ : gmap string V) = [].
Proof. apply Permutation_nil. symmetry. rewrite range_perm. by rewrite map_to_list_empty. Qed.
End range.

(** ** Tactics *)

(** Split on every [match] and [if] that blocks the goal or a hypothesis,
    keeping the equation. *)
Ltac break_goal :=
  match goal with
  | |- context [match ?x with _ => _ end] =>
      lazymatch x with
      | context [match _ with _ => _ end] => fail
      | _ => destruct x eqn:?
      end
  end.

Ltac break_hyp :=
  match goal with
  | H : context [match ?x with _ => _ end] |- _ =>
      lazymatch x with
      | context [match _ with _ => _ end] => fail
      | _ => destruct x eqn:?
      end
  end.

(** Turn boolean tests in the context into propositions. *)
Ltac to_prop :=
  repeat match goal with
  | H : (_ && _)%bool = true |- _ => apply andb_true_iff in H; destruct H
  | H : (_ && _)%bool = false |- _ => apply andb_false_iff in H
  | H : (_ || _)%bool = true |- _ => apply orb_true_iff in H
  | H : (_ || _)%bool = false |- _ => apply orb_false_iff in H; destruct H
  | H : negb _ = true |- _ => apply negb_true_iff in H
  | H : negb _ = false |- _ => apply negb_false_iff in H
  | H : bool_decide _ = true |- _ => apply bool_decide_eq_true in H
  | H : bool_decide _ = false |- _ => apply bool_decide_eq_false in H
  | H : (_ <=? _)%Z = true |- _ => apply Z.leb_le in H
  | H : (_ <=? _)%Z = false |- _ => apply Z.leb_gt in H
  | H : (_ <? _)%Z = true |- _ => apply Z.ltb_lt in H
  | H : (_ <? _)%Z = false |- _ => apply Z.ltb_ge in H
  | H : (_ =? _)%Z = true |- _ => apply Z.eqb_eq in H
  | H : (_ =? _)%Z = false |- _ => apply Z.eqb_neq in H
  | H : (_ <? _)%nat = true |- _ => apply Nat.ltb_lt in H
  | H : (_ <? _)%nat = false |- _ => apply Nat.ltb_ge in H
  | H : (_ <=? _)%nat = true |- _ => apply Nat.leb_le in H
  | H : (_ <=? _)%nat = false |- _ => apply Nat.leb_gt in H
  | H : (_ =? _)%nat = true |- _ => apply Nat.eqb_eq in H
  | H : (_ =? _)%nat = false |- _ => apply Nat.eqb_neq in H
  end.

(** The whole-step case analysis used by the state machines: open every
    branch of an executable step, discard the disabled ones. *)
Ltac step_cases :=
  repeat (break_hyp; cbn beta iota in * |-); simplify_eq/=; to_prop.

(** ** Counting occurrences

    Ownership of connections and channels is stated by counting: [occ x l] is
    how many times [x] occurs in [l]. *)

Section occurrences.
Context {A : Type} `{!EqDecision A}.
Implicit Types (x y : A) (l k : list A).

Fixpoint occ (x : A) (l : list A) : nat :=
  match l with
  | [] => 0
  | y :: l => (if decide (x = y) then 1 else 0) + occ x l
  end.

Lemma occ_app x l k : occ x (l ++ k) = occ x l + occ x k.
Proof. induction l as [|y l IH]; simpl; [done|]. rewrite IH; lia. Qed.

Lemma occ_elem_of x l : x ∈ l ↔ 1 ≤ occ x l.
Proof.
  induction l as [|y l IH]; simpl.
  - split; [by intros ?%not_elem_of_nil | lia].
  - rewrite elem_of_cons, IH. destruct (decide (x = y)); split; intros; try lia; tauto || (right; lia) || (intuition lia).
Qed.

Lemma occ_not_elem_of x l : x ∉ l ↔ occ x l = 0.
Proof. rewrite occ_elem_of; lia. Qed.

Lemma occ_cons_eq x l : occ x (x :: l) = S (occ x l).
Proof. simpl. by rewrite decide_True. Qed.

Lemma occ_cons_ne x y l : x ≠ y → occ x (y :: l) = occ x l.
Proof. intros. simpl. by rewrite decide_False. Qed.

Lemma occ_NoDup l : NoDup l ↔ ∀ x, occ x l ≤ 1.
Proof.
  induction l as [|y l IH]; simpl.
  - split; [intros _ x; lia | intros _; constructor].
  - rewrite NoDup_cons, IH, occ_not_elem_of. split.
    + intros [Hy Hl] x. specialize (Hl x). destruct (decide (x = y)); subst; lia.
    + intros H. split.
      * specialize (H y). rewrite decide_True in H by done. lia.
      * intros x. specialize (H x). lia.
Qed.

Lemma occ_filter x (P : A → Prop) `{∀ y, Decision (P y)} l :
  occ x (filter P l) = if decide (P x) then occ x l else 0.
Proof.
  induction l as [|y l IH]; [by case_decide|].
  rewrite filter_cons. simpl.
  destruct (decide (P y)); simpl; rewrite IH; destruct (decide (P x)), (decide (x = y));
    subst; done || lia.
Qed.
End occurrences.

Arguments occ : simpl nomatch.

(** ** Sums over the threads of a system

    A step of a system changes one thread, [ts1 ++ t :: ts2] becoming
    [ts1 ++ t' :: ts2]; every counting invariant is a sum of a per-thread
    measure. *)

Definition total {A} (f : A → nat) (ts : list A) : nat := sum_list_with f ts.

Lemma total_mid {A} (f : A → nat) ts1 t ts2 :
  total f (ts1 ++ t :: ts2) = total f ts1 + f t + total f ts2.
Proof. unfold total. rewrite sum_list_with_app; simpl; lia. Qed.

Lemma total_app {A} (f : A → nat) ts1 ts2 :
  total f (ts1 ++ ts2) = total f ts1 + total f ts2.
Proof. apply sum_list_with_app. Qed.

Lemma total_nil {A} (f : A → nat) : total f [] = 0.
Proof. done. Qed.

Lemma total_cons {A} (f : A → nat) t ts : total f (t :: ts) = f t + total f ts.
Proof. done. Qed.

Lemma total_le {A} (f g : A → nat) ts : (∀ t, f t ≤ g t) → total f ts ≤ total g ts.
Proof. intros H. induction ts as [|t ts IH]; simpl; [done|]. specialize (H t). unfold total in *; simpl; lia. Qed.

Lemma total_elem {A} (f : A → nat) t ts : t ∈ ts → f t ≤ total f ts.
Proof. apply sum_list_with_in. Qed.

Lemma total_zero {A} (f : A → nat) ts : (∀ t, t ∈ ts → f t = 0) → total f ts = 0.
Proof.
  unfold total. induction ts as [|t ts IH]; intros H; simpl; [done|].
  rewrite H, IH by set_solver. done.
Qed.

Lemma total_two {A} (f : A → nat) ts i j t u :
  ts !! i = Some t → ts !! j = Some u → i ≠ j → f t + f u ≤ total f ts.
Proof.
  revert i j. unfold total. induction ts as [|v ts IH]; intros [|i] [|j] Hi Hj Hne; simplify_eq/=.
  - apply list_elem_of_lookup_2, (sum_list_with_in _ f) in Hj. lia.
  - apply list_elem_of_lookup_2, (sum_list_with_in _ f) in Hi. lia.
  - specialize (IH i j Hi Hj ltac:(lia)). lia.
Qed.

Lemma total_pos {A} (f : A → nat) ts : 1 ≤ total f ts → ∃ t, t ∈ ts ∧ 1 ≤ f t.
Proof.
  unfold total. induction ts as [|t ts IH]; simpl; [lia|]. intros H.
  destruct (decide (1 ≤ f t)) as [Ht|Ht]; [exists t; set_solver|].
  destruct IH as (u & Hu & Hf); [lia|]. exists u; set_solver.
Qed.

Create Rewrite HintDb pgman.
#[export] Hint Rewrite @total_mid @total_app @total_nil @total_cons @occ_app : pgman.
