(* ===== verification/Pool.v ===== *)
(** * The backend-connection pool (src/pool/pool.go): state and operations

    The pool is shared by every session goroutine, the reaper, the warm-up
    goroutine and the admin commands.  This file gives its state as a record,
    each Go method as an executable program over that state, and each method's
    atomic steps: one step performs at most one access that another goroutine
    can race with (an atomic load, store, add, swap or compare-and-swap, one
    mutex-protected critical section, one channel operation); writes to the
    diagnostic counters and to the event log are merged into the step before
    them.  What the pool cannot decide (whether a dial succeeds, whether a
    health check passes, which ready case a select takes, when a context
    expires) is a [choice] handed to the step.

    PoolSystem.v composes the steps of any number of goroutines. *)

From S2P Require Import Prelude.
Open Scope Z_scope.

Module Pool.

(** ** Data *)

(** Identity of a [net.Conn]; the pool compares connections by identity. *)
Abbreviation conn := nat (only parsing).

(** Errors that [Acquire], [Close] and the event log can carry.  [ErrCtx] is
    [ctx.Err()], [DialErr n] an error of the dialer, [Wrapped] the
    [fmt.Errorf("dial: %w", err)] of Acquire. *)
Inductive perr :=
| ErrPoolClosed
| ErrCircuitOpen
| ErrCtx
| DialErr (n : nat)
| Wrapped (e : perr)
| errForeignConn
| errDoubleRelease
| errSlotUnderflow.

#[export] Instance perr_eq_dec : EqDecision perr.
Proof. solve_decision. Defined.

Record event := mkEvent { kind : string; ev_err : option perr }.

Record idleConn := mkIdle { ic_conn : conn; createdAt : Z; releasedAt : Z }.
Record connMeta := mkMeta { gen : Z; meta_createdAt : Z }.

#[export] Instance idleConn_eq_dec : EqDecision idleConn.
Proof. solve_decision. Defined.
#[export] Instance connMeta_eq_dec : EqDecision connMeta.
Proof. solve_decision. Defined.

(** Tunables, fixed after [New].  [minIdle] and [dialRetryMax] are naturals:
    the registry only passes positive values (registry.go, newPool). *)
Record Options := mkOptions {
  limit : nat;
  hasHealthCheck : bool;
  hasOnEvent : bool;
  idleTimeout : Z;
  maxLifetime : Z;
  healthCheckDelay : Z;
  minIdle : nat;
  dialRetryMax : nat;
  dialRetryBackoff : Z;
  cbThreshold : Z;
  cbCooldown : Z;
}.

Record Breaker := mkBreaker { cbFailures : Z; cbOpenUntil : Z }.

(** The pause gate.  [closedChans] is the set of resume channels that have
    been closed, [nextChan] the identity the next [make(chan)] gets. *)
Record Gate := mkGate {
  paused : bool;
  resumeCh : nat;
  closedChans : gset nat;
  nextChan : nat;
}.

Record Counters := mkCounters {
  waiting : Z;
  waitCount : Z;
  waitNanos : Z;
  discards : Z;
  dialErrors : Z;
  reaped : Z;
}.

(** What the pool sees of the outside: the clock, the identity the next dialed
    connection gets, the connections [Close] was called on, the events emitted,
    and whether the process has panicked (a channel closed twice). *)
Record World := mkWorld {
  now : Z;
  nextConn : nat;
  closedConns : gset nat;
  events : list event;
  panicked : bool;
}.

Record Pool := mkPool {
  opts : Options;
  brk : Breaker;
  sem : nat;
  doneCh : bool;
  closed : bool;
  gate : Gate;
  reconnectGen : Z;
  metas : gmap nat connMeta;
  idle : list idleConn;
  cnt : Counters;
  world : World;
}.

Definition with_brk b p := mkPool (opts p) b (sem p) (doneCh p) (closed p) (gate p)
  (reconnectGen p) (metas p) (idle p) (cnt p) (world p).
Definition with_sem n p := mkPool (opts p) (brk p) n (doneCh p) (closed p) (gate p)
  (reconnectGen p) (metas p) (idle p) (cnt p) (world p).
Definition with_doneCh b p := mkPool (opts p) (brk p) (sem p) b (closed p) (gate p)
  (reconnectGen p) (metas p) (idle p) (cnt p) (world p).
Definition with_closed b p := mkPool (opts p) (brk p) (sem p) (doneCh p) b (gate p)
  (reconnectGen p) (metas p) (idle p) (cnt p) (world p).
Definition with_gate g p := mkPool (opts p) (brk p) (sem p) (doneCh p) (closed p) g
  (reconnectGen p) (metas p) (idle p) (cnt p) (world p).
Definition with_gen g p := mkPool (opts p) (brk p) (sem p) (doneCh p) (closed p) (gate p)
  g (metas p) (idle p) (cnt p) (world p).
Definition with_metas m p := mkPool (opts p) (brk p) (sem p) (doneCh p) (closed p) (gate p)
  (reconnectGen p) m (idle p) (cnt p) (world p).
Definition with_idle l p := mkPool (opts p) (brk p) (sem p) (doneCh p) (closed p) (gate p)
  (reconnectGen p) (metas p) l (cnt p) (world p).
Definition with_cnt c p := mkPool (opts p) (brk p) (sem p) (doneCh p) (closed p) (gate p)
  (reconnectGen p) (metas p) (idle p) c (world p).
Definition with_world w p := mkPool (opts p) (brk p) (sem p) (doneCh p) (closed p) (gate p)
  (reconnectGen p) (metas p) (idle p) (cnt p) w.

Definition add_waiting d p := with_cnt (mkCounters (waiting (cnt p) + d) (waitCount (cnt p))
  (waitNanos (cnt p)) (discards (cnt p)) (dialErrors (cnt p)) (reaped (cnt p))) p.
Definition add_wait d p := with_cnt (mkCounters (waiting (cnt p)) (waitCount (cnt p) + 1)
  (wrap64 (waitNanos (cnt p) + d)) (discards (cnt p)) (dialErrors (cnt p)) (reaped (cnt p))) p.
Definition add_discards p := with_cnt (mkCounters (waiting (cnt p)) (waitCount (cnt p))
  (waitNanos (cnt p)) (discards (cnt p) + 1) (dialErrors (cnt p)) (reaped (cnt p))) p.
Definition add_dialErrors p := with_cnt (mkCounters (waiting (cnt p)) (waitCount (cnt p))
  (waitNanos (cnt p)) (discards (cnt p)) (dialErrors (cnt p) + 1) (reaped (cnt p))) p.
Definition add_reaped p := with_cnt (mkCounters (waiting (cnt p)) (waitCount (cnt p))
  (waitNanos (cnt p)) (discards (cnt p)) (dialErrors (cnt p)) (reaped (cnt p) + 1)) p.

(** ** Construction *)

(** [New] with its options already applied.  [resumeCh] starts as a closed
    channel: the pool is not paused. *)
Definition New (o : Options) (t : Z) : Pool :=
  {| opts := o;
     brk := mkBreaker 0 0;
     sem := 0;
     doneCh := false;
     closed := false;
     gate := mkGate false 0 {[ 0%nat ]} 1;
     reconnectGen := 0;
     metas := ∅;
     idle := [];
     cnt := mkCounters 0 0 0 0 0 0;
     world := mkWorld t 0 ∅ [] false |}.

(** Which background goroutines [New] starts. *)
Definition starts_reaper (o : Options) : bool := (0 <? idleTimeout o) || (0 <? maxLifetime o).
Definition starts_warmUp (o : Options) : bool := (0 <? minIdle o)%nat.

(** ** Helpers *)

Definition emit (k : string) (e : option perr) (p : Pool) : Pool :=
  with_world (mkWorld (now (world p)) (nextConn (world p)) (closedConns (world p))
    (if hasOnEvent (opts p) then events (world p) ++ [mkEvent k e] else events (world p))
    (panicked (world p))) p.

Definition closeConn (c : conn) (p : Pool) : Pool :=
  with_world (mkWorld (now (world p)) (nextConn (world p)) ({[ c ]} ∪ closedConns (world p))
    (events (world p)) (panicked (world p))) p.

(** A successful dial yields a connection nobody has seen before. *)
Definition dialConn (p : Pool) : Pool * conn :=
  (with_world (mkWorld (now (world p)) (S (nextConn (world p))) (closedConns (world p))
     (events (world p)) (panicked (world p))) p,
   nextConn (world p)).

Definition panic (p : Pool) : Pool :=
  with_world (mkWorld (now (world p)) (nextConn (world p)) (closedConns (world p))
    (events (world p)) true) p.

Definition loadMeta (p : Pool) (c : conn) : option connMeta := metas p !! c.

Definition retire (c : conn) (p : Pool) : Pool :=
  closeConn c (with_metas (delete c (metas p)) p).

(** Receive from the semaphore without blocking. *)
Definition releaseSlot (p : Pool) : Pool :=
  match sem p with
  | O => emit "slot_underflow" (Some errSlotUnderflow) p
  | S n => with_sem n p
  end.

Definition rejectForeign (c : conn) (op : string) (p : Pool) : Pool :=
  emit ("foreign_" +:+ op) (Some errForeignConn) (closeConn c p).

Definition popIdle (p : Pool) : option (idleConn * Pool) :=
  match last (idle p) with
  | None => None
  | Some ic => Some (ic, with_idle (take (length (idle p) - 1) (idle p)) p)
  end.

(** ** Circuit breaker *)

(** [circuitAllows] up to its compare-and-swap: either a verdict, or the
    deadline and the clock reading the swap will use. *)
Definition circuitAllows_load (p : Pool) : bool + (Z * Z) :=
  if cbThreshold (opts p) <=? 0 then inl true
  else
    let until := cbOpenUntil (brk p) in
    if until =? 0 then inl true
    else
      let n := now (world p) in
      if n <? until then inl false else inr (until, n).

Definition circuitAllows_cas (until n : Z) (p : Pool) : bool * Pool :=
  if cbOpenUntil (brk p) =? until
  then (true, with_brk (mkBreaker (cbFailures (brk p)) (wrap64 (n + cbCooldown (opts p)))) p)
  else (false, p).

(** The whole method, run without interference. *)
Definition circuitAllows (p : Pool) : bool * Pool :=
  match circuitAllows_load p with
  | inl b => (b, p)
  | inr (until, n) => circuitAllows_cas until n p
  end.

(** [circuitRecordSuccess]: the store, then the swap. *)
Definition recordSuccess_reset (p : Pool) : Pool :=
  with_brk (mkBreaker 0 (cbOpenUntil (brk p))) p.

Definition recordSuccess_swap (p : Pool) : Pool :=
  let p' := with_brk (mkBreaker (cbFailures (brk p)) 0) p in
  if cbOpenUntil (brk p) =? 0 then p' else emit "circuit_close" None p'.

Definition circuitRecordSuccess (p : Pool) : Pool :=
  if cbThreshold (opts p) <=? 0 then p else recordSuccess_swap (recordSuccess_reset p).

(** [circuitRecordFailure]: the add (and whether the threshold is reached),
    then the swap that opens the breaker. *)
Definition recordFailure_add (p : Pool) : bool * Pool :=
  let n := cbFailures (brk p) + 1 in
  (cbThreshold (opts p) <=? n, with_brk (mkBreaker n (cbOpenUntil (brk p))) p).

Definition recordFailure_trip (e : perr) (p : Pool) : Pool :=
  let p' := with_brk (mkBreaker (cbFailures (brk p))
              (wrap64 (now (world p) + cbCooldown (opts p)))) p in
  if cbOpenUntil (brk p) =? 0 then emit "circuit_open" (Some e) p' else p'.

Definition circuitRecordFailure (e : perr) (p : Pool) : Pool :=
  if cbThreshold (opts p) <=? 0 then p
  else match recordFailure_add p with
       | (true, p') => recordFailure_trip e p'
       | (false, p') => p'
       end.

Definition CircuitOpen (p : Pool) : bool :=
  if cbThreshold (opts p) <=? 0 then false
  else negb (cbOpenUntil (brk p) =? 0) && (now (world p) <? cbOpenUntil (brk p)).

(** ** Stats *)

Record Stats := mkStats {
  Limit : nat; InUse : nat; Idle : nat; Waiting : Z; WaitCount : Z; WaitTime : Z;
  Discards : Z; DialErrors : Z; Reaped : Z; StatsCircuitOpen : bool }.

Definition stats (p : Pool) : Stats :=
  {| Limit := limit (opts p); InUse := sem p; Idle := length (idle p);
     Waiting := waiting (cnt p); WaitCount := waitCount (cnt p);
     WaitTime := waitNanos (cnt p); Discards := discards (cnt p);
     DialErrors := dialErrors (cnt p); Reaped := reaped (cnt p);
     StatsCircuitOpen := CircuitOpen p |}.

(** ** Choices the environment makes

    [Go] is the main case of a select (or the only continuation), [CtxDone] and
    [OnDone] the [ctx.Done()] and [p.done] cases; [Health b] is the verdict of
    the health check; [DialOk] and [DialFail e expired] the outcome of one dial,
    with whether the caller's context had expired by then. *)
Inductive choice :=
| Go
| CtxDone
| OnDone
| Health (ok : bool)
| DialOk
| DialFail (e : nat) (expired : bool).

(** ** Acquire *)

Inductive acq_pc :=
| AStart
| APaused
| ASnapshot
| APark (ch : nat)
| AEnter
| AWait (start : Z)
| ARecheck (start : Z)
| ADropSlot (start : Z) (e : perr)
| APop (start : Z)
| AExamine (start : Z) (ic : idleConn)
| ABreaker (start : Z)
| ACas (start until n : Z)
| ADial (start : Z) (i : nat) (backoff : Z)
| ABackoff (start : Z) (i : nat) (backoff : Z)
| ADialFail (start : Z) (e : perr)
| ADialErr (start : Z) (e : perr)
| ARecFail (start : Z) (e : perr)
| ATrip (start : Z) (e : perr)
| AOkReset (start : Z) (c : conn)
| AOkSwap (start : Z) (c : conn)
| ATagLoad (start : Z) (c : conn)
| ATagStore (start : Z) (c : conn) (g : Z)
| AFinish (start : Z) (r : result perr conn).

Definition initialBackoff (o : Options) : Z :=
  if dialRetryBackoff o <=? 0 then 100 * Millisecond else dialRetryBackoff o.

(** One attempt of the loop of [dialWithRetry], and the wait before the next
    one; the loop runs [1 + dialRetryMax] times. *)
Definition dialWithRetry_step (ch : choice) (p : Pool) (start : Z) (a : acq_pc) :
  option (Pool * acq_pc) :=
  match a, ch with
  | ADial _ i backoff, DialOk =>
      let '(p', c) := dialConn p in
      Some (p', if cbThreshold (opts p) <=? 0 then ATagLoad start c else AOkReset start c)
  | ADial _ i backoff, DialFail e expired =>
      if expired then Some (p, ADialFail start ErrCtx)
      else if (i =? dialRetryMax (opts p))%nat then Some (p, ADialFail start (DialErr e))
      else Some (p, ABackoff start i backoff)
  | ABackoff _ i backoff, Go => Some (p, ADial start (S i) (wrap64 (backoff * 2)))
  | ABackoff _ i backoff, CtxDone => Some (p, ADialFail start ErrCtx)
  | ABackoff _ i backoff, OnDone =>
      if doneCh p then Some (p, ADialFail start ErrPoolClosed) else None
  | _, _ => None
  end.

(** The examination of one idle connection: lifetime, then the health check
    unless it was released recently enough. *)
Definition expiredAge (p : Pool) (n : Z) (ic : idleConn) : bool :=
  (0 <? maxLifetime (opts p)) && (maxLifetime (opts p) <? n - createdAt ic).

Definition expiredIdle (p : Pool) (n : Z) (ic : idleConn) : bool :=
  (0 <? idleTimeout (opts p)) && (idleTimeout (opts p) <? n - releasedAt ic).

Definition skipCheck (p : Pool) (n : Z) (ic : idleConn) : bool :=
  (0 <? healthCheckDelay (opts p)) && (n - releasedAt ic <? healthCheckDelay (opts p)).

Definition examine_step (ch : choice) (p : Pool) (start : Z) (ic : idleConn) :
  option (Pool * acq_pc) :=
  let n := now (world p) in
  if expiredAge p n ic then
    Some (emit "reap_lifetime" None (add_reaped (retire (ic_conn ic) p)), APop start)
  else if negb (hasHealthCheck (opts p)) || skipCheck p n ic then
    Some (p, AFinish start (Ok (ic_conn ic)))
  else match ch with
       | Health true => Some (p, AFinish start (Ok (ic_conn ic)))
       | Health false =>
           Some (emit "discard" None (add_discards (retire (ic_conn ic) p)), APop start)
       | _ => None
       end.

Definition acquire_step (ch : choice) (p : Pool) (a : acq_pc) :
  option (Pool * (acq_pc + result perr conn)) :=
  match a with
  | AStart => Some (p, if closed p then inr (Err ErrPoolClosed) else inl APaused)
  | APaused => Some (p, inl (if paused (gate p) then ASnapshot else AEnter))
  | ASnapshot => Some (p, inl (APark (resumeCh (gate p))))
  | APark rc =>
      match ch with
      | Go => if decide (rc ∈ closedChans (gate p)) then Some (p, inl AEnter) else None
      | CtxDone => Some (p, inr (Err ErrCtx))
      | OnDone => if doneCh p then Some (p, inr (Err ErrPoolClosed)) else None
      | _ => None
      end
  | AEnter => Some (add_waiting 1 p, inl (AWait (now (world p))))
  | AWait start =>
      match ch with
      | Go => if (sem p <? limit (opts p))%nat
              then Some (add_waiting (-1) (with_sem (S (sem p)) p), inl (ARecheck start))
              else None
      | OnDone => if doneCh p
                  then Some (add_waiting (-1) p, inl (AFinish start (Err ErrPoolClosed)))
                  else None
      | CtxDone => Some (add_waiting (-1) p, inl (AFinish start (Err ErrCtx)))
      | _ => None
      end
  | ARecheck start =>
      Some (p, inl (if closed p then ADropSlot start ErrPoolClosed else APop start))
  | ADropSlot start e => Some (releaseSlot p, inl (AFinish start (Err e)))
  | APop start =>
      match popIdle p with
      | None => Some (p, inl (ABreaker start))
      | Some (ic, p') => Some (p', inl (AExamine start ic))
      end
  | AExamine start ic =>
      match examine_step ch p start ic with
      | Some (p', a') => Some (p', inl a')
      | None => None
      end
  | ABreaker start =>
      Some (p, inl (match circuitAllows_load p with
                    | inl true => ADial start 0 (initialBackoff (opts p))
                    | inl false => ADropSlot start ErrCircuitOpen
                    | inr (until, n) => ACas start until n
                    end))
  | ACas start until n =>
      let '(won, p') := circuitAllows_cas until n p in
      Some (p', inl (if won then ADial start 0 (initialBackoff (opts p))
                     else ADropSlot start ErrCircuitOpen))
  | ADial start _ _ | ABackoff start _ _ =>
      match dialWithRetry_step ch p start a with
      | Some (p', a') => Some (p', inl a')
      | None => None
      end
  | ADialFail start e => Some (releaseSlot p, inl (ADialErr start e))
  | ADialErr start e =>
      Some (emit "dial_error" (Some e) (add_dialErrors p),
            inl (if cbThreshold (opts p) <=? 0 then AFinish start (Err (Wrapped e))
                 else ARecFail start e))
  | ARecFail start e =>
      let '(trip, p') := recordFailure_add p in
      Some (p', inl (if trip then ATrip start e else AFinish start (Err (Wrapped e))))
  | ATrip start e => Some (recordFailure_trip e p, inl (AFinish start (Err (Wrapped e))))
  | AOkReset start c => Some (recordSuccess_reset p, inl (AOkSwap start c))
  | AOkSwap start c => Some (recordSuccess_swap p, inl (ATagLoad start c))
  | ATagLoad start c => Some (p, inl (ATagStore start c (reconnectGen p)))
  | ATagStore start c g =>
      Some (with_metas (<[c := mkMeta g (now (world p))]> (metas p)) p,
            inl (AFinish start (Ok c)))
  | AFinish start r => Some (add_wait (now (world p) - start) p, inr r)
  end.

(** ** Release and Discard *)

Inductive rel_pc :=
| RStart (c : conn)
| RClosed (c : conn) (m : connMeta)
| RGen (c : conn) (m : connMeta)
| RLock (c : conn) (m : connMeta) (n : Z)
| RClose (c : conn)
| RStale (c : conn)
| RSlot
| RSlotStale.

Definition release_step (p : Pool) (r : rel_pc) : Pool * option rel_pc :=
  match r with
  | RStart c =>
      match loadMeta p c with
      | None => (rejectForeign c "release" p, None)
      | Some m => (p, Some (RClosed c m))
      end
  | RClosed c m => (p, Some (if closed p then RClose c else RGen c m))
  | RGen c m =>
      (p, Some (if gen m <? reconnectGen p then RStale c else RLock c m (now (world p))))
  | RLock c m n =>
      if closed p then (p, Some (RClose c))
      else if decide (c ∈ ic_conn <$> idle p) then
        (emit "double_release" (Some errDoubleRelease) p, None)
      else (with_idle (idle p ++ [mkIdle c (meta_createdAt m) n]) p, Some RSlot)
  | RClose c => (retire c p, Some RSlot)
  | RStale c => (retire c p, Some RSlotStale)
  | RSlot => (releaseSlot p, None)
  | RSlotStale => (emit "reconnect_discard" None (add_discards (releaseSlot p)), None)
  end.

Inductive disc_pc :=
| DStart (c : conn)
| DRetire (c : conn)
| DSlot.

Definition discard_step (p : Pool) (d : disc_pc) : Pool * option disc_pc :=
  match d with
  | DStart c =>
      match loadMeta p c with
      | None => (rejectForeign c "discard" p, None)
      | Some _ => (p, Some (DRetire c))
      end
  | DRetire c => (retire c p, Some DSlot)
  | DSlot => (emit "discard" None (add_discards (releaseSlot p)), None)
  end.

(** ** The reaper *)

(** The tick interval: half the smaller configured timeout, at least 1s. *)
Definition reaperInterval (o : Options) : Z :=
  let interval := idleTimeout o in
  let interval := if (0 <? maxLifetime o) && ((interval =? 0) || (maxLifetime o <? interval))
                  then maxLifetime o else interval in
  let interval := interval `quot` 2 in
  if interval <? Second then Second else interval.

Definition expired (p : Pool) (n : Z) (ic : idleConn) : bool :=
  expiredIdle p n ic || expiredAge p n ic.

Inductive reap_pc :=
| EStart
| ELock (n : Z)
| ERetire (l : list conn).

Definition reapExpired_step (p : Pool) (r : reap_pc) : Pool * option reap_pc :=
  match r with
  | EStart => (p, if closed p then None else Some (ELock (now (world p))))
  | ELock n =>
      if closed p then (p, None)
      else (with_idle (filter (λ ic, expired p n ic = false) (idle p)) p,
            Some (ERetire (ic_conn <$> filter (λ ic, expired p n ic = true) (idle p))))
  | ERetire [] => (p, None)
  | ERetire (c :: l) => (emit "reap_idle" None (add_reaped (retire c p)), Some (ERetire l))
  end.

(** ** Warm-up *)

Inductive warm_pc :=
| WLoop (i : nat)
| WBreaker (i : nat)
| WCas (i : nat) (until n : Z)
| WSem (i : nat)
| WDial (i : nat)
| WFail (i : nat) (e : perr)
| WDialErr (i : nat) (e : perr)
| WRecFail (i : nat) (e : perr)
| WTrip (i : nat) (e : perr)
| WOkReset (i : nat) (c : conn)
| WOkSwap (i : nat) (c : conn)
| WStore (i : nat) (c : conn)
| WSlot (i : nat)
| WSlotEnd.

Definition warmTarget (o : Options) : nat := Nat.min (minIdle o) (limit o).

Definition warmUp_step (ch : choice) (p : Pool) (w : warm_pc) : option (Pool * option warm_pc) :=
  match w with
  | WLoop i =>
      Some (p, if (i <? warmTarget (opts p))%nat
               then (if doneCh p then None else Some (WBreaker i)) else None)
  | WBreaker i =>
      Some (p, match circuitAllows_load p with
               | inl true => Some (WSem i)
               | inl false => None
               | inr (until, n) => Some (WCas i until n)
               end)
  | WCas i until n =>
      let '(won, p') := circuitAllows_cas until n p in
      Some (p', if won then Some (WSem i) else None)
  | WSem i =>
      match ch with
      | Go => if (sem p <? limit (opts p))%nat
              then Some (with_sem (S (sem p)) p, Some (WDial i)) else None
      | OnDone => if doneCh p then Some (p, None) else None
      | _ => None
      end
  | WDial i =>
      match ch with
      | DialOk =>
          let '(p', c) := dialConn p in
          Some (p', Some (if cbThreshold (opts p) <=? 0 then WStore i c else WOkReset i c))
      | DialFail e _ => Some (p, Some (WFail i (DialErr e)))
      | _ => None
      end
  | WFail i e => Some (releaseSlot p, Some (WDialErr i e))
  | WDialErr i e =>
      Some (emit "dial_error" (Some e) (add_dialErrors p),
            Some (if cbThreshold (opts p) <=? 0 then WLoop (S i) else WRecFail i e))
  | WRecFail i e =>
      let '(trip, p') := recordFailure_add p in
      Some (p', Some (if trip then WTrip i e else WLoop (S i)))
  | WTrip i e => Some (recordFailure_trip e p, Some (WLoop (S i)))
  | WOkReset i c => Some (recordSuccess_reset p, Some (WOkSwap i c))
  | WOkSwap i c => Some (recordSuccess_swap p, Some (WStore i c))
  | WStore i c =>
      let n := now (world p) in
      if closed p then Some (closeConn c p, Some WSlotEnd)
      else Some (with_idle (idle p ++ [mkIdle c n n])
                   (with_metas (<[c := mkMeta (reconnectGen p) n]> (metas p)) p),
                 Some (WSlot i))
  | WSlot i => Some (releaseSlot p, Some (WLoop (S i)))
  | WSlotEnd => Some (releaseSlot p, None)
  end.

(** ** Pause and Resume *)

Inductive pause_pc := PStart | PEmit.

Definition pause_step (p : Pool) (a : pause_pc) : Pool * option pause_pc :=
  match a with
  | PStart =>
      if paused (gate p) then (p, None)
      else (with_gate (mkGate true (nextChan (gate p)) (closedChans (gate p))
                         (S (nextChan (gate p)))) p, Some PEmit)
  | PEmit => (emit "pause" None p, None)
  end.

Inductive resume_pc := UStart | UClose (ch : nat).

Definition resume_step (p : Pool) (a : resume_pc) : Pool * option resume_pc :=
  match a with
  | UStart =>
      if paused (gate p)
      then (with_gate (mkGate false (nextChan (gate p))
                         ({[ nextChan (gate p) ]} ∪ closedChans (gate p))
                         (S (nextChan (gate p)))) p,
            Some (UClose (resumeCh (gate p))))
      else (p, None)
  | UClose ch =>
      if decide (ch ∈ closedChans (gate p)) then (panic p, None)
      else (emit "resume" None
              (with_gate (mkGate (paused (gate p)) (resumeCh (gate p))
                            ({[ ch ]} ∪ closedChans (gate p)) (nextChan (gate p))) p), None)
  end.

Definition IsPaused (p : Pool) : bool := paused (gate p).

(** ** Reconnect *)

Inductive reconn_pc := NStart | NSwap | NRetire (l : list conn) (n : nat).

Definition reconnect_step (p : Pool) (a : reconn_pc) : Pool * (reconn_pc + nat) :=
  match a with
  | NStart => (with_gen (reconnectGen p + 1) p, inl NSwap)
  | NSwap => (with_idle [] p, inl (NRetire (ic_conn <$> idle p) (length (idle p))))
  | NRetire [] n => (emit "reconnect" None p, inr n)
  | NRetire (c :: l) n => (add_reaped (retire c p), inl (NRetire l n))
  end.

(** ** Close *)

Inductive close_pc := CStart | CSwap | CDone (l : list conn) | CRetire (l : list conn) | CPoll.

Definition close_step (ch : choice) (p : Pool) (a : close_pc) :
  option (Pool * (close_pc + result perr unit)) :=
  match a with
  | CStart => if closed p then Some (p, inr (Ok tt)) else Some (with_closed true p, inl CSwap)
  | CSwap => Some (with_idle [] p, inl (CDone (ic_conn <$> idle p)))
  | CDone l =>
      if doneCh p then Some (panic p, inl (CRetire l))
      else Some (with_doneCh true p, inl (CRetire l))
  | CRetire [] => Some (p, inl CPoll)
  | CRetire (c :: l) => Some (retire c p, inl (CRetire l))
  | CPoll =>
      if (sem p =? 0)%nat then Some (p, inr (Ok tt))
      else match ch with
           | CtxDone => Some (p, inr (Err ErrCtx))
           | Go => Some (p, inl CPoll)
           | _ => None
           end
  end.

(** ** Running one method alone

    The methods as they behave when nothing interferes: the step iterated
    until it returns, consuming one choice per step. *)

Fixpoint Acquire (cs : list choice) (p : Pool) (a : acq_pc) : option (Pool * result perr conn) :=
  match cs with
  | [] => None
  | ch :: cs =>
      match acquire_step ch p a with
      | Some (p', inl a') => Acquire cs p' a'
      | Some (p', inr r) => Some (p', r)
      | None => None
      end
  end.

(** Release is at most five steps, Discard at most three: no choices. *)
Fixpoint release_run (fuel : nat) (p : Pool) (r : rel_pc) : option Pool :=
  match fuel with
  | O => None
  | S fuel =>
      match release_step p r with
      | (p', None) => Some p'
      | (p', Some r') => release_run fuel p' r'
      end
  end.

Definition Release (p : Pool) (c : conn) : option Pool := release_run 6 p (RStart c).

Fixpoint discard_run (fuel : nat) (p : Pool) (d : disc_pc) : option Pool :=
  match fuel with
  | O => None
  | S fuel =>
      match discard_step p d with
      | (p', None) => Some p'
      | (p', Some d') => discard_run fuel p' d'
      end
  end.

Definition Discard (p : Pool) (c : conn) : option Pool := discard_run 4 p (DStart c).

Fixpoint reconnect_run (fuel : nat) (p : Pool) (a : reconn_pc) : option (Pool * nat) :=
  match fuel with
  | O => None
  | S fuel =>
      match reconnect_step p a with
      | (p', inl a') => reconnect_run fuel p' a'
      | (p', inr n) => Some (p', n)
      end
  end.

Definition Reconnect (p : Pool) : option (Pool * nat) :=
  reconnect_run (length (idle p) + 3) p NStart.

Fixpoint reap_run (fuel : nat) (p : Pool) (r : reap_pc) : option Pool :=
  match fuel with
  | O => None
  | S fuel =>
      match reapExpired_step p r with
      | (p', None) => Some p'
      | (p', Some r') => reap_run fuel p' r'
      end
  end.

Definition reapExpired (p : Pool) : option Pool := reap_run (length (idle p) + 3) p EStart.

Definition Pause (p : Pool) : Pool :=
  match pause_step p PStart with
  | (p', Some a) => (pause_step p' a).1
  | (p', None) => p'
  end.

Definition Resume (p : Pool) : Pool :=
  match resume_step p UStart with
  | (p', Some a) => (resume_step p' a).1
  | (p', None) => p'
  end.

End Pool.
