(* ===== verification/PoolSystem.v ===== *)
(** * Goroutines sharing one pool: interleavings and invariants

    The concurrent system of src/pool/pool.go: any number of session
    goroutines that Acquire a connection, use it and give it back exactly once
    (Release or Discard), the reaper, the warm-up goroutine, and admin commands
    (Pause, Resume, Reconnect, Close), interleaved at the granularity of the
    atomic steps of Pool.v, with time passing in between.  Invariants are
    proved by rule induction over the reachable states. *)

From S2P Require Import Prelude Pool.
Import Pool.
Open Scope nat_scope.

Module PoolSystem.

(** ** Threads *)

Inductive thread :=
| SOut
| SAcq (a : acq_pc)
| SHold (c : nat)
| SRel (r : rel_pc)
| SDisc (d : disc_pc)
| TReap (r : reap_pc)
| TWarm (w : warm_pc)
| TPause (a : pause_pc)
| TResume (a : resume_pc)
| TReconn (a : reconn_pc)
| TClose (a : close_pc)
| TEnd.

#[export] Instance acq_pc_eq_dec : EqDecision acq_pc.
Proof. solve_decision. Defined.
#[export] Instance rel_pc_eq_dec : EqDecision rel_pc.
Proof. solve_decision. Defined.
#[export] Instance disc_pc_eq_dec : EqDecision disc_pc.
Proof. solve_decision. Defined.
#[export] Instance reap_pc_eq_dec : EqDecision reap_pc.
Proof. solve_decision. Defined.
#[export] Instance warm_pc_eq_dec : EqDecision warm_pc.
Proof. solve_decision. Defined.
#[export] Instance pause_pc_eq_dec : EqDecision pause_pc.
Proof. solve_decision. Defined.
#[export] Instance resume_pc_eq_dec : EqDecision resume_pc.
Proof. solve_decision. Defined.
#[export] Instance reconn_pc_eq_dec : EqDecision reconn_pc.
Proof. solve_decision. Defined.
#[export] Instance close_pc_eq_dec : EqDecision close_pc.
Proof. solve_decision. Defined.
#[export] Instance thread_eq_dec : EqDecision thread.
Proof. solve_decision. Defined.

Definition or_end {A} (f : A → thread) (o : option A) (e : thread) : thread :=
  match o with Some x => f x | None => e end.

(** One step of one goroutine.  A session holds the connection [Acquire]
    returned until it hands it back, once. *)
Inductive tstep : Pool → thread → Pool → thread → Prop :=
| ts_call p : tstep p SOut p (SAcq AStart)
| ts_acquire ch p a p' a' :
    acquire_step ch p a = Some (p', inl a') → tstep p (SAcq a) p' (SAcq a')
| ts_acquired ch p a p' c :
    acquire_step ch p a = Some (p', inr (Ok c)) → tstep p (SAcq a) p' (SHold c)
| ts_refused ch p a p' e :
    acquire_step ch p a = Some (p', inr (Err e)) → tstep p (SAcq a) p' SOut
| ts_giveback p c : tstep p (SHold c) p (SRel (RStart c))
| ts_giveup p c : tstep p (SHold c) p (SDisc (DStart c))
| ts_release p r p' o :
    release_step p r = (p', o) → tstep p (SRel r) p' (or_end SRel o SOut)
| ts_discard p d p' o :
    discard_step p d = (p', o) → tstep p (SDisc d) p' (or_end SDisc o SOut)
| ts_reap p r p' o :
    reapExpired_step p r = (p', o) → tstep p (TReap r) p' (or_end TReap o TEnd)
| ts_warm ch p w p' o :
    warmUp_step ch p w = Some (p', o) → tstep p (TWarm w) p' (or_end TWarm o TEnd)
| ts_pause p a p' o :
    pause_step p a = (p', o) → tstep p (TPause a) p' (or_end TPause o TEnd)
| ts_resume p a p' o :
    resume_step p a = (p', o) → tstep p (TResume a) p' (or_end TResume o TEnd)
| ts_reconn p a p' a' :
    reconnect_step p a = (p', inl a') → tstep p (TReconn a) p' (TReconn a')
| ts_reconn_end p a p' n :
    reconnect_step p a = (p', inr n) → tstep p (TReconn a) p' TEnd
| ts_close ch p a p' a' :
    close_step ch p a = Some (p', inl a') → tstep p (TClose a) p' (TClose a')
| ts_close_end ch p a p' r :
    close_step ch p a = Some (p', inr r) → tstep p (TClose a) p' TEnd.

(** A goroutine that may start at any time; the warm-up goroutine is started
    by [New] only. *)
Inductive spawns : thread → Prop :=
| spawn_session : spawns SOut
| spawn_reap : spawns (TReap EStart)
| spawn_pause : spawns (TPause PStart)
| spawn_resume : spawns (TResume UStart)
| spawn_reconn : spawns (TReconn NStart)
| spawn_close : spawns (TClose CStart).

Definition tick (d : Z) (p : Pool) : Pool :=
  with_world (mkWorld (now (world p) + d) (nextConn (world p)) (closedConns (world p))
    (events (world p)) (panicked (world p))) p.

Record sys := mkSys { pool : Pool; threads : list thread }.

Inductive sys_step : sys → sys → Prop :=
| sys_thread p ts1 t ts2 p' t' :
    tstep p t p' t' → sys_step (mkSys p (ts1 ++ t :: ts2)) (mkSys p' (ts1 ++ t' :: ts2))
| sys_spawn p ts t : spawns t → sys_step (mkSys p ts) (mkSys p (t :: ts))
| sys_tick p ts d : (0 ≤ d)%Z → sys_step (mkSys p ts) (mkSys (tick d p) ts).

Definition sys_init (o : Options) (t : Z) : sys :=
  mkSys (New o t) (if starts_warmUp o then [TWarm (WLoop 0)] else []).

Definition reachable (o : Options) (t : Z) (s : sys) : Prop := rtc sys_step (sys_init o t) s.

(** ** What a goroutine holds

    [slot t] is the number of semaphore slots [t] has taken and not given back,
    [owned t] the connections only [t] can reach, [tagged t] those among them
    that have a [connMeta] record. *)

Definition slot (t : thread) : nat :=
  match t with
  | SAcq (ARecheck _) | SAcq (ADropSlot _ _) | SAcq (APop _) | SAcq (AExamine _ _)
  | SAcq (ABreaker _) | SAcq (ACas _ _ _) | SAcq (ADial _ _ _) | SAcq (ABackoff _ _ _)
  | SAcq (ADialFail _ _) | SAcq (AOkReset _ _) | SAcq (AOkSwap _ _)
  | SAcq (ATagLoad _ _) | SAcq (ATagStore _ _ _) | SAcq (AFinish _ (Ok _)) => 1
  | SHold _ | SRel _ | SDisc _ => 1
  | TWarm (WDial _) | TWarm (WFail _ _) | TWarm (WOkReset _ _) | TWarm (WOkSwap _ _)
  | TWarm (WStore _ _) | TWarm (WSlot _) | TWarm WSlotEnd => 1
  | _ => 0
  end.

Definition untagged (t : thread) : list nat :=
  match t with
  | SAcq (AOkReset _ c) | SAcq (AOkSwap _ c) | SAcq (ATagLoad _ c) | SAcq (ATagStore _ c _)
  | TWarm (WOkReset _ c) | TWarm (WOkSwap _ c) | TWarm (WStore _ c) => [c]
  | _ => []
  end.

Definition tagged (t : thread) : list nat :=
  match t with
  | SAcq (AExamine _ ic) => [ic_conn ic]
  | SAcq (AFinish _ (Ok c)) | SHold c => [c]
  | SRel (RStart c) | SRel (RClosed c _) | SRel (RGen c _) | SRel (RLock c _ _)
  | SRel (RClose c) | SRel (RStale c) => [c]
  | SDisc (DStart c) | SDisc (DRetire c) => [c]
  | TReap (ERetire l) | TReconn (NRetire l _) | TClose (CDone l) | TClose (CRetire l) => l
  | _ => []
  end.

Definition owned (t : thread) : list nat := untagged t ++ tagged t.

(** Close is between its compare-and-swap and closing [done]. *)
Definition closing (t : thread) : nat :=
  match t with TClose CSwap | TClose (CDone _) => 1 | _ => 0 end.
Definition swapping (t : thread) : nat := match t with TClose CSwap => 1 | _ => 0 end.

(** The channel a Resume has unhooked and is about to close. *)
Definition waking (t : thread) : list nat := match t with TResume (UClose ch) => [ch] | _ => [] end.

(** The channel a paused Acquire waits on. *)
Definition parked (t : thread) : list nat := match t with SAcq (APark ch) => [ch] | _ => [] end.

(** Close has closed [done]. *)
Definition past (t : thread) : Prop :=
  match t with TClose (CRetire _) | TClose CPoll => True | _ => False end.

(** Events that report a misuse of the pool by its callers. *)
Definition no_fault (e : event) : Prop :=
  kind e ∉ ["foreign_release"; "foreign_discard"; "double_release"; "slot_underflow"].

Definition b2n (b : bool) : nat := if b then 1 else 0.
Definition has {A} (o : option A) : nat := match o with Some _ => 1 | None => 0 end.

Definition idle_conns (p : Pool) : list nat := ic_conn <$> idle p.

(** ** The invariant *)

(** How many places hold connection [c]. *)
Definition places (c : nat) (p : Pool) (ts : list thread) : nat :=
  occ c (idle_conns p) + total (λ t, occ c (owned t)) ts.

Definition tagged_places (c : nat) (p : Pool) (ts : list thread) : nat :=
  occ c (idle_conns p) + total (λ t, occ c (tagged t)) ts.

Record Inv (s : sys) : Prop := mkInv {
  inv_sem : sem (pool s) = total slot (threads s);
  inv_cap : sem (pool s) ≤ limit (opts (pool s));
  inv_unique : ∀ c, places c (pool s) (threads s) ≤ 1;
  inv_fresh : ∀ c, nextConn (world (pool s)) ≤ c →
    places c (pool s) (threads s) = 0 ∧ c ∉ closedConns (world (pool s));
  inv_open : ∀ c, 1 ≤ places c (pool s) (threads s) → c ∉ closedConns (world (pool s));
  inv_meta : ∀ c, has (metas (pool s) !! c) = tagged_places c (pool s) (threads s);
  inv_closing : total closing (threads s) + b2n (doneCh (pool s)) = b2n (closed (pool s));
  inv_drained : closed (pool s) = true → total swapping (threads s) = 0 → idle (pool s) = [];
  inv_gate : resumeCh (gate (pool s)) ∈ closedChans (gate (pool s)) ↔ paused (gate (pool s)) = false;
  inv_waking : ∀ ch, let w := total (λ t, occ ch (waking t)) (threads s) in
    w ≤ 1 ∧ (1 ≤ w → (ch ∉ closedChans (gate (pool s))) ∧ ch ≠ resumeCh (gate (pool s)));
  inv_chans : ∀ ch, nextChan (gate (pool s)) ≤ ch →
    (ch ∉ closedChans (gate (pool s))) ∧ ch ≠ resumeCh (gate (pool s))
    ∧ total (λ t, occ ch (waking t)) (threads s) = 0;
  inv_parked : ∀ ch, 1 ≤ total (λ t, occ ch (parked t)) (threads s) →
    ch ∈ closedChans (gate (pool s)) ∨ ch = resumeCh (gate (pool s))
    ∨ 1 ≤ total (λ t, occ ch (waking t)) (threads s);
  inv_panic : panicked (world (pool s)) = false;
}.

(** ** Opening the helpers *)

Section helpers.
Implicit Types (p : Pool).

Lemma releaseSlot_pos p : 1 ≤ sem p → releaseSlot p = with_sem (pred (sem p)) p.
Proof. unfold releaseSlot. destruct (sem p); [lia | done]. Qed.

Lemma popIdle_Some p ic p' :
  popIdle p = Some (ic, p') → ∃ l, idle p = l ++ [ic] ∧ p' = with_idle l p.
Proof.
  unfold popIdle. destruct (last (idle p)) as [x|] eqn:E; intros; simplify_eq.
  apply last_Some in E as [l E]. exists l. split; [done|].
  rewrite E, length_app. simpl.
  replace (length l + 1 - 1) with (length l) by lia. by rewrite take_app_length.
Qed.

Lemma popIdle_None p : popIdle p = None → idle p = [].
Proof.
  unfold popIdle. destruct (last (idle p)) eqn:E; [done|]. by apply last_None in E.
Qed.

Lemma popIdle_snoc p l ic : idle p = l ++ [ic] → popIdle p = Some (ic, with_idle l p).
Proof.
  intros E. unfold popIdle. rewrite E, last_snoc, length_app. simpl.
  replace (length l + 1 - 1) with (length l) by lia. by rewrite take_app_length.
Qed.

(** The reaper splits the idle stack: nothing is lost or duplicated. *)
Lemma occ_split_idle c (f : idleConn → bool) (l : list idleConn) :
  occ c (ic_conn <$> filter (λ ic, f ic = false) l)
  + occ c (ic_conn <$> filter (λ ic, f ic = true) l) = occ c (ic_conn <$> l).
Proof.
  induction l as [|x l IH]; [done|]. rewrite !filter_cons.
  repeat case_decide; destruct (f x); try congruence; rewrite !fmap_cons; cbn [occ]; lia.
Qed.
End helpers.

(** Case analysis on a goroutine's step, with every helper opened. *)
Ltac open_helpers :=
  unfold recordFailure_add, recordFailure_trip, recordSuccess_reset, recordSuccess_swap,
    circuitAllows_cas, dialConn, rejectForeign in *.

Ltac tcases H :=
  inversion H; subst; clear H;
  unfold acquire_step, examine_step, dialWithRetry_step, release_step, discard_step,
    reapExpired_step, warmUp_step, pause_step, resume_step, reconnect_step, close_step in *;
  open_helpers; step_cases;
  repeat match goal with
  | H : popIdle _ = Some _ |- _ => apply popIdle_Some in H as (? & ? & ->)
  | H : popIdle _ = None |- _ => apply popIdle_None in H
  end;
  unfold retire, closeConn, emit, panic, add_waiting, add_wait, add_discards,
    add_dialErrors, add_reaped;
  simpl in *.

(** ** The effect of one step *)

(** What the global invariant says about the goroutine that is about to move. *)
Record local_ok (p : Pool) (t : thread) : Prop := mkLocal {
  lo_slot : slot t ≤ sem p;
  lo_meta : ∀ c, c ∈ tagged t → is_Some (metas p !! c);
  lo_unmeta : ∀ c, c ∈ untagged t → metas p !! c = None;
  lo_unique : ∀ c, occ c (idle_conns p) + occ c (owned t) ≤ 1;
  lo_fresh : ∀ c, nextConn (world p) ≤ c →
    occ c (idle_conns p) + occ c (owned t) = 0 ∧ metas p !! c = None;
  lo_closing : closing t + b2n (doneCh p) ≤ 1;
  lo_waking : ∀ ch, ch ∈ waking t → ch ∉ closedChans (gate p);
}.

(** The branches a well-behaved goroutine never takes: giving back a connection
    the pool does not know, one that is already idle, closing a closed channel. *)
Ltac exclude :=
  try (exfalso;
    match goal with
    | L : local_ok _ _, H : loadMeta ?p ?c = None |- _ =>
        destruct (lo_meta _ _ L c) as [? ?]; [set_solver | unfold loadMeta in H; congruence]
    | L : local_ok ?p _, H : ?c ∈ ic_conn <$> idle ?p |- _ =>
        pose proof (lo_unique _ _ L c) as HU; unfold idle_conns in HU;
        pose proof (proj1 (occ_elem_of _ _) H);
        simpl in HU; rewrite decide_True in HU by done; lia
    | L : local_ok _ _, H : doneCh _ = true |- _ =>
        pose proof (lo_closing _ _ L) as HU; rewrite H in HU; simpl in HU; lia
    | L : local_ok _ _, H : ?ch ∈ closedChans _ |- _ =>
        apply (lo_waking _ _ L ch); [set_solver | done]
    end).

Ltac lcases H L :=
  let HS := fresh "HS" in pose proof (lo_slot _ _ L) as HS;
  tcases H; exclude; rewrite ?releaseSlot_pos by done; simpl.

(** Count occurrences through appends and the reaper's split. *)
Ltac count :=
  unfold idle_conns, owned; simpl;
  repeat match goal with H : idle _ = _ |- _ => rewrite H; clear H end;
  rewrite ?fmap_app, ?occ_app; simpl;
  repeat match goal with
  | |- context [filter (λ ic, ?f ic = false) ?l] =>
      let K := fresh in
      match goal with |- context [occ ?c _] => pose proof (occ_split_idle c f l) as K end;
      revert K; generalize (ic_conn <$> filter (λ ic, f ic = false) l);
      generalize (ic_conn <$> filter (λ ic, f ic = true) l); intros
  end;
  repeat case_decide; subst; try lia.

Section effects.
Context {p p' : Pool} {t t' : thread}.

Lemma effect_opts : tstep p t p' t' → opts p' = opts p.
Proof. intros H. tcases H; try done. all: unfold releaseSlot; by case_match. Qed.

(** The semaphore moves with the slots the goroutine holds, and a slot is
    only taken below the limit. *)
Lemma effect_sem :
  tstep p t p' t' → local_ok p t →
  sem p' + slot t = sem p + slot t' ∧ (slot t' ≤ slot t ∨ sem p < limit (opts p)).
Proof. intros H L. lcases H L; lia. Qed.

(** Connections move between the idle stack and goroutines; a new place
    appears only for a freshly dialed connection. *)
Lemma effect_places :
  tstep p t p' t' → local_ok p t →
  nextConn (world p) ≤ nextConn (world p') ∧
  ∀ c, occ c (idle_conns p') + occ c (owned t') ≤ occ c (idle_conns p) + occ c (owned t)
    + (if decide (nextConn (world p) ≤ c < nextConn (world p')) then 1 else 0).
Proof.
  intros H L. lcases H L; (split; [lia|]); intros; count.
Qed.

(** A connection is only closed by the goroutine that owns it, which gives
    it up in the same step. *)
Lemma effect_closed c :
  tstep p t p' t' → local_ok p t → c ∈ closedConns (world p') →
  c ∈ closedConns (world p) ∨
  (1 ≤ occ c (owned t) ∧ occ c (idle_conns p') + occ c (owned t') = 0).
Proof.
  intros H L. pose proof (lo_unique _ _ L c) as HU. revert HU.
  lcases H L; intros HU Hc; try (left; done);
    (apply elem_of_union in Hc as [->%elem_of_singleton|Hc]; [right|by left]);
    revert HU; count.
Qed.

Lemma local_has_tagged c : local_ok p t → 1 ≤ occ c (tagged t) → has (metas p !! c) = 1.
Proof.
  intros L Hc. destruct (lo_meta _ _ L c) as [m ->]; [|done].
  apply occ_elem_of. lia.
Qed.

Lemma local_has_untagged c : local_ok p t → 1 ≤ occ c (untagged t) → has (metas p !! c) = 0.
Proof.
  intros L Hc. rewrite (lo_unmeta _ _ L c); [done|]. apply occ_elem_of. lia.
Qed.

(** The dial-time records follow the tagged places one for one. *)
Lemma effect_meta c :
  tstep p t p' t' → local_ok p t →
  has (metas p' !! c) + occ c (idle_conns p) + occ c (tagged t)
  = has (metas p !! c) + occ c (idle_conns p') + occ c (tagged t').
Proof.
  intros H L. pose proof (lo_unique _ _ L c) as HU.
  pose proof (local_has_tagged c L) as HM. pose proof (local_has_untagged c L) as HN.
  revert HU HM HN. lcases H L; rewrite ?lookup_insert, ?lookup_delete; count; simpl; lia.
Qed.

(** Exactly the closer that flipped [closed] closes [done]. *)
Lemma effect_closing :
  tstep p t p' t' → local_ok p t →
  closing t' + b2n (doneCh p') + b2n (closed p) = closing t + b2n (doneCh p) + b2n (closed p').
Proof.
  intros H L. lcases H L; try lia;
    repeat match goal with
    | H : closed _ = _ |- _ => rewrite H
    | H : doneCh _ = _ |- _ => rewrite H
    end; simpl; lia.
Qed.

(** Once [closed] is set nothing is pushed on the idle stack. *)
Lemma effect_drained :
  tstep p t p' t' → local_ok p t → closed p' = true → swapping t' = 0 →
  idle p' = [] ∨ (closed p = true ∧ swapping t = 0 ∧ (idle p = [] → idle p' = [])).
Proof.
  intros H L. lcases H L; intros; simplify_eq; try (by left); right;
    repeat split; try done; try congruence;
    intros Hi; rewrite Hi in *; try done; by match goal with H : [] = ?l ++ _ |- _ => destruct l end.
Qed.

Lemma effect_panic :
  tstep p t p' t' → local_ok p t → panicked (world p') = panicked (world p).
Proof. intros H L. by lcases H L. Qed.

(** No caller error is ever reported. *)
Lemma effect_events :
  tstep p t p' t' → local_ok p t →
  ∃ l, events (world p') = events (world p) ++ l ∧ Forall no_fault l.
Proof.
  intros H L. lcases H L; try (exists []; by rewrite app_nil_r);
    (case_match; [eexists; split; [reflexivity | apply Forall_singleton; by apply (bool_decide_unpack _)]
                 | exists []; by rewrite app_nil_r]).
Qed.

(** [done] stays closed, and a closer that got past it has closed it. *)
Lemma effect_past :
  tstep p t p' t' → local_ok p t → (past t → doneCh p = true) →
  (doneCh p = true → doneCh p' = true) ∧ (past t' → doneCh p' = true).
Proof. intros H L. lcases H L; intros Hp; split; try done; eauto. Qed.

(** The pause gate moves only by Pause and by Resume's two steps; a goroutine
    parks on the channel that is installed at that moment. *)
Inductive gate_effect : Gate → list nat → Gate → list nat → Prop :=
| ge_none g w : gate_effect g w g w
| ge_pause g : paused g = false →
    gate_effect g [] (mkGate true (nextChan g) (closedChans g) (S (nextChan g))) []
| ge_resume g : paused g = true →
    gate_effect g [] (mkGate false (nextChan g) ({[ nextChan g ]} ∪ closedChans g)
      (S (nextChan g))) [resumeCh g]
| ge_wake g ch : gate_effect g [ch]
    (mkGate (paused g) (resumeCh g) ({[ ch ]} ∪ closedChans g) (nextChan g)) [].

Lemma effect_gate :
  tstep p t p' t' → local_ok p t →
  gate_effect (gate p) (waking t) (gate p') (waking t') ∧
  (∀ ch, ch ∈ parked t' → ch = resumeCh (gate p) ∧ gate p' = gate p).
Proof.
  intros H L. lcases H L; (split; [by constructor|]);
    try (intros ? []%not_elem_of_nil); intros ch' ->%list_elem_of_singleton; done.
Qed.
End effects.

End PoolSystem.
