(* ===== verification/PoolRuns.v ===== *)
(** * Executable schedules of the pool

    A scheduler for the interleaving semantics of PoolSystem.v: a list of moves
    names the goroutine that steps and the choice its environment makes.  Every
    schedule that runs is a run of the transition relation, so concrete
    executions are obtained by evaluation. *)

From S2P Require Import Prelude Pool PoolSystem.
Import Pool PoolSystem.
Open Scope nat_scope.

Module PoolRuns.

Definition lift_opt {A} (f : A → thread) (x : Pool * option A) (e : thread) : Pool * thread :=
  (x.1, or_end f x.2 e).

(** One step of goroutine [t] under choice [ch]; a session that holds a
    connection releases it on [Go] and discards it otherwise. *)
Definition tstep_fn (ch : choice) (p : Pool) (t : thread) : option (Pool * thread) :=
  match t with
  | SOut => Some (p, SAcq AStart)
  | SAcq a =>
      match acquire_step ch p a with
      | Some (p', inl a') => Some (p', SAcq a')
      | Some (p', inr (Ok c)) => Some (p', SHold c)
      | Some (p', inr (Err _)) => Some (p', SOut)
      | None => None
      end
  | SHold c => Some (p, match ch with Go => SRel (RStart c) | _ => SDisc (DStart c) end)
  | SRel r => Some (lift_opt SRel (release_step p r) SOut)
  | SDisc d => Some (lift_opt SDisc (discard_step p d) SOut)
  | TReap r => Some (lift_opt TReap (reapExpired_step p r) TEnd)
  | TWarm w => match warmUp_step ch p w with Some x => Some (lift_opt TWarm x TEnd) | None => None end
  | TPause a => Some (lift_opt TPause (pause_step p a) TEnd)
  | TResume a => Some (lift_opt TResume (resume_step p a) TEnd)
  | TReconn a =>
      match reconnect_step p a with
      | (p', inl a') => Some (p', TReconn a')
      | (p', inr _) => Some (p', TEnd)
      end
  | TClose a =>
      match close_step ch p a with
      | Some (p', inl a') => Some (p', TClose a')
      | Some (p', inr _) => Some (p', TEnd)
      | None => None
      end
  | TEnd => None
  end.

Lemma tstep_fn_sound ch p t p' t' : tstep_fn ch p t = Some (p', t') → tstep p t p' t'.
Proof.
  destruct t; simpl; unfold lift_opt; intros H; repeat case_match; simplify_eq/=;
    econstructor; eauto; by rewrite <- surjective_pairing.
Qed.

Inductive move :=
| Run (i : nat) (ch : choice)
| Spawn (t : thread)
| Tick (d : Z).

Definition spawnable (t : thread) : bool :=
  match t with
  | SOut | TReap EStart | TPause PStart | TResume UStart | TReconn NStart | TClose CStart => true
  | _ => false
  end.

Definition sys_step_fn (m : move) (s : sys) : option sys :=
  match m with
  | Run i ch =>
      match threads s !! i with
      | Some t =>
          match tstep_fn ch (pool s) t with
          | Some (p', t') => Some (mkSys p' (<[i := t']> (threads s)))
          | None => None
          end
      | None => None
      end
  | Spawn t => if spawnable t then Some (mkSys (pool s) (t :: threads s)) else None
  | Tick d => if (0 <=? d)%Z then Some (mkSys (tick d (pool s)) (threads s)) else None
  end.

Lemma sys_step_fn_sound m s s' : sys_step_fn m s = Some s' → sys_step s s'.
Proof.
  destruct m as [i ch|t|d], s as [p ts]; simpl; intros H; repeat (case_match; simplify_eq/=).
  - match goal with H : ts !! i = Some ?t |- _ => rename H into Hi end.
    rewrite <- (take_drop_middle ts i _ Hi) at 1. rewrite insert_take_drop
      by (eapply lookup_lt_Some; eauto).
    constructor. by eapply tstep_fn_sound.
  - constructor. destruct t as [| | | | |[]| |[]|[]|[]|[]|]; done || constructor.
  - constructor. by apply Z.leb_le.
Qed.

Fixpoint exec (ms : list move) (s : sys) : option sys :=
  match ms with
  | [] => Some s
  | m :: ms => match sys_step_fn m s with Some s' => exec ms s' | None => None end
  end.

Lemma exec_sound ms s s' : exec ms s = Some s' → rtc sys_step s s'.
Proof.
  revert s. induction ms as [|m ms IH]; simpl; intros s H; [by simplify_eq|].
  case_match; [|done]. eapply rtc_l; eauto using sys_step_fn_sound.
Qed.

(** [exec_reachable] turns an evaluated schedule into reachability. *)
Lemma exec_reachable o t ms s : exec ms (sys_init o t) = Some s → reachable o t s.
Proof. apply exec_sound. Qed.

(** Let goroutine [i] make [n] steps on its main path. *)
Definition go (i n : nat) : list move := replicate n (Run i Go).

End PoolRuns.
