(* ===== verification/PoolSafety.v ===== *)
(** * Safety of the shared pool

    The invariant [Inv] of PoolSystem.v holds in every reachable state of the
    interleaving semantics, and the guarantees src/pool/pool.go gives its
    callers follow from it: the connection limit, exclusive ownership of
    connections, exact bookkeeping of dial-time metadata, a clean drain on
    Close, and a pause gate that neither panics nor loses a wake-up. *)

From S2P Require Import Prelude Pool PoolSystem PoolRuns.
Import Pool PoolSystem PoolRuns.
Open Scope nat_scope.

Module PoolSafety.

(** ** From the global invariant to what one goroutine may rely on *)

Section local.
Context {p : Pool} {ts1 ts2 : list thread} {t : thread}.
Abbreviation ts := (ts1 ++ t :: ts2).

Lemma tagged_le_owned c (u : thread) : occ c (tagged u) ≤ occ c (owned u).
Proof. unfold owned. rewrite occ_app. lia. Qed.

Lemma total_tagged_le c us : total (λ u, occ c (tagged u)) us ≤ total (λ u, occ c (owned u)) us.
Proof. apply total_le. intros u. apply tagged_le_owned. Qed.

Lemma places_local c : occ c (idle_conns p) + occ c (owned t) ≤ places c p ts.
Proof. unfold places. rewrite total_mid. lia. Qed.

Lemma tagged_places_local c : occ c (untagged t) + tagged_places c p ts ≤ places c p ts.
Proof.
  unfold places, tagged_places. rewrite !total_mid. unfold owned at 2. rewrite occ_app.
  pose proof (total_tagged_le c ts1). pose proof (total_tagged_le c ts2). lia.
Qed.

Lemma tagged_places_le c us : tagged_places c p us ≤ places c p us.
Proof. unfold places, tagged_places. pose proof (total_tagged_le c us). lia. Qed.

Lemma has_zero {A} (o : option A) : has o = 0 → o = None.
Proof. by destruct o. Qed.

Lemma has_pos {A} (o : option A) : 1 ≤ has o → is_Some o.
Proof. destruct o; simpl; [by eauto | lia]. Qed.

Lemma inv_meta_count c us : Inv (mkSys p us) → has (metas p !! c) = tagged_places c p us.
Proof. intros I. apply (inv_meta _ I c). Qed.

Lemma inv_local : Inv (mkSys p ts) → local_ok p t.
Proof.
  intros I. constructor.
  - pose proof (inv_sem _ I) as H; simpl in H. rewrite total_mid in H. lia.
  - intros c Hc%occ_elem_of. apply has_pos. rewrite (inv_meta_count c _ I).
    unfold tagged_places. rewrite total_mid. lia.
  - intros c Hc%occ_elem_of. apply has_zero. rewrite (inv_meta_count c _ I).
    pose proof (tagged_places_local c). pose proof (inv_unique _ I c) as HU; simpl in HU. lia.
  - intros c. pose proof (places_local c). pose proof (inv_unique _ I c) as HU; simpl in HU. lia.
  - intros c Hc. destruct (inv_fresh _ I c Hc) as [HU _]; simpl in HU.
    pose proof (places_local c). pose proof (tagged_places_le c ts).
    split; [lia|]. apply has_zero. rewrite (inv_meta_count c _ I). lia.
  - pose proof (inv_closing _ I) as H; simpl in H. rewrite total_mid in H.
    destruct (closed p); simpl in H; lia.
  - intros ch Hch%occ_elem_of. apply (inv_waking _ I ch). simpl. rewrite total_mid. lia.
Qed.
End local.

(** ** The invariant is preserved *)

Section preservation.
Context {p p' : Pool} {ts1 ts2 : list thread} {t t' : thread}.
Abbreviation ts := (ts1 ++ t :: ts2).
Abbreviation ts' := (ts1 ++ t' :: ts2).
Context (H : tstep p t p' t') (I : Inv (mkSys p ts)).

Lemma step_places c :
  places c p' ts' ≤ places c p ts
    + (if decide (nextConn (world p) ≤ c < nextConn (world p')) then 1 else 0).
Proof.
  destruct (effect_places H (inv_local I)) as [_ K]. specialize (K c).
  unfold places. rewrite !total_mid. lia.
Qed.

Lemma step_unique c : places c p' ts' ≤ 1.
Proof.
  pose proof (step_places c). pose proof (inv_unique _ I c) as HU; simpl in HU.
  case_decide; [|lia]. destruct (inv_fresh _ I c) as [HF _]; simpl in *; lia.
Qed.

Lemma step_fresh c :
  nextConn (world p') ≤ c → places c p' ts' = 0 ∧ c ∉ closedConns (world p').
Proof.
  intros Hc. destruct (effect_places H (inv_local I)) as [Hn _].
  pose proof (step_places c) as HP. rewrite decide_False in HP by lia.
  destruct (inv_fresh _ I c) as [HF HC]; [simpl; lia|]. simpl in *. split; [lia|].
  intros [?|[Ho _]]%(effect_closed c H (inv_local I)); [done|].
  pose proof (@places_local p ts1 ts2 t c). lia.
Qed.

Lemma step_open c : 1 ≤ places c p' ts' → c ∉ closedConns (world p').
Proof.
  intros Hc Hcl. pose proof (step_places c) as HP.
  destruct (effect_closed c H (inv_local I) Hcl) as [Hold|[Ho Hz]].
  - case_decide as Hd.
    + destruct (inv_fresh _ I c) as [_ HC]; simpl in *; [lia|done].
    + apply (inv_open _ I c); simpl; [lia|done].
  - pose proof (inv_unique _ I c) as HU. unfold places in *; simpl in *.
    rewrite !total_mid in *. lia.
Qed.

Lemma step_meta c : has (metas p' !! c) = tagged_places c p' ts'.
Proof.
  pose proof (effect_meta c H (inv_local I)). pose proof (inv_meta _ I c) as HM; simpl in HM.
  unfold tagged_places in *. rewrite !total_mid in *. lia.
Qed.

Lemma step_drained : closed p' = true → total swapping ts' = 0 → idle p' = [].
Proof.
  intros Hc. rewrite total_mid. intros Hs.
  destruct (effect_drained H (inv_local I) Hc) as [?|(? & ? & Hi)]; [lia|done|].
  apply Hi, (inv_drained _ I); simpl; [done|]. rewrite total_mid. lia.
Qed.

(** The gate invariant, for the installed channel [g] and [W ch] Resumes
    that still have to close [ch]. *)
Definition gate_ok (g : Gate) (W : nat → nat) : Prop :=
  (resumeCh g ∈ closedChans g ↔ paused g = false) ∧
  (∀ ch, W ch ≤ 1 ∧ (1 ≤ W ch → (ch ∉ closedChans g) ∧ ch ≠ resumeCh g)) ∧
  (∀ ch, nextChan g ≤ ch → (ch ∉ closedChans g) ∧ ch ≠ resumeCh g ∧ W ch = 0).

Lemma gate_effect_ok g w g' w' (W W' : nat → nat) :
  gate_effect g w g' w' → (∀ ch, W' ch + occ ch w = W ch + occ ch w') →
  gate_ok g W → gate_ok g' W'.
Proof.
  intros K HWW (HG & HW & HC). destruct K as [g w|g Hp|g Hp|g c0]; simpl in *.
  - assert (HE : ∀ ch, W' ch = W ch) by (intros ch; specialize (HWW ch); lia).
    unfold gate_ok. by setoid_rewrite HE.
  - destruct (HC (nextChan g)) as (Hn1 & Hn2 & Hn3); [lia|].
    split_and!; simpl.
    + split; [done|]. discriminate.
    + intros ch. specialize (HWW ch). destruct (HW ch) as [Hle Hin].
      split; [lia|]. intros Hw. split; [apply Hin; lia|]. intros ->. lia.
    + intros ch Hch. specialize (HWW ch). destruct (HC ch) as (? & ? & ?); [lia|].
      split_and!; [done|lia|lia].
  - destruct (HC (nextChan g)) as (Hn1 & Hn2 & Hn3); [lia|].
    assert (Hr : resumeCh g ∉ closedChans g) by (rewrite HG, Hp; done).
    split_and!; simpl.
    + set_solver.
    + intros ch. specialize (HWW ch). destruct (HW ch) as [Hle Hin].
      case_decide as Hd; subst.
      * split; [destruct (decide (1 ≤ W (resumeCh g))); [by destruct Hin|lia]|].
        intros _. set_solver.
      * split; [lia|]. intros Hw. assert (ch ≠ nextChan g) by (intros ->; lia).
        destruct Hin; [lia|]. set_solver.
    + intros ch Hch. specialize (HWW ch). destruct (HC ch) as (? & ? & ?); [lia|].
      split_and!; [|lia|case_decide; [done|lia]]. assert (ch ≠ nextChan g) by lia. set_solver.
  - assert (Hc0 : 1 ≤ W c0) by (specialize (HWW c0); rewrite decide_True in HWW by done; lia).
    destruct (HW c0) as [Hc1 [Hc2 Hc3]%(λ f, f Hc0)].
    split_and!; simpl.
    + set_solver.
    + intros ch. specialize (HWW ch). destruct (HW ch) as [Hle Hin]. split; [lia|].
      intros Hw. case_decide as Hd; [subst; lia|]. destruct Hin; [lia|]. set_solver.
    + intros ch Hch. specialize (HWW ch). destruct (HC ch) as (? & ? & ?); [lia|].
      assert (ch ≠ c0) by (intros ->; lia). split_and!; [set_solver|done|lia].
Qed.

Lemma step_gate : gate_ok (gate p') (λ ch, total (λ u, occ ch (waking u)) ts').
Proof.
  destruct (effect_gate H (inv_local I)) as [K _]. eapply gate_effect_ok; [exact K| |].
  2: split_and!; [exact (inv_gate _ I) | exact (inv_waking _ I) | exact (inv_chans _ I)].
  intros ch. simpl. rewrite !total_mid. lia.
Qed.

(** A parked Acquire always has somebody left to wake it. *)
Lemma step_parked ch :
  1 ≤ total (λ u, occ ch (parked u)) ts' →
  ch ∈ closedChans (gate p') ∨ ch = resumeCh (gate p')
  ∨ 1 ≤ total (λ u, occ ch (waking u)) ts'.
Proof.
  pose proof (inv_parked _ I ch) as HP. pose proof (inv_gate _ I) as HG. simpl in *.
  destruct (effect_gate H (inv_local I)) as [K Hnew].
  rewrite !total_mid in *. intros Hp.
  destruct (decide (ch ∈ parked t')) as [Hin|Hin%occ_not_elem_of].
  { destruct (Hnew ch Hin) as [-> ->]. auto. }
  assert (HP' : ch ∈ closedChans (gate p) ∨ ch = resumeCh (gate p) ∨
    1 ≤ total (λ u, occ ch (waking u)) ts1 + occ ch (waking t)
      + total (λ u, occ ch (waking u)) ts2) by (apply HP; lia).
  clear HP Hnew. destruct K as [g w|g Hpa|g Hpa|g c0]; simpl in *.
  - done.
  - destruct HP' as [?|[->|?]]; [auto| |auto]. left. by apply HG.
  - destruct HP' as [?|[->|?]]; [set_solver| |].
    + right. right. rewrite decide_True by done. lia.
    + right. right. lia.
  - case_decide as Hd; subst; set_solver by lia.
Qed.

Lemma slot_le (u : thread) : slot u ≤ 1.
Proof. destruct u as [|[]| | | | |[]| | | | |]; simpl; repeat case_match; lia. Qed.

Lemma Inv_thread : Inv (mkSys p' ts').
Proof.
  destruct step_gate as (HG & HW & HC).
  destruct (effect_sem H (inv_local I)) as [Hs Hcap].
  pose proof (inv_sem _ I) as Hsem. pose proof (inv_cap _ I) as Hlim.
  pose proof (effect_closing H (inv_local I)) as Hcl. pose proof (inv_closing _ I) as Hcl0.
  constructor; simpl in *; rewrite ?total_mid in *; try lia;
    eauto using step_unique, step_fresh, step_open, step_meta, step_parked.
  - rewrite (effect_opts H). pose proof (slot_le t'). lia.
  - pose proof step_drained as K. by rewrite total_mid in K.
  - rewrite (effect_panic H (inv_local I)). apply (inv_panic _ I).
Qed.
End preservation.

Lemma spawns_empty t :
  spawns t → slot t = 0 ∧ owned t = [] ∧ tagged t = [] ∧ closing t = 0 ∧ swapping t = 0
    ∧ waking t = [] ∧ parked t = [].
Proof. by destruct 1. Qed.

Lemma Inv_spawn p ts t : spawns t → Inv (mkSys p ts) → Inv (mkSys p (t :: ts)).
Proof.
  intros (Hs & Ho & Ht & Hc & Hw & Hk & Hp)%spawns_empty [].
  constructor; simpl in *; unfold places, tagged_places in *;
    repeat setoid_rewrite total_cons; rewrite ?Hs, ?Hc, ?Hw;
    repeat first [setoid_rewrite Ho | setoid_rewrite Ht | setoid_rewrite Hk | setoid_rewrite Hp];
    done.
Qed.

Lemma Inv_tick p ts d : Inv (mkSys p ts) → Inv (mkSys (tick d p) ts).
Proof. by intros []. Qed.

Lemma Inv_init o t : Inv (sys_init o t).
Proof.
  unfold sys_init, New, starts_warmUp.
  constructor; simpl; unfold places, tagged_places; simpl; repeat case_match; simpl;
    intros; rewrite ?lookup_empty; try lia; try done; set_solver by lia.
Qed.

Lemma Inv_step s s' : sys_step s s' → Inv s → Inv s'.
Proof. destruct 1; eauto using Inv_thread, Inv_spawn, Inv_tick. Qed.

Lemma reachable_Inv o t s : reachable o t s → Inv s.
Proof.
  unfold reachable. intros H. pose proof (Inv_init o t) as HI.
  induction H as [|s1 s2 s3 Hst _ IH]; eauto using Inv_step.
Qed.

Lemma reachable_opts o t s : reachable o t s → opts (pool s) = o.
Proof.
  unfold reachable. intros H. assert (HI : opts (pool (sys_init o t)) = o) by done.
  revert HI. generalize (sys_init o t) H. clear H.
  induction 1 as [|s1 s2 s3 Hst _ IH]; [done|]. intros HI. apply IH.
  destruct Hst as [???? ?? Ht|?|?]; simpl in *; [by rewrite (effect_opts Ht)|done|done].
Qed.

(** ** Two facts that need no counting *)

Definition FaultInv (s : sys) : Prop :=
  Forall no_fault (events (world (pool s))) ∧
  ∀ u, u ∈ threads s → past u → doneCh (pool s) = true.

Lemma FaultInv_thread p ts1 t ts2 p' t' :
  tstep p t p' t' → Inv (mkSys p (ts1 ++ t :: ts2)) →
  FaultInv (mkSys p (ts1 ++ t :: ts2)) → FaultInv (mkSys p' (ts1 ++ t' :: ts2)).
Proof.
  intros H I [He Hd]; simpl in *.
  destruct (effect_events H (inv_local I)) as (l & El & Hl).
  destruct (effect_past H (inv_local I)) as [Hm Ht]; [apply Hd; set_solver|].
  split; simpl; [rewrite El; by apply Forall_app|].
  intros u [Hu|[->|Hu]%elem_of_cons]%elem_of_app Hp; [|by apply Ht|];
    apply Hm, (Hd u); set_solver.
Qed.

Lemma FaultInv_step s s' : sys_step s s' → Inv s → FaultInv s → FaultInv s'.
Proof.
  destruct 1 as [| p ts t Hs | ]; [by apply FaultInv_thread | |done].
  intros _ [He Hd]. split; simpl in *; [done|].
  intros u [->|Hu]%elem_of_cons Hp; [by destruct Hs|]. by apply (Hd u).
Qed.

Lemma reachable_ind_inv (P : sys → Prop) o t s :
  P (sys_init o t) → (∀ s1 s2, sys_step s1 s2 → Inv s1 → P s1 → P s2) →
  reachable o t s → P s.
Proof.
  unfold reachable. intros H0 HS H. assert (HI : Inv (sys_init o t) ∧ P (sys_init o t))
    by (split; [apply Inv_init|done]).
  revert HI. generalize (sys_init o t) H. clear H H0.
  induction 1 as [|s1 s2 s3 Hst _ IH]; [by intros []|]. intros [I L]. apply IH.
  eauto using Inv_step.
Qed.

Lemma reachable_FaultInv o t s : reachable o t s → FaultInv s.
Proof.
  apply reachable_ind_inv; [|apply FaultInv_step].
  split; simpl; [constructor|]. unfold starts_warmUp. case_match; set_solver.
Qed.

(** ** Connections in use or waiting to be used

    [live t] counts the connections a session has in hand or is dialing. *)

Definition dialing (t : thread) : nat :=
  match t with
  | SAcq (ABreaker _) | SAcq (ACas _ _ _) | SAcq (ADial _ _ _) | SAcq (ABackoff _ _ _) => 1
  | _ => 0
  end.

Definition session_owned (t : thread) : list nat :=
  match t with SAcq _ | SHold _ | SRel _ | SDisc _ => owned t | _ => [] end.

Definition live (t : thread) : nat := dialing t + length (session_owned t).

Definition no_warm (t : thread) : Prop := match t with TWarm _ => False | _ => True end.

Lemma live_slot t : live t ≤ slot t.
Proof. unfold live. destruct t as [|[]| |[]|[]| | | | | | |]; simpl; repeat case_match; simpl; lia. Qed.

Lemma effect_no_warm p t p' t' : tstep p t p' t' → no_warm t → no_warm t'.
Proof. destruct 1; simpl; try done; by destruct o. Qed.

Lemma effect_live p t p' t' :
  tstep p t p' t' → local_ok p t → no_warm t →
  idle p' = [] ∨ length (idle p') + live t' ≤ length (idle p) + live t.
Proof.
  intros H L Hw. unfold live. lcases H L; try (by left); try (by destruct Hw); right; simpl; try lia;
    repeat match goal with H : idle _ = _ |- _ => rewrite H end;
    rewrite ?length_app; simpl; try lia.
  apply Nat.add_le_mono_r, length_filter.
Qed.

Definition LiveInv (s : sys) : Prop :=
  Forall no_warm (threads s) ∧
  length (idle (pool s)) + total live (threads s) ≤ limit (opts (pool s)).

Lemma LiveInv_thread p ts1 t ts2 p' t' :
  tstep p t p' t' → Inv (mkSys p (ts1 ++ t :: ts2)) →
  LiveInv (mkSys p (ts1 ++ t :: ts2)) → LiveInv (mkSys p' (ts1 ++ t' :: ts2)).
Proof.
  intros H I [Hw Hl]. pose proof (Inv_thread H I) as I'.
  simpl in Hw. rewrite Forall_app, Forall_cons in Hw. destruct Hw as (Hw1 & Hwt & Hw2).
  split; simpl in *.
  - apply Forall_app. split; [done|]. constructor; [|done]. by eapply effect_no_warm.
  - destruct (effect_live _ _ _ _ H (inv_local I) Hwt) as [Hi|Hi].
    + rewrite Hi; simpl. pose proof (inv_sem _ I') as Hs. pose proof (inv_cap _ I') as Hc.
      simpl in *. pose proof (total_le live slot (ts1 ++ t' :: ts2) live_slot). lia.
    + rewrite (effect_opts H). rewrite total_mid in *. lia.
Qed.

Lemma LiveInv_step s s' : sys_step s s' → Inv s → LiveInv s → LiveInv s'.
Proof.
  destruct 1 as [| p ts t Hs | ]; [by apply LiveInv_thread | |done].
  intros _ [Hw Hl]. split; simpl in *.
  - constructor; [|done]. by destruct Hs.
  - destruct Hs; exact Hl.
Qed.

Lemma reachable_LiveInv o t s : minIdle o = 0 → reachable o t s → LiveInv s.
Proof.
  intros Hm. apply reachable_ind_inv; [|apply LiveInv_step].
  unfold sys_init, starts_warmUp. rewrite Hm. split; simpl; [constructor|lia].
Qed.

End PoolSafety.
