(* ===== verification/PoolTheorems.v ===== *)
(** * What the pool promises its callers

    The guarantees of src/pool/pool.go, stated for every reachable state of the
    interleaving semantics, and the behaviour of single methods run alone. *)

From S2P Require Import Prelude Pool PoolSystem PoolRuns PoolSafety.
Import Pool PoolSystem PoolRuns PoolSafety.
Open Scope nat_scope.

Module PoolTheorems.

(** ** Reaching a concrete state *)

(** A pool of two connections without background work, used by the witnesses. *)
Definition demo : Options := mkOptions 2 true true 0 0 0 0 0 0 0 0.

Definition run_demo (o : Options) (ms : list move) : sys :=
  default (sys_init o 0) (exec ms (sys_init o 0)).

(** A schedule that runs ends in a reachable state. *)
Lemma run_demo_reachable o ms : reachable o 0 (run_demo o ms).
Proof.
  unfold run_demo. destruct (exec ms (sys_init o 0)) eqn:E; simpl.
  - by apply (exec_reachable _ _ ms).
  - constructor.
Qed.

(** A session acquires: up to the dial, the dial, up to the return. *)
Definition acquire_moves (i : nat) : list move := go i 8 ++ [Run i DialOk] ++ go i 3.
Definition held_one : list move := Spawn SOut :: acquire_moves 0.
Definition held_two : list move := held_one ++ Spawn SOut :: acquire_moves 0.

(** ** Interleavings *)

Section reach.
Context {o : Options} {t : Z} {s : sys} (R : reachable o t s).

Lemma places_elem c : 1 ≤ places c (pool s) (threads s) ↔
  c ∈ idle_conns (pool s) ∨ ∃ u, u ∈ threads s ∧ c ∈ owned u.
Proof.
  unfold places. setoid_rewrite (occ_elem_of c). split.
  - intros H. destruct (decide (1 ≤ occ c (idle_conns (pool s)))); [by left|right].
    apply (total_pos (λ u, occ c (owned u))). lia.
  - intros [?|(u & Hu & Hc)]; [lia|].
    pose proof (total_elem (λ u, occ c (owned u)) u _ Hu). simpl in *. lia.
Qed.

Lemma tagged_places_elem c : 1 ≤ tagged_places c (pool s) (threads s) ↔
  c ∈ idle_conns (pool s) ∨ ∃ u, u ∈ threads s ∧ c ∈ tagged u.
Proof.
  unfold tagged_places. setoid_rewrite (occ_elem_of c). split.
  - intros H. destruct (decide (1 ≤ occ c (idle_conns (pool s)))); [by left|right].
    apply (total_pos (λ u, occ c (tagged u))). lia.
  - intros [?|(u & Hu & Hc)]; [lia|].
    pose proof (total_elem (λ u, occ c (tagged u)) u _ Hu). simpl in *. lia.
Qed.
End reach.

(** C3: whatever the interleaving of sessions, reaper, warm-up and admin
    commands, the reported InUse is exactly the number of goroutines that hold
    a slot, and it never exceeds the configured limit. *)
Theorem pool_capacity o t s :
  reachable o t s →
  InUse (stats (pool s)) = total slot (threads s) ∧ InUse (stats (pool s)) ≤ limit o.
Proof.
  intros R. pose proof (reachable_Inv _ _ _ R) as I.
  split; [apply (inv_sem _ I)|]. rewrite <- (reachable_opts _ _ _ R). apply (inv_cap _ I).
Qed.

Lemma pool_capacity_witness :
  InUse (stats (pool (run_demo demo held_two))) = 2
  ∧ InUse (stats (pool (run_demo demo held_two))) ≤ 2.
Proof.
  split; [vm_compute; reflexivity|].
  apply (pool_capacity demo 0 _ (run_demo_reachable demo held_two)).
Defined.

(** C4: a connection is in at most one place: never twice on the idle stack,
    never idle while a goroutine owns it, and never owned by two goroutines. *)
Theorem exclusive_ownership o t s :
  reachable o t s →
  NoDup (idle_conns (pool s)) ∧
  ∀ i u c, threads s !! i = Some u → c ∈ owned u →
    (c ∉ idle_conns (pool s)) ∧
    ∀ j v, threads s !! j = Some v → c ∈ owned v → i = j.
Proof.
  intros R. pose proof (reachable_Inv _ _ _ R) as I. split.
  - apply occ_NoDup. intros c. pose proof (inv_unique _ I c). unfold places in *. lia.
  - intros i u c Hi Hc%occ_elem_of. pose proof (inv_unique _ I c) as HU. unfold places in HU.
    split.
    + rewrite occ_elem_of.
      pose proof (total_elem (λ u, occ c (owned u)) u _ (list_elem_of_lookup_2 _ _ _ Hi)).
      simpl in *. lia.
    + intros j v Hj Hv%occ_elem_of. destruct (decide (i = j)); [done|].
      pose proof (total_two (λ u, occ c (owned u)) _ i j u v Hi Hj ltac:(done)).
      simpl in *. lia.
Qed.

Lemma exclusive_ownership_witness :
  threads (run_demo demo held_two) = [SHold 1; SHold 0]
  ∧ NoDup (idle_conns (pool (run_demo demo held_two))).
Proof.
  split; [vm_compute; reflexivity|].
  apply (exclusive_ownership demo 0 _ (run_demo_reachable demo held_two)).
Defined.

(** a connection on the idle stack or in a goroutine's hands has not been
    closed: a session never gets a connection the pool already tore down. *)
Theorem owned_is_open o t s c :
  reachable o t s →
  c ∈ idle_conns (pool s) ∨ (∃ u, u ∈ threads s ∧ c ∈ owned u) →
  c ∉ closedConns (world (pool s)).
Proof.
  intros R Hc%places_elem. by apply (inv_open _ (reachable_Inv _ _ _ R)).
Qed.

(** One session holds connection 0, another has discarded connection 1. *)
Definition discard_one : list move := held_two ++ [Run 0 CtxDone] ++ go 0 3.

Lemma owned_is_open_witness :
  closedConns (world (pool (run_demo demo discard_one))) = {[ 1 ]}
  ∧ 0 ∉ closedConns (world (pool (run_demo demo discard_one))).
Proof.
  split; [vm_compute; reflexivity|].
  apply (owned_is_open demo 0 _ 0 (run_demo_reachable demo discard_one)).
  right. exists (SHold 0). split; [|by left].
  apply (bool_decide_unpack _). vm_compute. done.
Defined.

(** the dial-time metadata is kept for exactly the connections that are
    idle or in the hands of a goroutine past tagging: nothing leaks, and a
    session that gives its connection back is always recognised. *)
Theorem meta_exact o t s c :
  reachable o t s →
  is_Some (loadMeta (pool s) c) ↔
  c ∈ idle_conns (pool s) ∨ ∃ u, u ∈ threads s ∧ c ∈ tagged u.
Proof.
  intros R. rewrite <- tagged_places_elem, <- (inv_meta _ (reachable_Inv _ _ _ R) c).
  unfold loadMeta. destruct (metas (pool s) !! c); simpl; split; intros H; eauto; try lia.
  by destruct H.
Qed.

Lemma meta_exact_witness : is_Some (loadMeta (pool (run_demo demo discard_one)) 0).
Proof.
  apply (meta_exact demo 0 _ 0 (run_demo_reachable demo discard_one)).
  right. exists (SHold 0). split; [|by left].
  apply (bool_decide_unpack _). vm_compute. done.
Defined.

(** C37: sessions that give each acquired connection back once never run into
    the pool's misuse detectors (foreign connection, double release, semaphore
    underflow), and no interleaving of Pause, Resume and Close closes a channel
    twice. *)
Theorem no_misuse_no_panic o t s :
  reachable o t s →
  panicked (world (pool s)) = false ∧ Forall no_fault (events (world (pool s))).
Proof.
  intros R. split; [apply (inv_panic _ (reachable_Inv _ _ _ R))|].
  apply (reachable_FaultInv _ _ _ R).
Qed.

Lemma no_misuse_no_panic_witness :
  length (events (world (pool (run_demo demo discard_one)))) = 1
  ∧ panicked (world (pool (run_demo demo discard_one))) = false.
Proof.
  split; [vm_compute; reflexivity|].
  apply (no_misuse_no_panic demo 0 _ (run_demo_reachable demo discard_one)).
Defined.

(** when Close returns nil, the idle stack is empty and no session owns a
    connection: every connection handed out has been given back and closed. *)
Theorem close_drains o t s ch p' :
  reachable o t s → TClose CPoll ∈ threads s →
  close_step ch (pool s) CPoll = Some (p', inr (Ok tt)) →
  idle (pool s) = [] ∧ ∀ u, u ∈ threads s → session_owned u = [].
Proof.
  intros R Hin Hc. pose proof (reachable_Inv _ _ _ R) as I.
  assert (Hd : doneCh (pool s) = true) 
    by (by apply (proj2 (reachable_FaultInv _ _ _ R) _ Hin)).
  pose proof (inv_closing _ I) as Hcl. rewrite Hd in Hcl. split.
  - apply (inv_drained _ I); [destruct (closed (pool s)); simpl in *; [done|lia]|].
    assert (total swapping (threads s) ≤ total closing (threads s))
      by (apply total_le; by intros [| | | | | | | | | |[]|]; simpl; lia).
    destruct (closed (pool s)); simpl in *; lia.
  - simpl in Hc. case_match; [|by destruct ch]. to_prop. intros u Hu.
    pose proof (inv_sem _ I). pose proof (total_elem slot u _ Hu).
    pose proof (live_slot u) as Hl. unfold live in Hl. apply length_zero_iff_nil. lia.
Qed.

(** Session 1 releases while a Close polls. *)
Definition close_run : list move :=
  held_one ++ Spawn (TClose CStart) :: go 0 4 ++ go 1 6.

Lemma close_drains_witness :
  closed (pool (run_demo demo close_run)) = true
  ∧ idle (pool (run_demo demo close_run)) = [].
Proof.
  split; [vm_compute; reflexivity|].
  apply (close_drains demo 0 _ Go (pool (run_demo demo close_run))
           (run_demo_reachable demo close_run)).
  - apply (bool_decide_unpack _). vm_compute. done.
  - vm_compute. reflexivity.
Defined.

(** C38: no lost wake-up.  An Acquire parked by Pause can proceed in every state
    in which the pool is not paused and no Resume is still about to close the
    channel it waits on. *)
Theorem parked_wakes o t s ch :
  reachable o t s → SAcq (APark ch) ∈ threads s →
  IsPaused (pool s) = false → TResume (UClose ch) ∉ threads s →
  acquire_step Go (pool s) (APark ch) = Some (pool s, inl AEnter).
Proof.
  intros R Hp Hpa Hr. pose proof (reachable_Inv _ _ _ R) as I. simpl.
  rewrite decide_True; [done|].
  destruct (inv_parked _ I ch) as [?|[->|Hw]].
  - pose proof (total_elem (λ u, occ ch (parked u)) _ _ Hp) as K. simpl in K.
    rewrite decide_True in K by done. lia.
  - done.
  - by apply (inv_gate _ I).
  - apply (total_pos (λ u, occ ch (waking u))) in Hw as (u & Hu & Hw%occ_elem_of).
    destruct u as [| | | | | | | |[|ch'] | | |]; try (by apply not_elem_of_nil in Hw).
    apply list_elem_of_singleton in Hw as ->. done.
Qed.

(** A session parks under Pause; Resume completes. *)
Definition park_run : list move :=
  Spawn (TPause PStart) :: go 0 2 ++ Spawn SOut :: go 0 4 ++ Spawn (TResume UStart) :: go 0 2.

Lemma parked_wakes_witness :
  acquire_step Go (pool (run_demo demo park_run)) (APark 1)
  = Some (pool (run_demo demo park_run), inl AEnter).
Proof.
  apply (parked_wakes demo 0 _ 1 (run_demo_reachable demo park_run));
    try (apply (bool_decide_unpack _)); vm_compute; done.
Defined.

(** without warm-up, the connections that are idle, in a session's hands
    or being dialed never exceed the limit. *)
Theorem live_bounded o t s :
  minIdle o = 0 → reachable o t s →
  Idle (stats (pool s)) + total live (threads s) ≤ limit o.
Proof.
  intros Hm R. rewrite <- (reachable_opts _ _ _ R). apply (reachable_LiveInv _ _ _ Hm R).
Qed.

Lemma live_bounded_witness :
  total live (threads (run_demo demo held_two)) = 2
  ∧ Idle (stats (pool (run_demo demo held_two)))
    + total live (threads (run_demo demo held_two)) ≤ 2.
Proof.
  split; [vm_compute; reflexivity|].
  exact (live_bounded demo 0 _ eq_refl (run_demo_reachable demo held_two)).
Defined.

(** ** Two races *)

Definition warm_demo : Options := mkOptions 1 false false 0 0 0 1 0 0 0 0.

(** A session takes the only slot before warm-up does, dials and releases;
    warm-up then dials although an idle connection exists. *)
Definition warm_run : list move :=
  Spawn SOut :: acquire_moves 0 ++ go 0 6
  ++ go 1 3 ++ [Run 1 DialOk] ++ go 1 1.

(** warm-up dials without looking at the idle stack, so with MinIdle set
    the pool can hold more open connections than its limit. *)
Theorem warmUp_exceeds_limit :
  ∃ s, reachable warm_demo 0 s ∧ limit warm_demo < Idle (stats (pool s)).
Proof.
  exists (run_demo warm_demo warm_run). split; [apply run_demo_reachable|]. vm_compute. lia.
Qed.

(** Release passes the generation check, Reconnect runs to completion, and only
    then does Release push its connection. *)
Definition reconnect_race : list move :=
  held_one ++ go 0 4 ++ Spawn (TReconn NStart) :: go 0 3 ++ go 1 2.

(** a connection dialed before a Reconnect can still be on the idle stack,
    with its old generation, after Reconnect has returned. *)
Theorem reconnect_race_keeps_stale :
  ∃ s c m, reachable demo 0 s ∧ Forall (λ u, u = SOut ∨ u = TEnd) (threads s) ∧
    c ∈ idle_conns (pool s) ∧ loadMeta (pool s) c = Some m ∧
    (gen m < reconnectGen (pool s))%Z.
Proof.
  exists (run_demo demo reconnect_race), 0, (mkMeta 0 0).
  split; [apply run_demo_reachable|].
  split; [apply (bool_decide_unpack _); vm_compute; done|].
  split; [apply (bool_decide_unpack _); vm_compute; done|].
  by vm_compute.
Qed.

End PoolTheorems.
