(* ===== verification/PoolMethods.v ===== *)
(** * The pool's methods run alone

    Functional behaviour of the methods of src/pool/pool.go when nothing
    interferes: the circuit breaker, Release followed by Acquire, Reconnect and
    the reaper. *)

From S2P Require Import Prelude Pool.
Import Pool.
Open Scope Z_scope.

Module PoolMethods.

(** ** Circuit breaker *)

(** [k] dial failures in a row, the [i]-th at clock reading [ts i]. *)
Fixpoint failures (ts : list Z) (e : perr) (p : Pool) : Pool :=
  match ts with
  | [] => p
  | t :: ts =>
      failures ts e (circuitRecordFailure e
        (with_world (mkWorld t (nextConn (world p)) (closedConns (world p))
           (events (world p)) (panicked (world p))) p))
  end.

Lemma circuitRecordFailure_spec e p :
  0 < cbThreshold (opts p) →
  opts (circuitRecordFailure e p) = opts p ∧
  now (world (circuitRecordFailure e p)) = now (world p) ∧
  cbFailures (brk (circuitRecordFailure e p)) = cbFailures (brk p) + 1 ∧
  cbOpenUntil (brk (circuitRecordFailure e p))
  = if cbThreshold (opts p) <=? cbFailures (brk p) + 1
    then wrap64 (now (world p) + cbCooldown (opts p)) else cbOpenUntil (brk p).
Proof.
  intros H. unfold circuitRecordFailure, recordFailure_add, recordFailure_trip.
  destruct (Z.leb_spec (cbThreshold (opts p)) 0); [lia|]. simpl.
  destruct (cbThreshold (opts p) <=? cbFailures (brk p) + 1); simpl; [|done].
  by destruct (cbOpenUntil (brk p) =? 0).
Qed.

Lemma last_cons_default {A} (t d : A) ts : List.last (t :: ts) d = List.last ts t.
Proof.
  revert t d. induction ts as [|u ts IH]; intros t d; [done|].
  change (List.last (u :: ts) d = List.last (u :: ts) t). by rewrite !IH.
Qed.

Lemma failures_spec ts e p :
  0 < cbThreshold (opts p) →
  opts (failures ts e p) = opts p ∧
  now (world (failures ts e p)) = List.last ts (now (world p)) ∧
  cbFailures (brk (failures ts e p)) = cbFailures (brk p) + Z.of_nat (length ts) ∧
  cbOpenUntil (brk (failures ts e p))
  = if (0 <? length ts)%nat && (cbThreshold (opts p) <=? cbFailures (brk p) + Z.of_nat (length ts))
    then wrap64 (List.last ts (now (world p)) + cbCooldown (opts p)) else cbOpenUntil (brk p).
Proof.
  revert p. induction ts as [|t ts IH]; intros p H; cbn [failures].
  { simpl. split_and!; try done; lia. }
  set (p1 := with_world _ p).
  destruct (circuitRecordFailure_spec e p1 H) as (Ho & Hn & Hf & Hu).
  destruct (IH (circuitRecordFailure e p1)) as (Ho' & Hn' & Hf' & Hu'); [by rewrite Ho|].
  rewrite Ho', Hn', Hf', Hu', Ho, Hn, Hf, Hu. rewrite (last_cons_default t). subst p1.
  cbn [opts brk world now with_world length].
  split_and!; [done|done|lia|].
  destruct ts as [|t2 ts]; cbn [length Nat.ltb Nat.leb andb].
  - by replace (cbFailures (brk p) + Z.of_nat 1) with (cbFailures (brk p) + 1) by lia.
  - replace (cbFailures (brk p) + 1 + Z.of_nat (S (length ts)))
      with (cbFailures (brk p) + Z.of_nat (S (S (length ts)))) by lia.
    destruct (Z.leb_spec (cbThreshold (opts p)) (cbFailures (brk p) + Z.of_nat (S (S (length ts)))));
      [done|].
    by destruct (Z.leb_spec (cbThreshold (opts p)) (cbFailures (brk p) + 1)); [lia|].
Qed.

(** starting from a closed breaker with no recorded failure, dial failures
    in a row open it exactly when their number reaches the threshold; it is then
    open until the cooldown after the last one, and a success closes it. *)
Theorem breaker_trips_at_threshold ts e p :
  0 < cbThreshold (opts p) → 0 < cbCooldown (opts p) →
  brk p = mkBreaker 0 0 → 0 ≤ List.last ts (now (world p)) →
  in64 (List.last ts (now (world p)) + cbCooldown (opts p)) →
  CircuitOpen (failures ts e p) = (cbThreshold (opts p) <=? Z.of_nat (length ts)) ∧
  CircuitOpen (circuitRecordSuccess (failures ts e p)) = false.
Proof.
  intros Ht Hc Hb Hn H64. destruct (failures_spec ts e p Ht) as (Ho & Hw & Hf & Hu).
  rewrite Hb in Hu, Hf; cbn in Hu, Hf. split.
  - unfold CircuitOpen. rewrite Ho, Hw, Hu.
    destruct (Z.leb_spec (cbThreshold (opts p)) 0); [lia|].
    destruct (Z.leb_spec (cbThreshold (opts p)) (Z.of_nat (length ts))).
    + destruct ts as [|t ts]; [simpl in *; lia|]. cbn [length Nat.ltb Nat.leb andb].
      rewrite (proj2 (Z.leb_le _ _)) by (simpl in *; lia). rewrite wrap64_id by done. apply andb_true_intro. split.
      * apply negb_true_iff, Z.eqb_neq. lia.
      * apply Z.ltb_lt. lia.
    + rewrite (proj2 (Z.leb_gt _ _)) by lia. by rewrite andb_false_r.
  - unfold CircuitOpen, circuitRecordSuccess, recordSuccess_swap, recordSuccess_reset.
    rewrite Ho. destruct (Z.leb_spec (cbThreshold (opts p)) 0); [lia|]. simpl.
    destruct (cbOpenUntil _ =? 0); simpl; rewrite Ho;
      by destruct (Z.leb_spec (cbThreshold (opts p)) 0); [lia|].
Qed.

Definition breaker_opts : Options := mkOptions 2 false true 0 0 0 0 0 0 3 Second.

Lemma breaker_trips_at_threshold_witness :
  CircuitOpen (failures [5; 6; 7] (DialErr 0) (New breaker_opts 0)) = true.
Proof.
  apply (breaker_trips_at_threshold [5; 6; 7] (DialErr 0) (New breaker_opts 0));
    unfold in64; vm_compute; done.
Defined.

(** Callers of [circuitAllows] that have all loaded the deadline [until],
    reaching their compare-and-swap one after the other. *)
Fixpoint probes (until : Z) (ns : list Z) (p : Pool) : list bool :=
  match ns with
  | [] => []
  | n :: ns => let '(won, p') := circuitAllows_cas until n p in won :: probes until ns p'
  end.

Lemma probes_lose until ns p : cbOpenUntil (brk p) ≠ until → probes until ns p = replicate (length ns) false.
Proof.
  intros H. induction ns as [|n ns IH]; simpl; [done|]. unfold circuitAllows_cas.
  destruct (Z.eqb_spec (cbOpenUntil (brk p)) until); [done|]. by rewrite IH.
Qed.

(** after the cooldown the breaker lets exactly one probe through: of all
    callers that saw the same expired deadline, the first to swap dials and
    every other one is refused. *)
Theorem half_open_single_probe until n ns p :
  circuitAllows_load p = inr (until, n) →
  0 < cbCooldown (opts p) → in64 (n + cbCooldown (opts p)) →
  probes until (n :: ns) p = true :: replicate (length ns) false.
Proof.
  intros Hl Hc H64. unfold circuitAllows_load in Hl. step_cases. simpl.
  unfold circuitAllows_cas. rewrite Z.eqb_refl. f_equal. apply probes_lose. simpl.
  rewrite wrap64_id by done. lia.
Qed.

Definition half_open : Pool := with_brk (mkBreaker 3 5) (New breaker_opts 9).

Lemma half_open_single_probe_witness :
  probes 5 [9; 9; 10] half_open = [true; false; false].
Proof. apply (half_open_single_probe 5 9 [9; 10] half_open); unfold in64; vm_compute; done. Defined.

(** ** Release, then Acquire *)

Definition usable (p : Pool) (c : nat) : bool :=
  match loadMeta p c with
  | Some m => negb (closed p) && (reconnectGen p <=? gen m)
                && bool_decide (c ∉ ic_conn <$> idle p) && (0 <? sem p)%nat
  | None => false
  end.

Lemma Release_keeps p c m :
  loadMeta p c = Some m → usable p c = true →
  Release p c = Some (with_sem (pred (sem p))
    (with_idle (idle p ++ [mkIdle c (meta_createdAt m) (now (world p))]) p)).
Proof.
  unfold usable. intros Hm. rewrite Hm. intros H.
  rewrite !andb_true_iff, negb_true_iff, bool_decide_eq_true in H.
  destruct H as [[[Hc Hg] Hi] Hs]. unfold Release; simpl.
  rewrite Hm; simpl. rewrite Hc; simpl. rewrite (proj2 (Z.ltb_ge _ _)) by lia; simpl.
  rewrite Hc; simpl. rewrite decide_False by done. simpl.
  unfold releaseSlot. simpl. by destruct (sem p).
Qed.

(** The main path of Acquire, with a health check that passes if there is one. *)
Definition main_path : list choice := replicate 6 Go ++ [Health true; Go].

Lemma Acquire_pops p ic l :
  idle p = l ++ [ic] → closed p = false → paused (gate p) = false →
  (sem p < limit (opts p))%nat → expiredAge p (now (world p)) ic = false →
  ∃ p', Acquire main_path p AStart = Some (p', Ok (ic_conn ic)) ∧
    idle p' = l ∧ sem p' = S (sem p) ∧ metas p' = metas p ∧
    closedConns (world p') = closedConns (world p) ∧ waiting (cnt p') = waiting (cnt p).
Proof.
  intros Hi Hc Hp Hs Hx. unfold main_path; cbn -[popIdle Nat.ltb]. rewrite Hc; cbn -[popIdle Nat.ltb].
  rewrite Hp; cbn -[popIdle Nat.ltb]. rewrite (proj2 (Nat.ltb_lt _ _)) by done. cbn -[popIdle Nat.ltb].
  rewrite Hc; cbn -[popIdle Nat.ltb]. unfold popIdle. cbn -[take]. rewrite Hi, last_snoc.
  cbn -[take expiredAge skipCheck]. unfold examine_step. cbn -[take skipCheck expiredAge].
  unfold expiredAge in *. cbn -[take skipCheck]. rewrite Hx.
  replace (length (l ++ [ic]) - 1)%nat with (length l) by (rewrite length_app; simpl; lia).
  rewrite take_app_length.
  destruct (negb _ || skipCheck _ _ _); cbn -[take]; eexists; split_and!; try done; simpl; lia.
Qed.

(** a connection given back to a healthy pool is the next one handed out,
    and the two calls together leave the idle stack, the slots, the metadata
    and the waiter count as they were. *)
Theorem release_then_acquire p c m :
  loadMeta p c = Some m → usable p c = true → IsPaused p = false →
  (InUse (stats p) ≤ Limit (stats p))%nat →
  expiredAge p (now (world p)) (mkIdle c (meta_createdAt m) (now (world p))) = false →
  ∃ p1 p2, Release p c = Some p1 ∧ Acquire main_path p1 AStart = Some (p2, Ok c) ∧
    idle p2 = idle p ∧ sem p2 = sem p ∧ metas p2 = metas p ∧
    closedConns (world p2) = closedConns (world p) ∧ waiting (cnt p2) = waiting (cnt p).
Proof.
  intros Hm Hu Hp Hl Hx. eexists. rewrite (Release_keeps p c m Hm Hu).
  unfold usable in Hu. rewrite Hm in Hu.
  rewrite !andb_true_iff, negb_true_iff, Nat.ltb_lt in Hu. destruct Hu as [[[Hc _] _] Hs].
  simpl in Hl.
  destruct (Acquire_pops (with_sem (pred (sem p))
    (with_idle (idle p ++ [mkIdle c (meta_createdAt m) (now (world p))]) p))
    (mkIdle c (meta_createdAt m) (now (world p))) (idle p)) as (p2 & E & K); simpl; try done; [lia|].
  exists p2. split; [done|]. split; [done|]. simpl in K.
  by replace (S (pred (sem p))) with (sem p) in K by lia.
Qed.

Definition one_held : Pool :=
  with_sem 1 (with_metas {[ 7%nat := mkMeta 0 0 ]} (New breaker_opts 5)).

Lemma release_then_acquire_witness :
  ∃ p1 p2, Release one_held 7 = Some p1 ∧ Acquire main_path p1 AStart = Some (p2, Ok 7%nat).
Proof.
  destruct (release_then_acquire one_held 7 (mkMeta 0 0)) as (p1 & p2 & H1 & H2 & _).
  1-3: reflexivity. 1: vm_compute; lia. 1: reflexivity.
  exists p1, p2. exact (conj H1 H2).
Defined.

(** ** Retiring a list of connections *)

Section retiring.
(** What the loop does after each [retire]: count, and maybe emit. *)
Variable post : Pool → Pool.
Hypothesis post_idle : ∀ p, idle (post p) = idle p.
Hypothesis post_metas : ∀ p, metas (post p) = metas p.
Hypothesis post_gen : ∀ p, reconnectGen (post p) = reconnectGen p.
Hypothesis post_closed : ∀ p, closed (post p) = closed p.
Hypothesis post_sem : ∀ p, sem (post p) = sem p.
Hypothesis post_conns : ∀ p, closedConns (world (post p)) = closedConns (world p).
Hypothesis post_reaped : ∀ p, reaped (cnt (post p)) = reaped (cnt p) + 1.

Definition retire_all (l : list nat) (p : Pool) : Pool :=
  foldl (λ p c, post (retire c p)) p l.

Lemma retire_all_spec l p :
  let p' := retire_all l p in
  idle p' = idle p ∧ reconnectGen p' = reconnectGen p ∧ closed p' = closed p ∧
  sem p' = sem p ∧
  closedConns (world p') = list_to_set l ∪ closedConns (world p) ∧
  reaped (cnt p') = reaped (cnt p) + Z.of_nat (length l) ∧
  ∀ c, metas p' !! c = if decide (c ∈ l) then None else metas p !! c.
Proof.
  revert p. induction l as [|c l IH]; intros p; cbn [retire_all foldl].
  - simpl. split_and!; try done; [set_solver|lia].
  - destruct (IH (post (retire c p))) as (Hi & Hg & Hc & Hs & Hw & Hr & Hm).
    unfold retire_all in *.
    rewrite Hi, Hg, Hc, Hs, Hw, Hr, post_idle, post_gen, post_closed, post_sem, post_conns, post_reaped.
    simpl. split_and!; try done; [set_solver|lia|].
    intros c'. rewrite Hm, post_metas. simpl. rewrite lookup_delete.
    repeat case_decide; set_solver.
Qed.
End retiring.

Definition reconnect_post (p : Pool) : Pool := add_reaped p.
Definition reap_post (p : Pool) : Pool := emit "reap_idle" None (add_reaped p).

Lemma reconnect_run_retire l n k p :
  reconnect_run (length l + S k) p (NRetire l n)
  = Some (emit "reconnect" None (retire_all reconnect_post l p), n).
Proof. revert p. induction l as [|c l IH]; intros p; simpl; [done|]. by rewrite IH. Qed.

Lemma reap_run_retire l k p :
  reap_run (length l + S k) p (ERetire l) = Some (retire_all reap_post l p).
Proof. revert p. induction l as [|c l IH]; intros p; simpl; [done|]. by rewrite IH. Qed.

Lemma Reconnect_eq p :
  Reconnect p = Some (emit "reconnect" None (retire_all reconnect_post (ic_conn <$> idle p)
    (with_idle [] (with_gen (reconnectGen p + 1) p))), length (idle p)).
Proof.
  unfold Reconnect. replace (length (idle p) + 3)%nat with (S (S (length (idle p) + 1))) by lia.
  simpl. rewrite <- (length_fmap ic_conn (idle p)) at 1. apply (reconnect_run_retire _ _ 0).
Qed.

Lemma Release_stale p c m :
  loadMeta p c = Some m → closed p = false → gen m < reconnectGen p → (1 ≤ sem p)%nat →
  Release p c = Some (emit "reconnect_discard" None (add_discards
    (with_sem (pred (sem p)) (retire c p)))).
Proof.
  intros Hm Hc Hg Hs. unfold Release; simpl. rewrite Hm; simpl. rewrite Hc; simpl.
  rewrite (proj2 (Z.ltb_lt _ _)) by lia. simpl. unfold releaseSlot. simpl.
  by destruct (sem p); [lia|].
Qed.

(** Reconnect returns the number of idle connections, closes and forgets
    every one of them, and every connection that was checked out at that moment
    is closed instead of pooled when it is released. *)
Theorem reconnect_replaces_all p :
  ∃ p', Reconnect p = Some (p', Idle (stats p)) ∧ idle p' = [] ∧
    (∀ c, c ∈ ic_conn <$> idle p → c ∈ closedConns (world p') ∧ loadMeta p' c = None) ∧
    (∀ c m, loadMeta p' c = Some m → closed p = false → gen m ≤ reconnectGen p → (1 ≤ sem p)%nat →
      ∃ p'', Release p' c = Some p'' ∧ idle p'' = [] ∧ sem p'' = pred (sem p) ∧
        c ∈ closedConns (world p'') ∧ loadMeta p'' c = None).
Proof.
  rewrite Reconnect_eq. eexists; split; [reflexivity|].
  set (q := with_idle [] _). simpl.
  destruct (retire_all_spec reconnect_post ltac:(done) ltac:(done) ltac:(done) ltac:(done)
    ltac:(done) ltac:(done) ltac:(done) (ic_conn <$> idle p) q)
    as (Hi & Hg & Hc & Hs & Hw & _ & Hm).
  unfold loadMeta; simpl. split; [by rewrite Hi|]. split.
  - intros c Hin. rewrite Hw, Hm, decide_True by done. set_solver.
  - intros c m Hl Hcl Hge Hse. eexists. rewrite (Release_stale _ c m); simpl;
      [|done|by rewrite Hc|rewrite Hg; simpl; lia|by rewrite Hs].
    split; [done|]. simpl. rewrite Hi, Hs, lookup_delete_eq. set_solver.
Qed.

Lemma reapExpired_eq p :
  closed p = false →
  reapExpired p = Some (retire_all reap_post
    (ic_conn <$> filter (λ ic, expired p (now (world p)) ic = true) (idle p))
    (with_idle (filter (λ ic, expired p (now (world p)) ic = false) (idle p)) p)).
Proof.
  intros Hc. unfold reapExpired.
  replace (length (idle p) + 3)%nat with (S (S (length (idle p) + 1))) by lia.
  simpl. rewrite Hc. simpl. rewrite Hc. simpl.
  set (l := filter (λ ic, expired p (now (world p)) ic = true) (idle p)).
  assert (Hl : (length l ≤ length (idle p))%nat) by apply length_filter.
  replace (length (idle p) + 1)%nat with
    (length (ic_conn <$> l) + S (length (idle p) - length l))%nat by (rewrite length_fmap; lia).
  apply reap_run_retire.
Qed.

(** one pass of the reaper keeps exactly the idle connections within both
    timeouts, in their order, and closes, forgets and counts all the others; on
    a closed pool it does nothing. *)
Theorem reaper_pass p :
  ∃ p', reapExpired p = Some p' ∧
    if closed p then p' = p else
    let dead := filter (λ ic, expired p (now (world p)) ic = true) (idle p) in
    idle p' = filter (λ ic, expired p (now (world p)) ic = false) (idle p) ∧
    closedConns (world p') = list_to_set (ic_conn <$> dead) ∪ closedConns (world p) ∧
    Reaped (stats p') = Reaped (stats p) + Z.of_nat (length dead) ∧
    sem p' = sem p ∧
    ∀ c, loadMeta p' c = if decide (c ∈ ic_conn <$> dead) then None else loadMeta p c.
Proof.
  destruct (closed p) eqn:Hc.
  - exists p. split; [|done]. unfold reapExpired.
    replace (length (idle p) + 3)%nat with (S (length (idle p) + 2)) by lia. simpl. by rewrite Hc.
  - rewrite (reapExpired_eq p Hc). eexists. split; [done|].
    destruct (retire_all_spec reap_post ltac:(done) ltac:(done) ltac:(done) ltac:(done)
      ltac:(done) ltac:(done) ltac:(done)
      (ic_conn <$> filter (λ ic, expired p (now (world p)) ic = true) (idle p))
      (with_idle (filter (λ ic, expired p (now (world p)) ic = false) (idle p)) p))
      as (Hi & _ & _ & Hs & Hw & Hr & Hm).
    simpl. rewrite length_fmap in Hr. by split_and!.
Qed.

End PoolMethods.
