(* ===== verification/PoolSpec.v ===== *)
(** * An abstract connection pool, and that the code refines it

    The contract of src/pool/pool.go without goroutines, locks, semaphores or
    program counters: connections are free, busy or gone.  Every step of the
    interleaving semantics of PoolSystem.v is one abstract step (or none), so
    every behaviour of the pool is a behaviour of the contract. *)

From S2P Require Import Prelude Pool PoolSystem PoolRuns PoolSafety.
Import Pool PoolSystem PoolRuns PoolSafety.
Open Scope nat_scope.

Module PoolSpec.

(** ** The contract *)

Record astate := mkA { free : gset nat; busy : gset nat; gone : gset nat; shut : bool }.

(** [astep L] for a pool of at most [L] busy connections. *)
Inductive astep (L : nat) : astate → astate → Prop :=
| a_skip a : astep L a a
| a_open F B G b c :
    c ∉ F ∪ B ∪ G → size B < L → astep L (mkA F B G b) (mkA F (B ∪ {[ c ]}) G b)
| a_take F B G b c :
    c ∈ F → size B < L → astep L (mkA F B G b) (mkA (F ∖ {[ c ]}) (B ∪ {[ c ]}) G b)
| a_give F B G c :
    c ∈ B → astep L (mkA F B G false) (mkA (F ∪ {[ c ]}) (B ∖ {[ c ]}) G false)
| a_kill F B G b c :
    c ∈ B → astep L (mkA F B G b) (mkA F (B ∖ {[ c ]}) (G ∪ {[ c ]}) b)
| a_evict F B G b X :
    X ⊆ F → astep L (mkA F B G b) (mkA (F ∖ X) B (G ∪ X) b)
| a_shut F B G : astep L (mkA F B G false) (mkA F B G true).

Definition ainit : astate := mkA ∅ ∅ ∅ false.

(** What the contract guarantees. *)
Definition awf (L : nat) (a : astate) : Prop :=
  size (busy a) ≤ L ∧ free a ## busy a ∧ free a ## gone a ∧ busy a ## gone a.

Lemma awf_step L a a' : astep L a a' → awf L a → awf L a'.
Proof.
  unfold awf. destruct 1; simpl; intros (Hs & H1 & H2 & H3); simpl in *.
  - done.
  - split_and!; [|set_solver..]. rewrite size_union by set_solver. rewrite size_singleton. lia.
  - split_and!; [|set_solver..]. rewrite size_union by set_solver. rewrite size_singleton. lia.
  - split_and!; [|set_solver..]. pose proof (subseteq_size (B ∖ {[ c ]}) B ltac:(set_solver)). lia.
  - split_and!; [|set_solver..]. pose proof (subseteq_size (B ∖ {[ c ]}) B ltac:(set_solver)). lia.
  - split_and!; [done|set_solver..].
  - done.
Qed.

(** ** The abstraction function *)

(** Connections on their way to being closed by the reaper, Reconnect or Close. *)
Definition limbo (t : thread) : list nat :=
  match t with
  | TReap (ERetire l) | TReconn (NRetire l _) | TClose (CDone l) | TClose (CRetire l) => l
  | _ => []
  end.

Definition inuse (t : thread) : list nat :=
  match t with TReap _ | TReconn _ | TClose _ => [] | _ => owned t end.

Definition abs (s : sys) : astate :=
  mkA (list_to_set (idle_conns (pool s))) (list_to_set (threads s ≫= inuse))
    (closedConns (world (pool s)) ∪ list_to_set (threads s ≫= limbo)) (closed (pool s)).

(** What one step does, seen from the contract. *)
Inductive aeffect (p : Pool) (t : thread) (p' : Pool) (t' : thread) : Prop :=
| e_skip : idle_conns p' = idle_conns p → inuse t' = inuse t → closed p' = closed p →
    (list_to_set (limbo t') ∪ closedConns (world p') : gset nat)
      = list_to_set (limbo t) ∪ closedConns (world p) → aeffect p t p' t'
| e_open c : c = nextConn (world p) → idle_conns p' = idle_conns p → closed p' = closed p →
    slot t = 1 → inuse t = [] → inuse t' = [c] → limbo t' = limbo t →
    closedConns (world p') = closedConns (world p) → aeffect p t p' t'
| e_take c l : idle_conns p = l ++ [c] → idle_conns p' = l → closed p' = closed p →
    slot t = 1 → inuse t = [] → inuse t' = [c] → limbo t' = limbo t →
    closedConns (world p') = closedConns (world p) → aeffect p t p' t'
| e_give c : idle_conns p' = idle_conns p ++ [c] → closed p = false → closed p' = false →
    inuse t = [c] → inuse t' = [] → limbo t' = limbo t →
    closedConns (world p') = closedConns (world p) → aeffect p t p' t'
| e_kill c : idle_conns p' = idle_conns p → closed p' = closed p →
    inuse t = [c] → inuse t' = [] → limbo t' = limbo t →
    closedConns (world p') = {[ c ]} ∪ closedConns (world p) → aeffect p t p' t'
| e_evict : (∀ c, occ c (idle_conns p) = occ c (idle_conns p') + occ c (limbo t')) →
    closed p' = closed p → inuse t' = inuse t → limbo t = [] →
    closedConns (world p') = closedConns (world p) → aeffect p t p' t'
| e_shut : closed p = false → closed p' = true → idle_conns p' = idle_conns p →
    inuse t' = inuse t → limbo t' = limbo t →
    closedConns (world p') = closedConns (world p) → aeffect p t p' t'.

Lemma aeffect_step p t p' t' : tstep p t p' t' → local_ok p t → aeffect p t p' t'.
Proof.
  intros H L. lcases H L.
  all: try (by apply e_skip); try (by eapply e_open); try (by eapply e_kill);
    try (by apply e_shut); unfold idle_conns.
  all: try (eapply e_take; try done; unfold idle_conns;
    match goal with H : idle _ = _ |- _ => by rewrite H, fmap_app end).
  all: try (eapply e_give; try done; unfold idle_conns; simpl; by rewrite fmap_app).
  all: try (apply e_evict; try done; intros c0; unfold idle_conns; simpl;
    rewrite ?(occ_split_idle c0 (expired p n) (idle p)); lia).
  all: apply e_skip; try done; set_solver.
Qed.

(** ** The simulation *)

Lemma occ_bind {A} c (f : A → list nat) ts : occ c (ts ≫= f) = total (λ t, occ c (f t)) ts.
Proof. induction ts as [|t ts IH]; [done|]. rewrite bind_cons, occ_app, IH. done. Qed.

Lemma length_bind {A} (f : A → list nat) ts : length (ts ≫= f) = total (λ t, length (f t)) ts.
Proof. induction ts as [|t ts IH]; [done|]. rewrite bind_cons, length_app, IH. done. Qed.

Lemma size_list_to_set_le (l : list nat) : size (list_to_set l : gset nat) ≤ length l.
Proof.
  induction l as [|x l IH]; [done|]. rewrite list_to_set_cons. cbn [length].
  pose proof (size_union_alt ({[ x ]} : gset nat) (list_to_set l)) as K.
  rewrite K, size_singleton.
  pose proof (subseteq_size (list_to_set l ∖ {[ x ]} : gset nat) (list_to_set l) ltac:(set_solver)).
  lia.
Qed.

Lemma owned_inuse_limbo c t : occ c (owned t) = occ c (inuse t) + occ c (limbo t).
Proof.
  destruct t as [|[]| |[]|[]|[]|[]| | |[]|[]|]; unfold inuse, limbo, owned; simpl;
    rewrite ?occ_app; simpl; lia.
Qed.

Lemma inuse_slot t : length (inuse t) ≤ slot t.
Proof. destruct t as [|[]| |[]|[]|[]|[]| | |[]|[]|]; simpl; repeat case_match; simpl; lia. Qed.

Lemma astep_to L a F B G b F' B' G' b' :
  astep L a (mkA F' B' G' b') → F = F' → B = B' → G = G' → b = b' → astep L a (mkA F B G b).
Proof. by intros ? -> -> -> ->. Qed.

Section simulation.
Context {p p' : Pool} {ts1 ts2 : list thread} {t t' : thread}.
Abbreviation ts := (ts1 ++ t :: ts2).
Context (I : Inv (mkSys p ts)).

Lemma inuse_rest c :
  c ∈ inuse t ∨ c ∈ idle_conns p → (c ∉ ts1 ≫= inuse) ∧ (c ∉ ts2 ≫= inuse).
Proof.
  pose proof (inv_unique _ I c) as HU. unfold places in HU; simpl in HU.
  rewrite total_mid, owned_inuse_limbo in HU. rewrite !occ_elem_of, !occ_bind.
  assert (K : ∀ us, total (λ u, occ c (inuse u)) us ≤ total (λ u, occ c (owned u)) us).
  { intros us. apply total_le. intros u. rewrite owned_inuse_limbo. lia. }
  pose proof (K ts1). pose proof (K ts2). lia.
Qed.

Lemma occ_place c : occ c (idle_conns p) ≤ 1.
Proof. pose proof (inv_unique _ I c) as HU. unfold places in HU; simpl in HU. lia. Qed.

Lemma inuse_below :
  slot t = 1 → inuse t = [] →
  size (list_to_set (ts ≫= inuse) : gset nat) < limit (opts p).
Proof.
  intros Hs Hu. pose proof (size_list_to_set_le (ts ≫= inuse)) as Hle.
  rewrite length_bind, total_mid, Hu in Hle. simpl in Hle.
  pose proof (inv_sem _ I) as H1. pose proof (inv_cap _ I) as H2. simpl in *.
  rewrite total_mid in H1.
  pose proof (total_le (λ u, length (inuse u)) slot ts1 inuse_slot).
  pose proof (total_le (λ u, length (inuse u)) slot ts2 inuse_slot). lia.
Qed.

Lemma fresh_unseen c :
  c = nextConn (world p) →
  (c ∉ idle_conns p) ∧ (c ∉ ts ≫= inuse) ∧ (c ∉ ts ≫= limbo) ∧ c ∉ closedConns (world p).
Proof.
  intros ->. destruct (inv_fresh _ I (nextConn (world p))) as [HU HC]; [done|]. simpl in *.
  unfold places in HU. rewrite !occ_elem_of, !occ_bind.
  assert (K : total (λ u, occ (nextConn (world p)) (inuse u)) ts
    ≤ total (λ u, occ (nextConn (world p)) (owned u)) ts)
    by (apply total_le; intros u; rewrite owned_inuse_limbo; lia).
  assert (K' : total (λ u, occ (nextConn (world p)) (limbo u)) ts
    ≤ total (λ u, occ (nextConn (world p)) (owned u)) ts)
    by (apply total_le; intros u; rewrite (owned_inuse_limbo _ u); lia).
  split_and!; [lia..|done].
Qed.

Lemma simulate :
  aeffect p t p' t' → astep (limit (opts p)) (abs (mkSys p ts)) (abs (mkSys p' (ts1 ++ t' :: ts2))).
Proof.
  intros E. pose proof inuse_below as HB. pose proof inuse_rest as HR.
  pose proof occ_place as HO. pose proof fresh_unseen as HF. revert HB HR HO HF.
  unfold abs; simpl. rewrite !bind_app, !bind_cons, !list_to_set_app_L.
  generalize (ts1 ≫= inuse) (ts2 ≫= inuse) (ts1 ≫= limbo) (ts2 ≫= limbo). clear I.
  intros U1 U2 L1 L2 HB HR HO HF.
  destruct E as [Hi Hu Hc Hw|c Hn Hi Hc Hs Hu Hu' Hl Hw|c l Hi Hi' Hc Hs Hu Hu' Hl Hw
    |c Hi Hc Hc' Hu Hu' Hl Hw|c Hi Hc Hu Hu' Hl Hw|Hi Hc Hu Hl Hw|Hc Hc' Hi Hu Hl Hw].
  - rewrite Hi, Hu, Hc.
    eapply astep_to; [apply a_skip|done|done| |done]. clear -Hw. set_solver.
  - destruct (HF c Hn) as (F1 & F2 & F3 & F4). specialize (HB Hs Hu).
    rewrite Hi, Hc, Hu', Hl, Hw. rewrite Hu in *. clear -F1 F2 F3 F4 HB.
    eapply astep_to; [apply (a_open _ _ _ _ _ c); [set_solver|done]|..]; [done| |done|done].
    clear. set_solver.
  - specialize (HB Hs Hu). specialize (HO c). rewrite Hi, occ_app, occ_cons_eq in HO.
    assert (Hcl : c ∉ l) by (apply occ_not_elem_of; lia).
    rewrite Hi', Hc, Hu', Hl, Hw, Hi. rewrite Hu in *. clear -Hcl HB.
    eapply astep_to; [apply (a_take _ _ _ _ _ c); [set_solver|done]|..];
      [| |done|done]; clear -Hcl; set_solver.
  - destruct (HR c) as [R1 R2]; [left; rewrite Hu; set_solver|].
    rewrite Hi, Hc, Hc', Hu, Hu', Hl, Hw. clear -R1 R2.
    eapply astep_to; [apply (a_give _ _ _ _ c); set_solver|..]; [| |done|done]; set_solver.
  - destruct (HR c) as [R1 R2]; [left; rewrite Hu; set_solver|].
    rewrite Hi, Hc, Hu, Hu', Hl, Hw. clear -R1 R2.
    eapply astep_to; [apply (a_kill _ _ _ _ _ c); set_solver|..]; [done| | |done]; set_solver.
  - assert (HX : ∀ c, c ∈ idle_conns p ↔ c ∈ idle_conns p' ∨ c ∈ limbo t')
      by (intros c; rewrite !occ_elem_of; specialize (Hi c); lia).
    assert (HD : ∀ c, c ∈ idle_conns p' → c ∈ limbo t' → False).
    { intros c. rewrite !occ_elem_of. specialize (Hi c). specialize (HO c). lia. }
    rewrite Hc, Hu, Hl, Hw. clear -HX HD.
    eapply astep_to; [apply (a_evict _ _ _ _ _ (list_to_set (limbo t')))|..];
      [set_solver|set_solver|done|clear; set_solver|done].
  - rewrite Hi, Hc, Hc', Hu, Hl, Hw. apply a_shut.
Qed.
End simulation.

Lemma abs_spawn p u ts : spawns u → abs (mkSys p (u :: ts)) = abs (mkSys p ts).
Proof. unfold abs. simpl. by destruct 1. Qed.

Lemma simulate_step s s' :
  sys_step s s' → Inv s → astep (limit (opts (pool s))) (abs s) (abs s').
Proof.
  destruct 1 as [p ts1 u ts2 p' u' H|p ts u H|]; intros I.
  - by apply simulate, (aeffect_step _ _ _ _ H), (inv_local I).
  - rewrite abs_spawn by done. apply a_skip.
  - apply a_skip.
Qed.

(** A pool of two with one connection to warm up. *)
Definition warm : Options := mkOptions 2 false false 0 0 0 1 0 0 0 0.

(** C11: the pool refines the contract.  Every step any goroutine takes in a
    reachable state is a step of the abstract pool (or changes nothing there),
    from the empty pool on, and so every reachable state satisfies the
    contract's guarantees: at most [limit] connections busy, none of them free
    or gone at the same time. *)
Theorem pool_refines_contract o t s :
  reachable o t s →
  rtc (astep (limit o)) ainit (abs s) ∧ awf (limit o) (abs s) ∧
  ∀ s', sys_step s s' → astep (limit o) (abs s) (abs s').
Proof.
  intros R. pose proof (reachable_opts _ _ _ R) as Ho. pose proof (reachable_Inv _ _ _ R) as I.
  assert (HA : rtc (astep (limit o)) ainit (abs s)).
  { clear Ho I. unfold reachable in R. apply (rtc_ind_r (λ s, rtc (astep (limit o)) ainit (abs s)) _ ) in R.
    - done.
    - unfold abs; simpl. unfold starts_warmUp. by case_match.
    - intros s1 s2 R1 Hs IH. eapply rtc_r; [exact IH|].
      rewrite <- (reachable_opts _ _ _ R1). apply simulate_step; [done|]. by eapply reachable_Inv. }
  split; [done|]. split.
  - assert (H0 : awf (limit o) ainit) by (unfold awf; simpl; split_and!; [apply Nat.le_0_l|set_solver..]).
    revert H0. generalize ainit HA. clear. induction 1; eauto using awf_step.
  - intros s' Hs. rewrite <- Ho. by apply simulate_step.
Qed.

Lemma pool_refines_contract_witness :
  let s := default (sys_init warm 0) (exec (Spawn SOut :: go 0 8) (sys_init warm 0)) in
  threads s = [SAcq (ADial 0 0 (100 * Millisecond)); TWarm (WLoop 0)] ∧
  awf (limit warm) (abs s).
Proof.
  split; [vm_compute; reflexivity|].
  apply (pool_refines_contract warm 0).
  apply (exec_reachable warm 0 (Spawn SOut :: go 0 8)). vm_compute. reflexivity.
Defined.

End PoolSpec.
