(* ===== verification/GoStrings.v ===== *)
(** * The parts of Go's strings package the sources use

    Go strings are byte sequences; they are modelled by [string], one [ascii]
    per byte.  The functions here are the ones the modelled sources call, on
    the arguments they call them with: cut sets and needles are ASCII. *)

From Stdlib Require Import Ascii.
From S2P Require Import Prelude.
Open Scope nat_scope.

(** ** Characters *)

Definition byte_of (c : ascii) : nat := nat_of_ascii c.

Definition is_upper (c : ascii) : bool := (65 <=? byte_of c) && (byte_of c <=? 90).
Definition is_lower (c : ascii) : bool := (97 <=? byte_of c) && (byte_of c <=? 122).
Definition is_letter (c : ascii) : bool := is_upper c || is_lower c.
Definition is_digit (c : ascii) : bool := (48 <=? byte_of c) && (byte_of c <=? 57).

Definition up (c : ascii) : ascii := if is_lower c then ascii_of_nat (byte_of c - 32) else c.
Definition low (c : ascii) : ascii := if is_upper c then ascii_of_nat (byte_of c + 32) else c.

Definition TAB : ascii := "009".
Definition LF : ascii := "010".
Definition CR : ascii := "013".
Definition SP : ascii := " ".

Definition mem (c : ascii) (l : list ascii) : bool := existsb (Ascii.eqb c) l.

(** ** Strings *)

(** [strings.ToUpper] and [strings.ToLower] on ASCII. *)
Fixpoint map_string (f : ascii → ascii) (s : string) : string :=
  match s with EmptyString => EmptyString | String c s => String (f c) (map_string f s) end.
Definition ToUpper : string → string := map_string up.
Definition ToLower : string → string := map_string low.

(** [strings.TrimLeft] with a cut set. *)
Fixpoint TrimLeft (cut : list ascii) (s : string) : string :=
  match s with
  | EmptyString => EmptyString
  | String c s' => if mem c cut then TrimLeft cut s' else s
  end.

Fixpoint HasPrefix (s pre : string) : bool :=
  match pre, s with
  | EmptyString, _ => true
  | String p pre, String c s => Ascii.eqb p c && HasPrefix s pre
  | _, EmptyString => false
  end.

(** What follows the first [b], when there is one: [s[i+1:]] for
    [i = strings.IndexByte(s, b)]. *)
Fixpoint after_byte (b : ascii) (s : string) : option string :=
  match s with
  | EmptyString => None
  | String c s => if Ascii.eqb c b then Some s else after_byte b s
  end.

(** Split around the first and around the last occurrence of a byte:
    [strings.Cut], and [strings.LastIndex] with the two slices taken at it. *)
Fixpoint cut_byte (b : ascii) (s : string) : option (string * string) :=
  match s with
  | EmptyString => None
  | String c s => if Ascii.eqb c b then Some (EmptyString, s)
                  else match cut_byte b s with Some (x, y) => Some (String c x, y) | None => None end
  end.

Fixpoint cut_last_byte (b : ascii) (s : string) : option (string * string) :=
  match s with
  | EmptyString => None
  | String c s =>
      match cut_last_byte b s with
      | Some (x, y) => Some (String c x, y)
      | None => if Ascii.eqb c b then Some (EmptyString, s) else None
      end
  end.

(** The longest prefix of bytes that satisfy [f]. *)
Fixpoint span (f : ascii → bool) (s : string) : string :=
  match s with
  | String c s => if f c then String c (span f s) else EmptyString
  | EmptyString => EmptyString
  end.

Fixpoint take_str (n : nat) (s : string) : string :=
  match n, s with
  | S n, String c s => String c (take_str n s)
  | _, _ => EmptyString
  end.

Fixpoint drop_str (n : nat) (s : string) : string :=
  match n, s with
  | S n, String _ s => drop_str n s
  | _, _ => s
  end.

(** [strings.ReplaceAll(s, b, b+b)] for a one-byte [b]. *)
Fixpoint double_byte (b : ascii) (s : string) : string :=
  match s with
  | EmptyString => EmptyString
  | String c s => if Ascii.eqb c b then String c (String c (double_byte b s))
                  else String c (double_byte b s)
  end.

(** [strings.Split] and [strings.Join] with a separator of one byte. *)
Fixpoint split_byte (b : ascii) (s : string) : list string :=
  match s with
  | EmptyString => [EmptyString]
  | String c s => if Ascii.eqb c b then EmptyString :: split_byte b s
                  else match split_byte b s with
                       | l :: ls => String c l :: ls
                       | [] => [String c EmptyString]
                       end
  end.

Fixpoint join_byte (b : ascii) (ls : list string) : string :=
  match ls with [] => EmptyString | [l] => l | l :: ls => l +:+ String b (join_byte b ls) end.

Fixpoint no_bytes (bs : list ascii) (s : string) : bool :=
  match s with EmptyString => true | String c s => negb (mem c bs) && no_bytes bs s end.

(** ** Text

    The functions that look at characters: on ASCII text they are the ones
    above; what they do with other characters is in Go's Unicode tables. *)

Definition is_ascii (c : ascii) : bool := byte_of c <? 128.

Fixpoint all_ascii (s : string) : bool :=
  match s with EmptyString => true | String c s => is_ascii c && all_ascii s end.

Class Unicode := {
  upper_runes : string → string;
  fold_equal_runes : string → string → bool;
}.

(** [strings.ToUpper] and [strings.EqualFold]. *)
Definition ToUpperText `{Unicode} (s : string) : string := if all_ascii s then ToUpper s else upper_runes s.
Definition EqualFold `{Unicode} (s t : string) : bool :=
  if all_ascii s && all_ascii t then bool_decide (ToLower s = ToLower t) else fold_equal_runes s t.

(** [strings.TrimPrefix]. *)
Definition TrimPrefix (s pre : string) : string :=
  if HasPrefix s pre then drop_str (String.length pre) s else s.

Fixpoint rev_app (s acc : string) : string :=
  match s with EmptyString => acc | String c s => rev_app s (String c acc) end.
Definition rev_str (s : string) : string := rev_app s EmptyString.

(** [strings.TrimRight] with an ASCII cut set. *)
Definition TrimRight (cut : list ascii) (s : string) : string := rev_str (TrimLeft cut (rev_str s)).

(** The encodings of the characters [unicode.IsSpace] accepts. *)
Definition bytes_str (l : list nat) : string := foldr (λ n, String (ascii_of_nat n)) EmptyString l.
Definition space_runes : list string :=
  bytes_str <$> ([[9]; [10]; [11]; [12]; [13]; [32]; [194; 133]; [194; 160]; [225; 154; 128]] ++
    ((λ n, [226; 128; 128 + n]) <$> seq 0 11) ++
    [[226; 128; 168]; [226; 128; 169]; [226; 128; 175]; [226; 129; 159]; [227; 128; 128]]).

(** Dropping the runes of [l] from the front. *)
Definition drop_rune (l : list string) (s : string) : option string :=
  head (omap (λ r, if HasPrefix s r then Some (drop_str (String.length r) s) else None) l).

Fixpoint drop_runes (fuel : nat) (l : list string) (s : string) : string :=
  match fuel with
  | 0 => s
  | S fuel => match drop_rune l s with None => s | Some s => drop_runes fuel l s end
  end.

(** [strings.TrimSpace]; every round drops at least a byte. *)
Definition TrimSpace (s : string) : string :=
  let s := drop_runes (String.length s) space_runes s in
  rev_str (drop_runes (String.length s) (rev_str <$> space_runes) (rev_str s)).

(** ** Byte lists

    Where the code treats a string as bytes it is a list of integers. *)

(** Split around the first occurrence of a byte: [strings.Cut], and
    [strings.IndexByte] with the two slices taken at it. *)
Fixpoint cut (b : Z) (s : list Z) : option (list Z * list Z) :=
  match s with
  | [] => None
  | c :: s => if (c =? b)%Z then Some ([], s)
              else match cut b s with Some (x, y) => Some (c :: x, y) | None => None end
  end.

Lemma cut_app b x y : b ∉ x → cut b (x ++ b :: y) = Some (x, y).
Proof.
  induction x as [|c x IH]; intros Hx; simpl; [by rewrite Z.eqb_refl|].
  apply not_elem_of_cons in Hx as [Hc Hx].
  rewrite (proj2 (Z.eqb_neq c b)) by done. by rewrite IH.
Qed.

(** ** Lemmas *)

Lemma str_cons_app c s t : String c s +:+ t = String c (s +:+ t).
Proof. done. Qed.

Lemma str_nil_app s : "" +:+ s = s.
Proof. done. Qed.

Lemma str_app_nil (s : string) : s +:+ "" = s.
Proof. induction s as [|c s IH]; [done|]. rewrite str_cons_app. by rewrite IH. Qed.

Lemma str_app_assoc (a b c : string) : (a +:+ b) +:+ c = a +:+ (b +:+ c).
Proof. induction a as [|x a IH]; [by rewrite !str_nil_app|]. rewrite !str_cons_app. by rewrite IH. Qed.

Lemma length_str_app s t : String.length (s +:+ t) = String.length s + String.length t.
Proof. induction s as [|c s IH]; [done|]. rewrite str_cons_app. simpl. by rewrite IH. Qed.

Lemma after_byte_length b s r : after_byte b s = Some r → String.length r < String.length s.
Proof.
  induction s as [|c s IH]; simpl; [done|]. case_match; intros; simplify_eq; [lia|].
  apply IH in H0. lia.
Qed.

Lemma after_byte_app b s t : after_byte b s = None → after_byte b (s +:+ String b t) = Some t.
Proof.
  induction s as [|c s IH]; [intros _; rewrite str_nil_app; simpl; by rewrite Ascii.eqb_refl|].
  rewrite str_cons_app. simpl. destruct (Ascii.eqb c b); [done | auto].
Qed.

Lemma TrimLeft_length cut s : String.length (TrimLeft cut s) ≤ String.length s.
Proof. induction s as [|c s IH]; simpl; [done|]. case_match; simpl; lia. Qed.

Lemma TrimLeft_idem cut s : TrimLeft cut (TrimLeft cut s) = TrimLeft cut s.
Proof. induction s as [|c s IH]; simpl; [done|]. destruct (mem c cut) eqn:E; [done|]. simpl. by rewrite E. Qed.

Lemma up_idem c : up (up c) = up c.
Proof. by destruct c as [[] [] [] [] [] [] [] []]. Qed.

Lemma low_idem c : low (low c) = low c.
Proof. by destruct c as [[] [] [] [] [] [] [] []]. Qed.

Lemma map_string_idem f s : (∀ c, f (f c) = f c) → map_string f (map_string f s) = map_string f s.
Proof. intros H. induction s as [|c s IH]; simpl; [done|]. by rewrite H, IH. Qed.

Lemma ToLower_idem s : ToLower (ToLower s) = ToLower s.
Proof. apply map_string_idem, low_idem. Qed.

Lemma ToUpper_idem s : ToUpper (ToUpper s) = ToUpper s.
Proof. apply map_string_idem, up_idem. Qed.

Lemma split_byte_ne b s : split_byte b s ≠ [].
Proof. destruct s; simpl; repeat case_match; done. Qed.

Lemma join_split_byte b s : join_byte b (split_byte b s) = s.
Proof.
  induction s as [|c s IH]; [done|]. simpl. pose proof (split_byte_ne b s) as Hne.
  destruct (Ascii.eqb c b) eqn:E.
  - apply Ascii.eqb_eq in E as ->. destruct (split_byte b s) as [|l ls]; [done|]. by rewrite <-IH.
  - destruct (split_byte b s) as [|l ls]; [done|]. rewrite <-IH. by destruct ls.
Qed.

Lemma no_bytes_cons bs c s : no_bytes bs (String c s) = true ↔ mem c bs = false ∧ no_bytes bs s = true.
Proof. simpl. rewrite andb_true_iff, negb_true_iff. done. Qed.

Lemma split_byte_one b s : no_bytes [b] s = true → split_byte b s = [s].
Proof.
  induction s as [|c s IH]; [done|]. rewrite no_bytes_cons. simpl. rewrite orb_false_r. intros [-> Hs].
  by rewrite IH.
Qed.

Lemma split_byte_app b l s : no_bytes [b] l = true → split_byte b (l +:+ String b s) = l :: split_byte b s.
Proof.
  induction l as [|c l IH]; [rewrite str_nil_app; simpl; by rewrite Ascii.eqb_refl|].
  rewrite no_bytes_cons, str_cons_app. simpl. rewrite orb_false_r. intros [-> Hl]. by rewrite IH.
Qed.
