(* ===== verification/Prepared.v ===== *)
(** * Prepared statements in transaction pooling

    src/prepared_stmts.go and src/listen_warn.go: the per-session statement
    registry, the per-backend LRU of statements a backend has been shown, the
    lazy replay of Parse messages, and the checks on SQL text.  The protocol
    messages are those of pgproto3, with the fields the proxy does not look at
    kept as an opaque payload. *)

From Stdlib Require Import Ascii.
From S2P Require Import Prelude GoStrings.
Open Scope string_scope.
Open Scope list_scope.
Open Scope nat_scope.

Module Prepared.

(** ** Protocol messages *)

(** Messages from the client to the server. *)
Inductive fmsg :=
| Query (sql : string)
| Parse (name sql : string) (oids : list Z)
| Bind (stmt payload : string)
| Describe (objectType : ascii) (name : string)
| CloseMsg (objectType : ascii) (name : string)
| Execute (payload : string)
| Sync
| FlushMsg
| CopyData (data : string)
| CopyDone
| CopyFail (message : string)
| Terminate
| OtherF (payload : string).

#[export] Instance fmsg_eq_dec : EqDecision fmsg.
Proof. solve_decision. Defined.

(** ** State *)

Definition defaultMaxPreparedStatements : Z := 200.
Definition sessionPSCeilingFactor : Z := 4.

Record prepStmtInfo := mkInfo { SQL : string; ParameterOIDs : list Z }.

#[export] Instance prepStmtInfo_eq_dec : EqDecision prepStmtInfo.
Proof. solve_decision. Defined.

Abbreviation psCacheT := (gmap string prepStmtInfo).
Abbreviation backendPSCache := (gmap string Z).

Record psSwallow := mkSwallow { parseComplete : nat; closeComplete : nat }.
Definition no_swallow : psSwallow := mkSwallow 0 0.
Definition add_swallow (s other : psSwallow) : psSwallow :=
  mkSwallow (parseComplete s + parseComplete other) (closeComplete s + closeComplete other).

(** The fields of a session the relay uses.  A nil map is [None]. *)
Record session := mkSession {
  sid : Z;
  poolMode : string;
  psCache : option psCacheT;
  psLimit : Z;
  psClock : Z;
  psEvicted : bool;
  listenWarned : bool;
  trackedParams : list (string * string);
}.

(** A backend connection as the relay sees it: the statements it has been
    shown, whose session state it carries, and the messages its Frontend has
    encoded but not yet written ([Send] appends, [Flush] writes). *)
Record backendConn := mkBackend {
  bid : nat;
  preparedStmts : option backendPSCache;
  stateOwner : Z;
  feBuf : list fmsg;
}.

Definition with_psCache c s := mkSession (sid s) (poolMode s) c (psLimit s) (psClock s)
  (psEvicted s) (listenWarned s) (trackedParams s).
Definition with_psClock c s := mkSession (sid s) (poolMode s) (psCache s) (psLimit s) c
  (psEvicted s) (listenWarned s) (trackedParams s).
Definition with_psEvicted e s := mkSession (sid s) (poolMode s) (psCache s) (psLimit s) (psClock s)
  e (listenWarned s) (trackedParams s).
Definition with_listenWarned w s := mkSession (sid s) (poolMode s) (psCache s) (psLimit s)
  (psClock s) (psEvicted s) w (trackedParams s).
Definition with_sid i s := mkSession i (poolMode s) (psCache s) (psLimit s)
  (psClock s) (psEvicted s) (listenWarned s) (trackedParams s).

Definition with_preparedStmts c b := mkBackend (bid b) c (stateOwner b) (feBuf b).
Definition with_stateOwner o b := mkBackend (bid b) (preparedStmts b) o (feBuf b).
Definition with_feBuf l b := mkBackend (bid b) (preparedStmts b) (stateOwner b) l.

(** [fe.Send]. *)
Definition send (m : fmsg) (b : backendConn) : backendConn := with_feBuf (feBuf b ++ [m]) b.

(** Reading a possibly nil map. *)
Definition stmts (b : backendConn) : backendPSCache := default ∅ (preparedStmts b).
Definition cached (s : session) : psCacheT := default ∅ (psCache s).

(** ** SQL text *)

Definition blanks : list ascii := [SP; TAB; CR; LF].

Definition ddl_words : list string :=
  ["CREATE"; "ALTER"; "DROP"; "TRUNCATE"; "GRANT"; "REVOKE"; "COMMENT"; "REINDEX";
   "REFRESH"; "CLUSTER"; "SECURITY"; "VACUUM"].

(** The loop over leading [--] comments, with the text's length as fuel: each
    round drops at least the two dashes.  [None] is the early [return false]. *)
Fixpoint skip_comments (fuel : nat) (s : string) : option string :=
  if HasPrefix s "--" then
    match fuel with
    | O => None
    | S fuel =>
        match after_byte LF s with
        | Some r => skip_comments fuel (TrimLeft blanks r)
        | None => None
        end
    end
  else Some s.

Definition isDDL (sql : string) : bool :=
  match skip_comments (String.length sql) (TrimLeft blanks sql) with
  | None => false
  | Some s =>
      if (String.length s <? 5) then false
      else bool_decide (ToUpper (span is_letter s) ∈ ddl_words)
  end.

Definition checkListenWarn (s : session) (sql : string) : session :=
  if (poolMode s =? "session")%string then s
  else
    let trimmed := TrimLeft (SP :: TAB :: CR :: LF :: ["("%char]) sql in
    if String.length trimmed <? 6 then s
    else
      let head := ToUpper (take_str 6 trimmed) in
      if (head =? "LISTEN")%string || (head =? "UNLIST")%string
      then with_listenWarned true s else s.

Definition clearBackendPSCache (b : backendConn) : backendConn := with_preparedStmts None b.

Definition invalidatePSCachesOnDDL (b : backendConn) (s : session) : backendConn * session :=
  (clearBackendPSCache b, with_psCache None s).

Definition checkSQLSideEffects (b : backendConn) (s : session) (sql : string) :
  backendConn * session :=
  if (sql =? "")%string then (b, s)
  else
    let s := if listenWarned s then s else checkListenWarn s sql in
    if isDDL sql then invalidatePSCachesOnDDL b s else (b, s).

(** ** The backend's LRU *)

(** One round of the scan over the map; [oldest = ""] means nothing seen yet. *)
Definition lru_pick (acc : string * Z) (kv : string * Z) : string * Z :=
  if (acc.1 =? "")%string || (kv.2 <? acc.2)%Z then kv else acc.

Definition lru_scan (l : list (string * Z)) : option string :=
  let '(oldest, _) := foldl lru_pick ("", 0%Z) l in
  if (oldest =? "")%string then None else Some oldest.

Definition lruStmt (cache : backendPSCache) : option string := lru_scan (map_to_list cache).

(** The eviction loop, one round per entry at most. *)
Fixpoint evict (fuel : nat) (limit : nat) (b : backendConn) (s : session) (sw : psSwallow) :
  backendConn * session * psSwallow :=
  match fuel with
  | O => (b, s, sw)
  | S fuel =>
      if (limit <=? size (stmts b)) then
        match lruStmt (stmts b) with
        | None => (b, s, sw)
        | Some victim =>
            evict fuel limit
              (send (CloseMsg "S" victim) (with_preparedStmts (Some (delete victim (stmts b))) b))
              (with_psEvicted true s)
              (mkSwallow (parseComplete sw) (S (closeComplete sw)))
        end
      else (b, s, sw)
  end.

Definition u64 (z : Z) : Z := (z `mod` two64)%Z.

(** [sess.psClock++; backend.preparedStmts[name] = sess.psClock] *)
Definition touch (name : string) (b : backendConn) (s : session) : backendConn * session :=
  let c := u64 (psClock s + 1) in
  (with_preparedStmts (Some (<[name := c]> (stmts b))) b, with_psClock c s).

Definition markBackendHasStmt (b : backendConn) (s : session) (name : string) :
  backendConn * session * psSwallow :=
  let '(b, s, sw) :=
    if (0 <? psLimit s)%Z && bool_decide (stmts b !! name = None)
    then evict (size (stmts b)) (Z.to_nat (psLimit s)) b s no_swallow
    else (b, s, no_swallow) in
  let '(b, s) := touch name b s in (b, s, sw).

(** ** Replay *)

Definition sessionPSCeiling (limit : Z) : Z :=
  if (limit <=? 0)%Z then 0 else (limit * sessionPSCeilingFactor)%Z.

Definition ensureBackendHasStmt (b : backendConn) (s : session) (name : string) :
  backendConn * session * psSwallow :=
  if (name =? "")%string then (b, s, no_swallow)
  else match psCache s with
  | None => (b, s, no_swallow)
  | Some c =>
      match c !! name with
      | None => (b, s, no_swallow)
      | Some info =>
          if bool_decide (is_Some (stmts b !! name))
          then let '(b, s) := touch name b s in (b, s, no_swallow)
          else
            let '(b, s, sw) := markBackendHasStmt b s name in
            (send (Parse name (SQL info) (ParameterOIDs info)) b, s,
             mkSwallow (S (parseComplete sw)) (closeComplete sw))
      end
  end.

(** [Err n] reports a session with [n] open statements, at its ceiling. *)
Definition trackClientParse (b : backendConn) (s : session) (name sql : string) (oids : list Z) :
  result nat (backendConn * session * psSwallow) :=
  let c := cached s in
  let ceiling := sessionPSCeiling (psLimit s) in
  if bool_decide (c !! name = None) && (0 <? ceiling)%Z && (ceiling <=? Z.of_nat (size c))%Z
  then Err (size c)
  else Ok (markBackendHasStmt b (with_psCache (Some (<[name := mkInfo sql oids]> c)) s) name).

(** [processClientMsg], called with the backend the session holds; the message
    itself is forwarded unchanged. *)
Definition processClientMsg (b : backendConn) (s : session) (msg : fmsg) :
  result nat (backendConn * session * psSwallow) :=
  match msg with
  | Parse name sql oids =>
      let? (b, s, sw) := (if (name =? "")%string then Ok (b, s, no_swallow)
                          else trackClientParse b s name sql oids) in
      let '(b, s) := checkSQLSideEffects b s sql in Ok (b, s, sw)
  | Bind stmt _ => Ok (ensureBackendHasStmt b s stmt)
  | Describe ty name =>
      if Ascii.eqb ty "S" then Ok (ensureBackendHasStmt b s name) else Ok (b, s, no_swallow)
  | CloseMsg ty name =>
      if Ascii.eqb ty "S" && negb (name =? "")%string
      then Ok (with_preparedStmts (delete name <$> preparedStmts b) b,
               with_psCache (delete name <$> psCache s) s, no_swallow)
      else Ok (b, s, no_swallow)
  | Query sql => let '(b, s) := checkSQLSideEffects b s sql in Ok (b, s, no_swallow)
  | _ => Ok (b, s, no_swallow)
  end.

End Prepared.
