(* ===== verification/PreparedTheorems.v ===== *)
(** * Correctness of the prepared-statement replay

    What src/prepared_stmts.go is for: every Bind or Describe of a statement a
    session has prepared finds that statement, with that session's SQL, on
    whatever backend the session currently holds, unless the server has lost the
    Parse to an error; the per-backend cache stays within
    max_prepared_statements and sheds the least recently used entry; and the
    counts of replies to swallow are exactly the messages injected. *)

From Stdlib Require Import Ascii.
From S2P Require Import Prelude GoStrings Prepared.
Import Prepared.
Open Scope string_scope.
Open Scope list_scope.
Open Scope nat_scope.

Module PreparedTheorems.

(** ** The server's side

    PostgreSQL's table of named statements, as far as the protocol messages
    act on it when they are carried out: Parse adds a name that is not there
    (42P05 otherwise), Close removes one, Bind and Describe need it to be there
    (26000 otherwise). *)

Abbreviation table := (gmap string prepStmtInfo).

Definition serve (T : table) (m : fmsg) : table :=
  match m with
  | Parse n q o =>
      if (n =? "")%string then T
      else match T !! n with None => <[n := mkInfo q o]> T | Some _ => T end
  | CloseMsg ty n => if Ascii.eqb ty "S" && negb (n =? "")%string then delete n T else T
  | _ => T
  end.

Definition accepts (T : table) (m : fmsg) : bool :=
  match m with
  | Parse n _ _ => (n =? "")%string || bool_decide (T !! n = None)
  | Bind n _ => (n =? "")%string || bool_decide (is_Some (T !! n))
  | Describe ty n => negb (Ascii.eqb ty "S") || (n =? "")%string || bool_decide (is_Some (T !! n))
  | _ => true
  end.

Fixpoint serve_all (T : table) (l : list fmsg) : table :=
  match l with [] => T | m :: l => serve_all (serve T m) l end.

Fixpoint accepts_all (T : table) (l : list fmsg) : bool :=
  match l with [] => true | m :: l => accepts T m && accepts_all (serve T m) l end.

Lemma serve_all_app T l k : serve_all T (l ++ k) = serve_all (serve_all T l) k.
Proof. revert T. induction l as [|m l IH]; intros T; simpl; auto. Qed.

Lemma accepts_all_app T l k :
  accepts_all T (l ++ k) = accepts_all T l && accepts_all (serve_all T l) k.
Proof. revert T. induction l as [|m l IH]; intros T; simpl; [done|]. by rewrite IH, andb_assoc. Qed.

(** *** A server that may refuse

    What the protocol documents beyond that: any message may fail, for reasons of
    its own; after a failed message of the extended protocol the server discards
    everything up to the next Sync; and SQL text (PREPARE, DEALLOCATE, DISCARD)
    may change the table too. *)

Record server := mkServer { tab : table; skipping : bool }.
Definition fresh_server : server := mkServer ∅ false.

(** What becomes of a message the server looks at: whether it fails, and what its
    SQL text, if it runs any, has done to the table by then. *)
Record fate := mkFate { fails : bool; effect : table → table }.

(** It succeeds and leaves the table alone. *)
Definition succeeds : fate := mkFate false id.

Definition extended (m : fmsg) : bool :=
  match m with
  | Parse _ _ _ | Bind _ _ | Describe _ _ | CloseMsg _ _ | Execute _ | FlushMsg => true
  | _ => false
  end.

Definition runs_sql (m : fmsg) : bool := match m with Query _ | Execute _ => true | _ => false end.

Inductive outcome := Done | Refused | Ignored.

Definition outcome_of (S : server) (m : fmsg) (x : fate) : outcome :=
  match m with
  | Sync | Terminate => Done
  | _ => if skipping S then Ignored
         else if fails x || negb (accepts (tab S) m) then Refused else Done
  end.

Definition react (S : server) (m : fmsg) (x : fate) : server :=
  match outcome_of S m x with
  | Ignored => S
  | Refused => mkServer (if runs_sql m then effect x (tab S) else tab S) (extended m)
  | Done => mkServer (if runs_sql m then effect x (tab S) else serve (tab S) m) false
  end.

(** A server's history: each message with its fate. *)
Fixpoint reacts (S : server) (h : list (fmsg * fate)) : server :=
  match h with [] => S | (m, x) :: h => reacts (react S m x) h end.

(** Nothing that matters is lost: no Parse of a named statement and no Close of
    one is refused or ignored, and no SQL text prepares or deallocates. *)
Definition keeps (S : server) (m : fmsg) (x : fate) : Prop :=
  match m with
  | Parse n _ _ => n = "" ∨ outcome_of S m x = Done
  | CloseMsg ty n => ty ≠ "S"%char ∨ n = "" ∨ outcome_of S m x = Done
  | Query _ | Execute _ => effect x (tab S) = tab S
  | _ => True
  end.

Fixpoint lossless (S : server) (h : list (fmsg * fate)) : Prop :=
  match h with [] => True | (m, x) :: h => keeps S m x ∧ lossless (react S m x) h end.

Lemma reacts_app S h k : reacts S (h ++ k) = reacts (reacts S h) k.
Proof. revert S. induction h as [|[m x] h IH]; intros S; simpl; auto. Qed.

Lemma keeps_table S m x : keeps S m x → tab (react S m x) = serve (tab S) m.
Proof.
  assert (Done_table : outcome_of S m x = Done → runs_sql m = false → tab (react S m x) = serve (tab S) m).
  { intros Ho Hs. unfold react. by rewrite Ho, Hs. }
  assert (Quiet : (∀ T, serve T m = T) → runs_sql m = false → tab (react S m x) = serve (tab S) m).
  { intros HT Hs. unfold react. rewrite HT, Hs. by destruct (outcome_of S m x). }
  destruct m as [q|n q os|n pl|ty n|ty n|pl| | | | | | |]; simpl; intros Hk; try (by apply Quiet).
  - unfold react. by destruct (outcome_of _ _ _).
  - destruct Hk as [->|Hd]; [by apply Quiet|by apply Done_table].
  - destruct Hk as [Ht|[->|Hd]]; [| |by apply Done_table]; (apply Quiet; [|done]); intros T; simpl.
    + by destruct (Ascii.eqb_spec ty "S").
    + by rewrite andb_false_r.
  - unfold react. by destruct (outcome_of _ _ _).
Qed.

(** A server that loses nothing has the table the messages make. *)
Lemma lossless_table S h : lossless S h → tab (reacts S h) = serve_all (tab S) h.*1.
Proof.
  revert S. induction h as [|[m x] h IH]; intros S; simpl; [done|]. intros [Hk Hl].
  rewrite IH by done. by rewrite (keeps_table S m x Hk).
Qed.

(** Messages of the replay that do not fail are carried out. *)
Definition replays (m : fmsg) : bool := match m with Parse _ _ _ | CloseMsg _ _ => true | _ => false end.

Fixpoint carried_out (S : server) (h : list (fmsg * fate)) : Prop :=
  match h with [] => True | (m, x) :: h => outcome_of S m x = Done ∧ carried_out (react S m x) h end.

Lemma replays_done S h :
  skipping S = false → Forall (λ m, replays m = true) h.*1 → accepts_all (tab S) h.*1 = true → Forall (λ x, fails x = false) h.*2 →
  carried_out S h ∧ skipping (reacts S h) = false ∧ tab (reacts S h) = serve_all (tab S) h.*1.
Proof.
  revert S. induction h as [|[m x] h IH]; intros S Hs; [done|].
  cbn [fmap list_fmap fst snd accepts_all]. intros [Hm Hr]%Forall_cons [Ha Hal]%andb_true_iff [Hx Hf]%Forall_cons.
  assert (Ho : outcome_of S m x = Done) by (unfold outcome_of; rewrite Hs, Ha, Hx; by destruct m).
  assert (E : react S m x = mkServer (serve (tab S) m) false) by (unfold react; rewrite Ho; by destruct m).
  cbn [carried_out reacts]. rewrite E. destruct (IH (mkServer (serve (tab S) m) false)) as (? & ? & ?); done.
Qed.

(** ** What the cache claims is what the server has *)

(** [T] is the server's table once everything sent so far is processed. *)
Record Coh (s : session) (b : backendConn) (T : table) : Prop := mkCoh {
  coh_named : stmts b !! "" = None;
  coh_known : ∀ n, is_Some (stmts b !! n) → is_Some (cached s !! n);
  coh_table : ∀ n, T !! n = match stmts b !! n with Some _ => cached s !! n | None => None end;
}.

Definition closes (vs : list string) : list fmsg := CloseMsg "S" <$> vs.

Lemma length_closes vs : length (closes vs) = length vs.
Proof. apply length_fmap. Qed.

Lemma accepts_closes T vs : accepts_all T (closes vs) = true.
Proof. revert T. induction vs as [|v vs IH]; intros T; simpl; auto. Qed.

Lemma serve_closes T vs n :
  "" ∉ vs → serve_all T (closes vs) !! n = if decide (n ∈ vs) then None else T !! n.
Proof.
  revert T. induction vs as [|v vs IH]; intros T Hne; simpl; [done|].
  rewrite IH by set_solver. destruct (String.eqb_spec v ""); [set_solver|]. simpl.
  rewrite lookup_delete. repeat case_decide; set_solver.
Qed.

(** ** The least recently used entry *)

Lemma lru_fold_spec l acc :
  acc.1 ≠ "" → (∀ kv, kv ∈ l → kv.1 ≠ "") →
  let r := foldl lru_pick acc l in
  (r = acc ∨ r ∈ l) ∧ (r.2 ≤ acc.2)%Z ∧ ∀ kv, kv ∈ l → (r.2 ≤ kv.2)%Z.
Proof.
  revert acc. induction l as [|kv l IH]; intros acc Ha Hl; simpl; [set_solver by lia|].
  unfold lru_pick at 2 4 6 8. destruct (String.eqb_spec acc.1 ""); [done|]. simpl.
  destruct (Z.ltb_spec kv.2 acc.2).
  - destruct (IH kv) as (H1 & H2 & H3); [apply Hl; set_solver|set_solver|].
    split; [set_solver|]. split; [lia|]. intros kv' [->|]%elem_of_cons; [done|auto].
  - destruct (IH acc) as (H1 & H2 & H3); [done|set_solver|].
    split; [set_solver|]. split; [lia|]. intros kv' [->|]%elem_of_cons; [lia|auto].
Qed.

Lemma lru_scan_spec l :
  (∀ kv, kv ∈ l → kv.1 ≠ "") → l ≠ [] →
  ∃ v u, lru_scan l = Some v ∧ (v, u) ∈ l ∧ ∀ kv, kv ∈ l → (u ≤ kv.2)%Z.
Proof.
  intros Hl Hne. destruct l as [|kv l]; [done|]. unfold lru_scan. simpl.
  assert (Hp : lru_pick ("", 0%Z) kv = kv) by done. rewrite Hp.
  destruct (lru_fold_spec l kv) as (H1 & H2 & H3); [apply Hl; set_solver|set_solver|].
  destruct (foldl lru_pick kv l) as [v u] eqn:E. simpl in *.
  assert (Hv : v ≠ "").
  { destruct H1 as [<-|Hin]; [by apply (Hl (v, u)); left|]. by apply (Hl (v, u)); right. }
  destruct (String.eqb_spec v ""); [done|]. exists v, u. split; [done|]. split.
  - destruct H1 as [<-|]; set_solver.
  - intros kv' [->|Hin]%elem_of_cons; [done|auto].
Qed.

Lemma lruStmt_spec (c : backendPSCache) :
  c !! "" = None → c ≠ ∅ →
  ∃ v u, lruStmt c = Some v ∧ c !! v = Some u ∧ ∀ n w, c !! n = Some w → (u ≤ w)%Z.
Proof.
  intros H0 Hne. destruct (lru_scan_spec (map_to_list c)) as (v & u & H1 & H2 & H3).
  - intros [n w] Hin%elem_of_map_to_list Hn. simpl in Hn. subst. congruence.
  - by rewrite map_to_list_empty_iff.
  - exists v, u. rewrite elem_of_map_to_list in H2. split; [done|]. split; [done|].
    intros n w Hn. apply (H3 (n, w)). by apply elem_of_map_to_list.
Qed.

(** whatever order Go iterates the map in, lruStmt returns an entry whose
    last use is the oldest; it fails only on an empty cache. *)
Theorem lru_any_order (c : backendPSCache) l :
  c !! "" = None → c ≠ ∅ → l ≡ₚ map_to_list c →
  ∃ v u, lru_scan l = Some v ∧ c !! v = Some u ∧ ∀ n w, c !! n = Some w → (u ≤ w)%Z.
Proof.
  intros H0 Hne Hp. destruct (lru_scan_spec l) as (v & u & H1 & H2 & H3).
  - intros [n w] Hin Hn. rewrite Hp, elem_of_map_to_list in Hin. simpl in Hn. subst. congruence.
  - intros ->. by apply Permutation_nil_l, eq_sym, map_to_list_empty_iff in Hp.
  - exists v, u. rewrite Hp, elem_of_map_to_list in H2. split; [done|]. split; [done|].
    intros n w Hn. apply (H3 (n, w)). by rewrite Hp, elem_of_map_to_list.
Qed.

Lemma lru_any_order_witness :
  ∃ v u, lru_scan [("b", 2%Z); ("a", 1%Z)] = Some v
    ∧ ({[ "a" := 1%Z; "b" := 2%Z ]} : backendPSCache) !! v = Some u
    ∧ ∀ n w, ({[ "a" := 1%Z; "b" := 2%Z ]} : backendPSCache) !! n = Some w → (u ≤ w)%Z.
Proof.
  apply (lru_any_order {[ "a" := 1%Z; "b" := 2%Z ]}); [done|done|].
  apply (bool_decide_unpack _). vm_compute. done.
Defined.

(** ** Eviction *)

(** What a run of the eviction loop did: [vs] are the victims. *)
Record evicted (b : backendConn) (s : session) (sw : psSwallow) (vs : list string)
    (b' : backendConn) (s' : session) (sw' : psSwallow) : Prop := mkEvicted {
  ev_named : "" ∉ vs;
  ev_victims : ∀ v, v ∈ vs → is_Some (stmts b !! v);
  ev_buf : feBuf b' = feBuf b ++ closes vs;
  ev_stmts : ∀ n, stmts b' !! n = if decide (n ∈ vs) then None else stmts b !! n;
  ev_cache : psCache s' = psCache s;
  ev_limit : psLimit s' = psLimit s;
  ev_swallow : sw' = mkSwallow (parseComplete sw) (closeComplete sw + length vs);
}.

Lemma evicted_none b s sw : evicted b s sw [] b s sw.
Proof.
  constructor; try done; [set_solver | set_solver | by rewrite (app_nil_r (feBuf _)) |].
  destruct sw as [a k]. simpl. by rewrite Nat.add_0_r.
Qed.

Lemma evict_spec fuel limit b s sw b' s' sw' :
  stmts b !! "" = None → size (stmts b) ≤ fuel →
  evict fuel limit b s sw = (b', s', sw') →
  (1 ≤ limit → size (stmts b') < limit) ∧ ∃ vs, evicted b s sw vs b' s' sw'.
Proof.
  revert b s sw. induction fuel as [|fuel IH]; intros b s sw H0 Hf; simpl.
  { intros; simplify_eq. split; [lia|]. exists []. apply evicted_none. }
  destruct (Nat.leb_spec limit (size (stmts b))) as [Hl|Hl];
    [|intros; simplify_eq; split; [done|]; exists []; apply evicted_none].
  destruct (decide (stmts b = ∅)) as [He|He].
  { assert (lruStmt (stmts b) = None) as -> by (rewrite He; done).
    intros; simplify_eq. rewrite He, map_size_empty. split; [lia|]. exists []. apply evicted_none. }
  destruct (lruStmt_spec (stmts b) H0 He) as (v & u & -> & Hv & _).
  set (b1 := send _ _). set (s1 := with_psEvicted true s). intros E.
  assert (H1 : stmts b1 = delete v (stmts b)) by done.
  apply IH in E as [Hs (vs & [Hn Hvs Hb Hst Hc Hli Hsw])].
  2: by rewrite H1; apply lookup_delete_None; right.
  2: rewrite H1, map_size_delete, Hv; lia.
  split; [done|]. exists (v :: vs). constructor; try done.
  - apply not_elem_of_cons. split; [|done]. intros <-. congruence.
  - intros w [->|Hw]%elem_of_cons; [by eexists|].
    apply Hvs in Hw. rewrite H1, lookup_delete in Hw. case_decide; [by destruct Hw|done].
  - rewrite Hb. simpl. by rewrite <- app_assoc.
  - intros n. rewrite Hst, H1, lookup_delete. repeat case_decide; set_solver.
  - rewrite Hsw. simpl. f_equal. lia.
Qed.

Lemma stmts_with b m : stmts (with_preparedStmts (Some m) b) = m.
Proof. done. Qed.

(** [markBackendHasStmt] evicts, then records the name. *)
Lemma mark_spec b s name b' s' sw :
  stmts b !! "" = None → name ≠ "" → markBackendHasStmt b s name = (b', s', sw) →
  ((0 < psLimit s)%Z → stmts b !! name = None → size (stmts b') ≤ Z.to_nat (psLimit s)) ∧
  ∃ vs, name ∉ vs ∧ "" ∉ vs ∧ feBuf b' = feBuf b ++ closes vs ∧ psCache s' = psCache s ∧
    sw = mkSwallow 0 (length vs) ∧
    ∀ n, is_Some (stmts b' !! n) ↔ n = name ∨ (n ∉ vs ∧ is_Some (stmts b !! n)).
Proof.
  intros H0 Hn. unfold markBackendHasStmt.
  destruct ((0 <? psLimit s)%Z && bool_decide (stmts b !! name = None)) eqn:E.
  - to_prop. destruct (evict _ _ b s no_swallow) as [[b1 s1] sw1] eqn:Ev.
    destruct (evict_spec _ _ _ _ _ _ _ _ H0 ltac:(done) Ev) as [Hsz (vs & [Hvn Hvs Hb Hst Hc Hli Hsw])].
    unfold touch. intros; simplify_eq. rewrite stmts_with. cbn [feBuf with_preparedStmts with_psClock psCache].
    assert (Hnv : name ∉ vs) by (intros Hin; apply Hvs in Hin; by destruct Hin; congruence).
    split.
    { intros _ _. rewrite map_size_insert. destruct (stmts b1 !! name); simpl; lia. }
    exists vs. split_and!; try done.
    intros n. rewrite lookup_insert. case_decide; subst.
    { split; [by left|]. by eexists. }
    rewrite Hst. case_decide.
    + split; [by intros []|]. intros [?|[? ?]]; by subst.
    + split; [by right|]. intros [?|[? ?]]; by subst.
  - unfold touch. intros; simplify_eq. rewrite stmts_with. cbn [feBuf with_preparedStmts with_psClock psCache].
    split.
    { intros Hl Hs. apply andb_false_iff in E as [E|E]; to_prop; [lia|done]. }
    exists []. split_and!; try set_solver.
    + by rewrite (app_nil_r (feBuf _)).
    + intros n. rewrite lookup_insert. case_decide; subst.
      * split; [by left|]. by eexists.
      * split; [intros; right; set_solver|]. by intros [?|[? ?]]; subst.
Qed.

(** ** Coherence is preserved *)

Definition count (f : fmsg → bool) (l : list fmsg) : nat := length (filter f l).
Definition is_parse (m : fmsg) : bool := match m with Parse _ _ _ => true | _ => false end.
Definition is_close (m : fmsg) : bool := match m with CloseMsg _ _ => true | _ => false end.

Lemma count_app f l k : count f (l ++ k) = count f l + count f k.
Proof. unfold count. by rewrite filter_app, length_app. Qed.

Lemma count_closes vs : count is_parse (closes vs) = 0 ∧ count is_close (closes vs) = length vs.
Proof. unfold count. induction vs as [|v vs [IH1 IH2]]; simpl; [done|]. by rewrite IH2. Qed.

Lemma Coh_cached s s' b T : cached s' = cached s → Coh s b T → Coh s' b T.
Proof. intros E [H1 H2 H3]. constructor; [done| |]; intros n; rewrite E; auto. Qed.

Lemma mark_coh s s0 b T name info b' s' sw :
  Coh s b T → name ≠ "" → stmts b !! name = None →
  (∀ n, cached s0 !! n = if decide (n = name) then Some info else cached s !! n) →
  markBackendHasStmt b s0 name = (b', s', sw) →
  ∃ vs, feBuf b' = feBuf b ++ closes vs ∧ sw = mkSwallow 0 (length vs) ∧
    let l := closes vs ++ [Parse name (SQL info) (ParameterOIDs info)] in
    accepts_all T l = true ∧ Coh s' b' (serve_all T l) ∧ serve_all T l !! name = Some info.
Proof.
  intros [C1 C2 C3] Hn Hb Hc E.
  destruct (mark_spec _ _ _ _ _ _ C1 Hn E) as [_ (vs & Hnv & H0v & Hbuf & Hpc & Hsw & Hst)].
  exists vs. split; [done|]. split; [done|]. simpl.
  assert (HT : serve_all T (closes vs) !! name = None)
    by (rewrite serve_closes, decide_False, C3, Hb by done; done).
  rewrite accepts_all_app, serve_all_app, accepts_closes. simpl.
  destruct (String.eqb_spec name "") as [|_]; [done|]. rewrite HT. simpl.
  split; [done|]. destruct info as [q o]; simpl.
  rewrite lookup_insert_eq. split; [|done].
  assert (Hcs : cached s' = cached s0) by (unfold cached; by rewrite Hpc).
  constructor.
  - destruct (stmts b' !! "") eqn:E0; [|done].
    destruct (proj1 (Hst "")) as [?|[_ Hs]]; [by eexists|congruence|].
    rewrite C1 in Hs. by destruct Hs.
  - intros n Hs. rewrite Hcs, Hc. case_decide; [by eexists|].
    apply C2. apply Hst in Hs as [?|[_ ?]]; [done|done].
  - intros n. rewrite lookup_insert, serve_closes, Hcs, Hc by done.
    specialize (Hst n). case_decide as Hd; [subst|].
    + rewrite decide_True by done.
      destruct (stmts b' !! n) eqn:En; [done|]. destruct (proj2 Hst) as [? ?]; [by left|done].
    + rewrite (decide_False (P := n = name)) by congruence. rewrite C3.
      destruct (stmts b' !! n) eqn:En; destruct (decide (n ∈ vs)) as [Hv|Hv].
      * destruct (proj1 Hst) as [?|[? _]]; [by eexists|congruence|done].
      * destruct (proj1 Hst) as [?|[_ [w ->]]]; [by eexists|congruence|done].
      * done.
      * destruct (stmts b !! n) eqn:Eb; [|done].
        destruct (proj2 Hst) as [? ?]; [right; split; [done|by eexists]|done].
Qed.

Definition ddl_free (m : fmsg) : bool :=
  match m with Parse _ q _ | Query q => negb (isDDL q) | _ => true end.

(** The client does not re-prepare a name it has open. *)
Definition fresh_parse (s : session) (m : fmsg) : Prop :=
  match m with Parse n _ _ => n = "" ∨ cached s !! n = None | _ => True end.

(** The named statement a message refers to. *)
Definition refers (m : fmsg) : option string :=
  match m with
  | Bind n _ => Some n
  | Describe ty n => if Ascii.eqb ty "S" then Some n else None
  | _ => None
  end.

Lemma side_effects_ddl_free b s sql b' s' :
  isDDL sql = false → checkSQLSideEffects b s sql = (b', s') → b' = b ∧ psCache s' = psCache s.
Proof.
  unfold checkSQLSideEffects, checkListenWarn. intros ->.
  intros H. repeat case_match; simplify_eq/=; done.
Qed.

(** What processing [msg] did, for a backend whose server table is [T]. *)
Definition replayed (b : backendConn) (s : session) (T : table) (msg : fmsg)
    (b' : backendConn) (s' : session) (sw : psSwallow) : Prop :=
  ∃ inj, feBuf b' = feBuf b ++ inj ∧ accepts_all T inj = true ∧
    Coh s' b' (serve_all T (inj ++ [msg])) ∧
    count is_parse inj = parseComplete sw ∧ count is_close inj = closeComplete sw ∧
    length inj = parseComplete sw + closeComplete sw ∧
    ∀ n info, refers msg = Some n → n ≠ "" → cached s !! n = Some info →
      serve_all T inj !! n = Some info.

Lemma replayed_nothing b s T msg s' :
  Coh s b T → serve T msg = T → cached s' = cached s →
  (∀ n info, refers msg = Some n → n ≠ "" → cached s !! n = Some info → T !! n = Some info) →
  replayed b s T msg b s' no_swallow.
Proof.
  intros C E Hs HR. exists []. simpl. rewrite E. rewrite app_nil_r.
  split_and!; try done. by eapply Coh_cached.
Qed.

Lemma replayed_text b s T msg sql b' s' :
  Coh s b T → isDDL sql = false → checkSQLSideEffects b s sql = (b', s') →
  serve T msg = T → refers msg = None → replayed b s T msg b' s' no_swallow.
Proof.
  intros C Hd E Hid Hr. destruct (side_effects_ddl_free _ _ _ _ _ Hd E) as [-> Hpc].
  apply replayed_nothing; try done; [unfold cached; by rewrite Hpc|]. by rewrite Hr.
Qed.

Lemma replayed_ensure b s T msg n b' s' sw :
  Coh s b T → refers msg = Some n → (∀ T', serve T' msg = T') →
  ensureBackendHasStmt b s n = (b', s', sw) → replayed b s T msg b' s' sw.
Proof.
  intros C Hr Hid. unfold ensureBackendHasStmt.
  destruct (String.eqb_spec n "") as [->|Hn].
  { intros; simplify_eq. apply replayed_nothing; try done. intros ? ? ?; congruence. }
  destruct (psCache s) as [c|] eqn:Ec.
  2: { intros; simplify_eq. apply replayed_nothing; try done.
       intros m info _ _. unfold cached. by rewrite Ec. }
  destruct (c !! n) as [info|] eqn:Ei.
  2: { intros; simplify_eq. apply replayed_nothing; try done.
       intros m info Hm _. unfold cached. rewrite Ec. simpl. congruence. }
  assert (Hci : cached s !! n = Some info) by (unfold cached; by rewrite Ec).
  destruct (bool_decide (is_Some (stmts b !! n))) eqn:Eb; to_prop.
  - unfold touch. intros; simplify_eq. destruct C as [C1 C2 C3]. exists [].
    simpl. rewrite Hid, app_nil_r. split_and!; try done.
    + constructor.
      * rewrite stmts_with, lookup_insert_ne; done.
      * intros m. rewrite stmts_with, lookup_insert. case_decide; [subst; by eexists|]. apply C2.
      * intros m. rewrite stmts_with, lookup_insert, C3.
        case_decide; [subst; by destruct Eb as [? ->]|done].
    + intros m info' Hm _ Hc. rewrite C3. assert (m = n) as -> by congruence.
      by destruct Eb as [? ->].
  - destruct (markBackendHasStmt b s n) as [[b1 s1] sw1] eqn:Em. intros; simplify_eq.
    apply eq_None_not_Some in Eb.
    destruct (mark_coh s s b T n info b1 s' sw1) as (vs & Hbuf & -> & Ha & Hco & Hl); try done.
    { intros m. case_decide; [by subst|done]. }
    destruct (count_closes vs) as [P1 P2]. set (i := Parse n (SQL info) (ParameterOIDs info)) in *.
    exists (closes vs ++ [i]).
    rewrite !count_app, P1, P2, !length_app, length_closes. simpl in *.
    rewrite serve_all_app. cbn [serve_all]. rewrite Hid.
    split_and!; try done; try lia.
    { by rewrite Hbuf, app_assoc. }
    { by destruct Hco. }
    intros m info' Hm _ Hc. assert (m = n) as -> by congruence. by simplify_eq.
Qed.

Lemma replayed_parse b s T name sql oids b' s' sw :
  Coh s b T → name ≠ "" → cached s !! name = None → isDDL sql = false →
  processClientMsg b s (Parse name sql oids) = Ok (b', s', sw) →
  replayed b s T (Parse name sql oids) b' s' sw.
Proof.
  intros C Hn Hf Hd. simpl. destruct (String.eqb_spec name "") as [|_]; [done|].
  unfold trackClientParse. destruct (_ && _); [done|].
  set (s0 := with_psCache _ s). destruct (markBackendHasStmt b s0 name) as [[b1 s1] sw1] eqn:Em.
  destruct (checkSQLSideEffects b1 s1 sql) as [b2 s2] eqn:Es. intros; simplify_eq.
  destruct (side_effects_ddl_free _ _ _ _ _ Hd Es) as [-> Hpc].
  assert (Hb : stmts b !! name = None).
  { destruct (stmts b !! name) eqn:E; [|done]. destruct (coh_known _ _ _ C name); [by eexists|congruence]. }
  destruct (mark_coh s s0 b T name (mkInfo sql oids) b1 s1 sw) as (vs & Hbuf & -> & Ha & Hco & _); try done.
  { intros n. unfold cached at 1. simpl. rewrite lookup_insert.
    repeat case_decide; congruence. }
  destruct (count_closes vs) as [P1 P2]. exists (closes vs).
  rewrite P1, P2, length_closes, accepts_closes. split_and!; try done.
  eapply Coh_cached; [|exact Hco]. unfold cached. by rewrite Hpc.
Qed.

Lemma replayed_close b s T ty name b' s' sw :
  Coh s b T → processClientMsg b s (CloseMsg ty name) = Ok (b', s', sw) →
  replayed b s T (CloseMsg ty name) b' s' sw.
Proof.
  intros C. simpl. destruct (Ascii.eqb ty "S" && negb (name =? "")%string) eqn:E.
  2: { intros; simplify_eq. apply replayed_nothing; try done. simpl. by rewrite E. }
  intros; simplify_eq. exists []. rewrite app_nil_r. simpl. rewrite E. split_and!; try done.
  assert (Hs : ∀ n, stmts (with_preparedStmts (delete name <$> preparedStmts b) b) !! n
    = if decide (n = name) then None else stmts b !! n).
  { intros n. unfold stmts. simpl. destruct (preparedStmts b); simpl;
      [rewrite lookup_delete; repeat case_decide; congruence | by case_decide]. }
  assert (Hc : ∀ n, cached (with_psCache (delete name <$> psCache s) s) !! n
    = if decide (n = name) then None else cached s !! n).
  { intros n. unfold cached. simpl. destruct (psCache s); simpl;
      [rewrite lookup_delete; repeat case_decide; congruence | by case_decide]. }
  destruct C as [C1 C2 C3]. constructor.
  - rewrite Hs. by case_decide.
  - intros n. rewrite Hs, Hc. case_decide; [by intros []|apply C2].
  - intros n. rewrite lookup_delete, Hs, Hc, C3. repeat case_decide; congruence.
Qed.

(** Processing a message keeps the record of a backend true. *)
Lemma process_replays b s T msg b' s' sw :
  Coh s b T → ddl_free msg = true → fresh_parse s msg →
  processClientMsg b s msg = Ok (b', s', sw) →
  replayed b s T msg b' s' sw.
Proof.
  intros C Hd Hf.
  assert (Hno : processClientMsg b s msg = Ok (b, s, no_swallow) → (∀ T', serve T' msg = T') →
    refers msg = None → replayed b s T msg b s no_swallow).
  { intros _ Hid Hr. apply replayed_nothing; try done. by rewrite Hr. }
  destruct msg as [sql|name sql oids|stmt pl|ty name|ty name|pl| | | | | | |]; try (intros H; simplify_eq/=; auto; fail).
  - simpl in *. apply negb_true_iff in Hd. destruct (checkSQLSideEffects b s sql) as [b1 s1] eqn:E.
    intros; simplify_eq. by eapply replayed_text.
  - simpl in Hd. apply negb_true_iff in Hd. destruct (decide (name = "")) as [->|Hn].
    + simpl. destruct (checkSQLSideEffects b s sql) as [b1 s1] eqn:E. intros; simplify_eq.
      by eapply replayed_text.
    + destruct Hf as [?|Hf]; [done|]. by apply replayed_parse.
  - simpl. intros [= H]. by eapply replayed_ensure.
  - simpl. destruct (Ascii.eqb ty "S") eqn:E; intros [= H].
    + eapply replayed_ensure; try done. simpl. by rewrite E.
    + simplify_eq. apply Hno; [by simpl; rewrite E|done|by simpl; rewrite E].
  - by apply replayed_close.
Qed.

Lemma counted_replays inj : length inj = count is_parse inj + count is_close inj → Forall (λ m, replays m = true) inj.
Proof.
  assert (Hc : ∀ f m l, count f (m :: l) = (if f m then 1 else 0) + count f l).
  { intros f m l. change (m :: l) with ([m] ++ l). rewrite count_app. f_equal.
    unfold count. rewrite filter_cons. by destruct (f m). }
  assert (Hle : ∀ l, count is_parse l + count is_close l ≤ length l).
  { induction l as [|m l IH]; [done|]. rewrite !Hc. destruct m; simpl in *; lia. }
  induction inj as [|m inj IH]; [constructor|]. specialize (Hle inj). rewrite !Hc.
  destruct m; simpl; intros E; try lia; (constructor; [done|apply IH; lia]).
Qed.


Lemma evict_cached fuel limit b s sw b' s' sw' : evict fuel limit b s sw = (b', s', sw') → cached s' = cached s.
Proof.
  revert b s sw. induction fuel as [|fuel IH]; simpl; intros b s sw; [by intros; simplify_eq|].
  destruct (_ <=? _); [|by intros; simplify_eq]. destruct (lruStmt _); [|by intros; simplify_eq].
  intros E. by apply IH in E.
Qed.

Lemma mark_cached b s name b' s' sw : markBackendHasStmt b s name = (b', s', sw) → cached s' = cached s.
Proof.
  unfold markBackendHasStmt, touch. destruct (_ && _); [|by intros; simplify_eq].
  destruct (evict _ _ _ _ _) as [[b1 s1] sw1] eqn:E. intros; simplify_eq/=. by apply evict_cached in E.
Qed.

(** The statements a session has open are those a server of its own would have:
    each message changes the session's cache as it would change that table. *)
Lemma cache_is_private b s m b' s' sw :
  ddl_free m = true → fresh_parse s m → processClientMsg b s m = Ok (b', s', sw) → cached s' = serve (cached s) m.
Proof.
  assert (Hens : ∀ n, match ensureBackendHasStmt b s n with (_, s', _) => cached s' = cached s end).
  { intros n. unfold ensureBackendHasStmt, touch. repeat case_match; simplify_eq/=; try done.
    match goal with H : markBackendHasStmt _ _ _ = _ |- _ => by apply mark_cached in H end. }
  destruct m as [sql|name sql oids|stmt pl|ty name|ty name|pl| | | | | | |]; simpl; intros Hd Hf H; simplify_eq; try done.
  - apply negb_true_iff in Hd. destruct (checkSQLSideEffects b s sql) as [b1 s1] eqn:E. simplify_eq.
    destruct (side_effects_ddl_free _ _ _ _ _ Hd E) as [_ Hp]. unfold cached. by rewrite Hp.
  - apply negb_true_iff in Hd. destruct (String.eqb_spec name "") as [->|Hn].
    + destruct (checkSQLSideEffects b s sql) as [b1 s1] eqn:E. simplify_eq.
      destruct (side_effects_ddl_free _ _ _ _ _ Hd E) as [_ Hp]. unfold cached. by rewrite Hp.
    + destruct Hf as [?|Hf]; [done|]. rewrite Hf. unfold trackClientParse in H. destruct (_ && _); [done|].
      destruct (markBackendHasStmt _ _ name) as [[b1 s1] sw1] eqn:Em. apply mark_cached in Em.
      destruct (checkSQLSideEffects b1 s1 sql) as [b2 s2] eqn:E. simplify_eq.
      destruct (side_effects_ddl_free _ _ _ _ _ Hd E) as [_ Hp]. unfold cached in *. rewrite Hp, Em. done.
  - specialize (Hens stmt). by destruct (ensureBackendHasStmt b s stmt) as [[? ?] ?]; simplify_eq.
  - destruct (Ascii.eqb ty "S"); simplify_eq; [|done].
    specialize (Hens name). by destruct (ensureBackendHasStmt b s name) as [[? ?] ?]; simplify_eq.
  - destruct (Ascii.eqb ty "S" && negb (name =? "")%string); simplify_eq; [|done].
    unfold cached. simpl. destruct (psCache s); simpl; [done|]. by rewrite delete_empty.
Qed.

(** A backend at its cap of one statement; the session knows two. *)
Definition demo_backend : backendConn := mkBackend 0 (Some {[ "s1" := 1%Z ]}) 7 [].
Definition demo_session : session :=
  mkSession 7 "transaction"
    (Some {[ "s1" := mkInfo "SELECT 1" []; "s2" := mkInfo "SELECT 2" [] ]}) 1 1 false false [].

Lemma demo_coh : Coh demo_session demo_backend {[ "s1" := mkInfo "SELECT 1" [] ]}.
Proof.
  constructor; [done| |].
  - intros n [w Hw]. unfold stmts, demo_backend in Hw. simpl in Hw.
    apply lookup_singleton_Some in Hw as [<- _]. by eexists.
  - intros n. unfold stmts, cached, demo_backend, demo_session. simpl.
    destruct (decide (n = "s1")) as [->|]; [done|]. by rewrite !lookup_singleton_ne.
Qed.


(** *** A batch that fails

    The record is written when the Parse is sent.  A client that has [s2] open binds
    an unknown name first in a batch: the server refuses that Bind and discards the
    injected Parse of [s2] with the rest.  The record keeps [s2], so after the Sync,
    with the server in order and failing nothing, the next Bind of [s2] is sent
    without its Parse and refused. *)
Fixpoint drive (b : backendConn) (s : session) (ms : list fmsg) : option (backendConn * session) :=
  match ms with
  | [] => Some (b, s)
  | m :: ms => match processClientMsg b s m with Ok (b, s, _) => drive (send m b) s ms | Err _ => None end
  end.

Theorem failed_batch_loses_statement :
  ∃ b s b' s', drive b s [Bind "nope" ""; Bind "s2" ""; Sync] = Some (b', s') ∧
    Coh s b (tab fresh_server) ∧ feBuf b = [] ∧ cached s !! "s2" = Some (mkInfo "SELECT 2" []) ∧
    let S := reacts fresh_server ((λ m, (m, succeeds)) <$> feBuf b') in
    skipping S = false ∧ cached s' !! "s2" = Some (mkInfo "SELECT 2" []) ∧
    (∃ s'' b'', processClientMsg b' s' (Bind "s2" "") = Ok (b'', s'', no_swallow) ∧ feBuf b'' = feBuf b') ∧
    outcome_of S (Bind "s2" "") (succeeds) = Refused.
Proof.
  exists (mkBackend 0 None 7 []), demo_session. eexists _, _. split; [vm_compute; reflexivity|].
  split; [split; [done|by intros n []|done]|]. do 2 (split; [done|]). split; [by vm_compute|]. split; [by vm_compute|].
  split; [|by vm_compute]. eexists _, _. split; [vm_compute; reflexivity|done].
Qed.

(** ** Bounds *)

Lemma mark_bounds b s name b' s' sw :
  stmts b !! "" = None → name ≠ "" → (0 < psLimit s)%Z → size (stmts b) ≤ Z.to_nat (psLimit s) →
  markBackendHasStmt b s name = (b', s', sw) →
  size (stmts b') ≤ Z.to_nat (psLimit s) ∧ psCache s' = psCache s.
Proof.
  intros H0 Hn Hl Hs Em.
  destruct (mark_spec _ _ _ _ _ _ H0 Hn Em) as [Hb (_ & _ & _ & _ & Hc & _)]. split; [|done].
  destruct (stmts b !! name) as [w|] eqn:Eb; [|by apply Hb].
  unfold markBackendHasStmt in Em. rewrite Eb, andb_false_r in Em.
  unfold touch in Em. simplify_eq. rewrite stmts_with, map_size_insert, Eb. done.
Qed.

Lemma ensure_bounds b s n b' s' sw :
  stmts b !! "" = None → (0 < psLimit s)%Z → size (stmts b) ≤ Z.to_nat (psLimit s) →
  ensureBackendHasStmt b s n = (b', s', sw) →
  size (stmts b') ≤ Z.to_nat (psLimit s) ∧ psCache s' = psCache s.
Proof.
  intros H0 Hl Hs. unfold ensureBackendHasStmt.
  destruct (String.eqb_spec n ""); [by intros; simplify_eq|].
  destruct (psCache s) as [c|] eqn:Ec; [|by intros; simplify_eq].
  destruct (c !! n); [|by intros; simplify_eq].
  destruct (bool_decide (is_Some (stmts b !! n))) eqn:Eb; to_prop.
  - unfold touch. intros; simplify_eq. rewrite stmts_with, map_size_insert.
    destruct Eb as [w ->]. done.
  - apply eq_None_not_Some in Eb. destruct (markBackendHasStmt b s n) as [[b1 s1] sw1] eqn:Em.
    intros; simplify_eq. rewrite <- Ec. by apply mark_bounds in Em.
Qed.

Lemma side_effects_bounds b s sql b' s' :
  checkSQLSideEffects b s sql = (b', s') →
  size (stmts b') ≤ size (stmts b) ∧ size (cached s') ≤ size (cached s).
Proof.
  unfold checkSQLSideEffects, checkListenWarn, invalidatePSCachesOnDDL, clearBackendPSCache.
  intros H. repeat case_match; simplify_eq/=;
    unfold stmts, cached; simpl; rewrite ?map_size_empty; lia.
Qed.

(** with a positive max_prepared_statements, no message makes a backend
    hold more than that many tracked statements, nor a session more than four
    times as many; the only error is a new name from a session at that ceiling. *)
Theorem prepared_bounds b s msg :
  stmts b !! "" = None → (0 < psLimit s)%Z →
  size (stmts b) ≤ Z.to_nat (psLimit s) → size (cached s) ≤ Z.to_nat (4 * psLimit s) →
  match processClientMsg b s msg with
  | Ok (b', s', _) =>
      size (stmts b') ≤ Z.to_nat (psLimit s) ∧ size (cached s') ≤ Z.to_nat (4 * psLimit s)
  | Err n =>
      ∃ name sql oids, msg = Parse name sql oids ∧ cached s !! name = None
        ∧ n = size (cached s) ∧ n = Z.to_nat (4 * psLimit s)
  end.
Proof.
  intros H0 Hl Hs Hc.
  assert (Hens : ∀ n, match ensureBackendHasStmt b s n with (b', s', _) =>
    size (stmts b') ≤ Z.to_nat (psLimit s) ∧ size (cached s') ≤ Z.to_nat (4 * psLimit s) end).
  { intros n. destruct (ensureBackendHasStmt b s n) as [[b' s'] sw] eqn:E.
    destruct (ensure_bounds _ _ _ _ _ _ H0 Hl Hs E) as [? Hpc].
    split; [done|]. unfold cached. by rewrite Hpc. }
  destruct msg as [sql|name sql oids|stmt pl|ty name|ty name|pl| | | | | | |];
    cbn [processClientMsg]; try done.
  - destruct (checkSQLSideEffects b s sql) eqn:E. apply side_effects_bounds in E. lia.
  - destruct (String.eqb_spec name "") as [|Hn].
    { destruct (checkSQLSideEffects b s sql) eqn:E. apply side_effects_bounds in E. lia. }
    unfold trackClientParse, sessionPSCeiling.
    rewrite (proj2 (Z.leb_gt _ _)) by lia. unfold sessionPSCeilingFactor.
    rewrite (proj2 (Z.ltb_lt 0 _)) by lia. rewrite andb_true_r.
    destruct (bool_decide (cached s !! name = None) && _) eqn:Ef; to_prop.
    { exists name, sql, oids. split_and!; try done; lia. }
    set (s0 := with_psCache _ s). destruct (markBackendHasStmt b s0 name) as [[b1 s1] sw1] eqn:Em.
    destruct (checkSQLSideEffects b1 s1 sql) eqn:E. apply side_effects_bounds in E as [E1 E2].
    apply mark_bounds in Em as [Hb1 Hc1]; try done. simpl in Hb1.
    assert (Hs1 : size (cached s1) ≤ Z.to_nat (4 * psLimit s)); [|lia].
    unfold cached. rewrite Hc1. simpl. rewrite map_size_insert.
    destruct (cached s !! name) eqn:En; simpl; [done|].
    destruct Ef as [Ef|Ef]; to_prop; [done|lia].
  - destruct (ensureBackendHasStmt b s stmt) as [[b' s'] sw] eqn:E. specialize (Hens stmt).
    by rewrite E in Hens.
  - destruct (Ascii.eqb ty "S"); [|done].
    destruct (ensureBackendHasStmt b s name) as [[b' s'] sw] eqn:E. specialize (Hens name).
    by rewrite E in Hens.
  - destruct (_ && _); [|done]. unfold stmts, cached in *. simpl.
    destruct (preparedStmts b), (psCache s); simpl in *; rewrite ?map_size_delete, ?map_size_empty in *;
      repeat case_match; unfold id; lia.
Qed.

Lemma prepared_bounds_witness :
  match processClientMsg demo_backend demo_session (Bind "s2" "") with
  | Ok (b', s', _) => size (stmts b') ≤ 1 ∧ size (cached s') ≤ 4
  | Err _ => True
  end.
Proof.
  pose proof (prepared_bounds demo_backend demo_session (Bind "s2" "")
    ltac:(done) ltac:(done) ltac:(vm_compute; lia) ltac:(vm_compute; lia)) as H.
  destruct (processClientMsg _ _ _) as [[[b' s'] sw]|]; [exact H|exact Logic.I].
Defined.

(** after a DDL statement the session has forgotten all its statements, so
    a Bind is forwarded to any backend without a Parse, contrary to what the
    comment on invalidatePSCachesOnDDL says. *)
Theorem ddl_disables_replay b s sql b1 s1 sw b2 name payload :
  isDDL sql = true → processClientMsg b s (Query sql) = Ok (b1, s1, sw) →
  processClientMsg b2 s1 (Bind name payload) = Ok (b2, s1, no_swallow).
Proof.
  intros Hd. simpl. unfold checkSQLSideEffects. rewrite Hd.
  destruct (String.eqb_spec sql ""); [by subst|].
  unfold invalidatePSCachesOnDDL. intros; simplify_eq. unfold ensureBackendHasStmt. simpl.
  by destruct (name =? "")%string.
Qed.

Lemma ddl_disables_replay_witness :
  match processClientMsg demo_backend demo_session (Query "drop table t") with
  | Ok (b1, s1, _) => processClientMsg demo_backend s1 (Bind "s2" "") = Ok (demo_backend, s1, no_swallow)
  | Err _ => False
  end.
Proof.
  destruct (processClientMsg demo_backend demo_session (Query "drop table t")) as [[[b1 s1] sw]|] eqn:E.
  2: by vm_compute in E.
  apply (ddl_disables_replay demo_backend demo_session "drop table t" b1 s1 sw); [reflexivity|exact E].
Defined.

(** ** SQL text *)

Lemma skip_comments_fuel f g s :
  String.length s ≤ f → String.length s ≤ g → skip_comments f s = skip_comments g s.
Proof.
  revert g s. induction f as [|f IH]; intros [|g] s Hf Hg; try (by destruct s; simpl in *; try lia).
  simpl. destruct (HasPrefix s "--"); [|done]. destruct (after_byte LF s) as [r|] eqn:E; [|done].
  apply after_byte_length in E. pose proof (TrimLeft_length blanks r). apply IH; lia.
Qed.

Lemma HasPrefix_nil s : HasPrefix s "" = true.
Proof. by destruct s. Qed.

(** leading blanks and [--] comment lines do not hide a DDL keyword. *)
Theorem isDDL_skips_comments c s :
  after_byte LF c = None → isDDL ("--" +:+ c +:+ String LF s) = isDDL s.
Proof.
  intros Hc. unfold isDDL.
  assert (E : ∀ f, skip_comments (S f) (TrimLeft blanks ("--" +:+ c +:+ String LF s))
    = skip_comments f (TrimLeft blanks s)).
  { intros f. simpl. change ("" +:+ c +:+ String LF s) with (c +:+ String LF s).
    rewrite HasPrefix_nil. by rewrite after_byte_app. }
  change (String.length ("--" +:+ c +:+ String LF s))
    with (S (S (String.length (c +:+ String LF s)))).
  rewrite E. rewrite (skip_comments_fuel _ (String.length s)); [done| |apply TrimLeft_length].
  pose proof (TrimLeft_length blanks s). rewrite length_str_app. simpl. lia.
Qed.

Lemma isDDL_skips_comments_witness :
  isDDL ("--" +:+ " migration 7" +:+ String LF "  Create table t()") = true.
Proof.
  rewrite (isDDL_skips_comments " migration 7" "  Create table t()"); [|reflexivity].
  vm_compute. reflexivity.
Defined.

End PreparedTheorems.
