(* ===== verification/TrackedParams.v ===== *)
(** * Replaying startup parameters on a backend

    src/tracked_params.go: which of a client's startup parameters are replayed,
    the SET batch sent for them, and that PostgreSQL's lexer reads back exactly
    the names and values that went in, so no parameter value can smuggle SQL.

    [strings.ToLower] is the ASCII one: whitelist entries are GUC names. *)

From Stdlib Require Import Ascii.
From S2P Require Import Prelude GoStrings.
Open Scope string_scope.
Open Scope list_scope.
Open Scope nat_scope.

Module TrackedParams.

Record trackedParam := mkParam { Name : string; Value : string }.

(** ** Selecting the parameters *)

Definition skip_name (name : string) : bool := (name =? "")%string || (name =? "-")%string.

Definition lookup_param (startup : gmap string string) (name : string) : option trackedParam :=
  match startup !! name with
  | Some v => if (v =? "")%string then
                match startup !! ToLower name with
                | Some v => if (v =? "")%string then None else Some (mkParam name v)
                | None => None
                end
              else Some (mkParam name v)
  | None =>
      match startup !! ToLower name with
      | Some v => if (v =? "")%string then None else Some (mkParam name v)
      | None => None
      end
  end.

Definition extractTrackedParams (startup : gmap string string) (whitelist : list string) :
  list trackedParam :=
  omap (λ name, if skip_name name then None else lookup_param startup name) whitelist.

(** ** The SET batch *)

Definition DQ : ascii := "034".
Definition SQ : ascii := "'".

Definition quote (q : ascii) (s : string) : string :=
  String q (double_byte q s +:+ String q "").

Definition quoteIdent (s : string) : string := quote DQ s.
Definition quoteLiteral (s : string) : string := quote SQ s.

Definition setOne (p : trackedParam) : string :=
  "SET " +:+ quoteIdent (Name p) +:+ " = " +:+ quoteLiteral (Value p).

(** The text [applyTrackedParams] builds. *)
Fixpoint setBatch (ps : list trackedParam) : string :=
  match ps with
  | [] => ""
  | [p] => setOne p
  | p :: ps => setOne p +:+ String ";" (setBatch ps)
  end.

(** ** PostgreSQL's lexical rules

    A quoted identifier or a literal ends at the first quote that is not
    doubled (standard_conforming_strings on). *)

Fixpoint lex_body (q : ascii) (s : string) : option (string * string) :=
  match s with
  | EmptyString => None
  | String c s' =>
      if Ascii.eqb c q then
        match s' with
        | String c2 s2 =>
            if Ascii.eqb c2 q
            then match lex_body q s2 with Some (v, r) => Some (String q v, r) | None => None end
            else Some ("", s')
        | EmptyString => Some ("", "")
        end
      else match lex_body q s' with Some (v, r) => Some (String c v, r) | None => None end
  end.

Definition lex_quoted (q : ascii) (s : string) : option (string * string) :=
  match s with
  | String c s => if Ascii.eqb c q then lex_body q s else None
  | EmptyString => None
  end.

(** Drop an expected keyword. *)
Fixpoint expect (w s : string) : option string :=
  match w, s with
  | EmptyString, _ => Some s
  | String a w, String c s => if Ascii.eqb a c then expect w s else None
  | _, EmptyString => None
  end.

(** A sequence of SET statements separated by semicolons. *)
Fixpoint parseBatch (fuel : nat) (s : string) : option (list trackedParam) :=
  match fuel with
  | O => None
  | S fuel =>
      match expect "SET " s with
      | None => None
      | Some s1 =>
          match lex_quoted DQ s1 with
          | None => None
          | Some (n, s2) =>
              match expect " = " s2 with
              | None => None
              | Some s3 =>
                  match lex_quoted SQ s3 with
                  | None => None
                  | Some (v, s4) =>
                      match s4 with
                      | EmptyString => Some [mkParam n v]
                      | String c s5 =>
                          if Ascii.eqb c ";"
                          then match parseBatch fuel s5 with
                               | Some ps => Some (mkParam n v :: ps)
                               | None => None
                               end
                          else None
                      end
                  end
              end
          end
      end
  end.

(** With standard_conforming_strings off a backslash escapes the next byte. *)
Fixpoint lex_backslash (s : string) : option (string * string) :=
  match s with
  | EmptyString => None
  | String c s' =>
      if Ascii.eqb c "\" then
        match s' with
        | String c2 s2 =>
            match lex_backslash s2 with Some (v, r) => Some (String c2 v, r) | None => None end
        | EmptyString => None
        end
      else if Ascii.eqb c SQ then
        match s' with
        | String c2 s2 =>
            if Ascii.eqb c2 SQ
            then match lex_backslash s2 with Some (v, r) => Some (String SQ v, r) | None => None end
            else Some ("", s')
        | EmptyString => Some ("", "")
        end
      else match lex_backslash s' with Some (v, r) => Some (String c v, r) | None => None end
  end.

(** ** Lemmas *)

Definition starts_with (q : ascii) (s : string) : bool :=
  match s with String c _ => Ascii.eqb c q | EmptyString => false end.

Lemma lex_body_double q s rest :
  starts_with q rest = false →
  lex_body q (double_byte q s +:+ String q rest) = Some (s, rest).
Proof.
  intros Hr. induction s as [|c s IH].
  - simpl. rewrite ?str_nil_app; simpl; rewrite Ascii.eqb_refl.
    destruct rest as [|c r]; [done|]. simpl in Hr. by rewrite Hr.
  - simpl. destruct (Ascii.eqb_spec c q) as [->|Hc]; rewrite !str_cons_app; simpl.
    + by rewrite Ascii.eqb_refl, IH.
    + rewrite (proj2 (Ascii.eqb_neq _ _)) by done. by rewrite IH.
Qed.

Lemma quote_app q s rest : quote q s +:+ rest = String q (double_byte q s +:+ String q rest).
Proof.
  unfold quote. rewrite str_cons_app. f_equal.
  induction (double_byte q s) as [|c t IH]; [done|]. rewrite !str_cons_app. by rewrite IH.
Qed.

Lemma lex_quote q s rest :
  starts_with q rest = false → lex_quoted q (quote q s +:+ rest) = Some (s, rest).
Proof.
  intros Hr. rewrite quote_app. simpl. rewrite Ascii.eqb_refl. by apply lex_body_double.
Qed.

Lemma expect_app w s : expect w (w +:+ s) = Some s.
Proof. induction w as [|c w IH]; [by destruct s|]. rewrite str_cons_app. simpl. by rewrite Ascii.eqb_refl. Qed.

Lemma parse_setOne fuel p rest :
  starts_with SQ rest = false →
  parseBatch (S fuel) (setOne p +:+ rest)
  = match rest with
    | EmptyString => Some [p]
    | String c r => if Ascii.eqb c ";" then
                      match parseBatch fuel r with Some ps => Some (p :: ps) | None => None end
                    else None
    end.
Proof.
  intros Hr. unfold setOne. cbn [parseBatch]. rewrite !str_app_assoc, expect_app.
  unfold quoteIdent. rewrite lex_quote by done. rewrite expect_app.
  unfold quoteLiteral. rewrite lex_quote by done. destruct p; destruct rest; done.
Qed.

(** the server parses the SET batch back into exactly the tracked
    parameters, in order: whatever bytes a client puts in a parameter value,
    no second statement can appear in the batch. *)
Theorem setBatch_roundtrip ps :
  ps ≠ [] → parseBatch (length ps) (setBatch ps) = Some ps.
Proof.
  induction ps as [|p ps IH]; [done|]. intros _. destruct ps as [|p2 ps].
  - cbn [setBatch length]. rewrite <- (str_app_nil (setOne p)). by apply parse_setOne.
  - cbn [setBatch]. change (length (p :: p2 :: ps)) with (S (length (p2 :: ps))).
    rewrite parse_setOne by done. change (Ascii.eqb ";" ";") with true. cbv iota.
    change (match ps with [] => setOne p2 | _ :: _ => setOne p2 +:+ String ";" (setBatch ps) end)
      with (setBatch (p2 :: ps)).
    by rewrite IH.
Qed.

Lemma setBatch_roundtrip_witness :
  parseBatch 2 (setBatch [mkParam "application_name" "x'; DROP TABLE t; --"; mkParam "TimeZone" "UTC"])
  = Some [mkParam "application_name" "x'; DROP TABLE t; --"; mkParam "TimeZone" "UTC"].
Proof.
  apply (setBatch_roundtrip [mkParam "application_name" "x'; DROP TABLE t; --"; mkParam "TimeZone" "UTC"]).
  done.
Defined.

(** doubling quotes is not enough when standard_conforming_strings is off:
    the literal built for a value with a backslash before a quote ends inside
    the value, and the rest is read as SQL. *)
Theorem quoteLiteral_breaks_with_backslash_escapes :
  ∃ value body, quoteLiteral value = String SQ body ∧
    lex_backslash body = Some (String SQ "", "; DROP TABLE t; --'").
Proof.
  exists "\'; DROP TABLE t; --", "\''; DROP TABLE t; --'". by vm_compute.
Qed.

(** the replayed list follows the whitelist's order, takes every value
    from the client's startup message under the listed name or its lower-case
    form, and contains no empty value. *)
Theorem extract_sound startup whitelist p :
  p ∈ extractTrackedParams startup whitelist →
  Name p ∈ whitelist ∧ skip_name (Name p) = false ∧ Value p ≠ "" ∧
  (startup !! Name p = Some (Value p) ∨ startup !! ToLower (Name p) = Some (Value p)).
Proof.
  unfold extractTrackedParams. rewrite list_elem_of_omap. intros (n & Hn & H).
  unfold lookup_param in H. repeat case_match; simplify_eq/=;
    repeat match goal with H : (_ =? _)%string = false |- _ => apply String.eqb_neq in H end;
    auto.
Qed.

Lemma extract_sound_witness :
  Value (mkParam "TimeZone" "UTC") ≠ "".
Proof.
  apply (extract_sound {[ "timezone" := "UTC" ]} ["-"; "TimeZone"] (mkParam "TimeZone" "UTC")).
  by left.
Defined.

End TrackedParams.
