(* ===== verification/Relay.v ===== *)
(** * The relay of one client session

    src/relay.go: the loop that reads a client's messages, acquires a backend
    for a transaction, adopts it, forwards the batch, relays the replies and
    gives the backend back.  Each blocking call of the Go code (a Receive, an
    Acquire) is a phase; one step consumes what that call returns and performs
    everything up to the next blocking call, as a list of actions. *)

From Stdlib Require Import Ascii.
From S2P Require Import Prelude GoStrings Prepared TrackedParams.
Import Prepared TrackedParams.
Open Scope string_scope.
Open Scope list_scope.
Open Scope nat_scope.

Module Relay.

(** ** Messages from the server *)

Inductive bmsg :=
| ParseComplete
| CloseComplete
| DataRow (values : list string)
| CopyDataB (data : string)
| CopyInResponse
| CopyBothResponse
| ReadyForQuery (TxStatus : ascii)
| ErrorResponse (Severity Code Message : string)
| OtherB (payload : string).

#[export] Instance bmsg_eq_dec : EqDecision bmsg.
Proof. solve_decision. Defined.

(** ** What a blocking call can return, and what the relay does *)

Inductive acqErr := AcqClosed | AcqCircuit | AcqOther (message : string).

Inductive input :=
| Client (m : fmsg)
| ClientErr (deadline : bool)
| Acquired (b : backendConn)
| AcquireErr (e : acqErr)
| Reply (r : bmsg)
| BackendErr (deadline : bool)
| GraceOver.

Inductive action :=
| PgSend (r : bmsg)
| PgFlush
| ToBackend (b : nat) (l : list fmsg)
| PoolRelease (b : backendConn)
| PoolDiscard (b : backendConn).

(** The outcome of the writes a step makes, the drain flag, and the identity
    [nextSessionID] would give out. *)
Record env := mkEnv { pgFlushOk : bool; feFlushOk : bool; draining : bool; freshId : Z }.

(** The options the relay reads. *)
Record runtimeOpts := mkOpts {
  idleTransactionTimeout : Z;
  clientIdleTimeout : Z;
  queryTimeout : Z;
  serverResetQuery : string;
  resetSkipSameSession : bool;
}.

(** ** State *)

(** relayCopyBoth: which pumps still run, and the result of the first to end. *)
Record pumps := mkPumps { c_run : bool; b_run : bool; first : option bool }.

Inductive phase :=
| RClient
| RAcquire (m : fmsg)
| RReset (m : fmsg)
| RParams (m : fmsg)
| RDrain (code message : string)
| RBatch (sw : psSwallow)
| RBackend (sw : psSwallow)
| RCopyIn (sw : psSwallow) (n : nat)
| RCopyBoth (sw : psSwallow) (ps : pumps)
| RDone.

Record relay := mkRelay {
  ph : phase;
  backend : option backendConn;
  lastTxStatus : ascii;
  pending : Z;
  sess : session;
}.

Definition set_ph f r := mkRelay f (backend r) (lastTxStatus r) (pending r) (sess r).
Definition set_backend b r := mkRelay (ph r) b (lastTxStatus r) (pending r) (sess r).
Definition set_tx t r := mkRelay (ph r) (backend r) t (pending r) (sess r).
Definition set_pending n r := mkRelay (ph r) (backend r) (lastTxStatus r) n (sess r).
Definition set_sess s r := mkRelay (ph r) (backend r) (lastTxStatus r) (pending r) s.

Definition relay_init (s : session) : relay := mkRelay RClient None "000" 0 s.

(** ** Helpers *)

Definition isTerminalMessage (m : fmsg) : bool :=
  match m with Query _ | Sync => true | _ => false end.

Definition isTerminate (m : fmsg) : bool := match m with Terminate => true | _ => false end.

Definition clientFlushThreshold : Z := 65536.

Definition replyEncodedSize (r : bmsg) : Z :=
  match r with
  | DataRow vs => foldl (λ n v, n + (4 + Z.of_nat (String.length v)))%Z 7%Z vs
  | CopyDataB d => 5 + Z.of_nat (String.length d)
  | _ => 128
  end.

Definition inTransaction (r : relay) : bool :=
  match backend r with
  | None => false
  | Some _ => Ascii.eqb (lastTxStatus r) "T" || Ascii.eqb (lastTxStatus r) "E"
  end.

(** The SQLSTATE and text to report if the armed idle deadline fires. *)
Definition armClientIdleDeadline (o : runtimeOpts) (r : relay) : option (string * string) :=
  if inTransaction r then
    if (idleTransactionTimeout o <=? 0)%Z then None
    else Some ("25P03", "terminating connection due to idle-in-transaction timeout")
  else if (clientIdleTimeout o <=? 0)%Z then None
  else Some ("57P05", "terminating connection due to idle-session timeout").

Definition release (reusable : bool) (r : relay) : relay * list action :=
  match backend r with
  | None => (r, [])
  | Some b =>
      (set_backend None r,
       [if reusable then PoolRelease (with_stateOwner (sid (sess r)) b) else PoolDiscard b])
  end.

Definition idleTx (r : relay) : bool := Ascii.eqb (lastTxStatus r) "I".

(** Release or discard, then return from relayImpl. *)
Definition leave (reusable : bool) (r : relay) : relay * list action :=
  let '(r, acts) := release reusable r in (set_ph RDone r, acts).

Definition fatal (code message : string) : list action :=
  [PgSend (ErrorResponse "FATAL" code message); PgFlush].

Definition shutdownMessage : string :=
  "terminating connection due to administrator command (pgman is shutting down)".

(** [flushClient]: [inl] goes on, [inr] has released the backend and returns. *)
Definition flushClient (e : env) (r : relay) : (relay * list action) + (relay * list action) :=
  if (pending r =? 0)%Z then inl (r, [])
  else
    let r := set_pending 0 r in
    if pgFlushOk e then inl (r, [PgFlush])
    else let '(r, acts) := leave false r in inr (r, PgFlush :: acts).

(** [fe.Flush]: everything the Frontend has buffered goes out. *)
Definition feFlush (b : backendConn) : backendConn * list action :=
  (with_feBuf [] b, [ToBackend (bid b) (feBuf b)]).

(** ** failQuery *)

Definition failReport (e : env) (code message : string) (r : relay) : relay * list action :=
  (set_ph (if pgFlushOk e then RClient else RDone) r,
   [PgSend (ErrorResponse "ERROR" code message); PgSend (ReadyForQuery "I"); PgFlush]).

Definition failQuery (e : env) (m : fmsg) (code message : string) (r : relay) :
  relay * list action :=
  if isTerminalMessage m then failReport e code message r
  else (set_ph (RDrain code message) r, []).

(** ** Forwarding a client message *)

Definition flushToBackend (e : env) (sw : psSwallow) (b : backendConn) (r : relay) :
  relay * list action :=
  if feFlushOk e then
    let '(b, acts) := feFlush b in (set_ph (RBackend sw) (set_backend (Some b) r), acts)
  else leave false (set_backend (Some b) r).

(** The messages of a batch; [start] says that [m] is its first one, which
    decides whether a backend left by the ceiling error may be reused. *)
Definition forward (e : env) (start : bool) (sw : psSwallow) (m : fmsg) (b : backendConn)
  (r : relay) : relay * list action :=
  match processClientMsg b (sess r) m with
  | Err n =>
      let '(r, acts) := leave (start && idleTx r) r in
      (r, fatal "54000" "session has too many named prepared statements open" ++ acts)
  | Ok (b, s, injected) =>
      let r := set_sess s r in
      let b := send m b in
      let sw := add_swallow sw injected in
      if isTerminalMessage m then flushToBackend e sw b r
      else (set_ph (RBatch sw) (set_backend (Some b) r), [])
  end.

(** ** Adopting an acquired backend *)

Definition adoptFailed (e : env) (m : fmsg) (b : backendConn) (r : relay) : relay * list action :=
  let '(r, acts) := failQuery e m "08006" "backend could not be prepared for this session"
                      (set_backend None r) in
  (r, PoolDiscard b :: acts).

Definition adopted (e : env) (m : fmsg) (b : backendConn) (r : relay) : relay * list action :=
  forward e true no_swallow m b (set_backend (Some b) r).

(** A silent statement sent to the backend; its replies are read in phase [f]. *)
Definition silently (e : env) (m : fmsg) (sql : string) (f : phase) (b : backendConn) (r : relay) :
  relay * list action :=
  let b := send (Query sql) b in
  if feFlushOk e then
    let '(b, acts) := feFlush b in (set_ph f (set_backend (Some b) r), acts)
  else adoptFailed e m b r.

Definition params_of (s : session) : list trackedParam :=
  (λ '(n, v), mkParam n v) <$> trackedParams s.

(** [adoptBackend] after the reset query. *)
Definition adoptParams (e : env) (m : fmsg) (b : backendConn) (r : relay) : relay * list action :=
  let b := clearBackendPSCache b in
  match params_of (sess r) with
  | [] => adopted e m (with_stateOwner (sid (sess r)) b) r
  | ps => silently e m (setBatch ps) (RParams m) b r
  end.

Definition adoptBackend (o : runtimeOpts) (e : env) (m : fmsg) (b : backendConn) (r : relay) :
  relay * list action :=
  let r := if (sid (sess r) =? 0)%Z then set_sess (with_sid (freshId e) (sess r)) r else r in
  if resetSkipSameSession o && (stateOwner b =? sid (sess r))%Z then adopted e m b r
  else if negb (stateOwner b =? 0)%Z && negb (serverResetQuery o =? "")%string
  then silently e m (serverResetQuery o) (RReset m) b r
  else adoptParams e m b r.

(** ** Replies *)

(** One reply against the acks to swallow: [None] when it is dropped. *)
Definition swallowReply (sw : psSwallow) (x : bmsg) : option psSwallow :=
  match x with
  | ParseComplete =>
      if 0 <? parseComplete sw
      then Some (mkSwallow (pred (parseComplete sw)) (closeComplete sw)) else None
  | CloseComplete =>
      if 0 <? closeComplete sw
      then Some (mkSwallow (parseComplete sw) (pred (closeComplete sw))) else None
  | _ => None
  end.

(** The release decision at ReadyForQuery. *)
Definition endOfCycle (tx : ascii) (r : relay) : relay * list action :=
  let r := set_tx tx r in
  let '(r, acts) :=
    if (poolMode (sess r) =? "statement")%string then release (negb (Ascii.eqb tx "E")) r
    else if (poolMode (sess r) =? "session")%string then (r, [])
    else if Ascii.eqb tx "I" then release true r else (r, []) in
  (set_ph RClient r, acts).

(** Flush what is pending, then go on with [k]. *)
Definition after_flush (e : env) (r : relay) (k : relay → relay * list action) :
  relay * list action :=
  match flushClient e r with
  | inl (r, acts) => let '(r, acts') := k r in (r, acts ++ acts')
  | inr x => x
  end.

Definition relayReply (e : env) (sw : psSwallow) (x : bmsg) (r : relay) : relay * list action :=
  match swallowReply sw x with
  | Some sw' => (set_ph (RBackend sw') r, [])
  | None =>
      let r := set_pending (pending r + replyEncodedSize x)%Z r in
      let k r :=
        match x with
        | CopyInResponse => after_flush e r (λ r, (set_ph (RCopyIn sw 0) r, []))
        | CopyBothResponse =>
            after_flush e r (λ r, (set_ph (RCopyBoth sw (mkPumps true true None)) r, []))
        | ReadyForQuery tx => after_flush e r (endOfCycle tx)
        | _ => (r, [])
        end in
      let '(r, acts) := if (clientFlushThreshold <=? pending r)%Z then after_flush e r k else k r in
      (r, PgSend x :: acts)
  end.

(** ** The COPY sub-relays *)

Definition copyFlush (e : env) (sw : psSwallow) (b : backendConn) (f : phase) (r : relay) :
  relay * list action :=
  if feFlushOk e then
    let '(b, acts) := feFlush b in (set_ph f (set_backend (Some b) r), acts)
  else leave false (set_backend (Some b) r).

Definition flushEvery : nat := 32.

Definition relayCopyIn (e : env) (sw : psSwallow) (n : nat) (m : fmsg) (b : backendConn)
  (r : relay) : relay * list action :=
  match m with
  | Terminate =>
      copyFlush e sw (send (CopyFail "client terminated during COPY") b) (RBackend sw) r
  | CopyData _ =>
      let b := send m b in
      if flushEvery <=? S n then copyFlush e sw b (RCopyIn sw 0) r
      else (set_ph (RCopyIn sw (S n)) (set_backend (Some b) r), [])
  | CopyDone | CopyFail _ => copyFlush e sw (send m b) (RBackend sw) r
  | _ => copyFlush e sw (send m b) (RCopyIn sw n) r
  end.

(** A pump of relayCopyBoth ended with result [ok]; [ps] are the pumps left.
    The call returns the first result once both have ended. *)
Definition pumpEnd (ok : bool) (sw : psSwallow) (ps : pumps) (r : relay) : relay * list action :=
  let ps := mkPumps (c_run ps) (b_run ps) (match first ps with None => Some ok | x => x end) in
  if c_run ps || b_run ps then (set_ph (RCopyBoth sw ps) r, [])
  else match first ps with
       | Some true => (set_ph (RBackend sw) r, [])
       | _ => leave false r
       end.

Definition clientPump (e : env) (sw : psSwallow) (ps : pumps) (m : fmsg) (b : backendConn)
  (r : relay) : relay * list action :=
  let ended := mkPumps false (b_run ps) (first ps) in
  let m' := match m with Terminate => CopyDone | _ => m end in
  let '(b', acts) := feFlush (send m' b) in
  match m with
  | Terminate =>
      let '(r, acts') := pumpEnd true sw ended (set_backend (Some b') r) in (r, acts ++ acts')
  | CopyDone | CopyFail _ =>
      let '(r, acts') := pumpEnd (feFlushOk e) sw ended (set_backend (Some b') r) in
      (r, acts ++ acts')
  | _ =>
      if feFlushOk e then (set_ph (RCopyBoth sw ps) (set_backend (Some b') r), acts)
      else let '(r, acts') := pumpEnd false sw ended (set_backend (Some b') r) in (r, acts ++ acts')
  end.

Definition backendPump (e : env) (sw : psSwallow) (ps : pumps) (x : bmsg) (r : relay) :
  relay * list action :=
  let ended := mkPumps (c_run ps) false (first ps) in
  let '(r, acts) :=
    if negb (pgFlushOk e) then pumpEnd false sw ended r
    else match x with
         | ReadyForQuery _ => pumpEnd true sw ended r
         | _ => (set_ph (RCopyBoth sw ps) r, [])
         end in
  (r, PgSend x :: PgFlush :: acts).

(** ** One step *)

Definition step (o : runtimeOpts) (e : env) (r : relay) (i : input) :
  option (relay * list action) :=
  match ph r, i, backend r with
  | RClient, ClientErr deadline, _ =>
      let '(r', acts) := leave (idleTx r) r in
      match armClientIdleDeadline o r with
      | Some (code, reason) =>
          Some (r', if deadline then fatal code reason ++ acts else acts)
      | None => Some (r', acts)
      end
  | RClient, Client m, None =>
      if isTerminate m then Some (set_ph RDone r, [])
      else if draining e then Some (set_ph RDone r, fatal "57P01" shutdownMessage)
      else Some (set_ph (RAcquire m) r, [])
  | RClient, Client m, Some b =>
      if isTerminate m then Some (leave (idleTx r) r)
      else Some (forward e true no_swallow m b r)
  | RAcquire m, Acquired b, _ => Some (adoptBackend o e m b r)
  | RAcquire m, AcquireErr err, _ =>
      Some (match err with
            | AcqClosed => (set_ph RDone r, fatal "57P01" shutdownMessage)
            | AcqCircuit => failQuery e m "08006" "backend unavailable: circuit breaker open" r
            | AcqOther text =>
                failQuery e m "53300" ("no backend connection available: " +:+ text) r
            end)
  | RReset m, Reply x, Some b =>
      Some (match x with
            | ErrorResponse _ _ _ => adoptFailed e m b r
            | ReadyForQuery _ => adoptParams e m b r
            | _ => (r, [])
            end)
  | RReset m, BackendErr _, Some b => Some (adoptFailed e m b r)
  | RParams m, Reply x, Some b =>
      Some (match x with
            | ErrorResponse _ _ _ => adoptFailed e m b r
            | ReadyForQuery _ => adopted e m (with_stateOwner (sid (sess r)) b) r
            | _ => (r, [])
            end)
  | RParams m, BackendErr _, Some b => Some (adoptFailed e m b r)
  | RDrain code message, Client m, _ =>
      Some (if isTerminate m then (set_ph RDone r, [])
            else if isTerminalMessage m then failReport e code message r
            else (r, []))
  | RDrain _ _, ClientErr _, _ => Some (set_ph RDone r, [])
  | RBatch sw, Client m, Some b =>
      Some (if isTerminate m then leave (idleTx r) r else forward e false sw m b r)
  | RBatch sw, ClientErr _, _ => Some (leave (idleTx r) r)
  | RBackend sw, Reply x, _ => Some (relayReply e sw x r)
  | RBackend sw, BackendErr deadline, _ =>
      let '(r, acts) := leave false r in
      Some (r, if (0 <? queryTimeout o)%Z && deadline
               then acts ++ fatal "57014" "canceling statement due to query_timeout" else acts)
  | RCopyIn sw n, Client m, Some b => Some (relayCopyIn e sw n m b r)
  | RCopyIn sw n, ClientErr _, _ => Some (leave false r)
  | RCopyBoth sw ps, Client m, Some b =>
      if c_run ps then Some (clientPump e sw ps m b r) else None
  | RCopyBoth sw ps, ClientErr _, _ =>
      if c_run ps then Some (pumpEnd false sw (mkPumps false (b_run ps) (first ps)) r) else None
  | RCopyBoth sw ps, Reply x, _ =>
      if b_run ps then Some (backendPump e sw ps x r) else None
  | RCopyBoth sw ps, BackendErr _, _ =>
      if b_run ps then Some (pumpEnd false sw (mkPumps (c_run ps) false (first ps)) r) else None
  | RCopyBoth sw ps, GraceOver, _ =>
      match first ps with
      | Some ok => Some (pumpEnd ok sw (mkPumps false false (first ps)) r)
      | None => None
      end
  | _, _, _ => None
  end.

(** A run: inputs with the outcomes of the writes, and all actions in order. *)
Fixpoint run (o : runtimeOpts) (l : list (env * input)) (r : relay) :
  option (relay * list action) :=
  match l with
  | [] => Some (r, [])
  | (e, i) :: l =>
      match step o e r i with
      | Some (r, acts) =>
          match run o l r with Some (r, acts') => Some (r, acts ++ acts') | None => None end
      | None => None
      end
  end.

End Relay.
