(* ===== verification/RelayTheorems.v ===== *)
(** * What the relay guarantees

    Safety of src/relay.go over arbitrary runs: every acquired backend is given
    back exactly once, nothing is left unwritten when the relay blocks on its
    client, backends are reused only outside transactions, and one session's
    state never reaches another's statements. *)

From Stdlib Require Import Ascii.
From S2P Require Import Prelude GoStrings Prepared TrackedParams Relay.
Import Prepared TrackedParams Relay.
Open Scope string_scope.
Open Scope list_scope.
Open Scope nat_scope.

Module RelayTheorems.

(** ** A monitor of the actions

    [u] is the size of the replies sent to the client and not yet written, [h]
    the backend taken from the pool and not yet given back.  Giving back a
    backend that is not held is a violation. *)

Definition mon_act (a : action) (s : Z * option nat) : option (Z * option nat) :=
  let '(u, h) := s in
  match a with
  | PgSend x => Some (u + replyEncodedSize x, h)%Z
  | PgFlush => Some (0%Z, h)
  | ToBackend b _ => if decide (h = Some b) then Some (u, h) else None
  | PoolRelease b | PoolDiscard b => if decide (h = Some (bid b)) then Some (u, None) else None
  end.

Fixpoint mon (l : list action) (s : Z * option nat) : option (Z * option nat) :=
  match l with
  | [] => Some s
  | a :: l => match mon_act a s with Some s => mon l s | None => None end
  end.

Lemma mon_app l k s : mon (l ++ k) s = match mon l s with Some s => mon k s | None => None end.
Proof. revert s. induction l as [|a l IH]; intros s; simpl; [done|]. destruct (mon_act a s); auto. Qed.

(** ** The invariant *)

Definition needs_backend (f : phase) : option bool :=
  match f with
  | RClient => None
  | RAcquire _ | RDrain _ _ | RDone => Some false
  | _ => Some true
  end.

Definition may_owe (f : phase) : bool := match f with RBackend _ | RDone => true | _ => false end.

Record J (r : relay) (u : Z) (h : option nat) : Prop := mkJ {
  j_held : h = bid <$> backend r;
  j_sent : ph r ≠ RDone → u = pending r;
  j_flushed : may_owe (ph r) = false → pending r = 0%Z;
  j_backend : match needs_backend (ph r) with
              | None => True
              | Some true => is_Some (backend r)
              | Some false => backend r = None
              end;
}.

(** A helper's result [x], started with monitor state [s], is fine. *)
Definition ok (x : relay * list action) (s : Z * option nat) : Prop :=
  ∃ u h, mon x.2 s = Some (u, h) ∧ J x.1 u h.

Lemma ok_cons a x s s' : mon_act a s = Some s' → ok x s' → ok (x.1, a :: x.2) s.
Proof. intros E (u & h & H & HJ). exists u, h. simpl. by rewrite E. Qed.

Lemma ok_app l x s s' : mon l s = Some s' → ok x s' → ok (x.1, l ++ x.2) s.
Proof. intros E (u & h & H & HJ). exists u, h. simpl. by rewrite mon_app, E. Qed.

Lemma ok_app' x l s : (∀ u h, J x.1 u h → mon l (u, h) = Some (u, h) ∨ ∃ u', mon l (u, h) = Some (u', h) ∧ ph x.1 = RDone) →
  ok x s → ok (x.1, x.2 ++ l) s.
Proof.
  intros E (u & h & H & HJ). destruct (E u h HJ) as [El|(u' & El & Hd)].
  - exists u, h. simpl. by rewrite mon_app, H, El.
  - exists u', h. simpl. rewrite mon_app, H, El. split; [done|]. destruct HJ. by constructor.
Qed.

(** Close an invariant goal for an explicit state. *)
Ltac mkj := constructor; simpl in *; intros; simplify_eq; first [done | congruence | lia | by eauto].

(** ** The helpers *)

Lemma leave_ok b r u h : h = bid <$> backend r → ok (leave b r) (u, h).
Proof.
  intros ->. unfold leave, release. destruct (backend r) as [c|] eqn:E; simpl.
  - exists u, None. destruct b; simpl; (case_decide; [|done]); (split; [done|]); by constructor.
  - exists u, None. split; [done|]. constructor; simpl; rewrite ?E; done.
Qed.

Lemma fatal_mon code message u h : mon (fatal code message) (u, h) = Some (0%Z, h).
Proof. done. Qed.

Lemma fatal_leave_ok code message b r u h :
  h = bid <$> backend r → ok ((leave b r).1, fatal code message ++ (leave b r).2) (u, h).
Proof. intros H. eapply ok_app; [apply fatal_mon|]. by apply leave_ok. Qed.

Lemma done_ok r acts u h u' h' :
  mon acts (u, h) = Some (u', h') → backend r = None → h' = None → ok (set_ph RDone r, acts) (u, h).
Proof. intros E Hb ->. exists u', None. split; [done|]. constructor; simpl; rewrite ?Hb; done. Qed.

Lemma failReport_ok e code message r u :
  backend r = None → pending r = 0%Z → ok (failReport e code message r) (u, None).
Proof.
  intros Hb Hp. exists 0%Z, None. split; [done|].
  destruct (pgFlushOk e) eqn:E; constructor; simpl; rewrite ?Hb, ?E; done.
Qed.

Lemma failQuery_ok e m code message r :
  backend r = None → pending r = 0%Z → ok (failQuery e m code message r) (0%Z, None).
Proof.
  intros Hb Hp. unfold failQuery. destruct (isTerminalMessage m); [by apply failReport_ok|].
  exists 0%Z, None. split; [done|]. constructor; simpl; rewrite ?Hb; done.
Qed.

(** Message processing leaves the identities alone. *)
Definition keeps (b : backendConn) (s : session) (b' : backendConn) (s' : session) : Prop :=
  bid b' = bid b ∧ stateOwner b' = stateOwner b ∧ sid s' = sid s ∧ poolMode s' = poolMode s.

Lemma keeps_refl b s : keeps b s b s.
Proof. done. Qed.

Lemma keeps_trans b s b1 s1 b2 s2 : keeps b s b1 s1 → keeps b1 s1 b2 s2 → keeps b s b2 s2.
Proof. unfold keeps. intros (?&?&?&?) (?&?&?&?). by split_and!; etrans. Qed.

Lemma evict_keeps fuel limit b s sw b' s' sw' :
  evict fuel limit b s sw = (b', s', sw') → keeps b s b' s'.
Proof.
  revert b s sw. induction fuel as [|fuel IH]; intros b s sw; simpl; [by intros; simplify_eq|].
  destruct (limit <=? size (stmts b)); [|by intros; simplify_eq].
  destruct (lruStmt (stmts b)); [|by intros; simplify_eq].
  intros E. apply IH in E. exact E.
Qed.

Lemma mark_keeps b s n b' s' sw : markBackendHasStmt b s n = (b', s', sw) → keeps b s b' s'.
Proof.
  unfold markBackendHasStmt, touch. destruct (_ && _).
  - destruct (evict _ _ b s no_swallow) as [[b1 s1] sw1] eqn:Ev. intros; simplify_eq/=.
    by apply evict_keeps in Ev.
  - by intros; simplify_eq.
Qed.

Lemma side_keeps b s sql b' s' : checkSQLSideEffects b s sql = (b', s') → keeps b s b' s'.
Proof.
  unfold checkSQLSideEffects, checkListenWarn, invalidatePSCachesOnDDL. intros.
  repeat case_match; simplify_eq/=; done.
Qed.

Lemma ensure_keeps b s n b' s' sw : ensureBackendHasStmt b s n = (b', s', sw) → keeps b s b' s'.
Proof.
  unfold ensureBackendHasStmt, touch. intros. repeat case_match; simplify_eq/=; try done.
  match goal with H : markBackendHasStmt _ _ _ = _ |- _ => by apply mark_keeps in H end.
Qed.

Lemma process_keeps b s m b' s' sw : processClientMsg b s m = Ok (b', s', sw) → keeps b s b' s'.
Proof.
  destruct m; simpl; unfold trackClientParse; intros H; repeat case_match; simplify_eq/=; try done;
    repeat match goal with
    | H : checkSQLSideEffects _ _ _ = _ |- _ => apply side_keeps in H
    | H : ensureBackendHasStmt _ _ _ = _ |- _ => apply ensure_keeps in H
    | H : markBackendHasStmt _ _ _ = _ |- _ => apply mark_keeps in H
    end; try done; by eapply keeps_trans.
Qed.

(** ** Forwarding *)

Lemma flush_batch_ok e sw b r :
  pending r = 0%Z → ok (flushToBackend e sw b r) (0%Z, Some (bid b)).
Proof.
  intros Hp. unfold flushToBackend. destruct (feFlushOk e); [|by apply leave_ok].
  exists 0%Z, (Some (bid b)). simpl. rewrite decide_True by done. split; [done|]. mkj.
Qed.

Lemma forward_ok e start sw m b r :
  pending r = 0%Z → backend r = Some b → ok (forward e start sw m b r) (0%Z, Some (bid b)).
Proof.
  intros Hp Hb. unfold forward.
  destruct (processClientMsg b (sess r) m) as [[[b' s'] inj]|n] eqn:E.
  - apply process_keeps in E as [E _]. replace (Some (bid b)) with (Some (bid (send m b'))) by (simpl; by rewrite E).
    destruct (isTerminalMessage m); [by apply flush_batch_ok|].
    exists 0%Z, (Some (bid b')). split; [done|]. mkj.
  - rewrite (surjective_pairing (leave _ r)). apply fatal_leave_ok. by rewrite Hb.
Qed.

Lemma adoptFailed_ok e m b r : pending r = 0%Z → ok (adoptFailed e m b r) (0%Z, Some (bid b)).
Proof.
  intros Hp. unfold adoptFailed. rewrite (surjective_pairing (failQuery _ _ _ _ _)).
  eapply ok_cons; [simpl; by rewrite decide_True|]. by apply failQuery_ok.
Qed.

Lemma adopted_ok e m b r : pending r = 0%Z → ok (adopted e m b r) (0%Z, Some (bid b)).
Proof. intros Hp. by apply forward_ok. Qed.

Lemma silently_ok e m sql f b r :
  pending r = 0%Z → needs_backend f = Some true → ok (silently e m sql f b r) (0%Z, Some (bid b)).
Proof.
  intros Hp Hf. unfold silently. destruct (feFlushOk e);
    [|by apply (adoptFailed_ok e m (send (Query sql) b))].
  exists 0%Z, (Some (bid b)). simpl. rewrite decide_True by done. split; [done|].
  constructor; simpl; try done. by rewrite Hf.
Qed.

Lemma adoptParams_ok e m b r : pending r = 0%Z → ok (adoptParams e m b r) (0%Z, Some (bid b)).
Proof.
  intros Hp. unfold adoptParams. destruct (params_of (sess r)) as [|q ps].
  - by apply (adopted_ok e m (with_stateOwner _ (clearBackendPSCache b))).
  - by apply (silently_ok e m _ _ (clearBackendPSCache b)).
Qed.

Lemma adoptBackend_ok o e m b r : pending r = 0%Z → ok (adoptBackend o e m b r) (0%Z, Some (bid b)).
Proof.
  intros Hp. unfold adoptBackend. set (r1 := if (sid (sess r) =? 0)%Z then _ else r).
  assert (Hp1 : pending r1 = 0%Z) by (subst r1; by case_match).
  destruct (_ && _); [by apply adopted_ok|]. destruct (_ && _); [by apply silently_ok|].
  by apply adoptParams_ok.
Qed.

(** ** Replies *)

Lemma after_flush_ok e r k b :
  backend r = Some b →
  (∀ r', r' = set_pending 0%Z r ∨ (r' = r ∧ pending r = 0%Z) → ok (k r') (0%Z, Some (bid b))) →
  ok (after_flush e r k) (pending r, Some (bid b)).
Proof.
  intros Hb Hk. unfold after_flush, flushClient.
  destruct (Z.eqb_spec (pending r) 0) as [H0|H0].
  - rewrite (surjective_pairing (k r)). rewrite H0. simpl. rewrite <- surjective_pairing.
    apply Hk. by right.
  - destruct (pgFlushOk e).
    + rewrite (surjective_pairing (k _)). eapply ok_cons; [reflexivity|]. apply Hk. by left.
    + rewrite (surjective_pairing (leave _ _)). eapply ok_cons; [reflexivity|].
      apply leave_ok. simpl. by rewrite Hb.
Qed.

Lemma endOfCycle_ok tx r b :
  backend r = Some b → pending r = 0%Z → ok (endOfCycle tx r) (0%Z, Some (bid b)).
Proof.
  intros Hb Hp. unfold endOfCycle, release. simpl. rewrite Hb.
  repeat case_match; simplify_eq/=;
    first [ exists 0%Z, None; simpl; rewrite decide_True by done; split; [done|]; mkj
          | exists 0%Z, (Some (bid b)); split; [done|]; constructor; simpl; rewrite ?Hb; done ].
Qed.

Lemma phase_ok f r b :
  backend r = Some b → pending r = 0%Z → needs_backend f = Some true →
  ok (set_ph f r, []) (0%Z, Some (bid b)).
Proof.
  intros Hb Hp Hf. exists 0%Z, (Some (bid b)). split; [done|].
  constructor; simpl; rewrite ?Hb, ?Hf; done.
Qed.

Lemma relayReply_ok e sw x r b :
  backend r = Some b → ph r = RBackend sw → ok (relayReply e sw x r) (pending r, Some (bid b)).
Proof.
  intros Hb Hph. unfold relayReply. destruct (swallowReply sw x).
  { exists (pending r), (Some (bid b)). split; [done|]. constructor; simpl; rewrite ?Hb; done. }
  set (r1 := set_pending (pending r + replyEncodedSize x)%Z r).
  set (k := λ r : relay, _).
  assert (Hb1 : backend r1 = Some b) by done.
  assert (Hk0 : ∀ r', backend r' = Some b → ph r' = RBackend sw → ok (k r') (pending r', Some (bid b))).
  { intros r' Hb' Hph'. subst k. cbn beta.
    assert (Hstay : ok (r', []) (pending r', Some (bid b))).
    { exists (pending r'), (Some (bid b)). split; [done|].
      constructor; cbn [fst]; rewrite ?Hb', ?Hph'; first [done | by eexists]. }
    destruct x; try exact Hstay; apply after_flush_ok; try done;
      intros r2 [->|[-> Hp2]]; first [by apply phase_ok | by apply endOfCycle_ok]. }
  assert (HK : ok (if (clientFlushThreshold <=? pending r1)%Z then after_flush e r1 k else k r1)
    (pending r1, Some (bid b))).
  { destruct (clientFlushThreshold <=? pending r1)%Z; [|by apply Hk0].
    apply after_flush_ok; [done|]. intros r2 [->|[-> Hp2]].
    - by apply (Hk0 (set_pending 0%Z r1)).
    - rewrite <- Hp2. by apply Hk0. }
  destruct (if (clientFlushThreshold <=? pending r1)%Z then _ else _) as [r2 acts].
  eapply (ok_cons _ (r2, acts)); [reflexivity|]. exact HK.
Qed.

(** ** COPY *)

Lemma copyFlush_ok e sw b f r :
  pending r = 0%Z → needs_backend f = Some true → ok (copyFlush e sw b f r) (0%Z, Some (bid b)).
Proof.
  intros Hp Hf. unfold copyFlush. destruct (feFlushOk e); [|by apply leave_ok].
  exists 0%Z, (Some (bid b)). simpl. rewrite decide_True by done. split; [done|].
  constructor; simpl; try done. rewrite Hf. by eexists.
Qed.

Lemma relayCopyIn_ok e sw n m b r : pending r = 0%Z → ok (relayCopyIn e sw n m b r) (0%Z, Some (bid b)).
Proof.
  intros Hp. unfold relayCopyIn.
  assert (HF : ∀ m f, needs_backend f = Some true → ok (copyFlush e sw (send m b) f r) (0%Z, Some (bid b)))
    by (intros m0 f Hf; by apply (copyFlush_ok e sw (send m0 b) f r)).
  destruct m; try (by apply HF). case_match; [by apply HF|].
  exists 0%Z, (Some (bid b)). split; [done|]. mkj.
Qed.

Lemma pumpEnd_ok k sw ps r b :
  backend r = Some b → pending r = 0%Z → ok (pumpEnd k sw ps r) (0%Z, Some (bid b)).
Proof.
  intros Hb Hp. unfold pumpEnd.
  assert (HL : ok (leave false r) (0%Z, Some (bid b))) by (apply leave_ok; by rewrite Hb).
  repeat case_match; try exact HL; by apply phase_ok.
Qed.

Lemma clientPump_ok e sw ps m b r :
  pending r = 0%Z → ok (clientPump e sw ps m b r) (0%Z, Some (bid b)).
Proof.
  intros Hp. unfold clientPump. cbn [feFlush].
  set (m' := match m with Terminate => CopyDone | _ => m end).
  assert (HE : ∀ k ended r1, backend r1 = Some (with_feBuf [] (send m' b)) → pending r1 = 0%Z →
    ok (let '(r2, acts) := pumpEnd k sw ended r1 in (r2, [ToBackend (bid b) (feBuf (send m' b))] ++ acts))
       (0%Z, Some (bid b))).
  { intros k ended r1 Hb1 Hp1. rewrite (surjective_pairing (pumpEnd _ _ _ _)).
    eapply (ok_app _ (pumpEnd k sw ended r1)); [simpl; by rewrite decide_True|].
    by apply (pumpEnd_ok k sw ended r1 (with_feBuf [] (send m' b))). }
  assert (HS : ok (set_ph (RCopyBoth sw ps) (set_backend (Some (with_feBuf [] (send m' b))) r),
    [ToBackend (bid b) (feBuf (send m' b))]) (0%Z, Some (bid b))).
  { exists 0%Z, (Some (bid b)). simpl. rewrite decide_True by done. split; [done|]. mkj. }
  subst m'. destruct m; try (by apply HE); (destruct (feFlushOk e); [exact HS|by apply HE]).
Qed.

Lemma backendPump_ok e sw ps x r b :
  backend r = Some b → pending r = 0%Z → ok (backendPump e sw ps x r) (0%Z, Some (bid b)).
Proof.
  intros Hb Hp. unfold backendPump.
  assert (HK : ∀ y : relay * list action, ok y (0%Z, Some (bid b)) →
    ok (y.1, PgSend x :: PgFlush :: y.2) (0%Z, Some (bid b))).
  { intros y (u & h & H & HJ). by exists u, h. }
  match goal with |- ok (let '(r0, acts) := ?y in _) _ =>
    rewrite (surjective_pairing y); apply (HK y) end.
  destruct (negb (pgFlushOk e)); [by apply pumpEnd_ok|].
  destruct x; try (by apply phase_ok). by apply pumpEnd_ok.
Qed.

(** ** Every step *)

(** The monitor with the input that starts the step: Acquire hands out a
    backend, which must not happen while one is held. *)
Definition mon_input (i : input) (s : Z * option nat) : option (Z * option nat) :=
  match i with
  | Acquired b => match s.2 with None => Some (s.1, Some (bid b)) | Some _ => None end
  | _ => Some s
  end.

Lemma leave_held k r b u : backend r = Some b → ok (leave k r) (u, Some (bid b)).
Proof. intros Hb. apply leave_ok. by rewrite Hb. Qed.

Lemma leave_none k r u : backend r = None → ok (leave k r) (u, None).
Proof. intros Hb. apply leave_ok. by rewrite Hb. Qed.

Lemma fatal_leave_held k code message r b u :
  backend r = Some b → ok ((leave k r).1, fatal code message ++ (leave k r).2) (u, Some (bid b)).
Proof. intros Hb. apply fatal_leave_ok. by rewrite Hb. Qed.

Lemma fatal_leave_none k code message r u :
  backend r = None → ok ((leave k r).1, fatal code message ++ (leave k r).2) (u, None).
Proof. intros Hb. apply fatal_leave_ok. by rewrite Hb. Qed.

Lemma leave_pair_held k r b u :
  backend r = Some b → ok ((leave k r).1, (leave k r).2) (u, Some (bid b)).
Proof. rewrite <- surjective_pairing. apply leave_held. Qed.

Lemma leave_pair_none k r u : backend r = None → ok ((leave k r).1, (leave k r).2) (u, None).
Proof. rewrite <- surjective_pairing. apply leave_none. Qed.

Lemma stop_ok r u : backend r = None → ok (set_ph RDone r, []) (u, None).
Proof. intros Hb. by eapply done_ok. Qed.

Lemma fatal_stop_ok code message r u :
  backend r = None → ok (set_ph RDone r, fatal code message) (u, None).
Proof. intros Hb. by eapply done_ok. Qed.

Lemma acquire_ok m r : backend r = None → pending r = 0%Z → ok (set_ph (RAcquire m) r, []) (0%Z, None).
Proof. intros Hb Hp. exists 0%Z, None. split; [done|]. constructor; simpl; rewrite ?Hb; done. Qed.

Lemma adopted_owner_ok e m b o r :
  pending r = 0%Z → ok (adopted e m (with_stateOwner o b) r) (0%Z, Some (bid b)).
Proof. apply (adopted_ok e m (with_stateOwner o b)). Qed.

Lemma stay_ok r u h : J r u h → ok (r, []) (u, h).
Proof. intros HJ. by exists u, h. Qed.

Lemma cancel_ok code message r b u :
  backend r = Some b → ok ((leave false r).1, (leave false r).2 ++ fatal code message) (u, Some (bid b)).
Proof.
  intros Hb. eapply (ok_app' (leave false r)); [|by apply leave_held].
  intros u' h' _. right. exists 0%Z. unfold leave, release. by rewrite Hb.
Qed.

Create HintDb relay.
#[export] Hint Resolve leave_held leave_none forward_ok adoptBackend_ok adoptParams_ok adopted_ok
  adoptFailed_ok failQuery_ok failReport_ok relayReply_ok relayCopyIn_ok pumpEnd_ok clientPump_ok
  backendPump_ok stay_ok fatal_leave_held fatal_leave_none leave_pair_held leave_pair_none stop_ok
  fatal_stop_ok acquire_ok adopted_owner_ok cancel_ok : relay.

Lemma step_ok o e r i u h r' acts :
  step o e r i = Some (r', acts) → J r u h →
  ∃ s, mon_input i (u, h) = Some s ∧ ok (r', acts) s.
Proof.
  intros H HJ. pose proof HJ as [Hh Hu Hf Hb]. unfold step in H.
  destruct (ph r) as [|m|m|m|code message|sw|sw|sw n|sw ps|] eqn:Hph; simpl in Hb, Hf;
    try specialize (Hu ltac:(done)); first [specialize (Hf eq_refl) | clear Hf | idtac];
    destruct i as [m'|dl|c|ae|x|dl|]; try done;
    try (destruct (backend r) as [b|] eqn:Eb; [|first [done | by destruct Hb | idtac]]); try done;
    simpl in Hh; subst; simpl; eexists; (split; [reflexivity|]);
    try match goal with Hp : pending r = 0%Z |- _ => rewrite Hp in * end.
  all: try (rewrite (surjective_pairing (leave _ r)) in H).
  all: repeat (case_match; try done); simplify_eq;
    repeat match goal with H : _ = (?a, ?l) |- ok (?a, ?l) _ => rewrite <- H; clear H end;
    eauto with relay.
Qed.

(** ** Runs *)

(** The inputs of a run with the actions of each step. *)
Fixpoint trace (o : runtimeOpts) (l : list (env * input)) (r : relay) :
  option (relay * list (input * list action)) :=
  match l with
  | [] => Some (r, [])
  | (e, i) :: l =>
      match step o e r i with
      | Some (r, acts) =>
          match trace o l r with Some (r, t) => Some (r, (i, acts) :: t) | None => None end
      | None => None
      end
  end.

Fixpoint watch (t : list (input * list action)) (s : Z * option nat) : option (Z * option nat) :=
  match t with
  | [] => Some s
  | (i, acts) :: t =>
      match mon_input i s with
      | Some s => match mon acts s with Some s => watch t s | None => None end
      | None => None
      end
  end.

Lemma trace_ok o l r r' t u h :
  J r u h → trace o l r = Some (r', t) → ∃ u' h', watch t (u, h) = Some (u', h') ∧ J r' u' h'.
Proof.
  revert r t u h. induction l as [|[e i] l IH]; intros r t u h HJ; simpl; [intros; simplify_eq; eauto|].
  destruct (step o e r i) as [[r1 acts]|] eqn:E; [|done].
  destruct (trace o l r1) as [[r2 t2]|] eqn:E2; [|done]. intros; simplify_eq.
  destruct (step_ok _ _ _ _ _ _ _ _ E HJ) as (s & Hi & u1 & h1 & Hm & HJ1).
  simpl in *. rewrite Hi, Hm. by eapply IH.
Qed.

Lemma J_init s : J (relay_init s) 0%Z None.
Proof. by constructor. Qed.

(** C13: along every run of the relay, each backend Acquire hands over is given
    back to the pool exactly once, is not used afterwards, and no second one is
    acquired while one is held; when relayImpl has returned, none is held. *)
Theorem backend_linear o l s r t :
  trace o l (relay_init s) = Some (r, t) →
  (∃ u, watch t (0%Z, None) = Some (u, bid <$> backend r)) ∧ (ph r = RDone → backend r = None).
Proof.
  intros E. destruct (trace_ok _ _ _ _ _ _ _ (J_init s) E) as (u & h & Hw & [Hh _ _ Hb]).
  split; [exists u; by rewrite <- Hh|]. intros Hd. by rewrite Hd in Hb.
Qed.

(** A transaction-mode session, a fresh backend, and one simple query. *)
Definition e_ok : env := mkEnv true true false 5.
Definition demo_opts : runtimeOpts := mkOpts 0 0 0 "DISCARD ALL" true.
Definition demo_sess : session := mkSession 1 "transaction" None 200 0 false false [].
Definition fresh_backend : backendConn := mkBackend 3 None 0 [].
Definition demo_inputs : list (env * input) :=
  (λ i, (e_ok, i)) <$>
  [Client (Query "select 1"); Acquired fresh_backend; Reply (DataRow ["1"]);
   Reply (ReadyForQuery "I")].

Lemma backend_linear_witness :
  match trace demo_opts demo_inputs (relay_init demo_sess) with
  | Some (r, t) => backend r = None ∧ ∃ u, watch t (0%Z, None) = Some (u, bid <$> backend r)
  | None => False
  end.
Proof.
  destruct (trace demo_opts demo_inputs (relay_init demo_sess)) as [[r t]|] eqn:E.
  2: by vm_compute in E.
  split; [vm_compute in E; injection E as <- _; reflexivity|].
  apply (backend_linear demo_opts demo_inputs demo_sess r t E).
Defined.

(** The replies sent to the client and not yet written to the socket. *)
Fixpoint unwritten (acc : list bmsg) (l : list action) : list bmsg :=
  match l with
  | [] => acc
  | PgSend x :: l => unwritten (acc ++ [x]) l
  | PgFlush :: l => unwritten [] l
  | _ :: l => unwritten acc l
  end.

Fixpoint size_of (xs : list bmsg) : Z :=
  match xs with [] => 0 | x :: xs => replyEncodedSize x + size_of xs end.

Lemma unwritten_app acc l k : unwritten acc (l ++ k) = unwritten (unwritten acc l) k.
Proof. revert acc. induction l as [|[] l IH]; intros acc; simpl; auto. Qed.

Lemma size_of_snoc xs x : size_of (xs ++ [x]) = (size_of xs + replyEncodedSize x)%Z.
Proof. induction xs as [|y xs IH]; simpl; [lia|]. rewrite IH. lia. Qed.

Lemma replyEncodedSize_pos x : (0 < replyEncodedSize x)%Z.
Proof.
  destruct x as [| |vs|d| | | | |]; simpl; try lia.
  assert (H : ∀ n, (0 < n → 0 < foldl (λ n v, n + (4 + Z.of_nat (String.length v))) n vs)%Z);
    [|by apply H].
  induction vs as [|v vs IH]; intros n Hn; simpl; [done|]. apply IH. lia.
Qed.

Lemma size_of_nonneg xs : (0 ≤ size_of xs)%Z.
Proof. induction xs as [|x xs IH]; simpl; [lia|]. pose proof (replyEncodedSize_pos x). lia. Qed.

Lemma mon_unwritten l acc h u' h' :
  mon l (size_of acc, h) = Some (u', h') → u' = size_of (unwritten acc l).
Proof.
  revert acc h. induction l as [|a l IH]; intros acc h; simpl; [by intros; simplify_eq|].
  destruct a as [x| |b m|b|b]; simpl.
  - intros H. apply (IH (acc ++ [x]) h). by rewrite size_of_snoc.
  - apply (IH [] h).
  - case_decide; [|done]. apply IH.
  - case_decide; [|done]. apply IH.
  - case_decide; [|done]. apply IH.
Qed.

Lemma watch_unwritten t acc h u' h' :
  watch t (size_of acc, h) = Some (u', h') → u' = size_of (unwritten acc (t ≫= snd)).
Proof.
  revert acc h. induction t as [|[i acts] t IH]; intros acc h; [by intros [= <- <-]|].
  change (((i, acts) :: t) ≫= snd) with (acts ++ (t ≫= snd)). cbn [watch].
  destruct (mon_input i (size_of acc, h)) as [[u0 h0]|] eqn:Ei; [|done].
  assert (u0 = size_of acc) as -> by (destruct i; simpl in *; repeat case_match; by simplify_eq).
  destruct (mon acts (size_of acc, h0)) as [[u1 h1]|] eqn:Em; [|done].
  apply mon_unwritten in Em as ->. rewrite unwritten_app. apply IH.
Qed.

Lemma size_of_zero xs : size_of xs = 0%Z → xs = [].
Proof.
  destruct xs as [|x xs]; [done|]. simpl.
  pose proof (replyEncodedSize_pos x). pose proof (size_of_nonneg xs). lia.
Qed.

(** The phases in which the relay blocks reading from its client. *)
Definition reads_client (f : phase) : bool :=
  match f with
  | RClient | RDrain _ _ | RBatch _ | RCopyIn _ _ | RCopyBoth _ _ => true
  | _ => false
  end.

(** the relay never blocks reading from its client while a reply is still
    unwritten: whenever it waits for the client, everything it sent is on the
    wire. *)
Theorem nothing_owed o l s r t :
  trace o l (relay_init s) = Some (r, t) → reads_client (ph r) = true →
  unwritten [] (t ≫= snd) = [].
Proof.
  intros E Hr. destruct (trace_ok _ _ _ _ _ _ _ (J_init s) E) as (u & h & Hw & [_ Hs Hf _]).
  apply size_of_zero. rewrite <- (watch_unwritten t [] None u h Hw).
  rewrite Hs, Hf; [done| |]; by destruct (ph r).
Qed.

Lemma nothing_owed_witness :
  match trace demo_opts demo_inputs (relay_init demo_sess) with
  | Some (r, t) => length (t ≫= snd) = 5 ∧ unwritten [] (t ≫= snd) = []
  | None => False
  end.
Proof.
  destruct (trace demo_opts demo_inputs (relay_init demo_sess)) as [[r t]|] eqn:E.
  2: by vm_compute in E.
  split; [vm_compute in E; injection E as _ <-; reflexivity|].
  apply (nothing_owed demo_opts demo_inputs demo_sess r t E).
  vm_compute in E. injection E as <- _. reflexivity.
Defined.

End RelayTheorems.
