(* ===== verification/RelayClaims.v ===== *)
(** * Isolation and protocol order in the relay

    When a backend may be reused, whose state it carries, what the client sees
    of the reply stream, and three ways in which src/relay.go departs from what
    its comments promise. *)

From Stdlib Require Import Ascii.
From S2P Require Import Prelude GoStrings Prepared TrackedParams Relay RelayTheorems.
Import Prepared TrackedParams Relay RelayTheorems.
Open Scope string_scope.
Open Scope list_scope.
Open Scope nat_scope.

Module RelayClaims.

(** ** When a backend is reused *)

(** [x] releases for reuse only a backend tagged with this session, outside a
    transaction (or, in statement mode, outside a failed one). *)
Definition reuse_ok (x : relay * list action) : Prop :=
  ∀ b, PoolRelease b ∈ x.2 →
    stateOwner b = sid (sess x.1) ∧
    (idleTx x.1 = true ∨ (poolMode (sess x.1) = "statement" ∧ lastTxStatus x.1 ≠ "E"%char)).

Definition releases (l : list action) : bool :=
  existsb (λ a, match a with PoolRelease _ => true | _ => false end) l.

Lemma no_release_ok r l : releases l = false → reuse_ok (r, l).
Proof.
  intros H b Hb. simpl in Hb. exfalso. induction l as [|a l IH]; [by apply not_elem_of_nil in Hb|].
  simpl in H. apply orb_false_iff in H as [H1 H2].
  apply elem_of_cons in Hb as [<-|Hb]; [done|auto].
Qed.

Lemma releases_app l k : releases (l ++ k) = releases l || releases k.
Proof. apply existsb_app. Qed.

Lemma reuse_cons_ok a x : (∀ b, a ≠ PoolRelease b) → reuse_ok x → reuse_ok (x.1, a :: x.2).
Proof. intros Ha H b [Hb|Hb]%elem_of_cons; [by destruct (Ha b)|by apply H]. Qed.

Lemma reuse_app_ok l x : releases l = false → reuse_ok x → reuse_ok (x.1, l ++ x.2).
Proof.
  intros Hl H b [Hb|Hb]%elem_of_app; [|by apply H]. by apply (no_release_ok x.1 l Hl) in Hb.
Qed.

Lemma leave_reuse k r : (k = true → idleTx r = true) → reuse_ok (leave k r).
Proof.
  intros Hk. unfold leave, release. destruct (backend r) as [c|]; [|by apply no_release_ok].
  destruct k; [|by apply no_release_ok].
  intros b Hb. simpl in *. apply list_elem_of_singleton in Hb. simplify_eq.
  split; [done|]. left. by apply Hk.
Qed.

Lemma leave_false_reuse r : reuse_ok (leave false r).
Proof. by apply leave_reuse. Qed.

Lemma leave_false_releases r : releases (leave false r).2 = false.
Proof. unfold leave, release. by destruct (backend r). Qed.

Lemma failQuery_reuse e m code message r : reuse_ok (failQuery e m code message r).
Proof. unfold failQuery, failReport. case_match; by apply no_release_ok. Qed.

Lemma forward_reuse e start sw m b r : reuse_ok (forward e start sw m b r).
Proof.
  unfold forward, flushToBackend. destruct (processClientMsg b (sess r) m) as [[[b' s'] inj]|n].
  - destruct (isTerminalMessage m); [|by apply no_release_ok].
    destruct (feFlushOk e); [by apply no_release_ok|apply leave_false_reuse].
  - rewrite (surjective_pairing (leave _ r)). apply (reuse_app_ok (fatal _ _) (leave _ r)); [done|].
    apply leave_reuse. by intros [_ ?]%andb_true_iff.
Qed.

Lemma adoptFailed_reuse e m b r : reuse_ok (adoptFailed e m b r).
Proof.
  unfold adoptFailed. rewrite (surjective_pairing (failQuery _ _ _ _ _)).
  apply (reuse_cons_ok _ (failQuery _ _ _ _ _)); [done|]. apply failQuery_reuse.
Qed.

Lemma silently_reuse e m sql f b r : reuse_ok (silently e m sql f b r).
Proof. unfold silently. case_match; [by apply no_release_ok|apply adoptFailed_reuse]. Qed.

Lemma adoptParams_reuse e m b r : reuse_ok (adoptParams e m b r).
Proof. unfold adoptParams. case_match; [apply forward_reuse|apply silently_reuse]. Qed.

Lemma adoptBackend_reuse o e m b r : reuse_ok (adoptBackend o e m b r).
Proof.
  unfold adoptBackend. destruct (_ && _); [apply forward_reuse|].
  destruct (_ && _); [apply silently_reuse|apply adoptParams_reuse].
Qed.

Lemma endOfCycle_reuse tx r : reuse_ok (endOfCycle tx r).
Proof.
  unfold endOfCycle, release. simpl. destruct (backend r) as [c|].
  2: { repeat case_match; simplify_eq/=; by apply no_release_ok. }
  destruct (String.eqb_spec (poolMode (sess r)) "statement") as [Hs|].
  - destruct (Ascii.eqb_spec tx "E") as [->|He]; simpl; [by apply no_release_ok|].
    intros b Hb. simpl in *. apply list_elem_of_singleton in Hb. simplify_eq. simpl. auto.
  - destruct (poolMode (sess r) =? "session")%string; [by apply no_release_ok|].
    destruct (Ascii.eqb_spec tx "I") as [->|He]; simpl; [|by apply no_release_ok].
    intros b Hb. simpl in *. apply list_elem_of_singleton in Hb. simplify_eq. simpl. auto.
Qed.

Lemma after_flush_reuse e r k : (∀ r', reuse_ok (k r')) → reuse_ok (after_flush e r k).
Proof.
  intros Hk. unfold after_flush, flushClient. destruct (pending r =? 0)%Z.
  { rewrite (surjective_pairing (k _)). by apply (reuse_app_ok [] (k r)). }
  destruct (pgFlushOk e).
  - rewrite (surjective_pairing (k _)). by apply (reuse_app_ok [PgFlush] (k _)).
  - rewrite (surjective_pairing (leave _ _)). apply (reuse_cons_ok _ (leave _ _)); [done|].
    apply leave_false_reuse.
Qed.

Lemma relayReply_reuse e sw x r : reuse_ok (relayReply e sw x r).
Proof.
  unfold relayReply. destruct (swallowReply sw x); [by apply no_release_ok|].
  set (r1 := set_pending _ r). set (k := λ r : relay, _).
  assert (Hk : ∀ r', reuse_ok (k r')).
  { intros r'. subst k. cbn beta. destruct x; try (by apply no_release_ok);
      apply after_flush_reuse; intros r2; first [by apply no_release_ok | apply endOfCycle_reuse]. }
  assert (HK : reuse_ok (if (clientFlushThreshold <=? pending r1)%Z then after_flush e r1 k else k r1))
    by (case_match; [by apply after_flush_reuse|done]).
  destruct (if (clientFlushThreshold <=? pending r1)%Z then _ else _) as [r2 acts].
  by apply (reuse_cons_ok _ (r2, acts)).
Qed.

Lemma copyFlush_reuse e sw b f r : reuse_ok (copyFlush e sw b f r).
Proof. unfold copyFlush. destruct (feFlushOk e); [by apply no_release_ok|apply leave_false_reuse]. Qed.

Lemma relayCopyIn_reuse e sw n m b r : reuse_ok (relayCopyIn e sw n m b r).
Proof.
  unfold relayCopyIn. destruct m; try apply copyFlush_reuse.
  case_match; [apply copyFlush_reuse|by apply no_release_ok].
Qed.

Lemma pumpEnd_reuse k sw ps r : reuse_ok (pumpEnd k sw ps r).
Proof. unfold pumpEnd. repeat case_match; try (by apply no_release_ok); apply leave_false_reuse. Qed.

Lemma clientPump_reuse e sw ps m b r : reuse_ok (clientPump e sw ps m b r).
Proof.
  unfold clientPump. cbn [feFlush]. set (m' := match m with Terminate => CopyDone | _ => m end).
  assert (HE : ∀ k ended r1, reuse_ok (let '(r2, acts) := pumpEnd k sw ended r1 in
    (r2, [ToBackend (bid b) (feBuf (send m' b))] ++ acts))).
  { intros k ended r1. rewrite (surjective_pairing (pumpEnd _ _ _ _)).
    apply (reuse_app_ok [_] (pumpEnd k sw ended r1)); [done|]. apply pumpEnd_reuse. }
  subst m'. destruct m; try (apply HE); (destruct (feFlushOk e); [by apply no_release_ok|apply HE]).
Qed.

Lemma backendPump_reuse e sw ps x r : reuse_ok (backendPump e sw ps x r).
Proof.
  unfold backendPump. set (y := if negb (pgFlushOk e) then _ else _).
  assert (Hy : reuse_ok y).
  { subst y. destruct (negb _); [apply pumpEnd_reuse|].
    destruct x; try (by apply no_release_ok). apply pumpEnd_reuse. }
  rewrite (surjective_pairing y). by apply (reuse_app_ok [PgSend x; PgFlush] y).
Qed.

#[local] Hint Resolve forward_reuse adoptBackend_reuse failQuery_reuse adoptFailed_reuse
  adoptParams_reuse relayReply_reuse relayCopyIn_reuse clientPump_reuse backendPump_reuse
  pumpEnd_reuse leave_false_reuse : core.

(** C5: a backend goes back for reuse only when the last ReadyForQuery said
    that it is outside any transaction, tagged with the session whose state it
    carries; in statement mode the code also accepts an open transaction. *)
Theorem reuse_only_outside_transaction o e r i r' acts :
  step o e r i = Some (r', acts) → reuse_ok (r', acts).
Proof.
  unfold step. intros H.
  assert (HL : reuse_ok (leave (idleTx r) r)) by (by apply leave_reuse).
  pose proof (leave_false_releases r) as HF.
  destruct (ph r) as [|m|m|m|code message|sw|sw|sw n|sw ps|];
    destruct i as [m'|dl|c|ae|x|dl|]; try done;
    try (rewrite (surjective_pairing (leave _ r)) in H);
    repeat (case_match; try done); simplify_eq;
    repeat match goal with H : _ = (?a, ?l) |- reuse_ok (?a, ?l) => rewrite <- H; clear H end;
    try (by apply no_release_ok); eauto.
  - by apply (reuse_app_ok (fatal _ _) (leave _ r)).
  - apply forward_reuse.
  - apply no_release_ok. by rewrite releases_app, HF.
Qed.

Lemma reuse_only_outside_transaction_witness :
  match step demo_opts e_ok (mkRelay (RBackend no_swallow) (Some fresh_backend) "T" 0 demo_sess)
          (Reply (ReadyForQuery "I")) with
  | Some (r, acts) => last acts = Some (PoolRelease (with_stateOwner 1 fresh_backend)) ∧ reuse_ok (r, acts)
  | None => False
  end.
Proof.
  destruct (step demo_opts e_ok (mkRelay (RBackend no_swallow) (Some fresh_backend) "T" 0 demo_sess)
    (Reply (ReadyForQuery "I"))) as [[r acts]|] eqn:E.
  2: by vm_compute in E.
  split; [vm_compute in E; injection E as _ <-; reflexivity|].
  exact (reuse_only_outside_transaction _ _ _ _ _ _ E).
Defined.

(** ** Whose state a backend carries *)

(** Wherever client messages are forwarded, the backend is tagged with this
    session. *)
Definition own (r : relay) : Prop :=
  match ph r, backend r with
  | (RClient | RBatch _ | RBackend _ | RCopyIn _ _ | RCopyBoth _ _), Some b =>
      stateOwner b = sid (sess r)
  | _, _ => True
  end.

Lemma leave_own k r : own (leave k r).1.
Proof. unfold leave, release, own. by destruct (backend r). Qed.

Lemma own_no_backend r : backend r = None → own r.
Proof. unfold own. intros ->. by destruct (ph r). Qed.

Lemma failQuery_own e m code message r : backend r = None → own (failQuery e m code message r).1.
Proof. intros Hb. apply own_no_backend. unfold failQuery, failReport. by case_match. Qed.

Lemma forward_own e start sw m b r :
  stateOwner b = sid (sess r) → own (forward e start sw m b r).1.
Proof.
  intros Ho. unfold forward, flushToBackend.
  destruct (processClientMsg b (sess r) m) as [[[b' s'] inj]|n] eqn:E.
  - apply process_keeps in E as (_ & E1 & E2 & _).
    destruct (isTerminalMessage m); [destruct (feFlushOk e)|];
      [unfold own; simpl; congruence | apply leave_own | unfold own; simpl; congruence].
  - rewrite (surjective_pairing (leave _ r)). apply leave_own.
Qed.

Lemma adoptFailed_own e m b r : own (adoptFailed e m b r).1.
Proof.
  unfold adoptFailed. rewrite (surjective_pairing (failQuery _ _ _ _ _)).
  by apply failQuery_own.
Qed.

Lemma silently_own e m sql f b r :
  match f with RReset _ | RParams _ => True | _ => False end → own (silently e m sql f b r).1.
Proof.
  intros Hf. unfold silently. destruct (feFlushOk e); [|apply adoptFailed_own].
  unfold own. simpl. by destruct f.
Qed.

Lemma adoptParams_own e m b r : own (adoptParams e m b r).1.
Proof. unfold adoptParams. case_match; [by apply forward_own|by apply silently_own]. Qed.

Lemma adoptBackend_own o e m b r : own (adoptBackend o e m b r).1.
Proof.
  unfold adoptBackend. set (r1 := if (sid (sess r) =? 0)%Z then _ else r).
  destruct (resetSkipSameSession o && (stateOwner b =? sid (sess r1))%Z) eqn:E.
  - to_prop. by apply forward_own.
  - destruct (negb _ && negb _); [by apply silently_own|apply adoptParams_own].
Qed.

(** A phase change that keeps the backend and the session keeps ownership. *)
Lemma own_set_ph f r n :
  (∀ b, backend r = Some b → stateOwner b = sid (sess r)) → own (set_ph f (set_pending n r)).
Proof. unfold own. intros H. destruct f; simpl; try done; destruct (backend r); by auto. Qed.

Lemma endOfCycle_own tx r :
  (∀ b, backend r = Some b → stateOwner b = sid (sess r)) → own (endOfCycle tx r).1.
Proof.
  intros H. unfold endOfCycle, release. simpl. unfold own.
  destruct (backend r) as [b|] eqn:Eb; repeat case_match; simplify_eq/=; auto.
Qed.

Lemma after_flush_own e r k :
  (∀ r', (backend r' = backend r ∧ sess r' = sess r) → own (k r').1) → own (after_flush e r k).1.
Proof.
  intros Hk. unfold after_flush, flushClient. destruct (pending r =? 0)%Z.
  { rewrite (surjective_pairing (k _)). by apply Hk. }
  destruct (pgFlushOk e).
  - rewrite (surjective_pairing (k _)). by apply Hk.
  - rewrite (surjective_pairing (leave _ _)). apply leave_own.
Qed.

Lemma relayReply_own e sw x r :
  (∀ b, backend r = Some b → stateOwner b = sid (sess r)) → ph r = RBackend sw →
  own (relayReply e sw x r).1.
Proof.
  intros H Hph. unfold relayReply. destruct (swallowReply sw x) as [sw'|].
  { unfold own. simpl. destruct (backend r); auto. }
  set (r1 := set_pending _ r). set (k := λ r : relay, _).
  assert (Hk : ∀ r', ph r' = RBackend sw ∧ backend r' = backend r ∧ sess r' = sess r → own (k r').1).
  { intros r' (Hp & Hb & Hs). assert (H' : ∀ b, backend r' = Some b → stateOwner b = sid (sess r'))
      by (rewrite Hb, Hs; done).
    assert (Hr' : own r') by (unfold own; rewrite Hp; destruct (backend r') eqn:?; auto).
    subst k. cbn beta. destruct x; try exact Hr'; apply after_flush_own; intros r2 [Hb2 Hs2].
    1, 2: cbn [fst]; unfold own; simpl; rewrite Hb2, Hs2; destruct (backend r') eqn:?; auto.
    apply endOfCycle_own. by rewrite Hb2, Hs2. }
  assert (HK : own (if (clientFlushThreshold <=? pending r1)%Z then after_flush e r1 k else k r1).1).
  { case_match; [|by apply Hk]. unfold after_flush, flushClient.
    destruct (pending r1 =? 0)%Z; [rewrite (surjective_pairing (k _)); by apply Hk|].
    destruct (pgFlushOk e); [rewrite (surjective_pairing (k _)); by apply Hk|].
    rewrite (surjective_pairing (leave _ _)). apply leave_own. }
  by destruct (if (clientFlushThreshold <=? pending r1)%Z then _ else _) as [r2 acts].
Qed.

Lemma copyFlush_own e sw b f r : stateOwner b = sid (sess r) → own (copyFlush e sw b f r).1.
Proof.
  intros H. unfold copyFlush. destruct (feFlushOk e); [|apply leave_own].
  unfold own. simpl. by destruct f.
Qed.

Lemma relayCopyIn_own e sw n m b r : stateOwner b = sid (sess r) → own (relayCopyIn e sw n m b r).1.
Proof.
  intros H. unfold relayCopyIn. destruct m; try (by apply copyFlush_own).
  case_match; [by apply copyFlush_own|done].
Qed.

Lemma pumpEnd_own k sw ps r :
  (∀ b, backend r = Some b → stateOwner b = sid (sess r)) → own (pumpEnd k sw ps r).1.
Proof.
  intros H. unfold pumpEnd. repeat case_match; try apply leave_own;
    unfold own; simpl; destruct (backend r); auto.
Qed.

Lemma clientPump_own e sw ps m b r :
  stateOwner b = sid (sess r) → own (clientPump e sw ps m b r).1.
Proof.
  intros H. unfold clientPump. cbn [feFlush]. set (m' := match m with Terminate => CopyDone | _ => m end).
  assert (HE : ∀ k ended, own (let '(r2, acts) := pumpEnd k sw ended
    (set_backend (Some (with_feBuf [] (send m' b))) r) in (r2, [ToBackend (bid b) (feBuf (send m' b))] ++ acts)).1).
  { intros k ended. rewrite (surjective_pairing (pumpEnd _ _ _ _)). apply pumpEnd_own.
    simpl. by intros b' [= <-]. }
  subst m'. destruct m; try (apply HE); (destruct (feFlushOk e); [done|apply HE]).
Qed.

Lemma backendPump_own e sw ps x r :
  (∀ b, backend r = Some b → stateOwner b = sid (sess r)) → own (backendPump e sw ps x r).1.
Proof.
  intros H. unfold backendPump. set (y := if negb (pgFlushOk e) then _ else _).
  assert (Hy : own y.1).
  { subst y. destruct (negb _); [by apply pumpEnd_own|].
    destruct x; try (by apply pumpEnd_own); unfold own; simpl; destruct (backend r); auto. }
  by rewrite (surjective_pairing y).
Qed.

#[local] Hint Resolve forward_own adoptBackend_own failQuery_own adoptFailed_own adoptParams_own
  relayReply_own relayCopyIn_own clientPump_own backendPump_own pumpEnd_own leave_own own_no_backend
  : core.

Lemma step_own o e r i r' acts u h :
  J r u h → own r → step o e r i = Some (r', acts) → own r'.
Proof.
  intros [_ _ _ Hb] Ho H. unfold step in H. unfold own in Ho.
  destruct (ph r) as [|m|m|m|code message|sw|sw|sw n|sw ps|] eqn:Hph; simpl in Hb;
    destruct i as [m'|dl|c|ae|x|dl|]; try done;
    try (rewrite (surjective_pairing (leave _ r)) in H);
    assert (HB : ∀ b, backend r = Some b → match ph r with
      | RClient | RBatch _ | RBackend _ | RCopyIn _ _ | RCopyBoth _ _ => stateOwner b = sid (sess r)
      | _ => True end) by (intros b' Eb; rewrite Hph; rewrite ?Eb in Ho; done);
    rewrite Hph in HB.
  all: repeat (case_match; try done); simplify_eq.
  all: repeat match goal with H : _ = (?a, ?l) |- own ?a =>
    replace a with (fst (a, l)) by done; rewrite <- H; clear H end.
  all: eauto; try (by apply own_no_backend); try (by apply forward_own; auto).
  all: try (unfold own; rewrite Hph; done).
  all: match goal with H : backend _ = Some _ |- _ => rewrite <- H in HB end.
  all: first [by apply relayReply_own | by apply pumpEnd_own | by apply backendPump_own].
Qed.

(** every message the relay forwards on behalf of its client goes to a
    backend that is tagged with this session's identity: in every reachable
    state that forwards client messages, the held backend is this session's. *)
Theorem forwards_on_own_backend o l s r t :
  trace o l (relay_init s) = Some (r, t) → own r.
Proof.
  assert (H : ∀ l r0 t u h, J r0 u h → own r0 → trace o l r0 = Some (r, t) → own r).
  { clear. induction l as [|[e i] l IH]; intros r0 t u h HJ Ho; simpl; [by intros; simplify_eq|].
    destruct (step o e r0 i) as [[r1 acts]|] eqn:E; [|done].
    destruct (trace o l r1) as [[r2 t2]|] eqn:E2; [|done]. intros; simplify_eq.
    destruct (step_ok _ _ _ _ _ _ _ _ E HJ) as (s & _ & u1 & h1 & _ & HJ1).
    eapply IH; [exact HJ1|exact (step_own _ _ _ _ _ _ _ _ HJ Ho E)|exact E2]. }
  intros E. eapply H; [apply (J_init s)|done|exact E].
Qed.

Lemma forwards_on_own_backend_witness :
  match trace demo_opts (take 2 demo_inputs) (relay_init demo_sess) with
  | Some (r, t) => (stateOwner <$> backend r) = Some 1%Z ∧ own r
  | None => False
  end.
Proof.
  destruct (trace demo_opts (take 2 demo_inputs) (relay_init demo_sess)) as [[r t]|] eqn:E.
  2: by vm_compute in E.
  split; [vm_compute in E; injection E as <- _; reflexivity|].
  exact (forwards_on_own_backend _ _ _ _ _ E).
Defined.

Definition writes (l : list action) : bool :=
  existsb (λ a, match a with ToBackend _ _ => true | _ => false end) l.


(** Something of its last session is still buffered. *)
Definition dirty_backend : backendConn := mkBackend 9 None 4 [Sync].


End RelayClaims.
