(* ===== verification/RelayStream.v ===== *)
(** * What travels through the relay

    The reply stream the client sees, the report for a query that cannot be
    served, the COPY IN data stream, and four places where src/relay.go departs
    from what its comments promise. *)

From Stdlib Require Import Ascii.
From S2P Require Import Prelude GoStrings Prepared TrackedParams Relay RelayTheorems.
Import Prepared TrackedParams Relay RelayTheorems.
Open Scope string_scope.
Open Scope list_scope.
Open Scope nat_scope.

Module RelayStream.

(** ** Replies *)

Definition sent (l : list action) : list bmsg :=
  omap (λ a, match a with PgSend x => Some x | _ => None end) l.

Lemma sent_app l k : sent (l ++ k) = sent l ++ sent k.
Proof. apply omap_app. Qed.

(** Drop the first [n] elements that satisfy [f]. *)
Fixpoint drop_first (f : bmsg → bool) (n : nat) (l : list bmsg) : list bmsg :=
  match l with
  | [] => []
  | x :: l =>
      match n with
      | O => x :: l
      | S n' => if f x then drop_first f n' l else x :: drop_first f n l
      end
  end.

Definition is_pc (x : bmsg) : bool := match x with ParseComplete => true | _ => false end.
Definition is_cc (x : bmsg) : bool := match x with CloseComplete => true | _ => false end.

(** The stream the client is meant to see. *)
Definition visible (sw : psSwallow) (l : list bmsg) : list bmsg :=
  drop_first is_pc (parseComplete sw) (drop_first is_cc (closeComplete sw) l).

Lemma drop_first_skip f n x l : f x = false → drop_first f n (x :: l) = x :: drop_first f n l.
Proof. intros H. destruct n; simpl; [|by rewrite H]. by destruct l. Qed.

Lemma drop_first_zero f l : drop_first f 0 l = l.
Proof. by destruct l. Qed.

Lemma visible_cons sw x l :
  visible sw (x :: l)
  = match swallowReply sw x with Some sw' => visible sw' l | None => x :: visible sw l end.
Proof.
  unfold visible, swallowReply. destruct sw as [p c]. cbn [parseComplete closeComplete].
  destruct x; rewrite ?(drop_first_skip is_cc) by done; rewrite ?(drop_first_skip is_pc) by done;
    try done.
  - destruct p; [by rewrite !drop_first_zero|done].
  - destruct c; [|done]. rewrite !drop_first_zero. by rewrite drop_first_skip.
Qed.

(** Replies that do not end the cycle or hand over to a COPY sub-relay. *)
Definition plain (x : bmsg) : bool :=
  match x with CopyInResponse | CopyBothResponse | ReadyForQuery _ => false | _ => true end.

Lemma relayReply_plain e sw x r :
  pgFlushOk e = true → plain x = true → ph r = RBackend sw →
  ∃ n acts, relayReply e sw x r
    = (set_ph (RBackend (default sw (swallowReply sw x))) (set_pending n r), acts) ∧
    sent acts = match swallowReply sw x with Some _ => [] | None => [x] end.
Proof.
  intros He Hx Hph. destruct (swallowReply sw x) as [sw'|] eqn:Es.
  { exists (pending r), []. unfold relayReply. rewrite Es. by destruct r. }
  set (r1 := set_pending (pending r + replyEncodedSize x)%Z r).
  assert (E : relayReply e sw x r = let '(r2, acts) := if (clientFlushThreshold <=? pending r1)%Z
    then after_flush e r1 (λ r, (r, [])) else (r1, []) in (r2, PgSend x :: acts))
    by (unfold relayReply; rewrite Es; by destruct x).
  rewrite E. unfold after_flush, flushClient. rewrite He.
  assert (HR : ∀ n, set_ph (RBackend sw) (set_pending n r) = set_pending n r)
    by (intros n; destruct r; simpl in *; by subst).
  assert (HR0 : set_pending 0 r1 = set_pending 0 r) by done.
  destruct (clientFlushThreshold <=? pending r1)%Z; [destruct (pending r1 =? 0)%Z|];
    eexists _, _; (split; [simpl; rewrite HR; reflexivity|done]).
Qed.

Definition replies (e : env) (xs : list bmsg) : list (env * input) := (λ x, (e, Reply x)) <$> xs.

(** C14: until the end of the response cycle the client is sent exactly the
    backend's replies, in order, minus as many ParseCompletes and CloseCompletes
    as the proxy injected Parses and Closes. *)
Theorem replies_forwarded o e sw xs r :
  pgFlushOk e = true → forallb plain xs = true → ph r = RBackend sw →
  ∃ r' acts, run o (replies e xs) r = Some (r', acts) ∧ sent acts = visible sw xs ∧
    ∃ sw', ph r' = RBackend sw'.
Proof.
  intros He. revert sw r. induction xs as [|x xs IH]; intros sw r Hx Hph.
  { exists r, []. split; [done|]. split; [|by exists sw].
    unfold visible. by destruct (parseComplete sw), (closeComplete sw). }
  simpl in Hx. apply andb_true_iff in Hx as [Hx Hxs].
  destruct (relayReply_plain e sw x r He Hx Hph) as (n & acts & E & Hs).
  change (replies e (x :: xs)) with ((e, Reply x) :: replies e xs). cbn [run].
  unfold step. rewrite Hph. rewrite E.
  destruct (IH (default sw (swallowReply sw x))
    (set_ph (RBackend (default sw (swallowReply sw x)))
        (set_pending n r))) as (r' & acts' & -> & Hs' & Hph'); try done.
  eexists _, _. split; [done|]. split; [|done].
  rewrite sent_app, Hs, Hs', visible_cons. by destruct (swallowReply sw x).
Qed.

Lemma replies_forwarded_witness :
  ∃ r' acts, run demo_opts (replies e_ok [ParseComplete; OtherB "BindComplete"; DataRow ["1"]])
    (mkRelay (RBackend (mkSwallow 1 0)) (Some fresh_backend) "I" 0 demo_sess) = Some (r', acts)
    ∧ sent acts = [OtherB "BindComplete"; DataRow ["1"]].
Proof.
  destruct (replies_forwarded demo_opts e_ok (mkSwallow 1 0)
    [ParseComplete; OtherB "BindComplete"; DataRow ["1"]]
    (mkRelay (RBackend (mkSwallow 1 0)) (Some fresh_backend) "I" 0 demo_sess))
    as (r' & acts & H1 & H2 & _); [reflexivity..|].
  exists r', acts. exact (conj H1 H2).
Defined.

(** ** A query that cannot be served *)

Definition clients (e : env) (ms : list fmsg) : list (env * input) := (λ m, (e, Client m)) <$> ms.

(** A batch: messages before the terminal one, then the terminal one. *)
Definition is_batch (ms : list fmsg) (m : fmsg) : bool :=
  forallb (λ m, negb (isTerminalMessage m) && negb (isTerminate m)) ms && isTerminalMessage m.

Lemma drain_run o e code message ms m r :
  pgFlushOk e = true → is_batch ms m = true → ph r = RDrain code message →
  run o (clients e (ms ++ [m])) r
  = Some (set_ph RClient r,
      [PgSend (ErrorResponse "ERROR" code message); PgSend (ReadyForQuery "I"); PgFlush]).
Proof.
  intros He Hb Hph. apply andb_true_iff in Hb as [Hms Hm].
  induction ms as [|m0 ms IH]; cbn [app clients fmap list_fmap run].
  - unfold step. rewrite Hph. unfold failReport. rewrite He.
    destruct m; try done; destruct r; simpl; done.
  - simpl in Hms. apply andb_true_iff in Hms as [H0 Hms].
    apply andb_true_iff in H0 as [H1 H2]. apply negb_true_iff in H1, H2.
    unfold step. rewrite Hph, H1, H2. unfold clients in IH. by rewrite IH.
Qed.

(** when no backend can be had for a query, the client gets exactly one
    ERROR and one ReadyForQuery, after the rest of its pipelined batch has been
    read up to the terminal message, and the session goes on. *)
Theorem failed_query_reported_once o e m0 ms m text r :
  pgFlushOk e = true → is_batch (m0 :: ms) m = true → ph r = RAcquire m0 →
  run o ((e, AcquireErr (AcqOther text)) :: clients e (ms ++ [m])) r
  = Some (set_ph RClient r,
      [PgSend (ErrorResponse "ERROR" "53300" ("no backend connection available: " +:+ text));
       PgSend (ReadyForQuery "I"); PgFlush]).
Proof.
  intros He Hb Hph. apply andb_true_iff in Hb as [Hms Hm]. simpl in Hms.
  apply andb_true_iff in Hms as [H0 Hms]. apply andb_true_iff in H0 as [H1 _].
  apply negb_true_iff in H1. cbn [run]. unfold step at 1. rewrite Hph. unfold failQuery. rewrite H1.
  rewrite (drain_run o e "53300" ("no backend connection available: " +:+ text) ms m); try done.
  unfold is_batch. by rewrite Hms.
Qed.

Lemma failed_query_reported_once_witness :
  run demo_opts ((e_ok, AcquireErr (AcqOther "timeout")) ::
    clients e_ok [Bind "" ""; Execute ""; Sync])
    (mkRelay (RAcquire (Parse "" "select 1" [])) None "I" 0 demo_sess)
  = Some (mkRelay RClient None "I" 0 demo_sess,
      [PgSend (ErrorResponse "ERROR" "53300" "no backend connection available: timeout");
       PgSend (ReadyForQuery "I"); PgFlush]).
Proof.
  exact (failed_query_reported_once demo_opts e_ok (Parse "" "select 1" []) [Bind "" ""; Execute ""]
    Sync "timeout" (mkRelay (RAcquire (Parse "" "select 1" [])) None "I" 0 demo_sess)
    eq_refl eq_refl eq_refl).
Defined.

(** ** COPY IN *)

Definition written (l : list action) : list fmsg :=
  l ≫= (λ a, match a with ToBackend _ ms => ms | _ => [] end).

Lemma written_app l k : written (l ++ k) = written l ++ written k.
Proof. apply bind_app. Qed.

Definition is_copy_data (m : fmsg) : bool := match m with CopyData _ => true | _ => false end.

Lemma relayCopyIn_data e sw n d b r :
  feFlushOk e = true →
  ∃ n' b' acts, relayCopyIn e sw n (CopyData d) b r
    = (set_ph (RCopyIn sw n') (set_backend (Some b') r), acts) ∧
    written acts ++ feBuf b' = feBuf b ++ [CopyData d].
Proof.
  intros He. unfold relayCopyIn, copyFlush. rewrite He. destruct (flushEvery <=? S n).
  - eexists 0, _, _. split; [reflexivity|]. simpl. by rewrite !app_nil_r.
  - eexists (S n), _, _. split; [reflexivity|]. done.
Qed.

(** COPY FROM STDIN delivers the client's data stream to the backend
    complete and in order, and by the time the relay waits for the backend's
    answer the end of the copy has been written. *)
Theorem copy_in_complete o e sw n ds b r :
  feFlushOk e = true → forallb is_copy_data ds = true →
  ph r = RCopyIn sw n → backend r = Some b →
  ∃ r' acts, run o (clients e (ds ++ [CopyDone])) r = Some (r', acts) ∧ ph r' = RBackend sw ∧
    written acts = feBuf b ++ ds ++ [CopyDone].
Proof.
  intros He. revert n b r. induction ds as [|d ds IH]; intros n b r Hd Hph Hb.
  - cbn [app clients fmap list_fmap run]. unfold step. rewrite Hph, Hb. unfold relayCopyIn, copyFlush.
    rewrite He. eexists _, _. split; [reflexivity|]. split; [done|].
    unfold written. simpl. by rewrite !app_nil_r.
  - simpl in Hd. apply andb_true_iff in Hd as [Hd Hds]. destruct d as [| | | | | | | |data| | | |]; try done.
    destruct (relayCopyIn_data e sw n data b r He) as (n' & b' & acts & E & Hw).
    change (clients e ((CopyData data :: ds) ++ [CopyDone]))
      with ((e, Client (CopyData data)) :: clients e (ds ++ [CopyDone])).
    cbn [run]. unfold step. rewrite Hph, Hb, E.
    destruct (IH n' b' (set_ph (RCopyIn sw n') (set_backend (Some b') r)))
      as (r' & acts' & -> & Hph' & Hw'); try done.
    eexists _, _. split; [reflexivity|]. split; [done|].
    rewrite written_app, Hw', app_assoc, Hw. by rewrite <- app_assoc.
Qed.

Lemma copy_in_complete_witness :
  ∃ r' acts, run demo_opts (clients e_ok [CopyData "a"; CopyData "b"; CopyDone])
    (mkRelay (RCopyIn no_swallow 31) (Some fresh_backend) "T" 0 demo_sess) = Some (r', acts)
    ∧ written acts = [CopyData "a"; CopyData "b"; CopyDone].
Proof.
  destruct (copy_in_complete demo_opts e_ok no_swallow 31 [CopyData "a"; CopyData "b"] fresh_backend
    (mkRelay (RCopyIn no_swallow 31) (Some fresh_backend) "T" 0 demo_sess))
    as (r' & acts & H1 & _ & H2); [reflexivity..|].
  exists r', acts. exact (conj H1 H2).
Defined.

(** ** Departures from the documentation *)

(** once a COPY BOTH exchange has ended cleanly (the client's CopyDone,
    then the backend's ReadyForQuery, which the pump forwards itself), the relay
    waits for another backend message: it keeps the backend, keeps the old
    transaction status, and takes no further input from its client. *)
Theorem copy_both_end_blocks_client o e sw tx r :
  pgFlushOk e = true → ph r = RCopyBoth sw (mkPumps false true (Some true)) →
  ∃ r', step o e r (Reply (ReadyForQuery tx)) = Some (r', [PgSend (ReadyForQuery tx); PgFlush]) ∧
    ph r' = RBackend sw ∧ backend r' = backend r ∧ lastTxStatus r' = lastTxStatus r ∧
    ∀ o2 e2 m dl, step o2 e2 r' (Client m) = None ∧ step o2 e2 r' (ClientErr dl) = None.
Proof.
  intros He Hph. exists (set_ph (RBackend sw) r). unfold step at 1. rewrite Hph. simpl.
  unfold backendPump. rewrite He. simpl. split; [done|]. by split_and!.
Qed.

Lemma copy_both_end_blocks_client_witness :
  ∃ r', step demo_opts e_ok
    (mkRelay (RCopyBoth no_swallow (mkPumps false true (Some true))) (Some fresh_backend) "I" 0 demo_sess)
    (Reply (ReadyForQuery "I")) = Some (r', [PgSend (ReadyForQuery "I"); PgFlush])
    ∧ backend r' = Some fresh_backend.
Proof.
  destruct (copy_both_end_blocks_client demo_opts e_ok no_swallow "I"
    (mkRelay (RCopyBoth no_swallow (mkPumps false true (Some true))) (Some fresh_backend) "I" 0 demo_sess)
    eq_refl eq_refl) as (r' & H1 & _ & H2 & _).
  exists r'. exact (conj H1 H2).
Defined.

(** A client that disconnects in the middle of an extended-protocol batch, after
    an earlier transaction ended cleanly. *)
Definition abandoned : list (env * input) :=
  demo_inputs ++
  ((λ i, (e_ok, i)) <$>
   [Client (Parse "" "delete from t" []); Acquired fresh_backend; Client (Bind "" "");
    Client (Execute ""); ClientErr false]).

(** such a backend is put back for reuse with the abandoned batch still in
    its write buffer, and the next session's first flush sends it. *)
Theorem abandoned_batch_is_pooled :
  ∃ r t b, trace demo_opts abandoned (relay_init demo_sess) = Some (r, t) ∧
    PoolRelease b ∈ (t ≫= snd) ∧
    feBuf b = [Parse "" "delete from t" []; Bind "" ""; Execute ""].
Proof.
  destruct (trace demo_opts abandoned (relay_init demo_sess)) as [[r t]|] eqn:E.
  2: by vm_compute in E.
  exists r, t, (mkBackend 3 None 1 [Parse "" "delete from t" []; Bind "" ""; Execute ""]).
  split; [done|]. split; [|done]. vm_compute in E. injection E as _ <-. vm_compute.
  repeat (first [by left | right]).
Qed.

(** The client prepares [a], describes it, and binds [b], which this backend
    has not seen; the server answers in order. *)
Definition own_parse : list (env * input) :=
  (λ i, (e_ok, i)) <$>
  [Client (Parse "a" "select 1" []); Acquired fresh_backend; Client (Describe "S" "a");
   Client (Bind "b" ""); Client Sync;
   Reply ParseComplete; Reply (OtherB "ParameterDescription"); Reply (OtherB "NoData");
   Reply ParseComplete; Reply (OtherB "BindComplete")].

Definition knows_b : session :=
  mkSession 1 "transaction" (Some {[ "b" := mkInfo "select 2" [] ]}) 200 0 false false [].

(** the proxy injects the Parse of [b] after the client's own Parse, but
    swallows the first ParseComplete it sees: the client gets its statement
    description before the ParseComplete it is waiting for. *)
Theorem swallow_takes_the_clients_ack :
  ∃ r acts, run demo_opts own_parse (relay_init knows_b) = Some (r, acts) ∧
    written acts = [Parse "a" "select 1" []; Describe "S" "a"; Parse "b" "select 2" [];
                    Bind "b" ""; Sync] ∧
    sent acts = [OtherB "ParameterDescription"; OtherB "NoData"; ParseComplete;
                 OtherB "BindComplete"].
Proof.
  destruct (run demo_opts own_parse (relay_init knows_b)) as [[r acts]|] eqn:E.
  2: by vm_compute in E.
  exists r, acts. vm_compute in E. injection E as <- <-. by vm_compute.
Qed.

(** in statement mode a backend with an open transaction goes back to the
    pool for reuse by another client, locks included. *)
Theorem statement_mode_pools_open_transaction o e sw r b :
  poolMode (sess r) = "statement" → ph r = RBackend sw → backend r = Some b → pgFlushOk e = true →
  ∃ r' acts, step o e r (Reply (ReadyForQuery "T")) = Some (r', acts) ∧
    PoolRelease (with_stateOwner (sid (sess r)) b) ∈ acts.
Proof.
  intros Hm Hph Hb He. unfold step. rewrite Hph.
  assert (HE : ∀ n, (endOfCycle "T" (set_pending n r)).2 = [PoolRelease (with_stateOwner (sid (sess r)) b)]).
  { intros n. unfold endOfCycle, release. cbn [set_tx set_pending sess backend]. by rewrite Hm, Hb. }
  destruct (relayReply e sw (ReadyForQuery "T") r) as [r' acts] eqn:E. exists r', acts.
  split; [done|]. unfold relayReply, after_flush, flushClient in E. rewrite He in E.
  cbn [swallowReply] in E.
  repeat match type of E with context [if ?c then _ else _] => destruct c end;
    repeat match type of E with context [endOfCycle "T" (set_pending ?n ?q)] =>
      pose proof (HE n) as HEn;
      change (set_pending n q) with (set_pending n r) in E;
      destruct (endOfCycle "T" (set_pending n r)) as [r2 l2] end;
    simplify_eq/=; set_solver.
Qed.

Lemma statement_mode_pools_open_transaction_witness :
  ∃ r' acts, step demo_opts e_ok
    (mkRelay (RBackend no_swallow) (Some fresh_backend) "I" 0
       (mkSession 1 "statement" None 200 0 false false []))
    (Reply (ReadyForQuery "T")) = Some (r', acts) ∧
    PoolRelease (with_stateOwner 1 fresh_backend) ∈ acts.
Proof.
  apply (statement_mode_pools_open_transaction demo_opts e_ok no_swallow
    (mkRelay (RBackend no_swallow) (Some fresh_backend) "I" 0
       (mkSession 1 "statement" None 200 0 false false [])) fresh_backend); reflexivity.
Defined.

End RelayStream.
