(* ===== verification/HBA.v ===== *)
(** * Host-based authentication

    src/hba.go: the tokenizer and parser of auth_hba_file lines, rule matching,
    and the decision HBAAuth takes for a connection.  A line is the sequence of
    runes Go's range loop yields, one integer per code point; [net.ParseCIDR]
    and [IPNet.Contains] are modelled for IPv4 and IPv6. *)

From Stdlib Require Import Ascii.
From S2P Require Import Prelude GoStrings.
Open Scope string_scope.
Open Scope list_scope.
Open Scope Z_scope.

Module HBA.

(** ** Runes *)

Abbreviation rune := Z (only parsing).
Abbreviation text := (list Z).

(** An ASCII literal as runes. *)
Fixpoint lit (s : string) : text :=
  match s with EmptyString => [] | String c s => Z.of_nat (nat_of_ascii c) :: lit s end.

Definition DQUOTE : rune := 34.
Definition COMMA : rune := 44.
Definition HASH : rune := 35.
Definition BLANK : rune := 32.

(** [unicode.IsSpace] *)
Definition IsSpace (r : rune) : bool :=
  ((9 <=? r) && (r <=? 13)) || (r =? 32) || (r =? 133) || (r =? 160) || (r =? 5760)
  || ((8192 <=? r) && (r <=? 8202)) || (r =? 8232) || (r =? 8233) || (r =? 8239)
  || (r =? 8287) || (r =? 12288).

Definition lower (r : rune) : rune := if (65 <=? r) && (r <=? 90) then r + 32 else r.

(** Case folding.  ASCII letters fold to lower case, and the two other runes
    with an ASCII letter in their folding orbit are the long s and the Kelvin
    sign; the folding of the remaining runes is Unicode data, the parameter
    [fold_other]. *)
Class UnicodeFold := fold_other : rune → rune.

Definition fold_rune `{UnicodeFold} (r : rune) : rune :=
  if r <? 128 then lower r
  else if r =? 383 then 115
  else if r =? 8490 then 107
  else fold_other r.

Definition EqualFold `{UnicodeFold} (a b : text) : bool :=
  bool_decide (map fold_rune a = map fold_rune b).

(** [strings.ToLower] compared with an ASCII keyword without i and k: no other
    rune lowers into one of its letters. *)
Definition lowerIs (s : text) (w : string) : bool := bool_decide (map lower s = lit w).

(** ** Tokenizer *)

Record hbaItem := mkItem { value : text; quoted : bool }.

#[export] Instance hbaItem_eq_dec : EqDecision hbaItem.
Proof. solve_decision. Defined.

Definition isKeyword `{UnicodeFold} (i : hbaItem) (word : string) : bool :=
  negb (quoted i) && EqualFold (value i) (lit word).

Record tok := mkTok {
  fields : list (list hbaItem);
  cur : list hbaItem;
  item : text;
  qtd : bool;
  inQuotes : bool;
  started : bool;
  afterComma : bool;
}.

Definition tok_init : tok := mkTok [] [] [] false false false false.

Definition endItem (t : tok) : tok :=
  mkTok (fields t) (cur t ++ [mkItem (item t) (qtd t)]) [] false (inQuotes t) false (afterComma t).

Definition endField (t : tok) : tok :=
  let t := if started t then endItem t else t in
  match cur t with
  | [] => t
  | c => mkTok (fields t ++ [c]) [] (item t) (qtd t) (inQuotes t) (started t) (afterComma t)
  end.

(** One rune of the line. *)
Definition tok_step (t : tok) (r : rune) : tok :=
  if inQuotes t then
    if r =? DQUOTE
    then mkTok (fields t) (cur t) (item t) (qtd t) false (started t) (afterComma t)
    else mkTok (fields t) (cur t) (item t ++ [r]) (qtd t) true true (afterComma t)
  else if r =? DQUOTE then mkTok (fields t) (cur t) (item t) true true true false
  else if r =? COMMA then
    let t :=
      if started t then endItem t
      else match cur t, rev (fields t) with
           | [], last :: before =>
               mkTok (rev before) last (item t) (qtd t) false (started t) (afterComma t)
           | _, _ => t
           end in
    mkTok (fields t) (cur t) (item t) (qtd t) (inQuotes t) (started t) true
  else if IsSpace r then
    let t := if started t then endItem t else t in
    if afterComma t then t else endField t
  else mkTok (fields t) (cur t) (item t ++ [r]) (qtd t) false true false.

(** [None] is the unterminated-quote error. *)
Definition tokenizeHBALine (raw : text) : option (list (list hbaItem)) :=
  let t := foldl tok_step tok_init raw in
  if inQuotes t then None else Some (fields (endField t)).

(** ** Addresses *)

(** An [net.IP]: 4 or 16 bytes. *)
Abbreviation IP := (list Z).

Definition v4_prefix : IP := [0; 0; 0; 0; 0; 0; 0; 0; 0; 0; 255; 255].

Definition To4 (ip : IP) : option IP :=
  if (length ip =? 4)%nat then Some ip
  else if (length ip =? 16)%nat && bool_decide (take 12 ip = v4_prefix) then Some (drop 12 ip)
  else None.

Definition IsLoopback (ip : IP) : bool :=
  match To4 ip with
  | Some v4 => match v4 with b :: _ => b =? 127 | [] => false end
  | None => bool_decide (ip = replicate 15 0 ++ [1])
  end.

Record IPNet := mkNet { net_ip : IP; net_mask : IP }.

(** The mask with [n] leading ones on [k] bytes. *)
Fixpoint cidr_mask (n : Z) (k : nat) : IP :=
  match k with
  | O => []
  | S k => (if 8 <=? n then 255 else if n <=? 0 then 0 else 256 - 2 ^ (8 - n)) :: cidr_mask (n - 8) k
  end.

Definition mask_ip (ip mask : IP) : IP := zip_with Z.land ip mask.

(** [IPNet.Contains]; the network and its mask have the same length. *)
Definition Contains (n : IPNet) (ip : IP) : bool :=
  let nn := match To4 (net_ip n) with Some v4 => v4 | None => net_ip n end in
  let m := if (length nn =? 4)%nat && (length (net_mask n) =? 16)%nat
           then drop 12 (net_mask n) else net_mask n in
  let x := match To4 ip with Some v4 => v4 | None => ip end in
  (length x =? length nn)%nat && bool_decide (mask_ip nn m = mask_ip x m).

(** ** Parsing an address *)

Definition digit (r : rune) : option Z := if (48 <=? r) && (r <=? 57) then Some (r - 48) else None.

Definition hexdigit (r : rune) : option Z :=
  if (48 <=? r) && (r <=? 57) then Some (r - 48)
  else if (97 <=? r) && (r <=? 102) then Some (r - 87)
  else if (65 <=? r) && (r <=? 70) then Some (r - 55)
  else None.

(** A decimal number; [None] when a rune is not a digit or there is none. *)
Definition decimal (s : text) : option Z :=
  match s with
  | [] => None
  | _ => foldl (λ acc r, match acc, digit r with
                         | Some n, Some d => Some (10 * n + d)
                         | _, _ => None
                         end) (Some 0) s
  end.

(** One octet of an IPv4 address: at most 255, no leading zero. *)
Definition octet (s : text) : option Z :=
  match decimal s with
  | Some n => if (n <=? 255) && ((length s =? 1)%nat || negb (bool_decide (head s = Some 48)))
              then Some n else None
  | None => None
  end.

Fixpoint split_on (sep : rune) (s : text) : list text :=
  match s with
  | [] => [[]]
  | r :: s =>
      if r =? sep then [] :: split_on sep s
      else match split_on sep s with
           | w :: ws => (r :: w) :: ws
           | [] => [[r]]
           end
  end.

Fixpoint mapM_opt {A B} (f : A → option B) (l : list A) : option (list B) :=
  match l with
  | [] => Some []
  | x :: l => match f x, mapM_opt f l with Some y, Some ys => Some (y :: ys) | _, _ => None end
  end.

Definition parseIPv4 (s : text) : option IP :=
  match split_on 46 s with
  | [a; b; c; d] => mapM_opt octet [a; b; c; d]
  | _ => None
  end.

(** One group of an IPv6 address: one to four hex digits, two bytes. *)
Definition group (s : text) : option IP :=
  if ((length s =? 0) || (4 <? length s))%nat then None
  else match foldl (λ acc r, match acc, hexdigit r with
                             | Some n, Some d => Some (16 * n + d)
                             | _, _ => None
                             end) (Some 0) s with
       | Some n => Some [n / 256; n `mod` 256]
       | None => None
       end.

(** A colon-separated sequence of groups; at the end of the address the last
    one may be an IPv4 address. *)
Fixpoint groups (at_end : bool) (ws : list text) : option IP :=
  match ws with
  | [] => Some []
  | [w] => match group w with
           | Some g => Some g
           | None => if at_end then parseIPv4 w else None
           end
  | w :: ws =>
      match group w, groups at_end ws with Some g, Some gs => Some (g ++ gs) | _, _ => None end
  end.

(** Split at the first double colon. *)
Fixpoint split_ellipsis (s : text) : option (text * text) :=
  match s with
  | a :: ((b :: rest) as s') =>
      if (a =? 58) && (b =? 58) then Some ([], rest)
      else match split_ellipsis s' with Some (x, y) => Some (a :: x, y) | None => None end
  | _ => None
  end.

Definition side (at_end : bool) (s : text) : option IP :=
  match s with [] => Some [] | _ => groups at_end (split_on 58 s) end.

Definition parseIPv6 (s : text) : option IP :=
  match split_ellipsis s with
  | None => match groups true (split_on 58 s) with
            | Some g => if (length g =? 16)%nat then Some g else None
            | None => None
            end
  | Some (x, y) =>
      match side false x, side true y with
      | Some g, Some h =>
          if (length g + length h <=? 14)%nat
          then Some (g ++ replicate (16 - length g - length h)%nat 0 ++ h) else None
      | _, _ => None
      end
  end.

(** [net.ParseCIDR], its network part. *)
Definition ParseCIDR (s : text) : option IPNet :=
  match split_on 47 s with
  | [addr; bits] =>
      match decimal bits with
      | None => None
      | Some n =>
          match (if bool_decide (58 ∈ addr) then parseIPv6 addr else parseIPv4 addr) with
          | None => None
          | Some ip =>
              let k := length ip in
              if n <=? 8 * Z.of_nat k
              then Some (mkNet (mask_ip ip (cidr_mask n k)) (cidr_mask n k)) else None
          end
      end
  | _ => None
  end.

(** ** Rules *)

Inductive HBAConnType := HBAHostAny | HBAHostSSL | HBAHostNoSSL | HBALocal.
Inductive HBAMethod := HBAMethodTrust | HBAMethodReject | HBAMethodSCRAM | HBAMethodPeer | HBAMethodCert.

Record HBARule := mkRule {
  Type_ : HBAConnType;
  AllDatabases : bool;
  AllUsers : bool;
  Databases : list text;
  Users : list text;
  Net : option IPNet;
  Samehost : bool;
  Method : HBAMethod;
}.

Inductive hbaErr :=
| ErrQuote | ErrTooFew | ErrTooMany (n : nat) | ErrType | ErrList (what : string)
| ErrEmpty (what : string) | ErrEmptyName (what : string) | ErrAddress | ErrMethod.

Definition singleItem (f : list hbaItem) (what : string) : result hbaErr hbaItem :=
  match f with [i] => Ok i | _ => Err (ErrList what) end.

Fixpoint nameLoop `{UnicodeFold} (f : list hbaItem) (names : list text) (what : string) :
  result hbaErr (bool * list text) :=
  match f with
  | [] => Ok (false, names)
  | i :: f =>
      if isKeyword i "all" then Ok (true, [])
      else match value i with
           | [] => Err (ErrEmptyName what)
           | v => nameLoop f (names ++ [v]) what
           end
  end.

Definition parseNameList `{UnicodeFold} (f : list hbaItem) (what : string) :
  result hbaErr (bool * list text) :=
  match f with [] => Err (ErrEmpty what) | _ => nameLoop f [] what end.

Definition parseType (s : text) : option HBAConnType :=
  if lowerIs s "host" then Some HBAHostAny
  else if lowerIs s "hostssl" then Some HBAHostSSL
  else if lowerIs s "hostnossl" then Some HBAHostNoSSL
  else if lowerIs s "local" then Some HBALocal
  else None.

Definition parseMethod (s : text) : option HBAMethod :=
  if lowerIs s "trust" then Some HBAMethodTrust
  else if lowerIs s "reject" then Some HBAMethodReject
  else if lowerIs s "scram-sha-256" then Some HBAMethodSCRAM
  else if lowerIs s "peer" then Some HBAMethodPeer
  else if lowerIs s "cert" then Some HBAMethodCert
  else None.

Definition parseAddress `{UnicodeFold} (a : hbaItem) : result hbaErr (option IPNet * bool) :=
  if isKeyword a "all" then Ok (None, false)
  else if isKeyword a "samehost" then Ok (None, true)
  else match ParseCIDR (value a) with Some n => Ok (Some n, false) | None => Err ErrAddress end.

Definition parseFields `{UnicodeFold} (fs : list (list hbaItem)) : result hbaErr HBARule :=
  match fs with
  | [f0; f1; f2; f3; f4] =>
      let? ty := singleItem f0 "TYPE" in
      match parseType (value ty) with
      | None => Err ErrType
      | Some t =>
          let? (allDb, dbs) := parseNameList f1 "DATABASE" in
          let? (allU, us) := parseNameList f2 "USER" in
          let? a := singleItem f3 "ADDRESS" in
          let? (n, same) := parseAddress a in
          let? me := singleItem f4 "METHOD" in
          match parseMethod (value me) with
          | None => Err ErrMethod
          | Some mt => Ok (mkRule t allDb allU dbs us n same mt)
          end
      end
  | _ => if (length fs <? 5)%nat then Err ErrTooFew else Err (ErrTooMany (length fs))
  end.

Definition parseHBALine `{UnicodeFold} (raw : text) : result hbaErr HBARule :=
  match tokenizeHBALine raw with None => Err ErrQuote | Some fs => parseFields fs end.

(** [strings.TrimSpace] on runes. *)
Fixpoint trim_front (s : text) : text :=
  match s with r :: s' => if IsSpace r then trim_front s' else s | [] => [] end.
Definition TrimSpace (s : text) : text := rev (trim_front (rev (trim_front s))).

(** The loop of LoadHBAFile over the file's lines: each rule with its line
    number, or the first line that does not parse. *)
Fixpoint loadLines `{UnicodeFold} (line : nat) (ls : list text) :
  result (nat * hbaErr) (list (HBARule * nat)) :=
  match ls with
  | [] => Ok []
  | l :: ls =>
      let raw := TrimSpace l in
      match raw with
      | [] => loadLines (S line) ls
      | r :: _ =>
          if r =? HASH then loadLines (S line) ls
          else match parseHBALine raw with
               | Err e => Err (line, e)
               | Ok rule =>
                   let? rules := loadLines (S line) ls in Ok ((rule, line) :: rules)
               end
      end
  end.

(** ** Matching *)

Definition matchHBAType (t : HBAConnType) (tls isUnix : bool) : bool :=
  match t with
  | HBALocal => isUnix
  | HBAHostAny => negb isUnix
  | HBAHostSSL => negb isUnix && tls
  | HBAHostNoSSL => negb isUnix && negb tls
  end.

Definition matchHBAName `{UnicodeFold} (all : bool) (names : list text) (val : text) : bool :=
  all || existsb (λ n, EqualFold n val) names.

Definition matchHBAAddr (r : HBARule) (ip : option IP) : bool :=
  if Samehost r then match ip with Some ip => IsLoopback ip | None => false end
  else match Net r with
       | None => true
       | Some n => match ip with Some ip => Contains n ip | None => false end
       end.

Definition matches `{UnicodeFold} (tls isUnix : bool) (ip : option IP) (user database : text)
  (r : HBARule) : bool :=
  matchHBAType (Type_ r) tls isUnix && matchHBAName (AllDatabases r) (Databases r) database
  && matchHBAName (AllUsers r) (Users r) user && matchHBAAddr r ip.

Fixpoint MatchHBA `{UnicodeFold} (rules : list HBARule) (tls isUnix : bool) (ip : option IP)
  (user database : text) : option HBARule :=
  match rules with
  | [] => None
  | r :: rules =>
      if matches tls isUnix ip user database r then Some r
      else MatchHBA rules tls isUnix ip user database
  end.

(** ** The decision *)

(** What HBAAuth sees of a connection: the TLS and socket kind, the client
    certificate's common name, the peer credential lookup (the platform, the
    uid's user name), the inner backend's verdict. *)
Record connection := mkConn {
  isTLS : bool;
  isUnix : bool;
  remoteIP : option IP;
  peerCN : option text;
  peerCredSupported : bool;
  peerUser : option text;
  innerOk : bool;
}.

(** How an attempt ends: accepted, or refused, with a FATAL 28000 of its own
    ([hbaReject]) unless the inner backend reported the failure. *)
Inductive verdict := Accept | Refuse (reported : bool).

Definition authenticatePeer (c : connection) (user : text) : verdict :=
  if negb (isUnix c) then Refuse true
  else if negb (peerCredSupported c) then Refuse true
  else match peerUser c with
       | None => Refuse true
       | Some u => if bool_decide (u = user) then Accept else Refuse true
       end.

Definition authenticateCert (c : connection) (user : text) : verdict :=
  if negb (isTLS c) then Refuse true
  else match peerCN c with
       | None => Refuse true
       | Some cn => if bool_decide (cn = user) then Accept else Refuse true
       end.

Definition Authenticate `{UnicodeFold} (rules : list HBARule) (c : connection)
  (user database : text) : verdict :=
  match MatchHBA rules (isTLS c) (isUnix c) (remoteIP c) user database with
  | None => Refuse true
  | Some r =>
      match Method r with
      | HBAMethodTrust => Accept
      | HBAMethodReject => Refuse true
      | HBAMethodSCRAM => if innerOk c then Accept else Refuse false
      | HBAMethodPeer => authenticatePeer c user
      | HBAMethodCert => authenticateCert c user
      end
  end.

(** [NewHBAAuth]: without rules the inner backend decides. *)
Definition NewHBAAuth `{UnicodeFold} (rules : list HBARule) (c : connection)
  (user database : text) : verdict :=
  match rules with
  | [] => if innerOk c then Accept else Refuse false
  | _ => Authenticate rules c user database
  end.

End HBA.
