(* ===== verification/HBATheorems.v ===== *)
(** * Correctness of host-based authentication

    Printing a rule and parsing the line gives the rule back, whatever bytes the
    names contain; and HBAAuth lets a connection in only on the strength of the
    first rule that matches it. *)

From Stdlib Require Import Ascii.
From S2P Require Import Prelude GoStrings HBA.
Import HBA.
Open Scope string_scope.
Open Scope list_scope.
Open Scope Z_scope.

Module HBATheorems.

(** ** Printing *)

Definition plain_rune (r : Z) : bool := negb (IsSpace r || (r =? DQUOTE) || (r =? COMMA)).

Definition printable (i : hbaItem) : bool :=
  if quoted i then bool_decide (DQUOTE ∉ value i)
  else negb (bool_decide (value i = [])) && forallb plain_rune (value i).

Definition print_item (i : hbaItem) : text :=
  if quoted i then DQUOTE :: value i ++ [DQUOTE] else value i.

(** Items separated by a comma and a blank, fields by a blank. *)
Fixpoint print_field (f : list hbaItem) : text :=
  match f with
  | [] => []
  | [i] => print_item i
  | i :: f => print_item i ++ [COMMA; BLANK] ++ print_field f
  end.

Fixpoint print_line (fs : list (list hbaItem)) : text :=
  match fs with
  | [] => []
  | [f] => print_field f
  | f :: fs => print_field f ++ [BLANK] ++ print_line fs
  end.

(** ** The tokenizer reads it back *)

(** Between items, and at the end of one. *)
Definition between (fs : list (list hbaItem)) (c : list hbaItem) (ac : bool) : tok :=
  mkTok fs c [] false false false ac.
Definition at_end (fs : list (list hbaItem)) (c : list hbaItem) (i : hbaItem) : tok :=
  mkTok fs c (value i) (quoted i) false true false.

Lemma feed_quoted v fs c it :
  DQUOTE ∉ v →
  foldl tok_step (mkTok fs c it true true true false) v = mkTok fs c (it ++ v) true true true false.
Proof.
  revert it. induction v as [|r v IH]; intros it Hv; simpl; [by rewrite app_nil_r|].
  apply not_elem_of_cons in Hv as [Hr Hv]. unfold tok_step at 2. simpl.
  rewrite (proj2 (Z.eqb_neq _ _)) by done. rewrite IH by done. by rewrite <- app_assoc.
Qed.

Lemma tok_step_plain t r :
  inQuotes t = false → plain_rune r = true →
  tok_step t r = mkTok (fields t) (cur t) (item t ++ [r]) (qtd t) false true false.
Proof.
  unfold plain_rune, tok_step. intros Hq Hr. apply negb_true_iff in Hr.
  apply orb_false_iff in Hr as [Hr Hc]. apply orb_false_iff in Hr as [Hs Hd].
  by rewrite Hq, Hd, Hc, Hs.
Qed.

Lemma feed_plain v fs c it :
  forallb plain_rune v = true →
  foldl tok_step (mkTok fs c it false false true false) v = mkTok fs c (it ++ v) false false true false.
Proof.
  revert it. induction v as [|r v IH]; intros it Hv; simpl; [by rewrite app_nil_r|].
  apply andb_true_iff in Hv as [Hr Hv]. rewrite tok_step_plain by done. simpl.
  rewrite IH by done. by rewrite <- app_assoc.
Qed.

Lemma feed_item i fs c ac :
  printable i = true → foldl tok_step (between fs c ac) (print_item i) = at_end fs c i.
Proof.
  unfold printable, print_item, between, at_end. destruct i as [v []]; simpl.
  - intros Hv%bool_decide_eq_true. rewrite foldl_app. simpl.
    change (tok_step (mkTok fs c [] false false false ac) DQUOTE) with (mkTok fs c [] true true true false).
    by rewrite feed_quoted.
  - destruct v as [|r v]; [done|]. simpl. intros [Hr Hv]%andb_true_iff.
    rewrite tok_step_plain by done. simpl. by rewrite feed_plain.
Qed.

Lemma feed_field f i fs c ac :
  forallb printable (f ++ [i]) = true →
  foldl tok_step (between fs c ac) (print_field (f ++ [i])) = at_end fs (c ++ f) i.
Proof.
  revert c ac. induction f as [|j f IH]; intros c ac; simpl.
  - rewrite andb_true_r, app_nil_r. apply feed_item.
  - intros [Hj Hf]%andb_true_iff. destruct (f ++ [i]) as [|k l] eqn:E; [by destruct f|].
    rewrite foldl_app, feed_item by done. cbn [foldl app].
    assert (H2 : tok_step (tok_step (at_end fs c j) COMMA) BLANK = between fs (c ++ [j]) true) by (by destruct j).
    rewrite H2, IH by done. by rewrite <- app_assoc.
Qed.

Lemma feed_line fs0 fs f :
  Forall (λ f, f ≠ []) (fs ++ [f]) → forallb (forallb printable) (fs ++ [f]) = true →
  ∃ i g, f = g ++ [i] ∧
    foldl tok_step (between fs0 [] false) (print_line (fs ++ [f])) = at_end (fs0 ++ fs) g i.
Proof.
  revert fs0. induction fs as [|f0 fs IH]; intros fs0 Hne Hp; simpl in *.
  - apply Forall_cons in Hne as [Hf _]. apply andb_true_iff in Hp as [Hp _].
    destruct (exists_last Hf) as (g & i & ->). exists i, g. split; [done|].
    rewrite app_nil_r. by apply feed_field.
  - apply Forall_cons in Hne as [Hf Hne]. apply andb_true_iff in Hp as [Hp0 Hp].
    destruct (fs ++ [f]) as [|k l] eqn:E; [by destruct fs|].
    destruct (exists_last Hf) as (g & i & ->). rewrite foldl_app, feed_field by done. cbn [foldl app].
    assert (H2 : tok_step (at_end fs0 g i) BLANK = between (fs0 ++ [g ++ [i]]) [] false).
    { destruct i as [v q]. unfold at_end. simpl. unfold tok_step. simpl. unfold endField. simpl.
      destruct (g ++ [mkItem v q]) eqn:Eg; [by destruct g|done]. }
    rewrite H2. destruct (IH (fs0 ++ [g ++ [i]]) Hne Hp) as (i' & g' & -> & ->).
    exists i', g'. split; [done|]. by rewrite <- app_assoc.
Qed.

Lemma tokenize_print fs :
  fs ≠ [] → Forall (λ f, f ≠ []) fs → forallb (forallb printable) fs = true →
  tokenizeHBALine (print_line fs) = Some fs.
Proof.
  intros Hfs Hne Hp. destruct (exists_last Hfs) as (gs & f & ->).
  destruct (feed_line [] gs f Hne Hp) as (i & g & -> & E).
  unfold tokenizeHBALine. change tok_init with (between [] [] false). rewrite E.
  unfold at_end. simpl. unfold endField. simpl. destruct i as [v q]. simpl.
  destruct (g ++ [mkItem v q]) eqn:Eg; [by destruct g|done].
Qed.

(** ** Rules *)

Definition typeWord (t : HBAConnType) : string :=
  match t with
  | HBAHostAny => "host" | HBAHostSSL => "hostssl" | HBAHostNoSSL => "hostnossl" | HBALocal => "local"
  end.

Definition methodWord (m : HBAMethod) : string :=
  match m with
  | HBAMethodTrust => "trust" | HBAMethodReject => "reject" | HBAMethodSCRAM => "scram-sha-256"
  | HBAMethodPeer => "peer" | HBAMethodCert => "cert"
  end.

Definition word (s : string) : hbaItem := mkItem (lit s) false.

(** [None] is the keyword; names are always quoted. *)
Definition name_items (names : option (list text)) : list hbaItem :=
  match names with None => [word "all"] | Some ns => (λ n, mkItem n true) <$> ns end.

Inductive address := AddrAll | AddrSamehost | AddrCIDR (t : text).

Definition addr_item (a : address) : hbaItem :=
  match a with AddrAll => word "all" | AddrSamehost => word "samehost" | AddrCIDR t => mkItem t false end.

Definition rule_line (t : HBAConnType) (dbs us : option (list text)) (a : address) (m : HBAMethod) : text :=
  print_line [[word (typeWord t)]; name_items dbs; name_items us; [addr_item a]; [word (methodWord m)]].

(** The names of a list: some, none empty, none with a double quote. *)
Definition names_ok (names : option (list text)) : bool :=
  match names with
  | None => true
  | Some ns => negb (bool_decide (ns = []))
                 && forallb (λ n, negb (bool_decide (n = [])) && bool_decide (DQUOTE ∉ n)) ns
  end.

Definition addr_ok (a : address) : bool :=
  match a with
  | AddrCIDR t => forallb plain_rune t && bool_decide (is_Some (ParseCIDR t))
  | _ => true
  end.

Definition addr_net (a : address) : option IPNet :=
  match a with AddrCIDR t => ParseCIDR t | _ => None end.

Section rules.
Context `{UnicodeFold}.

Lemma name_items_ok names :
  names_ok names = true → name_items names ≠ [] ∧ forallb printable (name_items names) = true.
Proof.
  destruct names as [ns|]; [|by split]. simpl. intros [Hne Hns]%andb_true_iff.
  apply negb_true_iff, bool_decide_eq_false in Hne. split; [by destruct ns|].
  clear Hne. induction ns as [|n ns IH]; [done|]. simpl in *.
  apply andb_true_iff in Hns as [Hn Hns]. apply andb_true_iff in Hn as [_ Hq].
  apply andb_true_iff. split; [exact Hq|auto].
Qed.

Lemma nameLoop_quoted ns acc what :
  forallb (λ n, negb (bool_decide (n = [])) && bool_decide (DQUOTE ∉ n)) ns = true →
  nameLoop ((λ n, mkItem n true) <$> ns) acc what = Ok (false, acc ++ ns).
Proof.
  revert acc. induction ns as [|n ns IH]; intros acc; simpl; [by rewrite app_nil_r|].
  intros [Hn Hns]%andb_true_iff. apply andb_true_iff in Hn as [Hn _].
  apply negb_true_iff, bool_decide_eq_false in Hn. unfold isKeyword. simpl.
  destruct n as [|r n]; [done|]. rewrite IH by done. by rewrite <- app_assoc.
Qed.

Lemma parseNameList_items names what :
  names_ok names = true →
  parseNameList (name_items names) what
  = Ok (bool_decide (names = None), default [] names).
Proof.
  destruct names as [ns|]; simpl.
  - intros [Hne Hns]%andb_true_iff. unfold parseNameList.
    destruct ns as [|n ns]; [done|]. exact (nameLoop_quoted (n :: ns) [] what Hns).
  - intros _. unfold parseNameList. simpl. unfold isKeyword, EqualFold. simpl. done.
Qed.

Lemma split_on_sep sep t a b ws : split_on sep t = a :: b :: ws → sep ∈ t.
Proof.
  revert a b ws. induction t as [|r t IH]; intros a b ws; simpl; [done|].
  destruct (Z.eqb_spec r sep) as [->|]; [by left|].
  destruct (split_on sep t) as [|w [|w2 ws']] eqn:E; intros; simplify_eq. right. by eapply IH.
Qed.

Lemma ParseCIDR_slash t n : ParseCIDR t = Some n → 47 ∈ t.
Proof.
  unfold ParseCIDR. destruct (split_on 47 t) as [|a [|b ws]] eqn:E; try done.
  intros _. by eapply split_on_sep.
Qed.

Lemma not_keyword t w : 47 ∈ t → 47 ∉ map fold_rune (lit w) → isKeyword (mkItem t false) w = false.
Proof.
  intros Ht Hw. unfold isKeyword, EqualFold. simpl. apply bool_decide_eq_false. intros E.
  apply Hw. rewrite <- E. change 47 with (fold_rune 47).
  by apply (list_elem_of_fmap_2 fold_rune).
Qed.

Lemma parseAddress_item a :
  addr_ok a = true →
  parseAddress (addr_item a) = Ok (addr_net a, match a with AddrSamehost => true | _ => false end).
Proof.
  destruct a as [| |t]; simpl; try done. intros [_ [n Hn]%bool_decide_eq_true]%andb_true_iff.
  pose proof (ParseCIDR_slash _ _ Hn) as Hs. unfold parseAddress.
  rewrite !not_keyword by (done || (vm_compute; set_solver)). simpl. by rewrite Hn.
Qed.

Lemma parseType_word t : parseType (value (word (typeWord t))) = Some t.
Proof. by destruct t. Qed.

Lemma parseMethod_word m : parseMethod (value (word (methodWord m))) = Some m.
Proof. by destruct m. Qed.

(** C39: printing a rule as a line and parsing the line gives the rule back,
    for every connection type and method, any address, and any lists of names
    written in quotes, even a database called all. *)
Theorem hba_roundtrip t dbs us a m :
  names_ok dbs = true → names_ok us = true → addr_ok a = true →
  parseHBALine (rule_line t dbs us a m)
  = Ok (mkRule t (bool_decide (dbs = None)) (bool_decide (us = None)) (default [] dbs)
          (default [] us) (addr_net a) (match a with AddrSamehost => true | _ => false end) m).
Proof.
  intros Hd Hu Ha. destruct (name_items_ok dbs Hd) as [Hd1 Hd2].
  destruct (name_items_ok us Hu) as [Hu1 Hu2]. unfold parseHBALine, rule_line.
  rewrite tokenize_print; [|done|by repeat constructor|].
  - cbn [parseFields singleItem]. rewrite parseType_word.
    rewrite !parseNameList_items by done. rewrite parseAddress_item by done.
    by rewrite parseMethod_word.
  - assert (Ht : forallb printable [word (typeWord t)] = true) by (by destruct t).
    assert (Hm : forallb printable [word (methodWord m)] = true) by (by destruct m).
    assert (HA : forallb printable [addr_item a] = true).
    { destruct a as [| |x]; [done|done|]. simpl in *. apply andb_true_iff in Ha as [Hp [n Hn]%bool_decide_eq_true].
      unfold printable. simpl. rewrite Hp. apply ParseCIDR_slash in Hn. destruct x; [by apply not_elem_of_nil in Hn|done]. }
    cbn [forallb] in *. rewrite Hd2, Hu2. by rewrite Ht, HA, Hm.
Qed.

(** ** Who gets in *)

Lemma MatchHBA_first rules tls unix ip user db r :
  MatchHBA rules tls unix ip user db = Some r →
  ∃ pre post, rules = pre ++ r :: post ∧ matches tls unix ip user db r = true ∧
    forallb (λ q, negb (matches tls unix ip user db q)) pre = true.
Proof.
  induction rules as [|q rules IH]; simpl; [done|]. destruct (matches tls unix ip user db q) eqn:E.
  - intros [= ->]. by exists [], rules.
  - intros (pre & post & -> & Hm & Hp)%IH. exists (q :: pre), post.
    split; [done|]. split; [done|]. simpl. by rewrite E.
Qed.

(** The terms on which a connection is accepted. *)
Definition accepted_by (rules : list HBARule) (c : connection) (user db : text) : Prop :=
  ∃ pre r post, rules = pre ++ r :: post ∧
    forallb (λ q, negb (matches (isTLS c) (isUnix c) (remoteIP c) user db q)) pre = true ∧
    matches (isTLS c) (isUnix c) (remoteIP c) user db r = true ∧
    match Method r with
    | HBAMethodTrust => True
    | HBAMethodReject => False
    | HBAMethodSCRAM => innerOk c = true
    | HBAMethodPeer => isUnix c = true ∧ peerUser c = Some user
    | HBAMethodCert => isTLS c = true ∧ peerCN c = Some user
    end.

Lemma accept_terms rules c user db : Authenticate rules c user db = Accept → accepted_by rules c user db.
Proof.
  unfold Authenticate. destruct (MatchHBA _ _ _ _ _ _) as [r|] eqn:E; [|done].
  apply MatchHBA_first in E as (pre & post & -> & Hm & Hp). intros HA.
  exists pre, r, post. split; [done|]. split; [done|]. split; [done|].
  destruct (Method r); try done.
  - by destruct (innerOk c).
  - unfold authenticatePeer in HA. repeat case_match; simplify_eq; to_prop; by subst.
  - unfold authenticateCert in HA. repeat case_match; simplify_eq; to_prop; by subst.
Qed.

(** HBAAuth accepts a connection only if some rule matches it, and then on
    the terms of the first one that does: trust, the inner backend's approval,
    a Unix socket whose owner is the requested user, or a client certificate
    whose common name is the requested user.  A connection no rule matches, or
    that a reject rule matches first, is refused. *)
Theorem hba_accept_sound rules c user db :
  Authenticate rules c user db = Accept →
  ∃ pre r post, rules = pre ++ r :: post ∧
    forallb (λ q, negb (matches (isTLS c) (isUnix c) (remoteIP c) user db q)) pre = true ∧
    matches (isTLS c) (isUnix c) (remoteIP c) user db r = true ∧
    match Method r with
    | HBAMethodTrust => True
    | HBAMethodReject => False
    | HBAMethodSCRAM => innerOk c = true
    | HBAMethodPeer => isUnix c = true ∧ peerUser c = Some user
    | HBAMethodCert => isTLS c = true ∧ peerCN c = Some user
    end.
Proof. apply accept_terms. Qed.

(** a rule for Unix sockets without an address, the form the file's own
    documentation gives for TYPE=local, is refused. *)
Theorem local_without_address_refused :
  parseHBALine (lit "local all all trust") = Err ErrTooFew.
Proof. reflexivity. Qed.

End rules.

#[local] Instance ascii_fold : UnicodeFold := λ r, r.

Lemma hba_roundtrip_witness :
  parseHBALine (rule_line HBAHostSSL (Some [lit "all"; lit "my db"]) None (AddrCIDR (lit "10.0.0.0/8"))
    HBAMethodSCRAM)
  = Ok (mkRule HBAHostSSL false true [lit "all"; lit "my db"] [] (Some (mkNet [10; 0; 0; 0] [255; 0; 0; 0]))
          false HBAMethodSCRAM).
Proof.
  exact (hba_roundtrip HBAHostSSL (Some [lit "all"; lit "my db"]) None (AddrCIDR (lit "10.0.0.0/8"))
    HBAMethodSCRAM eq_refl eq_refl eq_refl).
Defined.

Lemma hba_accept_sound_witness :
  ∃ pre r post, [mkRule HBALocal true true [] [] None false HBAMethodPeer] = pre ++ r :: post
    ∧ Method r = HBAMethodPeer.
Proof.
  destruct (hba_accept_sound [mkRule HBALocal true true [] [] None false HBAMethodPeer]
    (mkConn false true None None true (Some (lit "alice")) false) (lit "alice") (lit "app") eq_refl)
    as (pre & r & post & E & _).
  exists pre, r, post. split; [exact E|].
  destruct pre as [|q pre]; simpl in E; injection E as <- E; [reflexivity|]. by destruct pre.
Defined.

End HBATheorems.
