(* ===== verification/Config.v ===== *)
(** * Configuration

    src/config.go: the YAML shape as Go structs, [applyDefaults], the checks
    of [loadConfig] and the per-pool lifecycle merge.  Reading the file and
    yaml.v3's [Unmarshal] are parameters.  [int] and [time.Duration] fields are
    integers.  A nil slice or map is [None] in the fields the code compares
    with nil, or as whole values. *)

From Stdlib Require Import Ascii.
From S2P Require Import Prelude GoStrings.
Open Scope string_scope.
Open Scope list_scope.
Open Scope Z_scope.

Module Config.

(** ** The structs *)

Record PoolConfig := mkPoolConfig {
  BackendDSN : string;
  BackendAddr : string;
  Limit : Z;
  BackendUsers : option (gmap string string);
  ScramPassthrough : bool;
  Aliases : option (list string);
  PoolMode : string;
  MinIdle : Z;
  IdleTimeout : Z;
  MaxLifetime : Z;
  HealthCheckDelay : Z;
  LoginRetry : Z;
  LoginBackoff : Z;
}.

#[export] Instance PoolConfig_eq_dec : EqDecision PoolConfig.
Proof. solve_decision. Defined.

(** Reading a map that may be nil, ranging over a slice that may be nil. *)
Definition users (pc : PoolConfig) : gmap string string := default ∅ (BackendUsers pc).
Definition aliases (pc : PoolConfig) : list string := default [] (Aliases pc).

(** The YAML file as a struct. *)
Record Config := mkConfig {
  ListenAddr : string; MetricsAddr : string; AdminAddr : string;
  TLSCertFile : string; TLSKeyFile : string; TLSClientCAFile : string;
  AuthUsers : gmap string string;
  AllowInsecureTrustAuth : bool;
  AdminBasicAuthUser : string; AdminBasicAuthPasswordHash : string;
  AdminTLSCertFile : string; AdminTLSKeyFile : string; AdminTLSClientCAFile : string;
  AdminMTLSAllowedCNs : list string;
  AdminOIDCIssuerURL : string; AdminOIDCClientID : string;
  AdminOIDCAllowedEmails : list string; AdminOIDCAllowedSubjects : list string;
  AdminOIDCSkipEmailVerified : bool;
  EnablePprof : bool;
  AdminDatabase : string; AdminUsers : list string;
  AuthHBAFile : string;
  ShutdownTimeout : Z;
  RequireBackendTLS : bool;
  MaxDBConnections : Z; MaxUserConnections : Z;
  AuthQueryDSN : string; AuthQuery : string; AuthQueryCacheTTL : Z;
  DNSResolveInterval : Z;
  UnixSocketDir : string; UnixSocketMode : string;
  AuditLogPath : string;
  MaxSessionsPerSecPerUser : Z; MaxSessionsBurstPerUser : Z;
  TrackExtraParameters : option (list string);
  MaxPreparedStatements : Z;
  ScramPassthroughIdleTimeout : Z;
  MaxClientConn : Z;
  ClientLoginTimeout : Z; QueryTimeout : Z; ClientIdleTimeout : Z;
  IdleTransactionTimeout : Z; ClientWriteTimeout : Z;
  CircuitBreakerThreshold : Z; CircuitBreakerCooldown : Z;
  QueryWaitTimeout : Z;
  ServerResetQuery : string; ServerResetQuerySkipSameSession : bool;
  TCPKeepAlive : Z; CancelDialTimeout : Z;
  ServerIdleTimeout : Z; ServerLifetime : Z; ServerCheckDelay : Z;
  ServerLoginRetry : Z; ServerLoginBackoff : Z;
  MinPoolSize : Z;
  HealthCheckTimeout : Z;
  HTTPReadHeaderTimeout : Z; HTTPReadTimeout : Z; HTTPWriteTimeout : Z; HTTPIdleTimeout : Z;
  LogFormat : string; LogLevel : string;
  Pools : gmap string PoolConfig;
}.

(** ** Defaults *)

Definition defaultQueryTimeout : Z := 15 * Minute.
Definition defaultClientIdleTimeout : Z := 30 * Minute.
Definition defaultIdleTransactionTimeout : Z := 5 * Minute.
Definition defaultClientWriteTimeout : Z := 60 * Second.
Definition defaultCancelDialTimeout : Z := 5 * Second.
Definition defaultScramPassthroughIdleTimeout : Z := 30 * Minute.
Definition defaultMaxPreparedStatements : Z := 200.
Definition AdminDatabaseDefault : string := "pgbouncer".

(** [if x == "" { x = d }] and [if x == 0 { x = d }] *)
Definition or_str (s d : string) : string := if bool_decide (s = "") then d else s.
Definition or_num (z d : Z) : Z := if z =? 0 then d else z.

Definition applyDefaults (c : Config) : Config := {|
  ListenAddr := or_str (ListenAddr c) ":6435";
  MetricsAddr := or_str (MetricsAddr c) ":8080";
  AdminAddr := or_str (AdminAddr c) "127.0.0.1:8081";
  TLSCertFile := TLSCertFile c;
  TLSKeyFile := TLSKeyFile c;
  TLSClientCAFile := TLSClientCAFile c;
  AuthUsers := AuthUsers c;
  AllowInsecureTrustAuth := AllowInsecureTrustAuth c;
  AdminBasicAuthUser := AdminBasicAuthUser c;
  AdminBasicAuthPasswordHash := AdminBasicAuthPasswordHash c;
  AdminTLSCertFile := AdminTLSCertFile c;
  AdminTLSKeyFile := AdminTLSKeyFile c;
  AdminTLSClientCAFile := AdminTLSClientCAFile c;
  AdminMTLSAllowedCNs := AdminMTLSAllowedCNs c;
  AdminOIDCIssuerURL := AdminOIDCIssuerURL c;
  AdminOIDCClientID := AdminOIDCClientID c;
  AdminOIDCAllowedEmails := AdminOIDCAllowedEmails c;
  AdminOIDCAllowedSubjects := AdminOIDCAllowedSubjects c;
  AdminOIDCSkipEmailVerified := AdminOIDCSkipEmailVerified c;
  EnablePprof := EnablePprof c;
  AdminDatabase := or_str (AdminDatabase c) AdminDatabaseDefault;
  AdminUsers := AdminUsers c;
  AuthHBAFile := AuthHBAFile c;
  ShutdownTimeout := or_num (ShutdownTimeout c) (30 * Second);
  RequireBackendTLS := RequireBackendTLS c;
  MaxDBConnections := MaxDBConnections c;
  MaxUserConnections := MaxUserConnections c;
  AuthQueryDSN := AuthQueryDSN c;
  AuthQuery := AuthQuery c;
  AuthQueryCacheTTL := AuthQueryCacheTTL c;
  DNSResolveInterval := DNSResolveInterval c;
  UnixSocketDir := UnixSocketDir c;
  UnixSocketMode := UnixSocketMode c;
  AuditLogPath := AuditLogPath c;
  MaxSessionsPerSecPerUser := MaxSessionsPerSecPerUser c;
  MaxSessionsBurstPerUser := MaxSessionsBurstPerUser c;
  TrackExtraParameters := Some (default
    ["application_name"; "client_encoding"; "DateStyle"; "TimeZone"; "IntervalStyle";
     "standard_conforming_strings"] (TrackExtraParameters c));
  MaxPreparedStatements := or_num (MaxPreparedStatements c) defaultMaxPreparedStatements;
  ScramPassthroughIdleTimeout :=
    or_num (ScramPassthroughIdleTimeout c) defaultScramPassthroughIdleTimeout;
  MaxClientConn := or_num (MaxClientConn c) 10000;
  ClientLoginTimeout := or_num (ClientLoginTimeout c) (60 * Second);
  QueryTimeout := or_num (QueryTimeout c) defaultQueryTimeout;
  ClientIdleTimeout := or_num (ClientIdleTimeout c) defaultClientIdleTimeout;
  IdleTransactionTimeout := or_num (IdleTransactionTimeout c) defaultIdleTransactionTimeout;
  ClientWriteTimeout := or_num (ClientWriteTimeout c) defaultClientWriteTimeout;
  CircuitBreakerThreshold := or_num (CircuitBreakerThreshold c) 5;
  CircuitBreakerCooldown := or_num (CircuitBreakerCooldown c) (5 * Second);
  QueryWaitTimeout := or_num (QueryWaitTimeout c) (120 * Second);
  ServerResetQuery := or_str (ServerResetQuery c) "DISCARD ALL";
  ServerResetQuerySkipSameSession := ServerResetQuerySkipSameSession c;
  TCPKeepAlive := or_num (TCPKeepAlive c) (30 * Second);
  CancelDialTimeout := or_num (CancelDialTimeout c) defaultCancelDialTimeout;
  ServerIdleTimeout := or_num (ServerIdleTimeout c) (10 * Minute);
  ServerLifetime := or_num (ServerLifetime c) (1 * Hour);
  ServerCheckDelay := or_num (ServerCheckDelay c) (30 * Second);
  ServerLoginRetry := or_num (ServerLoginRetry c) 3;
  ServerLoginBackoff := or_num (ServerLoginBackoff c) (200 * Millisecond);
  MinPoolSize := MinPoolSize c;
  HealthCheckTimeout := or_num (HealthCheckTimeout c) (500 * Millisecond);
  HTTPReadHeaderTimeout := or_num (HTTPReadHeaderTimeout c) (5 * Second);
  HTTPReadTimeout := or_num (HTTPReadTimeout c) (30 * Second);
  HTTPWriteTimeout := HTTPWriteTimeout c;
  HTTPIdleTimeout := or_num (HTTPIdleTimeout c) (60 * Second);
  LogFormat := or_str (LogFormat c) "json";
  LogLevel := or_str (LogLevel c) "info";
  Pools := Pools c |}.

(** ** sslmode *)

(** The text after the first occurrence of a needle:
    [s[strings.Index(s, needle)+len(needle):]]. *)
Fixpoint after_index (needle s : string) : option string :=
  if HasPrefix s needle then Some (drop_str (String.length needle) s)
  else match s with EmptyString => None | String _ s => after_index needle s end.

Definition dsnSSLMode (dsn : string) : string :=
  let lower := ToLower dsn in
  match after_index "sslmode=" lower with
  | None => if bool_decide (dsn = "") then "" else "prefer (unset)"
  | Some rest => span (fun c => negb (mem c ["&"; " "]%char)) rest
  end.

Definition strictSSLMode (mode : string) : bool :=
  bool_decide (mode ∈ ["require"; "verify-ca"; "verify-full"]).

(** ** loadConfig *)

Inductive configErr :=
| ErrRead | ErrParse | ErrTLSPair | ErrNoAuthUsers | ErrBasicAuthPair | ErrAdminTLSPair
| ErrClientCAWithoutCert | ErrOIDCClientID | ErrOIDCAllowlist | ErrNotBcrypt | ErrNoPools
| ErrDSNRequired (pool : string) | ErrAddrRequired (pool : string) | ErrLimit (pool : string)
| ErrPoolName (pool : string) | ErrEmptyUser (pool : string) | ErrUserName (pool user : string)
| ErrEmptyDSN (pool user : string).

Inductive warning :=
| WarnBackendTLS (pool mode : string) | WarnShutdownBudget | WarnAdminConsole.

Definition poolKeySeparator : string := "/".

(** [strings.Contains] with the one-byte separator *)
Definition has_separator (s : string) : bool :=
  match after_byte "/"%char s with Some _ => true | None => false end.

Definition empty (s : string) : bool := bool_decide (s = "").

(** The loop over one pool's backend_users. *)
Fixpoint checkUsers (name : string) (l : list (string * string)) : option configErr :=
  match l with
  | [] => None
  | (user, dsn) :: l =>
      if empty user then Some (ErrEmptyUser name)
      else if has_separator user then Some (ErrUserName name user)
      else if empty dsn then Some (ErrEmptyDSN name user)
      else checkUsers name l
  end.

Section ranging.
Context `{MapRange}.

Definition checkPool (name : string) (pc : PoolConfig) : option configErr :=
  if empty (BackendDSN pc) then Some (ErrDSNRequired name)
  else if empty (BackendAddr pc) then Some (ErrAddrRequired name)
  else if Limit pc <=? 0 then Some (ErrLimit name)
  else if has_separator name then Some (ErrPoolName name)
  else checkUsers name (range (users pc)).

Fixpoint checkPools (l : list (string * PoolConfig)) : option configErr :=
  match l with
  | [] => None
  | (name, pc) :: l =>
      match checkPool name pc with Some e => Some e | None => checkPools l end
  end.

Definition tlsWarnings (c : Config) : list warning :=
  if RequireBackendTLS c then []
  else omap (fun '(name, pc) =>
    let mode := dsnSSLMode (BackendDSN pc) in
    if negb (empty mode) && negb (strictSSLMode mode)
    then Some (WarnBackendTLS name mode) else None) (range (Pools c)).

Definition warnings (c : Config) : list warning :=
  tlsWarnings c
  ++ (if ShutdownTimeout c <? QueryWaitTimeout c then [WarnShutdownBudget] else [])
  ++ (if negb (empty (AdminDatabase c)) && bool_decide (AdminUsers c = [])
      then [WarnAdminConsole] else []).

(** The checks in source order, on the configuration with its defaults. *)
Definition checkConfig (c : Config) : option configErr :=
  if negb (eqb (empty (TLSCertFile c)) (empty (TLSKeyFile c))) then Some ErrTLSPair
  else if bool_decide (AuthUsers c = ∅) && negb (AllowInsecureTrustAuth c)
  then Some ErrNoAuthUsers
  else if negb (eqb (empty (AdminBasicAuthUser c)) (empty (AdminBasicAuthPasswordHash c)))
  then Some ErrBasicAuthPair
  else if negb (eqb (empty (AdminTLSCertFile c)) (empty (AdminTLSKeyFile c)))
  then Some ErrAdminTLSPair
  else if negb (empty (AdminTLSClientCAFile c)) && empty (AdminTLSCertFile c)
  then Some ErrClientCAWithoutCert
  else if negb (empty (AdminOIDCIssuerURL c)) && empty (AdminOIDCClientID c)
  then Some ErrOIDCClientID
  else if negb (empty (AdminOIDCIssuerURL c))
          && bool_decide (AdminOIDCAllowedEmails c = [])
          && bool_decide (AdminOIDCAllowedSubjects c = [])
  then Some ErrOIDCAllowlist
  else if negb (empty (AdminBasicAuthPasswordHash c))
          && negb (HasPrefix (AdminBasicAuthPasswordHash c) "$2")
  then Some ErrNotBcrypt
  else if bool_decide (Pools c = ∅) then Some ErrNoPools
  else checkPools (range (Pools c)).

(** [os.ReadFile] and [yaml.Unmarshal] are the parameters. *)
Definition loadConfig (readFile : string → option string) (unmarshal : string → option Config)
    (path : string) : result configErr Config :=
  match readFile path with
  | None => Err ErrRead
  | Some data =>
      match unmarshal data with
      | None => Err ErrParse
      | Some cfg =>
          let c := applyDefaults cfg in
          match checkConfig c with Some e => Err e | None => Ok c end
      end
  end.

End ranging.

(** ** Lifecycle merge *)

Record poolLifecycle := mkLifecycle {
  l_IdleTimeout : Z; l_MaxLifetime : Z; l_HealthCheckDelay : Z; l_MinIdle : Z;
  l_DialRetry : Z; l_DialRetryBackoff : Z; l_CircuitThreshold : Z; l_CircuitCooldown : Z;
}.

Definition poolLifecycleDefaults (cfg : Config) (pc : PoolConfig) : poolLifecycle := {|
  l_IdleTimeout := or_num (IdleTimeout pc) (ServerIdleTimeout cfg);
  l_MaxLifetime := or_num (MaxLifetime pc) (ServerLifetime cfg);
  l_HealthCheckDelay := or_num (HealthCheckDelay pc) (ServerCheckDelay cfg);
  l_MinIdle := or_num (MinIdle pc) (MinPoolSize cfg);
  l_DialRetry := or_num (LoginRetry pc) (ServerLoginRetry cfg);
  l_DialRetryBackoff := or_num (LoginBackoff pc) (ServerLoginBackoff cfg);
  l_CircuitThreshold := CircuitBreakerThreshold cfg;
  l_CircuitCooldown := CircuitBreakerCooldown cfg |}.

End Config.
