(* ===== verification/ConfigTheorems.v ===== *)
(** * Theorems about the configuration

    What [loadConfig] accepts, as an order-free specification, and what
    [applyDefaults] guarantees. *)

From Stdlib Require Import Ascii.
From S2P Require Import Prelude GoStrings Config.
Import Config.
Open Scope string_scope.
Open Scope list_scope.
Open Scope Z_scope.

Module ConfigTheorems.

(** ** Specification *)

(** One pool of the file. *)
Definition PoolOK (name : string) (pc : PoolConfig) : Prop :=
  BackendDSN pc ≠ "" ∧ BackendAddr pc ≠ "" ∧ 0 < Limit pc ∧ has_separator name = false ∧
  ∀ user dsn, users pc !! user = Some dsn → user ≠ "" ∧ has_separator user = false ∧ dsn ≠ "".

(** Two settings that only make sense together. *)
Definition paired (a b : string) : Prop := a = "" ↔ b = "".

Record WellConfigured (c : Config) : Prop := {
  wc_tls : paired (TLSCertFile c) (TLSKeyFile c);
  wc_auth : AuthUsers c = ∅ → AllowInsecureTrustAuth c = true;
  wc_basic : paired (AdminBasicAuthUser c) (AdminBasicAuthPasswordHash c);
  wc_admin_tls : paired (AdminTLSCertFile c) (AdminTLSKeyFile c);
  wc_client_ca : AdminTLSClientCAFile c ≠ "" → AdminTLSCertFile c ≠ "";
  wc_oidc : AdminOIDCIssuerURL c ≠ "" → AdminOIDCClientID c ≠ "" ∧
    (AdminOIDCAllowedEmails c ≠ [] ∨ AdminOIDCAllowedSubjects c ≠ []);
  wc_bcrypt : AdminBasicAuthPasswordHash c ≠ "" →
    HasPrefix (AdminBasicAuthPasswordHash c) "$2" = true;
  wc_pools : Pools c ≠ ∅;
  wc_pool : ∀ name pc, Pools c !! name = Some pc → PoolOK name pc;
}.

(** ** The checks decide the specification *)

Lemma empty_true s : empty s = true ↔ s = "".
Proof. apply bool_decide_eq_true. Qed.

Lemma empty_false s : empty s = false ↔ s ≠ "".
Proof. apply bool_decide_eq_false. Qed.

Lemma paired_eqb a b : eqb (empty a) (empty b) = true ↔ paired a b.
Proof.
  unfold paired. rewrite eqb_true_iff, <-!empty_true.
  destruct (empty a), (empty b); intuition congruence.
Qed.

Lemma checkUsers_None name l :
  checkUsers name l = None ↔
  ∀ user dsn, (user, dsn) ∈ l → user ≠ "" ∧ has_separator user = false ∧ dsn ≠ "".
Proof.
  induction l as [|[user dsn] l IH]; simpl; [set_solver|].
  assert (Hhd : ∀ P : string → string → Prop,
    (∀ u d, (u, d) ∈ (user, dsn) :: l → P u d) ↔ P user dsn ∧ ∀ u d, (u, d) ∈ l → P u d).
  { intros P. setoid_rewrite elem_of_cons. naive_solver. }
  rewrite Hhd, <-IH, <-!empty_false.
  destruct (empty user), (has_separator user), (empty dsn); intuition congruence.
Qed.

Section spec.
Context `{MapRange}.

Lemma checkPool_None name pc : checkPool name pc = None ↔ PoolOK name pc.
Proof.
  unfold checkPool, PoolOK.
  destruct (empty (BackendDSN pc)) eqn:E1, (empty (BackendAddr pc)) eqn:E2,
    (Limit pc <=? 0) eqn:E3, (has_separator name) eqn:E4;
    rewrite ?empty_true, ?empty_false, ?Z.leb_le, ?Z.leb_gt in *.
  all: try (split; [done | intros (? & ? & ? & ? & ?); congruence || lia]).
  rewrite checkUsers_None. setoid_rewrite elem_of_range. intuition.
Qed.

Lemma checkPools_None l :
  checkPools l = None ↔ ∀ name pc, (name, pc) ∈ l → PoolOK name pc.
Proof.
  induction l as [|[name pc] l IH]; simpl; [set_solver|].
  destruct (checkPool name pc) eqn:E.
  - split; [done|]. intros Hall.
    assert (checkPool name pc = None) by (apply checkPool_None, Hall; set_solver). congruence.
  - apply checkPool_None in E. rewrite IH. split; intros Hall.
    + intros n p [[= -> ->]|Hin]%elem_of_cons; auto.
    + intros n p Hin. apply Hall. set_solver.
Qed.

Lemma guard_None {E} (b : bool) (e : E) rest :
  (if b then Some e else rest) = None ↔ b = false ∧ rest = None.
Proof. destruct b; intuition congruence. Qed.

Lemma checkConfig_None c : checkConfig c = None ↔ WellConfigured c.
Proof.
  unfold checkConfig. rewrite !guard_None, !negb_false_iff, !paired_eqb, checkPools_None.
  setoid_rewrite elem_of_range.
  rewrite !andb_false_iff, !negb_false_iff, !empty_true, !empty_false, !bool_decide_eq_false.
  split.
  - intros (? & ? & ? & ? & ? & ? & ? & ? & ? & ?). split; try done; try (intuition congruence).
  - intros [? Ha ? ? ? Ho Hb ? ?]. split_and!; try done.
    + destruct (AllowInsecureTrustAuth c); [by right|]. left. intros Hn. by apply Ha in Hn.
    + destruct (decide (AdminTLSClientCAFile c = "")); tauto.
    + destruct (decide (AdminOIDCIssuerURL c = "")); tauto.
    + destruct (decide (AdminOIDCIssuerURL c = "")); tauto.
    + destruct (decide (AdminBasicAuthPasswordHash c = "")); tauto.
Qed.

(** C40: [loadConfig] accepts exactly the files that can be read and parsed and
    whose configuration, after defaults, satisfies [WellConfigured], whatever
    the order in which the pool and user maps are walked; what it returns is
    that configuration with its defaults. *)
Theorem loadConfig_accepts_iff readFile unmarshal path c :
  loadConfig readFile unmarshal path = Ok c ↔
  ∃ data cfg, readFile path = Some data ∧ unmarshal data = Some cfg ∧
    c = applyDefaults cfg ∧ WellConfigured c.
Proof.
  unfold loadConfig. split.
  - destruct (readFile path) as [data|]; [|done].
    destruct (unmarshal data) as [cfg|] eqn:Eu; [|done]. simpl.
    destruct (checkConfig _) eqn:Ec; [done|]. intros [= <-].
    exists data, cfg. by rewrite <-checkConfig_None.
  - intros (data & cfg & -> & -> & -> & Hok). simpl.
    apply checkConfig_None in Hok. by rewrite Hok.
Qed.
End spec.

(** ** Defaults *)

(** The numeric settings that have a default. *)
Definition defaulted : list (Config → Z) :=
  [ShutdownTimeout; MaxPreparedStatements; ScramPassthroughIdleTimeout; MaxClientConn;
   ClientLoginTimeout; QueryTimeout; ClientIdleTimeout; IdleTransactionTimeout;
   ClientWriteTimeout; CircuitBreakerThreshold; CircuitBreakerCooldown; QueryWaitTimeout;
   TCPKeepAlive; CancelDialTimeout; ServerIdleTimeout; ServerLifetime; ServerCheckDelay;
   ServerLoginRetry; ServerLoginBackoff; HealthCheckTimeout; HTTPReadHeaderTimeout;
   HTTPReadTimeout; HTTPIdleTimeout].

Definition defaulted_text : list (Config → string) :=
  [ListenAddr; MetricsAddr; AdminAddr; AdminDatabase; ServerResetQuery; LogFormat; LogLevel].

Lemma or_num_spec z d : d ≠ 0 → or_num z d ≠ 0 ∧ (z ≠ 0 → or_num z d = z).
Proof. unfold or_num. destruct (Z.eqb_spec z 0); tauto. Qed.

Lemma or_str_spec s d : d ≠ "" → or_str s d ≠ "" ∧ (s ≠ "" → or_str s d = s).
Proof. unfold or_str. case_bool_decide; tauto. Qed.

Lemma or_num_idem z d : or_num (or_num z d) d = or_num z d.
Proof. unfold or_num. destruct (z =? 0) eqn:E; [by destruct (d =? 0)|]. by rewrite E. Qed.

Lemma or_str_idem s d : or_str (or_str s d) d = or_str s d.
Proof. unfold or_str. repeat case_bool_decide; congruence. Qed.

(** Defaults never override an operator: every explicit setting survives
    [applyDefaults], negative opt-outs included; no defaulted setting is left
    zero or empty; and applying the defaults again changes nothing. *)
Theorem applyDefaults_settles c :
  applyDefaults (applyDefaults c) = applyDefaults c ∧
  Forall (fun f => f (applyDefaults c) ≠ 0 ∧ (f c ≠ 0 → f (applyDefaults c) = f c)) defaulted ∧
  Forall (fun f => f (applyDefaults c) ≠ "" ∧ (f c ≠ "" → f (applyDefaults c) = f c))
    defaulted_text.
Proof.
  split; [|split].
  - unfold applyDefaults at 1. destruct c; simpl. unfold applyDefaults; simpl.
    by rewrite !or_num_idem, !or_str_idem.
  - unfold defaulted. repeat constructor; apply or_num_spec; done.
  - unfold defaulted_text. repeat constructor; apply or_str_spec; done.
Qed.

(** The documented way to switch off the admin console, the reset query and
    the acquire timeout, an empty or zero value, has no effect: a loaded
    configuration always has all three. *)
Theorem documented_opt_outs_ignored `{MapRange} readFile unmarshal path c :
  loadConfig readFile unmarshal path = Ok c →
  AdminDatabase c ≠ "" ∧ ServerResetQuery c ≠ "" ∧ QueryWaitTimeout c ≠ 0.
Proof.
  unfold loadConfig. intros Hl. repeat case_match; simplify_eq.
  split; [by apply or_str_spec | split; [by apply or_str_spec | by apply or_num_spec]].
Qed.

(** ** Pools that a file can ask for *)

(** A configuration with these users and pools. *)
Definition sample_config (users : gmap string string) (pools : gmap string PoolConfig) : Config := {|
  ListenAddr := ":6432"; MetricsAddr := ":9090"; AdminAddr := ":8080";
  TLSCertFile := ""; TLSKeyFile := ""; TLSClientCAFile := "";
  AuthUsers := users; AllowInsecureTrustAuth := false;
  AdminBasicAuthUser := ""; AdminBasicAuthPasswordHash := "";
  AdminTLSCertFile := ""; AdminTLSKeyFile := ""; AdminTLSClientCAFile := "";
  AdminMTLSAllowedCNs := []; AdminOIDCIssuerURL := ""; AdminOIDCClientID := "";
  AdminOIDCAllowedEmails := []; AdminOIDCAllowedSubjects := [];
  AdminOIDCSkipEmailVerified := false; EnablePprof := false;
  AdminDatabase := "pgman"; AdminUsers := ["root"]; AuthHBAFile := "";
  ShutdownTimeout := 30 * Second; RequireBackendTLS := false;
  MaxDBConnections := 4; MaxUserConnections := 2;
  AuthQueryDSN := ""; AuthQuery := ""; AuthQueryCacheTTL := 0;
  DNSResolveInterval := 0; UnixSocketDir := ""; UnixSocketMode := "";
  AuditLogPath := ""; MaxSessionsPerSecPerUser := 5; MaxSessionsBurstPerUser := 10;
  TrackExtraParameters := None; MaxPreparedStatements := 100;
  ScramPassthroughIdleTimeout := 30 * Minute; MaxClientConn := 2;
  ClientLoginTimeout := 0; QueryTimeout := 0; ClientIdleTimeout := 0;
  IdleTransactionTimeout := 0; ClientWriteTimeout := 0;
  CircuitBreakerThreshold := 0; CircuitBreakerCooldown := 0; QueryWaitTimeout := 0;
  ServerResetQuery := "DISCARD ALL"; ServerResetQuerySkipSameSession := false;
  TCPKeepAlive := 0; CancelDialTimeout := 5 * Second;
  ServerIdleTimeout := 0; ServerLifetime := 0; ServerCheckDelay := 0;
  ServerLoginRetry := 0; ServerLoginBackoff := 0; MinPoolSize := 0;
  HealthCheckTimeout := 0; HTTPReadHeaderTimeout := 0; HTTPReadTimeout := 0;
  HTTPWriteTimeout := 0; HTTPIdleTimeout := 0; LogFormat := ""; LogLevel := "";
  Pools := pools |}.

Section loaded.
Context `{MapRange}.

(** [pools] is the [pools:] section of a configuration [loadConfig] accepted. *)
Definition loaded (pools : gmap string PoolConfig) : Prop :=
  ∃ readFile unmarshal path c, loadConfig readFile unmarshal path = Ok c ∧ Pools c = pools.

Lemma loaded_pool pools n c : loaded pools → pools !! n = Some c → PoolOK n c.
Proof.
  intros (readFile & unmarshal & path & cfg & Hl & <-). unfold loadConfig in Hl. repeat case_match; simplify_eq.
  by apply wc_pool, checkConfig_None.
Qed.

Lemma loadable pools : pools ≠ ∅ → (∀ n c, pools !! n = Some c → PoolOK n c) → loaded pools.
Proof.
  intros Hne Hok. exists (λ _, Some ""), (λ _, Some (sample_config {[ "ann" := "SCRAM-SHA-256$" ]} pools)), "".
  eexists. unfold loadConfig. rewrite (proj2 (checkConfig_None _)); [done|]. by constructor.
Qed.

End loaded.

End ConfigTheorems.
