(* ===== verification/BackendAddr.v ===== *)
(** * Backend addresses

    src/backend_addr.go: the check that keeps the admin API from pointing a
    pool at link-local, multicast or unspecified addresses, with the parts of
    Go's net package it calls ([SplitHostPort], [ParseIP] and the address
    classes).  The addresses are those of the HBA file's parser. *)

From Stdlib Require Import Ascii.
From S2P Require Import Prelude GoStrings HBA.
Import HBA.
Open Scope string_scope.
Open Scope list_scope.
Open Scope Z_scope.

Module BackendAddr.

Definition COLON : Z := 58.
Definition LBRACKET : Z := 91.
Definition RBRACKET : Z := 93.

(** ** net.SplitHostPort *)

(** Split around the last occurrence of a byte. *)
Definition cut_last (b : Z) (s : text) : option (text * text) :=
  match cut b (rev s) with Some (x, y) => Some (rev y, rev x) | None => None end.

Definition has (b : Z) (s : text) : bool := bool_decide (b ∈ s).

(** [None] is any of its errors.  A bracketed host ends at the first closing
    bracket, which the last colon must follow. *)
Definition SplitHostPort (hostport : text) : option (text * text) :=
  match cut_last COLON hostport with
  | None => None
  | Some (before, port) =>
      match before with
      | c :: _ =>
          if c =? LBRACKET then
            match cut RBRACKET hostport with
            | None => None
            | Some (h, after) =>
                let host := tail h in
                if bool_decide (after = COLON :: port)
                   && negb (has LBRACKET host) && negb (has LBRACKET after)
                   && negb (has RBRACKET after)
                then Some (host, port) else None
            end
          else if has COLON before || has LBRACKET hostport || has RBRACKET hostport then None
          else Some (before, port)
      | [] => if has LBRACKET port || has RBRACKET port then None else Some ([], port)
      end
  end.

(** ** net.ParseIP and the address classes *)

Definition ParseIP (s : text) : option IP :=
  if bool_decide (COLON ∈ s) then parseIPv6 s
  else match parseIPv4 s with Some v4 => Some (v4_prefix ++ v4) | None => None end.

Definition byte_at (i : nat) (ip : IP) : Z := default 0 (ip !! i).

Definition IsUnspecified (ip : IP) : bool :=
  match To4 ip with
  | Some v4 => bool_decide (v4 = [0; 0; 0; 0])
  | None => bool_decide (ip = replicate 16 0)
  end.

Definition IsLinkLocalUnicast (ip : IP) : bool :=
  match To4 ip with
  | Some v4 => (byte_at 0 v4 =? 169) && (byte_at 1 v4 =? 254)
  | None => (length ip =? 16)%nat && (byte_at 0 ip =? 254) && (Z.land (byte_at 1 ip) 192 =? 128)
  end.

Definition IsLinkLocalMulticast (ip : IP) : bool :=
  match To4 ip with
  | Some v4 => (byte_at 0 v4 =? 224) && (byte_at 1 v4 =? 0) && (byte_at 2 v4 =? 0)
  | None => (length ip =? 16)%nat && (byte_at 0 ip =? 255) && (Z.land (byte_at 1 ip) 15 =? 2)
  end.

Definition IsMulticast (ip : IP) : bool :=
  match To4 ip with
  | Some v4 => Z.land (byte_at 0 v4) 240 =? 224
  | None => (length ip =? 16)%nat && (byte_at 0 ip =? 255)
  end.

(** [strings.Trim(host, "[]")] *)
Fixpoint trim_brackets (s : text) : text :=
  match s with
  | c :: s' => if (c =? LBRACKET) || (c =? RBRACKET) then trim_brackets s' else s
  | [] => []
  end.
Definition Trim (s : text) : text := rev (trim_brackets (rev (trim_brackets s))).

(** ** The check *)

Inductive addrErr :=
| AddrRequired | AddrNotHostPort | AddrNoHost | AddrNoPort
| AddrUnspecified | AddrLinkLocal | AddrMulticast.

#[export] Instance addrErr_eq_dec : EqDecision addrErr.
Proof. solve_decision. Defined.

Definition checkBackendIP (ip : IP) : option addrErr :=
  if IsUnspecified ip then Some AddrUnspecified
  else if IsLinkLocalUnicast ip || IsLinkLocalMulticast ip then Some AddrLinkLocal
  else if IsMulticast ip then Some AddrMulticast
  else None.

Definition validateBackendAddr (addr : string) : option addrErr :=
  if bool_decide (addr = "") then Some AddrRequired
  else match SplitHostPort (lit addr) with
       | None => Some AddrNotHostPort
       | Some (host, port) =>
           if bool_decide (host = []) then Some AddrNoHost
           else if bool_decide (port = []) then Some AddrNoPort
           else match ParseIP (Trim host) with
                | None => None
                | Some ip => checkBackendIP ip
                end
       end.

(** ** Parsed addresses are sixteen bytes *)

Definition byte (b : Z) : Prop := 0 ≤ b < 256.

Lemma mapM_opt_Forall {A B} (f : A → option B) (P : B → Prop) l k :
  (∀ x y, f x = Some y → P y) → mapM_opt f l = Some k → Forall P k ∧ length k = length l.
Proof.
  intros Hf. revert k. induction l as [|x l IH]; intros k; simpl; [intros [= <-]; auto|].
  destruct (f x) as [y|] eqn:E; [|done]. destruct (mapM_opt f l) as [ys|]; [|done].
  intros [= <-]. destruct (IH ys eq_refl) as [? Hlen]. simpl. rewrite Hlen. eauto.
Qed.

(** Folding digits keeps the accumulator below a power of the base. *)
Lemma foldl_digits (dig : Z → option Z) (B : Z) s :
  (∀ r d, dig r = Some d → 0 ≤ d < B) → 0 < B →
  ∀ k a n, 0 ≤ a < B ^ Z.of_nat k →
  foldl (λ acc r, match acc, dig r with Some m, Some d => Some (B * m + d) | _, _ => None end)
    (Some a) s = Some n → 0 ≤ n < B ^ Z.of_nat (k + length s).
Proof.
  intros Hd HB. induction s as [|r s IH]; intros k a n Ha; simpl.
  - intros [= <-]. by rewrite Nat.add_0_r.
  - destruct (dig r) as [d|] eqn:E.
    + intros Hf. replace (k + S (length s))%nat with (S k + length s)%nat by lia.
      apply (IH _ (B * a + d)); [|done]. apply Hd in E. rewrite Nat2Z.inj_succ, Z.pow_succ_r by lia.
      nia.
    + intros Hf. exfalso. revert Hf. clear. by induction s.
Qed.

Lemma digit_bound r d : digit r = Some d → 0 ≤ d < 10.
Proof. unfold digit. case_match; intros; simplify_eq; to_prop. lia. Qed.

Lemma hexdigit_bound r d : hexdigit r = Some d → 0 ≤ d < 16.
Proof. unfold hexdigit. repeat case_match; intros; simplify_eq; to_prop; lia. Qed.

Lemma octet_byte s n : octet s = Some n → byte n.
Proof.
  unfold octet, decimal, byte. destruct s as [|r s]; [done|]. case_match eqn:E; [|done].
  apply (foldl_digits digit 10 _ digit_bound ltac:(lia) 0) in E; [|simpl; lia].
  case_match; [|done]. intros [= ->]. to_prop. lia.
Qed.

Lemma group_bytes s g : group s = Some g → Forall byte g.
Proof.
  unfold group. case_match eqn:El; [done|]. case_match eqn:E; [|done]. intros [= <-].
  apply (foldl_digits hexdigit 16 _ hexdigit_bound ltac:(lia) 0) in E; [|simpl; lia].
  to_prop. assert (16 ^ Z.of_nat (0 + length s) ≤ 16 ^ 4) by (apply Z.pow_le_mono_r; lia).
  unfold byte. repeat constructor; try (apply Z.mod_pos_bound; lia).
  - apply Z.div_pos; lia.
  - apply Z.div_lt_upper_bound; lia.
Qed.

Lemma parseIPv4_bytes s ip : parseIPv4 s = Some ip → Forall byte ip ∧ length ip = 4%nat.
Proof.
  unfold parseIPv4. repeat (case_match; try done). intros Hm.
  apply (mapM_opt_Forall _ byte) in Hm; [done|]. apply octet_byte.
Qed.

Lemma groups_bytes e ws g : groups e ws = Some g → Forall byte g.
Proof.
  revert g. induction ws as [|w [|w' ws] IH]; intros g; [intros [= <-]; constructor|..].
  - simpl. case_match eqn:E; [intros [= <-]; by eapply group_bytes|].
    destruct e; [|done]. intros Hp. by apply parseIPv4_bytes in Hp as [? _].
  - change (groups e (w :: w' :: ws)) with
      (match group w, groups e (w' :: ws) with Some g, Some gs => Some (g ++ gs) | _, _ => None end).
    case_match eqn:E; [|done]. case_match; [|done]. intros [= <-].
    apply Forall_app; split; [by eapply group_bytes | by apply IH].
Qed.

Lemma side_bytes e s g : side e s = Some g → Forall byte g.
Proof. destruct s; [intros [= <-]; constructor | apply groups_bytes]. Qed.

Lemma parseIPv6_bytes s ip : parseIPv6 s = Some ip → Forall byte ip ∧ length ip = 16%nat.
Proof.
  unfold parseIPv6. destruct (split_ellipsis s) as [[x y]|].
  - destruct (side false x) as [g|] eqn:Eg; [|done]. destruct (side true y) as [h|] eqn:Eh; [|done].
    case_match eqn:El; [|done]. intros [= <-]. to_prop. split.
    + repeat apply Forall_app_2; [by eapply side_bytes| |by eapply side_bytes].
      apply Forall_replicate. unfold byte; lia.
    + rewrite !length_app, length_replicate. lia.
  - case_match eqn:E; [|done]. case_match eqn:El; [|done]. intros [= <-]. to_prop.
    split; [by eapply groups_bytes | done].
Qed.

Lemma ParseIP_bytes s ip : ParseIP s = Some ip → Forall byte ip ∧ length ip = 16%nat.
Proof.
  unfold ParseIP. case_bool_decide; [apply parseIPv6_bytes|]. case_match eqn:E; [|done].
  apply parseIPv4_bytes in E as [Hb Hl]. intros [= <-]. split.
  2: { simpl. by rewrite Hl. }
  apply (Forall_app_2 _ v4_prefix); [|done]. unfold v4_prefix, byte. repeat constructor; lia.
Qed.

(** ** The refused addresses are the documented ranges *)

(** The ranges as networks: unspecified, link-local and multicast. *)
Definition forbidden : list string :=
  ["0.0.0.0/32"; "::/128"; "169.254.0.0/16"; "fe80::/10"; "224.0.0.0/4"; "ff00::/8"].

Definition within (ip : IP) (cidr : string) : bool :=
  match ParseCIDR (lit cidr) with Some n => Contains n ip | None => false end.

(** What [Contains] compares an address with: the network's length, its
    masked bytes and its mask. *)
Definition network (cidr : string) : option (nat * IP * IP) :=
  match ParseCIDR (lit cidr) with
  | None => None
  | Some n =>
      let nn := match To4 (net_ip n) with Some v4 => v4 | None => net_ip n end in
      let m := if (length nn =? 4)%nat && (length (net_mask n) =? 16)%nat
               then drop 12 (net_mask n) else net_mask n in
      Some (length nn, mask_ip nn m, m)
  end.

Lemma within_network ip cidr k nn m :
  network cidr = Some (k, nn, m) →
  within ip cidr = (let x := match To4 ip with Some v4 => v4 | None => ip end in
                    (length x =? k)%nat && bool_decide (nn = mask_ip x m)).
Proof.
  unfold network, within. destruct (ParseCIDR (lit cidr)) as [n|]; [|done].
  intros [= <- <- <-]. done.
Qed.

Ltac networks :=
  unfold forbidden; cbn [map];
  repeat match goal with |- context [within ?ip ?c] =>
    erewrite (within_network ip c) by (vm_compute; reflexivity) end.

Ltac same_test :=
  apply bool_decide_ext; split; [intros [=] | intros; destruct_and?]; subst; repeat split; congruence.

Lemma land_byte b : byte b → Z.land b 255 = b.
Proof.
  unfold byte. intros Hb. change 255 with (Z.ones 8). rewrite Z.land_ones by lia.
  apply Z.mod_small. change (2 ^ 8) with 256. lia.
Qed.

(** A sixteen-byte address is IPv4-mapped or not. *)
Lemma To4_cases ip :
  length ip = 16%nat →
  (∃ a b c d, ip = v4_prefix ++ [a; b; c; d] ∧ To4 ip = Some [a; b; c; d]) ∨ To4 ip = None.
Proof.
  intros Hl. unfold To4. rewrite Hl. simpl. case_bool_decide as Hp; [left|by right].
  destruct (drop 12 ip) as [|a [|b [|c [|d [|? ?]]]]] eqn:Ed;
    try (apply (f_equal length) in Ed; rewrite length_drop, Hl in Ed; done).
  exists a, b, c, d. split; [|done]. by rewrite <-(take_drop 12 ip), Hp, Ed.
Qed.

Lemma within_v4 a b c d :
  byte a → byte b → byte c → byte d →
  let ip := v4_prefix ++ [a; b; c; d] in
  map (within ip) forbidden =
  [bool_decide ([a; b; c; d] = [0; 0; 0; 0]); false;
   bool_decide (a = 169 ∧ b = 254); false; bool_decide (Z.land a 240 = 224); false].
Proof.
  intros Ha Hb Hc Hd ip.
  assert (Hto : To4 ip = Some [a; b; c; d]) by done.
  networks. rewrite Hto. cbn -[Z.land]. unfold mask_ip. cbn -[Z.land].
  rewrite !land_byte, ?Z.land_0_r by done.
  repeat (apply (f_equal2 cons); [done || same_test|]). done.
Qed.

Lemma within_v6 ip :
  Forall byte ip → length ip = 16%nat → To4 ip = None →
  map (within ip) forbidden =
  [false; bool_decide (ip = replicate 16 0); false;
   bool_decide (byte_at 0 ip = 254 ∧ Z.land (byte_at 1 ip) 192 = 128); false;
   bool_decide (byte_at 0 ip = 255)].
Proof.
  intros Hb Hl Hto. networks. rewrite Hto. clear Hto.
  do 16 (destruct ip as [|? ip]; [done|]). destruct ip; [|done]. clear Hl.
  rewrite !Forall_cons in Hb. destruct_and! Hb.
  cbn -[Z.land]. unfold mask_ip. cbn -[Z.land].
  rewrite !land_byte, ?Z.land_0_r by done.
  unfold byte_at. cbn -[Z.land].
  repeat (apply (f_equal2 cons); [done || same_test|]). done.
Qed.

Lemma guards_None {E} (b1 b2 b3 : bool) (e1 e2 e3 : E) :
  (if b1 then Some e1 else if b2 then Some e2 else if b3 then Some e3 else None) = None ↔
  b1 = false ∧ b2 = false ∧ b3 = false.
Proof. destruct b1, b2, b3; intuition congruence. Qed.

(** The admin API's address check refuses exactly the documented ranges:
    for an address whose host is an IP literal it answers that the address is
    fine precisely when the IP lies in none of the unspecified, link-local and
    multicast networks, IPv4-mapped IPv6 spellings included. *)
Theorem backend_addr_ranges addr host port ip :
  SplitHostPort (lit addr) = Some (host, port) → host ≠ [] → port ≠ [] →
  ParseIP (Trim host) = Some ip →
  validateBackendAddr addr = None ↔ Forall (fun c => within ip c = false) forbidden.
Proof.
  intros Hs Hh Hp Hip. unfold validateBackendAddr.
  rewrite bool_decide_false by (intros ->; discriminate Hs).
  rewrite Hs, !bool_decide_false, Hip by done.
  apply ParseIP_bytes in Hip as [Hb Hl].
  transitivity (Forall (fun b => b = false) (map (within ip) forbidden)).
  2: { by rewrite Forall_fmap. }
  unfold checkBackendIP, IsUnspecified, IsLinkLocalUnicast, IsLinkLocalMulticast, IsMulticast.
  destruct (To4_cases ip Hl) as [(a & b & c & d & -> & ->)|Hto].
  - apply Forall_app in Hb as [_ Hb]. rewrite !Forall_cons in Hb. destruct_and! Hb.
    rewrite within_v4 by done. rewrite !Forall_cons, guards_None. unfold byte_at. cbn -[Z.land].
    rewrite !bool_decide_eq_false, orb_false_iff, !andb_false_iff, !Z.eqb_neq.
    assert (a = 224 → Z.land a 240 = 224) by (by intros ->).
    destruct (Z.eq_dec a 169), (Z.eq_dec b 254), (Z.eq_dec a 224); intuition.
  - rewrite Hto, within_v6, Hl by done. rewrite !Forall_cons, guards_None. cbn -[Z.land replicate].
    rewrite !bool_decide_eq_false, orb_false_iff, !andb_false_iff, !Z.eqb_neq.
    destruct (Z.eq_dec (byte_at 0 ip) 254), (Z.eq_dec (Z.land (byte_at 1 ip) 192) 128),
      (Z.eq_dec (byte_at 0 ip) 255); intuition.
Qed.

Lemma backend_addr_ranges_witness :
  validateBackendAddr "[::ffff:169.254.169.254]:80" = None ↔
  Forall (fun c => within (v4_prefix ++ [169; 254; 169; 254]) c = false) forbidden.
Proof.
  eapply backend_addr_ranges; [vm_compute; reflexivity | done | done | vm_compute; reflexivity].
Defined.

(** A link-local address written with its zone is not parsed as an IP and so
    passes for a host name: fe80::/10 is reachable with a zone suffix. *)
Theorem zoned_link_local_accepted :
  validateBackendAddr "[fe80::1]:5432" = Some AddrLinkLocal ∧
  validateBackendAddr "[fe80::1%eth0]:5432" = None.
Proof. split; vm_compute; reflexivity. Qed.

End BackendAddr.
