(* ===== verification/Registry.v ===== *)
(** * The pool registry

    src/registry.go, src/router.go, src/reload.go and the sweep of
    src/passthrough_reaper.go: the live set of pools keyed by pool name and
    backend identity, routing, reconfiguration and the config reload.  The
    mutex makes every method atomic, except [Resolve], which drops the read
    lock before it creates a pass-through entry: it is two operations.  A reload
    is one operation for each pool it looks at.
    [time.Now] is an argument. *)

From Stdlib Require Import Ascii.
From S2P Require Import Prelude GoStrings Config HBA BackendAddr Pool.
Import Config.
Open Scope string_scope.
Open Scope list_scope.
Open Scope Z_scope.

Module Registry.

(** ** Keys *)

Definition poolKey (name backendUser : string) : string :=
  if bool_decide (backendUser = "") then name
  else name +:+ poolKeySeparator +:+ backendUser.

(** ** State *)

(** How a pool opens connections. *)
Inductive dialer :=
| DialBackend (dsn addr : string) (requireTLS : bool)
| PassthroughDialer (dsn user : string) (requireTLS : bool).

(** What [pool.New] was called with. *)
Record poolSpec := mkSpec {
  spec_name : string;
  spec_dial : dialer;
  spec_opts : Pool.Options;
  spec_checkTimeout : Z;
}.

Record registryEntry := mkEntry {
  poolName : string;
  backendUser : string;
  config : PoolConfig;
  passthrough : bool;
  pool : nat;             (** which [*pool.Pool], by creation order *)
  spec : poolSpec;
  dnsWatched : bool;      (** [dnsStop] stops a watcher *)
  lastRouted : Z;
}.

Record PoolRegistry := mkRegistry {
  defaults : option Config;
  keys : option (gset string);      (** users in the client key store *)
  entries : gmap string registryEntry;
  byDatabase : gmap string string;
  nextPool : nat;
  watchers : gset nat;              (** pools with a running DNS watcher *)
}.

Definition with_entries m r := mkRegistry (defaults r) (keys r) m (byDatabase r) (nextPool r) (watchers r).
Definition with_byDatabase m r := mkRegistry (defaults r) (keys r) (entries r) m (nextPool r) (watchers r).

(** ** Building a pool *)

Definition requireTLS (d : option Config) : bool :=
  match d with Some c => RequireBackendTLS c | None => false end.

Definition dialerFor (d : option Config) (cfg : PoolConfig) (user : string) (pt : bool) : dialer :=
  if pt then PassthroughDialer (BackendDSN cfg) user (requireTLS d)
  else DialBackend (BackendDSN cfg) (BackendAddr cfg) (requireTLS d).

Definition pos (z : Z) : Z := if 0 <? z then z else 0.

Definition defaultHealthCheckTimeout : Z := 500 * Millisecond.

(** The options [newPool] passes; an option it leaves out keeps the pool's
    zero value. *)
Definition newPool (d : option Config) (name : string) (cfg : PoolConfig) (dial : dialer) : poolSpec :=
  let zero := Pool.mkOptions (Z.to_nat (Limit cfg)) true true 0 0 0 0 0 0 0 0 in
  match d with
  | None => mkSpec name dial zero defaultHealthCheckTimeout
  | Some c =>
      let l := poolLifecycleDefaults c cfg in
      let cb := (0 <? l_CircuitThreshold l) && (0 <? l_CircuitCooldown l) in
      mkSpec name dial
        {| Pool.limit := Z.to_nat (Limit cfg);
           Pool.hasHealthCheck := true;
           Pool.hasOnEvent := true;
           Pool.idleTimeout := pos (l_IdleTimeout l);
           Pool.maxLifetime := pos (l_MaxLifetime l);
           Pool.healthCheckDelay := pos (l_HealthCheckDelay l);
           Pool.minIdle := Z.to_nat (l_MinIdle l);
           Pool.dialRetryMax := Z.to_nat (l_DialRetry l);
           Pool.dialRetryBackoff := if 0 <? l_DialRetry l then l_DialRetryBackoff l else 0;
           Pool.cbThreshold := if cb then l_CircuitThreshold l else 0;
           Pool.cbCooldown := if cb then l_CircuitCooldown l else 0 |}
        (if 0 <? HealthCheckTimeout c then HealthCheckTimeout c else defaultHealthCheckTimeout)
  end.

(** [startDNSWatcherFor] and the start of [startDNSWatcher]: a watcher runs
    for host names, when an interval is configured. *)
Definition startDNSWatcherFor (d : option Config) (cfg : PoolConfig) : bool :=
  match d with
  | None => false
  | Some c =>
      (0 <? DNSResolveInterval c) &&
      (let addr := HBA.lit (BackendAddr cfg) in
       let host := match BackendAddr.SplitHostPort addr with Some (h, _) => h | None => addr end in
       match BackendAddr.ParseIP host with Some _ => false | None => true end)
  end.

Definition newEntry (t : Z) (name user : string) (cfg : PoolConfig) (pt : bool) (r : PoolRegistry) :
  registryEntry :=
  mkEntry name user cfg pt (nextPool r)
    (newPool (defaults r) (poolKey name user) cfg (dialerFor (defaults r) cfg user pt))
    (startDNSWatcherFor (defaults r) cfg) t.

(** [r.entries[poolKey(name, user)] = r.newEntry(...)] *)
Definition putEntry (t : Z) (name user : string) (cfg : PoolConfig) (pt : bool) (r : PoolRegistry) :
  PoolRegistry :=
  let e := newEntry t name user cfg pt r in
  mkRegistry (defaults r) (keys r) (<[poolKey name user := e]> (entries r)) (byDatabase r)
    (S (nextPool r))
    (if dnsWatched e then {[ pool e ]} ∪ watchers r else watchers r).

Definition setDSN (dsn : string) (c : PoolConfig) : PoolConfig :=
  mkPoolConfig dsn (BackendAddr c) (Limit c) (BackendUsers c) (ScramPassthrough c) (Aliases c)
    (PoolMode c) (MinIdle c) (IdleTimeout c) (MaxLifetime c) (HealthCheckDelay c) (LoginRetry c)
    (LoginBackoff c).

Definition setLimit (n : Z) (c : PoolConfig) : PoolConfig :=
  mkPoolConfig (BackendDSN c) (BackendAddr c) n (BackendUsers c) (ScramPassthrough c) (Aliases c)
    (PoolMode c) (MinIdle c) (IdleTimeout c) (MaxLifetime c) (HealthCheckDelay c) (LoginRetry c)
    (LoginBackoff c).

(** Every database name that routes to a pool. *)
Definition served (name : string) (cfg : PoolConfig) : list string := name :: aliases cfg.

Definition route (name : string) (ds : list string) (m : gmap string string) : gmap string string :=
  foldl (fun m d => <[d := name]> m) m ds.

Section ranging.
Context `{MapRange}.

Definition addEntries (t : Z) (name : string) (cfg : PoolConfig) (r : PoolRegistry) : PoolRegistry :=
  let r := with_byDatabase (route name (served name cfg) (byDatabase r)) r in
  let r := putEntry t name "" cfg false r in
  foldl (fun r '(user, dsn) => putEntry t name user (setDSN dsn cfg) false r) r (range (users cfg)).

Definition NewPoolRegistry (t : Z) (d : option Config) (initial : gmap string PoolConfig) : PoolRegistry :=
  foldl (fun r '(name, cfg) => addEntries t name cfg r)
    (mkRegistry d None ∅ ∅ 0 ∅) (range initial).

Definition SetClientKeyStore (store : gset string) (r : PoolRegistry) : PoolRegistry :=
  mkRegistry (defaults r) (Some store) (entries r) (byDatabase r) (nextPool r) (watchers r).

(** [clientKeyStore.remember]; a nil store remembers nothing. *)
Definition remember (user : string) (r : PoolRegistry) : PoolRegistry :=
  match keys r with
  | None => r
  | Some ks => SetClientKeyStore ({[ user ]} ∪ ks) r
  end.

(** ** Routing *)

Definition has_key (r : PoolRegistry) (user : string) : bool :=
  match keys r with Some ks => bool_decide (user ∈ ks) | None => false end.

Definition backendIdentityFor (r : PoolRegistry) (cfg : PoolConfig) (user : string) : string * bool :=
  if bool_decide (user = "") then ("", false)
  else match users cfg !! user with
       | Some _ => (user, false)
       | None => if ScramPassthrough cfg && has_key r user then (user, true) else ("", false)
       end.

(** What [Resolve] knows when it drops the read lock. *)
Inductive lookup_result :=
| NotConfigured
| Exists (key : string) (e : registryEntry)
| NeedsEntry (name user : string) (baseCfg : PoolConfig).

Definition resolveRead (r : PoolRegistry) (database user : string) : lookup_result :=
  match byDatabase r !! database with
  | None => NotConfigured
  | Some name =>
      match entries r !! poolKey name "" with
      | None => NotConfigured
      | Some base =>
          let '(u, pt) := backendIdentityFor r (config base) user in
          match entries r !! poolKey name u with
          | Some e => Exists (poolKey name u) e
          | None => if pt then NeedsEntry name user (config base) else NotConfigured
          end
      end
  end.

(** [e.lastRouted.Store]: through the pointer, so an entry that has left the
    map, or has been replaced, is not the one stamped. *)
Definition stamp (t : Z) (key : string) (e : registryEntry) (r : PoolRegistry) : PoolRegistry :=
  match entries r !! key with
  | Some e' =>
      if (pool e' =? pool e)%nat
      then with_entries (<[key := mkEntry (poolName e') (backendUser e') (config e') (passthrough e')
             (pool e') (spec e') (dnsWatched e') t]> (entries r)) r
      else r
  | None => r
  end.

Definition routed : Type := option (string * registryEntry).

Definition createPassthroughEntry (t : Z) (name user : string) (cfg : PoolConfig) (r : PoolRegistry) :
  PoolRegistry * routed :=
  let key := poolKey name user in
  match entries r !! key with
  | Some e => (r, Some (key, e))
  | None =>
      match entries r !! poolKey name "" with
      | None => (r, None)
      | Some _ => (putEntry t name user cfg true r, Some (key, newEntry t name user cfg true r))
      end
  end.

(** The part of [Resolve] after the read lock. *)
Definition resolveFinish (t : Z) (l : lookup_result) (r : PoolRegistry) : PoolRegistry * routed :=
  match l with
  | NotConfigured => (r, None)
  | Exists key e => (if passthrough e then stamp t key e r else r, Some (key, e))
  | NeedsEntry name user cfg => createPassthroughEntry t name user cfg r
  end.

Definition Resolve (t : Z) (database user : string) (r : PoolRegistry) : PoolRegistry * routed :=
  resolveFinish t (resolveRead r database user) r.

Definition Get (r : PoolRegistry) (key : string) : option registryEntry :=
  match entries r !! key with
  | Some e => Some e
  | None => match byDatabase r !! key with
            | Some name => entries r !! poolKey name ""
            | None => None
            end
  end.

Definition ResolveName (r : PoolRegistry) (name : string) : string := default name (byDatabase r !! name).

Definition PoolConfigOf (r : PoolRegistry) (key : string) : option PoolConfig := config <$> Get r key.

Definition str_le (a b : string) : Prop := String.leb a b = true.
#[export] Instance str_le_dec a b : Decision (str_le a b).
Proof. unfold str_le. apply _. Defined.
Definition sort_strings : list string → list string := merge_sort str_le.

Definition Names (r : PoolRegistry) : list string := sort_strings (range (entries r)).*1.

(** The loop with its [seen] set. *)
Fixpoint firstSeen (seen : gset string) (l : list string) : list string :=
  match l with
  | [] => []
  | n :: l => if bool_decide (n ∈ seen) then firstSeen seen l
              else n :: firstSeen ({[ n ]} ∪ seen) l
  end.

Definition PoolNames (r : PoolRegistry) : list string :=
  sort_strings (firstSeen ∅ (poolName ∘ snd <$> range (entries r))).

(** ** Changing the set of pools *)

Inductive regErr :=
| PoolNameRequired | PoolNameSlash | DSNAddrRequired | LimitNotPositive
| BadAddr (e : BackendAddr.addrErr) | PoolExists | PoolNotFound.

Definition validatePoolConfig (name : string) (cfg : PoolConfig) : option regErr :=
  if bool_decide (name = "") then Some PoolNameRequired
  else if has_separator name then Some PoolNameSlash
  else if bool_decide (BackendDSN cfg = "") || bool_decide (BackendAddr cfg = "")
  then Some DSNAddrRequired
  else if Limit cfg <=? 0 then Some LimitNotPositive
  else BadAddr <$> BackendAddr.validateBackendAddr (BackendAddr cfg).

Definition Add (t : Z) (name : string) (cfg : PoolConfig) (r : PoolRegistry) : result regErr PoolRegistry :=
  match validatePoolConfig name cfg with
  | Some e => Err e
  | None =>
      match entries r !! poolKey name "" with
      | Some _ => Err PoolExists
      | None => Ok (addEntries t name cfg r)
      end
  end.

Definition takeEntries (name : string) (r : PoolRegistry) : list registryEntry * PoolRegistry :=
  let out := filter (fun e => poolName e = name) (range (entries r)).*2 in
  let r := with_entries (filter (fun '(_, e) => poolName e ≠ name) (entries r)) r in
  (out, if bool_decide (out = []) then r
        else with_byDatabase (filter (fun '(_, target) => target ≠ name) (byDatabase r)) r).

(** The loop that stops the watchers and collects the pools to drain. *)
Definition stopWatchers (old : list registryEntry) (r : PoolRegistry) : PoolRegistry :=
  mkRegistry (defaults r) (keys r) (entries r) (byDatabase r) (nextPool r)
    (watchers r ∖ list_to_set (pool <$> old)).

Definition Reconfigure (t : Z) (name : string) (cfg : PoolConfig) (r : PoolRegistry) :
  result regErr (PoolRegistry * list nat * bool) :=
  match validatePoolConfig name cfg with
  | Some e => Err e
  | None =>
      match entries r !! poolKey name "" with
      | None => Err PoolNotFound
      | Some base =>
          if bool_decide (config base = cfg) then Ok (r, [], false)
          else let '(old, r) := takeEntries name r in
               Ok (addEntries t name cfg (stopWatchers old r), pool <$> old, true)
      end
  end.

Definition Remove (name : string) (r : PoolRegistry) : result regErr (PoolRegistry * list nat) :=
  let '(removed, r') := takeEntries name r in
  if bool_decide (removed = []) then Err PoolNotFound
  else Ok (stopWatchers removed r', pool <$> removed).

Definition Resize (t : Z) (name : string) (newLimit : Z) (r : PoolRegistry) :
  result regErr (PoolRegistry * list nat) :=
  if newLimit <=? 0 then Err LimitNotPositive
  else match entries r !! poolKey name "" with
       | None => Err PoolNotFound
       | Some base =>
           let cfg := setLimit newLimit (config base) in
           let '(old, r) := takeEntries name r in
           Ok (addEntries t name cfg (stopWatchers old r), pool <$> old)
       end.

(** The three conditions of the eviction; [inUse] is each pool's
    [Stats().InUse] as the sweep reads it. *)
Definition evictable (cutoff : Z) (active : gset string) (inUse : nat → nat) (key : string)
    (e : registryEntry) : bool :=
  passthrough e && bool_decide (key ∉ active) && (lastRouted e <=? cutoff) && (inUse (pool e) =? 0)%nat.

Definition EvictIdlePassthrough (t idleFor : Z) (active : gset string) (inUse : nat → nat)
    (r : PoolRegistry) : PoolRegistry * list string * list nat :=
  if idleFor <=? 0 then (r, [], [])
  else
    let victim k e := evictable (t - idleFor) active inUse k e in
    let evicted := filter (fun '(k, e) => victim k e = true) (entries r) in
    let ks := sort_strings (range evicted).*1 in
    (stopWatchers (range evicted).*2
       (with_entries (filter (fun '(k, e) => victim k e = false) (entries r)) r),
     ks, omap (fun k => pool <$> evicted !! k) ks).

(** passthrough_reaper.go: how often the sweep runs. *)
Definition passthroughReapInterval (idleFor : Z) : Z :=
  let interval := Z.quot idleFor 4 in
  let interval := if interval <? 30 * Second then 30 * Second else interval in
  if 24 * Hour <? interval then 24 * Hour else interval.

(** ** Router *)

Record RouteDecision := mkDecision {
  Pool : nat; PoolName : string; RoutePoolMode : string; SessionMode : bool;
}.

Definition effectivePoolMode (configured : string) : string :=
  let mode := ToLower configured in
  if bool_decide (mode = "") then "transaction" else mode.

Definition Route (t : Z) (params : gmap string string) (r : PoolRegistry) :
  PoolRegistry * option RouteDecision :=
  let '(r, res) := Resolve t (default "" (params !! "database")) (default "" (params !! "user")) r in
  (r, match res with
      | None => None
      | Some (key, e) =>
          let mode := effectivePoolMode (PoolMode (config e)) in
          Some (mkDecision (pool e) key mode (bool_decide (mode = "session")))
      end).

(** ** Reload *)

Record ReloadResult := mkResult {
  Added : list string; Removed : list string; Reconfigured : list string; Unchanged : list string;
  drained : list nat;  (** handed to [drainPoolsInBackground] *)
  errs : list (string * regErr);
}.

(** One iteration of the loop over the names in the file. *)
Definition applyOne (t : Z) (pools : gmap string PoolConfig) (current : list string)
    (s : PoolRegistry * ReloadResult) (name : string) : PoolRegistry * ReloadResult :=
  let '(r, x) := s in
  match pools !! name with
  | None => s
  | Some cfg =>
      if bool_decide (name ∈ current) then
        match Reconfigure t name cfg r with
        | Err e => (r, mkResult (Added x) (Removed x) (Reconfigured x) (Unchanged x) (drained x)
                         (errs x ++ [(name, e)]))
        | Ok (r', old, true) =>
            (r', mkResult (Added x) (Removed x) (Reconfigured x ++ [name]) (Unchanged x)
                   (drained x ++ old) (errs x))
        | Ok (r', _, false) =>
            (r', mkResult (Added x) (Removed x) (Reconfigured x) (Unchanged x ++ [name]) (drained x)
                   (errs x))
        end
      else
        match Add t name cfg r with
        | Err e => (r, mkResult (Added x) (Removed x) (Reconfigured x) (Unchanged x) (drained x)
                         (errs x ++ [(name, e)]))
        | Ok r' => (r', mkResult (Added x ++ [name]) (Removed x) (Reconfigured x) (Unchanged x)
                          (drained x) (errs x))
        end
  end.

(** One iteration of the loop that removes surplus pools. *)
Definition removeOne (pools : gmap string PoolConfig) (s : PoolRegistry * ReloadResult) (name : string) :
  PoolRegistry * ReloadResult :=
  let '(r, x) := s in
  match pools !! name with
  | Some _ => s
  | None =>
      match Remove name r with
      | Err e => (r, mkResult (Added x) (Removed x) (Reconfigured x) (Unchanged x) (drained x)
                       (errs x ++ [(name, e)]))
      | Ok (r', old) => (r', mkResult (Added x) (Removed x ++ [name]) (Reconfigured x) (Unchanged x)
                               (drained x ++ old) (errs x))
      end
  end.

Definition noResult : ReloadResult := mkResult [] [] [] [] [] [].

(** The reload takes the registry's lock anew for the list of names and for every
    pool: where it is between two of these, and the step it makes next. *)
Inductive reloading :=
| Starting
| Applying (currentNames fileNames : list string) (x : ReloadResult)
| Removing (surplus : list string) (x : ReloadResult)
| Reloaded (x : ReloadResult).

Definition reloadStep (t : Z) (pools : gmap string PoolConfig) (r : PoolRegistry) (pc : reloading) :
  option (PoolRegistry * reloading) :=
  match pc with
  | Starting => Some (r, Applying (PoolNames r) (sort_strings (range pools).*1) noResult)
  | Applying currentNames [] x => Some (r, Removing currentNames x)
  | Applying currentNames (n :: fileNames) x =>
      let '(r', x') := applyOne t pools currentNames (r, x) n in Some (r', Applying currentNames fileNames x')
  | Removing [] x => Some (r, Reloaded x)
  | Removing (n :: surplus) x => let '(r', x') := removeOne pools (r, x) n in Some (r', Removing surplus x')
  | Reloaded _ => None
  end.

(** The reconciliation when nothing else happens, on the pools of a configuration
    [loadConfig] accepted. *)
Definition applyPools (t : Z) (pools : gmap string PoolConfig) (r : PoolRegistry) :
  PoolRegistry * ReloadResult :=
  let currentNames := PoolNames r in
  let fileNames := sort_strings (range pools).*1 in
  let s := foldl (applyOne t pools currentNames) (r, noResult) fileNames in
  foldl (removeOne pools) s currentNames.

Definition applyConfigReload (t : Z) (readFile : string → option string)
    (unmarshal : string → option Config) (path : string) (r : PoolRegistry) :
  result configErr (PoolRegistry * ReloadResult) :=
  let? c := loadConfig readFile unmarshal path in Ok (applyPools t (Pools c) r).

End ranging.

End Registry.
