(* ===== verification/RegistryLemmas.v ===== *)
(** * The registry's invariant

    Keys are unambiguous, and every operation of the registry preserves
    [WF]: each entry sits under the key of its pool and identity, belongs to a
    configured pool, was built from its own configuration, and has a pool and
    a DNS watcher of its own. *)

From Stdlib Require Import Ascii NArith.
From S2P Require Import Prelude GoStrings Config Registry.
Import Config Registry.
Open Scope string_scope.
Open Scope list_scope.
Open Scope nat_scope.

Module RegistryLemmas.

(** ** Sorting strings *)

Lemma Ascii_compare_N a b : Ascii.compare a b = N.compare (N_of_ascii a) (N_of_ascii b).
Proof. done. Qed.

Lemma str_le_refl a : str_le a a.
Proof. unfold str_le. destruct (String.leb_total a a); done. Qed.

#[export] Instance str_le_trans : Transitive str_le.
Proof.
  intros a b c. unfold str_le, String.leb. revert b c.
  induction a as [|x a IH]; intros [|y b] [|z c]; simpl; try done.
  rewrite !Ascii_compare_N.
  destruct (N.compare_spec (N_of_ascii x) (N_of_ascii y)), (N.compare_spec (N_of_ascii y) (N_of_ascii z)),
    (N.compare_spec (N_of_ascii x) (N_of_ascii z)); try lia; try done; try apply IH.
Qed.

#[export] Instance str_le_antisym : AntiSymm (=) str_le.
Proof. intros a b. apply String.leb_antisym. Qed.

#[export] Instance str_le_total : Total str_le.
Proof. intros a b. apply String.leb_total. Qed.

(** Sorting depends only on what is sorted. *)
Lemma sort_strings_perm a b : sort_strings a = sort_strings b ↔ a ≡ₚ b.
Proof.
  unfold sort_strings. split.
  - intros H. rewrite <-(merge_sort_Permutation str_le a), <-(merge_sort_Permutation str_le b). by rewrite H.
  - intros H. apply (StronglySorted_unique str_le).
    + apply Sorted_StronglySorted; [apply _|]. apply Sorted_merge_sort. apply _.
    + apply Sorted_StronglySorted; [apply _|]. apply Sorted_merge_sort. apply _.
    + by rewrite !merge_sort_Permutation.
Qed.

(** ** Keys *)

Lemma poolKey_nil n : poolKey n "" = n.
Proof. done. Qed.

Lemma poolKey_user n u : u ≠ "" → poolKey n u = n +:+ String "/" u.
Proof. intros Hu. unfold poolKey. by rewrite bool_decide_false. Qed.

Lemma has_separator_None s : has_separator s = false ↔ after_byte "/" s = None.
Proof. unfold has_separator. destruct (after_byte "/" s); done. Qed.

Lemma has_separator_key n u :
  has_separator n = false → has_separator (poolKey n u) = negb (bool_decide (u = "")).
Proof.
  intros Hn. case_bool_decide as Hu; [by subst|]. rewrite poolKey_user by done.
  apply has_separator_None in Hn. unfold has_separator. by rewrite after_byte_app.
Qed.

Lemma app_slash_inj n n' u u' :
  after_byte "/" n = None → after_byte "/" n' = None →
  n +:+ String "/" u = n' +:+ String "/" u' → n = n' ∧ u = u'.
Proof.
  revert n'. induction n as [|c n IH]; intros [|c' n'] H H' Heq;
    rewrite ?str_nil_app, ?str_cons_app in Heq; simpl in *; injection Heq.
  - intros ->. done.
  - intros _ <-. done.
  - intros _ ->. done.
  - intros Ht <-. destruct (Ascii.eqb c "/"); [done|]. by destruct (IH n') as [-> ->].
Qed.

(** A registry key determines the pool and the identity. *)
Lemma poolKey_inj n n' u u' :
  has_separator n = false → has_separator n' = false →
  poolKey n u = poolKey n' u' → n = n' ∧ u = u'.
Proof.
  intros Hn Hn' Heq. pose proof (f_equal has_separator Heq) as Hs.
  rewrite !has_separator_key in Hs by done.
  destruct (decide (u = "")) as [->|Hu], (decide (u' = "")) as [->|Hu'];
    rewrite ?(bool_decide_true (u = _)), ?(bool_decide_false (u = _)) in Hs by done;
    try (by repeat case_bool_decide).
  rewrite !poolKey_user in Heq by done. apply has_separator_None in Hn, Hn'.
  by apply app_slash_inj.
Qed.

(** ** The invariant *)

(** Facts about single entries and pairs of them. *)
Record WFE (r : PoolRegistry) : Prop := {
  wf_key : ∀ k e, entries r !! k = Some e →
    k = poolKey (poolName e) (backendUser e) ∧ has_separator (poolName e) = false;
  wf_pt : ∀ k e, entries r !! k = Some e → passthrough e = true → backendUser e ≠ "";
  wf_empty : ∀ k e, entries r !! k = Some e → users (config e) !! "" = None;
  wf_spec : ∀ k e, entries r !! k = Some e →
    spec e = newPool (defaults r) k (config e)
               (dialerFor (defaults r) (config e) (backendUser e) (passthrough e)) ∧
    dnsWatched e = startDNSWatcherFor (defaults r) (config e);
  wf_fresh : ∀ k e, entries r !! k = Some e → pool e < nextPool r;
  wf_distinct : ∀ k k' e e', entries r !! k = Some e → entries r !! k' = Some e' →
    pool e = pool e' → k = k';
  wf_watch : ∀ p, p ∈ watchers r ↔
    ∃ k e, entries r !! k = Some e ∧ pool e = p ∧ dnsWatched e = true;
}.

(** Facts about a pool's entries together, and about routing. *)
Record WFG (r : PoolRegistry) : Prop := {
  wf_base : ∀ k e, entries r !! k = Some e → is_Some (entries r !! poolName e);
  wf_user : ∀ k e b, entries r !! k = Some e → passthrough e = false →
    entries r !! poolName e = Some b →
    backendUser e = "" ∨
    ∃ dsn, users (config b) !! backendUser e = Some dsn ∧ config e = setDSN dsn (config b);
  wf_configured : ∀ n b u, entries r !! n = Some b → backendUser b = "" →
    is_Some (users (config b) !! u) →
    ∃ e, entries r !! poolKey n u = Some e ∧ passthrough e = false;
  wf_routes : ∀ d n, byDatabase r !! d = Some n →
    is_Some (entries r !! n) ∧ has_separator n = false;
}.

Definition WF (r : PoolRegistry) : Prop := WFE r ∧ WFG r.

(** The entry under a bare pool name is that pool's default identity. *)
Lemma base_entry r n b :
  WFE r → has_separator n = false → entries r !! n = Some b → poolName b = n ∧ backendUser b = "".
Proof.
  intros HE Hn Hb. destruct (wf_key r HE _ _ Hb) as [Hk Hs].
  rewrite <-(poolKey_nil n) in Hk. apply poolKey_inj in Hk as [-> ->]; done.
Qed.

(** ** Adding entries *)

Definition made (n u : string) (c : PoolConfig) (pt : bool) (e : registryEntry) : Prop :=
  poolName e = n ∧ backendUser e = u ∧ config e = c ∧ passthrough e = pt.

Lemma putEntry_WFE t n u c pt r :
  WFE r → entries r !! poolKey n u = None → has_separator n = false →
  users c !! "" = None → (pt = true → u ≠ "") → WFE (putEntry t n u c pt r).
Proof.
  intros HE Hnone Hn Hc Hpt.
  assert (Hlt : ∀ k e, entries r !! k = Some e → pool e ≠ nextPool r).
  { intros k e He. apply (wf_fresh r HE) in He. lia. }
  split; simpl.
  - intros k e [[<- <-]|[_ He]]%lookup_insert_Some; [done | by eapply wf_key].
  - intros k e [[<- <-]|[_ He]]%lookup_insert_Some; [done | by eapply wf_pt].
  - intros k e [[<- <-]|[_ He]]%lookup_insert_Some; [done | by eapply wf_empty].
  - intros k e [[<- <-]|[_ He]]%lookup_insert_Some; [done | by eapply wf_spec].
  - intros k e [[<- <-]|[_ He]]%lookup_insert_Some; simpl; [lia|].
    apply (wf_fresh r HE) in He. lia.
  - intros k k' e e' [[<- <-]|[_ He]]%lookup_insert_Some [[<- <-]|[_ He']]%lookup_insert_Some;
      simpl; intros Hp; [done | by apply Hlt in He' | by apply Hlt in He | by eapply wf_distinct].
  - intros p. assert (Hold : p ∈ watchers r →
      ∃ k e, <[poolKey n u := newEntry t n u c pt r]> (entries r) !! k = Some e ∧
             pool e = p ∧ dnsWatched e = true).
    { intros (k & e & He & ?)%(wf_watch r HE). exists k, e.
      rewrite lookup_insert_ne by congruence. done. }
    split.
    + destruct (startDNSWatcherFor (defaults r) c) eqn:Ew; [|done].
      intros [->%elem_of_singleton|?]%elem_of_union; [|auto].
      eexists _, _. by rewrite lookup_insert_eq.
    + intros (k & e & [[<- <-]|[_ He]]%lookup_insert_Some & <- & Hw); simpl in *.
      * rewrite Hw. set_solver.
      * assert (pool e ∈ watchers r) by (apply (wf_watch r HE); eauto). case_match; set_solver.
Qed.

(** A sequence of identities of one pool. *)
Definition puts (t : Z) (n : string) (l : list (string * PoolConfig)) (r : PoolRegistry) : PoolRegistry :=
  foldl (fun r '(u, c) => putEntry t n u c false r) r l.

Record Puts (n : string) (l : list (string * PoolConfig)) (r r' : PoolRegistry) : Prop := {
  puts_WFE : WFE r';
  puts_defaults : defaults r' = defaults r;
  puts_keys : keys r' = keys r;
  puts_routes : byDatabase r' = byDatabase r;
  puts_old : ∀ k e, entries r !! k = Some e → entries r' !! k = Some e;
  puts_new : ∀ k e, entries r' !! k = Some e → entries r !! k = Some e ∨
    ∃ u c, (u, c) ∈ l ∧ k = poolKey n u ∧ made n u c false e;
  puts_made : ∀ u c, (u, c) ∈ l → ∃ e, entries r' !! poolKey n u = Some e ∧ made n u c false e;
}.

Lemma puts_spec t n l r :
  WFE r → has_separator n = false → NoDup l.*1 →
  (∀ u c, (u, c) ∈ l → entries r !! poolKey n u = None ∧ users c !! "" = None) →
  Puts n l r (puts t n l r).
Proof.
  intros HE Hn. revert r HE. induction l as [|[u c] l IH]; intros r HE Hnd Hl; simpl in *.
  - split; try done; [auto | intros ? ? []%not_elem_of_nil].
  - apply NoDup_cons in Hnd as [Hu Hnd]. destruct (Hl u c) as [Hnone Hc]; [by left|].
    destruct (IH (putEntry t n u c false r)) as [HE' Hd Hk Hr Hold Hnew Hmade]; [..|split]; try done.
    + by apply putEntry_WFE.
    + intros u' c' Hin. destruct (Hl u' c') as [? ?]; [by right|]. split; [|done].
      simpl. rewrite lookup_insert_ne; [done|]. intros [_ ->]%poolKey_inj; [|done..].
      apply Hu. apply list_elem_of_fmap. by exists (u', c').
    + intros k e He. apply Hold. simpl. rewrite lookup_insert_ne; [done | congruence].
    + intros k e [He|(u' & c' & ? & ?)]%Hnew; [|right; exists u', c'; split; [by right | done]].
      simpl in He. apply lookup_insert_Some in He as [[<- <-]|[_ He]]; [right | by left].
      exists u, c. split; [by left | done].
    + intros u' c' [[= -> ->]|Hin]%elem_of_cons; [|auto].
      eexists. split; [apply Hold; simpl; apply lookup_insert_eq | done].
Qed.

(** The identities of a configured pool: its own, and one per backend user. *)
Definition identities `{MapRange} (cfg : PoolConfig) : list (string * PoolConfig) :=
  ("", cfg) :: ((fun '(u, dsn) => (u, setDSN dsn cfg)) <$> range (users cfg)).

Lemma users_setDSN dsn c : users (setDSN dsn c) = users c.
Proof. done. Qed.

Section ranging.
Context `{MapRange}.

Lemma addEntries_puts t n cfg r :
  addEntries t n cfg r =
  puts t n (identities cfg) (with_byDatabase (route n (served n cfg) (byDatabase r)) r).
Proof.
  unfold addEntries, puts, identities. cbn [foldl].
  generalize (putEntry t n "" cfg false (with_byDatabase (route n (served n cfg) (byDatabase r)) r)).
  induction (range (users cfg)) as [|[u d] l IH]; intros r'; [done|]. apply IH.
Qed.

Lemma elem_of_identities u c cfg :
  (u, c) ∈ identities cfg ↔
  (u = "" ∧ c = cfg) ∨ ∃ dsn, users cfg !! u = Some dsn ∧ c = setDSN dsn cfg.
Proof.
  unfold identities. rewrite elem_of_cons, list_elem_of_fmap. split.
  - intros [[= -> ->]|([u' d] & [= -> ->] & Hin%elem_of_range)]; eauto.
  - intros [[-> ->]|(dsn & Hu%elem_of_range & ->)]; [by left|]. right. by exists (u, dsn).
Qed.

Lemma NoDup_identities cfg : users cfg !! "" = None → NoDup (identities cfg).*1.
Proof.
  intros Hu.
  assert (Heq : (identities cfg).*1 = "" :: (range (users cfg)).*1).
  { unfold identities. cbn. f_equal. rewrite <-list_fmap_compose.
    apply list_fmap_ext. by intros ? [? ?]. }
  rewrite Heq. constructor; [|apply NoDup_range_fst].
  intros ([u d] & He & Hin%elem_of_range)%list_elem_of_fmap. simpl in He. congruence.
Qed.

Definition clean (n : string) (r : PoolRegistry) : Prop :=
  ∀ k e, entries r !! k = Some e → poolName e ≠ n.

Lemma clean_None n u r :
  WFE r → has_separator n = false → clean n r → entries r !! poolKey n u = None.
Proof.
  intros HE Hn Hcl. apply eq_None_not_Some. intros [e He].
  destruct (wf_key r HE _ _ He) as [Hk Hs].
  apply poolKey_inj in Hk as [-> _]; [|done..]. by eapply Hcl.
Qed.

Lemma addEntries_Puts t n cfg r :
  WFE r → clean n r → has_separator n = false → users cfg !! "" = None →
  Puts n (identities cfg) (with_byDatabase (route n (served n cfg) (byDatabase r)) r)
    (addEntries t n cfg r).
Proof.
  intros HE Hcl Hn Hu. rewrite addEntries_puts. apply puts_spec; [|done|by apply NoDup_identities|].
  - destruct HE; by split.
  - intros u c Hin. split; [by apply (clean_None n u r)|].
    apply elem_of_identities in Hin as [[_ ->]|(dsn & _ & ->)]; done.
Qed.

(** A route is the latest one written. *)
Lemma route_lookup n ds m d :
  route n ds m !! d = if bool_decide (d ∈ ds) then Some n else m !! d.
Proof.
  unfold route. revert m. induction ds as [|x ds IH]; intros m; simpl; [done|].
  rewrite IH. destruct (decide (d ∈ ds)) as [Hd|Hd].
  - rewrite !bool_decide_true by set_solver. done.
  - rewrite (bool_decide_false _ Hd). destruct (decide (d = x)) as [->|Hx].
    + rewrite bool_decide_true, lookup_insert_eq by set_solver. done.
    + rewrite bool_decide_false, lookup_insert_ne by set_solver. done.
Qed.

(** A pool joins a registry that has none of its entries. *)
Lemma addEntries_WF t n cfg r :
  WF r → clean n r → has_separator n = false → users cfg !! "" = None → WF (addEntries t n cfg r).
Proof.
  intros [HE HG] Hcl Hn Hu. destruct (addEntries_Puts t n cfg r) as [HE' _ _ Hr Hold Hnew Hmade]; try done.
  split; [done|]. cbn [byDatabase with_byDatabase entries] in *.
  assert (Hb : ∃ b, entries (addEntries t n cfg r) !! n = Some b ∧ made n "" cfg false b).
  { apply (Hmade "" cfg), elem_of_identities. by left. }
  destruct Hb as (b & Hb & Hbn & Hbu & Hbc & Hbp).
  split.
  - intros k e [He|(u & c & _ & _ & -> & _)]%Hnew; [|by eauto].
    destruct (wf_base r HG _ _ He) as [x Hx]. eauto.
  - intros k e b' [He|(u & c & Hin & -> & Hne & Hue & Hce & _)]%Hnew Hp Hb'.
    + destruct (wf_base r HG _ _ He) as [x Hx].
      replace b' with x in * by (apply Hold in Hx; congruence). by eapply wf_user.
    + rewrite Hne in Hb'. assert (b' = b) as -> by congruence. rewrite Hue, Hbc, Hce.
      apply elem_of_identities in Hin as [[-> _]|(dsn & ? & ->)]; eauto.
  - intros m b' u Hb' Hbu' Hus.
    apply Hnew in Hb' as Hb''. destruct Hb'' as [He|(u' & c & Hin & -> & Hne & Hue & Hce & _)].
    + destruct (wf_configured r HG _ _ _ He Hbu' Hus) as (e & ? & ?). eauto.
    + assert (u' = "") as -> by congruence. rewrite poolKey_nil.
      apply elem_of_identities in Hin as [[_ ->]|(dsn & ? & _)]; [|congruence].
      rewrite Hce in Hus. destruct Hus as [dsn Hdsn].
      destruct (Hmade u (setDSN dsn cfg)) as (e & ? & ? & ? & ? & ?); [|eauto].
      apply elem_of_identities. eauto.
  - intros d m. rewrite Hr, route_lookup. case_bool_decide; [intros [= <-]; eauto|].
    intros Hd. destruct (wf_routes r HG _ _ Hd) as [[x Hx] ?]. eauto.
Qed.

(** ** Removing entries *)

(** Dropping entries and stopping exactly their watchers. *)
Lemma restrict_WFE (P : string * registryEntry → Prop) `{!∀ x, Decision (P x)} m old r :
  WFE r →
  (∀ e, e ∈ old ↔ ∃ k, entries r !! k = Some e ∧ ¬ P (k, e)) →
  WFE (stopWatchers old (with_byDatabase m (with_entries (filter P (entries r)) r))).
Proof.
  intros HE Hold. split; simpl.
  - intros k e [He _]%map_lookup_filter_Some. by eapply wf_key.
  - intros k e [He _]%map_lookup_filter_Some. by eapply wf_pt.
  - intros k e [He _]%map_lookup_filter_Some. by eapply wf_empty.
  - intros k e [He _]%map_lookup_filter_Some. by eapply wf_spec.
  - intros k e [He _]%map_lookup_filter_Some. by eapply wf_fresh.
  - intros k k' e e' [He _]%map_lookup_filter_Some [He' _]%map_lookup_filter_Some.
    by eapply wf_distinct.
  - intros p. rewrite elem_of_difference, elem_of_list_to_set, list_elem_of_fmap, (wf_watch r HE).
    split.
    + intros [(k & e & He & <- & Hw) Hno]. exists k, e. split; [|done].
      apply map_lookup_filter_Some. split; [done|]. destruct (decide (P (k, e))); [done|].
      exfalso. apply Hno. exists e. split; [done|]. apply Hold. eauto.
    + intros (k & e & [He HP]%map_lookup_filter_Some & <- & Hw). split; [eauto|].
      intros (e' & Heq & (k' & He' & HP')%Hold).
      assert (k = k') as <- by (by eapply (wf_distinct r HE)). by simplify_eq.
Qed.

Lemma take_old n r e :
  e ∈ (takeEntries n r).1 ↔ ∃ k, entries r !! k = Some e ∧ poolName e = n.
Proof.
  unfold takeEntries. simpl. rewrite list_elem_of_filter, list_elem_of_fmap. split.
  - intros [<- ([k e'] & -> & Hin%elem_of_range)]. eauto.
  - intros (k & Hk%elem_of_range & <-). split; [done|]. by exists (k, e).
Qed.

(** The registry without a pool. *)
Definition without (n : string) (r : PoolRegistry) : PoolRegistry :=
  stopWatchers (takeEntries n r).1 (takeEntries n r).2.

Lemma without_entries n r k e :
  entries (without n r) !! k = Some e ↔ entries r !! k = Some e ∧ poolName e ≠ n.
Proof.
  unfold without, takeEntries. simpl. case_bool_decide; simpl; apply map_lookup_filter_Some.
Qed.

Lemma take_nil_clean n r : (takeEntries n r).1 = [] → clean n r.
Proof.
  intros Hnil k e He Hne. assert (Hin : e ∈ (takeEntries n r).1) by (apply take_old; eauto).
  rewrite Hnil in Hin. by apply not_elem_of_nil in Hin.
Qed.

Lemma without_routes n r d m :
  WF r → byDatabase (without n r) !! d = Some m ↔ byDatabase r !! d = Some m ∧ m ≠ n.
Proof.
  intros [HE HG]. unfold without, stopWatchers. cbn [byDatabase].
  destruct (decide ((takeEntries n r).1 = [])) as [Hnil|Hne].
  - assert (byDatabase (takeEntries n r).2 = byDatabase r) as ->.
    { unfold takeEntries in *. simpl in *. by rewrite bool_decide_true. }
    split; [|by intros [? _]]. intros Hd. split; [done|]. intros ->.
    destruct (wf_routes r HG _ _ Hd) as [[b Hb] Hn].
    eapply take_nil_clean; [done.. |]. by destruct (base_entry r n b).
  - assert (byDatabase (takeEntries n r).2 = filter (λ '(_, t), t ≠ n) (byDatabase r)) as ->.
    { unfold takeEntries in *. simpl in *. by rewrite bool_decide_false. }
    apply map_lookup_filter_Some.
Qed.

Lemma without_clean n r : clean n (without n r).
Proof. by intros k e [_ ?]%without_entries. Qed.

Lemma without_WF n r : WF r → WF (without n r).
Proof.
  intros Hwf. pose proof Hwf as [HE HG]. split.
  - unfold without. assert (∃ m, (takeEntries n r).2 =
      with_byDatabase m (with_entries (filter (λ '(_, e), poolName e ≠ n) (entries r)) r)) as [m ->].
    { unfold takeEntries. simpl. case_bool_decide; [by exists (byDatabase r)|]. eexists; done. }
    apply restrict_WFE; [done|]. intros e. rewrite take_old.
    split; intros (k & ? & Hn); exists k; split; try done; [tauto|].
    by apply dec_stable.
  - split.
    + intros k e [He Hn]%without_entries. destruct (wf_base r HG _ _ He) as [b Hb].
      exists b. apply without_entries. split; [done|].
      destruct (wf_key r HE _ _ He) as [_ Hs]. by destruct (base_entry r (poolName e) b) as [-> _].
    + intros k e b [He Hn]%without_entries Hp [Hb _]%without_entries. by eapply wf_user.
    + intros m b u [Hb Hn]%without_entries Hbu Hu.
      destruct (wf_configured r HG _ _ _ Hb Hbu Hu) as (e & He & Hp). exists e.
      split; [|done]. apply without_entries. split; [done|]. intros Heq.
      destruct (wf_key r HE _ _ Hb) as [Hk Hs]. destruct (wf_key r HE _ _ He) as [Hk' Hs'].
      rewrite Hbu, poolKey_nil in Hk. subst m. apply poolKey_inj in Hk' as [? _]; congruence.
    + intros d m [Hd Hm]%without_routes; [|done]. destruct (wf_routes r HG _ _ Hd) as [[b Hb] Hs].
      split; [|done]. exists b. apply without_entries. split; [done|].
      by destruct (base_entry r m b) as [-> _].
Qed.

End ranging.

End RegistryLemmas.
