(* ===== verification/RegistryOps.v ===== *)
(** * Every operation of the registry preserves its invariant

    The public methods, the two halves of [Resolve], the eviction sweep and the
    constructor, then the system in which sessions, the admin API, the steps of
    reloads and the reaper interleave. *)

From Stdlib Require Import Ascii.
From S2P Require Import Prelude GoStrings Config ConfigTheorems Registry RegistryLemmas.
Import Config ConfigTheorems Registry RegistryLemmas.
Open Scope string_scope.
Open Scope list_scope.
Open Scope nat_scope.

Module RegistryOps.

(** ** Stamping *)

(** Two entries that differ in [lastRouted] only. *)
Definition sim (e e' : registryEntry) : Prop :=
  poolName e = poolName e' ∧ backendUser e = backendUser e' ∧ config e = config e' ∧
  passthrough e = passthrough e' ∧ pool e = pool e' ∧ spec e = spec e' ∧
  dnsWatched e = dnsWatched e'.

Lemma sim_WF r r' :
  defaults r = defaults r' → byDatabase r = byDatabase r' → nextPool r = nextPool r' →
  watchers r = watchers r' →
  (∀ k e', entries r' !! k = Some e' → ∃ e, entries r !! k = Some e ∧ sim e e') →
  (∀ k e, entries r !! k = Some e → ∃ e', entries r' !! k = Some e' ∧ sim e e') →
  WF r → WF r'.
Proof.
  intros Hd Hr Hnp Hw Hback Hforth [HE HG]. split; split; rewrite <-?Hd, <-?Hr, <-?Hnp, <-?Hw.
  - intros k e' (e & He & <- & <- & _)%Hback. by eapply wf_key.
  - intros k e' (e & He & _ & <- & _ & <- & _)%Hback. by eapply wf_pt.
  - intros k e' (e & He & _ & _ & <- & _)%Hback. by eapply wf_empty.
  - intros k e' (e & He & _ & <- & <- & <- & _ & <- & <-)%Hback. by eapply wf_spec.
  - intros k e' (e & He & _ & _ & _ & _ & <- & _)%Hback. by eapply wf_fresh.
  - intros k k2 e' e2' (e & He & _ & _ & _ & _ & <- & _)%Hback
      (e2 & He2 & _ & _ & _ & _ & <- & _)%Hback. by eapply wf_distinct.
  - intros p. rewrite (wf_watch r HE). split.
    + intros (k & e & (e' & He' & _ & _ & _ & _ & Hp & _ & Hwd)%Hforth & ? & ?).
      exists k, e'. by rewrite <-Hp, <-Hwd.
    + intros (k & e' & (e & He & _ & _ & _ & _ & Hp & _ & Hwd)%Hback & ? & ?).
      exists k, e. by rewrite Hp, Hwd.
  - intros k e' (e & He & <- & _)%Hback. destruct (wf_base r HG _ _ He) as [b Hb].
    destruct (Hforth _ _ Hb) as (b' & ? & _). eauto.
  - intros k e' b' (e & He & <- & <- & <- & <- & _)%Hback Hp
      (b & Hb & _ & _ & <- & _)%Hback. by eapply wf_user.
  - intros n b' u (b & Hb & _ & <- & <- & _)%Hback Hbu Hu.
    destruct (wf_configured r HG _ _ _ Hb Hbu Hu) as (e & (e' & ? & _ & _ & _ & Hp & _)%Hforth & ?).
    exists e'. split; [done | congruence].
  - intros d n Hdn. destruct (wf_routes r HG _ _ Hdn) as [[b Hb] Hs].
    destruct (Hforth _ _ Hb) as (b' & ? & _). eauto.
Qed.

Lemma sim_refl e : sim e e.
Proof. done. Qed.

Lemma stamp_WF t k e r : WF r → WF (stamp t k e r).
Proof.
  unfold stamp. intros Hwf. destruct (entries r !! k) as [e1|] eqn:He1; [|done].
  destruct (pool e1 =? pool e); [|done]. eapply sim_WF; [.. | exact Hwf]; try done; simpl.
  - intros k' e' [[<- <-]|[_ He']]%lookup_insert_Some; [by exists e1 | by exists e'].
  - intros k' e' He'. destruct (decide (k = k')) as [->|Hne].
    + eexists. rewrite lookup_insert_eq. split; [done|]. by simplify_eq.
    + exists e'. by rewrite lookup_insert_ne.
Qed.

(** ** Creating a pass-through entry *)

Lemma create_WF t n u c r :
  WF r → has_separator n = false → u ≠ "" → users c !! "" = None →
  WF (createPassthroughEntry t n u c r).1.
Proof.
  intros Hwf Hn Hu Hc. pose proof Hwf as [HE HG]. unfold createPassthroughEntry.
  destruct (entries r !! poolKey n u) as [e|] eqn:He; [done|]. rewrite poolKey_nil.
  destruct (entries r !! n) as [b|] eqn:Hb; [|done]. cbn [fst].
  destruct (base_entry r n b) as [Hbn Hbu]; try done.
  assert (Hne : poolKey n u ≠ n).
  { intros Heq. rewrite <-(poolKey_nil n) in Heq at 2. by apply poolKey_inj in Heq as [_ ?]. }
  assert (Hkeep : ∀ k x, entries r !! k = Some x →
    entries (putEntry t n u c true r) !! k = Some x).
  { intros k x Hx. simpl. rewrite lookup_insert_ne by congruence. done. }
  split; [by apply putEntry_WFE|]. split; simpl in *.
  - intros k e [[<- <-]|[_ Hx]]%lookup_insert_Some; simpl; [eauto|].
    destruct (wf_base r HG _ _ Hx) as [x ?]. exists x. by apply Hkeep.
  - intros k e b' [[<- <-]|[_ Hx]]%lookup_insert_Some; [done|]. intros Hp.
    destruct (wf_base r HG _ _ Hx) as [x Hbx]. rewrite (Hkeep _ _ Hbx). intros [= <-].
    by eapply wf_user.
  - intros m b' v [[<- <-]|[_ Hx]]%lookup_insert_Some; [done|]. intros Hbv Hus.
    destruct (wf_configured r HG _ _ _ Hx Hbv Hus) as (e & Hk%Hkeep & Hp). eauto.
  - intros d m Hd. destruct (wf_routes r HG _ _ Hd) as [[x Hx%Hkeep] ?]. eauto.
Qed.

Section ranging.
Context `{MapRange}.

(** ** The mutating methods *)

Lemma validate_name n c : validatePoolConfig n c = None → has_separator n = false.
Proof. unfold validatePoolConfig. repeat case_match; done. Qed.

Lemma base_None_clean r n : WF r → entries r !! n = None → clean n r.
Proof.
  intros [_ HG] Hn k e He <-. destruct (wf_base r HG _ _ He). congruence.
Qed.

Lemma Add_WF t n c r r' : WF r → users c !! "" = None → Add t n c r = Ok r' → WF r'.
Proof.
  unfold Add. intros Hwf Hu. destruct (validatePoolConfig n c) eqn:Hv; [done|].
  rewrite poolKey_nil. destruct (entries r !! n) eqn:Hn; [done|]. intros [= <-].
  apply addEntries_WF; [done | by apply base_None_clean | by eapply validate_name | done].
Qed.

Lemma replace_WF t n c r :
  WF r → has_separator n = false → users c !! "" = None → WF (addEntries t n c (without n r)).
Proof. intros. apply addEntries_WF; [by apply without_WF | apply without_clean | done | done]. Qed.

Lemma Reconfigure_eq t n c r r' old ch :
  Reconfigure t n c r = Ok (r', old, ch) →
  has_separator n = false ∧ ∃ b, entries r !! n = Some b ∧
  ((config b = c ∧ r' = r ∧ old = [] ∧ ch = false) ∨
   (config b ≠ c ∧ r' = addEntries t n c (without n r) ∧ old = pool <$> (takeEntries n r).1 ∧ ch = true)).
Proof.
  unfold Reconfigure. destruct (validatePoolConfig n c) eqn:Hv; [done|]. rewrite poolKey_nil.
  destruct (entries r !! n) as [b|] eqn:Hn; [|done]. intros Heq.
  split; [by eapply validate_name|]. exists b. split; [done|]. revert Heq.
  case_bool_decide; [intros [= <- <- <-]; by left|].
  rewrite (surjective_pairing (takeEntries n r)). intros [= <- <- <-]. by right.
Qed.

Lemma Reconfigure_WF t n c r r' old ch :
  WF r → users c !! "" = None → Reconfigure t n c r = Ok (r', old, ch) → WF r'.
Proof.
  intros Hwf Hu (Hs & b & _ & [(_ & -> & _)|(_ & -> & _)])%Reconfigure_eq; [done|].
  by apply replace_WF.
Qed.

Lemma Remove_WF n r r' old : WF r → Remove n r = Ok (r', old) → WF r'.
Proof.
  unfold Remove. rewrite (surjective_pairing (takeEntries n r)).
  case_bool_decide; [done|]. intros Hwf [= <- _]. by apply (without_WF n r).
Qed.

Lemma Resize_WF t n l r r' old :
  WF r → has_separator n = false → Resize t n l r = Ok (r', old) → WF r'.
Proof.
  unfold Resize. intros Hwf Hn. case_match; [done|]. rewrite poolKey_nil.
  destruct (entries r !! n) as [b|] eqn:Hb; [|done].
  rewrite (surjective_pairing (takeEntries n r)). intros [= <- _].
  apply (replace_WF t n _ r); [done..|]. destruct Hwf as [HE _]. by eapply (wf_empty r HE).
Qed.

(** ** Eviction *)

Lemma Evict_entries t idleFor active inUse r k e :
  (0 < idleFor)%Z →
  entries (EvictIdlePassthrough t idleFor active inUse r).1.1 !! k = Some e ↔
  entries r !! k = Some e ∧ evictable (t - idleFor) active inUse k e = false.
Proof.
  intros Hpos. unfold EvictIdlePassthrough. rewrite (proj2 (Z.leb_gt _ _)) by done. simpl.
  apply map_lookup_filter_Some.
Qed.

Lemma Evict_WF t idleFor active inUse r :
  WF r → WF (EvictIdlePassthrough t idleFor active inUse r).1.1.
Proof.
  intros Hwf. destruct (Z_le_gt_dec idleFor 0) as [Hle|Hgt].
  { unfold EvictIdlePassthrough. by rewrite (proj2 (Z.leb_le _ _)) by done. }
  pose proof Hwf as [HE HG].
  pose proof (fun k e => Evict_entries t idleFor active inUse r k e ltac:(lia)) as Hent.
  (* an entry that belongs to the configuration is never evicted *)
  assert (Hkeep : ∀ k e, entries r !! k = Some e → passthrough e = false →
    entries (EvictIdlePassthrough t idleFor active inUse r).1.1 !! k = Some e).
  { intros k e He Hp. apply Hent. split; [done|]. unfold evictable. by rewrite Hp. }
  assert (Hbase : ∀ n b, has_separator n = false → entries r !! n = Some b → passthrough b = false).
  { intros n b Hs Hb. destruct (base_entry r n b) as [_ Hbu]; try done.
    destruct (passthrough b) eqn:Hp; [|done]. by destruct (wf_pt r HE _ _ Hb Hp). }
  split.
  - unfold EvictIdlePassthrough. rewrite (proj2 (Z.leb_gt _ _)) by lia. cbn [fst].
    apply (restrict_WFE _ (byDatabase r)); [done|]. intros e. rewrite list_elem_of_fmap. split.
    + intros ([k e'] & -> & [He Hv]%elem_of_range%map_lookup_filter_Some). exists k.
      split; [done|]. simpl in *. congruence.
    + intros (k & He & Hv). exists (k, e). split; [done|]. apply elem_of_range, map_lookup_filter_Some.
      split; [done|]. by apply not_false_is_true.
  - split.
    + intros k e [He _]%Hent. destruct (wf_base r HG _ _ He) as [b Hb].
      destruct (wf_key r HE _ _ He) as [_ Hs]. exists b. eauto.
    + intros k e b [He _]%Hent Hp [Hb _]%Hent. by eapply wf_user.
    + intros n b u [Hb _]%Hent Hbu Hu.
      destruct (wf_configured r HG _ _ _ Hb Hbu Hu) as (e & ? & ?). eauto.
    + intros d n Hd. assert (Hd' : byDatabase r !! d = Some n).
      { revert Hd. unfold EvictIdlePassthrough. by rewrite (proj2 (Z.leb_gt _ _)) by lia. }
      destruct (wf_routes r HG _ _ Hd') as [[b Hb] Hs]. eauto.
Qed.

(** ** Construction and reload *)

(** What [loadConfig] guarantees of the pools it returns, as the registry
    needs it. *)
Definition PoolsOK (pools : gmap string PoolConfig) : Prop :=
  ∀ n c, pools !! n = Some c → has_separator n = false ∧ users c !! "" = None.

Lemma empty_WF d : WF (mkRegistry d None ∅ ∅ 0 ∅).
Proof.
  split; split; simpl; try (by intros; simplify_map_eq).
  intros p. split; [set_solver|]. intros (k & e & He & _). by simplify_map_eq.
Qed.

(** The names in use. *)
Definition has_pool (r : PoolRegistry) (n : string) : Prop := ∃ k e, entries r !! k = Some e ∧ poolName e = n.

Lemma addEntries_has_pool t n c r m :
  WFE r → clean n r → has_separator n = false → users c !! "" = None →
  has_pool (addEntries t n c r) m → m = n ∨ has_pool r m.
Proof.
  intros HE Hcl Hn Hu (k & e & He & Hm).
  destruct (addEntries_Puts t n c r) as [_ _ _ _ _ Hnew _]; try done.
  destruct (Hnew k e He) as [Hold|(u & x & _ & _ & Hp & _)].
  - right. by exists k, e.
  - left. congruence.
Qed.

Lemma New_WF t d initial : PoolsOK initial → WF (NewPoolRegistry t d initial).
Proof.
  intros Hok. unfold NewPoolRegistry.
  assert (Hl : ∀ n c, (n, c) ∈ range initial → has_separator n = false ∧ users c !! "" = None).
  { intros n c Hin%elem_of_range. by eapply Hok. }
  pose proof (NoDup_range_fst initial) as Hnd.
  assert (Hcl : ∀ n, n ∈ (range initial).*1 → ¬ has_pool (mkRegistry d None ∅ ∅ 0 ∅) n).
  { intros n _ (k & e & He & _). by simplify_map_eq. }
  pose proof (empty_WF d) as Hwf. revert Hl Hnd Hcl Hwf.
  generalize (mkRegistry d None ∅ ∅ 0 ∅). induction (range initial) as [|[n c] l IH]; [done|].
  intros r Hl Hnd Hcl Hwf. simpl in *. apply NoDup_cons in Hnd as [Hn Hnd].
  destruct (Hl n c) as [Hs Hu]; [by left|].
  assert (clean n r) by (intros k e He Heq; apply (Hcl n); [by left | by exists k, e]).
  apply IH; [set_solver | done | | by apply addEntries_WF].
  intros m Hm Hp. destruct Hwf as [HE _].
  apply (addEntries_has_pool _ _ _ _ _ HE) in Hp as [->|Hp]; [by apply Hn | | done..].
  apply (Hcl m); [by right | done].
Qed.

Lemma applyOne_WF t pools current s n : PoolsOK pools → WF s.1 → WF (applyOne t pools current s n).1.
Proof.
  intros Hok. destruct s as [r x]. simpl. intros Hwf.
  destruct (pools !! n) as [c|] eqn:Hc; [|done]. destruct (Hok _ _ Hc) as [_ Hu].
  case_bool_decide.
  - destruct (Reconfigure t n c r) as [[[r' old] []]|e] eqn:Hr; try done; by eapply Reconfigure_WF.
  - destruct (Add t n c r) eqn:Ha; [|done]. by eapply Add_WF.
Qed.

Lemma removeOne_WF pools s n : WF s.1 → WF (removeOne pools s n).1.
Proof.
  destruct s as [r x]. simpl. intros Hwf. destruct (pools !! n); [done|].
  destruct (Remove n r) as [[r' old]|] eqn:Hr; [|done]. by eapply Remove_WF.
Qed.

Lemma foldl_inv {A B} (f : A → B → A) (P : A → Prop) l a :
  (∀ a b, P a → P (f a b)) → P a → P (foldl f a l).
Proof. intros Hf. revert a. induction l as [|b l IH]; simpl; auto. Qed.

Lemma applyPools_WF t pools r : PoolsOK pools → WF r → WF (applyPools t pools r).1.
Proof.
  intros Hok Hwf. unfold applyPools.
  apply (foldl_inv _ (fun s => WF s.1)); [intros; by apply removeOne_WF|].
  apply (foldl_inv _ (fun s => WF s.1)); [intros; by apply applyOne_WF | done].
Qed.

Lemma loaded_ok pools : loaded pools → PoolsOK pools.
Proof.
  intros Hl n c (_ & _ & _ & Hn & Hu)%(loaded_pool _ _ _ Hl). split; [done|].
  destruct (users c !! "") as [dsn|] eqn:E; [|done]. by destruct (Hu _ _ E).
Qed.

Lemma reloadStep_WF t pools r pc r' pc' :
  PoolsOK pools → WF r → reloadStep t pools r pc = Some (r', pc') → WF r'.
Proof.
  intros Hok Hwf. destruct pc as [|cur [|n todo] x|[|n todo] x|x]; cbn [reloadStep]; intros E; try (by simplify_eq).
  - pose proof (applyOne_WF t pools cur (r, x) n Hok Hwf) as W. destruct (applyOne _ _ _ _ _). by simplify_eq.
  - pose proof (removeOne_WF pools (r, x) n Hwf) as W. destruct (removeOne _ _ _). by simplify_eq.
Qed.

(** ** The system

    Sessions resolve in two steps; the admin API, logins, the reaper and any
    number of reloads act in between, a reload with every pool it looks at. *)

Definition state : Type := PoolRegistry * list lookup_result.

(** What a step is asked for. *)
Inductive op :=
| OResolve | OAdd (name : string) | ORemove (name : string) | OResize (name : string) | OReload | OEvict | OLogin.

Inductive rstep : op → state → state → Prop :=
| step_read r P db user : rstep OResolve (r, P) (r, resolveRead r db user :: P)
| step_finish r P1 l P2 t : rstep OResolve (r, P1 ++ l :: P2) ((resolveFinish t l r).1, P1 ++ P2)
| step_add r P t n dsn addr limit r' :
    Add t n (mkPoolConfig dsn addr limit None false None "" 0 0 0 0 0 0) r = Ok r' → rstep (OAdd n) (r, P) (r', P)
| step_remove r P n r' old : Remove n r = Ok (r', old) → rstep (ORemove n) (r, P) (r', P)
| step_resize r P t n l r' old : Resize t n l r = Ok (r', old) → rstep (OResize n) (r, P) (r', P)
| step_reload r P t pools pc r' pc' :
    loaded pools → reloadStep t pools r pc = Some (r', pc') → rstep OReload (r, P) (r', P)
| step_evict r P t idleFor active inUse :
    rstep OEvict (r, P) ((EvictIdlePassthrough t idleFor active inUse r).1.1, P)
| step_login r P user : rstep OLogin (r, P) (remember user r, P).

(** The states a registry reaches from a loaded configuration, with what was
    asked for on the way, the last one first. *)
Inductive reachable : list op → state → Prop :=
| reach_new t d initial store :
    loaded initial → reachable [] (SetClientKeyStore store (NewPoolRegistry t d initial), [])
| reach_nokeys t d initial : loaded initial → reachable [] (NewPoolRegistry t d initial, [])
| reach_step a ops s s' : reachable ops s → rstep a s s' → reachable (a :: ops) s'.

(** A resize is meant for a pool; [Resize] also takes the key of one user's
    entry, and then breaks the invariant. *)
Definition by_name (a : op) : Prop := match a with OResize n => has_separator n = false | _ => True end.

#[export] Instance by_name_dec a : Decision (by_name a).
Proof. destruct a; simpl; apply _. Defined.

(** What a session that has read may go on to create. *)
Definition pending_ok (l : lookup_result) : Prop :=
  match l with
  | NeedsEntry n u c => has_separator n = false ∧ u ≠ "" ∧ users c !! "" = None
  | _ => True
  end.

Lemma keys_WF ks r : WF r → WF (SetClientKeyStore ks r).
Proof. intros [[] []]. split; split; simpl; assumption. Qed.

Lemma read_ok r db user : WF r → pending_ok (resolveRead r db user).
Proof.
  intros [HE HG]. unfold resolveRead. destruct (byDatabase r !! db) as [n|] eqn:Hd; [|done].
  destruct (wf_routes r HG _ _ Hd) as [_ Hs]. rewrite poolKey_nil.
  destruct (entries r !! n) as [b|] eqn:Hb; [|done].
  destruct (backendIdentityFor r (config b) user) as [u pt] eqn:Hi.
  destruct (entries r !! poolKey n u); [done|]. destruct pt; [|done]. simpl.
  split; [done|]. split; [|by eapply (wf_empty r HE)].
  unfold backendIdentityFor in Hi. intros ->. by rewrite bool_decide_true in Hi.
Qed.

Lemma finish_WF t l r : WF r → pending_ok l → WF (resolveFinish t l r).1.
Proof.
  intros Hwf Hl. destruct l as [|k e|n u c]; simpl; [done| |].
  - destruct (passthrough e); [by apply stamp_WF | done].
  - destruct Hl as (? & ? & ?). by apply create_WF.
Qed.

Lemma rstep_WF a s s' :
  rstep a s s' → by_name a → WF s.1 ∧ Forall pending_ok s.2 → WF s'.1 ∧ Forall pending_ok s'.2.
Proof.
  intros Hstep Ha [Hwf HP]. destruct Hstep; simpl in *.
  - split; [done|]. constructor; [by apply read_ok | done].
  - apply Forall_app in HP as [? [? ?]%Forall_cons]. split; [by apply finish_WF|]. by apply Forall_app.
  - split; [|done]. eapply Add_WF; [done| |done]. apply lookup_empty.
  - split; [by eapply Remove_WF | done].
  - split; [by eapply Resize_WF | done].
  - split; [|done]. by eapply reloadStep_WF; [apply loaded_ok| |].
  - split; [by apply Evict_WF | done].
  - split; [|done]. unfold remember. destruct (keys r); [by apply keys_WF | done].
Qed.

Lemma reachable_WF ops s : reachable ops s → Forall by_name ops → WF s.1 ∧ Forall pending_ok s.2.
Proof.
  induction 1 as [t d initial store Hok|t d initial Hok|a ops s s' Hs IH Hstep]; intros Hn.
  - split; [apply keys_WF; apply New_WF; by apply loaded_ok | constructor].
  - split; [apply New_WF; by apply loaded_ok | constructor].
  - apply Forall_cons in Hn as [Ha Hn]. by eapply rstep_WF; [| |apply IH].
Qed.

End ranging.

End RegistryOps.
