(* ===== verification/RegistryTheorems.v ===== *)
(** * Theorems about the registry and routing

    The invariant over every interleaving, which backend identity a client is
    routed to, what the eviction sweep may take, and the behaviours the
    registry does not exclude. *)

From Stdlib Require Import Ascii.
From S2P Require Import Prelude GoStrings Config ConfigTheorems Registry RegistryLemmas RegistryOps.
Import Config ConfigTheorems Registry RegistryLemmas RegistryOps.
Open Scope string_scope.
Open Scope list_scope.
Open Scope nat_scope.

Module RegistryTheorems.

(** ** A registry to evaluate *)

Definition demo_cfg (dsn : string) : PoolConfig :=
  mkPoolConfig dsn "db.internal:5432" 10 (Some {[ "alice" := "postgres://alice@db" ]}) true
    (Some ["shop_ro"]) "" 0 0 0 0 0 0.

Definition demo_pools : gmap string PoolConfig := {[ "shop" := demo_cfg "postgres://app@db" ]}.

Definition demo : PoolRegistry :=
  SetClientKeyStore {[ "bob" ]} (NewPoolRegistry 0 None demo_pools).

Lemma demo_loaded : loaded demo_pools.
Proof.
  unfold demo_pools. apply loadable; [done|]. intros n c [<- <-]%lookup_singleton_Some. do 4 (split; [done|]).
  intros user dsn. unfold users, demo_cfg. simpl. intros [<- <-]%lookup_singleton_Some. by split_and!.
Qed.

Lemma demo_reachable : reachable [] (demo, []).
Proof. apply reach_new, demo_loaded. Qed.

(** ** Invariant *)

Section ranging.
Context `{MapRange}.

(** C12: In every state the registry reaches from a loaded configuration,
    whatever interleaving of sessions resolving in two steps, logins, admin
    additions, removals and resizes by pool name, reaper sweeps and the steps of
    any number of reloads led to it:
    every entry sits under the key of its pool name and identity and was built
    from its own configuration, every entry's pool is configured, every
    configured backend user has its entry, no two entries share a pool, routes
    lead to configured pools, and exactly the watched entries have a running
    DNS watcher.  (A resize by the key of one user's entry breaks this:
    [resize_by_key_loses_user].) *)
Theorem registry_invariant ops r P : reachable ops (r, P) → Forall by_name ops → WF r.
Proof. intros Hr Hn. by apply (reachable_WF _ _ Hr) in Hn as [? _]. Qed.

(** ** Routing *)

(** How a client of a pool must reach the backend. *)
Definition identity_dialer (r : PoolRegistry) (base : PoolConfig) (user : string) (d : dialer) : Prop :=
  match users base !! user with
  | Some dsn => d = DialBackend dsn (BackendAddr base) (requireTLS (defaults r))
  | None =>
      if negb (bool_decide (user = "")) && ScramPassthrough base && has_key r user
      then ∃ dsn, d = PassthroughDialer dsn user (requireTLS (defaults r))
      else d = DialBackend (BackendDSN base) (BackendAddr base) (requireTLS (defaults r))
  end.

Lemma spec_dial_newPool d k c dl : spec_dial (newPool d k c dl) = dl.
Proof. unfold newPool. by destruct d. Qed.

Lemma entry_dial r k e :
  WFE r → entries r !! k = Some e →
  spec_dial (spec e) = dialerFor (defaults r) (config e) (backendUser e) (passthrough e).
Proof. intros HE He. destruct (wf_spec r HE _ _ He) as [-> _]. apply spec_dial_newPool. Qed.

(** The entry found under an identity's key dials as that identity. *)
Lemma entry_identity r n b user u pt e :
  WF r → has_separator n = false → entries r !! n = Some b →
  backendIdentityFor r (config b) user = (u, pt) →
  entries r !! poolKey n u = Some e → identity_dialer r (config b) user (spec_dial (spec e)).
Proof.
  intros [HE HG] Hs Hb Hi He. rewrite (entry_dial r _ e) by done.
  destruct (wf_key r HE _ _ He) as [Hk Hse]. apply poolKey_inj in Hk as [Hpn Hpu]; [|done..].
  assert (Hbase : backendUser e = "" → e = b).
  { intros Hu. rewrite Hpu, Hu, poolKey_nil in He. congruence. }
  pose proof (wf_empty r HE _ _ Hb) as Hempty.
  assert (Hbp : passthrough b = false).
  { destruct (passthrough b) eqn:Hp; [|done]. destruct (base_entry r n b); try done.
    by destruct (wf_pt r HE _ _ Hb Hp). }
  unfold identity_dialer, backendIdentityFor in *.
  destruct (decide (user = "")) as [->|Hne].
  - rewrite bool_decide_true in Hi by done. injection Hi as <- <-. rewrite Hempty. simpl.
    rewrite (Hbase (eq_sym Hpu)), Hbp. done.
  - rewrite bool_decide_false in * by done. simpl.
    destruct (users (config b) !! user) as [dsn|] eqn:Hu.
    + injection Hi as <- <-. destruct (wf_configured r HG n b user) as (e' & He' & Hp'); try done.
      { by destruct (base_entry r n b). }
      assert (e' = e) as -> by congruence. rewrite Hp'.
      destruct (wf_user r HG _ e b He Hp') as [?|(dsn' & Hd & ->)]; [by rewrite <-Hpn| congruence|].
      rewrite <-Hpu in Hd. simplify_eq. done.
    + destruct (ScramPassthrough (config b) && has_key r user) eqn:Hkey; injection Hi as <- <-.
      * destruct (passthrough e) eqn:Hp; simpl; [rewrite <-Hpu; eauto|].
        destruct (wf_user r HG _ e b He Hp) as [?|(dsn' & Hd & _)];
          [by rewrite <-Hpn | congruence | rewrite <-Hpu in Hd; congruence].
      * rewrite (Hbase (eq_sym Hpu)), Hbp. done.
Qed.

Lemma resolve_core r t database user r' key e :
  WF r → Resolve t database user r = (r', Some (key, e)) →
  ∃ name base, byDatabase r !! database = Some name ∧ entries r !! name = Some base ∧
    has_separator name = false ∧
    key = poolKey name (backendIdentityFor r (config base) user).1 ∧
    identity_dialer r (config base) user (spec_dial (spec e)) ∧
    ∃ e', entries r' !! key = Some e' ∧ pool e' = pool e.
Proof.
  intros Hr. pose proof Hr as [HE HG].
  unfold Resolve, resolveRead. destruct (byDatabase r !! database) as [n|] eqn:Hd; [|done].
  destruct (wf_routes r HG _ _ Hd) as [_ Hs]. rewrite poolKey_nil.
  destruct (entries r !! n) as [b|] eqn:Hb; [|done].
  destruct (backendIdentityFor r (config b) user) as [u pt] eqn:Hi.
  intros Hres. exists n, b. do 3 (split; [done|]). rewrite Hi. simpl.
  destruct (entries r !! poolKey n u) as [e0|] eqn:He.
  - simpl in Hres. injection Hres as <- <- <-. split; [done|]. split; [by eapply entry_identity|].
    destruct (passthrough e0); [|eauto]. unfold stamp. rewrite He, Nat.eqb_refl. simpl.
    rewrite lookup_insert_eq. eauto.
  - destruct pt; [|done]. simpl in Hres. unfold createPassthroughEntry in Hres.
    assert (u = user ∧ user ≠ "" ∧ users (config b) !! user = None ∧
            ScramPassthrough (config b) && has_key r user = true) as (-> & Hne & Hu & Hk).
    { unfold backendIdentityFor in Hi. repeat case_match; to_prop; by simplify_eq. }
    rewrite He, poolKey_nil, Hb in Hres. injection Hres as <- <- <-. split; [done|]. split.
    + unfold identity_dialer. rewrite Hu, bool_decide_false by done. simpl. rewrite Hk.
      rewrite spec_dial_newPool. simpl. eauto.
    + simpl. rewrite lookup_insert_eq. eauto.
Qed.

(** A client is routed to the identity its configuration gives it: when
    [Resolve] answers, the database names a configured pool, the pool handed
    out is the one registered under that pool's key for the client's identity,
    and it dials with the user's own DSN when backend_users lists the user, as
    the user through its recovered key when pass-through applies, and with the
    shared DSN otherwise. *)
Theorem resolve_identity ops r P t database user r' key e :
  reachable ops (r, P) → Forall by_name ops → Resolve t database user r = (r', Some (key, e)) →
  ∃ name base, byDatabase r !! database = Some name ∧ entries r !! name = Some base ∧
    key = poolKey name (backendIdentityFor r (config base) user).1 ∧
    identity_dialer r (config base) user (spec_dial (spec e)).
Proof.
  intros Hr Hn Hres. destruct (reachable_WF _ _ Hr Hn) as [Hwf _].
  destruct (resolve_core r t database user r' key e) as (n & b & ? & ? & ? & ? & ? & _); eauto 10.
Qed.

(** Resolving keeps the pools that are there. *)
Lemma finish_keeps t l r k e :
  entries r !! k = Some e → ∃ e', entries (resolveFinish t l r).1 !! k = Some e' ∧ pool e' = pool e.
Proof.
  intros He. destruct l as [|key e0|n u c]; simpl; [eauto| |].
  - destruct (passthrough e0); [|eauto]. unfold stamp.
    destruct (entries r !! key) as [e1|] eqn:H1; [|eauto]. destruct (pool e1 =? pool e0); [|eauto].
    simpl. destruct (decide (key = k)) as [->|?]; [|rewrite lookup_insert_ne by done; eauto].
    rewrite lookup_insert_eq. eexists. split; [done|]. simpl. congruence.
  - unfold createPassthroughEntry. destruct (entries r !! poolKey n u) as [e1|] eqn:H1; [eauto|].
    destruct (entries r !! poolKey n ""); [|eauto]. simpl.
    rewrite lookup_insert_ne by congruence. eauto.
Qed.

Lemma resolve_WF t database user r : WF r → WF (Resolve t database user r).1.
Proof. intros Hwf. apply finish_WF; [done | by apply read_ok]. Qed.

(** Clients that reach the backend as different roles never share a pool:
    two resolutions, the second in the state the first left, hand out the same
    pool exactly when they name the same pool name and the same identity. *)
Theorem identities_never_share ops r P t1 db1 u1 r1 k1 e1 t2 db2 u2 r2 k2 e2 :
  reachable ops (r, P) → Forall by_name ops →
  Resolve t1 db1 u1 r = (r1, Some (k1, e1)) → Resolve t2 db2 u2 r1 = (r2, Some (k2, e2)) →
  ∃ n1 i1 n2 i2, k1 = poolKey n1 i1 ∧ k2 = poolKey n2 i2 ∧
    byDatabase r !! db1 = Some n1 ∧ byDatabase r1 !! db2 = Some n2 ∧
    (pool e1 = pool e2 ↔ n1 = n2 ∧ i1 = i2).
Proof.
  intros Hr Hn H1 H2. destruct (reachable_WF _ _ Hr Hn) as [Hwf _]. cbn [fst] in Hwf.
  assert (Hwf1 : WF r1) by (pose proof (resolve_WF t1 db1 u1 r Hwf) as Hw; by rewrite H1 in Hw).
  assert (Hwf2 : WF r2) by (pose proof (resolve_WF t2 db2 u2 r1 Hwf1) as Hw; by rewrite H2 in Hw).
  destruct (resolve_core _ _ _ _ _ _ _ Hwf H1) as (n1 & b1 & ? & _ & Hs1 & Hk1 & _ & x1 & Hx1 & Hp1).
  destruct (resolve_core _ _ _ _ _ _ _ Hwf1 H2) as (n2 & b2 & ? & _ & Hs2 & Hk2 & _ & x2 & Hx2 & Hp2).
  eexists n1, _, n2, _. do 4 (split; [done|]). rewrite <-Hp1, <-Hp2.
  destruct (finish_keeps t2 (resolveRead r1 db2 u2) r1 k1 x1 Hx1) as (y & Hy & Hpy).
  assert (Hy' : entries r2 !! k1 = Some y) by (unfold Resolve in H2; by rewrite H2 in Hy).
  rewrite <-Hpy. split.
  - intros Hp. destruct Hwf2 as [HE2 _]. assert (k1 = k2) as Heq by (by eapply (wf_distinct r2 HE2)).
    rewrite Hk1, Hk2 in Heq. by apply poolKey_inj in Heq.
  - intros [Hnn Hi]. assert (k1 = k2) by congruence. congruence.
Qed.

(** ** Eviction *)

Lemma elem_of_sort s l : s ∈ sort_strings l ↔ s ∈ l.
Proof. unfold sort_strings. by rewrite (merge_sort_Permutation str_le l). Qed.

(** A reaper sweep takes exactly the pass-through entries that no live
    session names, that no session was routed to within the idle window and
    whose pool has nothing in use; it reports those keys and their pools, and
    leaves configured entries and every route alone. *)
Theorem evict_idle_only r t idleFor active inUse r' ks ps :
  (0 < idleFor)%Z → EvictIdlePassthrough t idleFor active inUse r = (r', ks, ps) →
  byDatabase r' = byDatabase r ∧
  (∀ k e, entries r' !! k = Some e → entries r !! k = Some e) ∧
  (∀ k e, entries r !! k = Some e →
     (entries r' !! k = None ↔
      passthrough e = true ∧ k ∉ active ∧ (lastRouted e ≤ t - idleFor)%Z ∧ inUse (pool e) = 0)) ∧
  (∀ k, k ∈ ks ↔ is_Some (entries r !! k) ∧ entries r' !! k = None) ∧
  (∀ p, p ∈ ps ↔ ∃ k e, k ∈ ks ∧ entries r !! k = Some e ∧ pool e = p).
Proof.
  intros Hpos Hev. pose proof (fun k e => Evict_entries t idleFor active inUse r k e Hpos) as Hent.
  rewrite Hev in Hent. cbn [fst] in Hent.
  assert (Hgone : ∀ k e, entries r !! k = Some e →
    entries r' !! k = None ↔ evictable (t - idleFor) active inUse k e = true).
  { intros k e He. specialize (Hent k). split.
    - intros Hn. destruct (evictable _ _ _ _ _) eqn:Hv; [done|].
      assert (entries r' !! k = Some e) by (by apply Hent). congruence.
    - intros Hv. apply eq_None_not_Some. intros [e' [He' Hv']%Hent]. congruence. }
  unfold EvictIdlePassthrough in Hev. rewrite (proj2 (Z.leb_gt _ _)) in Hev by done.
  injection Hev as Hr Hks Hps.
  assert (Hin : ∀ k, k ∈ ks ↔ ∃ e, entries r !! k = Some e ∧
    evictable (t - idleFor) active inUse k e = true).
  { intros k. rewrite <-Hks, elem_of_sort, list_elem_of_fmap. split.
    - intros ([k' e] & -> & [? ?]%elem_of_range%map_lookup_filter_Some). eauto.
    - intros (e & ? & ?). exists (k, e). split; [done|]. by apply elem_of_range, map_lookup_filter_Some. }
  split; [by rewrite <-Hr|]. split; [by intros k e [? _]%Hent|]. split; [|split].
  - intros k e He. rewrite (Hgone k e He). unfold evictable.
    rewrite !andb_true_iff, bool_decide_eq_true, Z.leb_le, Nat.eqb_eq. tauto.
  - intros k. rewrite Hin. split.
    + intros (e & He & Hv). split; [done|]. by apply (Hgone k e He).
    + intros [[e He] Hn]. exists e. split; [done|]. by apply (Hgone k e He).
  - intros p. rewrite <-Hps, Hks, list_elem_of_omap. split.
    + intros (k & Hk & (e & [He _]%map_lookup_filter_Some & ->)%fmap_Some). eauto.
    + intros (k & e & Hk & He & <-). exists k. split; [done|]. apply fmap_Some. exists e.
      split; [|done]. apply map_lookup_filter_Some. split; [done|].
      apply Hin in Hk as (e' & ? & ?). by simplify_eq.
Qed.

End ranging.

(** ** Witnesses *)

(** A client resolves while a reload of another file is half way and the pool is
    resized. *)
Definition busy_ops : list op := [OResolve; OResize "shop"; OReload; OResolve].

Definition half_reloaded : PoolRegistry :=
  match reloadStep 3 demo_pools demo (Applying ["shop"] ["shop"] noResult) with Some (r, _) => r | None => demo end.
Definition resized : PoolRegistry :=
  match Resize 4 "shop" 20 half_reloaded with Ok (r, _) => r | Err _ => half_reloaded end.
Definition busy : PoolRegistry := (resolveFinish 5 (resolveRead demo "shop" "bob") resized).1.

Lemma resize_steps P t n l r :
  is_ok (Resize t n l r) = true →
  rstep (OResize n) (r, P) (match Resize t n l r with Ok (r', _) => r' | Err _ => r end, P).
Proof. destruct (Resize t n l r) as [[r' old]|] eqn:E; [|done]. intros _. by eapply step_resize. Qed.

Lemma busy_reachable : reachable busy_ops (busy, []).
Proof.
  apply (reach_step OResolve _ (resized, [resolveRead demo "shop" "bob"]));
    [|apply (step_finish _ [] (resolveRead demo "shop" "bob") [])].
  apply (reach_step (OResize "shop") _ (half_reloaded, [resolveRead demo "shop" "bob"]));
    [|apply resize_steps; vm_compute; reflexivity].
  apply (reach_step OReload _ (demo, [resolveRead demo "shop" "bob"])).
  - apply (reach_step OResolve _ (demo, [])); [apply demo_reachable|apply step_read].
  - unfold half_reloaded. destruct (reloadStep _ _ _ _) as [[r pc]|] eqn:E;
      [by eapply step_reload; [apply demo_loaded|]|]. cbn [reloadStep] in E. by destruct (applyOne 3 _ _ _ _).
Qed.

Lemma registry_invariant_witness : WF busy ∧ (backendUser <$> entries busy !! "shop/bob") = Some "bob".
Proof.
  split; [|vm_compute; reflexivity]. apply (registry_invariant busy_ops busy []).
  - apply busy_reachable.
  - apply (bool_decide_unpack _). vm_compute. exact Logic.I.
Defined.

(** Bob has no DSN of his own and a recovered key. *)
Definition demo_bob : PoolRegistry * routed := Resolve 5 "shop_ro" "bob" demo.

Definition bob_entry : registryEntry :=
  newEntry 5 "shop" "bob" (demo_cfg "postgres://app@db") true demo.

Lemma resolve_identity_witness :
  ∃ name base, byDatabase demo !! "shop_ro" = Some name ∧ entries demo !! name = Some base ∧
    "shop/bob" = poolKey name (backendIdentityFor demo (config base) "bob").1 ∧
    identity_dialer demo (config base) "bob" (spec_dial (spec bob_entry)).
Proof.
  apply (resolve_identity [] demo [] 5 "shop_ro" "bob" demo_bob.1 "shop/bob" bob_entry).
  - apply demo_reachable.
  - constructor.
  - vm_compute. reflexivity.
Defined.

(** Alice is listed in backend_users, carol uses the shared identity. *)
Lemma identities_never_share_witness :
  ∃ n1 i1 n2 i2, "shop/bob" = poolKey n1 i1 ∧ "shop" = poolKey n2 i2 ∧
    byDatabase demo !! "shop_ro" = Some n1 ∧ byDatabase demo_bob.1 !! "shop" = Some n2 ∧
    (pool bob_entry = pool (newEntry 0 "shop" "" (demo_cfg "postgres://app@db") false
        (mkRegistry None None ∅ ∅ 0 ∅)) ↔ n1 = n2 ∧ i1 = i2).
Proof.
  apply (identities_never_share [] demo [] 5 "shop_ro" "bob" demo_bob.1 "shop/bob" bob_entry
    7 "shop" "carol" demo_bob.1 "shop"
    (newEntry 0 "shop" "" (demo_cfg "postgres://app@db") false (mkRegistry None None ∅ ∅ 0 ∅))).
  - apply demo_reachable.
  - constructor.
  - vm_compute. reflexivity.
  - vm_compute. reflexivity.
Defined.

Lemma evict_idle_only_witness :
  let '(r', ks, ps) := EvictIdlePassthrough 100 50 ∅ (fun _ => 0) demo_bob.1 in
  byDatabase r' = byDatabase demo_bob.1 ∧ ks = ["shop/bob"] ∧
  ∀ p, p ∈ ps ↔ ∃ k e, k ∈ ks ∧ entries demo_bob.1 !! k = Some e ∧ pool e = p.
Proof.
  destruct (EvictIdlePassthrough 100 50 ∅ (fun _ => 0) demo_bob.1) as [[r' ks] ps] eqn:E.
  destruct (evict_idle_only demo_bob.1 100 50 ∅ (fun _ => 0) r' ks ps ltac:(lia) E)
    as (? & _ & _ & _ & ?).
  split; [done|]. split; [|done].
  change ks with (r', ks, ps).1.2. rewrite <-E. vm_compute. reflexivity.
Defined.

(** ** What the registry does not exclude *)

Definition new_pools : gmap string PoolConfig := {[ "shop" := demo_cfg "postgres://app@new" ]}.

(** A reload between the two halves of [Resolve] leaves a pass-through pool
    built from the configuration the reload replaced, and later reloads of the
    same file do not repair it. *)
Theorem stale_passthrough_survives_reload :
  let read := resolveRead demo "shop" "bob" in
  let reloaded := (applyPools 10 new_pools demo).1 in
  let '(r, res) := resolveFinish 11 read reloaded in
  (BackendDSN ∘ config <$> entries r !! "shop") = Some "postgres://app@new" ∧
  (spec_dial ∘ spec <$> entries r !! "shop/bob") = Some (PassthroughDialer "postgres://app@db" "bob" false) ∧
  (applyPools 12 new_pools r).1 = r.
Proof. vm_compute. done. Qed.

(** A sweep between the lookup and the stamp takes the entry: the session is
    handed a pool that has left the registry and is being closed. *)
Theorem evicted_while_resolving :
  let r := demo_bob.1 in
  let read := resolveRead r "shop" "bob" in
  let '(swept, ks, ps) := EvictIdlePassthrough 100 50 ∅ (fun _ => 0) r in
  let '(r', res) := resolveFinish 101 read swept in
  ks = ["shop/bob"] ∧ (pool ∘ snd <$> res) = head ps ∧ entries r' !! "shop/bob" = None.
Proof. vm_compute. done. Qed.

(** Walking the maps in the opposite order. *)
Definition reversed_range : MapRange.
Proof.
  refine {| range V m := reverse (map_to_list m) |}. intros V m. apply reverse_Permutation.
Defined.

Definition plain_cfg (dsn : string) (al : list string) : PoolConfig :=
  mkPoolConfig dsn "db.internal:5432" 10 None false (Some al) "" 0 0 0 0 0 0.

Definition colliding : gmap string PoolConfig :=
  {[ "orders" := plain_cfg "postgres://orders@db" ["reports"];
     "reports" := plain_cfg "postgres://reports@db" [] ]}.

(** An alias equal to another pool's name passes validation, and which
    database its clients reach depends on the order the map is walked in. *)
Theorem alias_collision_routes_by_map_order :
  checkPools (range colliding) = None ∧
  (ResolveName (NewPoolRegistry 0 None colliding) "reports" ≠
   ResolveName (@NewPoolRegistry reversed_range 0 None colliding) "reports").
Proof. split; [vm_compute; reflexivity|]. vm_compute. discriminate. Qed.

(** A reload to a file without the collision does not mend it: when the alias won,
    [orders] takes the route of [reports] with it, and nothing puts it back. *)
Definition parted : gmap string PoolConfig :=
  {[ "orders" := plain_cfg "postgres://orders@db" [];
     "reports" := plain_cfg "postgres://reports@db" [] ]}.

Theorem collision_loses_route :
  ∃ M : MapRange,
    let '(r, x) := @applyPools M 10 parted (@NewPoolRegistry M 0 None colliding) in
    errs x = [] ∧ is_Some (entries r !! "reports") ∧ byDatabase r !! "reports" = None.
Proof. first [exists map_to_list_range; vm_compute; by eauto | exists reversed_range; vm_compute; by eauto]. Qed.

(** [Resize] called with a per-user registry key drops the running pool
    without returning it for draining, and registers a pool name that the next
    reload removes: the user's clients then have no entry to be routed to.  Until
    then the aliases of the pool lead to the new one, whose DSN is that user's:
    everybody else who comes by an alias reaches the backend as that user. *)
Theorem resize_by_key_loses_user :
  match Resize 10 "shop/alice" 20 demo with
  | Ok (r, old) =>
      old = [] ∧ (pool <$> entries r !! "shop/alice") ≠ (pool <$> entries demo !! "shop/alice") ∧
      (Resolve 12 "shop" "alice" (applyPools 11 demo_pools r).1).2 = None ∧
      (spec_dial ∘ spec ∘ snd <$> (Resolve 12 "shop_ro" "carol" r).2) =
        Some (DialBackend "postgres://alice@db" "db.internal:5432" false)
  | Err _ => False
  end.
Proof. vm_compute. split; [done|]. split; [discriminate | done]. Qed.

End RegistryTheorems.
