(* ===== verification/RegistryReload.v ===== *)
(** * Config reload converges

    src/reload.go reconciles the live registry with a file one pool at a time.
    The specification is the file itself: a registry [shows] a set of pools
    when its default-identity entries are exactly those configurations, and its
    routes are [exact] when they are the names and aliases of those pools.  The
    reload takes the registry's lock once per step, and clients and the reaper act
    in between. *)

From Stdlib Require Import Ascii.
From S2P Require Import Prelude GoStrings Config BackendAddr.
From S2P Require Import Registry RegistryLemmas RegistryOps RegistryTheorems.
From S2P Require Import ConfigTheorems.
Import Config ConfigTheorems Registry RegistryLemmas RegistryOps.
Open Scope string_scope.
Open Scope list_scope.
Open Scope nat_scope.

Module RegistryReload.

(** ** Specification *)

(** The configuration a registry runs a pool name with. *)
Definition shown (r : PoolRegistry) (n : string) : option PoolConfig :=
  if has_separator n then None else config <$> entries r !! n.

Definition shows (r : PoolRegistry) (pools : gmap string PoolConfig) : Prop :=
  ∀ n, shown r n = pools !! n.

Definition sound_routes (r : PoolRegistry) : Prop :=
  ∀ d n, byDatabase r !! d = Some n → ∃ c, shown r n = Some c ∧ d ∈ served n c.

Definition exact_routes (r : PoolRegistry) : Prop :=
  ∀ d n, byDatabase r !! d = Some n ↔ ∃ c, shown r n = Some c ∧ d ∈ served n c.

(** No database name is served by two pools. *)
Definition disjoint_names (pools : gmap string PoolConfig) : Prop :=
  ∀ n n' c c' d, pools !! n = Some c → pools !! n' = Some c' →
    d ∈ served n c → d ∈ served n' c' → n = n'.

(** What reconciling with a file needs of it. *)
Definition file_ok (pools : gmap string PoolConfig) : Prop :=
  ∀ n c, pools !! n = Some c → validatePoolConfig n c = None ∧ users c !! "" = None.

Lemma file_ok_PoolsOK pools : file_ok pools → PoolsOK pools.
Proof. intros Hok n c Hc. destruct (Hok n c Hc) as [Hv Hu]. split; [by eapply validate_name | done]. Qed.

(** ** One pool at a time *)

Section ranging.
Context `{MapRange}.

Lemma shown_Some r n c :
  shown r n = Some c ↔ has_separator n = false ∧ ∃ b, entries r !! n = Some b ∧ config b = c.
Proof.
  unfold shown. destruct (has_separator n); [naive_solver|]. rewrite fmap_Some. naive_solver.
Qed.

Lemma without_shown n r m :
  WF r → shown (without n r) m = if bool_decide (m = n) then None else shown r m.
Proof.
  intros [HE HG]. apply option_eq. intros c. rewrite shown_Some. split.
  - intros [Hs (b & [Hb Hne]%without_entries & <-)].
    destruct (base_entry r m b) as [Hbn _]; try done. rewrite bool_decide_false by congruence.
    apply shown_Some. eauto.
  - case_bool_decide as Hmn; [done|]. intros [Hs (b & Hb & <-)]%shown_Some. split; [done|].
    exists b. split; [|done]. apply without_entries. split; [done|].
    destruct (base_entry r m b) as [-> _]; done.
Qed.

Lemma add_shown t n c r m :
  WF r → clean n r → has_separator n = false → users c !! "" = None →
  shown (addEntries t n c r) m = if bool_decide (m = n) then Some c else shown r m.
Proof.
  intros [HE HG] Hcl Hn Hu.
  destruct (addEntries_Puts t n c r) as [_ _ _ _ Hold Hnew Hmade]; try done. simpl in *.
  case_bool_decide as Hmn.
  - subst m. apply shown_Some. split; [done|].
    destruct (Hmade "" c) as (e & He & _ & _ & Hce & _); [apply elem_of_identities; by left|]. eauto.
  - apply option_eq. intros x. rewrite !shown_Some. split.
    + intros [Hs (b & Hb & <-)]. split; [done|].
      apply Hnew in Hb as [Hb|(u & c' & _ & Hk & _)]; [eauto|].
      rewrite <-(poolKey_nil m) in Hk. by apply poolKey_inj in Hk as [-> _].
    + intros [Hs (b & Hb & <-)]. eauto.
Qed.

Lemma add_routes t n c r d :
  WF r → clean n r → has_separator n = false → users c !! "" = None →
  byDatabase (addEntries t n c r) !! d =
  if bool_decide (d ∈ served n c) then Some n else byDatabase r !! d.
Proof.
  intros [HE _] ? ? ?. destruct (addEntries_Puts t n c r) as [_ _ _ Hr _ _ _]; try done.
  rewrite Hr. apply route_lookup.
Qed.

(** Routes of a pool that is added where its name is unused. *)
Lemma add_sound t n c r :
  WF r → clean n r → has_separator n = false → users c !! "" = None →
  sound_routes r → sound_routes (addEntries t n c r).
Proof.
  intros Hwf Hcl Hn Hu Hsd d m. rewrite add_routes by done.
  case_bool_decide as Hd; intros Hdm.
  - injection Hdm as <-. exists c. rewrite add_shown, bool_decide_true by done. done.
  - destruct (Hsd d m Hdm) as (x & Hx & ?). exists x. rewrite add_shown by done.
    rewrite bool_decide_false; [done|]. intros ->.
    apply shown_Some in Hx as [_ (b & Hb & _)]. apply (Hcl n b Hb).
    destruct Hwf as [HE _]. by destruct (base_entry r n b).
Qed.

Lemma without_sound n r : WF r → sound_routes r → sound_routes (without n r).
Proof.
  intros Hwf Hsd d m [Hd Hne]%without_routes; [|done]. destruct (Hsd d m Hd) as (c & Hc & ?).
  exists c. by rewrite without_shown, bool_decide_false.
Qed.

(** ** The invariant of the two loops *)

(** Pools of the file that already run are routed. *)
Definition routed_to (pools : gmap string PoolConfig) (r : PoolRegistry) : Prop :=
  ∀ m c d, pools !! m = Some c → shown r m = Some c → d ∈ served m c → byDatabase r !! d = Some m.

Record Progress (pools : gmap string PoolConfig) (s : PoolRegistry * ReloadResult) : Prop := {
  pr_WF : WF s.1;
  pr_sound : sound_routes s.1;
  pr_routed : routed_to pools s.1;
  pr_errs : errs s.2 = [];
}.

Lemma clean_shown r n : WF r → has_separator n = false → shown r n = None → clean n r.
Proof.
  intros Hwf Hn Hs. apply base_None_clean; [done|]. unfold shown in Hs. rewrite Hn in Hs.
  by apply fmap_None in Hs.
Qed.

(** Putting a pool of the file in place of whatever ran under its name. *)
Lemma place_progress t pools n c r x :
  PoolsOK pools → disjoint_names pools → pools !! n = Some c →
  Progress pools (r, x) → clean n r →
  (∀ y, errs y = [] → Progress pools (addEntries t n c r, y)) ∧
  (∀ m, shown (addEntries t n c r) m = if bool_decide (m = n) then Some c else shown r m).
Proof.
  intros Hok Hdis Hc [Hwf Hsd Hrt _] Hcl. cbn [fst snd] in *. destruct (Hok n c Hc) as [Hn Hu].
  split; [|intros m; by apply add_shown].
  intros y Hy. split; cbn [fst snd]; [by apply addEntries_WF | by apply add_sound | | done].
  intros m c' d Hm Hsh Hd. rewrite add_routes by done. rewrite add_shown in Hsh by done.
  destruct (decide (d ∈ served n c)) as [Hin|Hin].
  - rewrite bool_decide_true by done. f_equal. by eapply Hdis.
  - rewrite bool_decide_false by done. destruct (decide (m = n)) as [->|Hne].
    + rewrite bool_decide_true in Hsh by done. by injection Hsh as <-.
    + rewrite bool_decide_false in Hsh by done. by eapply Hrt.
Qed.

Lemma without_progress pools n r x :
  Progress pools (r, x) → Progress pools (without n r, x).
Proof.
  intros [Hwf Hsd Hrt Hx]. cbn [fst snd] in *.
  split; cbn [fst snd]; [by apply without_WF | by apply without_sound | | done].
  intros m c d Hm Hsh Hd. apply without_routes; [done|]. rewrite without_shown in Hsh by done.
  revert Hsh. case_bool_decide; [done|]. intros Hsh. split; [by eapply Hrt | done].
Qed.

Lemma validated t n c r :
  validatePoolConfig n c = None →
  Add t n c r = match entries r !! n with Some _ => Err PoolExists | None => Ok (addEntries t n c r) end
  ∧ Reconfigure t n c r = match entries r !! n with
      | None => Err PoolNotFound
      | Some b => if bool_decide (config b = c) then Ok (r, [], false)
                  else Ok (addEntries t n c (without n r), pool <$> (takeEntries n r).1, true)
      end.
Proof.
  intros Hv. unfold Add, Reconfigure. rewrite Hv, poolKey_nil. split; [done|].
  destruct (entries r !! n); [|done]. case_bool_decide; [done|].
  by rewrite (surjective_pairing (takeEntries n r)).
Qed.

(** One name of the file. *)
Lemma applyOne_progress t pools current s n c :
  file_ok pools → disjoint_names pools → pools !! n = Some c →
  (n ∈ current ↔ is_Some (shown s.1 n)) → Progress pools s →
  Progress pools (applyOne t pools current s n) ∧
  ∀ m, shown (applyOne t pools current s n).1 m =
       if bool_decide (m = n) then Some c else shown s.1 m.
Proof.
  intros Hok Hdis Hc Hcur HP. destruct s as [r x]. destruct (Hok n c Hc) as [Hv Hu].
  pose proof (pr_WF _ _ HP) as Hwf. pose proof (pr_errs _ _ HP) as Hx. cbn [fst snd] in *.
  apply validate_name in Hv as Hn. destruct (validated t n c r Hv) as [Hadd Hrec].
  unfold applyOne. rewrite Hc, Hadd, Hrec. clear Hadd Hrec.
  assert (Hsh : shown r n = config <$> entries r !! n) by (unfold shown; by rewrite Hn).
  destruct (entries r !! n) as [b|] eqn:Hb; simpl in Hsh; rewrite Hsh in Hcur.
  - rewrite (bool_decide_true (n ∈ current)) by (apply Hcur; eauto).
    destruct (decide (config b = c)) as [Hcb|Hcb].
    + rewrite (bool_decide_true _ Hcb). split; [by destruct HP|].
      intros m. simpl. case_bool_decide; [|done]. subst m. by rewrite Hsh, Hcb.
    + rewrite (bool_decide_false _ Hcb). cbn [fst].
      destruct (place_progress t pools n c (without n r) x) as [Hp Hs]; try done;
        [by apply file_ok_PoolsOK | by apply without_progress | apply without_clean |].
      split; [by apply Hp|]. intros m. rewrite Hs, without_shown by done. by repeat case_bool_decide.
  - rewrite (bool_decide_false (n ∈ current)) by (intros [? ?]%Hcur; done). cbn [fst].
    destruct (place_progress t pools n c r x) as [Hp Hs]; try done;
      [by apply file_ok_PoolsOK | by apply base_None_clean|].
    split; [by apply Hp | done].
Qed.

(** The loop over the file. *)
Lemma apply_loop t pools current l s :
  file_ok pools → disjoint_names pools → NoDup l → (∀ n, n ∈ l → is_Some (pools !! n)) →
  (∀ n, n ∈ l → n ∈ current ↔ is_Some (shown s.1 n)) → Progress pools s →
  Progress pools (foldl (applyOne t pools current) s l) ∧
  ∀ m, shown (foldl (applyOne t pools current) s l).1 m =
       if bool_decide (m ∈ l) then pools !! m else shown s.1 m.
Proof.
  intros Hok Hdis. revert s. induction l as [|n l IH]; intros s Hnd Hl Hcur HP; [done|].
  apply NoDup_cons in Hnd as [Hn Hnd]. destruct (Hl n) as [c Hc]; [by left|].
  destruct (applyOne_progress t pools current s n c) as [HP' Hs']; try done; [by apply Hcur; left|].
  simpl. destruct (IH (applyOne t pools current s n)) as [HP'' Hs'']; try done.
  - intros m Hm. apply Hl. by right.
  - intros m Hm. rewrite Hs', bool_decide_false by congruence. apply Hcur. by right.
  - split; [done|]. intros m. rewrite Hs'', Hs'.
    destruct (decide (m = n)) as [->|?]; repeat case_bool_decide; set_solver.
Qed.

(** One surplus name. *)
Lemma removeOne_progress pools s n :
  (pools !! n = None → is_Some (shown s.1 n)) → Progress pools s →
  Progress pools (removeOne pools s n) ∧
  ∀ m, shown (removeOne pools s n).1 m =
       if bool_decide (m = n ∧ pools !! n = None) then None else shown s.1 m.
Proof.
  intros Hsh HP. destruct s as [r x]. pose proof (pr_WF _ _ HP) as Hwf.
  pose proof (pr_errs _ _ HP) as Hx. cbn [fst snd] in *. unfold removeOne.
  destruct (pools !! n) as [c|] eqn:Hc.
  { split; [done|]. intros m. rewrite bool_decide_false by naive_solver. done. }
  destruct (Hsh eq_refl) as [c [Hn (b & Hb & _)]%shown_Some].
  assert (Hne : (takeEntries n r).1 ≠ []).
  { intros Hnil. destruct Hwf as [HE _]. apply (take_nil_clean n r Hnil n b Hb).
    by destruct (base_entry r n b). }
  unfold Remove. rewrite (surjective_pairing (takeEntries n r)), bool_decide_false by done.
  split.
  - destruct (without_progress pools n r x HP). by split.
  - intros m. cbn [fst]. fold (without n r).
    rewrite without_shown by done. repeat case_bool_decide; naive_solver.
Qed.

Lemma remove_loop pools l s :
  NoDup l → (∀ n, n ∈ l → pools !! n = None → is_Some (shown s.1 n)) → Progress pools s →
  Progress pools (foldl (removeOne pools) s l) ∧
  ∀ m, shown (foldl (removeOne pools) s l).1 m =
       if bool_decide (m ∈ l ∧ pools !! m = None) then None else shown s.1 m.
Proof.
  revert s. induction l as [|n l IH]; intros s Hnd Hl HP.
  { split; [done|]. intros m. cbn [foldl]. rewrite bool_decide_false; [done | set_solver]. }
  apply NoDup_cons in Hnd as [Hn Hnd].
  destruct (removeOne_progress pools s n) as [HP' Hs']; [by apply Hl; left | done|].
  simpl. destruct (IH (removeOne pools s n)) as [HP'' Hs'']; try done.
  - intros m Hm Hpm. rewrite Hs', bool_decide_false; [|naive_solver]. apply Hl; [by right | done].
  - split; [done|]. intros m. rewrite Hs'', Hs'. repeat case_bool_decide; set_solver.
Qed.

(** ** The names of the registry *)

Lemma firstSeen_spec seen l n : n ∈ firstSeen seen l ↔ n ∈ l ∧ n ∉ seen.
Proof.
  revert seen. induction l as [|m l IH]; intros seen; simpl; [set_solver|].
  case_bool_decide; rewrite ?elem_of_cons, IH, ?not_elem_of_union, ?not_elem_of_singleton;
    destruct (decide (n = m)); set_solver.
Qed.

Lemma NoDup_firstSeen seen l : NoDup (firstSeen seen l).
Proof.
  revert seen. induction l as [|m l IH]; intros seen; simpl; [constructor|].
  case_bool_decide; [done|]. constructor; [|done]. rewrite firstSeen_spec. set_solver.
Qed.

Lemma sort_perm l : sort_strings l ≡ₚ l.
Proof. apply merge_sort_Permutation. Qed.

Lemma NoDup_PoolNames r : NoDup (PoolNames r).
Proof. unfold PoolNames. rewrite sort_perm. apply NoDup_firstSeen. Qed.

Lemma elem_of_PoolNames r n : WF r → n ∈ PoolNames r ↔ is_Some (shown r n).
Proof.
  intros [HE HG]. unfold PoolNames. rewrite sort_perm, firstSeen_spec, list_elem_of_fmap. split.
  - intros [([k e] & -> & He%elem_of_range) _]. simpl.
    destruct (wf_base r HG _ _ He) as [b Hb]. destruct (wf_key r HE _ _ He) as [_ Hs].
    exists (config b). apply shown_Some. eauto.
  - intros [c [Hs (b & Hb & _)]%shown_Some]. split; [|set_solver]. exists (n, b).
    split; [|by apply elem_of_range]. simpl. by destruct (base_entry r n b).
Qed.

Lemma exact_start pools r : WF r → exact_routes r → Progress pools (r, noResult).
Proof.
  intros Hwf Hex. split; try done.
  - intros d n. apply Hex.
  - intros m c d _ Hsh Hd. apply Hex. eauto.
Qed.

(** ** The constructor starts from exact routes *)

Lemma new_loop t pools l s :
  PoolsOK pools → disjoint_names pools → NoDup l.*1 → (∀ n c, (n, c) ∈ l → pools !! n = Some c) →
  (∀ n, n ∈ l.*1 → shown s.1 n = None) → Progress pools s →
  let r' := foldl (fun r '(n, c) => addEntries t n c r) s.1 l in
  Progress pools (r', s.2) ∧
  ∀ m, shown r' m = if bool_decide (m ∈ l.*1) then pools !! m else shown s.1 m.
Proof.
  intros Hok Hdis. revert s. induction l as [|[n c] l IH]; intros s Hnd Hl Hnew HP.
  { split; [by destruct s|]. intros m. rewrite bool_decide_false; [done | set_solver]. }
  cbn [foldl fmap list_fmap fst] in *. apply NoDup_cons in Hnd as [Hn Hnd].
  assert (Hc : pools !! n = Some c) by (apply Hl; by left).
  destruct s as [r x]. cbn [fst snd] in *.
  assert (Hcl : clean n r).
  { apply clean_shown; [by destruct HP | by destruct (Hok n c Hc) | apply Hnew; by left]. }
  destruct (place_progress t pools n c r x) as [Hp Hs]; try done.
  destruct (IH (addEntries t n c r, x)) as [HP' Hs']; try done; cbn [fst snd] in *.
  - intros m d Hm. apply Hl. by right.
  - intros m Hm. rewrite Hs, bool_decide_false by congruence. apply Hnew. by right.
  - apply Hp. by destruct HP.
  - split; [done|]. intros m. rewrite Hs', Hs.
    destruct (decide (m = n)) as [->|?]; repeat case_bool_decide; set_solver.
Qed.

Lemma finish_exact pools r x : Progress pools (r, x) → shows r pools → exact_routes r.
Proof.
  intros [_ Hsd Hrt _] Hshow d n. split; [apply Hsd|].
  intros (c & Hc & Hd). eapply Hrt; [by rewrite <-Hshow | done..].
Qed.

Lemma New_exact t d pools :
  PoolsOK pools → disjoint_names pools →
  shows (NewPoolRegistry t d pools) pools ∧ exact_routes (NewPoolRegistry t d pools).
Proof.
  intros Hok Hdis.
  destruct (new_loop t pools (range pools) (mkRegistry d None ∅ ∅ 0 ∅, noResult))
    as [HP Hs]; try done.
  - apply NoDup_range_fst.
  - intros n c. by rewrite elem_of_range.
  - intros n _. unfold shown. simpl. by destruct (has_separator n).
  - split; simpl; [apply empty_WF | intros ? ? Hd; simpl in Hd; by simplify_map_eq | | done].
    intros m c x _ Hsh. unfold shown in Hsh. simpl in Hsh. by destruct (has_separator m).
  - cbn [fst snd] in *.
    assert (Hshow : shows (NewPoolRegistry t d pools) pools).
    { intros m. unfold NewPoolRegistry. rewrite Hs. case_bool_decide as Hm; [done|].
      transitivity (None : option PoolConfig).
      - unfold shown. simpl. by destruct (has_separator m).
      - symmetry. apply eq_None_not_Some. intros [c Hc%elem_of_range]. apply Hm.
        apply list_elem_of_fmap. by exists (m, c). }
    split; [done|]. by eapply finish_exact.
Qed.

(** ** A reload of the running configuration *)

Lemma applyOne_same t pools current r x n c :
  file_ok pools → WF r → pools !! n = Some c → shown r n = Some c → n ∈ current →
  ∃ y, applyOne t pools current (r, x) n = (r, y) ∧ drained y = drained x.
Proof.
  intros Hok Hwf Hc [Hn (b & Hb & Hcb)]%shown_Some Hcur. destruct (Hok n c Hc) as [Hv _].
  destruct (validated t n c r Hv) as [_ Hrec]. unfold applyOne.
  rewrite Hc, bool_decide_true, Hrec, Hb, bool_decide_true by done. eauto.
Qed.

Lemma apply_loop_same t pools current l r x :
  file_ok pools → WF r → shows r pools →
  (∀ n, n ∈ l → n ∈ current ∧ is_Some (pools !! n)) →
  ∃ y, foldl (applyOne t pools current) (r, x) l = (r, y) ∧ drained y = drained x.
Proof.
  intros Hok Hwf Hs. revert x. induction l as [|n l IH]; intros x Hl; [eauto|].
  destruct (Hl n) as [Hcur [c Hc]]; [by left|].
  destruct (applyOne_same t pools current r x n c) as (y & Hy & Hd); try done; [by rewrite Hs|].
  cbn [foldl]. rewrite Hy. destruct (IH y) as (z & Hz & Hdz); [intros; apply Hl; by right|].
  exists z. split; [done | congruence].
Qed.

Lemma remove_loop_same pools l s :
  (∀ n, n ∈ l → is_Some (pools !! n)) → foldl (removeOne pools) s l = s.
Proof.
  revert s. induction l as [|n l IH]; intros s Hl; [done|]. simpl.
  destruct (Hl n) as [c Hc]; [by left|].
  assert (removeOne pools s n = s) as -> by (destruct s; simpl; by rewrite Hc).
  apply IH. intros. apply Hl. by right.
Qed.

Lemma reload_same t pools r :
  file_ok pools → WF r → shows r pools →
  (applyPools t pools r).1 = r ∧ drained (applyPools t pools r).2 = [].
Proof.
  intros Hok Hwf Hs. unfold applyPools.
  destruct (apply_loop_same t pools (PoolNames r) (sort_strings (range pools).*1) r
    (noResult)) as (y & -> & Hd); try done.
  - intros n. rewrite sort_perm, list_elem_of_fmap. intros ([m c] & -> & Hin%elem_of_range).
    rewrite elem_of_PoolNames, Hs by done. simpl. eauto.
  - rewrite remove_loop_same; [done|]. intros n Hn. apply elem_of_PoolNames in Hn; [|done].
    by rewrite <-Hs.
Qed.

(** ** A reload among clients *)

(** What goes on beside a reload that changes no pool's configuration: clients
    that log in and are routed, and the reaper. *)
Definition client (a : op) : Prop := match a with OResolve | OEvict | OLogin => True | _ => False end.

Inductive rlstep (pools : gmap string PoolConfig) : state * reloading → state * reloading → Prop :=
| rl_reload t r P pc r' pc' : reloadStep t pools r pc = Some (r', pc') → rlstep pools (r, P, pc) (r', P, pc')
| rl_client a s s' pc : client a → rstep a s s' → rlstep pools (s, pc) (s', pc).

Lemma shown_same r r' n :
  (∀ k, has_separator k = false → config <$> entries r' !! k = config <$> entries r !! k) → shown r' n = shown r n.
Proof. intros He. unfold shown. destruct (has_separator n) eqn:E; [done|]. by apply He. Qed.

Lemma finish_shown t l r :
  pending_ok l → (∀ n, shown (resolveFinish t l r).1 n = shown r n) ∧ byDatabase (resolveFinish t l r).1 = byDatabase r.
Proof.
  intros Hl. destruct l as [|k e|m u c]; simpl; [done| |].
  - destruct (passthrough e); [|done]. unfold stamp. destruct (entries r !! k) as [e1|] eqn:Hk; [|done].
    destruct (pool e1 =? pool e); [|done]. split; [|done]. intros n. apply shown_same. intros k' _. simpl.
    destruct (decide (k = k')) as [<-|?]; [by rewrite lookup_insert_eq, Hk|by rewrite lookup_insert_ne].
  - destruct Hl as (Hm & Hu & _). unfold createPassthroughEntry.
    destruct (entries r !! poolKey m u); [done|]. destruct (entries r !! poolKey m ""); [|done].
    split; [|done]. intros n. apply shown_same. intros k' Hk. simpl. rewrite lookup_insert_ne; [done|].
    intros <-. by rewrite has_separator_key, bool_decide_false in Hk.
Qed.

Lemma client_shown a s s' :
  rstep a s s' → client a → WF s.1 → Forall pending_ok s.2 →
  (∀ n, shown s'.1 n = shown s.1 n) ∧ byDatabase s'.1 = byDatabase s.1.
Proof.
  intros Hst Hc Hwf HP. destruct Hst; try done; simpl in *.
  - apply Forall_app in HP as [_ [? _]%Forall_cons]. by apply finish_shown.
  - split; [|unfold EvictIdlePassthrough; by case_match]. intros n. apply shown_same. intros k Hk.
    destruct (Z_le_gt_dec idleFor 0) as [Hle|Hgt].
    { unfold EvictIdlePassthrough. by rewrite (proj2 (Z.leb_le _ _)) by done. }
    f_equal. apply option_eq. intros e. rewrite Evict_entries by lia. split; [by intros [? _]|]. intros He.
    split; [done|]. destruct Hwf as [HE HG]. destruct (base_entry r k e) as [_ Hb]; [done..|].
    unfold evictable. destruct (passthrough e) eqn:Hp; [by destruct (wf_pt r HE _ _ He Hp)|done].
  - unfold remember. by destruct (keys r).
Qed.

(** How far a reload is. *)
Definition reload_inv (pools : gmap string PoolConfig) (r : PoolRegistry) (pc : reloading) : Prop :=
  match pc with
  | Starting => exact_routes r
  | Applying cur todo x =>
      Progress pools (r, x) ∧ NoDup todo ∧ NoDup cur ∧ (∀ n, n ∈ todo → is_Some (pools !! n)) ∧
      (∀ n, n ∈ todo ∨ pools !! n = None → n ∈ cur ↔ is_Some (shown r n)) ∧
      (∀ n, n ∉ todo → is_Some (pools !! n) → shown r n = pools !! n)
  | Removing todo x =>
      Progress pools (r, x) ∧ NoDup todo ∧ (∀ n, pools !! n = None → n ∈ todo ↔ is_Some (shown r n)) ∧
      (∀ n, is_Some (pools !! n) → shown r n = pools !! n)
  | Reloaded x => Progress pools (r, x) ∧ shows r pools
  end.

(** Everything a reload relies on is what is shown and the routes. *)
Lemma reload_inv_same pools r r' pc :
  WF r' → (∀ n, shown r' n = shown r n) → byDatabase r' = byDatabase r → reload_inv pools r pc → reload_inv pools r' pc.
Proof.
  intros Hwf Hs Hd.
  assert (HP : ∀ x, Progress pools (r, x) → Progress pools (r', x)).
  { intros x [_ Hsd Hrt Hx]. cbn [fst snd] in *. split; cbn [fst snd]; [done| | |done].
    - intros d n. rewrite Hd, Hs. apply Hsd.
    - intros m c d. rewrite Hs, Hd. apply Hrt. }
  destruct pc as [|cur todo x|todo x|x]; cbn [reload_inv].
  - intros Hex d n. rewrite Hd, Hs. apply Hex.
  - intros (? & ? & ? & ? & Hc & Hdone). split_and!; auto; intros n; rewrite Hs; auto.
  - intros (? & ? & Hc & Hdone). split_and!; auto; intros n; rewrite Hs; auto.
  - intros [? Hsh]. split; [auto|]. intros n. by rewrite Hs.
Qed.

Lemma elem_of_file (pools : gmap string PoolConfig) n : n ∈ sort_strings (range pools).*1 ↔ is_Some (pools !! n).
Proof.
  rewrite sort_perm, list_elem_of_fmap. split.
  - intros ([k c] & -> & Hin%elem_of_range). eauto.
  - intros [c Hc%elem_of_range]. by exists (n, c).
Qed.

(** A step of the reload itself. *)
Lemma reload_step_inv t pools r pc r' pc' :
  file_ok pools → disjoint_names pools → WF r → reload_inv pools r pc →
  reloadStep t pools r pc = Some (r', pc') → reload_inv pools r' pc'.
Proof.
  intros Hok Hdis Hwf. destruct pc as [|cur [|n todo] x|[|n todo] x|x]; cbn [reloadStep reload_inv]; intros Hi E; [| | | | |done].
  - injection E as <- <-. cbn [reload_inv]. split_and!; [by apply exact_start| |apply NoDup_PoolNames|..].
    + rewrite sort_perm. apply NoDup_range_fst.
    + intros n. apply elem_of_file.
    + intros n _. by apply elem_of_PoolNames.
    + intros n Hn. by rewrite elem_of_file in Hn.
  - injection E as <- <-. destruct Hi as (HP & _ & Hnd & _ & Hc & Hdone). cbn [reload_inv]. split_and!; [done|done| |].
    + intros n Hn. apply Hc. by right.
    + intros n. apply Hdone. apply not_elem_of_nil.
  - destruct Hi as (HP & [Hn Hnd]%NoDup_cons & Hnc & Hl & Hc & Hdone). destruct (Hl n) as [c Hpc]; [by left|].
    destruct (applyOne_progress t pools cur (r, x) n c) as [HP' Hs]; try done; [apply Hc; left; by left|].
    destruct (applyOne t pools cur (r, x) n) as [r1 x1]. injection E as <- <-. cbn [fst reload_inv] in *.
    split_and!; [done|done|done| | |].
    + intros m Hm. apply Hl. by right.
    + intros m Hm. rewrite Hs, bool_decide_false; [|by intros ->; destruct Hm as [?|?]; [by apply Hn|congruence]].
      apply Hc. destruct Hm as [?|?]; [left; by right|by right].
    + intros m Hm Hpm. rewrite Hs. case_bool_decide as Heq; [by subst; rewrite Hpc|].
      apply Hdone; [|done]. intros [?|?]%elem_of_cons; done.
  - injection E as <- <-. destruct Hi as (HP & _ & Hc & Hdone). cbn [reload_inv]. split; [done|]. intros n.
    destruct (pools !! n) as [c|] eqn:Hn; [by rewrite Hdone by eauto|]. apply eq_None_not_Some.
    rewrite <-Hc by done. apply not_elem_of_nil.
  - destruct Hi as (HP & [Hn Hnd]%NoDup_cons & Hc & Hdone).
    destruct (removeOne_progress pools (r, x) n) as [HP' Hs]; [|done|].
    { cbn [fst]. intros Hp. apply Hc; [done|by left]. }
    destruct (removeOne pools (r, x) n) as [r1 x1]. injection E as <- <-. cbn [fst reload_inv] in *.
    split_and!; [done|done| |].
    + intros m Hm. rewrite Hs. case_bool_decide as Heq.
      * destruct Heq as [-> _]. split; [by intros ?|by intros []].
      * rewrite <-Hc by done. rewrite elem_of_cons. naive_solver.
    + intros m Hm. rewrite Hs, bool_decide_false; [by apply Hdone|]. intros [-> Hp]. rewrite Hp in Hm. by destruct Hm.
Qed.

(** The steps a reload has left once it has read the names. *)
Definition left_over (pc : reloading) : nat :=
  match pc with
  | Starting => 0
  | Applying cur todo _ => 2 + length cur + length todo
  | Removing todo _ => 1 + length todo
  | Reloaded _ => 0
  end.

Lemma reload_finishes pools s pc : ∃ s' x, rtc (rlstep pools) (s, pc) (s', Reloaded x).
Proof.
  assert (K : ∀ n s pc, left_over pc < n → pc ≠ Starting → ∃ s' x, rtc (rlstep pools) (s, pc) (s', Reloaded x)).
  { clear. induction n as [|n IH]; intros [r P] pc Hn Hs; [lia|].
    assert (Own : ∀ pc' r', reloadStep 0 pools r pc = Some (r', pc') → left_over pc' < n → pc' ≠ Starting →
      ∃ s' x, rtc (rlstep pools) (r, P, pc) (s', Reloaded x)).
    { intros pc' r' E Hl Hs'. destruct (IH (r', P) pc' Hl Hs') as (s' & x & Hr). exists s', x.
      eapply rtc_l; [by econstructor|exact Hr]. }
    destruct pc as [|cur [|m todo] x|[|m todo] x|x]; simpl in Hn; [done| | | | |].
    - eapply Own; [done|simpl; lia|done].
    - destruct (applyOne 0 pools cur (r, x) m) as [r1 x1] eqn:E.
      eapply Own; [cbn [reloadStep]; by rewrite E|simpl; lia|done].
    - exists (r, P), x. by apply rtc_once, rl_reload with 0%Z.
    - destruct (removeOne pools (r, x) m) as [r1 x1] eqn:E.
      eapply Own; [cbn [reloadStep]; by rewrite E|simpl; lia|done].
    - by exists (r, P), x. }
  destruct pc as [| | |]; try (by eapply K; [apply Nat.lt_succ_diag_r|]). destruct s as [r P].
  destruct (K (S (left_over (Applying (PoolNames r) (sort_strings (range pools).*1) noResult))) (r, P)
    (Applying (PoolNames r) (sort_strings (range pools).*1) noResult)) as (s' & x & Hr); [lia|done|].
  exists s', x. eapply rtc_l; [by apply (rl_reload pools 0)|exact Hr].
Qed.

(** [applyPools] is the reload nobody gets in between of. *)
Lemma applyPools_run t pools r P :
  rtc (rlstep pools) (r, P, Starting) ((applyPools t pools r).1, P, Reloaded (applyPools t pools r).2).
Proof.
  assert (A : ∀ cur l r x, rtc (rlstep pools) (r, P, Applying cur l x)
    (let s := foldl (applyOne t pools cur) (r, x) l in (s.1, P, Applying cur [] s.2))).
  { intros cur l. induction l as [|n l IH]; intros r1 x; [constructor|]. cbn [foldl].
    destruct (applyOne t pools cur (r1, x) n) as [r2 x2] eqn:E. eapply rtc_l; [|apply IH].
    apply (rl_reload pools t). cbn [reloadStep]. by rewrite E. }
  assert (B : ∀ l r x, rtc (rlstep pools) (r, P, Removing l x)
    (let s := foldl (removeOne pools) (r, x) l in (s.1, P, Reloaded s.2))).
  { intros l. induction l as [|n l IH]; intros r1 x; [by apply rtc_once, (rl_reload pools t)|]. cbn [foldl].
    destruct (removeOne pools (r1, x) n) as [r2 x2] eqn:E. eapply rtc_l; [|apply IH].
    apply (rl_reload pools t). cbn [reloadStep]. by rewrite E. }
  unfold applyPools. eapply rtc_l; [by apply (rl_reload pools t)|]. etrans; [apply A|].
  destruct (foldl (applyOne t pools (PoolNames r)) (r, noResult) (sort_strings (range pools).*1)) as [r1 x1].
  cbn [fst snd]. eapply rtc_l; [by apply (rl_reload pools t)|]. apply B.
Qed.

Lemma rl_run pools z z' :
  file_ok pools → disjoint_names pools → rtc (rlstep pools) z z' →
  WF z.1.1 ∧ Forall pending_ok z.1.2 ∧ reload_inv pools z.1.1 z.2 →
  WF z'.1.1 ∧ Forall pending_ok z'.1.2 ∧ reload_inv pools z'.1.1 z'.2.
Proof.
  intros Hok Hdis. induction 1 as [|z1 z2 z3 Hst _ IH]; [done|]. intros (Hwf & HP & Hi). apply IH. clear IH.
  destruct Hst as [t r P pc r' pc' E|a s s' pc Hc Hst]; cbn [fst snd] in *.
  - split_and!; [|done|by eapply reload_step_inv]. eapply reloadStep_WF; [by apply file_ok_PoolsOK|done|exact E].
  - destruct (rstep_WF _ _ _ Hst) as [Hwf' HP']; [by destruct a|done..|].
    destruct (client_shown _ _ _ Hst Hc Hwf HP) as [Hs Hd]. split_and!; [done..|].
    by eapply reload_inv_same.
Qed.


End ranging.

(** ** Witness *)

Definition old_file : gmap string PoolConfig :=
  {[ "shop" := RegistryTheorems.demo_cfg "postgres://app@db";
     "legacy" := RegistryTheorems.plain_cfg "postgres://legacy@db" ["archive"] ]}.

(** shop is repointed, legacy goes, and its alias moves to a new pool. *)
Definition new_file : gmap string PoolConfig :=
  {[ "shop" := RegistryTheorems.demo_cfg "postgres://app@new";
     "cold" := RegistryTheorems.plain_cfg "postgres://cold@db" ["archive"] ]}.

Lemma two_pools_disjoint (n1 n2 : string) c1 c2 :
  n1 ≠ n2 → Forall (fun d => d ∉ served n2 c2) (served n1 c1) →
  disjoint_names {[ n1 := c1; n2 := c2 ]}.
Proof.
  intros Hne Hall. rewrite Forall_forall in Hall.
  intros n n' c c' d Hn Hn' Hd Hd'.
  apply lookup_insert_Some in Hn as [[<- <-]|[_ [<- <-]%lookup_singleton_Some]];
    apply lookup_insert_Some in Hn' as [[<- <-]|[_ [<- <-]%lookup_singleton_Some]];
    try done; exfalso; by eapply Hall.
Qed.

Lemma two_pools_ok (n1 n2 : string) c1 c2 :
  validatePoolConfig n1 c1 = None → users c1 !! "" = None →
  validatePoolConfig n2 c2 = None → users c2 !! "" = None → file_ok {[ n1 := c1; n2 := c2 ]}.
Proof.
  intros ? ? ? ? n c Hn.
  by apply lookup_insert_Some in Hn as [[<- <-]|[_ [<- <-]%lookup_singleton_Some]].
Qed.

Lemma old_file_ok : file_ok old_file.
Proof. apply two_pools_ok; vm_compute; reflexivity. Qed.

Lemma old_file_disjoint : disjoint_names old_file.
Proof. apply two_pools_disjoint; [done|]. repeat constructor; by apply (bool_decide_unpack _). Qed.

Lemma new_file_ok : file_ok new_file.
Proof. apply two_pools_ok; vm_compute; reflexivity. Qed.

Lemma new_file_disjoint : disjoint_names new_file.
Proof. apply two_pools_disjoint; [done|]. repeat constructor; by apply (bool_decide_unpack _). Qed.

Lemma demo_pool_ok n dsn : has_separator n = false → dsn ≠ "" → PoolOK n (RegistryTheorems.demo_cfg dsn).
Proof.
  intros ? ?. do 4 (split; [done|]).
  intros user udsn. unfold users, RegistryTheorems.demo_cfg. simpl. intros [<- <-]%lookup_singleton_Some. by split_and!.
Qed.

Lemma plain_pool_ok n dsn al : has_separator n = false → dsn ≠ "" → PoolOK n (RegistryTheorems.plain_cfg dsn al).
Proof. intros ? ?. by do 4 (split; [done|]). Qed.

Lemma two_pools_loaded (n1 n2 : string) c1 c2 : PoolOK n1 c1 → PoolOK n2 c2 → loaded {[ n1 := c1; n2 := c2 ]}.
Proof.
  intros ? ?. apply loadable; [apply insert_non_empty|]. intros n c Hn.
  by apply lookup_insert_Some in Hn as [[<- <-]|[_ [<- <-]%lookup_singleton_Some]].
Qed.

Lemma old_file_loaded : loaded old_file.
Proof. apply two_pools_loaded; [by apply demo_pool_ok|by apply plain_pool_ok]. Qed.

Lemma new_file_loaded : loaded new_file.
Proof. apply two_pools_loaded; [by apply demo_pool_ok|by apply plain_pool_ok]. Qed.

(** The reload reads the names; alice, who has a DSN of her own, looks her pool up
    and gets it made while the reload is on its way. *)
Definition before : PoolRegistry := NewPoolRegistry 0 None old_file.
Definition asked : lookup_result := resolveRead before "shop" "alice".
Definition named : reloading := Applying (PoolNames before) (sort_strings (range new_file).*1) noResult.
Definition between : PoolRegistry := (resolveFinish 5 asked before).1.

(** The rest of the reload, undisturbed. *)
Fixpoint rest (pools : gmap string PoolConfig) (n : nat) (z : PoolRegistry * reloading) : PoolRegistry * reloading :=
  match n with
  | 0 => z
  | S n => match reloadStep 10 pools z.1 z.2 with Some z' => rest pools n z' | None => z end
  end.

Lemma rest_run pools P n r pc : rtc (rlstep pools) (r, P, pc) ((rest pools n (r, pc)).1, P, (rest pools n (r, pc)).2).
Proof.
  revert r pc. induction n as [|n IH]; intros r pc; [constructor|]. simpl.
  destruct (reloadStep 10 pools r pc) as [[r' pc']|] eqn:E; [|constructor].
  eapply rtc_l; [by apply (rl_reload pools 10)|apply IH].
Qed.

Definition after : PoolRegistry * reloading := rest new_file 6 (between, named).

Definition outcome : ReloadResult := match after.2 with Reloaded x => x | _ => noResult end.

Lemma disturbed_reload_reached : rtc (rlstep new_file) (before, [], Starting) (after.1, [], Reloaded outcome).
Proof.
  apply (rtc_l _ _ (before, [], named)); [by apply (rl_reload _ 0)|].
  apply (rtc_l _ _ (before, [asked], named)); [by apply (rl_client _ OResolve); [|apply step_read]|].
  apply (rtc_l _ _ (between, [], named)); [by apply (rl_client _ OResolve); [|apply (step_finish before [] asked [])]|].
  assert (E : Reloaded outcome = after.2) by (vm_compute; reflexivity). rewrite E. apply rest_run.
Qed.


End RegistryReload.
