(* ===== verification/DNSWatcher.v ===== *)
(** * Following a backend's DNS name

    src/dns_watcher.go: a watcher per pool resolves the backend's host name
    every interval and reconnects the pool when the addresses change.  The
    resolver is the environment; the pool is the one of Pool.v. *)

From S2P Require Import Prelude HBA BackendAddr Config Pool PoolMethods Registry RegistryLemmas.
Import Registry RegistryLemmas.
Open Scope string_scope.
Open Scope list_scope.
Open Scope Z_scope.

Module DNSWatcher.

(** ** The watcher *)

(** [lastIPs] is nil until a lookup has succeeded; [wpool] is the watched pool. *)
Record dnsWatcher := mkWatcher { lastIPs : list string; wpool : Pool.Pool }.

Fixpoint stringSlicesEqual (a b : list string) : bool :=
  match a, b with
  | [], [] => true
  | x :: a, y :: b => bool_decide (x = y) && stringSlicesEqual a b
  | _, _ => false
  end.

(** What [LookupHost] answered, sorted; [None] is a failed lookup. *)
Definition resolve (answer : option (list string)) : option (list string) := sort_strings <$> answer.

(** [startDNSWatcher]: no watcher without an interval or for an address that
    is an IP already, and otherwise one seeded with the first lookup. *)
Definition startDNSWatcher (addr : string) (p : Pool.Pool) (interval : Z) (seed : option (list string)) :
  option dnsWatcher :=
  if interval <=? 0 then None
  else
    let a := HBA.lit addr in
    let host := match BackendAddr.SplitHostPort a with Some (h, _) => h | None => a end in
    match BackendAddr.ParseIP host with
    | Some _ => None
    | None => Some (mkWatcher (default [] (resolve seed)) p)
    end.

(** One tick; the number is what the log line reports. *)
Definition tick (w : dnsWatcher) (answer : option (list string)) : option dnsWatcher :=
  match resolve answer with
  | None => Some w
  | Some ips =>
      if stringSlicesEqual (lastIPs w) ips then Some w
      else match Pool.Reconnect (wpool w) with
           | Some (p, _) => Some (mkWatcher ips p)
           | None => None
           end
  end.

(** The loop until [stop]: the answers of the ticks that fired. *)
Fixpoint loop (answers : list (option (list string))) (w : dnsWatcher) : option dnsWatcher :=
  match answers with
  | [] => Some w
  | a :: answers => match tick w a with Some w => loop answers w | None => None end
  end.

(** ** The specification

    The addresses of the last successful lookup, as a multiset, and how often
    they change along a sequence of lookups. *)

Fixpoint changes (last : list string) (answers : list (option (list string))) : Z :=
  match answers with
  | [] => 0
  | None :: answers => changes last answers
  | Some ips :: answers => (if bool_decide (last ≡ₚ ips) then 0 else 1) + changes ips answers
  end.

Lemma changes_nonneg last answers : 0 ≤ changes last answers.
Proof.
  revert last. induction answers as [|[ips|] l IH]; intros last; simpl; [lia| |apply IH].
  specialize (IH ips). case_bool_decide; lia.
Qed.

Lemma stringSlicesEqual_eq a b : stringSlicesEqual a b = bool_decide (a = b).
Proof.
  revert b. induction a as [|x a IH]; intros [|y b]; simpl; try done.
  rewrite IH. repeat case_bool_decide; simplify_eq; naive_solver.
Qed.

Lemma Reconnect_gen p : ∃ p', Pool.Reconnect p = Some (p', length (Pool.idle p)) ∧
  Pool.reconnectGen p' = Pool.reconnectGen p + 1 ∧ Pool.idle p' = [].
Proof.
  rewrite PoolMethods.Reconnect_eq. eexists; split; [reflexivity|].
  set (q := Pool.with_idle [] _).
  destruct (PoolMethods.retire_all_spec PoolMethods.reconnect_post ltac:(done) ltac:(done) ltac:(done)
    ltac:(done) ltac:(done) ltac:(done) ltac:(done) (Pool.ic_conn <$> Pool.idle p) q) as (Hi & Hg & _).
  simpl. by rewrite Hi, Hg.
Qed.

(** A step: reconnects exactly on a change, and then nothing idle is left. *)
Lemma tick_spec w answer : ∃ w', tick w answer = Some w' ∧
  match answer with
  | None => w' = w
  | Some ips =>
      lastIPs w' = sort_strings ips ∧
      if bool_decide (sort_strings ips = lastIPs w) then w' = w
      else Pool.reconnectGen (wpool w') = Pool.reconnectGen (wpool w) + 1 ∧ Pool.idle (wpool w') = []
  end.
Proof.
  unfold tick, resolve. destruct answer as [ips|]; simpl; [|by exists w].
  rewrite stringSlicesEqual_eq. destruct (Reconnect_gen (wpool w)) as (p' & E & Hg & Hi).
  destruct (decide (lastIPs w = sort_strings ips)) as [H|H].
  - rewrite !bool_decide_true by done. exists w. done.
  - rewrite !bool_decide_false by done. rewrite E. eexists; split; [reflexivity|]. done.
Qed.

Lemma loop_spec answers : ∀ w ips,
  lastIPs w = sort_strings ips →
  ∃ w', loop answers w = Some w' ∧
    Pool.reconnectGen (wpool w') = Pool.reconnectGen (wpool w) + changes ips answers ∧
    (changes ips answers = 0 → wpool w' = wpool w).
Proof.
  induction answers as [|a l IH]; intros w ips Hw; simpl.
  - exists w. split_and!; [done|lia|done].
  - destruct (tick_spec w a) as (w1 & -> & H). destruct a as [new|]; [|subst w1; by apply IH].
    destruct H as [Hlast H]. destruct (IH w1 new Hlast) as (w' & -> & Hg & Hz).
    exists w'. split; [done|]. rewrite Hw in H. pose proof (changes_nonneg new l).
    destruct (decide (ips ≡ₚ new)) as [Hp|Hp].
    + rewrite bool_decide_true by done. rewrite bool_decide_true in H by (symmetry; by apply sort_strings_perm).
      subst w1. split; [lia|]. intros. apply Hz. lia.
    + rewrite bool_decide_false by done.
      rewrite bool_decide_false in H by (rewrite sort_strings_perm; by intros ?%Permutation_sym).
      destruct H as [Hg1 _]. split; lia.
Qed.

(** The watcher reconnects its pool exactly when the addresses change: over
    any sequence of lookups, failed ones included, the pool's generation grows
    by the number of successful lookups whose addresses are not a reordering of
    the previous ones.  A changed address leaves nothing idle, and neither a
    reordered answer nor a failing resolver touches the pool. *)
Theorem dns_watcher_exact answers w ips :
  lastIPs w = sort_strings ips →
  (∃ w', loop answers w = Some w' ∧
    Pool.reconnectGen (wpool w') = Pool.reconnectGen (wpool w) + changes ips answers ∧
    (changes ips answers = 0 → wpool w' = wpool w)) ∧
  (∀ new w1, ¬ ips ≡ₚ new → tick w (Some new) = Some w1 → Pool.idle (wpool w1) = []).
Proof.
  intros Hw. split; [by apply loop_spec|]. intros new w1 Hn H.
  destruct (tick_spec w (Some new)) as (w' & E & Hlast & K). rewrite H in E. simplify_eq.
  rewrite Hw, bool_decide_false in K by (rewrite sort_strings_perm; by intros ?%Permutation_sym).
  apply K.
Qed.

Definition demo_pool : Pool.Pool := Pool.New PoolMethods.breaker_opts 0.

Definition demo_watcher : dnsWatcher :=
  default (mkWatcher [] demo_pool)
    (startDNSWatcher "db.internal:5432" demo_pool (30 * Second) (Some ["10.0.0.2"; "10.0.0.1"])).

(** Reordered, failed, changed, unchanged, changed back: two reconnects. *)
Definition demo_answers : list (option (list string)) :=
  [Some ["10.0.0.1"; "10.0.0.2"]; None; Some ["10.0.0.3"]; Some ["10.0.0.3"]; Some ["10.0.0.2"; "10.0.0.1"]].

Lemma dns_watcher_exact_witness :
  changes ["10.0.0.2"; "10.0.0.1"] demo_answers = 2 ∧
  ∃ w', loop demo_answers demo_watcher = Some w' ∧
    Pool.reconnectGen (wpool w') = Pool.reconnectGen (wpool demo_watcher) + changes ["10.0.0.2"; "10.0.0.1"] demo_answers.
Proof.
  split; [by vm_compute|].
  destruct (dns_watcher_exact demo_answers demo_watcher ["10.0.0.2"; "10.0.0.1"]) as [(w' & H1 & H2 & _) _];
    [by vm_compute|]. by exists w'.
Defined.

(** A watcher runs exactly for the pools for which the registry says so. *)
Lemma watcher_started_iff d c cfg p seed :
  d = Some c →
  bool_decide (is_Some (startDNSWatcher (Config.BackendAddr cfg) p (Config.DNSResolveInterval c) seed)) =
  startDNSWatcherFor d cfg.
Proof.
  intros ->. unfold startDNSWatcher, startDNSWatcherFor.
  destruct (Config.DNSResolveInterval c <=? 0) eqn:E; to_prop.
  - by rewrite (proj2 (Z.ltb_ge _ _)).
  - rewrite (proj2 (Z.ltb_lt _ _)) by done. simpl.
    destruct (BackendAddr.ParseIP _); [done|]. by rewrite bool_decide_true by by eexists.
Qed.

End DNSWatcher.
