(* ===== verification/GoCrypto.v ===== *)
(** * crypto/sha256, crypto/hmac and encoding/base64

    The standard-library functions the SCRAM code calls, executable on byte
    lists (one integer per byte), with the facts the SCRAM theorems need: digest
    lengths, that base64 decoding inverts encoding, and that xor undoes itself.
    Known digests check the tables. *)

From Stdlib Require Import Wf_nat.
From S2P Require Import Prelude.
Open Scope list_scope.
Open Scope Z_scope.

Module GoCrypto.

Abbreviation bytes := (list Z).

Definition byte (b : Z) : Prop := 0 ≤ b < 256.

(** ** SHA-256 *)

Definition w32 (z : Z) : Z := z `mod` 4294967296.

Definition rotr (x n : Z) : Z := Z.lor (Z.shiftr x n) (w32 (Z.shiftl x (32 - n))).

(** The constants are the leading fractional bits of roots of small primes. *)
Definition primes : list Z :=
  filter (fun n => forallb (fun d => negb (n `mod` d =? 0)) (seqZ 2 (n - 2)) = true) (seqZ 2 310).

(** The integer cube root, bit by bit from bit [k - 1]. *)
Fixpoint cube_root (k : nat) (n x : Z) : Z :=
  match k with
  | O => x
  | S k => let y := x + 2 ^ Z.of_nat k in cube_root k n (if y * y * y <=? n then y else x)
  end.

Definition round_keys : list Z :=
  Eval vm_compute in map (fun p => w32 (cube_root 36 (p * 2 ^ 96) 0)) primes.

Record chain := mkChain { ha : Z; hb : Z; hc : Z; hd : Z; he : Z; hf : Z; hg : Z; hh : Z }.

Definition initial : chain :=
  Eval vm_compute in
  match map (fun p => w32 (Z.sqrt (p * 2 ^ 64))) primes with
  | a :: b :: c :: d :: e :: f :: g :: h :: _ => mkChain a b c d e f g h
  | _ => mkChain 0 0 0 0 0 0 0 0
  end.

(** Big-endian words of a block. *)
Fixpoint words (bs : bytes) : list Z :=
  match bs with
  | a :: b :: c :: d :: bs => (((a * 256 + b) * 256 + c) * 256 + d) :: words bs
  | _ => []
  end.

(** The schedule, newest word first: each new word comes from the ones 2, 7,
    15 and 16 places back. *)
Definition expand (ws : list Z) : list Z :=
  let at_ n := default 0 (ws !! n) in
  let s0 := let x := at_ 14%nat in Z.lxor (Z.lxor (rotr x 7) (rotr x 18)) (Z.shiftr x 3) in
  let s1 := let x := at_ 1%nat in Z.lxor (Z.lxor (rotr x 17) (rotr x 19)) (Z.shiftr x 10) in
  w32 (at_ 15%nat + s0 + at_ 6%nat + s1) :: ws.

Definition schedule (block : bytes) : list Z := rev (Nat.iter 48 expand (rev (words block))).

Definition sha_round (c : chain) (kw : Z * Z) : chain :=
  let '(k, w) := kw in
  let s1 := Z.lxor (Z.lxor (rotr (he c) 6) (rotr (he c) 11)) (rotr (he c) 25) in
  let ch := Z.lxor (Z.land (he c) (hf c)) (Z.land (4294967295 - he c) (hg c)) in
  let t1 := hh c + s1 + ch + k + w in
  let s0 := Z.lxor (Z.lxor (rotr (ha c) 2) (rotr (ha c) 13)) (rotr (ha c) 22) in
  let maj := Z.lxor (Z.lxor (Z.land (ha c) (hb c)) (Z.land (ha c) (hc c))) (Z.land (hb c) (hc c)) in
  mkChain (w32 (t1 + s0 + maj)) (ha c) (hb c) (hc c) (w32 (hd c + t1)) (he c) (hf c) (hg c).

Definition compress (c : chain) (block : bytes) : chain :=
  let d := foldl sha_round c (zip round_keys (schedule block)) in
  mkChain (w32 (ha c + ha d)) (w32 (hb c + hb d)) (w32 (hc c + hc d)) (w32 (hd c + hd d))
    (w32 (he c + he d)) (w32 (hf c + hf d)) (w32 (hg c + hg d)) (w32 (hh c + hh d)).

(** The [n] low bytes of a number, most significant first. *)
Fixpoint big_endian (n : nat) (z : Z) : bytes :=
  match n with
  | O => []
  | S n => (z / 256 ^ Z.of_nat n) `mod` 256 :: big_endian n z
  end.

Definition pad (msg : bytes) : bytes :=
  let zeros := (55 - Z.of_nat (length msg)) `mod` 64 in
  msg ++ 128 :: replicate (Z.to_nat zeros) 0 ++ big_endian 8 (8 * Z.of_nat (length msg)).

Fixpoint blocks (fuel : nat) (bs : bytes) : list bytes :=
  match fuel, bs with
  | S fuel, _ :: _ => take 64 bs :: blocks fuel (drop 64 bs)
  | _, _ => []
  end.

(** [sha256.Sum256].  A padded message has one block per 64 bytes, so its
    length is fuel enough. *)
Definition Sum256 (msg : bytes) : bytes :=
  let p := pad msg in
  let c := foldl compress initial (blocks (length p) p) in
  [ha c; hb c; hc c; hd c; he c; hf c; hg c; hh c] ≫= big_endian 4.

(** ** HMAC *)

Definition xor_bytes (a b : bytes) : bytes := zip_with Z.lxor a b.

(** [hmac.New(sha256.New, key)], one [Write], [Sum]. *)
Definition hmacSHA256 (key msg : bytes) : bytes :=
  let k := if (64 <? length key)%nat then Sum256 key else key in
  let k := k ++ replicate (64 - length k) 0 in
  Sum256 (map (Z.lxor 92) k ++ Sum256 (map (Z.lxor 54) k ++ msg)).

(** ** base64.StdEncoding *)

Definition b64_char (n : Z) : Z :=
  if n <? 26 then n + 65 else if n <? 52 then n + 71 else if n <? 62 then n - 4
  else if n =? 62 then 43 else 47.

Definition b64_value (c : Z) : option Z :=
  if (65 <=? c) && (c <=? 90) then Some (c - 65)
  else if (97 <=? c) && (c <=? 122) then Some (c - 71)
  else if (48 <=? c) && (c <=? 57) then Some (c + 4)
  else if c =? 43 then Some 62
  else if c =? 47 then Some 63
  else None.

Definition PAD : Z := 61.

Fixpoint EncodeToString (bs : bytes) : bytes :=
  match bs with
  | [] => []
  | [a] => [b64_char (a / 4); b64_char (a `mod` 4 * 16); PAD; PAD]
  | [a; b] => [b64_char (a / 4); b64_char (a `mod` 4 * 16 + b / 16); b64_char (b `mod` 16 * 4); PAD]
  | a :: b :: c :: bs =>
      b64_char (a / 4) :: b64_char (a `mod` 4 * 16 + b / 16)
      :: b64_char (b `mod` 16 * 4 + c / 64) :: b64_char (c `mod` 64) :: EncodeToString bs
  end.

Definition newline (c : Z) : bool := (c =? 10) || (c =? 13).

Definition is_nil {A} (l : list A) : bool := match l with [] => true | _ => false end.

(** Quanta of four characters; padding ends the input, and bits it leaves over
    are ignored. *)
Fixpoint decode_quanta (s : bytes) : option bytes :=
  match s with
  | [] => Some []
  | a :: b :: c :: d :: rest =>
      match b64_value a, b64_value b with
      | Some x, Some y =>
          let b0 := x * 4 + y / 16 in
          if c =? PAD then if (d =? PAD) && is_nil rest then Some [b0] else None
          else match b64_value c with
               | None => None
               | Some z =>
                   let b1 := y `mod` 16 * 16 + z / 4 in
                   if d =? PAD then if is_nil rest then Some [b0; b1] else None
                   else match b64_value d, decode_quanta rest with
                        | Some w, Some out => Some (b0 :: b1 :: (z `mod` 4 * 64 + w) :: out)
                        | _, _ => None
                        end
               end
      | _, _ => None
      end
  | _ => None
  end.

(** Newlines are skipped wherever they occur. *)
Definition DecodeString (s : bytes) : option bytes :=
  decode_quanta (filter (fun c => newline c = false) s).

(** ** Facts *)

Lemma Sum256_length msg : length (Sum256 msg) = 32%nat.
Proof. done. Qed.

Lemma Sum256_abc :
  Sum256 [97; 98; 99] =
  [0xba; 0x78; 0x16; 0xbf; 0x8f; 0x01; 0xcf; 0xea; 0x41; 0x41; 0x40; 0xde; 0x5d; 0xae; 0x22; 0x23;
   0xb0; 0x03; 0x61; 0xa3; 0x96; 0x17; 0x7a; 0x9c; 0xb4; 0x10; 0xff; 0x61; 0xf2; 0x00; 0x15; 0xad].
Proof. vm_compute. reflexivity. Qed.

Lemma big_endian_byte n z : Forall byte (big_endian n z).
Proof. induction n as [|n IH]; simpl; constructor; [apply Z.mod_pos_bound; lia | done]. Qed.

Lemma Sum256_byte msg : Forall byte (Sum256 msg).
Proof. unfold Sum256. rewrite Forall_bind. apply Forall_true. intros; apply big_endian_byte. Qed.

Lemma hmac_length key msg : length (hmacSHA256 key msg) = 32%nat.
Proof. apply Sum256_length. Qed.

Lemma hmac_byte key msg : Forall byte (hmacSHA256 key msg).
Proof. apply Sum256_byte. Qed.

(** A key longer than a block. *)
Lemma hmac_long_key :
  hmacSHA256 (replicate 70 107) [104; 101; 108; 108; 111] =
  [0x73; 0x47; 0x3f; 0x93; 0x7d; 0x4c; 0x18; 0x1e; 0xd6; 0xaa; 0x87; 0xce; 0x97; 0xd6; 0xdb; 0x7d;
   0xc7; 0x32; 0xe1; 0x9d; 0xd4; 0x3e; 0x60; 0xc8; 0xab; 0x7e; 0xe3; 0xae; 0xd2; 0xd9; 0xf4; 0xb0].
Proof. vm_compute. reflexivity. Qed.

Lemma lxor_byte a b : byte a → byte b → byte (Z.lxor a b).
Proof.
  unfold byte. intros Ha Hb. assert (0 ≤ Z.lxor a b) by (apply Z.lxor_nonneg; lia).
  split; [done|]. destruct (Z.eq_dec (Z.lxor a b) 0) as [->|Hne]; [lia|].
  apply (Z.log2_lt_pow2 _ 8); [lia|].
  assert (∀ x, 0 ≤ x < 256 → Z.log2 x < 8) as Hl.
  { intros x Hx. destruct (Z.eq_dec x 0) as [->|]; [done|]. apply Z.log2_lt_pow2; lia. }
  pose proof (Z.log2_lxor a b ltac:(lia) ltac:(lia)). pose proof (Hl a Ha). pose proof (Hl b Hb). lia.
Qed.

Lemma xor_bytes_length a b : length a = length b → length (xor_bytes a b) = length a.
Proof. intros H. unfold xor_bytes. rewrite length_zip_with. lia. Qed.

Lemma xor_bytes_byte a b : Forall byte a → Forall byte b → Forall byte (xor_bytes a b).
Proof.
  unfold xor_bytes. intros Ha. revert b. induction Ha as [|x a Hx Ha IH]; intros [|y b] Hb; simpl; try done.
  apply Forall_cons in Hb as [Hy Hb]. constructor; [by apply lxor_byte | by apply IH].
Qed.

Lemma xor_bytes_cancel a b : length a = length b → xor_bytes (xor_bytes a b) b = a.
Proof.
  unfold xor_bytes. revert b. induction a as [|x a IH]; intros [|y b] Hl; simplify_eq/=; [done|].
  rewrite Z.lxor_assoc, Z.lxor_nilpotent, Z.lxor_0_r. f_equal. by apply IH.
Qed.

(** ** base64 round trip *)

(** What an encoded character is: in the alphabet, so neither padding nor a
    newline nor a comma. *)
Lemma b64_value_char n : 0 ≤ n < 64 → b64_value (b64_char n) = Some n.
Proof.
  intros Hn.
  assert (Hall : Forall (fun k => b64_value (b64_char k) = Some k) (seqZ 0 64)).
  { apply (bool_decide_unpack _). vm_compute. exact Logic.I. }
  rewrite Forall_forall in Hall. apply Hall, elem_of_seqZ. lia.
Qed.

Lemma b64_char_range n : 0 ≤ n < 64 →
  43 ≤ b64_char n ≤ 122 ∧ b64_char n ≠ 44 ∧ b64_char n ≠ 58 ∧ b64_char n ≠ PAD.
Proof. intros Hn. unfold b64_char, PAD. repeat case_match; to_prop; lia. Qed.

(** Characters an encoding is made of. *)
Definition b64_text (c : Z) : Prop := 43 ≤ c ≤ 122 ∧ c ≠ 44 ∧ c ≠ 58.

Lemma triple_ind (P : bytes → Prop) :
  P [] → (∀ a, P [a]) → (∀ a b, P [a; b]) → (∀ a b c l, P l → P (a :: b :: c :: l)) → ∀ l, P l.
Proof.
  intros H0 H1 H2 H3. assert (∀ n l, (length l < n)%nat → P l) as H.
  { induction n as [|n IH]; intros l Hl; [lia|].
    destruct l as [|a [|b [|c l]]]; auto. apply H3, IH. simpl in Hl. lia. }
  intros l. apply (H (S (length l))). lia.
Qed.

Ltac sextets :=
  match goal with
  | H : byte ?a |- _ =>
      unfold byte in H;
      pose proof (Z.mod_pos_bound a 4 ltac:(lia)); pose proof (Z.mod_pos_bound a 16 ltac:(lia));
      pose proof (Z.mod_pos_bound a 64 ltac:(lia));
      pose proof (Z.div_mod a 4 ltac:(lia)); pose proof (Z.div_mod a 16 ltac:(lia));
      pose proof (Z.div_mod a 64 ltac:(lia))
  end.

Lemma encode_text bs : Forall byte bs → Forall b64_text (EncodeToString bs).
Proof.
  assert (Hc : ∀ n, 0 ≤ n < 64 → b64_text (b64_char n)).
  { intros n Hn. destruct (b64_char_range n Hn) as (? & ? & ? & _). done. }
  assert (b64_text PAD) by (unfold b64_text, PAD; lia).
  induction bs as [|a|a b|a b c bs IH] using triple_ind; simpl; rewrite ?Forall_cons; intros Hb;
    destruct_and?; repeat sextets; repeat match goal with |- _ ∧ _ => split end; auto; apply Hc; lia.
Qed.

Ltac euclid := Z.to_euclidean_division_equations; lia.

Lemma decode_encode bs : Forall byte bs → decode_quanta (EncodeToString bs) = Some bs.
Proof.
  induction bs as [|a|a b|a b c bs IH] using triple_ind; cbn [EncodeToString decode_quanta];
    rewrite ?Forall_cons; intros Hb; destruct_and?; [done|..]; repeat sextets.
  - rewrite !b64_value_char by lia. simpl. f_equal. f_equal. euclid.
  - rewrite !b64_value_char by lia. cbn -[Z.div Z.modulo Z.mul].
    destruct (b64_char_range (b `mod` 16 * 4)) as (_ & _ & _ & Hp); [lia|].
    rewrite (proj2 (Z.eqb_neq _ _)) by done. repeat f_equal; euclid.
  - rewrite !b64_value_char by lia. cbn -[Z.div Z.modulo Z.mul EncodeToString].
    destruct (b64_char_range (b `mod` 16 * 4 + c / 64)) as (_ & _ & _ & Hp); [lia|].
    destruct (b64_char_range (c `mod` 64)) as (_ & _ & _ & Hp'); [lia|].
    rewrite !(proj2 (Z.eqb_neq _ _)) by done. rewrite IH by done. repeat f_equal; euclid.
Qed.

Lemma decode_encode_string bs : Forall byte bs → DecodeString (EncodeToString bs) = Some bs.
Proof.
  intros Hb. unfold DecodeString.
  assert (Hf : ∀ l, Forall b64_text l → filter (fun c => newline c = false) l = l).
  { induction 1 as [|c l [Hc _] Hl IH]; [done|]. rewrite filter_cons_True, IH; [done|].
    unfold newline. rewrite !(proj2 (Z.eqb_neq _ _)) by lia. done. }
  rewrite Hf by (by apply encode_text). by apply decode_encode.
Qed.

Lemma b64_value_bound c n : b64_value c = Some n → 0 ≤ n < 64.
Proof. unfold b64_value. repeat case_match; intros; simplify_eq; to_prop; lia. Qed.

(** Decoding yields bytes. *)
Lemma decode_quanta_byte s out : decode_quanta s = Some out → Forall byte out.
Proof.
  revert out. induction s as [s IH] using (well_founded_induction (well_founded_ltof _ (@length Z))).
  intros out. destruct s as [|a [|b [|c [|d rest]]]]; cbn [decode_quanta]; try done; [intros [= <-]; constructor|].
  destruct (b64_value a) as [x|] eqn:Ea; [|done]. destruct (b64_value b) as [y|] eqn:Eb; [|done].
  apply b64_value_bound in Ea, Eb. unfold byte.
  destruct (c =? PAD). { case_match; [|done]. intros [= <-]. repeat constructor; euclid. }
  destruct (b64_value c) as [z|] eqn:Ec; [|done]. apply b64_value_bound in Ec.
  destruct (d =? PAD). { case_match; [|done]. intros [= <-]. repeat constructor; euclid. }
  destruct (b64_value d) as [w|] eqn:Ed; [|done]. apply b64_value_bound in Ed.
  destruct (decode_quanta rest) as [o|] eqn:Er; [|done]. intros [= <-].
  apply IH in Er; [|unfold ltof; simpl; lia]. repeat constructor; try euclid. done.
Qed.

Lemma DecodeString_byte s out : DecodeString s = Some out → Forall byte out.
Proof. apply decode_quanta_byte. Qed.

End GoCrypto.
