(* ===== verification/Scram.v ===== *)
(** * SCRAM authentication and pass-through

    src/scram_clientkey.go, src/scram_passthrough.go and the SCRAM half of
    src/auth.go: recovering a client's key from the exchange it passed, keeping
    it, and authenticating to the backend with it; the verifier format; and the
    server side of a client login.  The conversation of the xdg-go/scram
    package is a parameter.  Strings are byte lists. *)

From S2P Require Import Prelude GoStrings HBA GoCrypto.
Import GoCrypto.
Open Scope list_scope.
Open Scope Z_scope.

Module Scram.

Abbreviation lit := HBA.lit.
Definition COMMA : Z := 44.

(** ** Credentials *)

(** [scram.StoredCredentials] with its embedded [KeyFactors]. *)
Record StoredCredentials := mkCreds { Salt : bytes; Iters : Z; StoredKey : bytes; ServerKey : bytes }.

Record passthroughCreds := mkPass { clientKey : bytes; creds : StoredCredentials }.

(** [clientKeyStore]; [None] is the nil store. *)
Definition clientKeyStore : Type := option (gmap string passthroughCreds).

Definition remember (user : string) (key : bytes) (c : StoredCredentials) (s : clientKeyStore) :
  clientKeyStore :=
  match s with None => None | Some keys => Some (<[user := mkPass key c]> keys) end.

Definition lookup (user : string) (s : clientKeyStore) : option passthroughCreds :=
  match s with None => None | Some keys => keys !! user end.

(** ** Recovering the client key *)

Record scramExchange := mkExchange { ClientFirst : bytes; ServerFirst : bytes; ClientFinal : bytes }.

Inductive scramErr :=
| ErrNoGs2 | ErrGs2Truncated | ErrNoProof | ErrProofBase64 | ErrProofLength | ErrKeyMismatch
| ErrMechanism | ErrNonce | ErrSendInitial | ErrReceiveContinue | ErrNotContinue
| ErrSaltBase64 | ErrIterations | ErrIncomplete | ErrNonceNotExtended | ErrVerifierDiffers
| ErrSendResponse | ErrReceiveFinal | ErrNotFinal
| ErrRejected | ErrMalformedFinal | ErrSignatureBase64 | ErrSignature.

Definition clientFirstBare (clientFirst : bytes) : result scramErr bytes :=
  match cut COMMA clientFirst with
  | None => Err ErrNoGs2
  | Some (_, rest) => match cut COMMA rest with None => Err ErrGs2Truncated | Some (_, bare) => Ok bare end
  end.

Fixpoint has_prefix (s pre : bytes) : bool :=
  match pre, s with
  | [], _ => true
  | p :: pre, c :: s => (c =? p) && has_prefix s pre
  | _, [] => false
  end.

(** Split around the last occurrence: [strings.LastIndex] and its slices. *)
Fixpoint cut_last_sub (needle s : bytes) : option (bytes * bytes) :=
  match s with
  | [] => None
  | c :: s' =>
      match cut_last_sub needle s' with
      | Some (x, y) => Some (c :: x, y)
      | None => if has_prefix s needle then Some ([], drop (length needle) s) else None
      end
  end.

Definition splitClientFinal (clientFinal : bytes) : result scramErr (bytes * bytes) :=
  match cut_last_sub (lit ",p=") clientFinal with
  | None => Err ErrNoProof
  | Some (withoutProof, p) =>
      match DecodeString p with None => Err ErrProofBase64 | Some proof => Ok (withoutProof, proof) end
  end.

Definition authMessage (bare serverFirst withoutProof : bytes) : bytes :=
  bare ++ COMMA :: serverFirst ++ COMMA :: withoutProof.

Definition recoverClientKey (ex : scramExchange) (storedKey : bytes) : result scramErr bytes :=
  let? bare := clientFirstBare (ClientFirst ex) in
  let? (withoutProof, proof) := splitClientFinal (ClientFinal ex) in
  let clientSignature := hmacSHA256 storedKey (authMessage bare (ServerFirst ex) withoutProof) in
  if negb (length proof =? length clientSignature)%nat then Err ErrProofLength
  else
    let key := xor_bytes proof clientSignature in
    if bool_decide (Sum256 key = storedKey) then Ok key else Err ErrKeyMismatch.

(** ** Numbers *)

Definition digit (c : Z) : option Z := if (48 <=? c) && (c <=? 57) then Some (c - 48) else None.

Definition digits_value (s : bytes) : option Z :=
  foldl (fun acc c => match acc, digit c with Some n, Some d => Some (10 * n + d) | _, _ => None end)
    (Some 0) s.

(** [strconv.Atoi]: an optional sign, decimal digits, in the range of int. *)
Definition Atoi (s : bytes) : option Z :=
  let '(neg, ds) := match s with 43 :: ds => (false, ds) | 45 :: ds => (true, ds) | _ => (false, s) end in
  if is_nil ds then None
  else match digits_value ds with
       | None => None
       | Some n => let v := if neg then - n else n in
                   if (- two63 <=? v) && (v <? two63) then Some v else None
       end.

(** [fmt.Sprintf("%d", n)] for a non-negative number; an int has at most
    nineteen digits. *)
Fixpoint decimal (fuel : nat) (n : Z) : bytes :=
  match fuel with
  | O => []
  | S fuel => if n <? 10 then [48 + n] else decimal fuel (n / 10) ++ [48 + n `mod` 10]
  end.
Definition Itoa (n : Z) : bytes := decimal 20 n.

(** ** The client half of the exchange with the backend *)

Record serverFirstFields := mkFields { f_nonce : bytes; f_salt : bytes; f_iters : Z }.

(** The loop over the comma-separated fields. *)
Fixpoint parseFields (fs : list bytes) (acc : serverFirstFields) : result scramErr serverFirstFields :=
  match fs with
  | [] => Ok acc
  | (k :: 61 :: value) :: fs =>
      if k =? 114 then parseFields fs (mkFields value (f_salt acc) (f_iters acc))
      else if k =? 115 then
        match DecodeString value with
        | None => Err ErrSaltBase64
        | Some raw => parseFields fs (mkFields (f_nonce acc) raw (f_iters acc))
        end
      else if k =? 105 then
        match Atoi value with
        | None => Err ErrIterations
        | Some n => parseFields fs (mkFields (f_nonce acc) (f_salt acc) n)
        end
      else parseFields fs acc
  | _ :: fs => parseFields fs acc
  end.

Definition parseServerFirst (s : bytes) : result scramErr serverFirstFields :=
  let? f := parseFields (HBA.split_on COMMA s) (mkFields [] [] 0) in
  if is_nil (f_nonce f) || is_nil (f_salt f) || (f_iters f <=? 0) then Err ErrIncomplete else Ok f.

Definition verifyServerSignature (serverFinal serverKey auth : bytes) : result scramErr unit :=
  if has_prefix serverFinal (lit "e=") then Err ErrRejected
  else if negb (has_prefix serverFinal (lit "v=")) then Err ErrMalformedFinal
  else match DecodeString (drop 2 serverFinal) with
       | None => Err ErrSignatureBase64
       | Some got => if bool_decide (got = hmacSHA256 serverKey auth) then Ok tt else Err ErrSignature
       end.

Definition gs2Header : bytes := lit "n,,".
Definition bareOf (nonce : bytes) : bytes := lit "n=,r=" ++ nonce.
Definition withoutProofOf (serverNonce : bytes) : bytes :=
  lit "c=" ++ EncodeToString gs2Header ++ lit ",r=" ++ serverNonce.

(** The message between the two receives: the checks of the server-first
    message and the proof. *)
Definition clientFinalMessage (pc : passthroughCreds) (nonce serverFirst : bytes) :
  result scramErr (bytes * bytes) :=
  let? f := parseServerFirst serverFirst in
  if negb (has_prefix (f_nonce f) nonce) then Err ErrNonceNotExtended
  else if negb (bool_decide (f_salt f = Salt (creds pc))) || negb (f_iters f =? Iters (creds pc))
  then Err ErrVerifierDiffers
  else
    let wp := withoutProofOf (f_nonce f) in
    let auth := authMessage (bareOf nonce) serverFirst wp in
    let storedKey := Sum256 (clientKey pc) in
    let proof := xor_bytes (clientKey pc) (hmacSHA256 storedKey auth) in
    Ok (wp ++ lit ",p=" ++ EncodeToString proof, auth).

(** What [fe.Receive] returned. *)
Inductive received := RecvErr | SASLContinue (data : bytes) | SASLFinal (data : bytes) | OtherMsg.

Definition scramNonce (rand : option bytes) : result scramErr bytes :=
  match rand with None => Err ErrNonce | Some buf => Ok (EncodeToString buf) end.

(** The SASL messages sent, and how it ended.  [rand] is what [rand.Read]
    filled the nonce buffer with, [flush1] and [flush2] whether the sends got
    through. *)
Definition scramClientAuth (pc : passthroughCreds) (mechanisms : list bytes) (rand : option bytes)
    (flush1 : bool) (in1 : received) (flush2 : bool) (in2 : received) :
  list bytes * result scramErr unit :=
  if negb (bool_decide (lit "SCRAM-SHA-256" ∈ mechanisms)) then ([], Err ErrMechanism)
  else match scramNonce rand with
  | Err e => ([], Err e)
  | Ok nonce =>
      let first := gs2Header ++ bareOf nonce in
      if negb flush1 then ([first], Err ErrSendInitial)
      else match in1 with
      | RecvErr => ([first], Err ErrReceiveContinue)
      | SASLContinue serverFirst =>
          match clientFinalMessage pc nonce serverFirst with
          | Err e => ([first], Err e)
          | Ok (final, auth) =>
              if negb flush2 then ([first; final], Err ErrSendResponse)
              else match in2 with
              | RecvErr => ([first; final], Err ErrReceiveFinal)
              | SASLFinal data =>
                  ([first; final], verifyServerSignature data (ServerKey (creds pc)) auth)
              | _ => ([first; final], Err ErrNotFinal)
              end
          end
      | _ => ([first], Err ErrNotContinue)
      end
  end.

(** ** Verifiers *)

Inductive verifierErr :=
| BadPrefix | NoDollar | NoSaltColon | NoKeyColon | BadIters | BadSalt | BadStored | BadServer
| ItersNotPositive | SaltEmpty | StoredSize | ServerSize.

Definition verifierPrefix : bytes := lit "SCRAM-SHA-256$".

Definition ParseSCRAMVerifier (s : bytes) : result verifierErr StoredCredentials :=
  if negb (has_prefix s verifierPrefix) then Err BadPrefix
  else match cut 36 (drop (length verifierPrefix) s) with
  | None => Err NoDollar
  | Some (iterSalt, keys) =>
  match cut 58 iterSalt with
  | None => Err NoSaltColon
  | Some (iterStr, saltB64) =>
  match cut 58 keys with
  | None => Err NoKeyColon
  | Some (storedB64, serverB64) =>
  match Atoi iterStr with None => Err BadIters | Some iters =>
  match DecodeString saltB64 with None => Err BadSalt | Some salt =>
  match DecodeString storedB64 with None => Err BadStored | Some storedKey =>
  match DecodeString serverB64 with None => Err BadServer | Some serverKey =>
      if iters <=? 0 then Err ItersNotPositive
      else if is_nil salt then Err SaltEmpty
      else if negb (length storedKey =? 32)%nat then Err StoredSize
      else if negb (length serverKey =? 32)%nat then Err ServerSize
      else Ok (mkCreds salt iters storedKey serverKey)
  end end end end end end end.

(** The format string of [GenerateSCRAMVerifier]. *)
Definition formatVerifier (c : StoredCredentials) : bytes :=
  verifierPrefix ++ Itoa (Iters c) ++ 58 :: EncodeToString (Salt c) ++ 36 ::
  EncodeToString (StoredKey c) ++ 58 :: EncodeToString (ServerKey c).

(** ** Client logins: SCRAMAuth *)

Record SCRAMAuth := mkAuth {
  auth_users : gmap string StoredCredentials;
  dynamicLookup : option (string → option StoredCredentials);  (** nil, or auth_query *)
  serverEndpointBinding : bool;
}.

(** The loop of [NewSCRAMAuth] over the configured verifiers. *)
Fixpoint parseUsers (l : list (string * bytes)) :
  result (string * verifierErr) (gmap string StoredCredentials) :=
  match l with
  | [] => Ok ∅
  | (user, v) :: l =>
      match ParseSCRAMVerifier v with
      | Err e => Err (user, e)
      | Ok c => let? m := parseUsers l in Ok (<[user := c]> m)
      end
  end.

Definition NewSCRAMAuth `{MapRange} (users : gmap string bytes) (tls : bool) :
  result (string * verifierErr) SCRAMAuth :=
  let? m := parseUsers (range users) in Ok (mkAuth m None tls).

(** The two steps of a server conversation and whether it validated; the
    channel binding, when one is required, is fixed per process. *)
Record conversation := mkConv {
  conv_first : StoredCredentials → bool → bytes → option bytes;
  conv_final : StoredCredentials → bool → bytes → bytes → option (bytes * bool);
}.

Inductive clientMsg := ClientErr | SASLInitialResponse (mech data : bytes) | SASLResponse (data : bytes)
| ClientOther.

Inductive authOut := SendSASL (mechs : list bytes) | SendContinue (data : bytes) | SendFinal (data : bytes).

Inductive loginErr :=
| NoSuchUser | LookupFailed | SendMechanisms | SetSASL | ReceiveInitial | NotInitial | NoBinding
| Unsupported | Step1 | SendContinueErr | SetContinue | ReceiveResponse | NotResponse | Step2
| NotValid | SendFinalErr.

(** One login as the network sees it. *)
Record login := mkLogin {
  isTLS : bool;
  flushMechs : bool; setSASL : bool; initialMsg : clientMsg;
  flushContinue : bool; setContinue : bool; responseMsg : clientMsg;
  flushFinal : bool;
}.

Definition captureClientKey (user : string) (c : StoredCredentials) (ex : scramExchange)
    (store : clientKeyStore) : clientKeyStore :=
  match store with
  | None => None
  | Some _ =>
      match recoverClientKey ex (StoredKey c) with
      | Ok key => remember user key c store
      | Err _ => store
      end
  end.

(** After the mechanism has been chosen: [plus] is the channel-bound one. *)
Definition runConversation (cv : conversation) (user : string) (c : StoredCredentials) (plus : bool)
    (first : bytes) (l : login) (store : clientKeyStore) :
  list authOut * clientKeyStore * result loginErr unit :=
  match conv_first cv c plus first with
  | None => ([], store, Err Step1)
  | Some serverFirst =>
      let sent := [SendContinue serverFirst] in
      if negb (flushContinue l) then (sent, store, Err SendContinueErr)
      else if negb (setContinue l) then (sent, store, Err SetContinue)
      else match responseMsg l with
      | ClientErr => (sent, store, Err ReceiveResponse)
      | SASLResponse final =>
          match conv_final cv c plus first final with
          | None => (sent, store, Err Step2)
          | Some (serverFinal, valid) =>
              if negb valid then (sent, store, Err NotValid)
              else
                let store := captureClientKey user c (mkExchange first serverFirst final) store in
                (sent ++ [SendFinal serverFinal], store,
                 if flushFinal l then Ok tt else Err SendFinalErr)
          end
      | _ => (sent, store, Err NotResponse)
      end
  end.

Definition findCreds (a : SCRAMAuth) (user : string) : result loginErr StoredCredentials :=
  match auth_users a !! user with
  | Some c => Ok c
  | None =>
      match dynamicLookup a with
      | None => Err NoSuchUser
      | Some f => match f user with Some c => Ok c | None => Err LookupFailed end
      end
  end.

Definition PLUS : bytes := lit "SCRAM-SHA-256-PLUS".
Definition PLAIN : bytes := lit "SCRAM-SHA-256".

Definition Authenticate (cv : conversation) (a : SCRAMAuth) (user : string) (l : login)
    (store : clientKeyStore) : list authOut * clientKeyStore * result loginErr unit :=
  match findCreds a user with
  | Err e => ([], store, Err e)
  | Ok c =>
      let haveBinding := isTLS l && serverEndpointBinding a in
      let sent := [SendSASL (if haveBinding then [PLUS; PLAIN] else [PLAIN])] in
      if negb (flushMechs l) then (sent, store, Err SendMechanisms)
      else if negb (setSASL l) then (sent, store, Err SetSASL)
      else match initialMsg l with
      | ClientErr => (sent, store, Err ReceiveInitial)
      | SASLInitialResponse mech first =>
          if bool_decide (mech = PLUS) && negb haveBinding then (sent, store, Err NoBinding)
          else if bool_decide (mech = PLUS) || bool_decide (mech = PLAIN) then
            let '(out, store, res) :=
              runConversation cv user c (bool_decide (mech = PLUS)) first l store in
            (sent ++ out, store, res)
          else (sent, store, Err Unsupported)
      | _ => (sent, store, Err NotInitial)
      end
  end.

End Scram.
