(* ===== verification/ScramTheorems.v ===== *)
(** * Theorems about SCRAM

    A key is recovered exactly from an exchange its owner passed, what the
    store holds always matches the verifier stored with it, the proof built
    from it convinces a backend with the same verifier, the backend must prove
    itself too, and verifiers print and parse back. *)

From S2P Require Import Prelude GoStrings HBA GoCrypto Scram.
Import GoCrypto Scram.
Open Scope list_scope.
Open Scope Z_scope.

Module ScramTheorems.

(** ** Cutting messages *)

Lemma has_prefix_app s t : has_prefix (s ++ t) s = true.
Proof. induction s as [|c s IH]; [by destruct t|]. simpl. by rewrite Z.eqb_refl. Qed.

Lemma has_prefix_comma n s : COMMA ∉ s → has_prefix s (COMMA :: n) = false.
Proof.
  intros Hs. destruct s as [|c s]; [done|]. simpl. apply not_elem_of_cons in Hs as [Hc _].
  by rewrite (proj2 (Z.eqb_neq c COMMA)).
Qed.

Lemma cut_last_None n s : COMMA ∉ s → cut_last_sub (COMMA :: n) s = None.
Proof.
  induction s as [|c s IH]; intros Hs; [done|]. cbn [cut_last_sub].
  rewrite IH by set_solver. by rewrite has_prefix_comma.
Qed.

(** The last marker is the one that no comma follows. *)
Lemma cut_last_app n x y :
  COMMA ∉ n ++ y → cut_last_sub (COMMA :: n) (x ++ COMMA :: n ++ y) = Some (x, y).
Proof.
  intros Hy. induction x as [|c x IH].
  - cbn [app cut_last_sub]. rewrite cut_last_None by done.
    change (COMMA :: n ++ y) with ((COMMA :: n) ++ y).
    by rewrite has_prefix_app, drop_app_length.
  - cbn [app cut_last_sub]. by rewrite IH.
Qed.

Lemma text_no_comma s : Forall b64_text s → COMMA ∉ s.
Proof. intros Hs Hin. rewrite Forall_forall in Hs. destruct (Hs _ Hin) as (_ & Hc & _). by apply Hc. Qed.

Lemma encode_no_comma bs : Forall byte bs → COMMA ∉ EncodeToString bs.
Proof. intros. by apply text_no_comma, encode_text. Qed.

(** ** Recovery *)

(** A client's messages as RFC 5802 builds them: a gs2 header of two
    comma-terminated parts, and a final message that ends with the proof. *)
Definition client_first (binding authzid bare : bytes) : bytes :=
  binding ++ COMMA :: authzid ++ COMMA :: bare.

Definition client_final (withoutProof key signature : bytes) : bytes :=
  withoutProof ++ lit ",p=" ++ EncodeToString (xor_bytes key signature).

Lemma clientFirstBare_first binding authzid bare :
  COMMA ∉ binding → COMMA ∉ authzid → clientFirstBare (client_first binding authzid bare) = Ok bare.
Proof. intros Hb Ha. unfold clientFirstBare, client_first. by rewrite cut_app, cut_app. Qed.

Lemma splitClientFinal_final wp key sig :
  Forall byte key → Forall byte sig → splitClientFinal (client_final wp key sig) = Ok (wp, xor_bytes key sig).
Proof.
  intros Hk Hs. unfold splitClientFinal, client_final.
  assert (Hx : Forall byte (xor_bytes key sig)) by (by apply xor_bytes_byte).
  change (lit ",p=" ++ EncodeToString (xor_bytes key sig))
    with (COMMA :: [112; 61] ++ EncodeToString (xor_bytes key sig)).
  change (lit ",p=") with (COMMA :: [112; 61]). rewrite cut_last_app.
  - by rewrite decode_encode_string.
  - rewrite not_elem_of_app. split; [|by apply encode_no_comma].
    unfold COMMA. rewrite !not_elem_of_cons. split_and!; done || apply not_elem_of_nil.
Qed.

Lemma recover_final binding authzid bare sf wp key :
  Forall byte key → length key = 32%nat → COMMA ∉ binding → COMMA ∉ authzid →
  let stored := Sum256 key in
  let sig := hmacSHA256 stored (authMessage bare sf wp) in
  recoverClientKey (mkExchange (client_first binding authzid bare) sf (client_final wp key sig)) stored
  = Ok key.
Proof.
  intros Hk Hl Hb Ha stored sig. unfold recoverClientKey. simpl ClientFirst. simpl ClientFinal.
  rewrite clientFirstBare_first by done.
  rewrite splitClientFinal_final by (done || apply hmac_byte). simpl ServerFirst.
  fold sig. assert (Hls : length key = length sig) by (by rewrite Hl; unfold sig; rewrite hmac_length).
  rewrite xor_bytes_length, Hls, Nat.eqb_refl by done. simpl.
  rewrite xor_bytes_cancel by done. by rewrite bool_decide_true.
Qed.

(** From the exchange of a client that holds a key of the verifier, the
    key comes back exactly: whatever the channel-binding flag and authzid in
    its first message, whatever extensions follow in either final part, and
    whatever the server answered. *)
Theorem recover_client_key binding authzid bare sf wp key :
  Forall byte key → length key = 32%nat → COMMA ∉ binding → COMMA ∉ authzid →
  recoverClientKey
    (mkExchange (client_first binding authzid bare) sf
       (client_final wp key (hmacSHA256 (Sum256 key) (authMessage bare sf wp))))
    (Sum256 key) = Ok key.
Proof. apply recover_final. Qed.

Lemma recover_client_key_witness :
  recoverClientKey
    (mkExchange (client_first (lit "y") (lit "a=alice") (lit "n=,r=abc")) (lit "r=abcdef,s=QUJD,i=4096")
       (client_final (lit "c=eSwsYT1hbGljZQ==,r=abcdef,p=x") (replicate 32 7)
          (hmacSHA256 (Sum256 (replicate 32 7))
             (authMessage (lit "n=,r=abc") (lit "r=abcdef,s=QUJD,i=4096")
                (lit "c=eSwsYT1hbGljZQ==,r=abcdef,p=x")))))
    (Sum256 (replicate 32 7)) = Ok (replicate 32 7).
Proof.
  apply (recover_client_key (lit "y") (lit "a=alice") (lit "n=,r=abc") (lit "r=abcdef,s=QUJD,i=4096")
    (lit "c=eSwsYT1hbGljZQ==,r=abcdef,p=x") (replicate 32 7)).
  - apply Forall_replicate. unfold byte. lia.
  - reflexivity.
  - apply (bool_decide_unpack _). vm_compute. exact Logic.I.
  - apply (bool_decide_unpack _). vm_compute. exact Logic.I.
Defined.

(** ** What the store holds *)

Lemma split_sound f wp proof : splitClientFinal f = Ok (wp, proof) → Forall byte proof.
Proof.
  unfold splitClientFinal. destruct (cut_last_sub (lit ",p=") f) as [[x p]|]; [|done].
  destruct (DecodeString p) eqn:E; [|done]. intros [= _ <-]. by eapply DecodeString_byte.
Qed.

(** A key that can open a verifier. *)
Definition key_of (c : StoredCredentials) (key : bytes) : Prop :=
  Sum256 key = StoredKey c ∧ length key = 32%nat ∧ Forall byte key.

Lemma recover_sound ex c key : recoverClientKey ex (StoredKey c) = Ok key → key_of c key.
Proof.
  unfold recoverClientKey. destruct (clientFirstBare (ClientFirst ex)); [|done].
  destruct (splitClientFinal (ClientFinal ex)) as [[wp proof]|] eqn:Es; [|done].
  case_match eqn:El; [done|]. case_bool_decide as Hs; [|done]. intros [= <-].
  apply negb_false_iff, Nat.eqb_eq in El. split; [done|]. split.
  - rewrite xor_bytes_length by done. by rewrite El, hmac_length.
  - apply xor_bytes_byte; [by eapply split_sound | apply hmac_byte].
Qed.

(** Every remembered key opens the verifier remembered with it. *)
Definition store_ok (s : clientKeyStore) : Prop :=
  ∀ user pc, lookup user s = Some pc → key_of (creds pc) (clientKey pc).

Lemma capture_ok user c ex s : store_ok s → store_ok (captureClientKey user c ex s).
Proof.
  unfold captureClientKey. intros Hs. destruct s as [m|]; [|done].
  destruct (recoverClientKey ex (StoredKey c)) as [key|] eqn:Hr; [|done].
  intros u pc. simpl. intros [[<- <-]|[_ Hm]]%lookup_insert_Some; [by apply recover_sound in Hr|].
  by apply (Hs u pc).
Qed.

Lemma run_ok cv user c plus first l s :
  store_ok s → store_ok (runConversation cv user c plus first l s).1.2.
Proof. unfold runConversation. intros Hs. repeat (case_match; simpl; try done). by apply capture_ok. Qed.

Lemma Authenticate_ok cv a user l s : store_ok s → store_ok (Authenticate cv a user l s).1.2.
Proof.
  intros Hs. unfold Authenticate. destruct (findCreds a user) as [c|]; [|done].
  repeat (case_match; simpl; try done).
  match goal with H : runConversation ?cv ?u ?c ?p ?f ?l ?s = _ |- _ =>
    pose proof (run_ok cv u c p f l s Hs) as Hr; rewrite H in Hr end. done.
Qed.

(** A process's logins, in order. *)
Definition logins (cv : conversation) (ls : list (SCRAMAuth * string * login)) (s : clientKeyStore) :
  clientKeyStore :=
  foldl (fun s '(a, user, l) => (Authenticate cv a user l s).1.2) s ls.

(** C20: Whatever clients log in, with whatever messages and whatever the
    conversation library answers, every key in the store is a 32-byte preimage
    of the stored key it is filed with: no failed or garbled exchange leaves a
    usable credential. *)
Theorem captured_keys_open_their_verifier cv ls user pc :
  lookup user (logins cv ls (Some ∅)) = Some pc → key_of (creds pc) (clientKey pc).
Proof.
  revert user pc. change (store_ok (logins cv ls (Some ∅))).
  assert (Hs : store_ok (Some ∅)) by (intros u pc Hl; simpl in Hl; by simplify_map_eq).
  revert Hs. generalize (Some ∅ : clientKeyStore). unfold logins.
  induction ls as [|[[a u] l] ls IH]; intros s Hs; simpl; [done|]. by apply IH, Authenticate_ok.
Qed.

(** ** Numbers *)

Lemma digits_app s t :
  digits_value (s ++ t) =
  foldl (fun acc c => match acc, digit c with Some n, Some d => Some (10 * n + d) | _, _ => None end)
    (digits_value s) t.
Proof. unfold digits_value. by rewrite foldl_app. Qed.

Lemma digit_of n : 0 ≤ n < 10 → digit (48 + n) = Some n.
Proof.
  intros Hn. unfold digit. rewrite (proj2 (Z.leb_le _ _)), (proj2 (Z.leb_le _ _)) by lia.
  simpl. f_equal. lia.
Qed.

Lemma decimal_value fuel n : 0 ≤ n < 10 ^ Z.of_nat fuel → digits_value (decimal fuel n) = Some n.
Proof.
  revert n. induction fuel as [|fuel IH]; intros n Hn; [simpl in Hn; cbn; replace n with 0 by lia; done|].
  rewrite Nat2Z.inj_succ, Z.pow_succ_r in Hn by lia. cbn [decimal].
  destruct (n <? 10) eqn:E; to_prop.
  - unfold digits_value. cbn [foldl]. by rewrite digit_of by lia.
  - rewrite digits_app, IH by (split; [apply Z.div_pos; lia | apply Z.div_lt_upper_bound; lia]).
    pose proof (Z.mod_pos_bound n 10 ltac:(lia)). cbn [foldl]. rewrite digit_of by lia.
    f_equal. pose proof (Z.div_mod n 10 ltac:(lia)). lia.
Qed.

Lemma decimal_head fuel n :
  0 ≤ n → ∃ c s, decimal (S fuel) n = c :: s ∧ 48 ≤ c ≤ 57 ∧ Forall (fun c => 48 ≤ c ≤ 57) (c :: s).
Proof.
  revert n. induction fuel as [|fuel IH]; intros n Hn.
  - cbn [decimal]. destruct (n <? 10) eqn:E; to_prop.
    + eexists _, _. split; [done|]. split; [lia|]. repeat constructor; lia.
    + eexists _, _. split; [done|]. pose proof (Z.mod_pos_bound n 10 ltac:(lia)).
      split; [lia|]. repeat constructor; lia.
  - cbn [decimal]. destruct (n <? 10) eqn:E; to_prop.
    + eexists _, _. split; [done|]. split; [lia|]. repeat constructor; lia.
    + destruct (IH (n / 10)) as (c & s & Hd & Hc & Hf); [apply Z.div_pos; lia|].
      cbn [decimal] in Hd. rewrite Hd. eexists _, _. split; [done|]. split; [done|].
      pose proof (Z.mod_pos_bound n 10 ltac:(lia)).
      apply (Forall_app_2 _ (c :: s)); [done|]. repeat constructor; lia.
Qed.

Lemma Itoa_digits n : 0 ≤ n → Forall (fun c => 48 ≤ c ≤ 57) (Itoa n).
Proof. intros Hn. unfold Itoa. by destruct (decimal_head 19 n Hn) as (c & s & -> & _ & ?). Qed.

Lemma Atoi_Itoa n : 0 ≤ n < two63 → Atoi (Itoa n) = Some n.
Proof.
  intros Hn. assert (Hv : digits_value (Itoa n) = Some n).
  { apply decimal_value. unfold two63 in Hn. change (10 ^ Z.of_nat 20) with 100000000000000000000. lia. }
  unfold Itoa in *. destruct (decimal_head 19 n ltac:(lia)) as (c & s & Hd & Hc & _).
  rewrite Hd in *. unfold Atoi.
  assert (Hs : (match c :: s with 43 :: ds => (false, ds) | 45 :: ds => (true, ds) | _ => (false, c :: s) end)
    = (false, c :: s)).
  { destruct c as [|p|p]; [lia| |lia]. do 6 (destruct p as [p|p|]; try done; try lia). }
  rewrite Hs. cbn [is_nil]. rewrite Hv.
  rewrite (proj2 (Z.leb_le _ _)), (proj2 (Z.ltb_lt _ _)) by (unfold two63 in *; lia). done.
Qed.

(** ** The backend's side *)

Lemma split_on_cons sep w rest :
  sep ∉ w → HBA.split_on sep (w ++ sep :: rest) = w :: HBA.split_on sep rest.
Proof.
  induction w as [|c w IH]; intros Hw; simpl; [by rewrite Z.eqb_refl|].
  apply not_elem_of_cons in Hw as [Hc Hw]. rewrite (proj2 (Z.eqb_neq c sep)) by done.
  by rewrite IH.
Qed.

Lemma split_on_last sep w : sep ∉ w → HBA.split_on sep w = [w].
Proof.
  induction w as [|c w IH]; intros Hw; simpl; [done|].
  apply not_elem_of_cons in Hw as [Hc Hw]. rewrite (proj2 (Z.eqb_neq c sep)) by done.
  by rewrite IH.
Qed.

Lemma no_comma_field a b s : a ≠ COMMA → b ≠ COMMA → COMMA ∉ s → COMMA ∉ a :: b :: s.
Proof. rewrite !not_elem_of_cons. done. Qed.

(** A backend that holds a verifier opens with its nonce, salt and iterations. *)
Definition server_first (nonce : bytes) (c : StoredCredentials) : bytes :=
  lit "r=" ++ nonce ++ lit ",s=" ++ EncodeToString (Salt c) ++ lit ",i=" ++ Itoa (Iters c).

(** A verifier that can be used. *)
Definition usable (c : StoredCredentials) : Prop :=
  Salt c ≠ [] ∧ Forall byte (Salt c) ∧ 0 < Iters c < two63.

Lemma Itoa_no b n : 0 ≤ n → (b < 48 ∨ 57 < b) → b ∉ Itoa n.
Proof. intros Hn Hb Hin. pose proof (Itoa_digits n Hn) as Hf. rewrite Forall_forall in Hf. apply Hf in Hin. lia. Qed.

Lemma parseServerFirst_server nonce c :
  nonce ≠ [] → COMMA ∉ nonce → usable c →
  parseServerFirst (server_first nonce c) = Ok (mkFields nonce (Salt c) (Iters c)).
Proof.
  intros Hne Hn (Hs & Hb & Hi). unfold parseServerFirst, server_first.
  change (lit "r=" ++ nonce ++ lit ",s=" ++ EncodeToString (Salt c) ++ lit ",i=" ++ Itoa (Iters c))
    with ((114 :: 61 :: nonce) ++ COMMA :: (115 :: 61 :: EncodeToString (Salt c))
          ++ COMMA :: 105 :: 61 :: Itoa (Iters c)).
  rewrite split_on_cons by (by apply no_comma_field).
  rewrite split_on_cons by (apply no_comma_field; [done | done | by apply encode_no_comma]).
  rewrite split_on_last
    by (apply no_comma_field; [done | done | apply Itoa_no; unfold COMMA; lia]).
  cbn [parseFields Z.eqb Pos.eqb]. rewrite decode_encode_string, Atoi_Itoa by (done || lia).
  cbn [f_nonce f_salt f_iters].
  assert (is_nil nonce = false) as -> by (by destruct nonce).
  assert (is_nil (Salt c) = false) as -> by (by destruct (Salt c)).
  by rewrite (proj2 (Z.leb_gt _ _)) by lia.
Qed.

Lemma first_shape nonce : gs2Header ++ bareOf nonce = client_first (lit "n") [] (bareOf nonce).
Proof. done. Qed.

(** The message the client answers with, as a client's final message. *)
Lemma clientFinal_server pc nonce snonce :
  key_of (creds pc) (clientKey pc) → usable (creds pc) → nonce ≠ [] → COMMA ∉ nonce → COMMA ∉ snonce →
  let sf := server_first (nonce ++ snonce) (creds pc) in
  let wp := withoutProofOf (nonce ++ snonce) in
  let auth := authMessage (bareOf nonce) sf wp in
  clientFinalMessage pc nonce sf =
  Ok (client_final wp (clientKey pc) (hmacSHA256 (Sum256 (clientKey pc)) auth), auth).
Proof.
  intros (Hk & Hl & Hb) Hu Hne Hn Hsn. unfold clientFinalMessage.
  rewrite parseServerFirst_server; [|by destruct nonce | by rewrite not_elem_of_app | done].
  cbn [f_nonce f_salt f_iters]. rewrite has_prefix_app, bool_decide_true, Z.eqb_refl by done. done.
Qed.

Lemma verify_signature key auth : verifyServerSignature (lit "v=" ++ EncodeToString (hmacSHA256 key auth)) key auth = Ok tt.
Proof.
  unfold verifyServerSignature. rewrite has_prefix_app.
  change (has_prefix (lit "v=" ++ EncodeToString (hmacSHA256 key auth)) (lit "e=")) with false.
  change (drop 2 (lit "v=" ++ EncodeToString (hmacSHA256 key auth))) with (EncodeToString (hmacSHA256 key auth)).
  cbn [negb]. rewrite decode_encode_string by apply hmac_byte. by rewrite bool_decide_true.
Qed.

(** C21: Pass-through works with a key the store holds: against a backend with
    the same verifier, the client half sends a final message from which the
    backend, by the check every SCRAM server makes, recovers the key of its own
    stored key; and when the backend answers with its signature over the two first
    messages and the final one without its proof, the exchange succeeds. *)
Theorem passthrough_accepted pc mechanisms rand snonce :
  key_of (creds pc) (clientKey pc) → usable (creds pc) → lit "SCRAM-SHA-256" ∈ mechanisms →
  rand ≠ [] → Forall byte rand → COMMA ∉ snonce →
  let nonce := EncodeToString rand in
  let sf := server_first (nonce ++ snonce) (creds pc) in
  let auth := authMessage (bareOf nonce) sf (withoutProofOf (nonce ++ snonce)) in
  ∃ final,
    recoverClientKey (mkExchange (gs2Header ++ bareOf nonce) sf final) (StoredKey (creds pc))
      = Ok (clientKey pc) ∧
    scramClientAuth pc mechanisms (Some rand) true (SASLContinue sf) true
      (SASLFinal (lit "v=" ++ EncodeToString (hmacSHA256 (ServerKey (creds pc)) auth)))
      = ([gs2Header ++ bareOf nonce; final], Ok tt).
Proof.
  intros Hk Hu Hm Hr Hrb Hsn nonce sf auth. pose proof Hk as (Hst & Hl & Hb).
  assert (Hn : COMMA ∉ nonce) by (by apply encode_no_comma).
  assert (Hne : nonce ≠ []) by (unfold nonce; by destruct rand as [|? [|? [|? ?]]]).
  pose proof (clientFinal_server pc nonce snonce Hk Hu Hne Hn Hsn) as Hf. cbn zeta in Hf.
  eexists. split.
  - rewrite first_shape, <-Hst. apply recover_final; [done | done | | set_solver].
    apply (bool_decide_unpack _). vm_compute. exact Logic.I.
  - unfold scramClientAuth. rewrite bool_decide_true by done. cbn [negb scramNonce].
    fold nonce. unfold sf. rewrite Hf. unfold auth, sf. rewrite verify_signature. done.
Qed.

(** The backend proves itself: the client half succeeds only if the server
    extended its nonce, uses the verifier's salt and iterations, and signed the
    whole exchange with the verifier's server key. *)
Theorem passthrough_mutual pc mechanisms rand flush1 in1 flush2 in2 sent :
  scramClientAuth pc mechanisms rand flush1 in1 flush2 in2 = (sent, Ok tt) →
  ∃ buf sf f data, rand = Some buf ∧ in1 = SASLContinue sf ∧ in2 = SASLFinal data ∧
    parseServerFirst sf = Ok f ∧ has_prefix (f_nonce f) (EncodeToString buf) = true ∧
    f_salt f = Salt (creds pc) ∧ f_iters f = Iters (creds pc) ∧ has_prefix data (lit "v=") = true ∧
    DecodeString (drop 2 data) = Some (hmacSHA256 (ServerKey (creds pc))
      (authMessage (bareOf (EncodeToString buf)) sf (withoutProofOf (f_nonce f)))).
Proof.
  unfold scramClientAuth. case_match; [done|]. destruct rand as [buf|]; [|done]. cbn [scramNonce].
  destruct (negb flush1); [done|]. destruct in1 as [|sf| |]; try done.
  unfold clientFinalMessage. destruct (parseServerFirst sf) as [f|] eqn:Ef; [|done].
  destruct (has_prefix (f_nonce f) (EncodeToString buf)) eqn:Ep; [|done]. cbn [negb].
  destruct (negb (bool_decide (f_salt f = Salt (creds pc))) || negb (f_iters f =? Iters (creds pc))) eqn:Ev;
    [done|].
  destruct (negb flush2); [done|]. destruct in2 as [| |data|]; try done. intros [= _ Hv].
  apply orb_false_iff in Ev as [Es Ei]. to_prop. exists buf, sf, f, data.
  unfold verifyServerSignature in Hv. destruct (has_prefix data (lit "e=")); [done|].
  destruct (has_prefix data (lit "v=")) eqn:Ed; [|done]. cbn [negb] in Hv.
  destruct (DecodeString (drop 2 data)) as [got|] eqn:Eg; [|done].
  case_bool_decide as Hgot; [|done]. subst got. done.
Qed.

(** ** Verifiers *)

Lemma encode_no b bs : (b < 43 ∨ b = 58) → Forall byte bs → b ∉ EncodeToString bs.
Proof.
  intros Hb Hbs Hin. pose proof (encode_text bs Hbs) as Hf. rewrite Forall_forall in Hf.
  apply Hf in Hin as (? & _ & ?). lia.
Qed.

Lemma key_size (k : bytes) : length k = 32%nat → negb (length k =? 32)%nat = false.
Proof. intros ->. done. Qed.

(** Verifiers round-trip: the string [GenerateSCRAMVerifier] formats,
    which is the one Postgres stores, parses back to the same salt, iteration
    count, stored key and server key. *)
Theorem verifier_roundtrip c :
  usable c → Forall byte (StoredKey c) → length (StoredKey c) = 32%nat →
  Forall byte (ServerKey c) → length (ServerKey c) = 32%nat →
  ParseSCRAMVerifier (formatVerifier c) = Ok c.
Proof.
  intros (Hs & Hsb & Hi) Hkb Hkl Hvb Hvl. unfold ParseSCRAMVerifier, formatVerifier.
  rewrite has_prefix_app, drop_app_length. cbn [negb].
  rewrite (app_comm_cons (EncodeToString (Salt c))), app_assoc, cut_app.
  2: { rewrite !not_elem_of_app, not_elem_of_cons.
       split; [apply Itoa_no; lia|]. split; [done|]. apply encode_no; [lia | done]. }
  rewrite cut_app by (apply Itoa_no; lia). rewrite cut_app by (apply encode_no; [lia | done]).
  rewrite Atoi_Itoa, !decode_encode_string by (done || lia).
  rewrite (proj2 (Z.leb_gt _ _)) by lia. assert (is_nil (Salt c) = false) as -> by (by destruct (Salt c)).
  rewrite !key_size by done. by destruct c.
Qed.

Lemma Atoi_range s n : Atoi s = Some n → n < two63.
Proof.
  unfold Atoi. destruct (match s with 43 :: ds => _ | 45 :: ds => _ | _ => _ end) as [neg ds].
  destruct (is_nil ds); [done|]. destruct (digits_value ds) as [m|]; [|done].
  case_match eqn:E; [|done]. intros [= <-]. by to_prop.
Qed.

(** What parses is usable: a positive iteration count, a salt, and keys of the
    digest's size. *)
Theorem verifier_sound s c :
  ParseSCRAMVerifier s = Ok c →
  usable c ∧ length (StoredKey c) = 32%nat ∧ length (ServerKey c) = 32%nat.
Proof.
  unfold ParseSCRAMVerifier. destruct (has_prefix s verifierPrefix); [|done]. cbn [negb].
  destruct (cut 36 _) as [[iterSalt keys]|]; [|done]. destruct (cut 58 iterSalt) as [[it sa]|]; [|done].
  destruct (cut 58 keys) as [[st se]|]; [|done]. destruct (Atoi it) as [iters|] eqn:Ei; [|done].
  destruct (DecodeString sa) as [salt|] eqn:Es; [|done]. destruct (DecodeString st) as [sk|]; [|done].
  destruct (DecodeString se) as [vk|]; [|done].
  destruct (iters <=? 0) eqn:Ep; [done|]. destruct (is_nil salt) eqn:En; [done|].
  destruct (length sk =? 32)%nat eqn:Ek; [|done]. destruct (length vk =? 32)%nat eqn:Ev; [|done].
  intros [= <-]. to_prop. apply Atoi_range in Ei. apply DecodeString_byte in Es.
  repeat split; simpl; try done; try lia. by intros ->.
Qed.

(** ** Witnesses *)

Definition demo_creds : StoredCredentials :=
  mkCreds [1; 2; 3; 4] 4096 (Sum256 (replicate 32 7)) (replicate 32 9).

Definition demo_pass : passthroughCreds := mkPass (replicate 32 7) demo_creds.

Lemma demo_usable : usable demo_creds.
Proof. split; [done|]. split; [repeat constructor; unfold byte; lia | simpl; unfold two63; lia]. Qed.

Lemma demo_key : key_of demo_creds (replicate 32 7).
Proof. split; [done|]. split; [done|]. apply Forall_replicate. unfold byte; lia. Qed.

Lemma verifier_roundtrip_witness : ParseSCRAMVerifier (formatVerifier demo_creds) = Ok demo_creds.
Proof.
  apply (verifier_roundtrip demo_creds); [apply demo_usable | apply Sum256_byte | reflexivity | | reflexivity].
  apply Forall_replicate. unfold byte; lia.
Defined.

Lemma passthrough_accepted_witness :
  let nonce := EncodeToString (replicate 18 33) in
  let sf := server_first (nonce ++ lit "xyz") demo_creds in
  let auth := authMessage (bareOf nonce) sf (withoutProofOf (nonce ++ lit "xyz")) in
  ∃ final,
    recoverClientKey (mkExchange (gs2Header ++ bareOf nonce) sf final) (StoredKey demo_creds)
      = Ok (replicate 32 7) ∧
    scramClientAuth demo_pass [lit "SCRAM-SHA-256"] (Some (replicate 18 33)) true (SASLContinue sf) true
      (SASLFinal (lit "v=" ++ EncodeToString (hmacSHA256 (replicate 32 9) auth)))
      = ([gs2Header ++ bareOf nonce; final], Ok tt).
Proof.
  apply (passthrough_accepted demo_pass [lit "SCRAM-SHA-256"] (replicate 18 33) (lit "xyz")).
  - apply demo_key.
  - apply demo_usable.
  - by left.
  - done.
  - apply Forall_replicate. unfold byte; lia.
  - apply (bool_decide_unpack _). vm_compute. exact Logic.I.
Defined.

(** A login that succeeds, with a library that accepts it. *)
Definition demo_conv : conversation :=
  mkConv (fun _ _ _ => Some (lit "r=abcdef,s=AQIDBA==,i=4096")) (fun _ _ _ _ => Some (lit "v=", true)).

Definition demo_login : login :=
  let first := client_first (lit "n") [] (lit "n=,r=abc") in
  let wp := lit "c=biws,r=abcdef" in
  mkLogin false true true (SASLInitialResponse PLAIN first) true true
    (SASLResponse (client_final wp (replicate 32 7)
      (hmacSHA256 (StoredKey demo_creds)
        (authMessage (lit "n=,r=abc") (lit "r=abcdef,s=AQIDBA==,i=4096") wp)))) true.

Lemma captured_keys_open_their_verifier_witness : key_of demo_creds (replicate 32 7).
Proof.
  apply (captured_keys_open_their_verifier demo_conv
    [(mkAuth {[ "alice"%string := demo_creds ]} None false, "alice"%string, demo_login)] "alice"%string demo_pass).
  vm_compute. reflexivity.
Defined.

End ScramTheorems.
