(* ===== verification/ChannelBinding.v ===== *)
(** * Binding SCRAM to the TLS channel

    src/auth.go's tlsServerEndpointBinding, with crypto/sha512: the data that
    SCRAM-SHA-256-PLUS exchanges are bound to is a hash of the proxy's own
    certificate, by the rule of RFC 5929.  GenerateSCRAMVerifier is here too: it
    draws a salt and prints what the SCRAM library derives from it. *)

From Stdlib Require Import Ascii.
From S2P Require Import Prelude GoStrings HBA GoCrypto Scram ScramTheorems.
Import GoCrypto.
Open Scope string_scope.
Open Scope list_scope.
Open Scope Z_scope.

Module ChannelBinding.

(** ** crypto/sha512 *)

Definition w64 (z : Z) : Z := z `mod` two64.
Definition rotr64 (x n : Z) : Z := Z.lor (Z.shiftr x n) (w64 (Z.shiftl x (64 - n))).

Definition primes80 : list Z :=
  Eval vm_compute in
  filter (fun n => forallb (fun d => negb (n `mod` d =? 0)) (seqZ 2 (n - 2)) = true) (seqZ 2 408).

(** The leading fractional bits of the cube roots, and of the square roots of
    the first eight primes for SHA-512 and the next eight for SHA-384. *)
Definition round_keys64 : list Z :=
  Eval vm_compute in map (fun p => w64 (cube_root 68 (p * 2 ^ 192) 0)) primes80.

Definition roots64 : list Z := Eval vm_compute in map (fun p => w64 (Z.sqrt (p * 2 ^ 128))) (take 16 primes80).

Definition chain_of (l : list Z) : chain :=
  match l with
  | [a; b; c; d; e; f; g; h] => mkChain a b c d e f g h
  | _ => mkChain 0 0 0 0 0 0 0 0
  end.

Fixpoint words64 (bs : bytes) : list Z :=
  match bs with
  | a :: b :: c :: d :: e :: f :: g :: h :: bs =>
      (((((((a * 256 + b) * 256 + c) * 256 + d) * 256 + e) * 256 + f) * 256 + g) * 256 + h) :: words64 bs
  | _ => []
  end.

Definition expand64 (ws : list Z) : list Z :=
  let at_ n := default 0 (ws !! n) in
  let s0 := let x := at_ 14%nat in Z.lxor (Z.lxor (rotr64 x 1) (rotr64 x 8)) (Z.shiftr x 7) in
  let s1 := let x := at_ 1%nat in Z.lxor (Z.lxor (rotr64 x 19) (rotr64 x 61)) (Z.shiftr x 6) in
  w64 (at_ 15%nat + s0 + at_ 6%nat + s1) :: ws.

Definition schedule64 (block : bytes) : list Z := rev (Nat.iter 64 expand64 (rev (words64 block))).

Definition round64 (c : chain) (kw : Z * Z) : chain :=
  let '(k, w) := kw in
  let s1 := Z.lxor (Z.lxor (rotr64 (he c) 14) (rotr64 (he c) 18)) (rotr64 (he c) 41) in
  let ch := Z.lxor (Z.land (he c) (hf c)) (Z.land (two64 - 1 - he c) (hg c)) in
  let t1 := hh c + s1 + ch + k + w in
  let s0 := Z.lxor (Z.lxor (rotr64 (ha c) 28) (rotr64 (ha c) 34)) (rotr64 (ha c) 39) in
  let maj := Z.lxor (Z.lxor (Z.land (ha c) (hb c)) (Z.land (ha c) (hc c))) (Z.land (hb c) (hc c)) in
  mkChain (w64 (t1 + s0 + maj)) (ha c) (hb c) (hc c) (w64 (hd c + t1)) (he c) (hf c) (hg c).

Definition compress64 (c : chain) (block : bytes) : chain :=
  let d := foldl round64 c (zip round_keys64 (schedule64 block)) in
  mkChain (w64 (ha c + ha d)) (w64 (hb c + hb d)) (w64 (hc c + hc d)) (w64 (hd c + hd d))
    (w64 (he c + he d)) (w64 (hf c + hf d)) (w64 (hg c + hg d)) (w64 (hh c + hh d)).

Definition pad128 (msg : bytes) : bytes :=
  let zeros := (111 - Z.of_nat (length msg)) `mod` 128 in
  msg ++ 128 :: replicate (Z.to_nat zeros) 0 ++ big_endian 16 (8 * Z.of_nat (length msg)).

Fixpoint blocks128 (fuel : nat) (bs : bytes) : list bytes :=
  match fuel, bs with
  | S fuel, _ :: _ => take 128 bs :: blocks128 fuel (drop 128 bs)
  | _, _ => []
  end.

(** The eight words after the last block; the length of the padded message is
    fuel enough. *)
Definition sum64 (init : list Z) (msg : bytes) : bytes :=
  let p := pad128 msg in
  let c := foldl compress64 (chain_of init) (blocks128 (length p) p) in
  [ha c; hb c; hc c; hd c; he c; hf c; hg c; hh c] ≫= big_endian 8.

Definition Sum512 (msg : bytes) : bytes := sum64 (take 8 roots64) msg.
Definition Sum384 (msg : bytes) : bytes := take 48 (sum64 (drop 8 roots64) msg).

(** ** Certificates *)

(** x509.SignatureAlgorithm *)
Inductive SignatureAlgorithm :=
| UnknownSignatureAlgorithm | MD2WithRSA | MD5WithRSA | SHA1WithRSA | SHA256WithRSA | SHA384WithRSA | SHA512WithRSA
| DSAWithSHA1 | DSAWithSHA256 | ECDSAWithSHA1 | ECDSAWithSHA256 | ECDSAWithSHA384 | ECDSAWithSHA512
| SHA256WithRSAPSS | SHA384WithRSAPSS | SHA512WithRSAPSS | PureEd25519.

Record x509Certificate := mkX509 { Raw : bytes; signatureAlgorithm : SignatureAlgorithm }.

(** tls.Certificate: the chain as received, and the leaf if it has been parsed. *)
Record Certificate := mkCertificate { chain_der : list bytes; Leaf : option x509Certificate }.

Inductive binding := TLSServerEndpoint (data : bytes).

Inductive bindingErr := ParseLeaf | IndexOutOfRange.

Definition newHash (alg : SignatureAlgorithm) : bytes → bytes :=
  match alg with
  | SHA384WithRSA | SHA384WithRSAPSS | ECDSAWithSHA384 => Sum384
  | SHA512WithRSA | SHA512WithRSAPSS | ECDSAWithSHA512 => Sum512
  | _ => Sum256
  end.

Section binding.
Context (ParseCertificate : bytes → option x509Certificate).

(** An empty chain without a leaf is an index out of range, a panic. *)
Definition tlsServerEndpointBinding (cert : Certificate) : result bindingErr binding :=
  let? leaf := match Leaf cert with
               | Some leaf => Ok leaf
               | None => match chain_der cert with
                         | [] => Err IndexOutOfRange
                         | der :: _ => match ParseCertificate der with Some leaf => Ok leaf | None => Err ParseLeaf end
                         end
               end in
  Ok (TLSServerEndpoint (newHash (signatureAlgorithm leaf) (Raw leaf))).

End binding.

(** ** The rule of RFC 5929 *)

Inductive hash := MD5 | SHA1 | SHA256 | SHA384 | SHA512.

(** The hash a signature algorithm uses, if it uses exactly one. *)
Definition signature_hash (alg : SignatureAlgorithm) : option hash :=
  match alg with
  | MD5WithRSA => Some MD5
  | SHA1WithRSA | DSAWithSHA1 | ECDSAWithSHA1 => Some SHA1
  | SHA256WithRSA | DSAWithSHA256 | ECDSAWithSHA256 | SHA256WithRSAPSS => Some SHA256
  | SHA384WithRSA | ECDSAWithSHA384 | SHA384WithRSAPSS => Some SHA384
  | SHA512WithRSA | ECDSAWithSHA512 | SHA512WithRSAPSS => Some SHA512
  | UnknownSignatureAlgorithm | MD2WithRSA | PureEd25519 => None
  end.

(** What a client computes from the certificate [der] it was shown; MD5 and
    SHA-1 are replaced by SHA-256. *)
Definition rfc5929 (alg : SignatureAlgorithm) (der : bytes) : option bytes :=
  match signature_hash alg with
  | None => None
  | Some (MD5 | SHA1 | SHA256) => Some (Sum256 der)
  | Some SHA384 => Some (Sum384 der)
  | Some SHA512 => Some (Sum512 der)
  end.

Lemma sha512_abc :
  Sum512 [97; 98; 99] = big_endian 64 0xddaf35a193617abacc417349ae20413112e6fa4e89a97ea20a9eeee64b55d39a2192992a274fc1a836ba3c23a3feebbd454d4423643ce80e2a9ac94fa54ca49f.
Proof. vm_compute. reflexivity. Qed.

Lemma sha384_abc :
  Sum384 [97; 98; 99] = big_endian 48 0xcb00753f45a35e8bb5a03d699ac65007272c32ab0eded1631a8b605a43ff5bed8086072ba1e7cc2358baeca134c825a7.
Proof. vm_compute. reflexivity. Qed.

(** Both ends agree on the channel: for a certificate whose parsed form keeps
    its encoding, the data the proxy binds to is what a client computes from the
    leaf it was shown, wherever RFC 5929 defines it; an unparsed leaf makes no
    difference. *)
Theorem binding_agrees parse cert der rest leaf data :
  chain_der cert = der :: rest → parse der = Some leaf → Raw leaf = der →
  Leaf cert = None ∨ Leaf cert = Some leaf →
  rfc5929 (signatureAlgorithm leaf) der = Some data →
  tlsServerEndpointBinding parse cert = Ok (TLSServerEndpoint data).
Proof.
  intros Hc Hp Hr Hl Hd. unfold tlsServerEndpointBinding. rewrite Hc, Hp.
  assert (E : newHash (signatureAlgorithm leaf) (Raw leaf) = data).
  { rewrite Hr. unfold rfc5929, signature_hash in Hd. by destruct (signatureAlgorithm leaf); simplify_eq. }
  destruct Hl as [-> | ->]; by rewrite E.
Qed.

(** ** [GenerateSCRAMVerifier] *)

Inductive generateErr := NormalizePassword | GenerateSalt | DeriveCredentials.

(** The library's client for the password, and the keys it derives. *)
Definition GenerateSCRAMVerifier (NewClient : bytes → option (bytes → Z → option (bytes * bytes)))
    (password : bytes) (salt : option bytes) (iterations : Z) : result generateErr bytes :=
  match NewClient password with
  | None => Err NormalizePassword
  | Some client =>
      match salt with
      | None => Err GenerateSalt
      | Some salt =>
          match client salt iterations with
          | None => Err DeriveCredentials
          | Some (storedKey, serverKey) => Ok (Scram.formatVerifier (Scram.mkCreds salt iterations storedKey serverKey))
          end
      end
  end.

(** A generated verifier is one the proxy accepts, with the keys the library
    derived, provided these have the size of a SHA-256 digest. *)
Theorem generated_verifier_parses NewClient password salt iterations v :
  salt ≠ [] → Forall byte salt → 0 < iterations < two63 →
  (∀ client storedKey serverKey, NewClient password = Some client → client salt iterations = Some (storedKey, serverKey) →
     Forall byte storedKey ∧ length storedKey = 32%nat ∧ Forall byte serverKey ∧ length serverKey = 32%nat) →
  GenerateSCRAMVerifier NewClient password (Some salt) iterations = Ok v →
  ∃ client storedKey serverKey, NewClient password = Some client ∧ client salt iterations = Some (storedKey, serverKey) ∧
    Scram.ParseSCRAMVerifier v = Ok (Scram.mkCreds salt iterations storedKey serverKey).
Proof.
  intros Hs Hb Hi Hk. unfold GenerateSCRAMVerifier. destruct (NewClient password) as [client|] eqn:E; [|done].
  destruct (client salt iterations) as [[storedKey serverKey]|] eqn:Ek; [|done]. intros [= <-].
  destruct (Hk _ _ _ eq_refl Ek) as (H1 & H2 & H3 & H4). exists client, storedKey, serverKey.
  split_and!; [done|done|]. by apply ScramTheorems.verifier_roundtrip.
Qed.

End ChannelBinding.
