(* ===== verification/AuthQuery.v ===== *)
(** * auth_query: verifiers fetched from the backend

    src/auth_query.go: the provider that looks a user's SCRAM verifier up in a
    live Postgres and caches it for a while.  [Lookup] holds its mutex only
    around the two cache accesses, so lookups of different logins, and
    [Invalidate], interleave; the database is a parameter that changes over
    time. *)

From S2P Require Import Prelude GoCrypto HBA Scram.
Open Scope string_scope.
Open Scope list_scope.
Open Scope Z_scope.

Module AuthQuery.

Abbreviation creds := Scram.StoredCredentials.
Abbreviation bytes := (list Z).

(** ** The provider *)

Record cacheEntry := mkEntry { ce_creds : creds; expiresAt : Z }.

Record AuthQueryProvider := mkProvider {
  dsn : string;
  query : string;
  ttl : Z;
  cache : gmap string cacheEntry;
}.

Definition defaultQuery : string := "SELECT usename, passwd FROM pg_shadow WHERE usename = $1".

Definition NewAuthQueryProvider (d q : string) (t : Z) : AuthQueryProvider :=
  mkProvider d (if bool_decide (q = "") then defaultQuery else q)
    (if t =? 0 then 60 * Second else t) ∅.

Definition with_cache c p := mkProvider (dsn p) (query p) (ttl p) c.

(** What connecting and running the query gave. *)
Inductive dbAnswer := ConnectErr | NoRows | QueryErr | Row (username passwd : bytes).

Inductive aqErr := AqNotConfigured | AqConnect | AqNoSuchUser | AqQuery | AqNoPassword | AqFormat (e : Scram.verifierErr).

Definition parseAnswer (a : dbAnswer) : result aqErr creds :=
  match a with
  | ConnectErr => Err AqConnect
  | NoRows => Err AqNoSuchUser
  | QueryErr => Err AqQuery
  | Row _ passwd =>
      if bool_decide (passwd = []) then Err AqNoPassword
      else match Scram.ParseSCRAMVerifier passwd with Ok c => Ok c | Err e => Err (AqFormat e) end
  end.

(** The first critical section. *)
Definition cacheHit (now : Z) (user : string) (p : AuthQueryProvider) : option creds :=
  match cache p !! user with
  | Some e => if now <? expiresAt e then Some (ce_creds e) else None
  | None => None
  end.

(** The second one. *)
Definition cacheStore (now : Z) (user : string) (c : creds) (p : AuthQueryProvider) : AuthQueryProvider :=
  with_cache (<[user := mkEntry c (now + ttl p)]> (cache p)) p.

Definition Invalidate (user : string) (p : AuthQueryProvider) : AuthQueryProvider :=
  with_cache (delete user (cache p)) p.

(** A lookup with nothing in between: it starts at [t0], asks at most once,
    and stores at [t1].  A nil provider refuses. *)
Definition Lookup (t0 t1 : Z) (a : dbAnswer) (user : string) (p : option AuthQueryProvider) :
  result aqErr creds * option AuthQueryProvider :=
  match p with
  | None => (Err AqNotConfigured, None)
  | Some p =>
      match cacheHit t0 user p with
      | Some c => (Ok c, Some p)
      | None =>
          match parseAnswer a with
          | Ok c => (Ok c, Some (cacheStore t1 user c p))
          | Err e => (Err e, Some p)
          end
      end
  end.

(** ** Lookups among each other *)

Inductive lookup_pc :=
| QStart (user : string)
| QMiss (user : string)
| QGot (user : string) (c : creds) (fetched : Z)
| QRet (user : string) (r : result aqErr creds) (returned : Z).

Record state := mkState { now : Z; provider : AuthQueryProvider; pcs : list lookup_pc }.

Section interleaving.
(** What the database would answer for a user at a time. *)
Context (db : Z → string → dbAnswer).

(** A query may also fail on the way, whatever the database holds. *)
Definition answers (t : Z) (user : string) (a : dbAnswer) : Prop :=
  a = db t user ∨ a = ConnectErr ∨ a = QueryErr.

Inductive qstep (t : Z) (p : AuthQueryProvider) : lookup_pc → AuthQueryProvider → lookup_pc → Prop :=
| q_hit u c : cacheHit t u p = Some c → qstep t p (QStart u) p (QRet u (Ok c) t)
| q_miss u : cacheHit t u p = None → qstep t p (QStart u) p (QMiss u)
| q_fetch u a c : answers t u a → parseAnswer a = Ok c → qstep t p (QMiss u) p (QGot u c t)
| q_fail u a e : answers t u a → parseAnswer a = Err e → qstep t p (QMiss u) p (QRet u (Err e) t)
| q_store u c f : qstep t p (QGot u c f) (cacheStore t u c p) (QRet u (Ok c) t).

Inductive astep : state → state → Prop :=
| a_lookup t p qs1 q qs2 p' q' : qstep t p q p' q' →
    astep (mkState t p (qs1 ++ q :: qs2)) (mkState t p' (qs1 ++ q' :: qs2))
| a_login t p qs u : astep (mkState t p qs) (mkState t p (QStart u :: qs))
| a_invalidate t p qs u : astep (mkState t p qs) (mkState t (Invalidate u p) qs)
| a_time t t' p qs : t ≤ t' → astep (mkState t p qs) (mkState t' p qs).

Definition reachable (p : AuthQueryProvider) (s : state) : Prop :=
  ∃ t, rtc astep (mkState t (with_cache ∅ p) []) s.

(** ** What a login is given *)

(** [c] was the database's verifier for [u] when it was fetched, at [f], and
    was put in the cache at [g]. *)
Definition fetched_stored (u : string) (c : creds) (f g : Z) : Prop :=
  parseAnswer (db f u) = Ok c ∧ f ≤ g.

Definition entry_ok (t : Z) (p : AuthQueryProvider) : Prop :=
  ∀ u e, cache p !! u = Some e →
    ∃ f g, fetched_stored u (ce_creds e) f g ∧ g ≤ t ∧ expiresAt e = g + ttl p.

Definition pc_ok (t lim : Z) (q : lookup_pc) : Prop :=
  match q with
  | QGot u c f => parseAnswer (db f u) = Ok c ∧ f ≤ t
  | QRet u (Ok c) r => ∃ f g, fetched_stored u c f g ∧ g ≤ r ∧ r ≤ t ∧ (r < g + lim ∨ r = g)
  | _ => True
  end.

Definition state_ok (lim : Z) (s : state) : Prop :=
  ttl (provider s) = lim ∧ entry_ok (now s) (provider s) ∧ Forall (pc_ok (now s) lim) (pcs s).

Lemma cacheHit_Some t u p c :
  cacheHit t u p = Some c → ∃ e, cache p !! u = Some e ∧ ce_creds e = c ∧ t < expiresAt e.
Proof.
  unfold cacheHit. destruct (cache p !! u) as [e|] eqn:E; [|done].
  destruct (t <? expiresAt e) eqn:El; [|done]. intros [= <-]. to_prop. by exists e.
Qed.

Lemma entry_ok_store t u c f p :
  entry_ok t p → parseAnswer (db f u) = Ok c → f ≤ t → entry_ok t (cacheStore t u c p).
Proof.
  intros H Hc Hf v e. simpl. intros [[<- <-]|[_ Hl]]%lookup_insert_Some.
  - exists f, t. simpl. split_and!; try done; lia.
  - by apply H.
Qed.

Lemma answered t u a c : answers t u a → parseAnswer a = Ok c → parseAnswer (db t u) = Ok c.
Proof. intros [->|[->| ->]]; done. Qed.

Lemma pc_ok_mono t t' lim q : t ≤ t' → pc_ok t lim q → pc_ok t' lim q.
Proof.
  intros Ht. destruct q as [u|u|u c f|u [c|e] r]; simpl; try done.
  - intros [? ?]. split; [done|lia].
  - intros (f & g & H & ? & ? & ?). exists f, g. split_and!; [done|lia..|done].
Qed.

Lemma qstep_ok t p q p' q' lim :
  qstep t p q p' q' → ttl p = lim → entry_ok t p → pc_ok t lim q →
  ttl p' = lim ∧ entry_ok t p' ∧ pc_ok t lim q'.
Proof.
  intros Hs Hl He Hq. destruct Hs as [u c Hh|u Hh|u a c Ha Hc|u a e Ha Hc|u c f]; simpl in *.
  - split_and!; [done..|]. apply cacheHit_Some in Hh as (e & Hu & <- & Ht).
    destruct (He u e Hu) as (f & g & Hf & Hg & Hx). exists f, g. split_and!; [done..|lia|left; lia].
  - done.
  - split_and!; [done..|by eapply answered|done].
  - done.
  - destruct Hq as [Hc Hf]. split_and!; [done|by eapply entry_ok_store|].
    exists f, t. split_and!; try done; lia.
Qed.

Lemma astep_ok lim s s' : astep s s' → state_ok lim s → state_ok lim s'.
Proof.
  intros Hs (Hl & He & Hp). destruct Hs as [t p qs1 q qs2 p' q' Hq|t p qs u|t p qs u|t t' p qs Ht]; simpl in *.
  - apply Forall_app in Hp as [H1 [H2 H3]%Forall_cons].
    destruct (qstep_ok t p q p' q' lim Hq Hl He H2) as (? & ? & ?).
    split_and!; [done..|]. simpl. apply Forall_app. split; [done|]. by constructor.
  - split_and!; [done..|]. simpl. by constructor.
  - split_and!; [done| |done]. intros v e. simpl. intros [_ Hv]%lookup_delete_Some. by apply He.
  - split_and!; [done| |].
    + intros u e Hu. destruct (He u e Hu) as (f & g & ? & ? & ?). exists f, g. split_and!; [done|simpl; lia|done].
    + eapply Forall_impl; [exact Hp|]. intros q. by apply pc_ok_mono.
Qed.

Lemma reachable_ok p s : reachable p s → state_ok (ttl p) s.
Proof.
  intros [t H]. apply (rtc_ind_r (state_ok (ttl p)) (mkState t (with_cache ∅ p) [])) in H; [done| |].
  - split_and!; [done| |constructor]. intros u e. simpl. by rewrite lookup_empty.
  - intros. by eapply astep_ok.
Qed.

(** C33: Whatever logins, invalidations and password changes interleave, a
    verifier that a login is given was the database's own for that user, fetched
    by a lookup that stored it less than the TTL before the login was answered
    (or at that moment); a failed lookup is never answered from anything else. *)
Theorem auth_query_fresh p s u c r :
  reachable p s → QRet u (Ok c) r ∈ pcs s →
  ∃ f g, parseAnswer (db f u) = Ok c ∧ f ≤ g ∧ g ≤ r ∧ (r < g + ttl p ∨ r = g).
Proof.
  intros H Hin. apply reachable_ok in H as (_ & _ & Hp). rewrite Forall_forall in Hp.
  destruct (Hp _ Hin) as (f & g & [Hc Hf] & Hg & _ & Hor). by exists f, g.
Qed.
End interleaving.

(** ** A rotated password *)

Definition verifier (k : Z) : creds := Scram.mkCreds [k] 4096 (replicate 32 k) (replicate 32 k).
Definition row (k : Z) : dbAnswer := Row (HBA.lit "ann") (Scram.formatVerifier (verifier k)).

(** The password changes at time 10. *)
Definition rotated (t : Z) (u : string) : dbAnswer :=
  if bool_decide (u = "ann") then (if t <? 10 then row 1 else row 2) else NoRows.

Definition minute : AuthQueryProvider := NewAuthQueryProvider "dsn" "" 0.

(** A login fetched the old verifier at 9; the password is changed and the user
    invalidated at 10; the login then stores what it had. *)
Definition stale_cache : state :=
  mkState 11 (cacheStore 11 "ann" (verifier 1) (Invalidate "ann" (with_cache ∅ minute)))
    [QRet "ann" (Ok (verifier 1)) 11].

Ltac lookup_step := eapply rtc_l; [apply (a_lookup _ _ _ [] _ [])|].

(** So an invalidated user is served from the cache again, with the password
    from before the change, for the rest of the TTL. *)
Lemma invalidate_races_with_lookup :
  reachable rotated minute stale_cache ∧ cacheHit 70000000000 "ann" (provider stale_cache) = None ∧
  cacheHit (59 * Second) "ann" (provider stale_cache) = Some (verifier 1) ∧
  parseAnswer (rotated (59 * Second) "ann") = Ok (verifier 2).
Proof.
  split_and!; [|by vm_compute..]. exists 9.
  eapply rtc_l; [apply (a_login _ _ _ _ "ann")|].
  lookup_step; [by apply q_miss|].
  lookup_step; [apply (q_fetch _ _ _ _ (rotated 9 "ann") (verifier 1)); [by left|by vm_compute]|].
  eapply rtc_l; [apply (a_time _ _ 10); lia|].
  eapply rtc_l; [apply (a_invalidate _ _ _ _ "ann")|].
  eapply rtc_l; [apply (a_time _ _ 11); lia|].
  lookup_step; [apply q_store|]. reflexivity.
Qed.

Lemma auth_query_fresh_witness :
  ∃ f g, parseAnswer (rotated f "ann") = Ok (verifier 1) ∧ f ≤ g ∧ g ≤ 11 ∧ (11 < g + ttl minute ∨ 11 = g).
Proof.
  apply (auth_query_fresh rotated minute stale_cache "ann" (verifier 1) 11).
  - apply invalidate_races_with_lookup.
  - apply list_elem_of_here.
Defined.

(** Within the TTL the backend is not asked again; a failure leaves the cache
    as it was, so the next login asks again. *)
Lemma lookup_sequence p u a c t0 t1 :
  cacheHit t0 u p = None → parseAnswer a = Ok c →
  Lookup t0 t1 a u (Some p) = (Ok c, Some (cacheStore t1 u c p)) ∧
  ∀ t t' a', t < t1 + ttl p →
    Lookup t t' a' u (Some (cacheStore t1 u c p)) = (Ok c, Some (cacheStore t1 u c p)).
Proof.
  intros Hh Hc. unfold Lookup. rewrite Hh, Hc. split; [done|]. intros t t' a' Ht.
  unfold cacheHit, cacheStore; simpl. rewrite lookup_insert_eq. simpl.
  by rewrite (proj2 (Z.ltb_lt _ _)) by done.
Qed.

Lemma lookup_failure p u a e t0 t1 :
  cacheHit t0 u p = None → parseAnswer a = Err e → Lookup t0 t1 a u (Some p) = (Err e, Some p).
Proof. intros Hh Hc. unfold Lookup. by rewrite Hh, Hc. Qed.

End AuthQuery.
