(* ===== verification/Session.v ===== *)
(** * The session registry and query cancellation

    src/session.go: the process-wide table of client sessions, in 32 shards;
    the identities a session is given; the snapshots the admin surfaces and
    the pass-through reaper read; and the way a CancelRequest finds the backend
    it is for.  A session is shared: the connection handler and the table hold
    the same pointer, so sessions live in a heap and the shards hold indices
    into it. *)

From S2P Require Import Prelude.
Open Scope string_scope.
Open Scope list_scope.
Open Scope Z_scope.

Module Session.

Abbreviation bytes := (list Z).

(** ** Backends and sessions *)

(** The parts of a Go [tls.Config] that say whom a handshake trusts. *)
Record tlsConfig := mkTLS { ServerName : string; InsecureSkipVerify : bool }.

#[export] Instance tlsConfig_eq_dec : EqDecision tlsConfig.
Proof. solve_decision. Defined.

(** The identity of a backend connection; [conn] says which connection it is. *)
Record backendConn := mkBackendConn {
  conn : nat;
  addr : string;
  pid : Z;
  secretKey : bytes;
  cancelTLS : option tlsConfig;
}.

#[export] Instance backendConn_eq_dec : EqDecision backendConn.
Proof. solve_decision. Defined.

(** The zero [time.Time] is 0. *)
Record session := mkSession {
  id : Z;
  secret : bytes;
  user : string;
  database : string;
  connectedAt : Z;
  poolMode : string;
  poolName : string;
  trackedParams : list (string * string);
  psLimit : Z;
  backend : option backendConn;
  txStartedAt : Z;
}.

(** [setBackend], under the session's own mutex. *)
Definition setBackend (now : Z) (b : option backendConn) (s : session) : session :=
  mkSession (id s) (secret s) (user s) (database s) (connectedAt s) (poolMode s) (poolName s)
    (trackedParams s) (psLimit s) b (match b with Some _ => now | None => 0 end).

(** ** The registry *)

Definition sessionShardCount : nat := 32.

Record world := mkWorld {
  shards : list (gmap Z nat);
  heap : list session;
  nextSessionID : Z;
}.

Definition newSessionRegistry : list (gmap Z nat) := replicate sessionShardCount ∅.

(** The state of a fresh process. *)
Definition init_world : world := mkWorld newSessionRegistry [] 0.

(** [pid & (sessionShardCount - 1)] *)
Definition shardFor (p : Z) : nat := Z.to_nat (Z.land p (Z.of_nat sessionShardCount - 1)).

Definition shardOf (w : world) (p : Z) : gmap Z nat := default ∅ (shards w !! shardFor p).

Definition update_shard (p : Z) (f : gmap Z nat → gmap Z nat) (w : world) : world :=
  mkWorld (<[shardFor p := f (shardOf w p)]> (shards w)) (heap w) (nextSessionID w).

(** [lookupSession]: the pointer, read under the shard's mutex. *)
Definition lookupSession (p : Z) (w : world) : option nat := shardOf w p !! p.

(** The session behind a pointer. *)
Definition deref (w : world) (l : nat) : option session := heap w !! l.

Definition modify (l : nat) (f : session → session) (w : world) : world :=
  mkWorld (shards w) (alter f l (heap w)) (nextSessionID w).

Definition deregisterSession (p : Z) (w : world) : world := update_shard p (delete p) w.

(** *** Allocation of an identity *)

(** [binary.BigEndian.Uint32] of the four bytes read. *)
Definition randUint32 (b : bytes) : Z := foldl (λ a x, a * 256 + x) 0 b.

Definition newSession (now : Z) (n : Z) (sec : bytes) (u d : string) : session :=
  mkSession n sec u d now "" "" [] 0 None 0.

(** [nextSessionID.Add(1)] on a [uint64]. *)
Definition nextID (w : world) : Z := (nextSessionID w + 1) mod two64.

(** [shard.sessions[p] = sess], in the critical section that found [p] free:
    the pointer of the new session. *)
Definition insertSession (now p : Z) (sec : bytes) (u d : string) (w : world) : nat * world :=
  let l := length (heap w) in
  let s := newSession now (nextID w) sec u d in
  (l, update_shard p <[p := l]> (mkWorld (shards w) (heap w ++ [s]) (nextID w))).

Inductive registered :=
| Registered (p : Z) (l : nat) (w : world) (reads : nat)
| PanicRand
| PanicNoPid.

(** The loop, with [rand n] the result of the n-th [rand.Read] of four bytes
    ([None] when the entropy source fails) and [c] the reads made so far. *)
Fixpoint registerLoop (n : nat) (now : Z) (rand : nat → option bytes) (c : nat) (u d : string)
    (w : world) : registered :=
  match n with
  | O => PanicNoPid
  | S n =>
      match rand c with
      | None => PanicRand
      | Some b =>
          let p := randUint32 b in
          if p =? 0 then registerLoop n now rand (S c) u d w
          else
            match lookupSession p w with
            | Some _ => registerLoop n now rand (S c) u d w
            | None =>
                match rand (S c) with
                | None => PanicRand
                | Some sec =>
                    let '(l, w') := insertSession now p sec u d w in
                    Registered p l w' (S (S c))
                end
            end
      end
  end.

Definition registerAttempts : nat := 100.

Definition registerSession (now : Z) (rand : nat → option bytes) (u d : string) (w : world) :
  registered := registerLoop registerAttempts now rand 0 u d w.

(** ** Snapshots *)

Record SessionInfo := mkInfo {
  PID : Z;
  User : string;
  Database : string;
  PoolName : string;
  Active : bool;
  ConnectedAt : Z;
  TxStartedAt : Z;
}.

#[export] Instance SessionInfo_eq_dec : EqDecision SessionInfo.
Proof. solve_decision. Defined.

Definition infoOf (p : Z) (s : session) : SessionInfo :=
  mkInfo p (user s) (database s) (poolName s) (bool_decide (is_Some (backend s)))
    (connectedAt s) (txStartedAt s).

(** One shard, under its mutex. *)
Definition shardInfos (w : world) (m : gmap Z nat) : list SessionInfo :=
  omap (λ '(p, l), infoOf p <$> deref w l) (map_to_list m).

Definition byConnectedAt (a b : SessionInfo) : Prop := ConnectedAt a ≤ ConnectedAt b.
#[export] Instance byConnectedAt_dec a b : Decision (byConnectedAt a b).
Proof. unfold byConnectedAt. apply _. Defined.

(** The walk takes one shard's mutex at a time, so it can see a different
    world at every shard: [ws i] is the world when shard [i] is read.
    [sort.Slice] leaves the order of equal times open; nothing here depends on
    it. *)
Definition listSessionsOver (ws : nat → world) : list SessionInfo :=
  merge_sort byConnectedAt
    (mjoin ((λ i, shardInfos (ws i) (default ∅ (shards (ws i) !! i))) <$> seq 0 sessionShardCount)).

Definition listSessions (w : world) : list SessionInfo := listSessionsOver (λ _, w).

Definition countPool (m : gmap string Z) (i : SessionInfo) : gmap string Z :=
  if bool_decide (PoolName i = "") then m
  else <[PoolName i := default 0 (m !! PoolName i) + 1]> m.

Definition sessionsByPoolOf (infos : list SessionInfo) : gmap string Z := foldl countPool ∅ infos.
Definition sessionsByPool (w : world) : gmap string Z := sessionsByPoolOf (listSessions w).

Definition addKey (s : gset string) (i : SessionInfo) : gset string :=
  if bool_decide (PoolName i = "") then s else {[ PoolName i ]} ∪ s.

Definition activeKeysOf (infos : list SessionInfo) : gset string := foldl addKey ∅ infos.
Definition activeSessionPoolKeys (ws : nat → world) : gset string := activeKeysOf (listSessionsOver ws).

(** ** Cancellation *)

(** What [sendRealCancelRequest] is called with. *)
Record cancelTarget := mkTarget {
  t_addr : string; t_pid : Z; t_secret : bytes; t_tls : option tlsConfig;
}.

#[export] Instance cancelTarget_eq_dec : EqDecision cancelTarget.
Proof. solve_decision. Defined.

Definition targetOf (b : backendConn) : cancelTarget :=
  mkTarget (addr b) (pid b) (secretKey b) (cancelTLS b).

Inductive cancelErr := SessionNotFound | NoTransaction.

(** [cancelSession] up to the send, with no step of another goroutine between
    its two reads. *)
Definition cancelSession (p : Z) (w : world) : result cancelErr cancelTarget :=
  match lookupSession p w ≫= deref w with
  | None => Err SessionNotFound
  | Some s => match backend s with Some b => Ok (targetOf b) | None => Err NoTransaction end
  end.

(** [handleCancelRequest]: the request that goes out, if one does. *)
Definition handleCancelRequest (p : Z) (key : bytes) (w : world) : option cancelTarget :=
  match lookupSession p w ≫= deref w with
  | None => None
  | Some s =>
      if bool_decide (secret s = key) then
        match cancelSession p w with Ok t => Some t | Err _ => None end
      else None
  end.

(** *** The cancel connection *)

Inductive wireMsg :=
| SSLRequest
| CancelRequest (p : Z) (key : bytes)
| StartupMessage (params : gmap string string)
| SASLData (data : bytes).

(** What happens on a connection: bytes in the clear, bytes inside TLS. *)
Inductive wire :=
| Dialed (a : string)
| Clear (m : wireMsg)
| Handshake (c : tlsConfig)
| Sealed (m : wireMsg)
| Hangup.

(** What the peer and the network answer. *)
Record sslNet := mkSSL { reqWritten : bool; verdict : option Z; handshakeOk : bool }.

Inductive sslErr := SSLWrite | SSLRead | SSLRefused (v : Z) | SSLHandshake.

Definition byte_S : Z := 83.

(** [startCancelTLS]: the same negotiation as [startBackendTLS] in
    backend_connect.go. *)
Definition startCancelTLS (net : sslNet) (cfg : tlsConfig) : result sslErr unit * list wire :=
  if negb (reqWritten net) then (Err SSLWrite, [])
  else match verdict net with
       | None => (Err SSLRead, [Clear SSLRequest])
       | Some v =>
           if negb (v =? byte_S) then (Err (SSLRefused v), [Clear SSLRequest])
           else if handshakeOk net then (Ok tt, [Clear SSLRequest; Handshake cfg])
           else (Err SSLHandshake, [Clear SSLRequest; Handshake cfg])
       end.

Record cancelNet := mkCancelNet {
  dialOk : bool; ssl : sslNet; encodeOk : bool; written : bool;
}.

Inductive sendErr := SendDial | SendSSL (e : sslErr) | SendEncode | SendWrite.

Definition writeCancel (net : cancelNet) (t : cancelTarget) (tls : bool) : result sendErr unit * list wire :=
  if negb (encodeOk net) then (Err SendEncode, [Hangup])
  else if negb (written net) then (Err SendWrite, [Hangup])
  else let m := CancelRequest (t_pid t) (t_secret t) in
       (Ok tt, [if tls then Sealed m else Clear m; Hangup]).

Definition sendRealCancelRequest (net : cancelNet) (t : cancelTarget) : result sendErr unit * list wire :=
  if negb (dialOk net) then (Err SendDial, [])
  else
    let '(r, out) :=
      match t_tls t with
      | None => writeCancel net t false
      | Some cfg =>
          match startCancelTLS (ssl net) cfg with
          | (Err e, out) => (Err (SendSSL e), out ++ [Hangup])
          | (Ok _, out) => let '(r, out') := writeCancel net t true in (r, out ++ out')
          end
      end in
    (r, Dialed (t_addr t) :: out).

End Session.
