(* ===== verification/SessionTheorems.v ===== *)
(** * The session registry: the shards are one table

    The invariant of src/session.go's sharded registry, that it behaves as one
    map from pid to session, what registering gives, what the snapshots hold,
    and what a cancel connection sends. *)

From S2P Require Import Prelude Session.
Import Session.
Open Scope string_scope.
Open Scope list_scope.
Open Scope Z_scope.

Module SessionTheorems.

(** ** The invariant *)

Definition valid_pid (p : Z) : Prop := 0 < p < 2 ^ 32.

(** Every binding is in its own shard, under a valid pid, and points to a
    session; no two pids share a session. *)
Record wf (w : world) : Prop := mkWF {
  wf_len : length (shards w) = sessionShardCount;
  wf_shard i m p l : shards w !! i = Some m → m !! p = Some l → shardFor p = i;
  wf_bind p l : lookupSession p w = Some l → valid_pid p ∧ (l < length (heap w))%nat;
  wf_inj p q l : lookupSession p w = Some l → lookupSession q w = Some l → p = q;
}.

Lemma shardFor_lt p : (shardFor p < sessionShardCount)%nat.
Proof.
  unfold shardFor, sessionShardCount.
  change (Z.of_nat 32 - 1) with (Z.ones 5). rewrite Z.land_ones by lia.
  pose proof (Z.mod_pos_bound p (2 ^ 5) ltac:(lia)). lia.
Qed.

Lemma shardOf_lookup w p : wf w → shards w !! shardFor p = Some (shardOf w p).
Proof.
  intros Hw. unfold shardOf.
  destruct (lookup_lt_is_Some_2 (shards w) (shardFor p)) as [m Hm].
  { rewrite wf_len by done. apply shardFor_lt. }
  by rewrite Hm.
Qed.

Lemma wf_init : wf init_world.
Proof.
  assert (E : ∀ p, lookupSession p init_world = None).
  { intros p. unfold lookupSession, shardOf, init_world, newSessionRegistry. cbn [shards].
    rewrite lookup_replicate_2 by apply shardFor_lt. exact (lookup_empty (M := gmap Z) p). }
  split.
  - apply length_replicate.
  - cbn [shards init_world]. intros i m p l Hm Hl. apply lookup_replicate in Hm as [-> _]. by rewrite lookup_empty in Hl.
  - intros p l. by rewrite E.
  - intros p q l. by rewrite E.
Qed.

(** *** Updating one shard *)

Lemma shardOf_update w p q f :
  wf w → shardOf (update_shard p f w) q =
    if decide (shardFor q = shardFor p) then f (shardOf w p) else shardOf w q.
Proof.
  intros Hw. unfold shardOf, update_shard; simpl.
  destruct (decide (shardFor q = shardFor p)) as [->|Hne].
  - rewrite list_lookup_insert_eq; [done|]. rewrite wf_len by done. apply shardFor_lt.
  - by rewrite list_lookup_insert_ne by done.
Qed.

Lemma lookup_insertSession w now p sec u d q :
  wf w → lookupSession q (insertSession now p sec u d w).2 =
    if decide (q = p) then Some (length (heap w)) else lookupSession q w.
Proof.
  intros Hw. unfold lookupSession, insertSession; simpl.
  set (w1 := mkWorld _ _ _).
  assert (E : shardOf (update_shard p <[p:=length (heap w)]> w1) q =
    if decide (shardFor q = shardFor p) then <[p:=length (heap w)]> (shardOf w p) else shardOf w q).
  { unfold shardOf, update_shard; simpl. destruct (decide (shardFor q = shardFor p)) as [->|Hne].
    - rewrite list_lookup_insert_eq; [done|]. rewrite (wf_len _ Hw). apply shardFor_lt.
    - by rewrite list_lookup_insert_ne by done. }
  rewrite E. destruct (decide (q = p)) as [->|Hq].
  - rewrite decide_True by done. by rewrite lookup_insert_eq.
  - destruct (decide (shardFor q = shardFor p)) as [Hs|Hs]; [|done].
    rewrite lookup_insert_ne by done. unfold shardOf. by rewrite Hs.
Qed.

Lemma lookup_deregister w p q :
  wf w → lookupSession q (deregisterSession p w) =
    if decide (q = p) then None else lookupSession q w.
Proof.
  intros Hw. unfold lookupSession, deregisterSession. rewrite shardOf_update by done.
  destruct (decide (q = p)) as [->|Hq].
  - rewrite decide_True by done. apply lookup_delete_eq.
  - destruct (decide (shardFor q = shardFor p)) as [Hs|Hs]; [|done].
    rewrite lookup_delete_ne by done. unfold shardOf. by rewrite Hs.
Qed.

Lemma lookup_modify w l f q : lookupSession q (modify l f w) = lookupSession q w.
Proof. done. Qed.

Lemma wf_insertSession w now p sec u d :
  wf w → valid_pid p → lookupSession p w = None → wf (insertSession now p sec u d w).2.
Proof.
  intros Hw Hp Hn. split.
  - simpl. rewrite length_insert. apply Hw.
  - intros i m q l Hm Hl. simpl in Hm. apply list_lookup_insert_Some in Hm as [(Hi & <- & _)|[_ Hm]].
    + apply lookup_insert_Some in Hl as [[-> _]|[_ Hl]]; [done|].
      rewrite <-Hi. eapply wf_shard; [done|by apply shardOf_lookup|done].
    + by eapply wf_shard.
  - intros q l. rewrite lookup_insertSession by done. simpl. rewrite length_app; simpl.
    destruct (decide (q = p)) as [->|Hq]; intros H.
    + simplify_eq. split; [done|lia].
    + apply wf_bind in H as [Hv Hl]; [|done]. split; [done|lia].
  - intros q1 q2 l. rewrite !lookup_insertSession by done.
    destruct (decide (q1 = p)) as [->|H1], (decide (q2 = p)) as [->|H2]; intros E1 E2; simplify_eq;
      try done.
    + apply wf_bind in E2 as [_ ?]; [lia|done].
    + apply wf_bind in E1 as [_ ?]; [lia|done].
    + by eapply wf_inj.
Qed.

Lemma wf_deregister w p : wf w → wf (deregisterSession p w).
Proof.
  intros Hw. split.
  - simpl. rewrite length_insert. apply Hw.
  - intros i m q l Hm Hl. simpl in Hm. apply list_lookup_insert_Some in Hm as [(Hi & <- & _)|[_ Hm]].
    + apply lookup_delete_Some in Hl as [_ Hl].
      rewrite <-Hi. eapply wf_shard; [done|by apply shardOf_lookup|done].
    + by eapply wf_shard.
  - intros q l. rewrite lookup_deregister by done. case_decide; [done|]. exact (wf_bind _ Hw q l).
  - intros q1 q2 l. rewrite !lookup_deregister by done. repeat case_decide; try done. by eapply wf_inj.
Qed.

Lemma wf_modify w l f : wf w → wf (modify l f w).
Proof.
  intros Hw. split.
  - apply Hw.
  - apply Hw.
  - intros p k. rewrite lookup_modify. simpl. rewrite length_alter. by apply wf_bind.
  - intros p q k. rewrite !lookup_modify. by eapply wf_inj.
Qed.

Create HintDb session.
#[export] Hint Resolve wf_init wf_insertSession wf_deregister wf_modify : session.

(** ** Sessions and the threads that own them

    A thread that holds an identity has it registered, no two threads hold the
    same session, and every registered session is held by a thread: shared by
    the systems in which threads register and deregister sessions. *)

Section owned.
Context {T : Type} (place : T → option (Z * nat)).

Definition locs (t : T) : list nat := match place t with Some (_, l) => [l] | None => [] end.

Record owned (w : world) (ts : list T) : Prop := mkOwned {
  o_wf : wf w;
  o_locs l : (total (λ t, occ l (locs t)) ts ≤ 1)%nat;
  o_placed t p l : t ∈ ts → place t = Some (p, l) → lookupSession p w = Some l;
  o_owner p l : lookupSession p w = Some l → ∃ t, t ∈ ts ∧ place t = Some (p, l);
}.

(** What one access by a thread does to the table. *)
Inductive table_step (w : world) (pl : option (Z * nat)) : world → option (Z * nat) → Prop :=
| ts_same : table_step w pl w pl
| ts_insert now p sec u d : pl = None → valid_pid p → lookupSession p w = None →
    table_step w pl (insertSession now p sec u d w).2 (Some (p, length (heap w)))
| ts_modify p l f : pl = Some (p, l) → table_step w pl (modify l f w) pl
| ts_delete p l : pl = Some (p, l) → table_step w pl (deregisterSession p w) None.

Lemma owned_lt w ts t p l : owned w ts → t ∈ ts → place t = Some (p, l) → (l < length (heap w))%nat.
Proof using.
  intros Ho Ht Hp. apply (o_placed _ _ Ho) in Hp; [|done]. by apply (wf_bind _ (o_wf _ _ Ho)) in Hp as [_ ?].
Qed.

Lemma owned_fresh w ts : owned w ts → total (λ t, occ (length (heap w)) (locs t)) ts = 0%nat.
Proof using.
  intros Ho. apply total_zero. intros t Ht. apply occ_not_elem_of. unfold locs.
  destruct (place t) as [[p l]|] eqn:E; [|apply not_elem_of_nil].
  apply (owned_lt _ _ _ _ _ Ho) in E; [|done]. rewrite list_elem_of_singleton. lia.
Qed.

Lemma owned_other w ts1 t ts2 u p l q m :
  owned w (ts1 ++ t :: ts2) → place t = Some (p, l) → u ∈ ts1 ++ ts2 → place u = Some (q, m) →
  m ≠ l ∧ q ≠ p.
Proof using.
  intros Ho Ht Hu Hp. assert (m ≠ l) as Hne.
  { intros ->. pose proof (o_locs _ _ Ho l) as Hl. rewrite total_mid in Hl.
    assert (E : ∀ t p, place t = Some (p, l) → occ l (locs t) = 1%nat)
      by (intros v r Hv; unfold locs; rewrite Hv; simpl; by rewrite decide_True).
    rewrite (E t p Ht) in Hl.
    apply elem_of_app in Hu as [Hu|Hu]; apply (total_elem (λ t, occ l (locs t))) in Hu;
      cbn beta in Hu; rewrite (E u q Hp) in Hu; lia. }
  split; [done|]. intros ->.
  apply (o_placed _ _ Ho) in Ht; [|set_solver]. apply (o_placed _ _ Ho) in Hp; [|set_solver]. congruence.
Qed.

Lemma table_step_back w pl w' pl' q m :
  wf w → table_step w pl w' pl' → lookupSession q w' = Some m →
  pl' = Some (q, m) ∨ lookupSession q w = Some m ∧ pl ≠ Some (q, m).
Proof using.
  intros Hw Hs Hq. destruct Hs as [|now p sec u d -> Hp Hn|p l f Hpl|p l Hpl].
  - destruct (decide (pl = Some (q, m))); [by left|by right].
  - rewrite lookup_insertSession in Hq by done. destruct (decide (q = p)) as [->|]; [left; congruence|by right].
  - destruct (decide (pl = Some (q, m))); [by left|by right].
  - rewrite lookup_deregister in Hq by done. case_decide; [done|]. right. split; [done|]. congruence.
Qed.

Lemma table_step_self w pl w' pl' q m :
  wf w → (∀ p l, pl = Some (p, l) → lookupSession p w = Some l) → table_step w pl w' pl' →
  pl' = Some (q, m) → lookupSession q w' = Some m.
Proof using.
  intros Hw Hpl Hs. destruct Hs as [|now p sec u d -> Hp Hn|p l f ->|p l ->]; intros E; try done.
  - by apply Hpl.
  - simplify_eq. rewrite lookup_insertSession by done. by rewrite decide_True.
  - rewrite lookup_modify. by apply Hpl.
Qed.

(** What another thread sees. *)
Lemma table_step_frame w pl w' pl' q m :
  wf w → table_step w pl w' pl' → lookupSession q w = Some m →
  (∀ p l, pl = Some (p, l) → m ≠ l ∧ q ≠ p) →
  lookupSession q w' = Some m ∧ deref w' m = deref w m.
Proof using.
  intros Hw Hs Hq Hne. destruct Hs as [|now p sec u d -> Hp Hn|p l f ->|p l ->]; [done|..].
  - rewrite lookup_insertSession by done. rewrite decide_False by congruence. split; [done|].
    apply wf_bind in Hq as [_ Hq]; [|done]. unfold deref. simpl. by rewrite lookup_app_l.
  - split; [done|]. destruct (Hne p l eq_refl) as [H _]. unfold deref, modify; simpl.
    by rewrite list_lookup_alter_ne.
  - destruct (Hne p l eq_refl) as [_ H]. rewrite lookup_deregister by done. by rewrite decide_False.
Qed.

Lemma table_step_wf w pl w' pl' : wf w → table_step w pl w' pl' → wf w'.
Proof using. intros Hw Hs. destruct Hs; subst; auto with session. Qed.

Lemma table_step_locs w ts1 t ts2 w' t' l :
  owned w (ts1 ++ t :: ts2) → table_step w (place t) w' (place t') →
  (total (λ t, occ l (locs t)) (ts1 ++ t' :: ts2) ≤ 1)%nat.
Proof using.
  intros Ho Hs. pose proof (o_locs _ _ Ho l) as Hl. rewrite total_mid in *.
  assert (K : (occ l (locs t') ≤ occ l (locs t) ∨ l = length (heap w) ∧ occ l (locs t') ≤ 1)%nat).
  { unfold locs. destruct Hs as [|now p sec u d -> Hp Hn|p k f _|p k _]; auto; [|simpl; lia].
    simpl. destruct (decide (l = length (heap w))); simpl; lia. }
  pose proof (owned_fresh w _ Ho) as Hf. rewrite total_mid in Hf.
  destruct K as [K|[-> K]]; lia.
Qed.

Lemma owned_step w ts1 t ts2 w' t' :
  owned w (ts1 ++ t :: ts2) → table_step w (place t) w' (place t') →
  owned w' (ts1 ++ t' :: ts2) ∧
  ∀ u q m, u ∈ ts1 ++ ts2 → place u = Some (q, m) → deref w' m = deref w m.
Proof using.
  intros Ho Hs. pose proof (o_wf _ _ Ho) as Hw.
  assert (Frame : ∀ u q m, u ∈ ts1 ++ ts2 → place u = Some (q, m) →
    lookupSession q w' = Some m ∧ deref w' m = deref w m).
  { intros u q m Hu Hp. eapply table_step_frame; [done|done| |].
    - apply (o_placed _ _ Ho u); [set_solver|done].
    - intros p l Hpl. by eapply owned_other. }
  split; [|intros u q m Hu Hp; by apply (Frame u q m)]. split.
  - by eapply table_step_wf.
  - intros l. by eapply table_step_locs.
  - intros u p l Hu Hp. assert (Hcase : u = t' ∨ u ∈ ts1 ++ ts2) by set_solver.
    destruct Hcase as [->|Hin]; [|by apply (Frame u p l)].
    eapply table_step_self; [done| |done|done]. intros q m Hq. apply (o_placed _ _ Ho t); [set_solver|done].
  - intros q m Hq. destruct (table_step_back _ _ _ _ q m Hw Hs Hq) as [Hp|[Hold Hne]].
    + exists t'. set_solver.
    + destruct (o_owner _ _ Ho q m Hold) as (u & Hu & Hp). exists u. split; [|done].
      assert (u ≠ t) by congruence. set_solver.
Qed.

Lemma owned_spawn w ts t : owned w ts → place t = None → owned w (t :: ts).
Proof using.
  intros Ho Ht. split.
  - apply Ho.
  - intros l. rewrite total_cons. unfold locs at 1. rewrite Ht. apply (o_locs _ _ Ho).
  - intros u p l [->|Hu]%elem_of_cons; [congruence|by apply (o_placed _ _ Ho)].
  - intros p l Hl. destruct (o_owner _ _ Ho p l Hl) as (u & Hu & Hp). exists u. split; [by right|done].
Qed.

Lemma owned_init ts : (∀ t, t ∈ ts → place t = None) → owned init_world ts.
Proof using.
  intros Hts. assert (E : ∀ p, lookupSession p init_world = None).
  { intros p. destruct (lookupSession p init_world) eqn:E; [|done].
    apply (wf_bind _ wf_init) in E as [_ E]. simpl in E. lia. }
  split.
  - apply wf_init.
  - intros l. rewrite total_zero; [lia|]. intros t Ht. unfold locs. by rewrite Hts.
  - intros t p l Ht. by rewrite Hts.
  - intros p l. by rewrite E.
Qed.
End owned.

#[export] Hint Constructors table_step : session.

(** ** The shards as one map *)

Definition flat (w : world) : gmap Z nat := ⋃ shards w.

(** A lookup in a union of maps is the first hit. *)
Lemma lookup_union_list (ms : list (gmap Z nat)) p l :
  (⋃ ms) !! p = Some l → ∃ i m, ms !! i = Some m ∧ m !! p = Some l.
Proof.
  induction ms as [|m ms IH]; simpl; [by rewrite lookup_empty|].
  rewrite lookup_union_Some_raw. intros [H|[_ H]].
  - by exists 0%nat, m.
  - destruct (IH H) as (i & m' & ? & ?). by exists (S i), m'.
Qed.

Lemma lookup_union_list_None (ms : list (gmap Z nat)) p :
  (⋃ ms) !! p = None → ∀ i m, ms !! i = Some m → m !! p = None.
Proof.
  induction ms as [|m ms IH]; simpl; [done|].
  rewrite lookup_union_None. intros [H1 H2] [|i] m' Hm; simplify_eq/=; [done|]. by eapply IH.
Qed.

Lemma lookup_flat w p : wf w → flat w !! p = lookupSession p w.
Proof.
  intros Hw. unfold flat. destruct ((⋃ shards w) !! p) as [l|] eqn:E.
  - apply lookup_union_list in E as (i & m & Hm & Hl).
    assert (shardFor p = i) as <- by by eapply wf_shard.
    unfold lookupSession, shardOf. by rewrite Hm.
  - unfold lookupSession. symmetry. eapply lookup_union_list_None; [done|by apply shardOf_lookup].
Qed.

Lemma NoDup_join_shards (ms : list (gmap Z nat)) (f : Z → nat) :
  (∀ i m p l, ms !! i = Some m → m !! p = Some l → f p = i) →
  NoDup (mjoin (map_to_list <$> ms)).
Proof.
  assert (K : ∀ n, (∀ i m p l, ms !! i = Some m → m !! p = Some l → f p = n + i)%nat →
    NoDup (mjoin (map_to_list <$> ms))); [|intros H; apply (K 0%nat); intros; simpl; by eapply H].
  induction ms as [|m ms IH]; intros n H; [constructor|]. cbn [fmap list_fmap mjoin list_join].
  apply NoDup_app. split_and!.
  - apply NoDup_map_to_list.
  - intros [p l] Hp Hq. apply elem_of_map_to_list in Hp.
    apply list_elem_of_join in Hq as (x & Hx & Hq).
    apply list_elem_of_fmap in Hq as (m' & -> & Hm'). apply elem_of_map_to_list in Hx.
    apply list_elem_of_lookup in Hm' as [i Hi].
    pose proof (H 0%nat m p l eq_refl Hp). pose proof (H (S i) m' p l Hi Hx). lia.
  - apply (IH (S n)). intros i m' p l Hi Hl. rewrite (H (S i) m' p l Hi Hl). lia.
Qed.

(** The pairs of all shards are the pairs of the one map. *)
Lemma shards_pairs w : wf w → map_to_list (flat w) ≡ₚ mjoin (map_to_list <$> shards w).
Proof.
  intros Hw. apply NoDup_Permutation.
  - apply NoDup_map_to_list.
  - apply (NoDup_join_shards _ shardFor). apply wf_shard, Hw.
  - intros [p l]. rewrite elem_of_map_to_list, lookup_flat by done.
    rewrite list_elem_of_join. setoid_rewrite list_elem_of_fmap. split.
    + intros H. exists (map_to_list (shardOf w p)). split; [by apply elem_of_map_to_list|].
      exists (shardOf w p). split; [done|]. eapply list_elem_of_lookup_2. by apply shardOf_lookup.
    + intros (x & Hx & m & -> & Hm). apply elem_of_map_to_list in Hx.
      apply list_elem_of_lookup in Hm as [i Hm].
      assert (shardFor p = i) as <- by by eapply wf_shard.
      unfold lookupSession, shardOf. by rewrite Hm.
Qed.

(** ** Snapshots *)

Definition infos (w : world) (pairs : list (Z * nat)) : list SessionInfo :=
  omap (λ '(p, l), infoOf p <$> deref w l) pairs.

Lemma infos_join w ls : infos w (mjoin ls) = mjoin (infos w <$> ls).
Proof.
  induction ls as [|l ls IH]; [done|]. cbn [mjoin list_join fmap list_fmap].
  unfold infos in *. rewrite omap_app. f_equal. exact IH.
Qed.

Lemma shards_seq {B} (f : gmap Z nat → B) (ms : list (gmap Z nat)) n :
  length ms = n → (λ i, f (default ∅ (ms !! i))) <$> seq 0 n = f <$> ms.
Proof.
  intros <-. apply list_eq. intros i. rewrite !list_lookup_fmap.
  destruct (decide (i < length ms)%nat) as [Hi|Hi].
  - rewrite lookup_seq_lt by done. simpl.
    destruct (lookup_lt_is_Some_2 ms i Hi) as [m Hm]. by rewrite Hm.
  - rewrite lookup_seq_ge by lia. simpl. by rewrite lookup_ge_None_2 by lia.
Qed.

Lemma listSessions_perm w : wf w → listSessions w ≡ₚ infos w (map_to_list (flat w)).
Proof.
  intros Hw. unfold listSessions, listSessionsOver. rewrite merge_sort_Permutation.
  rewrite (shards_seq (shardInfos w)) by apply Hw.
  unfold infos. rewrite shards_pairs by done. fold (infos w (mjoin (map_to_list <$> shards w))).
  rewrite infos_join, <-list_fmap_compose. done.
Qed.

(** A session that is registered under the same pid at every shard the walk
    reads is in the list. *)
Lemma listSessionsOver_elem ws p l s :
  (∀ i, (i < sessionShardCount)%nat → lookupSession p (ws i) = Some l) →
  deref (ws (shardFor p)) l = Some s →
  infoOf p s ∈ listSessionsOver ws.
Proof.
  intros Hp Hs. unfold listSessionsOver. rewrite merge_sort_Permutation.
  apply list_elem_of_join. set (i := shardFor p).
  assert (Hi : (i < sessionShardCount)%nat) by apply shardFor_lt.
  exists (shardInfos (ws i) (default ∅ (shards (ws i) !! i))). split.
  - apply list_elem_of_omap. exists (p, l). split; [|unfold i; by rewrite Hs].
    apply elem_of_map_to_list. exact (Hp i Hi).
  - apply list_elem_of_fmap. exists i. split; [done|]. apply elem_of_seq. lia.
Qed.

Lemma elem_of_activeKeysOf k si : k ∈ activeKeysOf si ↔ k ≠ "" ∧ ∃ i, i ∈ si ∧ PoolName i = k.
Proof.
  unfold activeKeysOf.
  assert (K : ∀ a, k ∈ foldl addKey a si ↔ k ∈ a ∨ k ≠ "" ∧ ∃ i, i ∈ si ∧ PoolName i = k);
    [|rewrite K; set_solver].
  induction si as [|i si IH]; intros a; simpl; [set_solver|].
  rewrite IH. unfold addKey. case_bool_decide as E; set_solver.
Qed.

Lemma sessionsByPoolOf_count si k :
  k ≠ "" → default 0 (sessionsByPoolOf si !! k) = Z.of_nat (length (filter (λ i, PoolName i = k) si)).
Proof.
  intros Hk. unfold sessionsByPoolOf.
  assert (K : ∀ m, default 0 (foldl countPool m si !! k) =
    default 0 (m !! k) + Z.of_nat (length (filter (λ i, PoolName i = k) si))).
  { induction si as [|i si IH]; intros m; simpl; [lia|].
    rewrite IH, filter_cons. unfold countPool.
    destruct (decide (PoolName i = k)) as [<-|Hne].
    - rewrite bool_decide_false by done. rewrite lookup_insert_eq. simpl. lia.
    - case_bool_decide; [done|]. by rewrite lookup_insert_ne by done. }
  rewrite K, lookup_empty. simpl. lia.
Qed.

(** C26: The sharded session registry behaves as one map from pid to session.
    Looking up, registering under a free pid and deregistering are the
    operations of the map, and the snapshot lists every registered session
    once, oldest first, so that the clients counted per pool are the sessions
    of the pool. *)
Theorem sharded_registry_is_a_map w :
  wf w →
  (∀ p, lookupSession p w = flat w !! p) ∧
  (∀ p, flat (deregisterSession p w) = delete p (flat w)) ∧
  (∀ now p sec u d, valid_pid p → flat w !! p = None →
     flat (insertSession now p sec u d w).2 = <[p := length (heap w)]> (flat w)) ∧
  listSessions w ≡ₚ infos w (map_to_list (flat w)) ∧
  Sorted byConnectedAt (listSessions w) ∧
  (∀ k, k ≠ "" → default 0 (sessionsByPool w !! k) =
     Z.of_nat (length (filter (λ i, PoolName i = k) (infos w (map_to_list (flat w)))))).
Proof.
  intros Hw. split_and!.
  - intros p. by rewrite lookup_flat.
  - intros p. apply map_eq. intros q. rewrite lookup_flat, lookup_deregister by auto with session.
    destruct (decide (q = p)) as [->|Hq]; [by rewrite lookup_delete_eq|].
    by rewrite lookup_delete_ne, lookup_flat by done.
  - intros now p sec u d Hp Hn. rewrite lookup_flat in Hn by done. apply map_eq. intros q.
    rewrite lookup_flat, lookup_insertSession by auto with session.
    destruct (decide (q = p)) as [->|Hq]; [by rewrite lookup_insert_eq|].
    by rewrite lookup_insert_ne, lookup_flat by done.
  - by apply listSessions_perm.
  - apply Sorted_merge_sort. intros a b. unfold byConnectedAt. lia.
  - intros k Hk. unfold sessionsByPool. rewrite sessionsByPoolOf_count by done.
    by rewrite listSessions_perm.
Qed.

(** Two clients registered, one of them in a transaction. *)
Definition demo_backend : backendConn := mkBackendConn 0 "10.0.0.1:5432" 77 [1; 2; 3; 4] None.

Definition demo_world : world :=
  let w := (insertSession 5 33 [9; 9; 9; 9] "bob" "app" init_world).2 in
  let w := (insertSession 4 1 [7; 7; 7; 7] "alice" "app" w).2 in
  modify 0 (setBackend 6 (Some demo_backend)) w.

Lemma demo_world_wf : wf demo_world.
Proof.
  unfold demo_world. apply wf_modify, wf_insertSession; [apply wf_insertSession; auto with session|..];
    try done; unfold valid_pid; lia.
Qed.

Lemma sharded_registry_is_a_map_witness :
  map PID (listSessions demo_world) = [1; 33] ∧ flat (deregisterSession 33 demo_world) = delete 33 (flat demo_world).
Proof.
  split; [by vm_compute|]. apply (sharded_registry_is_a_map demo_world demo_world_wf).
Defined.

(** ** Registering *)

(** A draw [registerSession] cannot use. *)
Definition unusable (rand : nat → option bytes) (w : world) (i : nat) : Prop :=
  ∃ b, rand i = Some b ∧ (randUint32 b = 0 ∨ is_Some (lookupSession (randUint32 b) w)).

Lemma registerLoop_spec n now rand c u d w :
  (∀ i, is_Some (rand i)) →
  match registerLoop n now rand c u d w with
  | Registered p l w' c' =>
      ∃ i b sec, (c ≤ i < c + n)%nat ∧ c' = S (S i) ∧ (∀ j, (c ≤ j < i)%nat → unusable rand w j) ∧
        rand i = Some b ∧ rand (S i) = Some sec ∧ p = randUint32 b ∧ p ≠ 0 ∧
        lookupSession p w = None ∧ (l, w') = insertSession now p sec u d w
  | PanicNoPid => ∀ j, (c ≤ j < c + n)%nat → unusable rand w j
  | PanicRand => False
  end.
Proof.
  intros Hr. revert c. induction n as [|n IH]; intros c; simpl; [lia|].
  destruct (Hr c) as [b Hb], (Hr (S c)) as [sec Hsec]. rewrite Hb, Hsec.
  assert (Next : unusable rand w c →
    match registerLoop n now rand (S c) u d w with
    | Registered p l w' c' =>
        ∃ i b sec, (c ≤ i < c + S n)%nat ∧ c' = S (S i) ∧ (∀ j, (c ≤ j < i)%nat → unusable rand w j) ∧
          rand i = Some b ∧ rand (S i) = Some sec ∧ p = randUint32 b ∧ p ≠ 0 ∧
          lookupSession p w = None ∧ (l, w') = insertSession now p sec u d w
    | PanicNoPid => ∀ j, (c ≤ j < c + S n)%nat → unusable rand w j
    | PanicRand => False
    end).
  { intros Hc. specialize (IH (S c)). destruct (registerLoop n now rand (S c) u d w); [|done|].
    - destruct IH as (i & b' & sec' & Hi & Hc' & Hj & Rest). exists i, b', sec'. split_and!; try lia; try apply Rest.
      + intros j Hjj. destruct (decide (j = c)) as [->|]; [done|]. apply Hj; lia.
    - intros j Hjj. destruct (decide (j = c)) as [->|]; [done|]. apply IH; lia. }
  destruct (randUint32 b =? 0) eqn:E; to_prop.
  - apply Next. exists b. tauto.
  - destruct (lookupSession (randUint32 b) w) as [l|] eqn:El.
    + apply Next. exists b. split; [done|]. right. by rewrite El.
    + exists c, b, sec. split_and!; try lia; done.
Qed.

(** C27: Registering a session always finishes: unless the first hundred draws
    are all zero or taken, it takes the first free non-zero pid drawn, and
    afterwards that pid alone is new, bound to a session that carries the
    user, the database, the secret drawn next and the next identity. *)
Theorem registerSession_finishes now rand u d w :
  wf w → (∀ i, is_Some (rand i)) →
  match registerSession now rand u d w with
  | Registered p l w' reads =>
      ∃ i sec, (i < registerAttempts)%nat ∧ reads = S (S i) ∧
        randUint32 <$> rand i = Some p ∧ rand (S i) = Some sec ∧ p ≠ 0 ∧
        (∀ j, (j < i)%nat → unusable rand w j) ∧
        lookupSession p w = None ∧ lookupSession p w' = Some l ∧
        deref w' l = Some (newSession now (nextID w) sec u d) ∧
        (∀ q, q ≠ p → lookupSession q w' = lookupSession q w) ∧
        (∀ k, (k < length (heap w))%nat → deref w' k = deref w k)
  | PanicNoPid => ∀ j, (j < registerAttempts)%nat → unusable rand w j
  | PanicRand => False
  end.
Proof.
  intros Hw Hr. unfold registerSession.
  pose proof (registerLoop_spec registerAttempts now rand 0 u d w Hr) as K.
  destruct (registerLoop registerAttempts now rand 0 u d w) as [p l w' c| |]; [|done|intros j Hj; apply K; lia].
  destruct K as (i & b & sec & Hi & -> & Hj & Hb & Hs & -> & Hp & Hn & E).
  assert (w' = (insertSession now (randUint32 b) sec u d w).2) as Ew by by rewrite <-E.
  assert (l = length (heap w)) as -> by by inversion E.
  exists i, sec. rewrite Hb. split_and!; try done; try lia.
  - intros j Hjj. apply Hj. lia.
  - rewrite Ew, lookup_insertSession by done. by rewrite decide_True.
  - rewrite Ew. unfold deref. simpl. by rewrite list_lookup_middle.
  - intros q Hq. rewrite Ew, lookup_insertSession by done. by rewrite decide_False.
  - intros k Hk. rewrite Ew. unfold deref. simpl. by rewrite lookup_app_l.
Qed.

(** The first two draws collide (a zero and a taken pid); the third is used. *)
Definition demo_rand (i : nat) : option bytes :=
  Some match i with O => [0; 0; 0; 0] | S O => [0; 0; 0; 33] | S (S O) => [0; 0; 1; 2] | _ => [5; 6; 7; 8] end.

Lemma registerSession_finishes_witness :
  match registerSession 9 demo_rand "carol" "app" demo_world with
  | Registered p _ _ reads => p = 258 ∧ reads = 4%nat
  | _ => False
  end ∧
  match registerSession 9 demo_rand "carol" "app" demo_world with
  | Registered p l w' _ => ∃ i : nat, (i < registerAttempts)%nat ∧ lookupSession p w' = Some l
  | _ => False
  end.
Proof.
  split; [by vm_compute|].
  pose proof (registerSession_finishes 9 demo_rand "carol" "app" demo_world demo_world_wf
    ltac:(by intros i; eexists)) as K.
  destruct (registerSession 9 demo_rand "carol" "app" demo_world) as [p l w' c| |] eqn:E.
  - destruct K as (i & sec & Hi & _ & _ & _ & _ & _ & _ & Hl & _). by exists i.
  - done.
  - assert (is_Some (match registerSession 9 demo_rand "carol" "app" demo_world with
      Registered _ _ _ _ => Some tt | _ => None end)) as H by (vm_compute; by eexists).
    rewrite E in H. by destruct H.
Defined.

(** ** The cancel connection *)

(** A cancel for a backend that is reached over TLS never sends the cancel
    key in the clear: whatever the peer answers, only the SSLRequest precedes
    the handshake, a refused or failed negotiation sends nothing, and every
    dialed connection is closed. *)
Theorem cancel_key_never_in_clear net t cfg :
  t_tls t = Some cfg →
  let '(r, out) := sendRealCancelRequest net t in
  (∀ m, Clear m ∈ out → m = SSLRequest) ∧
  (∀ m, Sealed m ∈ out → m = CancelRequest (t_pid t) (t_secret t) ∧ Handshake cfg ∈ out) ∧
  (is_ok r = true ↔ Sealed (CancelRequest (t_pid t) (t_secret t)) ∈ out) ∧
  (Dialed (t_addr t) ∈ out → last out = Some Hangup).
Proof.
  intros Ht. unfold sendRealCancelRequest, startCancelTLS, writeCancel. rewrite Ht.
  repeat (break_goal; simpl); simplify_eq/=; split_and!; set_solver.
Qed.

Lemma cancel_key_never_in_clear_witness :
  let t := mkTarget "db:5432" 7 [1; 2; 3; 4] (Some (mkTLS "db" false)) in
  let refused := sendRealCancelRequest (mkCancelNet true (mkSSL true (Some 78) true) true true) t in
  let sent := sendRealCancelRequest (mkCancelNet true (mkSSL true (Some 83) true) true true) t in
  refused.2 = [Dialed "db:5432"; Clear SSLRequest; Hangup] ∧ (∀ m, Clear m ∈ sent.2 → m = SSLRequest).
Proof.
  split; [by vm_compute|].
  exact (proj1 (cancel_key_never_in_clear (mkCancelNet true (mkSSL true (Some 83) true) true true)
    (mkTarget "db:5432" 7 [1; 2; 3; 4] (Some (mkTLS "db" false))) _ eq_refl)).
Defined.

End SessionTheorems.
