(* ===== verification/SessionCancel.v ===== *)
(** * Cancel requests among running sessions

    src/session.go's cancelSession and handleCancelRequest take a lock at a
    time, and relay.go publishes a session's backend ([sess.setBackend]) around
    the pool's Acquire and Release.  This file interleaves any number of
    clients and cancel requests, one atomic access per step, and shows what a
    cancel can reach. *)

From S2P Require Import Prelude Session SessionTheorems.
Import Session SessionTheorems.
Open Scope string_scope.
Open Scope list_scope.
Open Scope nat_scope.

Module SessionCancel.

(** ** Threads *)

(** A client connection, by what it holds: nothing yet, an identity, a backend
    the pool just returned, a backend it has published, a backend the pool
    already has back but that is still published. *)
Inductive client :=
| KNew
| KIdle (p : Z) (l : nat)
| KGot (p : Z) (l : nat) (b : backendConn)
| KHeld (p : Z) (l : nat) (b : backendConn)
| KGiven (p : Z) (l : nat) (b : backendConn)
| KEnd.

(** A cancel: a client's request carries a key, the admin's does not. *)
Inductive canceller :=
| XStart (p : Z) (key : option bytes)
| XChecked (p : Z) (key : option bytes)
| XFound (p : Z) (key : option bytes) (l : nat)
| XSend (p : Z) (key : option bytes) (b : backendConn)
| XSent (p : Z) (key : option bytes) (b : backendConn)
| XDone.

Inductive thread := TClient (k : client) | TCancel (x : canceller).

(** The shared state: the registry, the connections the pool has handed out,
    and two histories that no code reads: the pointers each pid has had and
    the backends each session has published. *)
Record glob := mkGlob {
  reg : world;
  busy : gset nat;
  owners : list (Z * nat);
  published : list (nat * backendConn);
}.

Record sys := mkSys { glb : glob; threads : list thread }.

Definition start : sys := mkSys (mkGlob init_world ∅ [] []) [].

(** ** Steps *)

Definition publish (now : Z) (l : nat) (b : backendConn) (g : glob) : glob :=
  mkGlob (modify l (setBackend now (Some b)) (reg g)) (busy g) (owners g) ((l, b) :: published g).

Definition unpublish (now : Z) (l : nat) (g : glob) : glob :=
  mkGlob (modify l (setBackend now None) (reg g)) (busy g) (owners g) (published g).

(** A client's steps.  The pool promises only that what it hands out is not
    handed out already. *)
Inductive kstep (g : glob) : client → glob → client → Prop :=
| k_register now p sec u d : valid_pid p → lookupSession p (reg g) = None →
    kstep g KNew
      (mkGlob (insertSession now p sec u d (reg g)).2 (busy g)
         ((p, length (heap (reg g))) :: owners g) (published g))
      (KIdle p (length (heap (reg g))))
| k_acquire p l b : conn b ∉ busy g →
    kstep g (KIdle p l) (mkGlob (reg g) ({[ conn b ]} ∪ busy g) (owners g) (published g)) (KGot p l b)
| k_publish now p l b : kstep g (KGot p l b) (publish now l b g) (KHeld p l b)
| k_give p l b :
    kstep g (KHeld p l b) (mkGlob (reg g) (busy g ∖ {[ conn b ]}) (owners g) (published g)) (KGiven p l b)
| k_unpublish now p l b : kstep g (KGiven p l b) (unpublish now l g) (KIdle p l)
| k_end p l :
    kstep g (KIdle p l) (mkGlob (deregisterSession p (reg g)) (busy g) (owners g) (published g)) KEnd.

(** [handleCancelRequest] up to its check of the secret, then [cancelSession]:
    a second lookup, the read of the backend under the session's mutex, the
    send. *)
Definition xstep (g : glob) (x : canceller) : canceller :=
  match x with
  | XStart p None => XChecked p None
  | XStart p (Some k) =>
      match lookupSession p (reg g) ≫= deref (reg g) with
      | Some s => if bool_decide (secret s = k) then XChecked p (Some k) else XDone
      | None => XDone
      end
  | XChecked p k => match lookupSession p (reg g) with Some l => XFound p k l | None => XDone end
  | XFound p k l => match deref (reg g) l ≫= backend with Some b => XSend p k b | None => XDone end
  | XSend p k b => XSent p k b
  | x => x
  end.

Inductive tstep (g : glob) : thread → glob → thread → Prop :=
| t_client k g' k' : kstep g k g' k' → tstep g (TClient k) g' (TClient k')
| t_cancel x : tstep g (TCancel x) g (TCancel (xstep g x)).

Inductive sstep : sys → sys → Prop :=
| s_thread g ts1 t ts2 g' t' : tstep g t g' t' →
    sstep (mkSys g (ts1 ++ t :: ts2)) (mkSys g' (ts1 ++ t' :: ts2))
| s_connect g ts : sstep (mkSys g ts) (mkSys g (TClient KNew :: ts))
| s_cancel g ts p k : sstep (mkSys g ts) (mkSys g (TCancel (XStart p k) :: ts)).

Definition reachable (s : sys) : Prop := rtc sstep start s.

(** ** The invariant *)

Definition place (t : thread) : option (Z * nat) :=
  match t with
  | TClient (KIdle p l | KGot p l _ | KHeld p l _ | KGiven p l _) => Some (p, l)
  | _ => None
  end.

Definition owns (t : thread) : list nat :=
  match t with TClient (KGot _ _ b | KHeld _ _ b) => [conn b] | _ => [] end.

(** What a client's session shows. *)
Definition shows (t : thread) : option backendConn :=
  match t with TClient (KHeld _ _ b | KGiven _ _ b) => Some b | _ => None end.

Definition authorised (g : glob) (p : Z) (key : option bytes) : Prop :=
  match key with
  | None => True
  | Some k => ∃ l s, (p, l) ∈ owners g ∧ deref (reg g) l = Some s ∧ secret s = k
  end.

Definition reached (g : glob) (p : Z) (b : backendConn) : Prop :=
  ∃ l, (p, l) ∈ owners g ∧ (l, b) ∈ published g.

Definition cancel_ok (g : glob) (x : canceller) : Prop :=
  match x with
  | XStart _ _ | XDone => True
  | XChecked p k => authorised g p k
  | XFound p k l => authorised g p k ∧ (p, l) ∈ owners g
  | XSend p k b | XSent p k b => authorised g p k ∧ reached g p b
  end.

Definition thread_ok (g : glob) (t : thread) : Prop :=
  match t with
  | TCancel x => cancel_ok g x
  | TClient _ =>
      match place t with
      | Some (_, l) => ∃ s, deref (reg g) l = Some s ∧ backend s = shows t
      | None => True
      end
  end.

Record inv (s : sys) : Prop := mkInv {
  i_table : owned place (reg (glb s)) (threads s);
  i_owns c : total (λ t, occ c (owns t)) (threads s) = if decide (c ∈ busy (glb s)) then 1 else 0;
  i_threads t : t ∈ threads s → thread_ok (glb s) t;
  i_owner p l : lookupSession p (reg (glb s)) = Some l → (p, l) ∈ owners (glb s);
  i_published l e b : deref (reg (glb s)) l = Some e → backend e = Some b →
    (l, b) ∈ published (glb s);
}.

(** *** One step of a thread *)

(** Histories grow and secrets stay. *)
Definition extends (g g' : glob) : Prop :=
  owners g ⊆ owners g' ∧ published g ⊆ published g' ∧
  ∀ l s, deref (reg g) l = Some s → ∃ s', deref (reg g') l = Some s' ∧ secret s' = secret s.

Lemma cancel_ok_mono g g' x : extends g g' → cancel_ok g x → cancel_ok g' x.
Proof.
  intros (Ho & Hp & Hs).
  assert (A : ∀ p k, authorised g p k → authorised g' p k).
  { intros p [k|]; [|done]. intros (l & s & Hin & Hd & Hk).
    destruct (Hs l s Hd) as (s' & Hd' & Hk'). exists l, s'. split_and!; [by apply Ho|done|congruence]. }
  assert (R : ∀ p b, reached g p b → reached g' p b).
  { intros p b (l & Hl & Hb). exists l. split; [by apply Ho|by apply Hp]. }
  destruct x; simpl; try done; intros; try (by apply A); destruct_and?; split; auto.
Qed.

Lemma deref_modify_eq w l f s : deref w l = Some s → deref (modify l f w) l = Some (f s).
Proof. unfold deref, modify; simpl. intros H. by rewrite list_lookup_alter_eq, H. Qed.

Lemma deref_modify_ne w l f m : l ≠ m → deref (modify l f w) m = deref w m.
Proof. unfold deref, modify; simpl. intros H. by rewrite list_lookup_alter_ne. Qed.

Lemma deref_insert w now p sec u d m s :
  deref w m = Some s → deref (insertSession now p sec u d w).2 m = Some s.
Proof. unfold deref; simpl. intros H. by apply lookup_app_l_Some. Qed.

(** What a client's step does. *)
Record keffect (g : glob) (k : client) (g' : glob) (k' : client) : Prop := mkEffect {
  e_table : table_step (reg g) (place (TClient k)) (reg g') (place (TClient k'));
  e_self : thread_ok g' (TClient k');
  e_ext : extends g g';
  e_owner q m : place (TClient k') = Some (q, m) → place (TClient k) = Some (q, m) ∨ (q, m) ∈ owners g';
  e_owns c : (if decide (c ∈ busy g') then 1 else 0) + occ c (owns (TClient k)) =
    (if decide (c ∈ busy g) then 1 else 0) + occ c (owns (TClient k'));
  e_published l s b : deref (reg g') l = Some s → backend s = Some b →
    (l, b) ∈ published g' ∨ deref (reg g) l = Some s;
}.

Lemma extends_modify g f l bs pb :
  published g ⊆ pb → (∀ s, secret (f s) = secret s) →
  extends g (mkGlob (modify l f (reg g)) bs (owners g) pb).
Proof.
  intros Hp Hf. split_and!; [done|done|]. intros m s Hs. simpl.
  destruct (decide (l = m)) as [<-|Hne].
  - exists (f s). split; [by apply deref_modify_eq|apply Hf].
  - exists s. by rewrite deref_modify_ne.
Qed.

(** The two steps that write the session's backend. *)
Lemma keffect_modify g k k' now p l o bs pb :
  thread_ok g (TClient k) →
  place (TClient k) = Some (p, l) → place (TClient k') = Some (p, l) → shows (TClient k') = o →
  owns (TClient k') = owns (TClient k) → published g ⊆ pb → bs = busy g →
  (∀ b, o = Some b → (l, b) ∈ pb) →
  keffect g k (mkGlob (modify l (setBackend now o) (reg g)) bs (owners g) pb) k'.
Proof.
  intros Hok Hk Hk' Hs Hown Hpb -> Hin. unfold thread_ok in Hok. rewrite Hk in Hok.
  destruct Hok as (e & He & Hb). split; cbn [reg busy owners published].
  - rewrite Hk', <-Hk. by eapply ts_modify.
  - unfold thread_ok. rewrite Hk'. exists (setBackend now o e). split; [by apply deref_modify_eq|by rewrite Hs].
  - apply extends_modify; done.
  - intros q m. rewrite Hk, Hk'. auto.
  - intros c. rewrite Hown. lia.
  - intros m e' b Hd Hbb. destruct (decide (l = m)) as [<-|Hne].
    + rewrite (deref_modify_eq _ _ _ _ He) in Hd. simplify_eq/=. left. by apply Hin.
    + right. by rewrite deref_modify_ne in Hd by done.
Qed.

Lemma extends_world g w bs os pb :
  owners g ⊆ os → published g ⊆ pb →
  (∀ l s, deref (reg g) l = Some s → deref w l = Some s) → extends g (mkGlob w bs os pb).
Proof. intros Ho Hp Hd. split_and!; [done..|]. intros l s Hs. exists s. auto. Qed.

Lemma keffect_register g now p sec u d :
  valid_pid p → lookupSession p (reg g) = None →
  keffect g KNew
    (mkGlob (insertSession now p sec u d (reg g)).2 (busy g)
       ((p, length (heap (reg g))) :: owners g) (published g))
    (KIdle p (length (heap (reg g)))).
Proof.
  intros Hp Hn. split; cbn [reg busy owners published].
  - by apply ts_insert.
  - exists (newSession now (nextID (reg g)) sec u d). split; [|done].
    unfold deref. simpl. by rewrite list_lookup_middle.
  - apply extends_world; [set_solver..|]. intros. by apply deref_insert.
  - intros q m. simpl. intros. simplify_eq. right. apply list_elem_of_here.
  - intros c. simpl. done.
  - intros l s b. unfold deref. simpl. intros Hd Hb.
    apply lookup_app_Some in Hd as [Hd|[_ Hd]]; [by right|].
    apply list_lookup_singleton_Some in Hd as [_ <-]. by simpl in Hb.
Qed.

Lemma kstep_effect g k g' k' :
  kstep g k g' k' → thread_ok g (TClient k) →
  (∀ c, c ∈ owns (TClient k) → c ∈ busy g) → keffect g k g' k'.
Proof.
  intros Hst Hok Hbusy. destruct Hst as [now p sec u d Hp Hn|p l b Hc|now p l b|p l b|now p l b|p l].
  - by apply keffect_register.
  - split; cbn [reg busy owners published]; try done; simpl; auto with session; [by apply extends_world|].
    intros c. repeat case_decide; set_solver.
  - eapply keffect_modify; try done; [set_solver|]. intros b' ?. simplify_eq. apply list_elem_of_here.
  - assert (conn b ∈ busy g) by (apply Hbusy; simpl; set_solver).
    split; cbn [reg busy owners published]; try done; simpl; auto with session; [by apply extends_world|].
    intros c. repeat case_decide; set_solver.
  - eapply keffect_modify; done.
  - split; cbn [reg busy owners published]; try done; [by eapply ts_delete|by apply extends_world|].
    intros m s b Hd _. by right.
Qed.

Lemma xstep_ok s x : inv s → cancel_ok (glb s) x → cancel_ok (glb s) (xstep (glb s) x).
Proof.
  intros Hi Hx. destruct x as [p [k|]|p k|p k l|p k b| |]; simpl in *; try done.
  - destruct (lookupSession p (reg (glb s))) as [l|] eqn:El; [|done]. simpl.
    destruct (deref (reg (glb s)) l) as [e|] eqn:Ee; [|done].
    case_bool_decide; [|done]. simpl. exists l, e. split_and!; [by apply Hi|done|done].
  - destruct (lookupSession p (reg (glb s))) as [l|] eqn:El; [|done]. simpl.
    split; [done|]. by apply Hi.
  - destruct Hx as [Ha Ho]. destruct (deref (reg (glb s)) l) as [e|] eqn:Ee; [|done]. simpl.
    destruct (backend e) as [b|] eqn:Eb; [|done]. split; [done|]. exists l. split; [done|].
    by eapply i_published.
Qed.

(** *** Preservation *)

Lemma inv_client g g' ts1 ts2 k k' :
  inv (mkSys g (ts1 ++ TClient k :: ts2)) → keffect g k g' k' → inv (mkSys g' (ts1 ++ TClient k' :: ts2)).
Proof.
  intros Hi He. destruct (owned_step place _ _ _ _ _ _ (i_table _ Hi) (e_table _ _ _ _ He)) as [Ho Frame].
  split; cbn [glb threads].
  - exact Ho.
  - intros c. pose proof (i_owns _ Hi c) as H. cbn [glb threads] in H. rewrite total_mid in *.
    pose proof (e_owns _ _ _ _ He c). lia.
  - intros t Ht. assert (Hc : t = TClient k' ∨ t ∈ ts1 ++ ts2) by set_solver.
    destruct Hc as [->|Hin]; [apply He|].
    assert (Hok : thread_ok g t) by (apply (i_threads _ Hi); set_solver).
    destruct t as [kt|x]; [|simpl in *; eapply cancel_ok_mono; [apply He|done]].
    unfold thread_ok in *. destruct (place (TClient kt)) as [[q m]|] eqn:Ep; [|done].
    by rewrite (Frame _ _ _ Hin Ep).
  - intros q m Hq. destruct (table_step_back _ _ _ _ q m (o_wf _ _ _ (i_table _ Hi)) (e_table _ _ _ _ He) Hq)
      as [Hk'|[Hold _]]; [|by apply He, (i_owner _ Hi)].
    destruct (e_owner _ _ _ _ He q m Hk') as [Hk|]; [|done].
    apply He, (i_owner _ Hi). apply (o_placed _ _ _ (i_table _ Hi) (TClient k)); [set_solver|done].
  - intros l s b Hd Hb. destruct (e_published _ _ _ _ He l s b Hd Hb) as [|Hd']; [done|].
    apply (proj1 (proj2 (e_ext _ _ _ _ He))). by eapply (i_published _ Hi).
Qed.

Lemma cancel_inv_start : inv start.
Proof.
  split; simpl.
  - apply owned_init. set_solver.
  - intros c. unfold total; simpl. by rewrite decide_False by set_solver.
  - set_solver.
  - intros p l H. apply (wf_bind _ wf_init) in H as [_ H]. simpl in H. lia.
  - done.
Qed.

Lemma inv_spawn g ts t :
  inv (mkSys g ts) → place t = None → owns t = [] → thread_ok g t → inv (mkSys g (t :: ts)).
Proof.
  intros Hi Hp Ho Hok. split; cbn [glb threads].
  - apply owned_spawn; [apply Hi|done].
  - intros c. rewrite total_cons, Ho. apply (i_owns _ Hi).
  - intros u [->|Hu]%elem_of_cons; [done|by apply (i_threads _ Hi)].
  - apply (i_owner _ Hi).
  - apply (i_published _ Hi).
Qed.

Lemma inv_cancel_step g ts1 x ts2 :
  inv (mkSys g (ts1 ++ TCancel x :: ts2)) → inv (mkSys g (ts1 ++ TCancel (xstep g x) :: ts2)).
Proof.
  intros Hi. split; cbn [glb threads].
  - eapply (owned_step place (reg g) ts1 (TCancel x) ts2 (reg g)); [apply Hi|apply ts_same].
  - intros c. pose proof (i_owns _ Hi c) as H. cbn [threads] in H. rewrite total_mid in *. exact H.
  - intros t Ht. assert (Hc : t = TCancel (xstep g x) ∨ t ∈ ts1 ++ ts2) by set_solver.
    destruct Hc as [->|Hin]; [|apply (i_threads _ Hi); set_solver].
    apply (xstep_ok _ x Hi). apply (i_threads _ Hi (TCancel x)). set_solver.
  - apply (i_owner _ Hi).
  - apply (i_published _ Hi).
Qed.

Lemma cancel_inv_step s s' : sstep s s' → inv s → inv s'.
Proof.
  intros Hst Hi. destruct Hst as [g ts1 t ts2 g' t' Ht| |].
  - destruct Ht as [k g' k' Hk|x]; [|by apply inv_cancel_step].
    eapply inv_client; [done|]. apply kstep_effect; [done|apply (i_threads _ Hi); set_solver|].
    intros c Hc. pose proof (i_owns _ Hi c) as Ho. cbn [glb threads] in Ho. rewrite total_mid in Ho.
    apply occ_elem_of in Hc. case_decide; [done|lia].
  - by apply inv_spawn.
  - by apply inv_spawn.
Qed.

Lemma cancel_reachable_inv s : reachable s → inv s.
Proof.
  intros H. unfold reachable in H. apply rtc_ind_r with (P := inv) (x := start) in H; [done| |].
  - apply cancel_inv_start.
  - intros. by eapply cancel_inv_step.
Qed.

(** ** What a cancel can reach *)

(** C16: In every interleaving of clients and cancel requests, a request that
    is forwarded named a pid under which a session with exactly the given
    secret had been registered, and went to a backend that a session of that
    pid had published; unless the pid was given out twice, to a backend of that
    same session. *)
Theorem cancel_authorised s p k b :
  reachable s → TCancel (XSent p (Some k) b) ∈ threads s →
  ∃ l e l', (p, l) ∈ owners (glb s) ∧ deref (reg (glb s)) l = Some e ∧ secret e = k ∧
    (p, l') ∈ owners (glb s) ∧ (l', b) ∈ published (glb s) ∧
    (NoDup (owners (glb s)).*1 → l' = l).
Proof.
  intros Hr Ht. apply cancel_reachable_inv in Hr as Hi. pose proof (i_threads _ Hi _ Ht) as (Ha & l' & Ho & Hp).
  destruct Ha as (l & e & Hl & He & Hk). exists l, e, l'. split_and!; try done.
  intros Hn. apply list_elem_of_lookup in Ho as [i Hio], Hl as [j Hjl].
  assert (i = j); [|by simplify_eq].
  eapply (NoDup_lookup _ i j p Hn); by rewrite list_lookup_fmap, ?Hio, ?Hjl.
Qed.

(** A backend is shown by two registered sessions at once only while one of
    them has returned it to the pool and not yet cleared it: otherwise a cancel
    that names a session reaches a backend which that session alone is using. *)
Theorem shown_backend_exclusive s p q l m e f b c :
  reachable s →
  lookupSession p (reg (glb s)) = Some l → deref (reg (glb s)) l = Some e → backend e = Some b →
  lookupSession q (reg (glb s)) = Some m → deref (reg (glb s)) m = Some f → backend f = Some c →
  conn b = conn c → p ≠ q →
  TClient (KGiven p l b) ∈ threads s ∨ TClient (KGiven q m c) ∈ threads s.
Proof.
  intros Hr Hp He Hb Hq Hf Hc Hbc Hne. apply cancel_reachable_inv in Hr as Hi.
  assert (K : ∀ p l e b, lookupSession p (reg (glb s)) = Some l → deref (reg (glb s)) l = Some e →
    backend e = Some b → TClient (KGiven p l b) ∈ threads s ∨ TClient (KHeld p l b) ∈ threads s).
  { clear -Hi. intros p l e b Hp He Hb. destruct (o_owner _ _ _ (i_table _ Hi) p l Hp) as (t & Ht & Hpl).
    pose proof (i_threads _ Hi t Ht) as Hok. destruct t as [k|]; [|done].
    unfold thread_ok in Hok. rewrite Hpl in Hok. destruct Hok as (e' & He' & Hb').
    assert (Hs : shows (TClient k) = Some b) by congruence.
    destruct k; simplify_eq/=; auto. }
  destruct (K p l e b) as [|H1]; [done..|by left|].
  destruct (K q m f c) as [|H2]; [done..|by right|]. exfalso.
  apply list_elem_of_lookup in H1 as [i H1], H2 as [j H2].
  assert (i ≠ j) by (intros ->; simplify_eq).
  pose proof (total_two (λ t, occ (conn b) (owns t)) _ i j _ _ H1 H2 ltac:(done)) as Htwo.
  rewrite (i_owns _ Hi) in Htwo. simpl in Htwo. rewrite Hbc, decide_True in Htwo by done.
  case_decide; lia.
Qed.

(** *** The window between Release and setBackend(nil)

    relay.go returns the connection to the pool first and clears the session's
    backend second.  In between the next session can be running on it. *)

Definition shared_backend : backendConn := mkBackendConn 0 "10.0.0.1:5432" 900 [9; 8; 7; 6]%Z None.
Definition key_a : bytes := [1; 1; 1; 1]%Z.
Definition key_b : bytes := [2; 2; 2; 2]%Z.

Definition with_a : world := (insertSession 1 5 key_a "a" "app" init_world).2.
Definition shown_a : world := modify 0 (setBackend 2 (Some shared_backend)) with_a.
Definition with_b : world := (insertSession 3 6 key_b "b" "app" shown_a).2.
Definition shown_b : world := modify 1 (setBackend 4 (Some shared_backend)) with_b.

Definition busy_one : gset nat := {[ conn shared_backend ]}.

Definition after_cancel : sys :=
  mkSys (mkGlob shown_b busy_one [(6%Z, 1); (5%Z, 0)] [(1, shared_backend); (0, shared_backend)])
    [TCancel (XSent 5 (Some key_a) shared_backend);
     TClient (KHeld 6 1 shared_backend); TClient (KGiven 5 0 shared_backend)].

Ltac client_step ts1 ts2 := eapply rtc_l; [apply (s_thread _ ts1 _ ts2); apply t_client|].

(** A cancel that is looked up, checked and sent entirely after session 5 gave
    its connection back still reaches it, when session 6 is running on it. *)
Lemma cancel_hits_next_session : reachable after_cancel.
Proof.
  unfold reachable, after_cancel, start.
  eapply rtc_l; [apply s_connect|].
  client_step (@nil thread) (@nil thread).
  { apply (k_register _ 1 5 key_a "a" "app"); [unfold valid_pid; lia|by vm_compute]. }
  client_step (@nil thread) (@nil thread). { apply (k_acquire _ 5 _ shared_backend). set_solver. }
  client_step (@nil thread) (@nil thread). { apply (k_publish _ 2). }
  client_step (@nil thread) (@nil thread). { apply k_give. }
  eapply rtc_l; [apply s_connect|].
  client_step (@nil thread) [TClient (KGiven 5 0 shared_backend)].
  { apply (k_register _ 3 6 key_b "b" "app"); [unfold valid_pid; lia|by vm_compute]. }
  client_step (@nil thread) [TClient (KGiven 5 0 shared_backend)].
  { apply (k_acquire _ 6 _ shared_backend). simpl. set_solver. }
  client_step (@nil thread) [TClient (KGiven 5 0 shared_backend)]. { apply (k_publish _ 4). }
  eapply rtc_l; [apply (s_cancel _ _ 5 (Some key_a))|].
  do 4 (eapply rtc_l; [apply (s_thread _ [] _ [TClient (KHeld 6 1 shared_backend);
    TClient (KGiven 5 0 shared_backend)]); apply t_cancel|]).
  match goal with |- rtc _ ?a ?b => replace a with b; [constructor|] end.
  vm_compute. reflexivity.
Qed.

Lemma cancel_authorised_witness :
  ∃ l e l', (5%Z, l) ∈ owners (glb after_cancel) ∧ deref (reg (glb after_cancel)) l = Some e ∧
    secret e = key_a ∧ (5%Z, l') ∈ owners (glb after_cancel) ∧
    (l', shared_backend) ∈ published (glb after_cancel) ∧
    (NoDup (owners (glb after_cancel)).*1 → l' = l).
Proof.
  apply (cancel_authorised after_cancel 5 key_a shared_backend cancel_hits_next_session).
  apply list_elem_of_here.
Defined.

Lemma shown_backend_exclusive_witness :
  TClient (KGiven 5 0 shared_backend) ∈ threads after_cancel ∨
  TClient (KGiven 6 1 shared_backend) ∈ threads after_cancel.
Proof.
  eapply (shown_backend_exclusive after_cancel 5 6 0 1);
    [exact cancel_hits_next_session|by vm_compute..|done|done].
Defined.

End SessionCancel.
