(* ===== verification/BackendConnect.v ===== *)
(** * Opening backend connections

    src/backend_connect.go, the connector of SCRAM pass-through, and the dialer
    of the other pools with its helpers in src/main.go: which hosts are tried,
    when TLS is negotiated, how the startup handshake is driven, and how a
    later cancel for the connection must be dialed.  pgconn (the DSN parser and
    the connector of ordinary pools) is a parameter. *)

From Stdlib Require Import Ascii.
From stdpp Require Import pretty.
From S2P Require Import Prelude GoStrings GoCrypto HBA Scram Session.
Import Session.
Open Scope string_scope.
Open Scope list_scope.
Open Scope Z_scope.

Module BackendConnect.

(** ** Parsed connection strings *)

Record fallback := mkFallback { fb_host : string; fb_port : Z; fb_tls : option tlsConfig }.

(** The fields of [pgconn.Config] the code reads. *)
Record pgConfig := mkPgConfig {
  Host : string;
  Port : Z;
  cfgDatabase : string;
  TLSConfig : option tlsConfig;
  Fallbacks : list fallback;
  RuntimeParams : gmap string string;
}.

Record connectTarget := mkConnTarget { host : string; port : Z; tls : option tlsConfig }.

Definition connectTargets (cfg : pgConfig) : list connectTarget :=
  mkConnTarget (Host cfg) (Port cfg) (TLSConfig cfg) ::
  ((λ fb, mkConnTarget (fb_host fb) (fb_port fb) (fb_tls fb)) <$> Fallbacks cfg).

(** [strings.Contains]. *)
Fixpoint Contains (s sub : string) : bool :=
  HasPrefix s sub || match s with EmptyString => false | String _ s => Contains s sub end.

Definition dsnRequiresTLS (cfg : option pgConfig) (dsn : string) : bool :=
  match cfg with
  | Some c => bool_decide (is_Some (TLSConfig c)) && bool_decide (Fallbacks c = [])
  | None => false
  end ||
  (let lower := ToLower dsn in
   Contains lower "sslmode=require" || Contains lower "sslmode=verify-ca" ||
   Contains lower "sslmode=verify-full").

(** [net.JoinHostPort] with the port printed by [%d]. *)
Definition has_colon (s : string) : bool := bool_decide (is_Some (after_byte ":" s)).
Definition JoinHostPort (h p : string) : string :=
  if has_colon h then "[" +:+ h +:+ "]:" +:+ p else h +:+ ":" +:+ p.

(** ** Cancel parameters of a connection *)

Inductive connErr :=
| ParseFailed | TLSRequired | NoCredentials
| DialFailed | DeadlineFailed | TLSFailed (e : sslErr) | SendStartup
| HsReceive | HsScram (e : Scram.scramErr) | HsNotAuthenticated | HsRefused (message code : string)
| HsUnsupported | HsUnexpected | ClearDeadline | NoCancelTLS | NoTargets | CtxDone
| ConnectFailed | SyncFailed | HijackFailed.

(** [cancelTLSConfigFor]: [isTLS] is the type assertion on the connection. *)
Definition cancelTLSConfigFor (isTLS : bool) (parsed : option pgConfig) :
  result connErr (option tlsConfig) :=
  if negb isTLS then Ok None
  else match parsed with
       | Some c => match TLSConfig c with Some t => Ok (Some t) | None => Err NoCancelTLS end
       | None => Err NoCancelTLS
       end.

(** The remote address of a connection: a TCP peer, or something else. *)
Inductive peer := TCPPeer (a : string) | OtherPeer.

Definition connectedAddr (c : option peer) (configured : string) : string :=
  match c with Some (TCPPeer a) => a | _ => configured end.

(** ** The startup handshake *)

(** What [fe.Receive] returns; the end of the list is a receive error. *)
Inductive smsg :=
| MSASL (mechanisms : list bytes)
| MSASLContinue (data : bytes)
| MSASLFinal (data : bytes)
| MAuthOk
| MKeyData (p : Z) (key : bytes)
| MParameterStatus
| MNotice
| MReady
| MError (message code : string)
| MOtherAuth      (** cleartext, MD5, GSS and GSS continue *)
| MOther.

Definition received_as (m : option smsg) : Scram.received :=
  match m with
  | None => Scram.RecvErr
  | Some (MSASLContinue d) => Scram.SASLContinue d
  | Some (MSASLFinal d) => Scram.SASLFinal d
  | Some _ => Scram.OtherMsg
  end.

(** The random nonce and the two flushes of one SASL exchange. *)
Record saslEnv := mkSasl { nonceRand : option bytes; flush1 : bool; flush2 : bool }.

(** The loop, with the number of exchanges so far.  A completed exchange has
    consumed two more messages. *)
Fixpoint handshakeLoop (pc : Scram.passthroughCreds) (envs : nat → saslEnv) (n : nat)
    (authenticated : bool) (key : Z * bytes) (ms : list smsg) :
  result connErr (Z * bytes) * list bytes :=
  match ms with
  | [] => (Err HsReceive, [])
  | m :: ms =>
      match m with
      | MSASL mechanisms =>
          let e := envs n in
          match Scram.scramClientAuth pc mechanisms (nonceRand e) (flush1 e) (received_as (ms !! 0%nat))
                  (flush2 e) (received_as (ms !! 1%nat)), ms with
          | (out, Ok _), _ :: _ :: ms =>
              let '(r, out') := handshakeLoop pc envs (S n) authenticated key ms in (r, out ++ out')
          | (out, Err err), _ => (Err (HsScram err), out)
          | (out, Ok _), _ => (Err HsReceive, out)
          end
      | MAuthOk => handshakeLoop pc envs n true key ms
      | MKeyData p k => handshakeLoop pc envs n authenticated (p, k) ms
      | MParameterStatus | MNotice => handshakeLoop pc envs n authenticated key ms
      | MReady => (if authenticated then Ok key else Err HsNotAuthenticated, [])
      | MError message code => (Err (HsRefused message code), [])
      | MOtherAuth => (Err HsUnsupported, [])
      | MSASLContinue _ | MSASLFinal _ | MOther => (Err HsUnexpected, [])
      end
  end.

Definition completeBackendHandshake (pc : Scram.passthroughCreds) (envs : nat → saslEnv)
    (ms : list smsg) : result connErr (Z * bytes) * list bytes :=
  handshakeLoop pc envs 0 false (0, []) ms.

(** ** One connection attempt *)

(** Everything the network answers to one attempt. *)
Record dialNet := mkDialNet {
  dialed : bool;
  deadlineSet : bool;
  sslAnswer : sslNet;
  startupFlushed : bool;
  messages : list smsg;
  sasl : nat → saslEnv;
  deadlineCleared : bool;
}.

(** [startBackendTLS] is the same negotiation as the cancel connection's. *)
Definition startBackendTLS : sslNet → tlsConfig → result sslErr unit * list wire := startCancelTLS.

Definition startupParams (cfg : pgConfig) (database user : string) : gmap string string :=
  RuntimeParams cfg ∪ <["user" := user]> (<["database" := database]> ∅).

(** A message inside TLS or in the clear. *)
Definition put (sealed : bool) (m : wireMsg) : wire := if sealed then Sealed m else Clear m.

(** From the startup message on. *)
Definition speak (cid : nat) (net : dialNet) (cfg : pgConfig) (a : string) (sealed : bool)
    (database user : string) (pc : Scram.passthroughCreds) : result connErr backendConn * list wire :=
  if negb (startupFlushed net) then (Err SendStartup, [])
  else
    let hello := put sealed (StartupMessage (startupParams cfg database user)) in
    let '(r, out) := completeBackendHandshake pc (sasl net) (messages net) in
    (let? (p, key) := r in
     if negb (deadlineCleared net) then Err ClearDeadline
     else let? ct := cancelTLSConfigFor sealed (Some cfg) in
          Ok (mkBackendConn cid a p key ct),
     hello :: (put sealed ∘ SASLData <$> out)).

(** The deferred close. *)
Definition close_on_error {A} (r : result connErr A * list wire) : result connErr A * list wire :=
  match r with (Ok a, out) => (Ok a, out) | (Err e, out) => (Err e, out ++ [Hangup]) end.

Definition dialAndHandshake (cid : nat) (net : dialNet) (cfg : pgConfig) (target : connectTarget)
    (database user : string) (pc : Scram.passthroughCreds) : result connErr backendConn * list wire :=
  let a := JoinHostPort (host target) (pretty (port target)) in
  if negb (dialed net) then (Err DialFailed, [])
  else
    let '(r, out) := close_on_error
      (if negb (deadlineSet net) then (Err DeadlineFailed, [])
       else match tls target with
            | None => speak cid net cfg a false database user pc
            | Some tc =>
                match startBackendTLS (sslAnswer net) tc with
                | (Err e, out) => (Err (TLSFailed e), out)
                | (Ok _, out) =>
                    let '(r, out') := speak cid net cfg a true database user pc in (r, out ++ out')
                end
            end) in
    (r, Dialed a :: out).

(** ** Trying the targets *)

(** [nets i] answers the i-th attempt; the flag is [ctx.Err() != nil] after it
    failed. *)
Fixpoint tryTargets (cid : nat) (nets : nat → dialNet * bool) (i : nat) (lastErr : option connErr)
    (cfg : pgConfig) (ts : list connectTarget) (database user : string) (pc : Scram.passthroughCreds) :
  result connErr backendConn * list wire :=
  match ts with
  | [] => (Err (default NoTargets lastErr), [])
  | t :: ts =>
      let '(net, cancelled) := nets i in
      match dialAndHandshake cid net cfg t database user pc with
      | (Ok b, out) => (Ok b, out)
      | (Err e, out) =>
          if cancelled then (Err CtxDone, out)
          else let '(r, out') := tryTargets cid nets (S i) (Some e) cfg ts database user pc in
               (r, out ++ out')
      end
  end.

Definition connectPassthrough (cid : nat) (nets : nat → dialNet * bool) (cfg : pgConfig)
    (database user : string) (pc : Scram.passthroughCreds) : result connErr backendConn * list wire :=
  tryTargets cid nets 0 None cfg (connectTargets cfg) database user pc.

(** ** The dialers of the pools *)

Section dialers.
Context (ParseConfig : string → option pgConfig).

(** The check both constructors make once, when the pool is built. *)
Definition parseOnce (dsn : string) (requireTLS : bool) : result connErr pgConfig :=
  match ParseConfig dsn with
  | None => Err ParseFailed
  | Some c => if requireTLS && negb (dsnRequiresTLS (Some c) dsn) then Err TLSRequired else Ok c
  end.

Definition newPassthroughDialer (dsn backendUser : string) (store : Scram.clientKeyStore)
    (requireTLS : bool) (cid : nat) (nets : nat → dialNet * bool) :
  result connErr backendConn * list wire :=
  match parseOnce dsn requireTLS with
  | Err e => (Err e, [])
  | Ok parsed =>
      match Scram.lookup backendUser store with
      | None => (Err NoCredentials, [])
      | Some pc => connectPassthrough cid nets parsed (cfgDatabase parsed) backendUser pc
      end
  end.

(** [pgconn.HijackedConn] *)
Record hijacked := mkHijacked { h_tls : bool; h_peer : peer; h_pid : Z; h_secret : bytes }.

(** What pgconn did: connected or not, synced or not, hijacked or not. *)
Record pgNet := mkPgNet { connected : bool; synced : bool; hijack : option hijacked }.

Definition newDialBackend (dsn a : string) (requireTLS : bool) (cid : nat) (net : pgNet) :
  result connErr backendConn :=
  let? parsed := parseOnce dsn requireTLS in
  if negb (connected net) then Err ConnectFailed
  else if negb (synced net) then Err SyncFailed
  else match hijack net with
       | None => Err HijackFailed
       | Some h =>
           let? ct := cancelTLSConfigFor (h_tls h) (Some parsed) in
           Ok (mkBackendConn cid (connectedAddr (Some (h_peer h)) a) (h_pid h) (h_secret h) ct)
       end.
End dialers.

(** ** The health check *)

Inductive hcMsg := HcError (message : string) | HcReady | HcOther.

Inductive hcErr := HcDeadline | HcSend | HcReceive | HcBackend (message : string).

(** The end of the list is a receive error. *)
Fixpoint hcLoop (ms : list hcMsg) : result hcErr unit :=
  match ms with
  | [] => Err HcReceive
  | HcError m :: _ => Err (HcBackend m)
  | HcReady :: _ => Ok tt
  | HcOther :: ms => hcLoop ms
  end.

(** The result, and whether the deadline it armed has been cleared. *)
Definition healthCheckWithTimeout (setOk flushOk : bool) (ms : list hcMsg) : result hcErr unit * bool :=
  if negb setOk then (Err HcDeadline, false)
  else (if negb flushOk then Err HcSend else hcLoop ms, true).

End BackendConnect.
