(* ===== verification/BackendConnectTheorems.v ===== *)
(** * Opening backend connections: what is guaranteed

    The handshake accepts only an authenticated backend, nothing but the
    SSLRequest is sent in the clear to a target that asks for TLS, every socket
    that is not returned is closed, and the first target that works is used. *)

From stdpp Require Import pretty.
From S2P Require Import Prelude GoStrings GoCrypto HBA Scram ScramTheorems Session BackendConnect.
Import Session BackendConnect.
Open Scope string_scope.
Open Scope list_scope.
Open Scope Z_scope.

Module BackendConnectTheorems.

(** ** The handshake *)

(** The cancel key announced last. *)
Definition note_key (k : Z * bytes) (m : smsg) : Z * bytes :=
  match m with MKeyData p s => (p, s) | _ => k end.
Definition last_key (ms : list smsg) (k : Z * bytes) : Z * bytes := foldl note_key k ms.

Definition expected (m : smsg) : Prop :=
  match m with MReady | MError _ _ | MOtherAuth | MOther => False | _ => True end.

(** A SASL request followed by a server that signed the whole exchange with
    the verifier's server key. *)
Definition mutual (pc : Scram.passthroughCreds) (ms : list smsg) (i : nat) : Prop :=
  ∃ buf sf f data,
    ms !! S i = Some (MSASLContinue sf) ∧ ms !! S (S i) = Some (MSASLFinal data) ∧
    Scram.parseServerFirst sf = Ok f ∧
    Scram.has_prefix (Scram.f_nonce f) (GoCrypto.EncodeToString buf) = true ∧
    Scram.f_salt f = Scram.Salt (Scram.creds pc) ∧ Scram.f_iters f = Scram.Iters (Scram.creds pc) ∧
    GoCrypto.DecodeString (drop 2 data) = Some (GoCrypto.hmacSHA256 (Scram.ServerKey (Scram.creds pc))
      (Scram.authMessage (Scram.bareOf (GoCrypto.EncodeToString buf)) sf (Scram.withoutProofOf (Scram.f_nonce f)))).

Definition accepted (pc : Scram.passthroughCreds) (auth : bool) (k : Z * bytes) (ms : list smsg)
    (key : Z * bytes) : Prop :=
  ∃ pre rest, ms = pre ++ MReady :: rest ∧ (auth = true ∨ MAuthOk ∈ pre) ∧ Forall expected pre ∧
    key = last_key pre k ∧ ∀ i mechs, pre !! i = Some (MSASL mechs) → mutual pc pre i.

Lemma received_continue m sf : received_as m = Scram.SASLContinue sf → m = Some (MSASLContinue sf).
Proof. destruct m as [[]|]; simpl; congruence. Qed.
Lemma received_final m d : received_as m = Scram.SASLFinal d → m = Some (MSASLFinal d).
Proof. destruct m as [[]|]; simpl; congruence. Qed.

(** One more uninteresting message in front. *)
Lemma accepted_cons pc auth auth' k m ms key :
  accepted pc auth' (note_key k m) ms key → expected m → (∀ mechs, m ≠ MSASL mechs) →
  (auth' = true → auth = true ∨ m = MAuthOk) → accepted pc auth k (m :: ms) key.
Proof.
  intros (pre & rest & -> & Ha & Hf & -> & Hm) He Hn Hau. exists (m :: pre), rest. split_and!; try done.
  - destruct Ha as [Ha|Ha]; [|right; by right]. destruct (Hau Ha) as [|<-]; [by left|]. right; left.
  - by constructor.
  - intros [|i] mechs Hi; simplify_eq/=; [by destruct (Hn mechs)|]. by apply (Hm i mechs).
Qed.

Lemma handshakeLoop_sound pc envs ms : ∀ n auth k key out,
  handshakeLoop pc envs n auth k ms = (Ok key, out) → accepted pc auth k ms key.
Proof.
  induction ms as [ms IH] using (induction_ltof1 _ length). unfold ltof in IH.
  destruct ms as [|m ms]; intros n auth k key out; [done|]. simpl.
  destruct m; try done; intros H.
  - destruct (Scram.scramClientAuth _ _ _ _ _ _ _) as [o [[]|]] eqn:E; [|by destruct ms as [|? []]].
    destruct ms as [|m1 [|m2 ms]]; try done. simpl in E.
    destruct (handshakeLoop pc envs (S n) auth k ms) as [r o'] eqn:E'. simplify_eq.
    apply IH in E' as (pre & rest & -> & Ha & Hf & -> & Hm); [|simpl; lia].
    apply ScramTheorems.passthrough_mutual in E as (buf & sf & f & data & _ & H1 & H2 & Hrest).
    apply (received_continue (Some m1)) in H1. apply (received_final (Some m2)) in H2. simplify_eq.
    exists (MSASL mechanisms :: MSASLContinue sf :: MSASLFinal data :: pre), rest. split_and!; try done.
    + destruct Ha; [by left|right; set_solver].
    + by repeat constructor.
    + intros [|[|[|i]]] mechs Hi; simplify_eq/=; [|by apply (Hm i mechs)].
      exists buf, sf, f, data. destruct Hrest as (? & ? & ? & ? & _ & ?). done.
  - eapply accepted_cons; [eapply IH; [simpl; lia|exact H]|done|done|auto].
  - eapply accepted_cons; [eapply IH; [simpl; lia|exact H]|done|done|auto].
  - eapply accepted_cons; [eapply IH; [simpl; lia|exact H]|done|done|auto].
  - eapply accepted_cons; [eapply IH; [simpl; lia|exact H]|done|done|auto].
  - destruct auth; simplify_eq. exists [], ms. split_and!; by left || constructor || done.
Qed.

(** C22: The startup handshake succeeds only if the backend said AuthenticationOk
    before ReadyForQuery and sent nothing unexpected in between; every SASL
    exchange it asked for ended with a server signature under the user's own
    verifier; and the cancel key returned is the last one it announced. *)
Theorem handshake_sound pc envs ms key out :
  completeBackendHandshake pc envs ms = (Ok key, out) →
  ∃ pre rest, ms = pre ++ MReady :: rest ∧ MAuthOk ∈ pre ∧ Forall expected pre ∧
    key = last_key pre (0, []) ∧ ∀ i mechs, pre !! i = Some (MSASL mechs) → mutual pc pre i.
Proof.
  intros H. apply handshakeLoop_sound in H as (pre & rest & H1 & [H2|H2] & H3); [done|].
  by exists pre, rest.
Qed.

(** A backend need not prove anything, though: one that skips SASL and says
    AuthenticationOk at once is accepted. *)
Lemma handshake_without_scram pc envs :
  completeBackendHandshake pc envs [MAuthOk; MKeyData 7 [1; 2; 3; 4]; MReady] = (Ok (7, [1; 2; 3; 4]), []).
Proof. done. Qed.

Definition no_sasl (n : nat) : saslEnv := mkSasl None true true.

Lemma handshake_sound_witness :
  ∃ pre rest, [MParameterStatus; MAuthOk; MKeyData 7 [1]; MKeyData 8 [2]; MReady] = pre ++ MReady :: rest ∧
    MAuthOk ∈ pre ∧ Forall expected pre ∧ (8, [2]) = last_key pre (0, []) ∧
    ∀ i mechs, pre !! i = Some (MSASL mechs) → mutual (Scram.mkPass [] (Scram.mkCreds [] 0 [] [])) pre i.
Proof.
  apply (handshake_sound _ no_sasl _ _ []). reflexivity.
Defined.

(** ** One attempt *)

Definition dials (l : list wire) : nat := total (λ x, match x with Dialed _ => 1 | _ => 0 end)%nat l.
Definition hangups (l : list wire) : nat := total (λ x, match x with Hangup => 1 | _ => 0 end)%nat l.
Definition owed {E A} (r : result E A) : nat := if is_ok r then 1 else 0.

Lemma dials_app l k : dials (l ++ k) = (dials l + dials k)%nat.
Proof. apply total_app. Qed.
Lemma hangups_app l k : hangups (l ++ k) = (hangups l + hangups k)%nat.
Proof. apply total_app. Qed.

(** Messages neither open nor close a socket. *)
Definition quiet (l : list wire) : Prop := dials l = 0%nat ∧ hangups l = 0%nat.

Lemma quiet_put sealed ms : quiet (put sealed <$> ms).
Proof.
  split; apply total_zero; intros x (m & -> & _)%list_elem_of_fmap; by destruct sealed.
Qed.

Lemma speak_quiet cid net cfg a sealed d u pc : quiet (speak cid net cfg a sealed d u pc).2.
Proof.
  unfold speak. destruct (startupFlushed net); [|done]. simpl.
  destruct (completeBackendHandshake _ _ _) as [r out]. simpl.
  pose proof (quiet_put sealed (StartupMessage (startupParams cfg d u) :: (SASLData <$> out))) as K.
  rewrite fmap_cons, <-list_fmap_compose in K. exact K.
Qed.

Lemma ssl_quiet net tc : quiet (startBackendTLS net tc).2.
Proof. unfold startBackendTLS, startCancelTLS. repeat (break_goal; simpl); done. Qed.

Lemma close_on_error_balance {A} (r : result connErr A * list wire) a :
  quiet r.2 →
  dials (Dialed a :: (close_on_error r).2) = (hangups (Dialed a :: (close_on_error r).2) + owed (close_on_error r).1)%nat.
Proof.
  destruct r as [[x|e] out]; cbn [close_on_error fst snd]; intros [H1 H2];
    change (Dialed a :: ?l) with ([Dialed a] ++ l);
    rewrite !dials_app, !hangups_app, H1, H2; done.
Qed.

Lemma dial_balance cid net cfg t d u pc :
  let '(r, out) := dialAndHandshake cid net cfg t d u pc in dials out = (hangups out + owed r)%nat.
Proof.
  unfold dialAndHandshake. destruct (dialed net); [|done]. simpl.
  match goal with |- context [close_on_error ?x] => set (r := x) end.
  pose proof (close_on_error_balance r (JoinHostPort (host t) (pretty (port t)))) as K.
  destruct (close_on_error r) as [r' out] eqn:E. apply K. unfold r. clear.
  destruct (deadlineSet net); [|done]. simpl. destruct (tls t) as [tc|]; [|apply speak_quiet].
  pose proof (ssl_quiet (sslAnswer net) tc) as Hq. destruct (startBackendTLS _ _) as [[[]|] out]; [|done].
  pose proof (speak_quiet cid net cfg (JoinHostPort (host t) (pretty (port t))) true d u pc) as Hs.
  destruct (speak _ _ _ _ _ _ _ _) as [r out']. unfold quiet in *. simpl in *.
  rewrite dials_app, hangups_app. lia.
Qed.

Lemma put_clear m ms : Clear m ∉ (put true <$> ms : list wire).
Proof. intros (x & ? & _)%list_elem_of_fmap. done. Qed.

Lemma speak_sealed cid net cfg a d u pc m : Clear m ∉ (speak cid net cfg a true d u pc).2.
Proof.
  unfold speak. destruct (startupFlushed net); [|set_solver]. simpl.
  destruct (completeBackendHandshake _ _ _) as [r out]. simpl.
  pose proof (put_clear m (StartupMessage (startupParams cfg d u) :: (SASLData <$> out))) as K.
  rewrite fmap_cons, <-list_fmap_compose in K. exact K.
Qed.

Lemma dial_tls cid net cfg t tc d u pc m :
  tls t = Some tc → Clear m ∈ (dialAndHandshake cid net cfg t d u pc).2 → m = SSLRequest.
Proof.
  intros Ht. unfold dialAndHandshake. rewrite Ht. destruct (dialed net); [|set_solver]. simpl.
  destruct (deadlineSet net); simpl; [|set_solver].
  unfold startBackendTLS, startCancelTLS.
  pose proof (speak_sealed cid net cfg (JoinHostPort (host t) (pretty (port t))) d u pc m) as K.
  destruct (speak _ _ _ _ _ _ _ _) as [[b|e] out']; simpl in *; repeat (break_goal; simpl); set_solver.
Qed.

(** What a connection that was opened went through. *)
Lemma speak_ok cid net cfg a sealed d u pc b out :
  speak cid net cfg a sealed d u pc = (Ok b, out) →
  ∃ p key sent ct, completeBackendHandshake pc (sasl net) (messages net) = (Ok (p, key), sent) ∧
    b = mkBackendConn cid a p key ct ∧
    (if sealed then ct = TLSConfig cfg ∧ is_Some ct else ct = None) ∧
    put sealed (StartupMessage (startupParams cfg d u)) ∈ out.
Proof.
  unfold speak, cancelTLSConfigFor. destruct (startupFlushed net); [|done]. cbn [negb].
  destruct (completeBackendHandshake pc (sasl net) (messages net)) as [[[p key]|e] sent]; [|done].
  destruct (deadlineCleared net); [|done]. cbn [negb].
  destruct sealed; cbn [negb]; [destruct (TLSConfig cfg) as [c|] eqn:Ec; [|done]|];
    intros [= <- <-]; eexists p, key, sent, _; (split_and!; [done..|]); set_solver.
Qed.

Lemma dial_ok cid net cfg t d u pc b out :
  dialAndHandshake cid net cfg t d u pc = (Ok b, out) →
  ∃ p key sent ct, completeBackendHandshake pc (sasl net) (messages net) = (Ok (p, key), sent) ∧
    b = mkBackendConn cid (JoinHostPort (host t) (pretty (port t))) p key ct ∧
    (if bool_decide (is_Some (tls t)) then ct = TLSConfig cfg ∧ is_Some ct else ct = None) ∧
    put (bool_decide (is_Some (tls t))) (StartupMessage (startupParams cfg d u)) ∈ out.
Proof.
  unfold dialAndHandshake. destruct (dialed net); [|done]. cbn [negb].
  destruct (deadlineSet net); [|done]. cbn [negb].
  destruct (tls t) as [tc|].
  - destruct (startBackendTLS (sslAnswer net) tc) as [[[]|] out0]; [|done].
    destruct (speak _ _ _ _ _ _ _ _) as [[b'|e] out'] eqn:E; [|done]. intros [= <- <-].
    apply speak_ok in E as (p & key & sent & ct & H1 & H2 & H3 & H4).
    exists p, key, sent, ct. split_and!; [done..|]. simpl in *. set_solver.
  - destruct (speak _ _ _ _ _ _ _ _) as [[b'|e] out'] eqn:E; [|done]. intros [= <- <-].
    apply speak_ok in E as (p & key & sent & ct & H1 & H2 & H3 & H4).
    exists p, key, sent, ct. split_and!; [done..|]. simpl in *. set_solver.
Qed.

(** ** Trying the targets *)

Section targets.
Context (cid : nat) (nets : nat → dialNet * bool) (cfg : pgConfig) (database user : string)
  (pc : Scram.passthroughCreds).

Definition attempt (i : nat) (t : connectTarget) : result connErr backendConn * list wire :=
  dialAndHandshake cid (nets i).1 cfg t database user pc.

(** Attempt [i] failed and the caller was still waiting. *)
Definition passed_over (i : nat) (t : connectTarget) : Prop :=
  is_ok (attempt i t).1 = false ∧ (nets i).2 = false.

Lemma tryTargets_balance ts : ∀ i e,
  let '(r, out) := tryTargets cid nets i e cfg ts database user pc in dials out = (hangups out + owed r)%nat.
Proof using.
  induction ts as [|t ts IH]; intros i e; simpl; [done|].
  destruct (nets i) as [net cancelled]. pose proof (dial_balance cid net cfg t database user pc) as Hb.
  destruct (dialAndHandshake _ _ _ _ _ _ _) as [[b|e'] out]; [done|].
  destruct cancelled; [done|]. specialize (IH (S i) (Some e')).
  destruct (tryTargets _ _ _ _ _ _ _ _ _) as [r out']. rewrite dials_app, hangups_app.
  unfold owed in *. simpl in Hb. lia.
Qed.

Lemma tryTargets_clear ts m : ∀ i e,
  Forall (λ t, is_Some (tls t)) ts →
  Clear m ∈ (tryTargets cid nets i e cfg ts database user pc).2 → m = SSLRequest.
Proof using.
  induction ts as [|t ts IH]; intros i e Hf; simpl; [set_solver|].
  apply Forall_cons in Hf as [[tc Ht] Hf]. destruct (nets i) as [net cancelled].
  pose proof (dial_tls cid net cfg t tc database user pc m Ht) as Hd.
  destruct (dialAndHandshake _ _ _ _ _ _ _) as [[b|e'] out]; [done|].
  destruct cancelled; [done|]. specialize (IH (S i) (Some e') Hf).
  destruct (tryTargets _ _ _ _ _ _ _ _ _) as [r out']. simpl in *. set_solver.
Qed.

Lemma tryTargets_ok ts b : ∀ i e,
  (tryTargets cid nets i e cfg ts database user pc).1 = Ok b ↔
  ∃ j t, ts !! j = Some t ∧ (attempt (i + j) t).1 = Ok b ∧
    ∀ k u, (k < j)%nat → ts !! k = Some u → passed_over (i + k) u.
Proof using.
  induction ts as [|t ts IH]; intros i e; simpl; [split; [done|by intros (j & u & ? & _)]|].
  specialize (IH (S i)). unfold passed_over, attempt in *. destruct (nets i) as [net cancelled] eqn:En.
  destruct (dialAndHandshake cid net cfg t database user pc) as [[b'|e'] out] eqn:E.
  - simpl. split.
    + intros [= ->]. exists 0%nat, t. rewrite Nat.add_0_r, En. simpl. rewrite E.
      split_and!; [done..|lia].
    + intros ([|j] & u & Hu & Hb & Hk); simplify_eq/=.
      * rewrite Nat.add_0_r, En in Hb. simpl in Hb. by rewrite E in Hb.
      * destruct (Hk 0%nat t ltac:(lia) eq_refl) as [H _].
        rewrite Nat.add_0_r, En in H. simpl in H. by rewrite E in H.
  - destruct cancelled.
    + simpl. split; [done|]. intros ([|j] & u & Hu & Hb & Hk); simplify_eq/=.
      * rewrite Nat.add_0_r, En in Hb. simpl in Hb. by rewrite E in Hb.
      * destruct (Hk 0%nat t ltac:(lia) eq_refl) as [_ H]. by rewrite Nat.add_0_r, En in H.
    + destruct (tryTargets _ _ _ _ _ _ _ _ _) as [r out'] eqn:Et. specialize (IH (Some e')).
      rewrite Et in IH. simpl in *. rewrite IH. split.
      * intros (j & u & Hu & Hb & Hk). exists (S j), u. rewrite Nat.add_succ_r. split_and!; [done..|].
        intros [|k] v Hlt Hv; simplify_eq/=; [rewrite Nat.add_0_r, En; simpl; by rewrite E|].
        rewrite Nat.add_succ_r. apply Hk; [lia|done].
      * intros ([|j] & u & Hu & Hb & Hk); simplify_eq/=;
          [rewrite Nat.add_0_r, En in Hb; simpl in Hb; by rewrite E in Hb|].
        exists j, u. rewrite Nat.add_succ_r in Hb. split_and!; [done..|].
        intros k v Hlt Hv. specialize (Hk (S k) v ltac:(lia) Hv). by rewrite Nat.add_succ_r in Hk.
Qed.

(** A pass-through connection is opened to the first target, in the DSN's
    order, whose dial, TLS negotiation and handshake all succeed, as long as the
    caller is still waiting; and whatever happens, every socket that was dialed
    is closed again, except the one that is returned. *)
Theorem passthrough_first_target :
  let '(r, out) := connectPassthrough cid nets cfg database user pc in
  (∀ b, r = Ok b ↔ ∃ i t, connectTargets cfg !! i = Some t ∧ (attempt i t).1 = Ok b ∧
     ∀ k u, (k < i)%nat → connectTargets cfg !! k = Some u → passed_over k u) ∧
  dials out = (hangups out + if is_ok r then 1 else 0)%nat.
Proof using.
  unfold connectPassthrough.
  pose proof (tryTargets_balance (connectTargets cfg) 0 None) as Hb.
  pose proof (λ b, tryTargets_ok (connectTargets cfg) b 0 None) as Ho.
  destruct (tryTargets _ _ _ _ _ _ _ _ _) as [r out]. split; [exact Ho|exact Hb].
Qed.

Lemma connect_ok b out :
  connectPassthrough cid nets cfg database user pc = (Ok b, out) →
  ∃ i t sent, connectTargets cfg !! i = Some t ∧
    completeBackendHandshake pc (sasl (nets i).1) (messages (nets i).1) = (Ok (pid b, secretKey b), sent) ∧
    addr b = JoinHostPort (host t) (pretty (port t)) ∧
    (if bool_decide (is_Some (tls t)) then cancelTLS b = TLSConfig cfg ∧ is_Some (cancelTLS b)
     else cancelTLS b = None).
Proof using.
  intros H. pose proof (tryTargets_ok (connectTargets cfg) b 0 None) as Ho.
  unfold connectPassthrough in H. rewrite H in Ho. destruct (proj1 Ho eq_refl) as (i & t & Ht & Ha & _).
  unfold attempt in Ha. destruct (dialAndHandshake _ _ _ _ _ _ _) as [r o] eqn:E. simpl in Ha. subst r.
  apply dial_ok in E as (p & key & sent & ct & H1 & -> & H3 & _).
  exists i, t, sent. split_and!; try done.
Qed.
End targets.

(** ** The dialers *)


(** A backend that lets everybody in, over TLS or not. *)
Definition easy (tls_ok : bool) : dialNet :=
  mkDialNet true true (mkSSL true (Some (if tls_ok then 83 else 78)) true) true
    [MAuthOk; MKeyData 42 [1; 2; 3; 4]; MReady] no_sasl true.

Definition demo_store : Scram.clientKeyStore :=
  Some {[ "ann" := Scram.mkPass [] (Scram.mkCreds [] 0 [] []) ]}.

(** Two hosts, TLS mandatory. *)
Definition strict : pgConfig :=
  mkPgConfig "db" 5432 "app" (Some (mkTLS "db" false)) [mkFallback "standby" 5432 (Some (mkTLS "standby" false))] ∅.


(** *** Where the TLS rules leak *)

(** sslmode=prefer: a TLS attempt, then the same host in the clear. *)
Definition prefer : pgConfig :=
  mkPgConfig "db" 5432 "app" (Some (mkTLS "" true)) [mkFallback "db" 5432 None] ∅.

(** The textual check looks anywhere in the DSN: a preferred-mode DSN whose
    application name contains the words passes for a mandatory one, and the
    startup message then goes out in the clear. *)
Lemma require_tls_text_match :
  let dsn := "postgres://u@db/app?sslmode=prefer&application_name=sslmode=require" in
  dsnRequiresTLS (Some prefer) dsn = true ∧
  let '(r, out) := newPassthroughDialer (λ _, Some prefer) dsn "ann" demo_store true 3 (λ _, (easy false, false)) in
  is_ok r = true ∧ Clear (StartupMessage (startupParams prefer "app" "ann")) ∈ out.
Proof. split; [by vm_compute|]. vm_compute. split; [done|]. set_solver. Qed.

(** sslmode=allow parses to a first attempt in the clear and a TLS fallback.
    The cancel configuration is looked for on the first one only, so no TLS
    fallback can ever be used. *)
Lemma allow_never_connects_with_tls cid net cfg t d u pc b :
  TLSConfig cfg = None → is_Some (tls t) → (dialAndHandshake cid net cfg t d u pc).1 ≠ Ok b.
Proof.
  intros Hn Ht H. destruct (dialAndHandshake _ _ _ _ _ _ _) as [r out] eqn:E. simpl in H. subst r.
  apply dial_ok in E as (p & key & sent & ct & _ & _ & Hc & _).
  rewrite bool_decide_true in Hc by done. destruct Hc as [-> [x Hx]]. congruence.
Qed.

(** With several hosts the cancel of a connection to the second one is
    verified against the first one's name. *)
Definition two_hosts : pgConfig :=
  mkPgConfig "db1" 5432 "app" (Some (mkTLS "db1" false)) [mkFallback "db2" 5432 (Some (mkTLS "db2" false))] ∅.

Lemma cancel_checks_first_host :
  (connectPassthrough 0 (λ i, match i with O => (mkDialNet false true (mkSSL true None true) true [] no_sasl true, false)
                                         | _ => (easy true, false) end)
    two_hosts "app" "ann" (Scram.mkPass [] (Scram.mkCreds [] 0 [] []))).1
  = Ok (mkBackendConn 0 "db2:5432" 42 [1; 2; 3; 4] (Some (mkTLS "db1" false))).
Proof. by vm_compute. Qed.

(** A RuntimeParam named "user" would replace the identity the connection is
    opened as; pgconn never puts one there. *)
Lemma startup_identity cfg d u :
  RuntimeParams cfg !! "user" = None → startupParams cfg d u !! "user" = Some u.
Proof. intros H. unfold startupParams. by rewrite lookup_union_r, lookup_insert_eq. Qed.

(** ** The health check *)

(** An idle connection passes the check exactly when ReadyForQuery arrives
    before any error, and the deadline it ran under is gone either way. *)
Lemma health_check_exact flushOk ms :
  ((healthCheckWithTimeout true flushOk ms).1 = Ok tt ↔
     flushOk = true ∧ ∃ n rest, ms = replicate n HcOther ++ HcReady :: rest) ∧
  (healthCheckWithTimeout true flushOk ms).2 = true.
Proof.
  split; [|done]. unfold healthCheckWithTimeout; simpl. destruct flushOk; simpl; [|by split; [|intros []]].
  induction ms as [|[m| |] ms IH]; simpl.
  - split; [done|]. intros [_ ([|n] & rest & ?)]; done.
  - split; [done|]. intros [_ ([|n] & rest & ?)]; done.
  - split; [|done]. intros _. split; [done|]. by exists 0%nat, ms.
  - rewrite IH. split; intros [_ (n & rest & H)]; (split; [done|]).
    + exists (S n), rest. by rewrite H.
    + destruct n as [|n]; simplify_eq/=. by exists n, rest.
Qed.

End BackendConnectTheorems.
