(* ===== verification/Limits.v ===== *)
(** * Limits

    src/conn_limits.go: client-connection caps per database and per user.
    src/ratelimit.go: the lockout of addresses that fail authentication, a
    bounded LRU.  src/events.go: the ring of recent pool events.  The mutexes
    make every method one step; [time.Now] is an argument. *)

From S2P Require Import Prelude.
Open Scope list_scope.
Open Scope nat_scope.

Module Limits.

(** ** Connection caps *)

Record ConnLimiter := mkConnLimiter {
  maxPerDB : Z; maxPerUser : Z; perDB : gmap string Z; perUser : gmap string Z;
}.

Definition NewConnLimiter (maxPerDB maxPerUser : Z) : ConnLimiter := mkConnLimiter maxPerDB maxPerUser ∅ ∅.

Inductive capErr := MaxDB | MaxUser.

(** Reading a missing key gives zero. *)
Definition count (m : gmap string Z) (k : string) : Z := default 0%Z (m !! k).

(** The nil limiter is [None]. *)
Definition Reserve (user database : string) (l : option ConnLimiter) :
  result capErr (option ConnLimiter) :=
  match l with
  | None => Ok None
  | Some c =>
      if ((0 <? maxPerDB c) && (maxPerDB c <=? count (perDB c) database))%Z then Err MaxDB
      else if ((0 <? maxPerUser c) && (maxPerUser c <=? count (perUser c) user))%Z then Err MaxUser
      else Ok (Some (mkConnLimiter (maxPerDB c) (maxPerUser c)
                       (<[database := (count (perDB c) database + 1)%Z]> (perDB c))
                       (<[user := (count (perUser c) user + 1)%Z]> (perUser c))))
  end.

Definition decrement (k : string) (m : gmap string Z) : gmap string Z :=
  let n := count m k in
  if (0 <? n)%Z then if (n =? 1)%Z then delete k m else <[k := (n - 1)%Z]> m else m.

Definition ReleaseSlot (user database : string) (l : option ConnLimiter) : option ConnLimiter :=
  match l with
  | None => None
  | Some c => Some (mkConnLimiter (maxPerDB c) (maxPerUser c)
                      (decrement database (perDB c)) (decrement user (perUser c)))
  end.

Definition Snapshot (l : option ConnLimiter) : option (gmap string Z * gmap string Z) :=
  (fun c => (perDB c, perUser c)) <$> l.

(** ** Lockout after failed authentication *)

Record limiterEntry := mkLimiterEntry { failures : Z; lockedUntil : Z }.

(** [lru] lists the addresses, most recently touched first. *)
Record authLimiter := mkAuthLimiter {
  state : gmap string limiterEntry; lru : list string; capacity : Z;
}.

Definition authLockThreshold : Z := 5.
Definition authLockBase : Z := 5 * Second.
Definition authLockMax : Z := 5 * Minute.
Definition authLimiterCap : Z := 100000.

Definition newAuthLimiterWithCapacity (cap : Z) : authLimiter :=
  mkAuthLimiter ∅ [] (if (cap <=? 0)%Z then authLimiterCap else cap).

Definition remove_addr (addr : string) (l : list string) : list string := filter (fun a => a ≠ addr) l.
Definition MoveToFront (addr : string) (l : list string) : list string := addr :: remove_addr addr l.

(** The zero [time.Time] lies before every [now] > 0. *)
Definition Allowed (now : Z) (addr : string) (l : authLimiter) : bool * authLimiter :=
  match state l !! addr with
  | None => (true, l)
  | Some e => ((lockedUntil e <? now)%Z, mkAuthLimiter (state l) (MoveToFront addr (lru l)) (capacity l))
  end.

(** The loop of [evictIfNeeded]; it runs at most once per entry. *)
Fixpoint evictLoop (fuel : nat) (l : authLimiter) : authLimiter :=
  match fuel with
  | O => l
  | S fuel =>
      if (Z.of_nat (size (state l)) <=? capacity l)%Z then l
      else match last (lru l) with
           | None => l
           | Some oldest =>
               evictLoop fuel (mkAuthLimiter (delete oldest (state l)) (remove_addr oldest (lru l)) (capacity l))
           end
  end.
Definition evictIfNeeded (l : authLimiter) : authLimiter := evictLoop (size (state l)) l.

(** The doubling loop; five minutes are reached in six rounds, so the shift
    itself is fuel enough. *)
Fixpoint backoffLoop (shift : nat) (backoff : Z) : Z :=
  match shift with
  | O => backoff
  | S shift => if (backoff <? authLockMax)%Z then backoffLoop shift (backoff * 2) else backoff
  end.

Definition lockout (failures : Z) : Z :=
  let b := backoffLoop (Z.to_nat (failures - authLockThreshold)) authLockBase in
  if (authLockMax <? b)%Z then authLockMax else b.

Definition fail (now : Z) (e : limiterEntry) : limiterEntry :=
  let n := (failures e + 1)%Z in
  mkLimiterEntry n (if (authLockThreshold <=? n)%Z then (now + lockout n)%Z else lockedUntil e).

(** The entry is updated through its pointer after the eviction: an entry that
    was evicted again is not in the map. *)
Definition RecordFailure (now : Z) (addr : string) (l : authLimiter) : authLimiter :=
  let '(e, l) :=
    match state l !! addr with
    | Some e => (e, mkAuthLimiter (state l) (MoveToFront addr (lru l)) (capacity l))
    | None =>
        let e := mkLimiterEntry 0 0 in
        (e, evictIfNeeded (mkAuthLimiter (<[addr := e]> (state l)) (addr :: lru l) (capacity l)))
    end in
  mkAuthLimiter (alter (fun _ => fail now e) addr (state l)) (lru l) (capacity l).

Definition RecordSuccess (addr : string) (l : authLimiter) : authLimiter :=
  match state l !! addr with
  | None => l
  | Some _ => mkAuthLimiter (delete addr (state l)) (remove_addr addr (lru l)) (capacity l)
  end.

(** ** Event log *)

Section events.
Context {E : Type}.

Record EventLog := mkEventLog { events : list E; log_capacity : nat }.

Definition NewEventLog (cap : nat) : EventLog := mkEventLog [] cap.

Definition record_event (e : E) (l : EventLog) : EventLog :=
  let es := events l ++ [e] in
  mkEventLog (drop (length es - log_capacity l) es) (log_capacity l).

Definition Recent (l : EventLog) : list E := rev (events l).
End events.
Arguments EventLog : clear implicits.

End Limits.
