(* ===== verification/LimitsTheorems.v ===== *)
(** * Theorems about the limits

    The connection caps hold and count exactly the live sessions; the lockout
    table stays within its capacity and backs off exponentially up to its
    maximum; the event log keeps the most recent events. *)

From S2P Require Import Prelude Limits.
Import Limits.
Open Scope list_scope.
Open Scope nat_scope.

Module LimitsTheorems.

(** ** Connection caps *)

(** Sessions as (user, database), each between its Reserve and its Release. *)
Abbreviation sessions := (list (string * string)).

Inductive cap_step : ConnLimiter * sessions → ConnLimiter * sessions → Prop :=
| cap_reserve c c' L user db :
    Reserve user db (Some c) = Ok (Some c') → cap_step (c, L) (c', (user, db) :: L)
| cap_release c c' L1 L2 user db :
    ReleaseSlot user db (Some c) = Some c' →
    cap_step (c, L1 ++ (user, db) :: L2) (c', L1 ++ L2).

Inductive cap_reachable (a b : Z) : ConnLimiter * sessions → Prop :=
| cap_init : cap_reachable a b (NewConnLimiter a b, [])
| cap_next s s' : cap_reachable a b s → cap_step s s' → cap_reachable a b s'.

(** The live sessions of one database, and of one user. *)
Definition on_db (db : string) (L : sessions) : Z := Z.of_nat (length (filter (fun s => s.2 = db) L)).
Definition of_user (user : string) (L : sessions) : Z := Z.of_nat (length (filter (fun s => s.1 = user) L)).

(** A counter map that counts, without leftovers. *)
Definition counts (m : gmap string Z) (f : string → Z) : Prop :=
  ∀ k, count m k = f k ∧ (m !! k = Some 0%Z → False).

Lemma count_insert m k v k' : count (<[k := v]> m) k' = if decide (k = k') then v else count m k'.
Proof.
  unfold count. destruct (decide (k = k')) as [->|]; [by rewrite lookup_insert_eq|].
  by rewrite lookup_insert_ne.
Qed.

Lemma count_delete m k k' : count (delete k m) k' = if decide (k = k') then 0%Z else count m k'.
Proof.
  unfold count. destruct (decide (k = k')) as [->|]; [by rewrite lookup_delete_eq|].
  by rewrite lookup_delete_ne.
Qed.

Lemma counts_incr m f k :
  counts m f → (∀ k, 0 ≤ f k)%Z →
  counts (<[k := (count m k + 1)%Z]> m) (fun k' => if decide (k = k') then (f k' + 1)%Z else f k').
Proof.
  intros Hc Hf k'. rewrite count_insert. destruct (Hc k') as [Hk' Hz]. split.
  - destruct (decide (k = k')) as [->|]; [by rewrite Hk' | done].
  - intros Hi. apply lookup_insert_Some in Hi as [[<- Hi]|[_ Hi]]; [|by apply Hz].
    specialize (Hf k). destruct (Hc k) as [Hk _]. lia.
Qed.

Lemma counts_decr m f k :
  counts m f → (1 ≤ f k)%Z →
  counts (decrement k m) (fun k' => if decide (k = k') then (f k' - 1)%Z else f k').
Proof.
  intros Hc Hf k'. destruct (Hc k') as [Hk' Hz]. destruct (Hc k) as [Hk _]. unfold decrement.
  rewrite (proj2 (Z.ltb_lt _ _)) by lia. destruct (count m k =? 1)%Z eqn:E; to_prop.
  - rewrite count_delete. split.
    + destruct (decide (k = k')) as [->|]; lia.
    + intros [_ Hi]%lookup_delete_Some. by apply Hz.
  - rewrite count_insert. split.
    + destruct (decide (k = k')) as [->|]; lia.
    + intros [[<- Hi]|[_ Hi]]%lookup_insert_Some; [lia | by apply Hz].
Qed.

Lemma counts_ext m f g : (∀ k, f k = g k) → counts m f → counts m g.
Proof. intros He Hc k. rewrite <-He. apply Hc. Qed.

Lemma on_db_mid db L1 u d L2 :
  on_db db (L1 ++ (u, d) :: L2) = (if decide (d = db) then (on_db db (L1 ++ L2) + 1)%Z else on_db db (L1 ++ L2)).
Proof.
  unfold on_db. rewrite !filter_app, filter_cons, !length_app. simpl.
  destruct (decide (d = db)); simpl; lia.
Qed.

Lemma of_user_mid us L1 u d L2 :
  of_user us (L1 ++ (u, d) :: L2)
  = (if decide (u = us) then (of_user us (L1 ++ L2) + 1)%Z else of_user us (L1 ++ L2)).
Proof.
  unfold of_user. rewrite !filter_app, filter_cons, !length_app. simpl.
  destruct (decide (u = us)); simpl; lia.
Qed.

(** What holds of the limiter and the live sessions. *)
Record CapInv (a b : Z) (s : ConnLimiter * sessions) : Prop := {
  cap_limits : maxPerDB s.1 = a ∧ maxPerUser s.1 = b;
  cap_db : counts (perDB s.1) (fun d => on_db d s.2);
  cap_user : counts (perUser s.1) (fun u => of_user u s.2);
  cap_db_le : (0 < a)%Z → ∀ d, (on_db d s.2 ≤ a)%Z;
  cap_user_le : (0 < b)%Z → ∀ u, (of_user u s.2 ≤ b)%Z;
}.

Lemma cap_reserve_inv a b c c' L user db :
  CapInv a b (c, L) → Reserve user db (Some c) = Ok (Some c') → CapInv a b (c', (user, db) :: L).
Proof.
  intros [[Ha Hb] Hd Hu Hdl Hul] Hr. cbn [fst snd] in *. unfold Reserve in Hr.
  case_match eqn:E1; [done|]. case_match eqn:E2; [done|]. injection Hr as <-.
  destruct (Hd db) as [Hdb _]. destruct (Hu user) as [Hus _].
  pose proof (fun d => on_db_mid d [] user db L) as Hod. pose proof (fun u => of_user_mid u [] user db L) as Hou.
  cbn [app] in Hod, Hou. rewrite Ha, Hdb in E1. rewrite Hb, Hus in E2.
  split; cbn [fst snd perDB perUser maxPerDB maxPerUser]; [by split|..].
  - eapply counts_ext; [|apply counts_incr; [exact Hd | unfold on_db; lia]].
    intros k. cbn beta. by rewrite Hod.
  - eapply counts_ext; [|apply counts_incr; [exact Hu | unfold of_user; lia]].
    intros k. cbn beta. by rewrite Hou.
  - intros Hpos d. rewrite Hod. specialize (Hdl Hpos d). destruct (decide (db = d)) as [->|]; [|done].
    apply andb_false_iff in E1 as [E1|E1]; to_prop; lia.
  - intros Hpos u. rewrite Hou. specialize (Hul Hpos u). destruct (decide (user = u)) as [->|]; [|done].
    apply andb_false_iff in E2 as [E2|E2]; to_prop; lia.
Qed.

Lemma cap_release_inv a b c c' L1 L2 user db :
  CapInv a b (c, L1 ++ (user, db) :: L2) → ReleaseSlot user db (Some c) = Some c' →
  CapInv a b (c', L1 ++ L2).
Proof.
  intros [[Ha Hb] Hd Hu Hdl Hul] Hr. cbn [fst snd] in *. injection Hr as <-.
  split; cbn [fst snd perDB perUser maxPerDB maxPerUser]; [by split|..].
  - eapply counts_ext; [|apply counts_decr; [exact Hd|]].
    + intros k. cbn beta. rewrite on_db_mid. destruct (decide (db = k)); lia.
    + cbn beta. rewrite on_db_mid. rewrite decide_True by done. unfold on_db. lia.
  - eapply counts_ext; [|apply counts_decr; [exact Hu|]].
    + intros k. cbn beta. rewrite of_user_mid. destruct (decide (user = k)); lia.
    + cbn beta. rewrite of_user_mid. rewrite decide_True by done. unfold of_user. lia.
  - intros Hpos d. specialize (Hdl Hpos d). rewrite on_db_mid in Hdl. destruct (decide (db = d)); lia.
  - intros Hpos u. specialize (Hul Hpos u). rewrite of_user_mid in Hul. destruct (decide (user = u)); lia.
Qed.

Lemma cap_reachable_inv a b s : cap_reachable a b s → CapInv a b s.
Proof.
  induction 1 as [|s s' Hs IH Hstep].
  - split; simpl; try done; try (intros; unfold on_db, of_user; simpl; lia);
      intros k; (split; [done | by rewrite lookup_empty]).
  - destruct Hstep; [by eapply cap_reserve_inv | by eapply cap_release_inv].
Qed.

(** The caps hold exactly: however sessions come and go, each counter is
    the number of live sessions of its database or user, no database or user
    ever has more than its positive cap, a finished one leaves no entry
    behind, and a session is refused only when its database or its user is at
    the cap. *)
Theorem conn_caps_exact a b c L :
  cap_reachable a b (c, L) →
  (∀ d, count (perDB c) d = on_db d L ∧ ((0 < a)%Z → on_db d L ≤ a)%Z) ∧
  (∀ u, count (perUser c) u = of_user u L ∧ ((0 < b)%Z → of_user u L ≤ b)%Z) ∧
  (∀ d, d ∈ dom (perDB c) ↔ (0 < on_db d L)%Z) ∧
  (∀ u d e, Reserve u d (Some c) = Err e →
     match e with MaxDB => (0 < a)%Z ∧ on_db d L = a | MaxUser => (0 < b)%Z ∧ of_user u L = b end).
Proof.
  intros [[Ha Hb] Hd Hu Hdl Hul]%cap_reachable_inv. cbn [fst snd] in *. split_and!.
  - intros d. destruct (Hd d) as [? _]. auto.
  - intros u. destruct (Hu u) as [? _]. auto.
  - intros d. destruct (Hd d) as [Hc Hz]. rewrite elem_of_dom. unfold count in Hc.
    assert (0 ≤ on_db d L)%Z by (unfold on_db; lia).
    destruct (perDB c !! d) as [n|] eqn:E; simpl in Hc; split; intros Hx; try done; try lia.
    destruct (Z.eq_dec n 0%Z) as [->|]; [by destruct Hz | lia].
  - intros u d e. unfold Reserve. destruct (Hd d) as [-> _]. destruct (Hu u) as [-> _]. rewrite Ha, Hb.
    case_match eqn:E1; [intros [= <-]; to_prop; specialize (Hdl ltac:(done) d); split; lia|].
    case_match eqn:E2; [intros [= <-]; to_prop; specialize (Hul ltac:(done) u); split; lia | done].
Qed.

Lemma conn_caps_exact_witness :
  let c := mkConnLimiter 2 1 {[ "shop" := 1%Z ]} {[ "alice" := 1%Z ]} in
  (∀ d, count (perDB c) d = on_db d [("alice", "shop")] ∧
        ((0 < 2)%Z → on_db d [("alice", "shop")] ≤ 2)%Z) ∧
  (∀ u d e, Reserve u d (Some c) = Err e →
     match e with
     | MaxDB => (0 < 2)%Z ∧ on_db d [("alice", "shop")] = 2%Z
     | MaxUser => (0 < 1)%Z ∧ of_user u [("alice", "shop")] = 1%Z
     end).
Proof.
  destruct (conn_caps_exact 2 1 (mkConnLimiter 2 1 {[ "shop" := 1%Z ]} {[ "alice" := 1%Z ]})
    [("alice", "shop")]) as (Hd & _ & _ & He); [|split; [exact Hd | exact He]].
  eapply cap_next; [apply cap_init|]. apply cap_reserve. vm_compute. reflexivity.
Defined.

(** ** Lockout *)

(** The map and the list hold the same addresses, within capacity. *)
Record LimiterInv (l : authLimiter) : Prop := {
  li_nodup : NoDup (lru l);
  li_same : ∀ a, a ∈ lru l ↔ is_Some (state l !! a);
  li_size : (Z.of_nat (size (state l)) ≤ capacity l)%Z;
  li_cap : (0 < capacity l)%Z;
}.

Lemma elem_of_remove a b l : a ∈ remove_addr b l ↔ a ∈ l ∧ a ≠ b.
Proof. unfold remove_addr. rewrite list_elem_of_filter. tauto. Qed.

Lemma NoDup_remove a l : NoDup l → NoDup (remove_addr a l).
Proof. apply NoDup_filter. Qed.

Lemma NoDup_front a l : NoDup l → NoDup (MoveToFront a l).
Proof. intros. constructor; [rewrite elem_of_remove; tauto | by apply NoDup_remove]. Qed.

Lemma elem_of_front a b l : b ∈ l → a ∈ MoveToFront b l ↔ a ∈ l.
Proof.
  intros Hb. unfold MoveToFront. rewrite elem_of_cons, elem_of_remove.
  destruct (decide (a = b)) as [->|]; tauto.
Qed.

Lemma evict_done fuel l : (Z.of_nat (size (state l)) ≤ capacity l)%Z → evictLoop fuel l = l.
Proof. intros H. destruct fuel; [done|]. cbn [evictLoop]. by rewrite (proj2 (Z.leb_le _ _)). Qed.

(** One eviction from a table with one entry too many. *)
Lemma evict_one l addr :
  NoDup (lru l) → (∀ a, a ∈ lru l ↔ is_Some (state l !! a)) → (0 < capacity l)%Z →
  (Z.of_nat (size (state l)) ≤ capacity l + 1)%Z → head (lru l) = Some addr →
  LimiterInv (evictIfNeeded l) ∧ is_Some (state (evictIfNeeded l) !! addr) ∧
  capacity (evictIfNeeded l) = capacity l.
Proof.
  intros Hnd Hsame Hcap Hsize Hhd.
  assert (Hin : is_Some (state l !! addr)) by (apply Hsame; destruct (lru l); simplify_eq/=; by left).
  unfold evictIfNeeded. destruct (size (state l)) as [|n] eqn:Esz.
  { by apply map_size_empty_inv in Esz; rewrite Esz, lookup_empty in Hin; destruct Hin. }
  cbn [evictLoop]. rewrite Esz. destruct (Z.of_nat (S n) <=? capacity l)%Z eqn:E; to_prop.
  { split; [|done]. split; try done. by rewrite Esz. }
  destruct (lru l) as [|a1 [|a2 rest]] eqn:El; simplify_eq/=.
  { (* one address, capacity at least one *)
    assert (Hd : dom (state l) ⊆ ({[ addr ]} : gset string)).
    { intros x Hx%elem_of_dom%Hsame. set_solver. }
    apply subseteq_size in Hd. rewrite size_dom, size_singleton in Hd. lia. }
  destruct (last (a2 :: rest)) as [old|] eqn:Elast; [|by apply last_None in Elast]. apply last_Some_elem_of in Elast as Hold.
  apply NoDup_cons in Hnd as [Hna Hnd'].
  assert (Hne : old ≠ addr) by congruence.
  assert (Hsz : size (delete old (state l)) = n).
  { destruct (proj1 (Hsame old)) as [e He]; [by right|].
    rewrite map_size_delete_Some, Esz by eauto. done. }
  rewrite evict_done by (simpl; lia). split; [split|]; simpl.
  - apply NoDup_remove. by constructor.
  - intros x. rewrite elem_of_remove, Hsame. destruct (decide (x = old)) as [->|Hx].
    + rewrite lookup_delete_eq. split; [tauto | by intros [? ?]].
    + rewrite lookup_delete_ne by done. tauto.
  - lia.
  - done.
  - by rewrite lookup_delete_ne.
Qed.

Lemma alter_inv f a l :
  LimiterInv l → LimiterInv (mkAuthLimiter (alter f a (state l)) (lru l) (capacity l)).
Proof.
  intros [Hnd Hs Hz Hc]. split; simpl; try done.
  - intros x. rewrite Hs, lookup_alter_is_Some. done.
  - by rewrite <-(size_dom (alter f a (state l))), dom_alter_L, size_dom.
Qed.

Lemma RecordFailure_inv now a l : LimiterInv l → LimiterInv (RecordFailure now a l).
Proof.
  intros Hl. pose proof Hl as [Hnd Hs Hz Hc]. unfold RecordFailure.
  destruct (state l !! a) as [e|] eqn:E.
  - apply (alter_inv _ _ (mkAuthLimiter (state l) (MoveToFront a (lru l)) (capacity l))).
    assert (a ∈ lru l) by (apply Hs; eauto).
    split; simpl; try done; [by apply NoDup_front|]. intros x. by rewrite elem_of_front.
  - destruct (evict_one (mkAuthLimiter (<[a := mkLimiterEntry 0 0]> (state l)) (a :: lru l) (capacity l)) a)
      as (Hi & _ & _); simpl; try done.
    + constructor; [|done]. rewrite Hs, E. by intros [? ?].
    + intros x. rewrite elem_of_cons, Hs. destruct (decide (x = a)) as [->|Hx].
      * rewrite lookup_insert_eq. split; [eauto | tauto].
      * rewrite lookup_insert_ne by done. tauto.
    + rewrite map_size_insert_None by done. lia.
    + by apply alter_inv.
Qed.

Lemma Allowed_inv now a l : LimiterInv l → LimiterInv (Allowed now a l).2.
Proof.
  intros [Hnd Hs Hz Hc]. unfold Allowed. destruct (state l !! a) as [e|] eqn:E; [|done].
  assert (a ∈ lru l) by (apply Hs; eauto).
  split; simpl; try done; [by apply NoDup_front|]. intros x. by rewrite elem_of_front.
Qed.

Lemma RecordSuccess_inv a l : LimiterInv l → LimiterInv (RecordSuccess a l).
Proof.
  intros Hl. pose proof Hl as [Hnd Hs Hz Hc]. unfold RecordSuccess.
  destruct (state l !! a) as [e|] eqn:E; [|done]. split; simpl; try done.
  - by apply NoDup_remove.
  - intros x. rewrite elem_of_remove, Hs. destruct (decide (x = a)) as [->|].
    + rewrite lookup_delete_eq. split; [tauto | by intros [? ?]].
    + rewrite lookup_delete_ne by done. tauto.
  - rewrite map_size_delete_Some by eauto. lia.
Qed.

(** Login attempts as the listener reports them. *)
Inductive attempt := Check (now : Z) (addr : string) | Fail (now : Z) (addr : string) | Pass (addr : string).

Definition attend (l : authLimiter) (x : attempt) : authLimiter :=
  match x with
  | Check now a => (Allowed now a l).2
  | Fail now a => RecordFailure now a l
  | Pass a => RecordSuccess a l
  end.

(** The doubling, in closed form. *)
Lemma backoffLoop_pow n b :
  (0 < b)%Z → Z.min (backoffLoop n b) authLockMax = Z.min (b * 2 ^ Z.of_nat n) authLockMax.
Proof.
  revert b. induction n as [|n IH]; intros b Hb; [simpl; by rewrite Z.mul_1_r|].
  cbn [backoffLoop]. rewrite Nat2Z.inj_succ, Z.pow_succ_r by lia.
  destruct (b <? authLockMax)%Z eqn:E; to_prop.
  - rewrite IH by lia. f_equal. lia.
  - assert (1 ≤ 2 ^ Z.of_nat n)%Z by (apply (Z.pow_le_mono_r 2 0); lia). nia.
Qed.

Lemma lockout_pow n :
  (authLockThreshold ≤ n)%Z →
  lockout n = Z.min (authLockBase * 2 ^ (n - authLockThreshold)) authLockMax.
Proof.
  intros Hn. unfold lockout. pose proof (backoffLoop_pow (Z.to_nat (n - authLockThreshold)) authLockBase) as Hp.
  rewrite Z2Nat.id in Hp by lia. rewrite <-Hp by done. clear Hp.
  destruct (authLockMax <? _)%Z eqn:E; to_prop; lia.
Qed.

(** What a failure leaves behind for its address. *)
Definition failures_of (a : string) (l : authLimiter) : Z :=
  match state l !! a with Some e => failures e | None => 0 end.

Lemma RecordFailure_entry now a l :
  LimiterInv l →
  ∃ e, state (RecordFailure now a l) !! a = Some e ∧ failures e = (failures_of a l + 1)%Z ∧
    ((authLockThreshold ≤ failures e)%Z → lockedUntil e = (now + lockout (failures e))%Z).
Proof.
  intros Hl. pose proof Hl as [Hnd Hs Hz Hc]. unfold RecordFailure, failures_of.
  destruct (state l !! a) as [e|] eqn:E; cbn [state].
  - exists (fail now e). rewrite lookup_alter_eq, E. split; [done|]. split; [done|].
    intros Ht. unfold fail in *. simpl in *. by rewrite (proj2 (Z.leb_le _ _)).
  - destruct (evict_one (mkAuthLimiter (<[a := mkLimiterEntry 0 0]> (state l)) (a :: lru l) (capacity l)) a)
      as (_ & [e' He'] & _); simpl; try done.
    + constructor; [|done]. rewrite Hs, E. by intros [? ?].
    + intros x. rewrite elem_of_cons, Hs. destruct (decide (x = a)) as [->|Hx].
      * rewrite lookup_insert_eq. split; [eauto | tauto].
      * rewrite lookup_insert_ne by done. tauto.
    + rewrite map_size_insert_None by done. lia.
    + rewrite lookup_alter_eq, He'. eexists. split; [done|]. done.
Qed.

(** The lockout table is bounded and bites: after any attempts it tracks
    at most [capacity] addresses, and one more failure is counted; once an
    address has reached the threshold it is refused until
    [min (base * 2^(n - threshold)) max] after its last failure, and allowed
    afterwards. *)
Theorem auth_lockout cap xs now a later :
  let l := foldl attend (newAuthLimiterWithCapacity cap) xs in
  let n := (failures_of a l + 1)%Z in
  let l' := RecordFailure now a l in
  (Z.of_nat (size (state l')) ≤ capacity l')%Z ∧ failures_of a l' = n ∧
  ((authLockThreshold ≤ n)%Z →
   (Allowed later a l').1 = true ↔
   (now + Z.min (authLockBase * 2 ^ (n - authLockThreshold)) authLockMax < later)%Z).
Proof.
  intros l n l'. assert (Hl : LimiterInv l).
  { unfold l. assert (Hi : LimiterInv (newAuthLimiterWithCapacity cap)).
    { split; simpl; [constructor | | rewrite map_size_empty; case_match; to_prop; [done | lia] |
        case_match; to_prop; [done | lia]].
      intros x. rewrite lookup_empty. split; [by intros ?%not_elem_of_nil | by intros [? ?]]. }
    revert Hi. generalize (newAuthLimiterWithCapacity cap). induction xs as [|x xs IH]; [done|].
    intros k Hk. apply IH. destruct x; [by apply Allowed_inv | by apply RecordFailure_inv |
      by apply RecordSuccess_inv]. }
  split; [by apply RecordFailure_inv|].
  destruct (RecordFailure_entry now a l Hl) as (e & He & Hf & Hlock).
  fold l' in He. split; [unfold failures_of; by rewrite He|].
  intros Hn. unfold Allowed. rewrite He. cbn [fst]. fold n in Hf. rewrite Hf in Hlock.
  rewrite Hlock, lockout_pow, Z.ltb_lt by done. done.
Qed.

(** ** Event log *)

(** The log shows the last [cap] events, newest first. *)
Theorem recent_events {E} cap (es : list E) :
  Recent (foldl (fun l e => record_event e l) (NewEventLog cap) es) = take cap (rev es).
Proof.
  assert (H : foldl (fun l e => record_event e l) (NewEventLog cap) es
    = mkEventLog (drop (length es - cap) es) cap).
  { induction es as [|e es IH] using rev_ind; [done|]. rewrite foldl_app, IH. cbn [foldl].
    unfold record_event. cbn [events log_capacity]. f_equal.
    rewrite !length_app, length_drop. simpl. rewrite <-drop_app_le by lia.
    rewrite drop_drop. f_equal. lia. }
  rewrite H. unfold Recent. simpl. by rewrite firstn_rev.
Qed.

End LimitsTheorems.
