(* ===== verification/RateLimit.v ===== *)
(** * The session-open rate limiter

    src/rate_limit.go: a token bucket per user, in float64 arithmetic.  A
    float64 is a [spec_float] with Go's (IEEE 754 binary64) operations, so the
    buckets hold the numbers the code computes, rounding included. *)

From Stdlib Require Import SpecFloat.
From S2P Require Import Prelude.
Open Scope Z_scope.

Module RateLimit.

(** ** float64 *)

Abbreviation float64 := spec_float.

Definition prec : Z := 53.
Definition emax : Z := 1024.

Definition fadd : float64 → float64 → float64 := SFadd prec emax.
Definition fsub : float64 → float64 → float64 := SFsub prec emax.
Definition fmul : float64 → float64 → float64 := SFmul prec emax.
Definition fdiv : float64 → float64 → float64 := SFdiv prec emax.
Definition fltb : float64 → float64 → bool := SFltb.

(** The conversion [float64(n)] of an integer. *)
Definition of_int (n : Z) : float64 := binary_normalize prec emax n 0 false.

(** [time.Duration.Seconds]: whole seconds plus the rest. *)
Definition Seconds (d : Z) : float64 :=
  fadd (of_int (Z.quot d Second)) (fdiv (of_int (Z.rem d Second)) (of_int 1000000000)).

(** ** The limiter *)

Record rlBucket := mkBucket { tokens : float64; lastRefill : Z }.

Record RateLimiter := mkLimiter {
  tokensPerSec : float64;
  burst : float64;
  buckets : gmap string rlBucket;
}.

(** [None] is the nil limiter. *)
Definition NewRateLimiter (ratePerSec brst : Z) : option RateLimiter :=
  if (ratePerSec <=? 0) || (brst <=? 0) then None
  else Some (mkLimiter (of_int ratePerSec) (of_int brst) ∅).

(** The refill: [now] is read after the bucket was found or made.  The product is
    rounded before it is added, as on amd64; a platform on which the compiler fuses
    the two rounds once. *)
Definition refill (r : RateLimiter) (now : Z) (b : rlBucket) : rlBucket :=
  let elapsed := Seconds (now - lastRefill b) in
  if fltb (of_int 0) elapsed then
    let t := fadd (tokens b) (fmul elapsed (tokensPerSec r)) in
    mkBucket (if fltb (burst r) t then burst r else t) now
  else b.

(** Taking a token. *)
Definition take (b : rlBucket) : bool * rlBucket :=
  if fltb (tokens b) (of_int 1) then (false, b)
  else (true, mkBucket (fsub (tokens b) (of_int 1)) (lastRefill b)).

(** [Allow], with the times of its two reads of the clock. *)
Definition Allow (made now : Z) (key : string) (l : option RateLimiter) : bool * option RateLimiter :=
  match l with
  | None => (true, None)
  | Some r =>
      let b := default (mkBucket (burst r) made) (buckets r !! key) in
      let '(ok, b) := take (refill r now b) in
      (ok, Some (mkLimiter (tokensPerSec r) (burst r) (<[key := b]> (buckets r))))
  end.

End RateLimit.
