(* ===== verification/Startup.v ===== *)
(** * From an accepted socket to a running session

    src/main.go's connection handler: receiveStartupMessage, the gates of
    handleConnWithOpts in their order (failed-login lockout, authentication,
    session rate, admin console, routing, connection caps), the fake handshake,
    the session's configuration, and the deferred clean-up.  Each stage is one
    access to shared state, so that any number of handlers can interleave; the
    components are those of the other files. *)

From Stdlib Require Import Ascii.
From S2P Require Import Prelude GoStrings Prepared TrackedParams Config Registry Limits RateLimit Session.
Import Session.
Open Scope string_scope.
Open Scope list_scope.
Open Scope Z_scope.

Module Startup.

(** ** The first message *)

Record startupMsg := mkStartup { Parameters : gmap string string }.

(** Reading a missing parameter gives the empty string. *)
Definition parameter (k : string) (m : startupMsg) : string := default "" (Parameters m !! k).

Inductive firstMsg :=
| FStartup (m : startupMsg)
| FCancel (p : Z) (key : bytes)
| FSSL
| FGSS
| FOther.

Inductive recvErr := RecvFailed | RejectSSL | AcceptSSL | TLSHandshake | RejectGSS | Unsupported.

Definition byte_N : Z := 78.

(** The loop: each message comes with whether the one-byte answer to it could
    be written and whether a TLS handshake after it succeeds; the end of the
    list is a receive error.  [sealed] says whether the connection has been
    upgraded.  The result says whether the message arrived inside TLS; the list
    is the answers. *)
Fixpoint receiveStartupMessage (tlsConfig sealed : bool) (ms : list (firstMsg * bool * bool)) :
  result recvErr (firstMsg * bool) * list Z :=
  match ms with
  | [] => (Err RecvFailed, [])
  | (m, wrote, shaken) :: ms =>
      match m with
      | FStartup _ | FCancel _ _ => (Ok (m, sealed), [])
      | FSSL =>
          if negb tlsConfig then
            if negb wrote then (Err RejectSSL, [])
            else let '(r, out) := receiveStartupMessage tlsConfig sealed ms in (r, byte_N :: out)
          else if negb wrote then (Err AcceptSSL, [])
          else if negb shaken then (Err TLSHandshake, [byte_S])
          else let '(r, out) := receiveStartupMessage tlsConfig true ms in (r, byte_S :: out)
      | FGSS =>
          if negb wrote then (Err RejectGSS, [])
          else let '(r, out) := receiveStartupMessage tlsConfig sealed ms in (r, byte_N :: out)
      | FOther => (Err Unsupported, [])
      end
  end.

(** ** Options and shared state *)

Record handlerOpts := mkHandlerOpts {
  adminDatabase : string;
  adminSession : bool;        (** a non-nil handler *)
  adminUsers : gset string;
  maxPreparedStmts : Z;
  trackExtraParams : list string;
}.

Definition adminUserSet (users : list string) : gset string :=
  list_to_set (filter (λ u, u ≠ "") users).

Record shared := mkShared {
  limiter : Limits.authLimiter;
  userRate : option RateLimit.RateLimiter;
  caps : option Limits.ConnLimiter;
  registry : Registry.PoolRegistry;
  sessions : world;
}.

Definition with_limiter l s := mkShared l (userRate s) (caps s) (registry s) (sessions s).
Definition with_userRate r s := mkShared (limiter s) r (caps s) (registry s) (sessions s).
Definition with_caps c s := mkShared (limiter s) (userRate s) c (registry s) (sessions s).
Definition with_registry r s := mkShared (limiter s) (userRate s) (caps s) r (sessions s).
Definition with_sessions w s := mkShared (limiter s) (userRate s) (caps s) (registry s) w.

(** ** What the client is sent *)

(** The reason a FATAL ErrorResponse gives, as the value its text is made of. *)
Inductive reason :=
| TooManyFailures
| HBARefused                  (** [hbaReject], sent by the auth backend itself *)
| PasswordFailed
| SessionRate
| DatabaseNotConfigured (database : string)
| CapReached (e : Limits.capErr).

Inductive reply :=
| Fatal (code : string) (why : reason)
| AuthenticationOk
| ParameterStatus (name value : string)
| BackendKeyData (p : Z) (key : bytes)
| ReadyForQuery (tx : ascii).

Definition fakeAuth (p : Z) (key : bytes) : list reply :=
  [AuthenticationOk;
   ParameterStatus "server_version" "16.0 (pgman)";
   ParameterStatus "client_encoding" "UTF8";
   ParameterStatus "DateStyle" "ISO, MDY";
   ParameterStatus "TimeZone" "UTC";
   ParameterStatus "standard_conforming_strings" "on";
   BackendKeyData p key;
   ReadyForQuery "I"].

(** ** The handler *)

(** What the session will be: the admin console, or a pool's client. *)
Inductive purpose := Console | Serve (d : Registry.RouteDecision).

Inductive stage :=
| HReceive
| HLimiter (m : startupMsg)
| HAuth (m : startupMsg)
| HRate (m : startupMsg)
| HRoute (m : startupMsg)
| HResolve (m : startupMsg) (l : Registry.lookup_result)
| HCaps (m : startupMsg) (d : Registry.RouteDecision)
| HRegister (m : startupMsg) (t : purpose)
| HHello (m : startupMsg) (t : purpose) (p : Z) (l : nat)
| HServe (m : startupMsg) (t : purpose) (p : Z) (l : nat)
| HDeregister (m : startupMsg) (t : purpose) (p : Z) (l : nat)
| HRelease (m : startupMsg)
| HClose.

(** What the environment supplies at a stage; an authentication says whether it
    succeeded, whether a client key was captured, and whether the backend has
    reported its refusal to the client. *)
Inductive input :=
| IReceived (r : option firstMsg)
| IAt (now : Z)
| IClock (made now : Z)
| IAuth (now : Z) (ok captured reported : bool)
| IDraw (now p : Z) (key : bytes)
| IFlush (ok : bool)
| IBackend (now : Z) (b : option backendConn)
| IReturned
| IGo.

(** A drawn pid is the number of four random bytes. *)
Definition input_ok (i : input) : Prop :=
  match i with IDraw _ p _ => 0 ≤ p < 2 ^ 32 | _ => True end.

Inductive out :=
| Send (r : reply)
| ForwardCancel (t : cancelTarget).

Definition fatal (code : string) (why : reason) : list out := [Send (Fatal code why)].

(** [opts.adminDatabase != "" && database == opts.adminDatabase], and the two
    conditions for getting in. *)
Definition isConsole (o : handlerOpts) (m : startupMsg) : bool :=
  negb (bool_decide (adminDatabase o = "")) && bool_decide (parameter "database" m = adminDatabase o) &&
  adminSession o && bool_decide (parameter "user" m ∈ adminUsers o).

(** [Route] after [Resolve]. *)
Definition decisionOf (res : Registry.routed) : option Registry.RouteDecision :=
  match res with
  | None => None
  | Some (key, e) =>
      let mode := Registry.effectivePoolMode (Config.PoolMode (Registry.config e)) in
      Some (Registry.mkDecision (Registry.pool e) key mode (bool_decide (mode = "session")))
  end.

Definition or_else (s d : string) : string := if bool_decide (s = "") then d else s.

(** The fields set between the handshake and the relay. *)
Definition configure (o : handlerOpts) (m : startupMsg) (d : Registry.RouteDecision) (s : session) : session :=
  mkSession (id s) (secret s) (user s) (database s) (connectedAt s)
    (or_else (Registry.RoutePoolMode d) "transaction")
    (or_else (Registry.PoolName d) (database s))
    ((λ p, (TrackedParams.Name p, TrackedParams.Value p)) <$>
       TrackedParams.extractTrackedParams (Parameters m) (trackExtraParams o))
    (maxPreparedStmts o) (backend s) (txStartedAt s).

(** The session as the relay starts with it. *)
Definition relaySession (s : session) : Prepared.session :=
  Prepared.mkSession (id s) (poolMode s) None (psLimit s) 0 false false (trackedParams s).

(** One stage; [remote] is the client's host.  A draw of a process id that is taken
    is repeated; the panic of registerSession after a hundred of them is left out
    here, so a handler may try on for ever: every run of the code up to that panic
    is a run of these stages.  Session.v has the count and the panic. *)
Definition hstep (o : handlerOpts) (remote : string) (s : shared) (h : stage) (i : input) :
  option (shared * stage * list out) :=
  match h, i with
  | HReceive, IReceived None => Some (s, HClose, [])
  | HReceive, IReceived (Some (FStartup m)) => Some (s, HLimiter m, [])
  | HReceive, IReceived (Some (FCancel p key)) =>
      Some (s, HClose, match handleCancelRequest p key (sessions s) with
                       | Some t => [ForwardCancel t] | None => [] end)
  | HLimiter m, IAt now =>
      let '(ok, l) := Limits.Allowed now remote (limiter s) in
      if ok then Some (with_limiter l s, HAuth m, [])
      else Some (with_limiter l s, HClose,
             fatal "28000" TooManyFailures)
  | HAuth m, IAuth now ok captured reported =>
      if ok then
        let r := if captured then Registry.remember (parameter "user" m) (registry s) else registry s in
        Some (with_registry r (with_limiter (Limits.RecordSuccess remote (limiter s)) s), HRate m, [])
      else Some (with_limiter (Limits.RecordFailure now remote (limiter s)) s, HClose,
             (if reported then fatal "28000" HBARefused else []) ++ fatal "28P01" PasswordFailed)
  | HRate m, IClock made now =>
      let '(ok, r) := RateLimit.Allow made now (parameter "user" m) (userRate s) in
      if ok then Some (with_userRate r s, HRoute m, [])
      else Some (with_userRate r s, HClose, fatal "53400" SessionRate)
  | HRoute m, IGo =>
      if isConsole o m then Some (s, HRegister m Console, [])
      else Some (s, HResolve m (Registry.resolveRead (registry s) (parameter "database" m)
                                  (parameter "user" m)), [])
  | HResolve m l, IAt now =>
      let '(r, res) := Registry.resolveFinish now l (registry s) in
      match decisionOf res with
      | None => Some (with_registry r s, HClose,
                  fatal "3D000" (DatabaseNotConfigured (parameter "database" m)))
      | Some d => Some (with_registry r s, HCaps m d, [])
      end
  | HCaps m d, IGo =>
      match Limits.Reserve (parameter "user" m) (parameter "database" m) (caps s) with
      | Err e => Some (s, HClose, fatal "53300" (CapReached e))
      | Ok c => Some (with_caps c s, HRegister m (Serve d), [])
      end
  | HRegister m t, IDraw now p key =>
      if (p =? 0) || bool_decide (is_Some (lookupSession p (sessions s))) then Some (s, HRegister m t, [])
      else let '(l, w) := insertSession now p key (parameter "user" m) (parameter "database" m) (sessions s) in
           Some (with_sessions w s, HHello m t p l, [])
  | HHello m t p l, IFlush ok =>
      let hello := Send <$> fakeAuth p (default [] (secret <$> deref (sessions s) l)) in
      if negb ok then Some (s, HDeregister m t p l, hello)
      else match t with
           | Console => Some (s, HServe m t p l, hello)
           | Serve d => Some (with_sessions (modify l (configure o m d) (sessions s)) s, HServe m t p l, hello)
           end
  | HServe m t p l, IBackend now b =>
      Some (with_sessions (modify l (setBackend now b) (sessions s)) s, HServe m t p l, [])
  | HServe m t p l, IReturned => Some (s, HDeregister m t p l, [])
  | HDeregister m t p l, IGo =>
      Some (with_sessions (deregisterSession p (sessions s)) s,
        match t with Console => HClose | Serve _ => HRelease m end, [])
  | HRelease m, IGo =>
      Some (with_caps (Limits.ReleaseSlot (parameter "user" m) (parameter "database" m) (caps s)) s, HClose, [])
  | _, _ => None
  end.

(** Running one handler alone. *)
Fixpoint hrun (o : handlerOpts) (remote : string) (ins : list input) (s : shared) (h : stage) :
  option (shared * stage * list out) :=
  match ins with
  | [] => Some (s, h, [])
  | i :: ins =>
      match hstep o remote s h i with
      | None => None
      | Some (s, h, out1) =>
          match hrun o remote ins s h with
          | None => None
          | Some (s, h, out2) => Some (s, h, out1 ++ out2)
          end
      end
  end.

End Startup.
