(* ===== verification/Server.v ===== *)
(** * The process: accept loops, connection handlers, shutdown

    src/main.go: acceptLoopWithOpts on every listener, the max_client_conn
    semaphore they share, the WaitGroup that counts loops and handlers, and the
    ordered shutdown.  The handlers are the machines of Startup.v; this file
    puts any number of them, the accept loops and the shutdown together, one
    atomic access per step. *)

From S2P Require Import Prelude Limits Registry Session Startup.
Import Session Startup.
Open Scope string_scope.
Open Scope list_scope.
Open Scope nat_scope.

Module Server.

(** ** State *)

(** [setMaxClientConn]: the capacity of the shared semaphore, nil when there
    is no limit. *)
Definition setMaxClientConn (n : Z) : option nat := if (n <=? 0)%Z then None else Some (Z.to_nat n).

Record process := mkProcess {
  shr : shared;
  clientSlots : option nat;     (** the capacity of the channel *)
  used : nat;                   (** what it holds *)
  wg : nat;                     (** the WaitGroup's counter *)
  open : gset nat;              (** the listeners not yet closed *)
  draining : bool;
}.

Definition with_shr x p := mkProcess x (clientSlots p) (used p) (wg p) (open p) (draining p).
Definition with_used n p := mkProcess (shr p) (clientSlots p) n (wg p) (open p) (draining p).
Definition with_wg n p := mkProcess (shr p) (clientSlots p) (used p) n (open p) (draining p).
Definition with_open l p := mkProcess (shr p) (clientSlots p) (used p) (wg p) l (draining p).
Definition with_draining b p := mkProcess (shr p) (clientSlots p) (used p) (wg p) (open p) b.

(** ** Threads *)

(** An accept loop: in Accept, with a client in hand, with a slot reserved for
    it, on its way out, gone. *)
Inductive loop_pc := LAccept | LGot | LSlot | LExit | LGone.

(** The goroutine of a connection: the handler, then its deferred calls. *)
Inductive conn_pc := CRun (h : stage) | CFreeSlot | CWgDone | CGone.

(** [shutdown]: listeners left to close, the drain flag, the HTTP servers, the
    wait for the handlers, the pools, the second wait. *)
Inductive shut_pc :=
| ShRunning
| ShListeners (ls : list nat)
| ShDraining
| ShServers
| ShJoin
| ShPools (clean : bool)
| ShGrace
| ShExit (clean : bool).

Inductive thread :=
| TLoop (i : nat) (l : loop_pc)
| TConn (remote : string) (c : conn_pc)
| TShut (s : shut_pc).

(** ** Steps *)

Section steps.
Context (o : handlerOpts).

(** The new thread, when one is started. *)
Inductive tstep (p : process) : thread → process → thread → option thread → Prop :=
(* acceptLoopWithOpts *)
| l_accept i : i ∈ open p → tstep p (TLoop i LAccept) p (TLoop i LGot) None
| l_retry i : i ∈ open p → tstep p (TLoop i LAccept) p (TLoop i LAccept) None
| l_closed i : i ∉ open p → tstep p (TLoop i LAccept) p (TLoop i LExit) None
| l_unlimited i : clientSlots p = None → tstep p (TLoop i LGot) p (TLoop i LSlot) None
| l_slot i n : clientSlots p = Some n → used p < n →
    tstep p (TLoop i LGot) (with_used (S (used p)) p) (TLoop i LSlot) None
| l_reject i n : clientSlots p = Some n → n ≤ used p → tstep p (TLoop i LGot) p (TLoop i LAccept) None
| l_spawn i remote :
    tstep p (TLoop i LSlot) (with_wg (S (wg p)) p) (TLoop i LAccept) (Some (TConn remote (CRun HReceive)))
| l_exit i n : wg p = S n → tstep p (TLoop i LExit) (with_wg n p) (TLoop i LGone) None
(* handleConnWithOpts and the deferred calls around it *)
| c_handle remote h i s h' out : input_ok i → hstep o remote (shr p) h i = Some (s, h', out) →
    tstep p (TConn remote (CRun h)) (with_shr s p) (TConn remote (CRun h')) None
| c_return remote : tstep p (TConn remote (CRun HClose)) p (TConn remote CFreeSlot) None
| c_unlimited remote : clientSlots p = None → tstep p (TConn remote CFreeSlot) p (TConn remote CWgDone) None
| c_slot remote n k : clientSlots p = Some n → used p = S k →
    tstep p (TConn remote CFreeSlot) (with_used k p) (TConn remote CWgDone) None
| c_done remote n : wg p = S n → tstep p (TConn remote CWgDone) (with_wg n p) (TConn remote CGone) None
(* shutdown *)
| s_signal ls : (∀ i, i ∈ ls ↔ i ∈ open p) → tstep p (TShut ShRunning) p (TShut (ShListeners ls)) None
| s_close i ls : tstep p (TShut (ShListeners (i :: ls))) (with_open (open p ∖ {[ i ]}) p) (TShut (ShListeners ls)) None
| s_closed : tstep p (TShut (ShListeners [])) p (TShut ShDraining) None
| s_drain : tstep p (TShut ShDraining) (with_draining true p) (TShut ShServers) None
| s_servers : tstep p (TShut ShServers) p (TShut ShJoin) None
| s_drained : wg p = 0 → tstep p (TShut ShJoin) p (TShut (ShPools true)) None
| s_timeout : tstep p (TShut ShJoin) p (TShut (ShPools false)) None
| s_pools (clean : bool) : tstep p (TShut (ShPools clean)) p (TShut (if clean then ShExit true else ShGrace)) None
| s_grace : tstep p (TShut ShGrace) p (TShut (ShExit false)) None.

Record sys := mkSys { proc : process; threads : list thread }.

(** Also, the registry's other writers (reloads, the admin API, the reaper) and
    the clock of the limiters move between the handlers' steps. *)
Inductive sstep : sys → sys → Prop :=
| s_thread p ts1 t ts2 p' t' new : tstep p t p' t' new →
    sstep (mkSys p (ts1 ++ t :: ts2)) (mkSys p' (option_list new ++ ts1 ++ t' :: ts2))
| s_registry p ts r : sstep (mkSys p ts) (mkSys (with_shr (with_registry r (shr p)) p) ts).

(** [run] after its listeners are bound: [n] of them, each with a loop that
    holds a token of the WaitGroup. *)
Definition start (n : nat) (maxClientConn : Z) (s : shared) : sys :=
  mkSys (mkProcess s (setMaxClientConn maxClientConn) 0 n (set_seq 0 n) false)
    (TShut ShRunning :: ((λ i, TLoop i LAccept) <$> seq 0 n)).

Definition reachable (n : nat) (m : Z) (s0 : shared) (s : sys) : Prop := rtc sstep (start n m s0) s.
End steps.

End Server.
