(* ===== verification/ServerRuns.v ===== *)
(** * Running the process

    An executable scheduler for the system of Server.v: a move names a thread
    and the choice it makes, [run] plays a list of moves, and what it reaches is
    reachable.  Two runs used by the theorems: a database client that logs in,
    is served and leaves before the process shuts down, and an administrator's
    console session. *)

From S2P Require Import Prelude Config Limits RateLimit Registry Session Startup Server.
Import Session Startup Server.
Open Scope string_scope.
Open Scope list_scope.
Open Scope nat_scope.

Module ServerRuns.

(** ** The scheduler *)

(** What a thread does where it has a choice. *)
Inductive choice := Go | Accepted (remote : string) | Handle (i : input) | Signal (ls : list nat).

Definition input_okb (i : input) : bool :=
  match i with IDraw _ p _ => ((0 <=? p) && (p <? 2 ^ 32))%Z | _ => true end.

Definition play_loop (p : process) (i : nat) (l : loop_pc) (c : choice) : option (process * thread * option thread) :=
  match l, c with
  | LAccept, Go => Some (p, TLoop i (if bool_decide (i ∈ open p) then LGot else LExit), None)
  | LGot, Go => match clientSlots p with
                | None => Some (p, TLoop i LSlot, None)
                | Some n => if used p <? n then Some (with_used (S (used p)) p, TLoop i LSlot, None)
                            else Some (p, TLoop i LAccept, None)
                end
  | LSlot, Accepted r => Some (with_wg (S (wg p)) p, TLoop i LAccept, Some (TConn r (CRun HReceive)))
  | LExit, Go => match wg p with S n => Some (with_wg n p, TLoop i LGone, None) | 0 => None end
  | _, _ => None
  end.

Definition play_conn (o : handlerOpts) (p : process) (r : string) (cp : conn_pc) (c : choice) :
  option (process * thread * option thread) :=
  match cp, c with
  | CRun h, Handle i =>
      if input_okb i then
        match hstep o r (shr p) h i with
        | Some (s, h', _) => Some (with_shr s p, TConn r (CRun h'), None)
        | None => None
        end
      else None
  | CRun HClose, Go => Some (p, TConn r CFreeSlot, None)
  | CFreeSlot, Go => match clientSlots p, used p with
                     | None, _ => Some (p, TConn r CWgDone, None)
                     | Some _, S k => Some (with_used k p, TConn r CWgDone, None)
                     | _, _ => None
                     end
  | CWgDone, Go => match wg p with S n => Some (with_wg n p, TConn r CGone, None) | 0 => None end
  | _, _ => None
  end.

Definition play_shut (p : process) (s : shut_pc) (c : choice) : option (process * thread * option thread) :=
  match s, c with
  | ShRunning, Signal ls =>
      if bool_decide (list_to_set ls = open p) then Some (p, TShut (ShListeners ls), None) else None
  | ShListeners (i :: ls), Go => Some (with_open (open p ∖ {[ i ]}) p, TShut (ShListeners ls), None)
  | ShListeners [], Go => Some (p, TShut ShDraining, None)
  | ShDraining, Go => Some (with_draining true p, TShut ShServers, None)
  | ShServers, Go => Some (p, TShut ShJoin, None)
  | ShJoin, Go => Some (p, TShut (ShPools (wg p =? 0)), None)
  | ShPools clean, Go => Some (p, TShut (if clean then ShExit true else ShGrace), None)
  | ShGrace, Go => Some (p, TShut (ShExit false), None)
  | _, _ => None
  end.

Definition play_thread (o : handlerOpts) (p : process) (t : thread) (c : choice) :
  option (process * thread * option thread) :=
  match t with
  | TLoop i l => play_loop p i l c
  | TConn r cp => play_conn o p r cp c
  | TShut s => play_shut p s c
  end.

(** A move: the position of the thread, and its choice. *)
Definition play (o : handlerOpts) (m : nat * choice) (s : sys) : option sys :=
  match threads s !! m.1 with
  | None => None
  | Some t =>
      match play_thread o (proc s) t m.2 with
      | None => None
      | Some (p, t', new) =>
          Some (mkSys p (option_list new ++ take m.1 (threads s) ++ t' :: drop (S m.1) (threads s)))
      end
  end.

Fixpoint run (o : handlerOpts) (ms : list (nat * choice)) (s : sys) : option sys :=
  match ms with
  | [] => Some s
  | m :: ms => match play o m s with None => None | Some s => run o ms s end
  end.

(** ** It follows the step relation *)

Lemma input_okb_sound i : input_okb i = true → input_ok i.
Proof. destruct i; simpl; intros; to_prop; lia || done. Qed.

Lemma play_thread_sound o p t c p' t' new :
  play_thread o p t c = Some (p', t', new) → tstep o p t p' t' new.
Proof.
  destruct t as [i l|r cp|sh]; simpl; intros H.
  - destruct l, c; simpl in H; try done; repeat case_match; simplify_eq; to_prop; by econstructor.
  - destruct cp as [h| | |], c; simpl in H; try done; repeat case_match; simplify_eq; try (by econstructor).
    all: eapply c_handle; [by apply input_okb_sound|done].
  - destruct sh as [|[|i ls]| | | |cl| |], c; simpl in H; try done; repeat case_match; simplify_eq; try (by constructor).
    + to_prop. constructor. intros i. subst. set_solver.
    + destruct (wg p' =? 0) eqn:E; constructor. by apply Nat.eqb_eq.
Qed.

Lemma play_sound o m s s' : play o m s = Some s' → sstep o s s'.
Proof.
  unfold play. destruct (threads s !! m.1) as [t|] eqn:E; [|done].
  destruct (play_thread o (proc s) t m.2) as [[[p t'] new]|] eqn:Ep; [|done]. intros [= <-].
  destruct s as [p0 ts]. cbn [threads proc] in *. rewrite <- (take_drop_middle ts m.1 t E) at 1.
  constructor. by eapply play_thread_sound.
Qed.

(** What a run ends in is reachable. *)
Lemma run_reachable o n m s0 ms s : run o ms (start n m s0) = Some s → reachable o n m s0 s.
Proof.
  unfold reachable. generalize (start n m s0). induction ms as [|mv ms IH]; intros s1 H; simpl in H.
  - injection H as <-. constructor.
  - destruct (play o mv s1) as [s2|] eqn:E; [|done]. eapply rtc_l; [by eapply play_sound|by apply IH].
Qed.

(** The state a run ends in. *)
Definition after (o : handlerOpts) (n : nat) (m : Z) (s0 : shared) (ms : list (nat * choice)) : sys :=
  default (start n m s0) (run o ms (start n m s0)).

Lemma after_reachable o n m s0 ms : reachable o n m s0 (after o n m s0 ms).
Proof.
  unfold after. destruct (run o ms (start n m s0)) as [s|] eqn:E; simpl; [by eapply run_reachable|].
  unfold reachable. constructor.
Qed.

(** ** Two runs *)

Definition day_opts : handlerOpts := mkHandlerOpts "pgman" true (adminUserSet ["root"; ""]) 100 [].

Definition day_pool : Config.PoolConfig :=
  Config.mkPoolConfig "postgres://app@db/shop" "db.internal:5432" 10 None false (Some ["shop_ro"]) "" 0 0 0 0 0 0.

Definition day_shared : shared :=
  mkShared (Limits.newAuthLimiterWithCapacity 16) (RateLimit.NewRateLimiter 5 10)
    (Some (Limits.NewConnLimiter 4 2)) (Registry.NewPoolRegistry 0 None {[ "shop" := day_pool ]}) init_world.

Definition startup_of (user database : string) : firstMsg :=
  FStartup (mkStartup (<[ "user" := user ]> {[ "database" := database ]})).

(** From the accept to the end of the handshake. *)
Definition arrive (user database : string) : list (nat * choice) :=
  [(1, Go); (1, Go); (1, Accepted "10.0.0.7");
   (0, Handle (IReceived (Some (startup_of user database)))); (0, Handle (IAt 10%Z));
   (0, Handle (IAuth 11%Z true false false)); (0, Handle (IClock 12%Z 12%Z)); (0, Handle IGo)].

Definition client_in : list (nat * choice) :=
  arrive "alice" "shop_ro" ++
  [(0, Handle (IAt 13%Z)); (0, Handle IGo); (0, Handle (IDraw 14%Z 77%Z [1; 2; 3; 4]%Z));
   (0, Handle (IFlush true))].

Definition admin_in : list (nat * choice) :=
  arrive "root" "pgman" ++
  [(0, Handle (IDraw 14%Z 78%Z [1; 2; 3; 4]%Z)); (0, Handle (IFlush true))].

(** The client leaves; its goroutine ends. *)
Definition client_out : list (nat * choice) :=
  client_in ++ [(0, Handle IReturned); (0, Handle IGo); (0, Handle IGo); (0, Go); (0, Go); (0, Go)].

(** The process is told to stop. *)
Definition stopped : list (nat * choice) :=
  client_out ++ [(1, Signal [0]); (1, Go); (1, Go); (1, Go); (1, Go); (2, Go); (2, Go); (1, Go)].

End ServerRuns.
