(* ===== verification/ServerTheorems.v ===== *)
(** * The process: limits, clean-up and drain

    In every interleaving of accept loops, connection handlers, registry
    changes and the shutdown: the limits hold, what a connection took it gives
    back, the wait for the drain is sound, and a running session's pool cannot
    be evicted under it. *)

From S2P Require Import Prelude Limits LimitsTheorems Registry Session SessionTheorems Startup Server ServerRuns.
Import Session SessionTheorems Startup Server ServerRuns.
Open Scope string_scope.
Open Scope list_scope.
Open Scope nat_scope.

Module ServerTheorems.

(** ** What a thread holds *)

(** A token of the WaitGroup. *)
Definition token (t : thread) : nat :=
  match t with
  | TLoop _ LGone | TConn _ CGone | TShut _ => 0
  | _ => 1
  end.

(** A slot of the semaphore. *)
Definition slot (t : thread) : nat :=
  match t with
  | TLoop _ LSlot | TConn _ (CRun _) | TConn _ CFreeSlot => 1
  | _ => 0
  end.

(** A reservation with the connection caps. *)
Definition whose (m : startupMsg) : string * string := (parameter "user" m, parameter "database" m).

Definition resv_stage (h : stage) : list (string * string) :=
  match h with
  | HRegister m (Serve _) | HHello m (Serve _) _ _ | HServe m (Serve _) _ _
  | HDeregister m (Serve _) _ _ | HRelease m => [whose m]
  | _ => []
  end.

Definition resv (t : thread) : list (string * string) :=
  match t with TConn _ (CRun h) => resv_stage h | _ => [] end.

(** A registered session. *)
Definition place_stage (h : stage) : option (Z * nat) :=
  match h with
  | HHello _ _ p l | HServe _ _ p l | HDeregister _ _ p l => Some (p, l)
  | _ => None
  end.

Definition place (t : thread) : option (Z * nat) :=
  match t with TConn _ (CRun h) => place_stage h | _ => None end.

(** ** The invariant *)

Section process.
Context (o : handlerOpts) (a b : Z) (mx : option nat).

(** What is true of a session while its handler is at a stage. *)
Definition session_of (m : startupMsg) (t : purpose) (served : bool) (s : session) : Prop :=
  user s = parameter "user" m ∧ database s = parameter "database" m ∧
  match t with
  | Console => poolName s = ""
  | Serve d => if served then poolName s = or_else (Registry.PoolName d) (parameter "database" m)
               else True
  end.

Definition stage_ok (w : world) (h : stage) : Prop :=
  match h with
  | HRegister m Console => isConsole o m = true
  | HHello m t _ l | HDeregister m t _ l =>
      (t = Console → isConsole o m = true) ∧ ∃ s, deref w l = Some s ∧ session_of m t false s
  | HServe m t _ l =>
      (t = Console → isConsole o m = true) ∧ ∃ s, deref w l = Some s ∧ session_of m t true s
  | _ => True
  end.

Definition shut_ok (p : process) (s : shut_pc) : Prop :=
  match s with
  | ShRunning => True
  | ShListeners ls => ∀ i, i ∈ open p → i ∈ ls
  | ShPools true | ShExit true => open p = ∅ ∧ draining p = true ∧ wg p = 0
  | ShDraining => open p = ∅
  | _ => open p = ∅ ∧ draining p = true
  end.

Definition thread_ok (p : process) (t : thread) : Prop :=
  match t with
  | TConn _ (CRun h) => stage_ok (sessions (shr p)) h
  | TShut s => shut_ok p s
  | _ => True
  end.

Definition slots_ok (p : process) (n : nat) : Prop :=
  match clientSlots p with Some m => n = used p ∧ used p ≤ m | None => True end.

Definition caps_ok (p : process) (L : list (string * string)) : Prop :=
  match caps (shr p) with Some c => LimitsTheorems.CapInv a b (c, L) | None => True end.

Definition is_shut (t : thread) : nat := match t with TShut _ => 1 | _ => 0 end.

Record inv (s : sys) : Prop := mkInv {
  i_max : clientSlots (proc s) = mx;
  i_tokens : total token (threads s) = wg (proc s);
  i_slots : slots_ok (proc s) (total slot (threads s));
  i_caps : caps_ok (proc s) (threads s ≫= resv);
  i_table : owned place (sessions (shr (proc s))) (threads s);
  i_threads t : t ∈ threads s → thread_ok (proc s) t;
  i_one : total is_shut (threads s) ≤ 1;
}.

(** *** One stage of a handler *)

(** What a stage does to the reservations. *)
Inductive caps_step (c : option Limits.ConnLimiter) (r : list (string * string)) :
  option Limits.ConnLimiter → list (string * string) → Prop :=
| cs_same : caps_step c r c r
| cs_reserve u d c' : r = [] → Limits.Reserve u d c = Ok c' → caps_step c r c' [(u, d)]
| cs_release u d : r = [(u, d)] → caps_step c r (Limits.ReleaseSlot u d c) [].

Record hstep_spec (s : shared) (h : stage) (s' : shared) (h' : stage) : Prop := mkSpec {
  h_table : table_step (sessions s) (place_stage h) (sessions s') (place_stage h');
  h_ok : stage_ok (sessions s') h';
  h_caps : caps_step (caps s) (resv_stage h) (caps s') (resv_stage h');
}.

Lemma deref_modify w l f s : deref w l = Some s → deref (modify l f w) l = Some (f s).
Proof. unfold deref, modify; simpl. intros H. by rewrite list_lookup_alter_eq, H. Qed.

Lemma hstep_register remote s m t now p key s' h' out :
  stage_ok (sessions s) (HRegister m t) → (0 ≤ p < 2 ^ 32)%Z →
  hstep o remote s (HRegister m t) (IDraw now p key) = Some (s', h', out) →
  hstep_spec s (HRegister m t) s' h'.
Proof.
  intros Hok Hp. unfold hstep.
  destruct ((p =? 0)%Z || bool_decide (is_Some (lookupSession p (sessions s)))) eqn:E.
  - intros [= <- <- <-]. split; [apply ts_same|done|apply cs_same].
  - apply orb_false_iff in E as [Ep El]. to_prop.
    assert (Hn : lookupSession p (sessions s) = None) by (destruct (lookupSession _ _); naive_solver).
    intros [= <- <- <-]. split.
    + apply ts_insert; [done|unfold valid_pid; lia|done].
    + split; [by intros ->|]. eexists. split; [unfold deref; simpl; by rewrite list_lookup_middle|].
      by destruct t.
    + destruct t; apply cs_same.
Qed.

Lemma hstep_hello remote s m t p l ok s' h' out :
  stage_ok (sessions s) (HHello m t p l) →
  hstep o remote s (HHello m t p l) (IFlush ok) = Some (s', h', out) →
  hstep_spec s (HHello m t p l) s' h'.
Proof.
  intros [Hc (e & He & Hu & Hd & Ht)]. unfold hstep. destruct ok; cbn [negb]; [destruct t as [|d]|];
    intros [= <- <- <-].
  - split; [apply ts_same| |apply cs_same]. split; [done|]. by exists e.
  - split; [by eapply ts_modify| |apply cs_same]. split; [done|].
    eexists. split; [simpl; by apply deref_modify|]. split_and!; [done..|]. simpl. by rewrite Hd.
  - split; [apply ts_same| |destruct t; apply cs_same]. split; [done|]. by exists e.
Qed.

Lemma hstep_serve remote s m t p l i s' h' out :
  stage_ok (sessions s) (HServe m t p l) →
  hstep o remote s (HServe m t p l) i = Some (s', h', out) → hstep_spec s (HServe m t p l) s' h'.
Proof.
  intros [Hc (e & He & Hu & Hd & Ht)]. unfold hstep. destruct i as [| | | | | |now bk| |]; try done;
    intros [= <- <- <-].
  - split; [by eapply ts_modify| |destruct t; apply cs_same]. split; [done|].
    eexists. split; [simpl; by apply deref_modify|]. done.
  - split; [apply ts_same| |destruct t; apply cs_same]. split; [done|]. exists e. split_and!; try done.
    by destruct t.
Qed.

Lemma hstep_effect remote s h i s' h' out :
  hstep o remote s h i = Some (s', h', out) → input_ok i → stage_ok (sessions s) h →
  hstep_spec s h s' h'.
Proof.
  intros H Hin Hok. destruct h as [|m|m|m|m|m l|m d|m t|m t p l|m t p l|m t p l|m|].
  - destruct i as [[[]|]| | | | | | | |]; try done; simpl in H; simplify_eq;
      split; done || apply ts_same || apply cs_same.
  - destruct i; try done. simpl in H. destruct (Limits.Allowed _ _ _) as [[] ?]; simplify_eq;
      split; done || apply ts_same || apply cs_same.
  - destruct i as [| | |now ok captured| | | | |]; try done. simpl in H. destruct ok; simplify_eq;
      split; done || apply ts_same || apply cs_same.
  - destruct i; try done. simpl in H. destruct (RateLimit.RateLimit.Allow _ _ _ _) as [[] ?]; simplify_eq;
      split; done || apply ts_same || apply cs_same.
  - destruct i; try done. simpl in H. destruct (isConsole o m) eqn:E; simplify_eq;
      split; done || apply ts_same || apply cs_same.
  - destruct i; try done. simpl in H. destruct (Registry.resolveFinish _ _ _) as [r res].
    destruct (decisionOf res); simplify_eq; split; done || apply ts_same || apply cs_same.
  - destruct i; try done. simpl in H. destruct (Limits.Reserve _ _ _) as [c|e] eqn:E; simplify_eq.
    + split; [apply ts_same|done|by apply cs_reserve].
    + split; [apply ts_same|done|apply cs_same].
  - destruct i as [| | | |now p key| | | |]; try done. by eapply hstep_register.
  - destruct i as [| | | | |ok| | |]; try done. by eapply hstep_hello.
  - by eapply hstep_serve.
  - destruct i; try done. simpl in H. simplify_eq.
    split; [by destruct t; eapply ts_delete|by destruct t|destruct t; apply cs_same].
  - destruct i; try done. simpl in H. simplify_eq. split; [apply ts_same|done|by apply cs_release].
  - by destruct i.
Qed.

Lemma stage_ok_frame w w' h :
  (∀ p l, place_stage h = Some (p, l) → deref w' l = deref w l) → stage_ok w h → stage_ok w' h.
Proof.
  intros Hf. destruct h; simpl in *; try done; intros [Hc (e & He & Hs)]; (split; [done|]); exists e;
    (split; [|done]); by rewrite (Hf _ _ eq_refl).
Qed.

(** *** One step of a thread *)

Lemma CapInv_perm c L L' :
  L ≡ₚ L' → LimitsTheorems.CapInv a b (c, L) → LimitsTheorems.CapInv a b (c, L').
Proof.
  intros Hp [Hl Hd Hu Hdl Hul].
  assert (Ed : ∀ d, LimitsTheorems.on_db d L' = LimitsTheorems.on_db d L)
    by (intros d; unfold LimitsTheorems.on_db; by rewrite Hp).
  assert (Eu : ∀ u, LimitsTheorems.of_user u L' = LimitsTheorems.of_user u L)
    by (intros u; unfold LimitsTheorems.of_user; by rewrite Hp).
  split; cbn [fst snd] in *.
  - done.
  - eapply LimitsTheorems.counts_ext; [|exact Hd]. intros k. cbn beta. by rewrite Ed.
  - eapply LimitsTheorems.counts_ext; [|exact Hu]. intros k. cbn beta. by rewrite Eu.
  - intros Ha d. rewrite Ed. auto.
  - intros Hb u. rewrite Eu. auto.
Qed.

Lemma caps_step_ok p c' r r' L1 L2 :
  caps_step (caps (shr p)) r c' r' → caps_ok p (L1 ++ r ++ L2) →
  match c' with Some c => LimitsTheorems.CapInv a b (c, L1 ++ r' ++ L2) | None => True end.
Proof.
  unfold caps_ok. intros Hs. destruct Hs as [|u d c' -> Hr|u d ->]; [done|..].
  - destruct (caps (shr p)) as [c|]; [|simpl in Hr; by simplify_eq].
    destruct c' as [c'|]; [|done]. simpl. intros Hi.
    apply (CapInv_perm _ ((u, d) :: L1 ++ L2)); [by rewrite Permutation_middle|].
    by eapply LimitsTheorems.cap_reserve_inv.
  - destruct (caps (shr p)) as [c|] eqn:E; [|done]. simpl. intros Hi.
    by eapply LimitsTheorems.cap_release_inv.
Qed.

Definition opt {A} (f : thread → A) (d : A) (new : option thread) : A :=
  match new with Some t => f t | None => d end.

Record effect (p : process) (t : thread) (p' : process) (t' : thread) (new : option thread) : Prop := mkEff {
  f_max : clientSlots p' = clientSlots p;
  f_token : token t' + opt token 0 new + wg p = token t + wg p';
  f_slots n : slots_ok p (n + slot t) → slots_ok p' (n + slot t' + opt slot 0 new);
  f_caps L1 L2 : caps_ok p (L1 ++ resv t ++ L2) → caps_ok p' (L1 ++ resv t' ++ L2);
  f_table : table_step (sessions (shr p)) (place t) (sessions (shr p')) (place t');
  f_self : thread_ok p' t';
  f_new u : new = Some u → ∃ remote, u = TConn remote (CRun HReceive);
  f_shut : is_shut t' = is_shut t;
  f_glob : is_shut t = 0 → open p' = open p ∧ draining p' = draining p;
  f_wg : token t = 0 → is_shut t = 1 ∧ wg p' = wg p;
}.

Lemma tstep_effect p t p' t' new :
  tstep o p t p' t' new → thread_ok p t → effect p t p' t' new.
Proof.
  intros Hs Hok. destruct Hs; simpl in *.
  all: try (split; simpl; unfold slots_ok in *; simpl; repeat case_match; try done; try apply ts_same;
    intros; simplify_eq; naive_solver lia).
  - (* a handler *)
    destruct (hstep_effect remote (shr p) h i s h' out0) as [Ht Hk Hc]; [done..|].
    split; simpl; try done.
    + intros n. by rewrite !Nat.add_0_r.
    + intros L1 L2 Hi. unfold caps_ok. simpl. by eapply caps_step_ok.
  - (* a listener is closed *)
    split; simpl; try done; [|apply ts_same|].
    + intros n. by rewrite !Nat.add_0_r.
    + intros j Hj. specialize (Hok j). set_solver.
  - (* the last one was *)
    split; simpl; try done; [|apply ts_same|].
    + intros n. by rewrite !Nat.add_0_r.
    + apply elem_of_equiv_empty_L. intros j Hj. specialize (Hok j Hj). set_solver.
Qed.

(** *** Preservation *)

(** Adding the new thread, if there is one. *)
Lemma spawn_total (f : thread → nat) new ts :
  total f (option_list new ++ ts) = opt f 0 new + total f ts.
Proof. by destruct new. Qed.

Lemma spawn_resv new ts :
  (∀ u, new = Some u → ∃ remote, u = TConn remote (CRun HReceive)) →
  (option_list new ++ ts) ≫= resv = ts ≫= resv.
Proof. intros H. destruct new as [t|]; [|done]. by destruct (H t eq_refl) as [r ->]. Qed.

(** A thread that did not move still satisfies its assertion. *)
Lemma other_ok p t p' t' new ts1 ts2 u :
  inv (mkSys p (ts1 ++ t :: ts2)) → effect p t p' t' new →
  (∀ v q m, v ∈ ts1 ++ ts2 → place v = Some (q, m) → deref (sessions (shr p')) m = deref (sessions (shr p)) m) →
  u ∈ ts1 ++ ts2 → thread_ok p' u.
Proof.
  intros Hi He Frame Hu. assert (Hok : thread_ok p u) by (apply (i_threads _ Hi); set_solver).
  destruct u as [| |sh]; [done| |].
  - destruct c as [h| | |]; try done. simpl in *. eapply stage_ok_frame; [|done]. intros q m Hp.
    by apply (Frame (TConn remote (CRun h)) q m).
  - assert (Ht : is_shut t = 0).
    { pose proof (i_one _ Hi) as H1. cbn [threads] in H1. rewrite total_mid in H1.
      apply elem_of_app in Hu as [Hu|Hu]; apply (total_elem is_shut) in Hu; simpl in Hu; lia. }
    destruct (f_glob _ _ _ _ _ He Ht) as [Eo Ed]. simpl in *. unfold shut_ok in *. rewrite Eo, Ed.
    destruct sh as [| | | | |[]| |[]]; try done; destruct_and!; (split_and!; [done..|]).
    all: pose proof (i_tokens _ Hi) as Hk; cbn [threads proc] in Hk; rewrite total_mid in Hk;
      destruct (f_wg _ _ _ _ _ He); lia.
Qed.

Lemma inv_thread p t p' t' new ts1 ts2 :
  inv (mkSys p (ts1 ++ t :: ts2)) → effect p t p' t' new →
  inv (mkSys p' (option_list new ++ ts1 ++ t' :: ts2)).
Proof.
  intros Hi He. destruct (owned_step place _ _ _ _ _ _ (i_table _ Hi) (f_table _ _ _ _ _ He)) as [Ho Frame].
  split; cbn [proc threads].
  - rewrite (f_max _ _ _ _ _ He). apply (i_max _ Hi).
  - rewrite spawn_total, total_mid. pose proof (i_tokens _ Hi) as H. cbn [proc threads] in H.
    rewrite total_mid in H. pose proof (f_token _ _ _ _ _ He). lia.
  - rewrite spawn_total, total_mid. pose proof (i_slots _ Hi) as H. cbn [proc threads] in H. rewrite total_mid in H.
    pose proof (f_slots _ _ _ _ _ He (total slot ts1 + total slot ts2)) as K.
    replace (opt slot 0 new + (total slot ts1 + slot t' + total slot ts2))
      with (total slot ts1 + total slot ts2 + slot t' + opt slot 0 new) by lia.
    apply K. eapply eq_ind; [exact H|]. lia.
  - rewrite spawn_resv by apply He. pose proof (i_caps _ Hi) as H. cbn [proc threads] in H.
    rewrite bind_app, bind_cons in *. by apply (f_caps _ _ _ _ _ He).
  - destruct new as [u|]; [|exact Ho]. simpl. apply owned_spawn; [exact Ho|].
    by destruct (f_new _ _ _ _ _ He u eq_refl) as [r ->].
  - intros u Hu. assert (Hc : u ∈ option_list new ∨ u = t' ∨ u ∈ ts1 ++ ts2) by set_solver.
    destruct Hc as [Hn|[->|Hin]].
    + destruct new as [v|]; simpl in Hn; [|set_solver]. apply list_elem_of_singleton in Hn as ->.
      by destruct (f_new _ _ _ _ _ He v eq_refl) as [r ->].
    + apply He.
    + by eapply other_ok.
  - rewrite spawn_total, total_mid. pose proof (i_one _ Hi) as H. cbn [threads] in H. rewrite total_mid in H.
    rewrite (f_shut _ _ _ _ _ He). destruct new as [u|]; simpl; [|lia].
    destruct (f_new _ _ _ _ _ He u eq_refl) as [r ->]. simpl. lia.
Qed.

Lemma inv_registry p ts r : inv (mkSys p ts) → inv (mkSys (with_shr (with_registry r (shr p)) p) ts).
Proof. intros [H1 H2 H3 H4 H5 H6 H7]. split; done. Qed.

Lemma inv_step s s' : sstep o s s' → inv s → inv s'.
Proof.
  intros Hs Hi. destruct Hs as [p ts1 t ts2 p' t' new Ht|p ts r]; [|by apply inv_registry].
  eapply inv_thread; [done|]. eapply tstep_effect; [done|]. apply (i_threads _ Hi). set_solver.
Qed.

(** The shared state a process starts with: no sessions, and counters at zero. *)
Definition fresh (s : shared) : Prop :=
  sessions s = init_world ∧ (caps s = None ∨ caps s = Some (Limits.NewConnLimiter a b)).

Lemma loops_total (f : thread → nat) c k n :
  (∀ i, f (TLoop i LAccept) = c) → total f ((λ i, TLoop i LAccept) <$> seq k n) = n * c.
Proof.
  intros Hf. revert k. induction n as [|n IH]; intros k; [done|].
  cbn [seq fmap list_fmap]. rewrite total_cons, Hf. specialize (IH (S k)). lia.
Qed.

Lemma inv_start n m s0 : fresh s0 → mx = setMaxClientConn m → inv (start n m s0).
Proof.
  intros [Hs Hc] ->.
  assert (Hl : ∀ t, t ∈ threads (start n m s0) → t = TShut ShRunning ∨ ∃ i, t = TLoop i LAccept).
  { simpl. intros t [->|(i & -> & _)%list_elem_of_fmap]%elem_of_cons; eauto. }
  assert (Hloops : ∀ f : thread → nat, total f (threads (start n m s0)) =
    f (TShut ShRunning) + total f ((λ i, TLoop i LAccept) <$> seq 0 n)) by done.
  split.
  - done.
  - rewrite Hloops, (loops_total token 1) by done. simpl. lia.
  - unfold slots_ok; simpl. destruct (setMaxClientConn m); [|done]. split; [|lia].
    change (total slot (threads (start n m s0)) = 0). rewrite Hloops, (loops_total slot 0) by done. simpl. lia.
  - assert (E : ∀ k, ((λ i, TLoop i LAccept) <$> seq k n) ≫= resv = []).
    { clear. induction n as [|n IH]; intros k; [done|]. simpl. apply IH. }
    assert (E' : threads (start n m s0) ≫= resv = []) by apply E.
    unfold caps_ok. rewrite E'. simpl. destruct Hc as [->| ->]; [done|].
    apply LimitsTheorems.cap_reachable_inv, LimitsTheorems.cap_init.
  - simpl. rewrite Hs. apply owned_init. intros t Ht.
    destruct (Hl t Ht) as [->|[i ->]]; done.
  - intros t Ht. destruct (Hl t Ht) as [->|[i ->]]; done.
  - rewrite Hloops, (loops_total is_shut 0) by done. simpl. lia.
Qed.

End process.

Lemma reachable_inv o a b n m s0 s :
  fresh a b s0 → reachable o n m s0 s → inv o a b (setMaxClientConn m) s.
Proof.
  intros Hf Hr. unfold reachable in Hr.
  apply (rtc_ind_r (inv o a b (setMaxClientConn m)) (start n m s0)) in Hr; [done| |].
  - by apply inv_start.
  - intros. by eapply inv_step.
Qed.

(** ** Theorems *)

(** A connection that is being handled. *)
Definition handled (t : thread) : bool := match t with TConn _ (CRun _) => true | _ => false end.

Lemma handled_slot ts : length (filter (λ t, handled t = true) ts) ≤ total slot ts.
Proof.
  induction ts as [|t ts IH]; [done|]. rewrite filter_cons, total_cons.
  destruct (decide (handled t = true)) as [H|H]; [|lia]. simpl.
  destruct t as [|r []|]; simpl in *; done || lia.
Qed.

Definition sessions_of (s : sys) : list (string * string) := threads s ≫= resv.

(** However many listeners there are and however their loops and handlers
    interleave, the connections being handled never exceed max_client_conn, the
    counters of max_db_connections and max_user_connections are exactly the
    connections between their reservation and their release, and neither cap is
    exceeded. *)
Theorem process_limits o a b n m s0 s :
  fresh a b s0 → reachable o n m s0 s →
  ((0 < m)%Z → (Z.of_nat (length (filter (λ t, handled t = true) (threads s))) ≤ m)%Z) ∧
  ∀ c, caps (shr (proc s)) = Some c →
    (∀ d, Limits.count (Limits.perDB c) d = LimitsTheorems.on_db d (sessions_of s) ∧
          ((0 < a)%Z → (LimitsTheorems.on_db d (sessions_of s) ≤ a)%Z)) ∧
    (∀ u, Limits.count (Limits.perUser c) u = LimitsTheorems.of_user u (sessions_of s) ∧
          ((0 < b)%Z → (LimitsTheorems.of_user u (sessions_of s) ≤ b)%Z)).
Proof.
  intros Hf Hr. pose proof (reachable_inv _ _ _ _ _ _ _ Hf Hr) as Hi. split.
  - intros Hm. pose proof (i_slots _ _ _ _ _ Hi) as Hs. pose proof (i_max _ _ _ _ _ Hi) as Hx.
    unfold slots_ok in Hs. rewrite Hx in Hs. unfold setMaxClientConn in Hs.
    rewrite (proj2 (Z.leb_gt _ _)) in Hs by done. pose proof (handled_slot (threads s)). lia.
  - intros c Hc. pose proof (i_caps _ _ _ _ _ Hi) as K. unfold caps_ok in K. rewrite Hc in K.
    destruct K as [_ Hd Hu Hdl Hul]. cbn [fst snd] in *. split.
    + intros d. split; [apply Hd|]. intros. by apply Hdl.
    + intros u. split; [apply Hu|]. intros. by apply Hul.
Qed.

Lemma day_fresh : fresh 4 2 day_shared.
Proof. split; [done|by right]. Qed.

Lemma process_limits_witness :
  let s := after day_opts 1 2 day_shared client_in in
  (Z.of_nat (length (filter (λ t, handled t = true) (threads s))) ≤ 2)%Z ∧
  sessions_of s = [("alice", "shop_ro")] ∧
  ∀ c, caps (shr (proc s)) = Some c → Limits.count (Limits.perUser c) "alice" = 1%Z.
Proof.
  destruct (process_limits day_opts 4 2 1 2 day_shared _ day_fresh
    (after_reachable day_opts 1 2 day_shared client_in)) as [H1 H2].
  split; [exact (H1 eq_refl)|]. split; [vm_compute; reflexivity|]. intros c Hc. destruct (H2 c Hc) as [_ H3].
  rewrite (proj1 (H3 "alice")). vm_compute. reflexivity.
Defined.

(** C24: Nothing leaks: once every connection's goroutine has ended, no session
    is registered, no database or user has a reservation left, and every slot
    is free except one a loop may have just taken. *)
Theorem everything_given_back o a b n m s0 s :
  fresh a b s0 → reachable o n m s0 s →
  (∀ r c, TConn r c ∈ threads s → c = CGone) →
  (∀ p, lookupSession p (sessions (shr (proc s))) = None) ∧
  (∀ c, caps (shr (proc s)) = Some c → Limits.perDB c = ∅ ∧ Limits.perUser c = ∅) ∧
  ((0 < m)%Z → (∀ i, TLoop i LSlot ∉ threads s) → used (proc s) = 0).
Proof.
  intros Hf Hr Hall. pose proof (reachable_inv _ _ _ _ _ _ _ Hf Hr) as Hi. split_and!.
  - intros p. destruct (lookupSession p _) as [l|] eqn:E; [|done].
    destruct (o_owner _ _ _ (i_table _ _ _ _ _ Hi) p l E) as (t & Ht & Hp).
    destruct t as [|r c|]; try done. by rewrite (Hall r c Ht) in Hp.
  - intros c Hc. pose proof (i_caps _ _ _ _ _ Hi) as K. unfold caps_ok in K. rewrite Hc in K.
    assert (E : threads s ≫= resv = []).
    { assert (Hz : ∀ t, t ∈ threads s → resv t = []).
      { intros [|r k|] Ht; try done. by rewrite (Hall r k Ht). }
      revert Hz. clear. induction (threads s) as [|t ts IH]; intros Hz; [done|].
      rewrite bind_cons, (Hz t), IH by set_solver. done. }
    rewrite E in K. destruct K as [_ Hd Hu _ _]. cbn [fst snd] in *.
    assert (Empty : ∀ m : gmap string Z, LimitsTheorems.counts m (λ _, 0%Z) → m = ∅).
    { intros x Hx. apply map_empty. intros k. destruct (Hx k) as [H1 H2]. unfold Limits.count in H1.
      destruct (x !! k) as [v|]; [|done]. simpl in H1. subst. by destruct H2. }
    split; apply Empty; [exact Hd|exact Hu].
  - intros Hm Hno. pose proof (i_slots _ _ _ _ _ Hi) as Hs. pose proof (i_max _ _ _ _ _ Hi) as Hx.
    unfold slots_ok in Hs. rewrite Hx in Hs. unfold setMaxClientConn in Hs.
    rewrite (proj2 (Z.leb_gt _ _)) in Hs by done. destruct Hs as [<- _]. apply total_zero.
    intros [i []|r c|] Ht; try done; [by destruct (Hno i)|]. by rewrite (Hall r c Ht).
Qed.

Lemma everything_given_back_witness :
  let s := after day_opts 1 2 day_shared client_out in
  (∀ p, lookupSession p (sessions (shr (proc s))) = None) ∧ used (proc s) = 0.
Proof.
  assert (E : threads (after day_opts 1 2 day_shared client_out) =
    [TConn "10.0.0.7" CGone; TShut ShRunning; TLoop 0 LAccept]) by (vm_compute; reflexivity).
  destruct (everything_given_back day_opts 4 2 1 2 day_shared _ day_fresh
    (after_reachable day_opts 1 2 day_shared client_out)) as (H1 & _ & H2).
  - intros r c Hc. rewrite E in Hc. clear E. set_solver.
  - split; [exact H1|]. apply H2; [done|]. intros i Hi. rewrite E in Hi. clear E H1 H2. set_solver.
Defined.

(** C15: The drain is sound: a shutdown that reports every session drained has
    closed all listeners and set the drain flag, no accept loop and no handler
    is left, and nothing can start one again.  The WaitGroup is used correctly
    throughout: a loop about to Add holds a token itself, so the counter is
    positive, and no Done can make it negative. *)
Theorem drain_complete o a b n m s0 s :
  fresh a b s0 → reachable o n m s0 s →
  (TShut (ShPools true) ∈ threads s ∨ TShut (ShExit true) ∈ threads s →
     open (proc s) = ∅ ∧ draining (proc s) = true ∧
     ∀ s', rtc (sstep o) s s' → ∀ t, t ∈ threads s' →
       match t with TLoop _ l => l = LGone | TConn _ c => c = CGone | TShut _ => True end) ∧
  (∀ t, t ∈ threads s → match t with
     | TLoop _ LSlot | TLoop _ LExit | TConn _ CWgDone => 1 ≤ wg (proc s)
     | TConn _ CFreeSlot => (0 < m)%Z → 1 ≤ used (proc s)
     | _ => True end).
Proof.
  intros Hf Hr. pose proof (reachable_inv _ _ _ _ _ _ _ Hf Hr) as Hi. split.
  - intros Hd. assert (Hs : open (proc s) = ∅ ∧ draining (proc s) = true ∧ wg (proc s) = 0).
    { destruct Hd as [Hd|Hd]; apply (i_threads _ _ _ _ _ Hi _ Hd). }
    destruct Hs as (Ho & Hdr & Hw). split_and!; [done..|].
    assert (Zero : ∀ s', inv o a b (setMaxClientConn m) s' → wg (proc s') = 0 → ∀ t, t ∈ threads s' → token t = 0).
    { clear. intros s' Hi Hw t Ht. pose proof (i_tokens _ _ _ _ _ Hi). apply (total_elem token) in Ht. lia. }
    assert (Stay : ∀ s', rtc (sstep o) s s' → inv o a b (setMaxClientConn m) s' ∧ wg (proc s') = 0).
    { intros s' Hrtc. eapply (rtc_ind_r (λ s', inv o a b (setMaxClientConn m) s' ∧ wg (proc s') = 0)); [done| |exact Hrtc].
      intros x y _ Hxy [Hix Hwx]. split; [by eapply inv_step|].
      destruct Hxy as [p ts1 t ts2 p' t' new Ht|]; [|done]. simpl in *.
      assert (Htok : token t = 0) by (eapply (Zero _ Hix); [done|]; simpl; set_solver).
      destruct (f_wg _ _ _ _ _ _ _ _ (tstep_effect o a b _ _ _ _ _ Ht (i_threads _ _ _ _ _ Hix t ltac:(set_solver))) Htok).
      lia. }
    intros s' Hs' t Ht. destruct (Stay s' Hs') as [Hi' Hw']. pose proof (Zero s' Hi' Hw' t Ht) as Hz.
    destruct t as [i []|r []|]; done.
  - intros t Ht. pose proof (i_tokens _ _ _ _ _ Hi) as Hk. pose proof (i_slots _ _ _ _ _ Hi) as Hs.
    apply (total_elem token) in Ht as Hle. apply (total_elem slot) in Ht as Hsl.
    destruct t as [i []|r []|]; simpl in *; try done; try lia.
    intros Hm. unfold slots_ok in Hs. rewrite (i_max _ _ _ _ _ Hi) in Hs. unfold setMaxClientConn in Hs.
    rewrite (proj2 (Z.leb_gt _ _)) in Hs by done. lia.
Qed.

Lemma drain_complete_witness :
  let s := after day_opts 1 2 day_shared stopped in
  TShut (ShPools true) ∈ threads s ∧ open (proc s) = ∅ ∧ draining (proc s) = true.
Proof.
  assert (Hin : TShut (ShPools true) ∈ threads (after day_opts 1 2 day_shared stopped))
    by (vm_compute; right; left).
  destruct (drain_complete day_opts 4 2 1 2 day_shared _ day_fresh
    (after_reachable day_opts 1 2 day_shared stopped)) as [H _].
  destruct (H (or_introl Hin)) as (Ho & Hd & _). exact (conj Hin (conj Ho Hd)).
Defined.

(** The admin console only ever runs for a client that asked for the
    configured admin database and whose authenticated user is in admin_users;
    with an empty list it runs for nobody. *)
Theorem console_allowlisted o a b n m s0 s r msg p l users :
  fresh a b s0 → reachable o n m s0 s → adminUsers o = adminUserSet users →
  TConn r (CRun (HServe msg Console p l)) ∈ threads s →
  adminDatabase o ≠ "" ∧ parameter "database" msg = adminDatabase o ∧ adminSession o = true ∧
  parameter "user" msg ∈ users ∧ parameter "user" msg ≠ "".
Proof.
  intros Hf Hr Hu Ht. pose proof (reachable_inv _ _ _ _ _ _ _ Hf Hr) as Hi.
  destruct (i_threads _ _ _ _ _ Hi _ Ht) as [Hc _]. specialize (Hc eq_refl). unfold isConsole in Hc.
  rewrite Hu in Hc. unfold adminUserSet in Hc. to_prop. rewrite elem_of_list_to_set, list_elem_of_filter in *.
  tauto.
Qed.

Lemma console_allowlisted_witness : "root" ∈ ["root"; ""] ∧ "root" ≠ "".
Proof.
  destruct (console_allowlisted day_opts 4 2 1 2 day_shared _ "10.0.0.7"
    (mkStartup (<[ "user" := "root" ]> {[ "database" := "pgman" ]})) 78 0 ["root"; ""] day_fresh
    (after_reachable day_opts 1 2 day_shared admin_in)) as (_ & _ & _ & H & H').
  - reflexivity.
  - vm_compute. left.
  - exact (conj H H').
Defined.

(** C34: A pass-through pool is never evicted under a running session: a sweep
    whose walk of the session table sees the session at every shard, however the
    table changes meanwhile, keeps the session's pool, whatever its age. *)
Theorem running_session_keeps_pool `{MapRange} o a b n m s0 (ss : nat → sys) r msg d p l t idleFor inUse reg e :
  fresh a b s0 → (∀ i, reachable o n m s0 (ss i)) →
  (∀ i, TConn r (CRun (HServe msg (Serve d) p l)) ∈ threads (ss i)) →
  Registry.PoolName d ≠ "" → Registry.entries reg !! Registry.PoolName d = Some e →
  let active := activeSessionPoolKeys (λ i, sessions (shr (proc (ss i)))) in
  Registry.entries (Registry.EvictIdlePassthrough t idleFor active inUse reg).1.1 !! Registry.PoolName d = Some e.
Proof.
  intros Hf Hr Ht Hd He active.
  assert (Hi : ∀ i, inv o a b (setMaxClientConn m) (ss i)) by (intros i; by eapply reachable_inv).
  assert (Hin : Registry.PoolName d ∈ active).
  { apply elem_of_activeKeysOf. split; [done|].
    destruct (i_threads _ _ _ _ _ (Hi (shardFor p)) _ (Ht (shardFor p))) as (_ & q & Hq & _ & _ & Hp).
    exists (infoOf p q). split.
    - apply (listSessionsOver_elem _ p l q); [|done]. intros i _.
      by apply (o_placed _ _ _ (i_table _ _ _ _ _ (Hi i)) _ p l (Ht i)).
    - simpl. rewrite Hp. unfold or_else. by rewrite bool_decide_false. }
  unfold Registry.EvictIdlePassthrough. destruct (idleFor <=? 0)%Z; [done|]. cbn [fst].
  unfold Registry.stopWatchers, Registry.with_entries. cbn [Registry.entries].
  apply map_lookup_filter_Some. split; [done|]. unfold Registry.evictable.
  rewrite (bool_decide_false (Registry.PoolName d ∉ active)) by (by intros Hn).
  by rewrite andb_false_r.
Qed.

Lemma running_session_keeps_pool_witness :
  let s := after day_opts 1 2 day_shared client_in in
  is_Some (Registry.entries (Registry.EvictIdlePassthrough 1000 50
    (activeSessionPoolKeys (λ _, sessions (shr (proc s)))) (λ _, 0)
    (registry (shr (proc s)))).1.1 !! "shop").
Proof.
  eexists. refine (running_session_keeps_pool day_opts 4 2 1 2 day_shared
    (λ _, after day_opts 1 2 day_shared client_in) "10.0.0.7"
    (mkStartup (<[ "user" := "alice" ]> {[ "database" := "shop_ro" ]}))
    (Registry.mkDecision 0 "shop" "transaction" false) 77 0 1000 50 (λ _, 0) _ _ day_fresh _ _ _ _).
  - intros _. apply after_reachable.
  - intros _. vm_compute. left.
  - done.
  - vm_compute. reflexivity.
Defined.

(** *** One verdict per connection *)

(** The answers of one handler while the shared state moves arbitrarily
    between its steps. *)
Inductive hsteps (o : handlerOpts) (remote : string) : stage → list out → stage → Prop :=
| hs_nil h : hsteps o remote h [] h
| hs_cons s h i s' h' out1 out2 h'' : hstep o remote s h i = Some (s', h', out1) →
    hsteps o remote h' out2 h'' → hsteps o remote h (out1 ++ out2) h''.

(** The refusals of the handler, which the notice of an HBA refusal precedes. *)
Definition is_fatal (x : out) : bool :=
  match x with Send (Fatal _ HBARefused) => false | Send (Fatal _ _) => true | _ => false end.
Definition is_ready (x : out) : bool := match x with Send (ReadyForQuery _) => true | _ => false end.
Definition refusals (l : list out) : nat := length (List.filter is_fatal l).
Definition welcomes (l : list out) : nat := length (List.filter is_ready l).

(** Whether a handler past its first message has answered. *)
Definition answered (h : stage) : nat :=
  match h with
  | HServe _ _ _ _ | HDeregister _ _ _ _ | HRelease _ | HClose => 1
  | _ => 0
  end.

Lemma hstep_answers o remote s h i s' h' out :
  hstep o remote s h i = Some (s', h', out) → h ≠ HReceive →
  h' ≠ HReceive ∧ answered h + (refusals out + welcomes out) = answered h' ∧
  (1 ≤ refusals out → h' = HClose).
Proof.
  intros H Hn. destruct h, i; simpl in H; try done;
    repeat (case_match; simplify_eq/=; try done);
    simplify_eq/=; unfold refusals, welcomes; simpl; split_and!; (done || lia || (by destruct t)).
Qed.

(** Once its startup message is read, a client gets exactly one verdict of the
    handler before its connection is closed: one FATAL error, or one complete
    handshake; a refused client is never registered or served. *)
Theorem one_verdict o remote msg outs h :
  hsteps o remote (HLimiter msg) outs h →
  refusals outs + welcomes outs = answered h ∧ (h = HClose → refusals outs + welcomes outs = 1) ∧
  (1 ≤ refusals outs → h = HClose).
Proof.
  intros Hs. assert (K : ∀ h0 l h, hsteps o remote h0 l h → h0 ≠ HReceive →
    answered h0 + (refusals l + welcomes l) = answered h ∧ (1 ≤ refusals l → h = HClose)).
  { clear. intros h0 l h Hs. induction Hs as [h|s h i s' h' o1 o2 h'' H1 H2 IH]; intros Hn.
    - unfold refusals, welcomes; simpl. split; lia.
    - destruct (hstep_answers _ _ _ _ _ _ _ _ H1 Hn) as (Hn' & Ha & Hc). destruct (IH Hn') as [Hb Hd].
      unfold refusals, welcomes in *. rewrite !List.filter_app, !length_app. split; [lia|]. intros Hge.
      destruct (decide (1 ≤ length (List.filter is_fatal o2))) as [|Hz]; [by apply Hd|].
      rewrite Hc in H2 by lia. inversion H2 as [|s1 ? i1 ? ? ? ? ? Hx]; subst; [done|].
      by destruct i1. }
  destruct (K _ _ _ Hs) as [Ha Hc]; [done|]. simpl in Ha. split_and!; [done| |done].
  intros ->. done.
Qed.

Lemma one_verdict_witness :
  let m := mkStartup (<[ "user" := "alice" ]> {[ "database" := "shop_ro" ]}) in
  refusals (fatal "28P01" PasswordFailed) + welcomes (fatal "28P01" PasswordFailed) = 1.
Proof.
  intros m. destruct (one_verdict day_opts "10.0.0.7" m (fatal "28P01" PasswordFailed) HClose) as (_ & H & _).
  - apply (hs_cons _ _ day_shared (HLimiter m) (IAt 10%Z)
      (with_limiter (Limits.Allowed 10 "10.0.0.7" (limiter day_shared)).2 day_shared) (HAuth m) []); [done|].
    eapply (hs_cons _ _ day_shared (HAuth m) (IAuth 11%Z false false false) _ HClose (fatal "28P01" PasswordFailed) []);
      [done|constructor].
  - by apply H.
Defined.

(** A client that a pg_hba rule refuses is told twice: the rule's own FATAL
    error, and then that its password is wrong. *)
Theorem hba_refusal_reported_twice o remote s m now :
  (λ x, x.2) <$> hstep o remote s (HAuth m) (IAuth now false false true) =
  Some [Send (Fatal "28000" HBARefused); Send (Fatal "28P01" PasswordFailed)].
Proof. done. Qed.

(** *** The drain flag

    It is only set once every listener is closed, so while a listener still
    accepts connections the readiness probe cannot have been told of the
    shutdown. *)
Theorem drain_flag_after_close o a b n m s0 s :
  fresh a b s0 → reachable o n m s0 s → draining (proc s) = true → open (proc s) = ∅.
Proof.
  intros Hf Hr. unfold reachable in Hr.
  eapply (rtc_ind_r (λ s, draining (proc s) = true → open (proc s) = ∅) (start n m s0)); [done| |exact Hr].
  intros s1 s2 H1 H2 IH. pose proof (reachable_inv _ _ _ _ _ _ _ Hf H1) as Hi.
  destruct H2 as [p ts1 t ts2 p' t' new Ht|p ts r]; [|done]. cbn [proc] in *.
  assert (Hok : thread_ok o p t) by (apply (i_threads _ _ _ _ _ Hi); set_solver).
  destruct Ht; cbn [with_used with_wg with_shr with_open with_draining draining open] in *; try done.
  intros Hd. rewrite (IH Hd). set_solver.
Qed.

End ServerTheorems.
