(* ===== verification/AdminSQL.v ===== *)
(** * The admin console

    src/admin_sql.go: the commands an administrator can send over the Postgres
    protocol.  A command is a sequence of separate accesses to what it shares
    with the rest of the process (the registry under its lock, a pool, the
    session table), so it is a tree of such accesses, run against an environment
    that changes the state between them. *)

From Stdlib Require Import Ascii.
From stdpp Require Import pretty functions.
From S2P Require Import Prelude GoStrings Pool Config Registry Session.
Import Session.
Open Scope string_scope.
Open Scope list_scope.
Open Scope Z_scope.

Module AdminSQL.

(** ** Messages *)

(** What an error says, as the value its text is made of. *)
Inductive complaint := Unsupported (cmd : string) | PoolNotFound (name : string).

Inductive adminMsg :=
| RowDescription (cols : list string)
| DataRow (values : list string)
| CommandComplete (tag : string)
| ErrorResponse (code : string) (why : complaint)
| ReadyForQuery (tx : ascii)
| ParseComplete
| BindComplete
| NoData
| CloseComplete.

Inductive adminFrontend :=
| Terminate
| Query (sql : string)
| Sync
| Parse | Bind | Describe | Execute | Close | Flush
| OtherFrontend.

(** ** Commands as trees of accesses *)

Record live := mkLive {
  reg : Registry.PoolRegistry;
  pools : nat → Pool.Pool;           (** the pool objects, by creation number *)
  sess : world;
}.

Definition with_pool (i : nat) (p : Pool.Pool) (l : live) : live := mkLive (reg l) (<[ i := p ]> (pools l)) (sess l).

(** [Access f k]: one access, in which [None] is the dereference of a nil
    pointer. *)
Inductive prog (A : Type) : Type :=
| Ret (a : A)
| Send (m : adminMsg) (k : prog A)
| Access (B : Type) (f : live → live * option B) (k : B → prog A).
Arguments Ret {_}.
Arguments Send {_}.
Arguments Access {_}.

Fixpoint bind {A B} (p : prog A) (k : A → prog B) : prog B :=
  match p with
  | Ret a => k a
  | Send m p => Send m (bind p k)
  | Access C f g => Access C f (λ c, bind (g c) k)
  end.

Notation "'do' x <- p ; q" := (bind p (λ x, q)) (at level 100, x pattern, p at next level, q at level 200, right associativity).
Notation "p ;; q" := (bind p (λ _, q)) (at level 100, q at level 200, right associativity).

Definition send (m : adminMsg) : prog unit := Send m (Ret ()).
Definition read {A} (f : live → A) : prog A := Access A (λ l, (l, Some (f l))) Ret.
Definition change (f : live → live) : prog unit := Access unit (λ l, (f l, Some ())) Ret.
Definition panic {A} : prog A := Access A (λ l, (l, None)) Ret.

Fixpoint for_each {A} (l : list A) (body : A → prog unit) : prog unit :=
  match l with [] => Ret () | x :: l => body x ;; for_each l body end.

(** Running a command: before access number [t] the rest of the process makes
    the changes [env t].  [None] as the value is a panic. *)
Fixpoint exec {A} (env : nat → live → live) (t : nat) (p : prog A) (l : live) :
  nat * live * list adminMsg * option A :=
  match p with
  | Ret a => (t, l, [], Some a)
  | Send m p => let '(t, l, out, r) := exec env t p l in (t, l, m :: out, r)
  | Access B f k =>
      match f (env t l) with
      | (l, Some b) => exec env (S t) (k b) l
      | (l, None) => (S t, l, [], None)
      end
  end.

(** ** The registry and the pools *)

Section console.
Context `{MapRange} `{Unicode} (version : string).

(** Two calls that each take the registry's lock. *)
Definition GetPool (name : string) : prog (option nat) := read (λ l, Registry.pool <$> Registry.Get (reg l) name).
Definition ConfigOf (name : string) : prog (option Config.PoolConfig) :=
  read (λ l, Registry.PoolConfigOf (reg l) name).
Definition NamesOf : prog (list string) := read (λ l, Registry.Names (reg l)).

(** [registry.Pools()], ranged over, and [registry.Configs()]. *)
Definition Pools : prog (list (string * nat)) := read (λ l, range (Registry.pool <$> Registry.entries (reg l))).
Definition Configs : prog (list (string * Config.PoolConfig)) :=
  read (λ l, range (Registry.config <$> Registry.entries (reg l))).

(** Methods of a pool, nil or not. *)
Definition statsOf (p : option nat) : prog Pool.Stats :=
  match p with None => panic | Some i => read (λ l, Pool.stats (pools l i)) end.
Definition isPaused (p : option nat) : prog bool :=
  match p with None => panic | Some i => read (λ l, Pool.IsPaused (pools l i)) end.
Definition on_pool (f : Pool.Pool → Pool.Pool) (p : option nat) : prog unit :=
  match p with None => panic | Some i => change (λ l, with_pool i (f (pools l i)) l) end.

Definition reconnected (p : Pool.Pool) : Pool.Pool :=
  match Pool.Reconnect p with Some (p, _) => p | None => p end.

(** [listSessions] and [sessionsByPool]: one access per shard of the table. *)
Fixpoint shardWalk (shards : list nat) : prog (list SessionInfo) :=
  match shards with
  | [] => Ret []
  | i :: rest => do x <- read (λ l, shardInfos (sess l) (default ∅ (Session.shards (sess l) !! i)));
                 do y <- shardWalk rest; Ret (x ++ y)
  end.
Definition listSessionsNow : prog (list SessionInfo) :=
  do infos <- shardWalk (seq 0 sessionShardCount); Ret (merge_sort byConnectedAt infos).
Definition sessionsByPoolNow : prog (gmap string Z) :=
  do infos <- listSessionsNow; Ret (sessionsByPoolOf infos).

(** ** Wire helpers *)

Definition sendError (code : string) (why : complaint) : prog unit := send (ErrorResponse code why).
Definition sendReadyForQuery : prog unit := send (ReadyForQuery "I").
Definition itoa (n : Z) : string := pretty n.
Definition Milliseconds (d : Z) : Z := Z.quot d Millisecond.

Definition splitAddr (addr : string) : string * string :=
  match cut_last_byte ":" addr with Some hp => hp | None => (addr, "") end.

(** ** SHOW *)

(** The body of the loop. *)
Definition sendPoolRow (clients : gmap string Z) (name : string) : prog unit :=
  do p <- GetPool name;
  do s <- statsOf p;
  do b <- isPaused p;
  do cfg <- ConfigOf name;
  send (DataRow [name; itoa (default 0 (clients !! name)); itoa (Pool.Waiting s); itoa (Z.of_nat (Pool.InUse s));
    itoa (Z.of_nat (Pool.Idle s)); itoa (Milliseconds (Pool.WaitTime s));
    Registry.effectivePoolMode (default "" (Config.PoolMode <$> cfg)); if b : bool then "yes" else "no"]).

Definition sendShowPools : prog unit :=
  send (RowDescription ["database"; "cl_active"; "cl_waiting"; "sv_active"; "sv_idle"; "maxwait"; "pool_mode"; "paused"]) ;;
  do clients <- sessionsByPoolNow;
  do names <- NamesOf;
  for_each names (sendPoolRow clients) ;;
  send (CommandComplete "SHOW").

Definition sendShowStats : prog unit :=
  send (RowDescription ["database"; "total_wait_ms"; "total_waits"; "total_discards"; "total_dial_errors"; "total_reaped"; "idle"; "in_use"; "limit"]) ;;
  do names <- NamesOf;
  for_each names (λ name,
    do p <- GetPool name;
    do s <- statsOf p;
    send (DataRow [name; itoa (Milliseconds (Pool.WaitTime s)); itoa (Pool.WaitCount s); itoa (Pool.Discards s);
      itoa (Pool.DialErrors s); itoa (Pool.Reaped s); itoa (Z.of_nat (Pool.Idle s));
      itoa (Z.of_nat (Pool.InUse s)); itoa (Z.of_nat (Pool.Limit s))])) ;;
  send (CommandComplete "SHOW").

Definition sendShowClients : prog unit :=
  send (RowDescription ["pid"; "user"; "database"; "state"]) ;;
  do infos <- listSessionsNow;
  for_each infos (λ i,
    send (DataRow [itoa (PID i); User i; Database i; if Active i then "active" else "idle"])) ;;
  send (CommandComplete "SHOW").

Definition sendShowServers : prog unit :=
  send (RowDescription ["database"; "state"; "count"]) ;;
  do names <- NamesOf;
  for_each names (λ name,
    do p <- GetPool name;
    do s <- statsOf p;
    send (DataRow [name; "idle"; itoa (Z.of_nat (Pool.Idle s))]) ;;
    send (DataRow [name; "active"; itoa (Z.of_nat (Pool.InUse s))])) ;;
  send (CommandComplete "SHOW").

Definition sendShowDatabases : prog unit :=
  send (RowDescription ["name"; "host"; "port"; "database"; "pool_size"; "pool_mode"]) ;;
  do cfgs <- Configs;
  for_each cfgs (λ '(name, cfg),
    let '(host, port) := splitAddr (Config.BackendAddr cfg) in
    send (DataRow [name; host; port; name; itoa (Config.Limit cfg); Registry.effectivePoolMode (Config.PoolMode cfg)])) ;;
  send (CommandComplete "SHOW").

(** The two sums of SHOW LISTS. *)
Fixpoint totals (ps : list (string * nat)) (idle active : nat) : prog (nat * nat) :=
  match ps with
  | [] => Ret (idle, active)
  | (_, i) :: ps => do s <- statsOf (Some i); totals ps (idle + Pool.Idle s) (active + Pool.InUse s)
  end.

Definition sendShowLists : prog unit :=
  send (RowDescription ["list"; "items"]) ;;
  do ps <- Pools;
  do ia <- totals ps 0 0;
  do qs <- Pools;
  do infos <- listSessionsNow;
  for_each [("pools", length qs); ("servers_idle", ia.1); ("servers_used", ia.2); ("clients", length infos)]
    (λ '(name, n), send (DataRow [name; itoa (Z.of_nat n)])) ;;
  send (CommandComplete "SHOW").

Definition sendSingleColumnRow (col : string) (rows : list string) (tag : string) : prog unit :=
  send (RowDescription [col]) ;;
  for_each rows (λ v, send (DataRow [v])) ;;
  send (CommandComplete tag).

(** ** PAUSE, RESUME, RECONNECT *)

Definition findPoolName (wanted : string) : prog string :=
  do names <- NamesOf; Ret (default "" (head (filter (λ n, EqualFold n wanted = true) names))).

(** The three handlers differ in the verb and the method. *)
Definition handlePoolCmd (verb : string) (f : Pool.Pool → Pool.Pool) (cmd : string) : prog unit :=
  let name := TrimSpace (TrimPrefix (ToUpperText cmd) verb) in
  if bool_decide (name = "") then
    do ps <- Pools;
    for_each ps (λ '(_, i), on_pool f (Some i)) ;;
    send (CommandComplete verb)
  else
    do realName <- findPoolName name;
    if bool_decide (realName = "") then sendError "3D000" (PoolNotFound name)
    else
      do p <- GetPool realName;
      on_pool f p ;;
      send (CommandComplete verb).

Definition handlePauseCmd : string → prog unit := handlePoolCmd "PAUSE" Pool.Pause.
Definition handleResumeCmd : string → prog unit := handlePoolCmd "RESUME" Pool.Resume.
Definition handleReconnectCmd : string → prog unit := handlePoolCmd "RECONNECT" reconnected.

(** ** Dispatch *)

Definition trimCommand (sql : string) : string := TrimRight [";"%char; SP; TAB; CR; LF] (TrimSpace sql).

Definition dispatch (trimmed : string) : prog unit :=
  let upper := ToUpperText trimmed in
  if bool_decide (upper = "SHOW POOLS") then sendShowPools
  else if bool_decide (upper = "SHOW STATS") then sendShowStats
  else if bool_decide (upper = "SHOW CLIENTS") then sendShowClients
  else if bool_decide (upper = "SHOW SERVERS") then sendShowServers
  else if bool_decide (upper = "SHOW DATABASES") then sendShowDatabases
  else if bool_decide (upper = "SHOW VERSION") then
    sendSingleColumnRow "version" ["pgman " +:+ version +:+ " (PgBouncer-compatible admin)"] "SHOW"
  else if bool_decide (upper = "SHOW LISTS") then sendShowLists
  else if HasPrefix upper "PAUSE" then handlePauseCmd trimmed
  else if HasPrefix upper "RESUME" then handleResumeCmd trimmed
  else if HasPrefix upper "RECONNECT" then handleReconnectCmd trimmed
  else sendError "42601" (Unsupported trimmed).

Definition handleAdminQuery (sql : string) : prog unit := dispatch (trimCommand sql) ;; sendReadyForQuery.

Definition handleAdminExtendedMsg (m : adminFrontend) : prog unit :=
  match m with
  | Parse => send ParseComplete
  | Bind => send BindComplete
  | Describe => send NoData
  | Execute => send (CommandComplete "SHOW")
  | Close => send CloseComplete
  | _ => Ret ()
  end.

(** The loop; the end of the list is a receive error. *)
Fixpoint adminSession (ms : list adminFrontend) : prog unit :=
  match ms with
  | [] => Ret ()
  | m :: ms =>
      match m with
      | Terminate => Ret ()
      | Query sql => handleAdminQuery sql ;; adminSession ms
      | Sync | OtherFrontend => sendReadyForQuery ;; adminSession ms
      | _ => handleAdminExtendedMsg m ;; adminSession ms
      end
  end.
End console.

End AdminSQL.
