(* ===== verification/AdminSQLTheorems.v ===== *)
(** * The admin console: what its answers mean

    Whatever the rest of the process does meanwhile, every answer is complete
    unless the console panics in it, and every table has rows of its own width;
    a console command cannot fail as long as no pool leaves the registry under it,
    and crashes the process when one does; undisturbed, PAUSE, RESUME and RECONNECT act on exactly the pools
    named, and SHOW POOLS shows the pools and the sessions that use them. *)

From Stdlib Require Import Ascii.
From stdpp Require Import pretty functions.
From S2P Require Import Prelude GoStrings Pool PoolMethods Config Registry RegistryLemmas RegistryOps RegistryTheorems Session SessionTheorems AdminSQL.
Import Session AdminSQL.
Open Scope string_scope.
Open Scope list_scope.
Open Scope Z_scope.

Module AdminSQLTheorems.

(** ** Composition *)

Definition then_exec {A B} (env : nat → live → live) (k : A → prog B)
  (r : nat * live * list adminMsg * option A) : nat * live * list adminMsg * option B :=
  let '(t, l, out, v) := r in
  match v with
  | None => (t, l, out, None)
  | Some a => let '(t, l, out', v) := exec env t (k a) l in (t, l, out ++ out', v)
  end.

Lemma exec_bind {A B} env t (p : prog A) (k : A → prog B) l :
  exec env t (bind p k) l = then_exec env k (exec env t p l).
Proof.
  revert t l. induction p as [a|m p IH|C f g IH]; intros t l; simpl.
  - by destruct (exec env t (k a) l) as [[[? ?] ?] ?].
  - rewrite IH. destruct (exec env t p l) as [[[t1 l1] o1] [a|]]; simpl; [|done].
    by destruct (exec env t1 (k a) l1) as [[[? ?] ?] ?].
  - destruct (f (env t l)) as [l1 [c|]]; [by apply IH|done].
Qed.

(** ** The messages a program can send *)

(** Every run of [p] that returns sends messages that satisfy [P], and every run
    that panics has sent some that satisfy [X]. *)
Definition yields {A} (p : prog A) (P : list adminMsg → A → Prop) (X : list adminMsg → Prop) : Prop :=
  ∀ env t l t' l' out r, exec env t p l = (t', l', out, r) → match r with Some a => P out a | None => X out end.

Lemma yields_ret {A} (a : A) (P : list adminMsg → A → Prop) X : P [] a → yields (Ret a) P X.
Proof. intros HP env t l t' l' out b [= _ _ <- <-]. done. Qed.

Lemma yields_send m (P : list adminMsg → unit → Prop) X : P [m] () → yields (send m) P X.
Proof. intros HP env t l t' l' out r [= _ _ <- <-]. done. Qed.

Lemma yields_access {A B} f (k : B → prog A) (P : list adminMsg → A → Prop) (X : list adminMsg → Prop) :
  X [] → (∀ b, yields (k b) P X) → yields (Access B f k) P X.
Proof.
  intros HX HP env t l t' l' out a. simpl. destruct (f (env t l)) as [l1 [b|]]; [apply HP|]. by intros [= _ _ <- <-].
Qed.

Lemma yields_bind {A B} (p : prog A) (k : A → prog B) (P : list adminMsg → A → Prop) (Q : list adminMsg → B → Prop)
    (X Y : list adminMsg → Prop) :
  yields p P X → (∀ o, X o → Y o) → (∀ o1 a, P o1 a → yields (k a) (λ o2, Q (o1 ++ o2)) (λ o2, Y (o1 ++ o2))) →
  yields (bind p k) Q Y.
Proof.
  intros Hp HX Hk env t l t' l' out b. rewrite exec_bind.
  destruct (exec env t p l) as [[[t1 l1] o1] [a|]] eqn:E; simpl; apply Hp in E; [|intros [= _ _ <- <-]; auto].
  destruct (exec env t1 (k a) l1) as [[[t2 l2] o2] r] eqn:E2. intros [= -> -> <- ->]. by apply (Hk _ _ E) in E2.
Qed.

Lemma yields_mono {A} (p : prog A) (P Q : list adminMsg → A → Prop) (X Y : list adminMsg → Prop) :
  yields p P X → (∀ o a, P o a → Q o a) → (∀ o, X o → Y o) → yields p Q Y.
Proof. intros Hp HPQ HXY env t l t' l' out [a|] E; apply Hp in E; auto. Qed.

(** A program that sends nothing. *)
Definition silent {A} (p : prog A) : Prop := yields p (λ out _, out = []) (λ out, out = []).

Lemma silent_read {A} (f : live → A) : silent (read f).
Proof. apply yields_access; [done|]. intros b. by apply yields_ret. Qed.

Lemma silent_change f : silent (change f).
Proof. apply yields_access; [done|]. intros b. by apply yields_ret. Qed.

Lemma silent_panic {A} : silent (A := A) panic.
Proof. apply yields_access; [done|]. intros b. by apply yields_ret. Qed.

Lemma silent_ret {A} (a : A) : silent (Ret a).
Proof. by apply yields_ret. Qed.

Lemma silent_bind {A B} (p : prog A) (k : A → prog B) : silent p → (∀ a, silent (k a)) → silent (bind p k).
Proof. intros Hp Hk. eapply yields_bind; [exact Hp|done|]. intros o a ->. apply Hk. Qed.

Lemma after_silent {A B} (p : prog A) (k : A → prog B) Q (Y : list adminMsg → Prop) :
  silent p → Y [] → (∀ a, yields (k a) Q Y) → yields (bind p k) Q Y.
Proof. intros Hp HY Hk. eapply yields_bind; [exact Hp|by intros o ->|]. intros o a ->. apply Hk. Qed.

Create HintDb console.
#[export] Hint Resolve silent_read silent_change silent_panic silent_ret silent_bind : console.

(** Rows of a given width. *)
Definition rows (w : nat) (out : list adminMsg) : Prop :=
  Forall (λ m, ∃ vs, m = DataRow vs ∧ length vs = w) out.

Lemma rows_nil w : rows w [].
Proof. constructor. Qed.
#[export] Hint Resolve rows_nil : console.

Abbreviation yields_rows p w := (yields p (λ out _, rows w out) (rows w)).

Lemma yields_row vs w : length vs = w → yields_rows (send (DataRow vs)) w.
Proof. intros Hw. apply yields_send. repeat constructor. by exists vs. Qed.

Lemma yields_rows_app (p q : prog unit) w : yields_rows p w → yields_rows q w → yields_rows (p ;; q) w.
Proof.
  intros Hp Hq. eapply yields_bind; [exact Hp|done|]. intros o [] Ho.
  eapply yields_mono; [exact Hq| |]; intros; by apply Forall_app.
Qed.

Lemma yields_for_each {A} (l : list A) body w : (∀ x, yields_rows (body x) w) → yields_rows (for_each l body) w.
Proof.
  intros Hb. induction l as [|x l IH]; simpl; [by apply yields_ret; constructor|].
  by apply yields_rows_app.
Qed.

Lemma silent_for_each {A} (l : list A) body : (∀ x, silent (body x)) → silent (for_each l body).
Proof. intros Hb. induction l as [|x l IH]; simpl; auto with console. Qed.

(** A complete answer to a command: an error, a completion, or a table whose
    rows have as many values as it has columns. *)
Inductive answer : list adminMsg → Prop :=
| a_error code why : answer [ErrorResponse code why]
| a_done tag : answer [CommandComplete tag]
| a_table cols body tag : rows (length cols) body →
    answer (RowDescription cols :: body ++ [CommandComplete tag]).

(** The start of one, of which a panic leaves the rest out: nothing, or a table
    without its end. *)
Inductive begun : list adminMsg → Prop :=
| b_nothing : begun []
| b_table cols body : rows (length cols) body → begun (RowDescription cols :: body).
#[export] Hint Resolve b_nothing : console.

Abbreviation answers p := (yields p (λ out _, answer out) begun).

(** What follows the description of the columns. *)
Definition rest (w : nat) (out : list adminMsg) : Prop :=
  ∃ body tag, out = body ++ [CommandComplete tag] ∧ rows w body.

Lemma yields_table (p : prog unit) cols :
  yields p (λ out _, rest (length cols) out) (rows (length cols)) → answers (send (RowDescription cols) ;; p).
Proof.
  intros Hp. eapply (yields_bind _ _ (λ o _, o = [RowDescription cols]) _ (λ _, False)); [by apply yields_send|done|].
  intros o [] ->. eapply yields_mono; [exact Hp| |]; [intros o [] (body & tag & -> & Hb)|intros o Hb]; by constructor.
Qed.

Lemma yields_rest {A} (l : list A) body w tag :
  (∀ x, yields_rows (body x) w) →
  yields (for_each l body ;; send (CommandComplete tag)) (λ out _, rest w out) (rows w).
Proof.
  intros Hb. eapply yields_bind; [by apply yields_for_each|done|]. intros o [] Ho. apply yields_send. by exists o, tag.
Qed.

(** ** Every answer is complete *)

Section answers.
Context `{MapRange} `{Unicode} (version : string).

Lemma silent_stats p : silent (statsOf p).
Proof. destruct p; simpl; auto with console. Qed.

Lemma silent_paused p : silent (isPaused p).
Proof. destruct p; simpl; auto with console. Qed.

Lemma silent_on_pool f p : silent (on_pool f p).
Proof. destruct p; simpl; auto with console. Qed.

Lemma silent_walk l : silent (shardWalk l).
Proof. induction l as [|i l IH]; cbn [shardWalk]; auto with console. Qed.

Lemma silent_totals ps i a : silent (totals ps i a).
Proof.
  revert i a. induction ps as [|[n x] ps IH]; intros i a; cbn [totals]; auto using silent_stats with console.
Qed.

Lemma silent_sessions : silent listSessionsNow.
Proof. unfold listSessionsNow. auto using silent_walk with console. Qed.

#[local] Hint Resolve silent_stats silent_paused silent_on_pool silent_sessions silent_totals : console.

Lemma silent_clients : silent sessionsByPoolNow.
Proof. unfold sessionsByPoolNow. auto with console. Qed.

#[local] Hint Resolve silent_clients : console.
#[local] Hint Extern 1 (silent _) => apply silent_read : console.

(** A table: accesses, then a loop that sends rows, each after accesses. *)
Ltac accesses := repeat (apply after_silent; [solve [auto with console]|solve [auto with console]|intros ?]).
Ltac table := apply yields_table; accesses; apply yields_rest; intros ?; accesses.

Lemma show_pools_answer : answers sendShowPools.
Proof. table. unfold sendPoolRow. accesses. by apply yields_row. Qed.

Lemma show_stats_answer : answers sendShowStats.
Proof. table. by apply yields_row. Qed.

Lemma show_clients_answer : answers sendShowClients.
Proof. table. by apply yields_row. Qed.

Lemma show_servers_answer : answers sendShowServers.
Proof. table. apply yields_rows_app; by apply yields_row. Qed.

Lemma show_databases_answer : answers sendShowDatabases.
Proof. table. case_match. case_match. by apply yields_row. Qed.

Lemma show_lists_answer : answers sendShowLists.
Proof. table. case_match. by apply yields_row. Qed.

Lemma single_column_answer col vs tag : answers (sendSingleColumnRow col vs tag).
Proof. table. by apply yields_row. Qed.

Lemma pool_cmd_answer verb f cmd : answers (handlePoolCmd verb f cmd).
Proof.
  unfold handlePoolCmd. case_bool_decide; accesses.
  - apply after_silent; [apply silent_for_each; intros []; auto with console|auto with console|intros _].
    apply yields_send. constructor.
  - apply after_silent; [unfold findPoolName; auto with console|auto with console|intros n].
    case_bool_decide; [apply yields_send; constructor|]. accesses. apply yields_send. constructor.
Qed.

Lemma dispatch_answer trimmed : answers (dispatch version trimmed).
Proof.
  unfold dispatch. repeat case_match;
    eauto using show_pools_answer, show_stats_answer, show_clients_answer, show_servers_answer,
      show_databases_answer, show_lists_answer, single_column_answer, pool_cmd_answer.
  apply yields_send. constructor.
Qed.

(** What each message is answered with; a Query only by a complete answer
    followed by one ReadyForQuery. *)
Inductive answered : adminFrontend → list adminMsg → Prop :=
| an_query sql out : answer out → answered (Query sql) (out ++ [ReadyForQuery "I"])
| an_sync : answered Sync [ReadyForQuery "I"]
| an_other : answered OtherFrontend [ReadyForQuery "I"]
| an_parse : answered Parse [ParseComplete]
| an_bind : answered Bind [BindComplete]
| an_describe : answered Describe [NoData]
| an_execute : answered Execute [CommandComplete "SHOW"]
| an_close : answered Close [CloseComplete]
| an_flush : answered Flush [].

(** The messages up to the first Terminate. *)
Fixpoint session_part (ms : list adminFrontend) : list adminFrontend :=
  match ms with
  | [] | Terminate :: _ => []
  | m :: ms => m :: session_part ms
  end.

(** All messages of [ms] are answered; those before some Query are, and the
    answer to that one was begun. *)
Definition served (ms : list adminFrontend) (out : list adminMsg) : Prop :=
  ∃ outs, out = concat outs ∧ Forall2 answered ms outs.

Definition cut_short (ms : list adminFrontend) (out : list adminMsg) : Prop :=
  ∃ before sql after o1 o2, ms = before ++ Query sql :: after ∧ out = o1 ++ o2 ∧ served before o1 ∧ begun o2.

Lemma served_cons m ms o out : answered m o → served ms out → served (m :: ms) (o ++ out).
Proof. intros Ho (outs & -> & HF). exists (o :: outs). split; [done|]. by constructor. Qed.

Lemma query_answered sql : yields (handleAdminQuery version sql) (λ out _, answered (Query sql) out) begun.
Proof.
  eapply yields_bind; [apply dispatch_answer|done|]. intros o [] Ho. apply yields_send. by constructor.
Qed.

Lemma session_cons m ms (p : prog unit) (X : list adminMsg → Prop) :
  yields p (λ out _, answered m out) X → (∀ out, X out → begun out ∧ ∃ sql, m = Query sql) →
  yields (adminSession version ms) (λ out _, served (session_part ms) out) (cut_short (session_part ms)) →
  yields (p ;; adminSession version ms) (λ out _, served (m :: session_part ms) out) (cut_short (m :: session_part ms)).
Proof.
  intros Hp HX Hs. eapply yields_bind; [exact Hp| |].
  - intros o [Ho [sql ->]]%HX. exists [], sql, (session_part ms), [], o. split_and!; try done. by exists [].
  - intros o [] Ho. eapply yields_mono; [exact Hs| |].
    + intros o' [] Hser. by apply served_cons.
    + intros o' (before & sql & after & o1 & o2 & E & -> & Hser & Hb).
      exists (m :: before), sql, after, (o ++ o1), o2. rewrite E, <- app_assoc. split_and!; try done. by apply served_cons.
Qed.

Lemma session_answered ms :
  yields (adminSession version ms) (λ out _, served (session_part ms) out) (cut_short (session_part ms)).
Proof.
  assert (Nil : served [] []) by (by exists []).
  induction ms as [|m ms IH]; [by apply yields_ret|].
  destruct m; cbn [adminSession session_part]; try (by apply yields_ret);
    try (eapply (session_cons _ _ _ (λ _, False)); [apply yields_send; constructor|done|done]).
  - eapply session_cons; [apply query_answered|eauto|done].
  - eapply (session_cons _ _ _ (λ _, False)); [apply yields_ret; constructor|done|done].
Qed.

(** C28: The console's answers are well typed, whatever happens in the process
    meanwhile.  A session that runs to its end has answered its messages one by
    one in order; each Query by exactly one error, completion or table followed
    by one ReadyForQuery, and every row of a table has one value per column.  A
    session that panics has answered all its messages before some Query that way,
    and of the answer to that one the client has either nothing or a table whose
    rows so far fit its columns. *)
Theorem console_well_typed env t ms l :
  let '(_, _, out, r) := exec env t (adminSession version ms) l in
  match r with
  | Some () => ∃ outs, out = concat outs ∧ Forall2 answered (session_part ms) outs
  | None => ∃ before sql after outs part, session_part ms = before ++ Query sql :: after ∧
      out = concat outs ++ part ∧ Forall2 answered before outs ∧
      (part = [] ∨ ∃ cols body, part = RowDescription cols :: body ∧ rows (length cols) body)
  end.
Proof.
  destruct (exec env t (adminSession version ms) l) as [[[t' l'] out] r] eqn:E. apply session_answered in E.
  destruct r as [[]|]; [done|]. destruct E as (before & sql & after & o1 & o2 & ? & -> & (outs & -> & ?) & Hb).
  exists before, sql, after, outs, o2. split_and!; [done..|]. destruct Hb as [|cols body Hb]; [by left|]. right. eauto.
Qed.

End answers.

(** ** Crashes *)

(** A run under an environment whose steps are in [rely] returns, in a state
    and with a value that satisfy [Q]. *)
Fixpoint safe {A} (rely : relation live) (p : prog A) (l : live) (Q : live → A → Prop) : Prop :=
  match p with
  | Ret a => Q l a
  | Send _ p => safe rely p l Q
  | Access B f k => ∀ l1, rely l l1 → ∃ b, (f l1).2 = Some b ∧ safe rely (k b) (f l1).1 Q
  end.

Lemma safe_exec {A} rely env (p : prog A) Q :
  (∀ t l, rely l (env t l)) → ∀ t l, safe rely p l Q →
  ∃ t' l' out a, exec env t p l = (t', l', out, Some a) ∧ Q l' a.
Proof.
  intros He. induction p as [a|m p IH|B f k IH]; intros t l Hs; simpl in *.
  - by exists t, l, [], a.
  - destruct (IH t l Hs) as (t' & l' & out & a & E & HQ). rewrite E. by exists t', l', (m :: out), a.
  - destruct (Hs _ (He t l)) as (b & Hb & Hk). destruct (f (env t l)) as [l1 r]. simpl in *. subst.
    by apply IH.
Qed.

Lemma safe_bind {A B} rely (p : prog A) (k : A → prog B) l Q R :
  safe rely p l Q → (∀ l a, Q l a → safe rely (k a) l R) → safe rely (bind p k) l R.
Proof.
  intros Hp Hk. revert l Hp. induction p as [a|m p IH|C f g IH]; intros l Hp; simpl in *; [by apply Hk|by apply IH|].
  intros l1 Hr. destruct (Hp l1 Hr) as (b & Hb & Hg). exists b. split; [done|by apply IH].
Qed.

Section safety.
Context `{MapRange} `{Unicode} (version : string).

(** No name that [Get] knows is forgotten. *)
Definition known (k : string) (l : live) : Prop := is_Some (Registry.Get (reg l) k).
Definition keeps (l l' : live) : Prop := ∀ k, known k l → known k l'.

(** A program that runs from any state in which the names in [ks] are known,
    and leaves them known. *)
Definition runs {A} (ks : list string) (p : prog A) (Q : A → Prop) : Prop :=
  ∀ l, Forall (λ k, known k l) ks → safe keeps p l (λ l' a, Forall (λ k, known k l') ks ∧ Q a).

Lemma keeps_all ks l l' : keeps l l' → Forall (λ k, known k l) ks → Forall (λ k, known k l') ks.
Proof. intros Hk Hl. eapply Forall_impl; [exact Hl|]. intros k. apply Hk. Qed.

Lemma runs_ret {A} ks (a : A) (Q : A → Prop) : Q a → runs ks (Ret a) Q.
Proof. by intros HQ l Hl. Qed.

Lemma runs_send ks m : runs ks (send m) (λ _, True).
Proof. by intros l Hl. Qed.

Lemma runs_bind {A B} ks (p : prog A) (k : A → prog B) Q R :
  runs ks p Q → (∀ a, Q a → runs ks (k a) R) → runs ks (bind p k) R.
Proof. intros Hp Hk l Hl. eapply safe_bind; [by apply Hp|]. intros l' a [Hl' Ha]. by apply Hk. Qed.

Lemma runs_read {A} ks (f : live → A) (Q : A → Prop) :
  (∀ l, Forall (λ k, known k l) ks → Q (f l)) → runs ks (read f) Q.
Proof.
  intros HQ l Hl l1 Hr. exists (f l1). split; [done|]. simpl. pose proof (keeps_all _ _ _ Hr Hl). eauto.
Qed.

Lemma runs_any {A} ks (f : live → A) : runs ks (read f) (λ _, True).
Proof. by apply runs_read. Qed.

Lemma runs_on_pool ks f i : runs ks (on_pool f (Some i)) (λ _, True).
Proof. intros l Hl l1 Hr. exists (). split; [done|]. simpl. split; [|done]. by apply (keeps_all ks l l1). Qed.

Lemma runs_for_each {A} ks (l : list A) body :
  (∀ x, x ∈ l → runs ks (body x) (λ _, True)) → runs ks (for_each l body) (λ _, True).
Proof.
  induction l as [|x l IH]; intros Hb; simpl; [by apply runs_ret|].
  eapply runs_bind; [apply Hb; left|]. intros _ _. apply IH. intros y Hy. apply Hb. by right.
Qed.

Lemma safe_mono {A} rely (p : prog A) l (Q R : live → A → Prop) :
  safe rely p l Q → (∀ l a, Q l a → R l a) → safe rely p l R.
Proof.
  intros Hp HQ. revert l Hp. induction p as [a|m p IH|C f g IH]; intros l Hp; simpl in *; [auto|auto|].
  intros l1 Hr. destruct (Hp l1 Hr) as (b & Hb & Hg). eauto.
Qed.

Lemma names_known l : Forall (λ k, known k l) (Registry.Names (reg l)).
Proof.
  apply Forall_forall. intros k Hk. unfold Registry.Names in Hk. rewrite RegistryTheorems.elem_of_sort in Hk.
  apply list_elem_of_fmap in Hk as ([k' e] & -> & He). apply elem_of_range in He.
  unfold known, Registry.Get. simpl. rewrite He. by exists e.
Qed.

(** The names just read are known from then on. *)
Lemma runs_names {A} ks (k : list string → prog A) Q :
  (∀ names, runs (names ++ ks) (k names) Q) → runs ks (do names <- NamesOf; k names) Q.
Proof.
  intros Hk l Hl l1 Hr. eexists. split; [done|]. simpl. eapply safe_mono.
  - apply Hk. apply Forall_app. split; [apply names_known|by apply (keeps_all ks l l1)].
  - intros l' a [Hf Ha]. apply Forall_app in Hf as [_ Hf]. done.
Qed.

Lemma runs_get ks name : name ∈ ks → runs ks (GetPool name) is_Some.
Proof.
  intros Hn. apply runs_read. intros l Hl. rewrite Forall_forall in Hl. apply fmap_is_Some. by apply Hl.
Qed.

Lemma runs_stats ks p : is_Some p → runs ks (statsOf p) (λ _, True).
Proof. intros [i ->]. apply runs_any. Qed.

Lemma runs_paused ks p : is_Some p → runs ks (isPaused p) (λ _, True).
Proof. intros [i ->]. apply runs_any. Qed.

Lemma runs_walk ks is' : runs ks (shardWalk is') (λ _, True).
Proof.
  induction is' as [|i is' IH]; cbn [shardWalk]; [by apply runs_ret|].
  eapply runs_bind; [apply runs_any|]. intros x _. eapply runs_bind; [apply IH|]. intros y _. by apply runs_ret.
Qed.

Lemma runs_sessions ks : runs ks listSessionsNow (λ _, True).
Proof. eapply runs_bind; [apply runs_walk|]. intros x _. by apply runs_ret. Qed.

Lemma runs_clients ks : runs ks sessionsByPoolNow (λ _, True).
Proof. eapply runs_bind; [apply runs_sessions|]. intros x _. by apply runs_ret. Qed.

Lemma runs_totals ks ps i a : runs ks (totals ps i a) (λ _, True).
Proof.
  revert i a. induction ps as [|[n x] ps IH]; intros i a; cbn [totals]; [by apply runs_ret|].
  eapply runs_bind; [by apply runs_stats|]. intros s _. apply IH.
Qed.

Ltac runs_step := first
  [ apply runs_get; set_solver
  | apply runs_send | apply runs_any | apply runs_on_pool
  | apply runs_sessions | apply runs_clients | apply runs_totals
  | apply runs_names; intros ?
  | apply runs_stats; assumption | apply runs_paused; assumption
  | apply runs_for_each; intros ? ?
  | eapply runs_bind; [|intros ? ?]
  | match goal with |- runs _ (let '(_, _) := ?x in _) _ => destruct x end ].

Lemma show_pools_runs : runs [] sendShowPools (λ _, True).
Proof. unfold sendShowPools, sendPoolRow. repeat runs_step. Qed.

Lemma show_stats_runs : runs [] sendShowStats (λ _, True).
Proof. unfold sendShowStats. repeat runs_step. Qed.

Lemma show_servers_runs : runs [] sendShowServers (λ _, True).
Proof. unfold sendShowServers. repeat runs_step. Qed.

Lemma show_clients_runs : runs [] sendShowClients (λ _, True).
Proof. unfold sendShowClients. repeat runs_step. Qed.

Lemma show_databases_runs : runs [] sendShowDatabases (λ _, True).
Proof. unfold sendShowDatabases. repeat runs_step. Qed.

Lemma show_lists_runs : runs [] sendShowLists (λ _, True).
Proof. unfold sendShowLists. repeat runs_step. Qed.

Lemma single_column_runs col vs tag : runs [] (sendSingleColumnRow col vs tag) (λ _, True).
Proof. unfold sendSingleColumnRow. repeat runs_step. Qed.

Lemma findPoolName_eq {A} wanted (k : string → prog A) :
  bind (findPoolName wanted) k =
  do names <- NamesOf; k (default "" (head (filter (λ n, EqualFold n wanted = true) names))).
Proof. done. Qed.

Lemma pool_cmd_runs verb f cmd : runs [] (handlePoolCmd verb f cmd) (λ _, True).
Proof.
  unfold handlePoolCmd. case_bool_decide; [repeat runs_step|].
  rewrite findPoolName_eq. apply runs_names. intros names.
  destruct (head (filter _ names)) as [n|] eqn:E; cbn [from_option id]; [|runs_step].
  case_bool_decide; [runs_step|]. eapply runs_bind.
  - apply runs_get. apply head_Some_elem_of in E. apply list_elem_of_filter in E. set_solver.
  - intros p [i ->]. repeat runs_step.
Qed.

Lemma dispatch_runs trimmed : runs [] (dispatch version trimmed) (λ _, True).
Proof.
  unfold dispatch. repeat case_match;
    eauto using show_pools_runs, show_stats_runs, show_clients_runs, show_servers_runs,
      show_databases_runs, show_lists_runs, single_column_runs, pool_cmd_runs, runs_send.
Qed.

Lemma session_runs ms : runs [] (adminSession version ms) (λ _, True).
Proof.
  induction ms as [|m ms IH]; [by apply runs_ret|].
  destruct m; cbn [adminSession]; try (by apply runs_ret);
    (eapply (runs_bind _ _ _ (λ _, True)); [|intros ? _; exact IH]); try apply runs_send; [|by apply runs_ret].
  eapply runs_bind; [apply dispatch_runs|]. intros _ _. apply runs_send.
Qed.

(** As long as no registered name is forgotten, no console session crashes:
    whatever else happens between its accesses, it runs to its end. *)
Theorem console_no_crash env t ms l :
  (∀ t l, keeps l (env t l)) →
  ∃ t' l' out, exec env t (adminSession version ms) l = (t', l', out, Some ()).
Proof.
  intros He. destruct (safe_exec keeps env (adminSession version ms) _ He t l (session_runs ms l (Forall_nil_2 _)))
    as (t' & l' & out & [] & E & _). eauto.
Qed.

End safety.

(** ** Undisturbed commands *)

Definition quiet (t : nat) (l : live) : live := l.

Section quiet.
Context `{MapRange} `{Unicode} (version : string).

(** The entry a name stands for: the first in order that matches it without
    regard to case. *)
Definition target (name : string) (r : Registry.PoolRegistry) : option string :=
  head (filter (λ n, EqualFold n name = true) (Registry.Names r)).

(** The pools a command is about: all of them, or the one named. *)
Definition chosen (name : string) (r : Registry.PoolRegistry) (i : nat) : Prop :=
  ∃ k e, (name = "" ∨ target name r = Some k) ∧ Registry.entries r !! k = Some e ∧ Registry.pool e = i.

(** [f] applied to the chosen pools, nothing else touched. *)
Definition commanded (f : Pool.Pool → Pool.Pool) (name : string) (l l' : live) : Prop :=
  reg l' = reg l ∧ sess l' = sess l ∧
  ∀ i, (chosen name (reg l) i → pools l' i = f (pools l i)) ∧ (¬ chosen name (reg l) i → pools l' i = pools l i).

Definition apply_pools (f : Pool.Pool → Pool.Pool) (ids : list nat) (l : live) : live :=
  foldl (λ l i, with_pool i (f (pools l i)) l) l ids.

Lemma exec_read {A B} (f : live → A) (k : A → prog B) t l :
  exec quiet t (bind (read f) k) l = exec quiet (S t) (k (f l)) l.
Proof. done. Qed.

Lemma exec_apply f (ps : list (string * nat)) t l :
  exec quiet t (for_each ps (λ '(_, i), on_pool f (Some i))) l =
  ((t + length ps)%nat, apply_pools f ps.*2 l, [], Some ()).
Proof.
  revert t l. induction ps as [|[k i] ps IH]; intros t l; [by rewrite Nat.add_0_r|].
  cbn [for_each]. rewrite exec_bind. simpl. rewrite IH. simpl. by rewrite Nat.add_succ_r.
Qed.

Lemma apply_pools_spec f ids l :
  NoDup ids →
  reg (apply_pools f ids l) = reg l ∧ sess (apply_pools f ids l) = sess l ∧
  ∀ i, (i ∈ ids → pools (apply_pools f ids l) i = f (pools l i)) ∧
       (i ∉ ids → pools (apply_pools f ids l) i = pools l i).
Proof.
  intros Hnd. revert l. induction Hnd as [|x ids Hx Hnd IH]; intros l; [split_and!; set_solver|].
  simpl. destruct (IH (with_pool x (f (pools l x)) l)) as (Hr & Hs & Hp).
  split_and!; [done|done|]. intros i. destruct (Hp i) as [H1 H2]. simpl in *. split.
  - intros [->|Hi]%elem_of_cons; [rewrite H2 by done; by rewrite fn_lookup_insert|].
    rewrite H1 by done. by rewrite fn_lookup_insert_ne by (intros ->; done).
  - intros [Hne Hi]%not_elem_of_cons. rewrite H2 by done. by rewrite fn_lookup_insert_ne by done.
Qed.

Lemma pool_ids_NoDup r : RegistryLemmas.WF r → NoDup (range (Registry.pool <$> Registry.entries r)).*2.
Proof.
  intros [Hw _]. apply NoDup_fmap_2_strong.
  - intros [k i] [k' i'] H1 H2 E. simpl in E. subst i'. f_equal.
    rewrite elem_of_range in H1, H2. rewrite lookup_fmap in H1, H2.
    apply fmap_Some in H1 as (e & He & ->). apply fmap_Some in H2 as (e' & He' & E).
    by eapply RegistryLemmas.wf_distinct.
  - eapply NoDup_fmap_1, NoDup_range_fst.
Qed.

Lemma elem_of_pool_ids r i :
  i ∈ (range (Registry.pool <$> Registry.entries r)).*2 ↔ ∃ k e, Registry.entries r !! k = Some e ∧ Registry.pool e = i.
Proof.
  rewrite list_elem_of_fmap. split.
  - intros ([k j] & -> & Hj). rewrite elem_of_range, lookup_fmap in Hj. apply fmap_Some in Hj as (e & He & ->). eauto.
  - intros (k & e & He & <-). exists (k, Registry.pool e). split; [done|]. rewrite elem_of_range, lookup_fmap. by rewrite He.
Qed.

Lemma target_entry name r k : target name r = Some k → is_Some (Registry.entries r !! k).
Proof.
  intros E. apply head_Some_elem_of in E. apply list_elem_of_filter in E as [_ E].
  unfold Registry.Names in E. rewrite RegistryTheorems.elem_of_sort in E.
  apply list_elem_of_fmap in E as ([k' e] & -> & He). apply elem_of_range in He. by exists e.
Qed.

(** The empty string names no pool. *)
Lemma pool_cmd_exact verb f cmd t l :
  RegistryLemmas.WF (reg l) → Registry.entries (reg l) !! "" = None →
  let name := TrimSpace (TrimPrefix (ToUpperText cmd) verb) in
  ∃ t' l' out, exec quiet t (handlePoolCmd verb f cmd) l = (t', l', out, Some ()) ∧ commanded f name l l' ∧
    out = if bool_decide (name ≠ "" ∧ target name (reg l) = None)
          then [ErrorResponse "3D000" (PoolNotFound name)] else [CommandComplete verb].
Proof.
  intros Hw He name. unfold handlePoolCmd. fold name. case_bool_decide as E.
  - unfold Pools. rewrite exec_read, exec_bind, exec_apply. simpl.
    eexists _, _, _. split; [reflexivity|].
    destruct (apply_pools_spec f _ l (pool_ids_NoDup _ Hw)) as (Hr & Hs & Hp). split.
    + split_and!; [done|done|]. intros i. destruct (Hp i) as [H1 H2]. split; intros Hc.
      * apply H1, elem_of_pool_ids. destruct Hc as (k & e & _ & ? & ?). eauto.
      * apply H2. rewrite elem_of_pool_ids. intros (k & e & ? & ?). apply Hc. exists k, e. auto.
    + rewrite bool_decide_false by naive_solver. done.
  - rewrite findPoolName_eq. unfold NamesOf. rewrite exec_read. fold (target name (reg l)).
    destruct (target name (reg l)) as [k|] eqn:Et; cbn [from_option id].
    + destruct (target_entry _ _ _ Et) as [e Hk]. change (Datatypes.id k) with k.
      rewrite bool_decide_false by (intros ->; congruence). simpl. unfold quiet, Registry.Get. rewrite Hk. simpl.
      eexists _, _, _. split; [reflexivity|]. split; [|by rewrite bool_decide_false by naive_solver].
      split_and!; [done|done|]. intros i. simpl. split.
      * intros (k' & e' & [?|Hk'] & He' & <-); [done|]. assert (k' = k) as -> by congruence.
        assert (e' = e) as -> by congruence. by rewrite fn_lookup_insert.
      * intros Hc. rewrite fn_lookup_insert_ne; [done|]. intros <-. apply Hc. exists k, e. auto.
    + eexists _, _, _. split; [reflexivity|]. split; [|by rewrite bool_decide_true].
      split_and!; [done|done|]. intros i. split; [|done]. intros (k & e & [?|Hk] & _); [done|congruence].
Qed.

(** The verbs, their methods, and the prefixes that select them. *)
Definition verb_method (verb : string) : option (Pool.Pool → Pool.Pool) :=
  if bool_decide (verb = "PAUSE") then Some Pool.Pause
  else if bool_decide (verb = "RESUME") then Some Pool.Resume
  else if bool_decide (verb = "RECONNECT") then Some reconnected
  else None.

Lemma prefixes_comparable u p q : HasPrefix u p = true → HasPrefix u q = true → HasPrefix p q || HasPrefix q p = true.
Proof.
  revert u q. induction p as [|c p IH]; intros u q Hp Hq; [by destruct q|].
  destruct u as [|d u]; [done|]. destruct q as [|e q]; [done|]. simpl in Hp, Hq |- *.
  apply andb_true_iff in Hp as [->%Ascii.eqb_eq Hp]. apply andb_true_iff in Hq as [->%Ascii.eqb_eq Hq].
  rewrite !Ascii.eqb_refl. simpl. by eapply IH.
Qed.

Lemma dispatch_verb verb f trimmed :
  verb_method verb = Some f → HasPrefix (ToUpperText trimmed) verb = true →
  dispatch version trimmed = handlePoolCmd verb f trimmed.
Proof.
  unfold verb_method, dispatch. intros Hv Hp. set (u := ToUpperText trimmed) in *. clearbody u.
  repeat (case_bool_decide; [subst; repeat case_bool_decide; simplify_eq; done|]).
  repeat case_bool_decide; simplify_eq; rewrite Hp; try done.
  - destruct (HasPrefix u "PAUSE") eqn:E; [|done].
    by pose proof (prefixes_comparable _ _ _ Hp E).
  - destruct (HasPrefix u "PAUSE") eqn:E; [by pose proof (prefixes_comparable _ _ _ Hp E)|].
    destruct (HasPrefix u "RESUME") eqn:E'; [by pose proof (prefixes_comparable _ _ _ Hp E')|done].
Qed.

(** PAUSE, RESUME and RECONNECT do what they say: undisturbed, the method
    is applied once to every pool of the registry when no name is given, to the
    pool the name stands for otherwise, and nothing else changes; a name that
    stands for no pool is answered with an error. *)
Theorem pool_commands_exact verb f sql t l :
  verb_method verb = Some f → HasPrefix (ToUpperText (trimCommand sql)) verb = true →
  RegistryLemmas.WF (reg l) → Registry.entries (reg l) !! "" = None →
  let name := TrimSpace (TrimPrefix (ToUpperText (trimCommand sql)) verb) in
  ∃ t' l' answer, exec quiet t (handleAdminQuery version sql) l = (t', l', [answer; ReadyForQuery "I"], Some ()) ∧
    commanded f name l l' ∧
    answer = if bool_decide (name ≠ "" ∧ target name (reg l) = None)
             then ErrorResponse "3D000" (PoolNotFound name) else CommandComplete verb.
Proof.
  intros Hv Hp Hw He name. unfold handleAdminQuery. rewrite (dispatch_verb verb f) by done.
  rewrite exec_bind. destruct (pool_cmd_exact verb f (trimCommand sql) t l Hw He) as (t' & l' & out & E & Hc & ->).
  rewrite E. clear E. fold name in Hc |- *. simpl.
  case_bool_decide; eexists t', l', _; (split; [reflexivity|]); by split.
Qed.

(** *** SHOW POOLS *)

Lemma exec_walk is' t l :
  exec quiet t (shardWalk is') l =
  ((t + length is')%nat, l, [],
   Some (mjoin ((λ i, shardInfos (sess l) (default ∅ (shards (sess l) !! i))) <$> is'))).
Proof.
  revert t. induction is' as [|i is' IH]; intros t; [by rewrite Nat.add_0_r|].
  cbn [shardWalk]. rewrite exec_read, exec_bind, IH. simpl. by rewrite Nat.add_succ_r.
Qed.

Lemma exec_sessions {A} (k : list SessionInfo → prog A) t l :
  exec quiet t (bind listSessionsNow k) l = exec quiet (t + sessionShardCount) (k (listSessions (sess l))) l.
Proof.
  unfold listSessionsNow. rewrite exec_bind, exec_bind, exec_walk. cbn [then_exec exec].
  rewrite length_seq. unfold listSessions, listSessionsOver. cbn beta.
  by destruct (exec quiet (t + _) _ l) as [[[? ?] ?] ?].
Qed.

Lemma exec_clients {A} (k : gmap string Z → prog A) t l :
  exec quiet t (bind sessionsByPoolNow k) l = exec quiet (t + sessionShardCount) (k (sessionsByPool (sess l))) l.
Proof.
  unfold sessionsByPoolNow. rewrite exec_bind, exec_sessions. cbn [then_exec exec].
  by destruct (exec quiet _ (k _) l) as [[[? ?] ?] ?].
Qed.

(** The row of one pool. *)
Definition pool_row (l : live) (name : string) : list string :=
  let s := Pool.stats (pools l (default 0%nat (Registry.pool <$> Registry.Get (reg l) name))) in
  let p := pools l (default 0%nat (Registry.pool <$> Registry.Get (reg l) name)) in
  [name; itoa (Z.of_nat (length (filter (λ i, PoolName i = name) (listSessions (sess l)))));
   itoa (Pool.Waiting s); itoa (Z.of_nat (Pool.InUse s)); itoa (Z.of_nat (Pool.Idle s));
   itoa (Milliseconds (Pool.WaitTime s));
   Registry.effectivePoolMode (default "" (Config.PoolMode <$> Registry.PoolConfigOf (reg l) name));
   if Pool.IsPaused p then "yes" else "no"].


Lemma exec_row (clients : gmap string Z) t l k :
  known k l →
  default 0 (clients !! k) = Z.of_nat (length (filter (λ i, PoolName i = k) (listSessions (sess l)))) →
  exec quiet t (sendPoolRow clients k) l = ((4 + t)%nat, l, [DataRow (pool_row l k)], Some ()).
Proof.
  intros [e Hk] Hc. unfold sendPoolRow, GetPool, ConfigOf. rewrite exec_read, Hk.
  cbn [fmap option_fmap option_map statsOf isPaused]. rewrite !exec_read. unfold pool_row. by rewrite Hk, Hc.
Qed.

Lemma exec_rows names (clients : gmap string Z) t l :
  Forall (λ k, known k l ∧ default 0 (clients !! k) =
    Z.of_nat (length (filter (λ i, PoolName i = k) (listSessions (sess l))))) names →
  exec quiet t (for_each names (sendPoolRow clients)) l =
  ((4 * length names + t)%nat, l, DataRow ∘ pool_row l <$> names, Some ()).
Proof.
  intros Hn. revert t. induction Hn as [|k names [Hk Hc] _ IH]; intros t; [done|].
  cbn [for_each]. rewrite exec_bind, exec_row by done. cbn [then_exec]. rewrite IH. simpl. do 3 f_equal. lia.
Qed.

(** SHOW POOLS shows the truth: undisturbed, one row per entry of the
    registry in sorted order, with that pool's own counters, mode and pause
    state, and in cl_active the number of registered sessions that run on it. *)
Theorem show_pools_exact sql t l :
  ToUpperText (trimCommand sql) = "SHOW POOLS" → Registry.entries (reg l) !! "" = None →
  ∃ t', exec quiet t (handleAdminQuery version sql) l =
    (t', l, RowDescription ["database"; "cl_active"; "cl_waiting"; "sv_active"; "sv_idle"; "maxwait"; "pool_mode"; "paused"]
       :: (DataRow ∘ pool_row l <$> Registry.Names (reg l)) ++ [CommandComplete "SHOW"; ReadyForQuery "I"], Some ()).
Proof.
  intros E He. unfold handleAdminQuery, dispatch. rewrite E, bool_decide_true by done.
  unfold sendShowPools. rewrite !exec_bind. eexists. cbn [exec send then_exec].
  rewrite exec_clients. unfold NamesOf. rewrite exec_read, exec_bind, exec_rows.
  - simpl. rewrite <-app_assoc. reflexivity.
  - pose proof (names_known l) as Hk. apply Forall_forall. intros k Hin.
    rewrite Forall_forall in Hk. split; [by apply Hk|].
    unfold sessionsByPool. apply SessionTheorems.sessionsByPoolOf_count. intros Hz.
    unfold Registry.Names in Hin. rewrite RegistryTheorems.elem_of_sort in Hin.
    apply list_elem_of_fmap in Hin as ([k' e] & -> & Hin). apply elem_of_range in Hin. simpl in *. congruence.
Qed.

End quiet.

(** ** Runs *)

(** Case folding restricted to ASCII. *)
#[local] Instance ascii_text : Unicode :=
  {| upper_runes s := s; fold_equal_runes s t := bool_decide (s = t) |}.

Definition demo_live : live :=
  mkLive RegistryTheorems.demo (λ _, Pool.New PoolMethods.breaker_opts 0) SessionTheorems.demo_world.

Lemma demo_live_WF : RegistryLemmas.WF (reg demo_live).
Proof. apply (RegistryOps.reachable_WF _ _ RegistryTheorems.demo_reachable (Forall_nil_2 _)). Qed.

Lemma console_well_typed_witness :
  ∃ outs, [CommandComplete "PAUSE"; ReadyForQuery "I"; ParseComplete] = concat outs ∧
    Forall2 answered [Query "pause shop;"; Parse] outs.
Proof.
  pose proof (console_well_typed "1.0" quiet 0 [Query "pause shop;"; Parse; Terminate; Sync] demo_live) as K.
  destruct (exec _ _ _ _) as [[[t' l'] out] r] eqn:E.
  assert (Er : r = Some ()) by (change r with (t', l', out, r).2; rewrite <- E; vm_compute; reflexivity).
  assert (Eo : out = [CommandComplete "PAUSE"; ReadyForQuery "I"; ParseComplete])
    by (change out with (t', l', out, r).1.2; rewrite <- E; vm_compute; reflexivity).
  subst r out. exact K.
Defined.

(** An environment that only moves the pools. *)
Lemma console_no_crash_witness :
  ∃ t' l' out, exec (λ t l, with_pool t (Pool.Pause (pools l t)) l) 0
    (adminSession "1.0" [Query "show stats"; Query "resume"]) demo_live = (t', l', out, Some ()).
Proof.
  apply (console_no_crash "1.0" (λ t l, with_pool t (Pool.Pause (pools l t)) l)). intros t l k Hk. exact Hk.
Defined.

Lemma pool_commands_exact_witness :
  ∃ t' l' answer, exec quiet 0 (handleAdminQuery "1.0" " Pause SHOP/alice ;") demo_live =
      (t', l', [answer; ReadyForQuery "I"], Some ()) ∧
    commanded Pool.Pause "SHOP/ALICE" demo_live l' ∧ answer = CommandComplete "PAUSE".
Proof.
  assert (Hn : TrimSpace (TrimPrefix (ToUpperText (trimCommand " Pause SHOP/alice ;")) "PAUSE") = "SHOP/ALICE")
    by (vm_compute; reflexivity).
  assert (Hp : HasPrefix (ToUpperText (trimCommand " Pause SHOP/alice ;")) "PAUSE" = true) by (vm_compute; reflexivity).
  assert (He : Registry.entries (reg demo_live) !! "" = None) by (vm_compute; reflexivity).
  destruct (pool_commands_exact "1.0" "PAUSE" Pool.Pause " Pause SHOP/alice ;" 0 demo_live eq_refl Hp demo_live_WF He)
    as (t' & l' & a & E & Hc & Ha).
  rewrite Hn in Hc, Ha. exists t', l', a. split; [exact E|]. split; [exact Hc|].
  rewrite Ha. vm_compute. reflexivity.
Defined.

Lemma show_pools_exact_witness :
  ∃ t', exec quiet 0 (handleAdminQuery "1.0" "show pools ;") demo_live =
    (t', demo_live, RowDescription ["database"; "cl_active"; "cl_waiting"; "sv_active"; "sv_idle"; "maxwait"; "pool_mode"; "paused"]
       :: [DataRow (pool_row demo_live "shop"); DataRow (pool_row demo_live "shop/alice")] ++
       [CommandComplete "SHOW"; ReadyForQuery "I"], Some ()).
Proof.
  assert (Hq : ToUpperText (trimCommand "show pools ;") = "SHOW POOLS") by (vm_compute; reflexivity).
  assert (He : Registry.entries (reg demo_live) !! "" = None) by (vm_compute; reflexivity).
  assert (Hn : Registry.Names (reg demo_live) = ["shop"; "shop/alice"]) by (vm_compute; reflexivity).
  destruct (show_pools_exact "1.0" "show pools ;" 0 demo_live Hq He) as [t' E].
  rewrite Hn in E. exists t'. exact E.
Defined.

(** A pool removed by a reload between the listing of the names and the lookup
    of the pool: the lookup's nil pool is used, and nothing in the process
    recovers from the panic. *)
Theorem show_pools_crashes :
  let removed l := match Registry.Remove "shop" (reg l) with
                   | Ok (r, _) => mkLive r (pools l) (sess l) | Err _ => l end in
  ∃ t' l' out, exec (λ t l, if bool_decide (t = 33%nat) then removed l else l) 0
    (handleAdminQuery "1.0" "SHOW POOLS") demo_live = (t', l', out, None).
Proof. vm_compute. eauto. Qed.

(** A command matches by prefix: PAUSEshop pauses the pool shop. *)
Theorem pause_by_prefix :
  exec quiet 0 (handleAdminQuery "1.0" "PAUSEshop") demo_live =
  exec quiet 0 (handleAdminQuery "1.0" "PAUSE shop") demo_live.
Proof. reflexivity. Qed.

(** An extended-protocol client is told that its command ran. *)
Theorem extended_execute_does_nothing :
  exec quiet 0 (adminSession "1.0" [Parse; Bind; Describe; Execute; Sync]) demo_live =
  (0%nat, demo_live, [ParseComplete; BindComplete; NoData; CommandComplete "SHOW"; ReadyForQuery "I"], Some ()).
Proof. reflexivity. Qed.

End AdminSQLTheorems.
