(* ===== verification/GoURL.v ===== *)
(** * The host of a URL

    What src/admin_auth.go uses of Go's net/url: [url.Parse] and the [Host] of
    its result, with everything that can make the parse fail. *)

From Stdlib Require Import Ascii.
From S2P Require Import Prelude GoStrings HBA.
Open Scope string_scope.
Open Scope list_scope.
Open Scope nat_scope.

Module GoURL.

(** ** Escapes *)

Definition is_ctl (c : ascii) : bool := (byte_of c <? 32) || (byte_of c =? 127).

Fixpoint has_ctl (s : string) : bool :=
  match s with EmptyString => false | String c s => is_ctl c || has_ctl s end.

Definition unhex (c : ascii) : option nat :=
  if is_digit c then Some (byte_of c - 48)
  else if (97 <=? byte_of c) && (byte_of c <=? 102) then Some (byte_of c - 87)
  else if (65 <=? byte_of c) && (byte_of c <=? 70) then Some (byte_of c - 55)
  else None.

Inductive encoding := encodePath | encodeHost | encodeZone.

Fixpoint chars (s : string) : list ascii :=
  match s with EmptyString => [] | String c s => c :: chars s end.

(** [shouldEscape] for a host. *)
Definition hostChar (c : ascii) : bool :=
  is_letter c || is_digit c || mem c (chars "!$&'()*+,;=:[]<>-_.~") || (byte_of c =? 34).

(** Whether an escape of the byte [v] is allowed. *)
Definition escapeOk (m : encoding) (v : nat) : bool :=
  match m with
  | encodePath => true
  | encodeHost => (128 <=? v) || (v =? 37)
  | encodeZone => (v =? 37) || (v =? 32) || hostChar (ascii_of_nat v)
  end.

Fixpoint unescape (m : encoding) (s : string) : option string :=
  match s with
  | EmptyString => Some EmptyString
  | String c s =>
      if Ascii.eqb c "%" then
        match s with
        | String a (String b s) =>
            match unhex a, unhex b with
            | Some x, Some y =>
                let v := 16 * x + y in
                if escapeOk m v then String (ascii_of_nat v) <$> unescape m s else None
            | _, _ => None
            end
        | _ => None
        end
      else if match m with encodePath => false | _ => is_ascii c && negb (hostChar c) end then None
      else String c <$> unescape m s
  end.

(** ** The authority *)

Fixpoint all_digits (s : string) : bool :=
  match s with EmptyString => true | String c s => is_digit c && all_digits s end.

Definition validOptionalPort (s : string) : bool :=
  match s with EmptyString => true | String c s => Ascii.eqb c ":" && all_digits s end.

(** Split before the first occurrence of a needle. *)
Fixpoint split_before (needle s : string) : option (string * string) :=
  if HasPrefix s needle then Some (EmptyString, s)
  else match s with
       | EmptyString => None
       | String c s => match split_before needle s with Some (x, y) => Some (String c x, y) | None => None end
       end.

Definition before (b : ascii) (s : string) : string := match cut_byte b s with Some (x, _) => x | None => s end.

Definition has_byte (b : ascii) (s : string) : bool := match cut_byte b s with Some _ => true | None => false end.

(** [netip.ParseAddr] for an IPv6 address, with or without a zone. *)
Definition isIPv6 (s : string) : bool :=
  match cut_byte "%" s with
  | Some (a, zone) => negb (bool_decide (zone = "")) && bool_decide (is_Some (HBA.parseIPv6 (HBA.lit a)))
  | None => bool_decide (is_Some (HBA.parseIPv6 (HBA.lit s)))
  end.

(** What is between the brackets of an IP literal. *)
Definition unescapeLiteral (hostname : string) : option string :=
  match split_before "%25" hostname with
  | Some (h, zone) =>
      match unescape encodeHost h, unescape encodeZone zone with
      | Some a, Some b => Some (a +:+ b)
      | _, _ => None
      end
  | None => unescape encodeHost hostname
  end.

Definition parseHost (host : string) : option string :=
  match cut_last_byte "[" host with
  | Some (pre, s) =>
      if negb (bool_decide (pre = "")) then None
      else match cut_last_byte "]" s with
           | None => None
           | Some (hostname, colonPort) =>
               if negb (validOptionalPort colonPort) then None
               else match unescape encodeHost colonPort, unescapeLiteral hostname with
                    | Some port, Some h => if isIPv6 h then Some ("[" +:+ h +:+ "]" +:+ port) else None
                    | _, _ => None
                    end
           end
  | None =>
      match cut_byte ":" host with
      | Some (_, port) => if all_digits port then unescape encodeHost host else None
      | None => unescape encodeHost host
      end
  end.

Definition userChar (c : ascii) : bool := is_letter c || is_digit c || mem c (chars "-._:~!$&'()*+,;=%@").

Fixpoint validUserinfo (s : string) : bool :=
  match s with EmptyString => true | String c s => userChar c && validUserinfo s end.

Definition parseAuthority (a : string) : option string :=
  match cut_last_byte "@" a with
  | None => parseHost a
  | Some (userinfo, h) =>
      match parseHost h with
      | None => None
      | Some host => if validUserinfo userinfo && bool_decide (is_Some (unescape encodePath userinfo))
                     then Some host else None
      end
  end.

(** ** The URL *)

Inductive scheme := NoScheme | MissingScheme | Scheme (rest : string).

Definition schemeChar (c : ascii) : bool := is_digit c || mem c (chars "+-.").

Fixpoint getScheme (first : bool) (s : string) : scheme :=
  match s with
  | EmptyString => NoScheme
  | String c s =>
      if is_letter c then getScheme false s
      else if schemeChar c then if first then NoScheme else getScheme false s
      else if Ascii.eqb c ":" then if first then MissingScheme else Scheme s
      else NoScheme
  end.

(** The authority and the path of what follows the scheme. *)
Definition parseRest (hasScheme : bool) (s : string) : option string :=
  let rest := before "?" s in
  if negb (HasPrefix rest "/") then
    if hasScheme then Some ""
    else if has_byte ":" (before "/" rest) then None
    else if bool_decide (is_Some (unescape encodePath rest)) then Some "" else None
  else if (hasScheme || negb (HasPrefix rest "///")) && HasPrefix rest "//" then
    let authority := drop_str 2 rest in
    let path := match cut_byte "/" authority with Some (_, p) => String "/" p | None => "" end in
    match parseAuthority (before "/" authority) with
    | None => None
    | Some host => if bool_decide (is_Some (unescape encodePath path)) then Some host else None
    end
  else if bool_decide (is_Some (unescape encodePath rest)) then Some "" else None.

(** [u.Host] for [u, err := url.Parse(s)], [None] when err is not nil. *)
Definition urlHost (s : string) : option string :=
  let u := before "#" s in
  let frag := match cut_byte "#" s with Some (_, f) => f | None => "" end in
  if has_ctl u then None
  else match (if bool_decide (u = "*") then Some ""
              else match getScheme true u with
                   | MissingScheme => None
                   | NoScheme => parseRest false u
                   | Scheme rest => parseRest true rest
                   end) with
       | None => None
       | Some host => if bool_decide (is_Some (unescape encodePath frag)) then Some host else None
       end.

End GoURL.
