(* ===== verification/AdminAuth.v ===== *)
(** * Access to the admin listener

    src/admin_auth.go, src/oidc_auth.go and src/admin_tls.go: the middleware in
    front of every admin handler (same-origin check, client certificate, bearer
    token, password, loopback fallback), the token verifier's allowlists and
    the listener's TLS configuration.  bcrypt and the OIDC library are
    parameters; net/http's Basic parsing and header lookup are modelled. *)

From Stdlib Require Import Ascii.
From S2P Require Import Prelude GoStrings HBA Config GoCrypto GoURL.
Open Scope string_scope.
Open Scope list_scope.
Open Scope Z_scope.

Module AdminAuth.

(** ** Requests *)

Record request := mkRequest {
  Method : string;
  Host : string;
  RemoteAddr : string;
  Header : gmap string (list string);   (** canonical keys *)
  TLS : option (list string);           (** the leaf CN of every verified chain *)
}.

(** [r.Header.Get(k)] *)
Definition get (k : string) (r : request) : string := default "" (Header r !! k ≫= head).

(** ** Cross-site requests *)

Definition isSafeMethod (m : string) : bool :=
  bool_decide (m = "GET") || bool_decide (m = "HEAD") || bool_decide (m = "OPTIONS").

Inductive csrfError := errCSRFBadOrigin | errCSRFOriginMismatch.

Definition checkOrigin (r : request) : option csrfError :=
  let origin := get "Origin" r in
  let referer := get "Referer" r in
  if bool_decide (origin = "") && bool_decide (referer = "") then None
  else
    let src := if bool_decide (origin = "") then referer else origin in
    match GoURL.urlHost src with
    | None => Some errCSRFBadOrigin
    | Some h => if bool_decide (h = Host r) then None else Some errCSRFOriginMismatch
    end.

(** ** Client certificates *)

Definition verifiedMTLSIdentity (r : request) (allowedCNs : list string) : option string :=
  match TLS r with
  | None | Some [] => None
  | Some (cn :: _) =>
      if bool_decide (allowedCNs = []) then Some cn
      else if existsb (String.eqb cn) allowedCNs then Some cn else None
  end.

(** ** Tokens *)

(** [h[:len(prefix)]] compared with the scheme by EqualFold: no other character
    folds to one of its letters. *)
Definition has_scheme (scheme h : string) : bool :=
  bool_decide (ToLower (take_str (String.length scheme) h) = scheme).

Definition extractBearerToken (r : request) : string :=
  let h := get "Authorization" r in
  if has_scheme "bearer " h then TrimSpace (drop_str 7 h) else "".

Record claims := mkClaims { Sub : string; Email : string; EmailVerified : bool }.

Record oidcAuth := mkOIDC {
  allowedEmails : gset string;
  allowedSubjects : gset string;
  skipEmailVerified : bool;
}.

Record oidcAuthConfig := mkOIDCConfig {
  IssuerURL : string;
  ClientID : string;
  AllowedEmails : list string;
  AllowedSubjects : list string;
  SkipEmailVerified : bool;
}.

Inductive oidcErr :=
| EmptyToken | BadToken | EmailNotVerified | NotAllowed
| NoIssuer | NoClientID | Discovery.

(** [newOIDCAuth]; [discovery] is whether the provider answers. *)
Definition newOIDCAuth (discovery : bool) (c : oidcAuthConfig) : result oidcErr oidcAuth :=
  if bool_decide (IssuerURL c = "") then Err NoIssuer
  else if bool_decide (ClientID c = "") then Err NoClientID
  else if negb discovery then Err Discovery
  else Ok (mkOIDC (list_to_set (AllowedEmails c)) (list_to_set (AllowedSubjects c)) (SkipEmailVerified c)).

Definition buildOIDCVerifier (discovery : bool) (cfg : Config.Config) : result oidcErr (option oidcAuth) :=
  if bool_decide (Config.AdminOIDCIssuerURL cfg = "") then Ok None
  else match newOIDCAuth discovery (mkOIDCConfig (Config.AdminOIDCIssuerURL cfg) (Config.AdminOIDCClientID cfg)
               (Config.AdminOIDCAllowedEmails cfg) (Config.AdminOIDCAllowedSubjects cfg)
               (Config.AdminOIDCSkipEmailVerified cfg)) with
       | Err e => Err e
       | Ok o => Ok (Some o)
       end.

Definition checkAllowlist (candidate : string) (allowed : gset string) : bool :=
  if bool_decide (candidate = "") || bool_decide (allowed = ∅) then false
  else existsb (String.eqb candidate) (elements allowed).

(** ** Passwords *)

Definition text_of (bs : list Z) : string := foldr (λ b, String (ascii_of_nat (Z.to_nat b))) EmptyString bs.

(** [r.BasicAuth()] *)
Definition BasicAuth (r : request) : option (string * string) :=
  let h := get "Authorization" r in
  if has_scheme "basic " h then
    match GoCrypto.DecodeString (HBA.lit (drop_str 6 h)) with
    | None => None
    | Some c => match cut 58 c with Some (u, p) => Some (text_of u, text_of p) | None => None end
    end
  else None.

(** ** Loopback *)

Definition TrimSuffix (s suffix : string) : string :=
  if HasPrefix (rev_str s) (rev_str suffix) then rev_str (drop_str (String.length suffix) (rev_str s)) else s.

Definition isLoopback (remoteAddr : string) : bool :=
  let host := match cut_last_byte ":" remoteAddr with
              | Some (h, _) => if bool_decide (h = "") then remoteAddr else h
              | None => remoteAddr
              end in
  let host := TrimPrefix (TrimSuffix host "]") "[" in
  if bool_decide (host = "127.0.0.1") || bool_decide (host = "::1") || bool_decide (host = "localhost") then true
  else if HasPrefix (ToLower host) "::ffff:" then HasPrefix (drop_str 7 (ToLower host)) "127."
  else HasPrefix host "127.".

Definition forwardingHeaders : list string := ["X-Forwarded-For"; "X-Real-Ip"; "Forwarded"; "X-Forwarded-Host"].

Definition hasForwardingHeaders (r : request) : bool :=
  existsb (λ h, negb (bool_decide (get h r = ""))) forwardingHeaders.

(** ** The middleware *)

(** The WWW-Authenticate headers. *)
Inductive challenge := BasicChallenge | BearerChallenge.

(** [Next]: the wrapped handler runs. *)
Inductive outcome := Next | Refuse (status : Z) (body : string) (challenges : list challenge).

Definition writeAuthChallenges (oidc : option oidcAuth) : list challenge :=
  BasicChallenge :: match oidc with Some _ => [BearerChallenge] | None => [] end.

Section middleware.
(** The token library's verdict: its signature, issuer, audience and expiry
    checks and the claims; and bcrypt's. *)
Context (verifyToken : string → option claims) (bcryptMatches : string → string → bool).

Definition Verify (a : oidcAuth) (rawToken : string) : option oidcErr :=
  if bool_decide (rawToken = "") then Some EmptyToken
  else match verifyToken rawToken with
       | None => Some BadToken
       | Some c =>
           if negb (skipEmailVerified a) && negb (bool_decide (Email c = "")) && negb (EmailVerified c)
           then Some EmailNotVerified
           else if checkAllowlist (Email c) (allowedEmails a) then None
           else if checkAllowlist (Sub c) (allowedSubjects a) then None
           else Some NotAllowed
       end.

(** The third step: a password, or the loopback fallback. *)
Definition passwordOrLocal (cfg : Config.Config) (oidc : option oidcAuth) (r : request) : outcome :=
  if bool_decide (Config.AdminBasicAuthUser cfg = "") then
    if negb (bool_decide (is_Some oidc)) && bool_decide (Config.AdminTLSClientCAFile cfg = "") then
      if negb (isLoopback (RemoteAddr r)) || hasForwardingHeaders r
      then Refuse 403 "admin auth not configured for remote access" []
      else Next
    else Refuse 401 "authentication required" (writeAuthChallenges oidc)
  else match BasicAuth r with
       | None => Refuse 401 "authentication required" (writeAuthChallenges oidc)
       | Some (user, pass) =>
           let userOK := bool_decide (user = Config.AdminBasicAuthUser cfg) in
           let passOK := bcryptMatches (Config.AdminBasicAuthPasswordHash cfg) pass in
           if negb userOK || negb passOK
           then Refuse 401 "invalid credentials" (writeAuthChallenges oidc) else Next
       end.

Definition adminAuth (cfg : Config.Config) (oidc : option oidcAuth) (r : request) : outcome :=
  if negb (isSafeMethod (Method r)) && bool_decide (is_Some (checkOrigin r))
  then Refuse 403 "cross-origin request rejected" []
  else match verifiedMTLSIdentity r (Config.AdminMTLSAllowedCNs cfg) with
       | Some _ => Next
       | None =>
           match oidc with
           | None => passwordOrLocal cfg oidc r
           | Some a =>
               let raw := extractBearerToken r in
               if bool_decide (raw = "") then passwordOrLocal cfg oidc r
               else match Verify a raw with
                    | Some _ => Refuse 401 "invalid bearer token" []
                    | None => Next
                    end
           end
       end.
End middleware.

(** ** The listener's TLS *)

Record adminTLS := mkAdminTLS { verifiesClients : bool }.

Inductive tlsErr := CertAndKeyRequired | KeyPair | ReadCA | NoPEM.

(** [loadsKeyPair] and [readCA] are what the files hold; [appendsPEM] is
    whether a bundle contains a certificate. *)
Definition buildAdminTLSConfig (loadsKeyPair : bool) (readCA : option string) (appendsPEM : string → bool)
    (cfg : Config.Config) : result tlsErr (option adminTLS) :=
  let cert := Config.AdminTLSCertFile cfg in
  let key := Config.AdminTLSKeyFile cfg in
  let ca := Config.AdminTLSClientCAFile cfg in
  if bool_decide (cert = "") && bool_decide (key = "") && bool_decide (ca = "") then Ok None
  else if bool_decide (cert = "") || bool_decide (key = "") then Err CertAndKeyRequired
  else if negb loadsKeyPair then Err KeyPair
  else if bool_decide (ca = "") then Ok (Some (mkAdminTLS false))
  else match readCA with
       | None => Err ReadCA
       | Some bundle => if appendsPEM bundle then Ok (Some (mkAdminTLS true)) else Err NoPEM
       end.

End AdminAuth.
