(* ===== verification/AdminAuthTheorems.v ===== *)
(** * Access to the admin listener: who gets in

    The middleware's decision in closed form, for every configuration and
    request; the origins the same-site check accepts; which peer addresses
    count as local. *)

From Stdlib Require Import Ascii.
From stdpp Require Import pretty.
From S2P Require Import Prelude GoStrings HBA Config GoCrypto GoURL AdminAuth.
Import AdminAuth.
Open Scope string_scope.
Open Scope list_scope.
Open Scope Z_scope.

Module AdminAuthTheorems.

(** ** The decision *)

Section access.
Context (verifyToken : string → option claims) (bcryptMatches : string → string → bool).

(** A request that a page of another site cannot have sent. *)
Definition same_site (r : request) : Prop :=
  isSafeMethod (Method r) = true ∨
  (get "Origin" r = "" ∧ get "Referer" r = "") ∨
  GoURL.urlHost (if bool_decide (get "Origin" r = "") then get "Referer" r else get "Origin" r) = Some (Host r).

(** The four ways in. *)
Definition by_certificate (cfg : Config.Config) (r : request) : Prop :=
  ∃ cn rest, TLS r = Some (cn :: rest) ∧
    (Config.AdminMTLSAllowedCNs cfg = [] ∨ cn ∈ Config.AdminMTLSAllowedCNs cfg).

(** A token the issuer vouches for, of an allowed person. *)
Definition good_token (a : oidcAuth) (raw : string) : Prop :=
  ∃ c, raw ≠ "" ∧ verifyToken raw = Some c ∧
    (skipEmailVerified a = true ∨ Email c = "" ∨ EmailVerified c = true) ∧
    ((Email c ≠ "" ∧ Email c ∈ allowedEmails a) ∨ (Sub c ≠ "" ∧ Sub c ∈ allowedSubjects a)).

Definition by_token (oidc : option oidcAuth) (r : request) : Prop :=
  ∃ a, oidc = Some a ∧ good_token a (extractBearerToken r).

Definition by_password (cfg : Config.Config) (r : request) : Prop :=
  ∃ pass, Config.AdminBasicAuthUser cfg ≠ "" ∧
    BasicAuth r = Some (Config.AdminBasicAuthUser cfg, pass) ∧
    bcryptMatches (Config.AdminBasicAuthPasswordHash cfg) pass = true.

Definition as_local (cfg : Config.Config) (oidc : option oidcAuth) (r : request) : Prop :=
  Config.AdminBasicAuthUser cfg = "" ∧ oidc = None ∧ Config.AdminTLSClientCAFile cfg = "" ∧
  isLoopback (RemoteAddr r) = true ∧ ∀ h, h ∈ forwardingHeaders → get h r = "".

Lemma checkOrigin_ok r : isSafeMethod (Method r) = true ∨ checkOrigin r = None ↔ same_site r.
Proof.
  unfold same_site, checkOrigin. cbv zeta.
  destruct (decide (get "Origin" r = "" ∧ get "Referer" r = "")) as [[E1 E2]|Hne].
  { rewrite !bool_decide_true by done. simpl. tauto. }
  assert (Hb : bool_decide (get "Origin" r = "") && bool_decide (get "Referer" r = "") = false)
    by (apply andb_false_iff; rewrite !bool_decide_eq_false; destruct (decide (get "Origin" r = "")); tauto).
  rewrite Hb. clear Hb.
  destruct (GoURL.urlHost _) as [h|]; [case_bool_decide as Eh; [subst; split; intros _; [by do 2 right|by right]|]|];
    (split; [intros [?|?]; [tauto|done]|]); intros [?|[?|?]]; try tauto; congruence.
Qed.

Lemma existsb_eqb x l : existsb (String.eqb x) l = true ↔ x ∈ l.
Proof.
  rewrite existsb_exists. split.
  - intros (y & Hy & <-%String.eqb_eq). by apply list_elem_of_In.
  - intros Hx. exists x. split; [by apply list_elem_of_In|by apply String.eqb_eq].
Qed.

Lemma mtls_ok cfg r :
  is_Some (verifiedMTLSIdentity r (Config.AdminMTLSAllowedCNs cfg)) ↔ by_certificate cfg r.
Proof.
  unfold by_certificate, verifiedMTLSIdentity. destruct (TLS r) as [[|cn rest]|].
  - split; [by intros []|]. by intros (? & ? & ? & _).
  - case_bool_decide as E.
    + split; [|by eexists]. intros _. exists cn, rest. auto.
    + destruct (existsb _ _) eqn:Ex.
      * split; [|by eexists]. intros _. apply existsb_eqb in Ex. exists cn, rest. auto.
      * split; [by intros []|]. intros (? & ? & [= <- <-] & [?|Hin]); [done|].
        apply existsb_eqb in Hin. congruence.
  - split; [by intros []|]. by intros (? & ? & ? & _).
Qed.

Lemma checkAllowlist_ok s X : checkAllowlist s X = true ↔ s ≠ "" ∧ s ∈ X.
Proof.
  unfold checkAllowlist. case_bool_decide as E1; simpl; [split; [done|tauto]|].
  case_bool_decide as E2; [subst; set_solver|]. rewrite existsb_eqb, elem_of_elements. tauto.
Qed.

Lemma email_gate a c :
  negb (skipEmailVerified a) && negb (bool_decide (Email c = "")) && negb (EmailVerified c) = false ↔
  skipEmailVerified a = true ∨ Email c = "" ∨ EmailVerified c = true.
Proof.
  rewrite !andb_false_iff, !negb_false_iff, bool_decide_eq_true. tauto.
Qed.

Lemma Verify_ok a raw : Verify verifyToken a raw = None ↔ good_token a raw.
Proof.
  unfold Verify, good_token. case_bool_decide as E; [by split; [|intros (? & ? & _)]|].
  destruct (verifyToken raw) as [c|]; [|by split; [|intros (? & _ & ? & _)]].
  pose proof (email_gate a c) as Hg. pose proof (checkAllowlist_ok (Email c) (allowedEmails a)) as He.
  pose proof (checkAllowlist_ok (Sub c) (allowedSubjects a)) as Hs.
  destruct (_ && negb (EmailVerified c)).
  { split; [done|]. intros (c' & _ & [= <-] & H & _). by apply Hg in H. }
  assert (Hok : skipEmailVerified a = true ∨ Email c = "" ∨ EmailVerified c = true) by (by apply Hg).
  destruct (checkAllowlist (Email c) _), (checkAllowlist (Sub c) _).
  1-3: split; [intros _; exists c; split_and!; auto; tauto|done].
  split; [done|]. intros (c' & _ & [= <-] & _ & [H|H]); [by apply He in H|by apply Hs in H].
Qed.

(** A request with a password carries no token: both are in one header. *)
Lemma basic_no_bearer r : is_Some (BasicAuth r) → extractBearerToken r = "".
Proof.
  unfold BasicAuth, extractBearerToken, has_scheme. intros Hs.
  case_bool_decide as Eb; [|by destruct Hs]. case_bool_decide as Et; [|done]. clear Hs.
  destruct (get "Authorization" r) as [|c [|d h]]; [done|by injection Eb|]. simpl in Eb, Et. injection Eb as _ Eb _. injection Et as _ Et _. congruence.
Qed.

Lemma forwarded_ok r : hasForwardingHeaders r = false ↔ ∀ h, h ∈ forwardingHeaders → get h r = "".
Proof.
  unfold hasForwardingHeaders. rewrite <-not_true_iff_false, existsb_exists. split.
  - intros Hn h Hh. destruct (decide (get h r = "")) as [|Hne]; [done|]. destruct Hn.
    exists h. split; [by apply list_elem_of_In|]. by rewrite bool_decide_false.
  - intros Hall (h & Hh & Hne). apply list_elem_of_In in Hh. rewrite bool_decide_true in Hne by auto. done.
Qed.

Lemma passwordOrLocal_ok cfg oidc r :
  passwordOrLocal bcryptMatches cfg oidc r = Next ↔ by_password cfg r ∨ as_local cfg oidc r.
Proof.
  unfold passwordOrLocal, by_password, as_local. case_bool_decide as Eu.
  - split.
    + intros H. right. destruct oidc; simpl in H; [done|]. case_bool_decide as Ec; [|done].
      destruct (isLoopback _); [|done]. simpl in H. destruct (hasForwardingHeaders r) eqn:Ef; [done|].
      rewrite forwarded_ok in Ef. auto.
    + intros [(? & ? & _)|(_ & -> & Ec & El & Ef)]; [done|]. rewrite <-forwarded_ok in Ef.
      simpl. rewrite (bool_decide_true _ Ec), El, Ef. done.
  - destruct (BasicAuth r) as [[u p]|]; [|split; [done|]; intros [(? & _ & ? & _)|(? & _)]; done].
    case_bool_decide as E; simpl; [|split; [done|]; intros [(? & _ & [= -> ->] & _)|(? & _)]; done].
    destruct (bcryptMatches _ p) eqn:Eb; simpl.
    + split; [|done]. intros _. left. exists p. by rewrite E.
    + split; [done|]. intros [(? & _ & [= -> ->] & ?)|(? & _)]; congruence.
Qed.

(** What follows the certificate check. *)
Lemma no_certificate_ok cfg oidc r :
  match oidc with
  | None => passwordOrLocal bcryptMatches cfg oidc r
  | Some a =>
      let raw := extractBearerToken r in
      if bool_decide (raw = "") then passwordOrLocal bcryptMatches cfg oidc r
      else match Verify verifyToken a raw with
           | Some _ => Refuse 401 "invalid bearer token" []
           | None => Next
           end
  end = Next ↔ by_token oidc r ∨ by_password cfg r ∨ as_local cfg oidc r.
Proof.
  destruct oidc as [a|]; simpl.
  - case_bool_decide as Er.
    + rewrite passwordOrLocal_ok. split; [by auto|]. intros [(a' & [= <-] & c & Hr & _)|?]; done.
    + assert (Hp : ¬ (by_password cfg r ∨ as_local cfg (Some a) r)).
      { intros [(p & _ & Hb & _)|(_ & ? & _)]; [|done]. apply Er, basic_no_bearer. by eexists. }
      pose proof (Verify_ok a (extractBearerToken r)) as Hv. destruct (Verify _ a _).
      * split; [done|]. intros [(a' & [= <-] & Hg)|?]; [by apply Hv in Hg|done].
      * split; [|done]. intros _. left. exists a. split; [done|by apply Hv].
  - rewrite passwordOrLocal_ok. split; [by auto|]. intros [(a & ? & _)|?]; done.
Qed.

Lemma adminAuth_ok cfg oidc r :
  adminAuth verifyToken bcryptMatches cfg oidc r = Next ↔
  same_site r ∧ (by_certificate cfg r ∨ by_token oidc r ∨ by_password cfg r ∨ as_local cfg oidc r).
Proof.
  unfold adminAuth. rewrite <-checkOrigin_ok, <-mtls_ok, <-no_certificate_ok.
  destruct (isSafeMethod (Method r)); simpl;
    [|destruct (checkOrigin r); simpl; [split; [done|]; by intros [[?|?] _]|]];
    (destruct (verifiedMTLSIdentity _ _); [split; [intros _; split; [by auto|left; by eexists]|done]|]).
  all: split; [intros Hx; split; [by auto|by right]|]; intros [_ [[]|?]]; done.
Qed.

(** C19: Admin access, exactly: a request reaches a handler if and only if it is
    not a cross-site write and it comes with a verified certificate of an
    allowed name, a valid token of an allowed and verified identity, or the
    configured user's password; or, when none of the three is configured, from
    the machine itself and not through a proxy. *)
Theorem admin_access_exact cfg oidc r :
  adminAuth verifyToken bcryptMatches cfg oidc r = Next ↔
  same_site r ∧ (by_certificate cfg r ∨ by_token oidc r ∨ by_password cfg r ∨ as_local cfg oidc r).
Proof. apply adminAuth_ok. Qed.

End access.

(** ** The origins a browser sends *)

Fixpoint all_bytes (f : ascii → bool) (s : string) : bool :=
  match s with EmptyString => true | String c s => f c && all_bytes f s end.

Lemma all_bytes_app f s t : all_bytes f (s +:+ t) = all_bytes f s && all_bytes f t.
Proof. induction s as [|c s IH]; [done|]. rewrite str_cons_app. simpl. by rewrite IH, andb_assoc. Qed.

Lemma all_bytes_impl (f g : ascii → bool) s :
  (∀ c, f c = true → g c = true) → all_bytes f s = true → all_bytes g s = true.
Proof.
  intros Hfg. induction s as [|c s IH]; simpl; [done|]. intros [Hc Hs]%andb_true_iff.
  by rewrite Hfg, IH.
Qed.

Definition not_byte (b c : ascii) : bool := negb (Ascii.eqb c b).

Lemma cut_byte_none b s : all_bytes (not_byte b) s = true → cut_byte b s = None.
Proof.
  induction s as [|c s IH]; simpl; [done|]. unfold not_byte at 1. intros [Hc Hs]%andb_true_iff.
  apply negb_true_iff in Hc. by rewrite Hc, IH.
Qed.

Lemma cut_last_byte_none b s : all_bytes (not_byte b) s = true → cut_last_byte b s = None.
Proof.
  induction s as [|c s IH]; simpl; [done|]. unfold not_byte at 1. intros [Hc Hs]%andb_true_iff.
  apply negb_true_iff in Hc. by rewrite IH, Hc.
Qed.

Lemma before_none b s : all_bytes (not_byte b) s = true → GoURL.before b s = s.
Proof. intros Hs. unfold GoURL.before. by rewrite cut_byte_none. Qed.

(** Host names, and ports after them. *)
Definition name_char (c : ascii) : bool := is_letter c || is_digit c || Ascii.eqb c "." || Ascii.eqb c "-".

Inductive site : string → Prop :=
| site_name n : all_bytes name_char n = true → site n
| site_port n p : all_bytes name_char n = true → all_bytes is_digit p = true → site (n +:+ String ":" p).

Definition site_char (c : ascii) : bool := name_char c || Ascii.eqb c ":".

Lemma site_chars h : site h → all_bytes site_char h = true.
Proof.
  assert (H1 : ∀ c, name_char c = true → site_char c = true) by (unfold site_char; by intros c ->).
  assert (H2 : ∀ c, is_digit c = true → site_char c = true).
  { unfold site_char, name_char. intros c ->. by rewrite !orb_true_r. }
  intros [n Hn|n p Hn Hp]; [by apply (all_bytes_impl name_char)|].
  rewrite all_bytes_app. simpl. rewrite (all_bytes_impl name_char _ _ H1 Hn), (all_bytes_impl is_digit _ _ H2 Hp). done.
Qed.

Ltac by_chars := apply (all_bytes_impl site_char); [by intros [[] [] [] [] [] [] [] []]|done].

Lemma unescape_site h : all_bytes site_char h = true → GoURL.unescape GoURL.encodeHost h = Some h.
Proof.
  induction h as [|c h IH]; [done|]. simpl. intros [Hc Hs]%andb_true_iff.
  assert (Hp : Ascii.eqb c "%" = false) by (by destruct c as [[] [] [] [] [] [] [] []]).
  assert (Hh : GoURL.hostChar c = true) by (by destruct c as [[] [] [] [] [] [] [] []]).
  rewrite Hp, Hh, andb_false_r. by rewrite IH.
Qed.

Lemma digits_all p : all_bytes is_digit p = true → GoURL.all_digits p = true.
Proof. induction p as [|c p IH]; simpl; [done|]. intros [-> Hp]%andb_true_iff. by apply IH. Qed.

Lemma cut_byte_app b s t : all_bytes (not_byte b) s = true → cut_byte b (s +:+ String b t) = Some (s, t).
Proof.
  induction s as [|c s IH]; [intros _; rewrite str_nil_app; simpl; by rewrite Ascii.eqb_refl|].
  rewrite str_cons_app. simpl. unfold not_byte at 1. intros [Hc Hs]%andb_true_iff.
  apply negb_true_iff in Hc. by rewrite Hc, IH.
Qed.

Lemma parseHost_site h : site h → GoURL.parseHost h = Some h.
Proof.
  intros Hs. pose proof (site_chars h Hs) as Hc. unfold GoURL.parseHost.
  rewrite cut_last_byte_none by by_chars. destruct Hs as [n Hn|n p Hn Hp].
  - assert (Hn' : all_bytes (not_byte ":") n = true).
    { apply (all_bytes_impl name_char); [by intros [[] [] [] [] [] [] [] []]|done]. }
    rewrite cut_byte_none by done. by apply unescape_site.
  - rewrite cut_byte_app.
    + rewrite digits_all by done. by apply unescape_site.
    + apply (all_bytes_impl name_char); [by intros [[] [] [] [] [] [] [] []]|done].
Qed.

Lemma getScheme_letters first sch rest :
  all_bytes is_letter sch = true → (first = true → sch ≠ "") →
  GoURL.getScheme first (sch +:+ String ":" rest) = GoURL.Scheme rest.
Proof.
  revert first. induction sch as [|c sch IH]; intros first Hl Hne.
  - rewrite str_nil_app. simpl. destruct first; [by destruct Hne|done].
  - rewrite str_cons_app. simpl in *. apply andb_true_iff in Hl as [-> Hl]. by apply IH.
Qed.

Lemma origin_chars (g : ascii → bool) sch h :
  all_bytes is_letter sch = true → all_bytes site_char h = true →
  (∀ c, is_letter c || site_char c || Ascii.eqb c "/" = true → g c = true) →
  all_bytes g (sch +:+ String ":" (String "/" (String "/" h))) = true.
Proof.
  intros Hl Hc Hg. rewrite all_bytes_app. simpl.
  rewrite (all_bytes_impl is_letter g sch); [|intros c Hx; apply Hg; rewrite Hx; reflexivity|exact Hl].
  rewrite (all_bytes_impl site_char g h); [|intros c Hx; apply Hg; rewrite Hx, orb_true_r; reflexivity|exact Hc].
  rewrite !Hg by reflexivity. reflexivity.
Qed.

Lemma has_ctl_false s : all_bytes (λ c, negb (GoURL.is_ctl c)) s = true → GoURL.has_ctl s = false.
Proof.
  induction s as [|c s IH]; simpl; [done|]. intros [Hc Hs]%andb_true_iff.
  apply negb_true_iff in Hc. by rewrite Hc, IH.
Qed.

Ltac all_256 := by intros [[] [] [] [] [] [] [] []].

(** The host of scheme://host or scheme://host:port is that host and port. *)
Lemma urlHost_origin sch h :
  sch ≠ "" → all_bytes is_letter sch = true → site h →
  GoURL.urlHost (sch +:+ String ":" (String "/" (String "/" h))) = Some h.
Proof.
  intros Hne Hl Hs. pose proof (site_chars h Hs) as Hc. unfold GoURL.urlHost.
  assert (Hh : cut_byte "#" (sch +:+ String ":" (String "/" (String "/" h))) = None)
    by (apply cut_byte_none, origin_chars; [done|done|all_256]).
  assert (Hctl : GoURL.has_ctl (sch +:+ String ":" (String "/" (String "/" h))) = false)
    by (apply has_ctl_false, origin_chars; [done|done|all_256]).
  unfold GoURL.before. rewrite Hh, Hctl.
  rewrite bool_decide_false by (destruct sch as [|c [|]]; [done| |]; rewrite ?str_cons_app, ?str_nil_app; discriminate).
  rewrite getScheme_letters by done. unfold GoURL.parseRest.
  assert (Hq : GoURL.before "?" (String "/" (String "/" h)) = String "/" (String "/" h)).
  { apply before_none. simpl. apply (all_bytes_impl site_char); [all_256|done]. }
  rewrite Hq. cbn [HasPrefix Ascii.eqb Bool.eqb andb orb negb drop_str].
  assert (Hsl : cut_byte "/" h = None) by (apply cut_byte_none; by_chars).
  rewrite before_none by by_chars. rewrite Hsl. unfold GoURL.parseAuthority.
  rewrite cut_last_byte_none by by_chars. rewrite parseHost_site by done. by destruct h.
Qed.

(** A write from the page of a site is accepted exactly when that site is the
    host the request was sent to. *)
Theorem origin_exact r sch h :
  sch ≠ "" → all_bytes is_letter sch = true → site h →
  get "Origin" r = sch +:+ String ":" (String "/" (String "/" h)) →
  checkOrigin r = None ↔ h = Host r.
Proof.
  intros Hne Hl Hs Ho. unfold checkOrigin. rewrite Ho.
  rewrite (bool_decide_false (_ = "")) by (destruct sch; [done|rewrite str_cons_app; discriminate]).
  simpl. rewrite urlHost_origin by done. by case_bool_decide.
Qed.

(** ** Peer addresses *)

Lemma cut_last_byte_app b s t : all_bytes (not_byte b) t = true → cut_last_byte b (s +:+ String b t) = Some (s, t).
Proof.
  intros Ht. induction s as [|c s IH].
  - rewrite str_nil_app. simpl. by rewrite cut_last_byte_none, Ascii.eqb_refl.
  - rewrite str_cons_app. simpl. by rewrite IH.
Qed.

(** An IPv4 address as net prints it. *)
Definition dotted (a b c d : Z) : string :=
  pretty a +:+ "." +:+ pretty b +:+ "." +:+ pretty c +:+ "." +:+ pretty d.

Lemma octet (P : Z → Prop) : Forall P (seqZ 0 256) → ∀ a, 0 ≤ a < 256 → P a.
Proof. intros HP a Ha. rewrite Forall_forall in HP. apply HP, elem_of_seqZ. lia. Qed.

Lemma octet_first a x : 0 ≤ a < 256 → HasPrefix (pretty a +:+ String "." x) "127." = (a =? 127).
Proof.
  revert a. apply octet. let l := eval vm_compute in (seqZ 0 256) in change (seqZ 0 256) with l.
  repeat (constructor; [vm_compute; by destruct x|]). constructor.
Qed.

Definition quad_char (c : ascii) : bool := is_digit c || Ascii.eqb c ".".

Lemma octet_chars a : 0 ≤ a < 256 → all_bytes quad_char (pretty a) = true.
Proof.
  revert a. apply octet. let l := eval vm_compute in (seqZ 0 256) in change (seqZ 0 256) with l.
  repeat (constructor; [vm_compute; reflexivity|]). constructor.
Qed.

Lemma all_bytes_rev_app f s t : all_bytes f (rev_app s t) = all_bytes f s && all_bytes f t.
Proof.
  revert t. induction s as [|c s IH]; intros t; simpl; [done|]. rewrite IH. simpl.
  by destruct (f c), (all_bytes f s).
Qed.

Lemma all_bytes_rev f s : all_bytes f (rev_str s) = all_bytes f s.
Proof. unfold rev_str. rewrite all_bytes_rev_app. apply andb_true_r. Qed.

(** A host without brackets or colons is local when it is localhost or starts
    with 127. *)
Lemma isLoopback_plain host port :
  all_bytes (not_byte ":") host = true → all_bytes (not_byte "[") host = true → all_bytes (not_byte "]") host = true →
  host ≠ "" → all_bytes (not_byte ":") port = true →
  isLoopback (host +:+ String ":" port) = bool_decide (host = "localhost") || HasPrefix host "127.".
Proof.
  intros Hc Hl Hr Hne Hp. unfold isLoopback. rewrite cut_last_byte_app by done.
  rewrite (bool_decide_false (host = "")) by done.
  assert (Hs : TrimSuffix host "]" = host).
  { unfold TrimSuffix. rewrite <-all_bytes_rev in Hr. destruct (rev_str host) as [|c t]; [done|].
    cbn [rev_str rev_app HasPrefix]. simpl in Hr. apply andb_true_iff in Hr as [Hr _].
    unfold not_byte in Hr. apply negb_true_iff in Hr. rewrite Ascii.eqb_sym in Hr. by rewrite Hr. }
  rewrite Hs. destruct host as [|c h]; [done|].
  simpl in Hc, Hl. apply andb_true_iff in Hc as [Hc Hc'], Hl as [Hl _]. unfold not_byte in Hc, Hl.
  apply negb_true_iff in Hc, Hl. rewrite Ascii.eqb_sym in Hl. unfold TrimPrefix. cbn [HasPrefix]. rewrite Hl. cbn [andb].
  assert (Hf : HasPrefix (ToLower (String c h)) "::ffff:" = false).
  { assert (E : Ascii.eqb ":" (low c) = false) by (by destruct c as [[] [] [] [] [] [] [] []]).
    cbn [ToLower map_string HasPrefix]. by rewrite E. }
  rewrite Hf. destruct (decide (String c h = "127.0.0.1")) as [E|E].
  { injection E as -> ->. reflexivity. }
  rewrite (bool_decide_false _ E).
  rewrite (bool_decide_false (String c h = "::1")) by (intros [= -> _]; done).
  by case_bool_decide.
Qed.

(** Over IPv4 exactly the addresses 127.x.y.z are local. *)
Theorem loopback_ipv4 a b c d port :
  0 ≤ a < 256 → 0 ≤ b < 256 → 0 ≤ c < 256 → 0 ≤ d < 256 → all_bytes (not_byte ":") port = true →
  isLoopback (dotted a b c d +:+ String ":" port) = (a =? 127).
Proof.
  intros Ha Hb Hc Hd Hp.
  assert (Hq : all_bytes quad_char (dotted a b c d) = true).
  { unfold dotted. rewrite !all_bytes_app, !octet_chars by done. done. }
  assert (Hn : ∀ x, (∀ y, quad_char y = true → not_byte x y = true) → all_bytes (not_byte x) (dotted a b c d) = true).
  { intros x Hx. by apply (all_bytes_impl quad_char). }
  assert (Hf : HasPrefix (dotted a b c d) "127." = (a =? 127)) by (unfold dotted; by apply octet_first).
  rewrite isLoopback_plain; [|by apply Hn; all_256|by apply Hn; all_256|by apply Hn; all_256| |done].
  - rewrite Hf. rewrite bool_decide_false; [done|]. intros E. by rewrite E in Hq.
  - unfold dotted. pose proof (octet_first a "" Ha). by destruct (pretty a).
Qed.

(** Over IPv6 the loopback address and the mapped IPv4 ones are. *)
Lemma loopback_ipv6 port :
  all_bytes (not_byte ":") port = true →
  isLoopback ("[::1]" +:+ String ":" port) = true ∧
  isLoopback ("[::ffff:127.0.0.1]" +:+ String ":" port) = true ∧
  isLoopback ("[2001:db8::1]" +:+ String ":" port) = false ∧
  isLoopback ("[::ffff:10.0.0.1]" +:+ String ":" port) = false.
Proof. intros Hp. unfold isLoopback. rewrite !cut_last_byte_app by done. done. Qed.

(** *** A page whose name resolves to this machine

    The check compares the origin with the Host header, which such a page also
    chooses; with no credentials configured, its write gets through. *)
Theorem rebound_page_writes verifyToken bcryptMatches cfg r :
  Config.AdminBasicAuthUser cfg = "" → Config.AdminTLSClientCAFile cfg = "" →
  Method r = "POST" → Host r = "evil.example:8081" → get "Origin" r = "http://evil.example:8081" →
  RemoteAddr r = "127.0.0.1:50000" → (∀ h, h ∈ forwardingHeaders → get h r = "") →
  adminAuth verifyToken bcryptMatches cfg None r = Next.
Proof.
  intros Hu Hc Hm Hh Ho Ha Hf. apply adminAuth_ok. split.
  - right; right. rewrite Ho, Hh. reflexivity.
  - right; right; right. split_and!; try done. by rewrite Ha.
Qed.

End AdminAuthTheorems.
