(* ===== verification/Health.v ===== *)
(** * Liveness and readiness

    src/health.go: the two probe handlers and the self-probe of
    [pgman -health-check].  The handler reads the pools and the names of the
    registry in two separate accesses; the HTTP exchange of the self-probe is
    the answer it is given. *)

From Stdlib Require Import Ascii.
From S2P Require Import Prelude GoStrings HBA BackendAddr Pool Registry RegistryTheorems BackendConnect AdminAuth.
Open Scope string_scope.
Open Scope list_scope.
Open Scope Z_scope.

Module Health.

Record poolHealth := mkHealth {
  Name : string;
  CircuitOpen : bool;
  InUse : nat;
  Idle : nat;
  Waiting : Z;
}.

Record healthResponse := mkResponse {
  Status : string;
  Draining : bool;
  Reason : string;
  Pools : list poolHealth;
}.

Definition StatusOK : Z := 200.
Definition StatusServiceUnavailable : Z := 503.

Definition healthHandler : Z * healthResponse := (StatusOK, mkResponse "ok" false "" []).

Section ready.
Context `{MapRange} (stats : nat → Pool.Stats).

(** One pool's detail; a name that is not in the snapshot is skipped. *)
Definition detailOf (pools : gmap string nat) (name : string) : option poolHealth :=
  match pools !! name with
  | None => None
  | Some p => let s := stats p in
      Some (mkHealth name (Pool.StatsCircuitOpen s) (Pool.InUse s) (Pool.Idle s) (Pool.Waiting s))
  end.

(** [r1] is the registry when its pools are read, [r2] when its names are;
    [draining] is false when there is no flag. *)
Definition readyHandler (draining : bool) (r1 r2 : Registry.PoolRegistry) : Z * healthResponse :=
  if draining then
    (StatusServiceUnavailable, mkResponse "draining" true "shutting down: not accepting new sessions" [])
  else
    let pools := Registry.pool <$> Registry.entries r1 in
    let detail := omap (detailOf pools) (Registry.Names r2) in
    let open := length (filter (λ h, CircuitOpen h = true) detail) in
    if bool_decide (0 < length detail)%nat && bool_decide (open = length detail) then
      (StatusServiceUnavailable,
       mkResponse "unready" false "no pool can reach its backend: every circuit breaker is open" detail)
    else (StatusOK, mkResponse "ready" false "" detail).

End ready.

(** ** The self-probe *)

Inductive probeErr := BadMetricsAddr | ProbeFailed | NotReady (status : Z) (body : string).

(** The address probed, when the configured one can be split. *)
Definition probeURL (metricsAddr : string) : option string :=
  match BackendAddr.SplitHostPort (HBA.lit metricsAddr) with
  | None => None
  | Some (h, p) =>
      let host := AdminAuth.text_of h in
      let host := if bool_decide (host = "") || bool_decide (host = "0.0.0.0") || bool_decide (host = "::")
                     || bool_decide (host = "[::]") then "127.0.0.1" else host in
      Some ("http://" +:+ BackendConnect.JoinHostPort host (AdminAuth.text_of p) +:+ "/ready")
  end.

(** [get] is the exchange: a status and a body of which at most 4096 bytes are
    read, or a failure. *)
Definition probeReady (get : string → option (Z * string)) (metricsAddr : string) : option probeErr :=
  match probeURL metricsAddr with
  | None => Some BadMetricsAddr
  | Some url =>
      match get url with
      | None => Some ProbeFailed
      | Some (status, body) => if status =? StatusOK then None else Some (NotReady status (TrimSpace (take_str 4096 body)))
      end
  end.

(** ** What readiness means *)

Section theorems.
Context `{MapRange} (stats : nat → Pool.Stats).

Lemma elem_of_detail (pools : gmap string nat) (names : list string) h :
  h ∈ omap (detailOf stats pools) names ↔
  ∃ p, Name h ∈ names ∧ pools !! Name h = Some p ∧ detailOf stats pools (Name h) = Some h.
Proof.
  rewrite list_elem_of_omap. split.
  - intros (n & Hn & E). pose proof E as E'. unfold detailOf in E'. destruct (pools !! n) as [p|] eqn:Ep; [|done].
    injection E' as <-. simpl. eauto.
  - intros (p & Hn & _ & E). eauto.
Qed.

Lemma all_filtered {A} (P : A → Prop) `{!∀ x, Decision (P x)} l : length (filter P l) = length l ↔ Forall P l.
Proof.
  split.
  - induction l as [|x l IH]; intros E; [constructor|]. rewrite filter_cons in E. case_decide.
    + constructor; [done|]. apply IH. simpl in E. lia.
    + pose proof (length_filter P l). simpl in E. lia.
  - induction 1 as [|x l Hx _ IH]; [done|]. rewrite filter_cons_True by done. simpl. congruence.
Qed.

(** Readiness, exactly: the probe answers 200 if and only if the process is
    not draining and some pool it lists has its breaker closed, or it lists
    none; every pool that is registered throughout is listed with its own
    numbers, and liveness never depends on any of it. *)
Theorem ready_exact draining r1 r2 :
  let '(status, resp) := readyHandler stats draining r1 r2 in
  (status = StatusOK ↔ draining = false ∧ (Pools resp = [] ∨ ∃ h, h ∈ Pools resp ∧ CircuitOpen h = false)) ∧
  (status = StatusOK ∨ status = StatusServiceUnavailable) ∧
  (draining = false → ∀ k e, Registry.entries r1 !! k = Some e → is_Some (Registry.entries r2 !! k) →
     ∃ h, h ∈ Pools resp ∧ Name h = k ∧ CircuitOpen h = Pool.StatsCircuitOpen (stats (Registry.pool e))) ∧
  healthHandler.1 = StatusOK.
Proof.
  unfold readyHandler. destruct draining; [split_and!; [by split; [|intros []]|by right|done|done]|].
  set (pools := Registry.pool <$> Registry.entries r1).
  set (detail := omap (detailOf stats pools) (Registry.Names r2)).
  assert (Hall : bool_decide (length (filter (λ h, CircuitOpen h = true) detail) = length detail) = true ↔
    Forall (λ h, CircuitOpen h = true) detail) by (rewrite bool_decide_eq_true; apply all_filtered).
  assert (Hin : ∀ k e, Registry.entries r1 !! k = Some e → is_Some (Registry.entries r2 !! k) →
    ∃ h, h ∈ detail ∧ Name h = k ∧ CircuitOpen h = Pool.StatsCircuitOpen (stats (Registry.pool e))).
  { intros k e He [e2 He2]. eexists (mkHealth k _ _ _ _). split; [|done]. apply elem_of_detail.
    exists (Registry.pool e). cbn [Name]. split_and!.
    - unfold Registry.Names. rewrite RegistryTheorems.elem_of_sort. apply list_elem_of_fmap.
      exists (k, e2). split; [done|]. by apply elem_of_range.
    - unfold pools. by rewrite lookup_fmap, He.
    - unfold detailOf, pools. rewrite lookup_fmap, He. reflexivity. }
  destruct (bool_decide (0 < length detail)%nat) eqn:E1; [destruct (bool_decide (_ = length detail)) eqn:E2|]; simpl.
  - split_and!; [|by right|by auto|done]. split; [done|]. apply bool_decide_eq_true in E1.
    intros [_ [E|(h & Hh & Hc)]]; [rewrite E in E1; simpl in E1; lia|].
    assert (HF : Forall (λ h, CircuitOpen h = true) detail) by (by apply Hall).
    rewrite Forall_forall in HF. rewrite HF in Hc by done. done.
  - split_and!; [|by left|by auto|done]. split; [|done]. intros _. split; [done|]. right.
    destruct (decide (Forall (λ h, CircuitOpen h = true) detail)) as [HF|HF]; [by apply Hall in HF|].
    apply not_Forall_Exists in HF; [|apply _]. apply Exists_exists in HF as (h & Hh & Hc).
    exists h. split; [done|]. by apply not_true_is_false.
  - split_and!; [|by left|by auto|done]. split; [|done]. intros _. split; [done|]. left.
    apply bool_decide_eq_false in E1. destruct detail; [done|simpl in E1; lia].
Qed.

End theorems.

(** The self-probe asks this machine, whatever wildcard the listener is bound
    to. *)
Lemma probe_wildcards :
  probeURL ":8080" = Some "http://127.0.0.1:8080/ready" ∧
  probeURL "0.0.0.0:8080" = Some "http://127.0.0.1:8080/ready" ∧
  probeURL "[::]:8080" = Some "http://127.0.0.1:8080/ready" ∧
  probeURL "10.1.2.3:9000" = Some "http://10.1.2.3:9000/ready" ∧
  probeURL "[2001:db8::1]:9000" = Some "http://[2001:db8::1]:9000/ready" ∧
  probeURL "8080" = None.
Proof. vm_compute. done. Qed.

(** It succeeds exactly when the answer is 200. *)
Lemma probeReady_ok get addr :
  probeReady get addr = None ↔ ∃ url body, probeURL addr = Some url ∧ get url = Some (StatusOK, body).
Proof.
  unfold probeReady. destruct (probeURL addr) as [url|]; [|naive_solver].
  destruct (get url) as [[status body]|] eqn:E; [|naive_solver].
  destruct (status =? StatusOK)%Z eqn:Es; [apply Z.eqb_eq in Es; naive_solver|].
  apply Z.eqb_neq in Es. naive_solver.
Qed.

End Health.
