(* ===== verification/AdminUI.v ===== *)
(** * The admin UI's handlers

    src/ui.go: the rows of the tables, the pool and session endpoints, the
    preview of a reload and the framing of the event stream.  A handler that
    changes the registry and then renders does so in two accesses: its answer is
    a function of the registry at the time it renders.  The templates are in
    Templates.v, the page and the stream in Dashboard.v; here rendered text is
    an argument. *)

From Stdlib Require Import Ascii.
From stdpp Require Import pretty.
From S2P Require Import Prelude GoStrings HBA Config Pool Registry Scram Session Limits RateLimit AdminSQL.
Open Scope string_scope.
Open Scope list_scope.
Open Scope Z_scope.

Module AdminUI.

#[local] Existing Instance Config.PoolConfig_eq_dec.

(** ** Tables *)

Record PoolRow := mkPoolRow {
  Name : string;
  Limit : nat;
  InUse : nat;
  Idle : nat;
  AcquireTotal : Z;
  AcquireSeconds : RateLimit.float64;
  Discards : Z;
  DialErrors : Z;
}.

Record SessionRow := mkSessionRow {
  PID : Z;
  User : string;
  Database : string;
  Active : bool;
  ConnectedFor : string;
  TxFor : string;
}.

Section ranging.
Context `{MapRange}.

Definition poolRows (stats : nat → Pool.Stats) (pools : gmap string nat) : list PoolRow :=
  omap (λ name, match pools !! name with
                | None => None
                | Some p => let s := stats p in
                    Some (mkPoolRow name (Pool.Limit s) (Pool.InUse s) (Pool.Idle s) (Pool.WaitCount s)
                      (RateLimit.Seconds (Pool.WaitTime s)) (Pool.Discards s) (Pool.DialErrors s))
                end)
    (Registry.sort_strings (range pools).*1).

(** [d.Round(time.Second)], half away from zero, and [String] on whole seconds. *)
Definition roundSeconds (d : Z) : Z := Z.sgn d * ((Z.abs d + Second / 2) / Second).

Definition durationString (s : Z) : string :=
  let a := Z.abs s in
  let body := if a <? 60 then pretty a +:+ "s"
              else if a <? 3600 then pretty (a / 60) +:+ "m" +:+ pretty (a mod 60) +:+ "s"
              else pretty (a / 3600) +:+ "h" +:+ pretty (a / 60 mod 60) +:+ "m" +:+ pretty (a mod 60) +:+ "s" in
  if s <? 0 then "-" +:+ body else body.

Definition sessionRow (now : Z) (i : Session.SessionInfo) : SessionRow :=
  mkSessionRow (Session.PID i) (Session.User i) (Session.Database i) (Session.Active i)
    (durationString (roundSeconds (now - Session.ConnectedAt i)))
    (if Session.Active i then durationString (roundSeconds (now - Session.TxStartedAt i)) else "").

Definition sessionRows (now : Z) (infos : list Session.SessionInfo) : list SessionRow := sessionRow now <$> infos.

Definition manageRows (r : Registry.PoolRegistry) : list (string * Z) :=
  let configs := Registry.config <$> Registry.entries r in
  omap (λ name, (λ c, (name, Config.Limit c)) <$> configs !! name) (Registry.sort_strings (range configs).*1).

(** ** Changing pools *)

Inductive message :=
| ParseForm
| InvalidLimit (text : string)
| Failed (e : Registry.regErr)
| PoolAdded (name : string)
| PoolResized (name : string) (limit : Z)
| PoolRemoved (name : string)
| NoSuchPool (name : string)
| PoolPaused (name : string)
| PoolResumed (name : string)
| PoolReconnected (name : string) (dropped : nat).

(** [ManagePanel], rendered against the registry [r]. *)
Record panel := mkPanel { rows : list (string * Z); note : message; isError : bool }.

Definition renderManagePanel (m : message) (err : bool) (r : Registry.PoolRegistry) : panel :=
  mkPanel (manageRows r) m err.

(** What a handler does: the registry it leaves, the pools it hands to
    [drainPoolsInBackground], and its answer. *)
Record effect := mkEffect {
  registry : Registry.PoolRegistry;
  draining : list nat;
  respond : Registry.PoolRegistry → panel;
}.

(** The form, or [None] when it cannot be parsed. *)
Abbreviation form := (option (gmap string string)).
Definition FormValue (f : gmap string string) (k : string) : string := default "" (f !! k).

Definition Atoi (s : string) : option Z := Scram.Atoi (HBA.lit s).

Definition addPoolHandler (now : Z) (f : form) (r : Registry.PoolRegistry) : effect :=
  match f with
  | None => mkEffect r [] (renderManagePanel ParseForm true)
  | Some f =>
      match Atoi (FormValue f "limit") with
      | None => mkEffect r [] (renderManagePanel (InvalidLimit (FormValue f "limit")) true)
      | Some limit =>
          let name := FormValue f "name" in
          let cfg := Config.mkPoolConfig (FormValue f "backend_dsn") (FormValue f "backend_addr") limit
                       None false None "" 0 0 0 0 0 0 in
          match Registry.Add now name cfg r with
          | Err e => mkEffect r [] (renderManagePanel (Failed e) true)
          | Ok r' => mkEffect r' [] (renderManagePanel (PoolAdded name) false)
          end
      end
  end.

Definition resizePoolHandler (now : Z) (name : string) (f : form) (r : Registry.PoolRegistry) : effect :=
  match f with
  | None => mkEffect r [] (renderManagePanel ParseForm true)
  | Some f =>
      match Atoi (FormValue f "limit") with
      | None => mkEffect r [] (renderManagePanel (InvalidLimit (FormValue f "limit")) true)
      | Some limit =>
          match Registry.Resize now name limit r with
          | Err e => mkEffect r [] (renderManagePanel (Failed e) true)
          | Ok (r', old) => mkEffect r' old (renderManagePanel (PoolResized name limit) false)
          end
      end
  end.

Definition removePoolHandler (name : string) (r : Registry.PoolRegistry) : effect :=
  match Registry.Remove name r with
  | Err e => mkEffect r [] (renderManagePanel (Failed e) true)
  | Ok (r', old) => mkEffect r' old (renderManagePanel (PoolRemoved name) false)
  end.

(** [pausePoolHandler], [resumePoolHandler] and [reconnectPoolHandler]: the pool
    found and the method's effect on it. *)
Definition pausePoolHandler (name : string) (r : Registry.PoolRegistry) (pools : nat → Pool.Pool) :
  option (nat * Pool.Pool) * (Registry.PoolRegistry → panel) :=
  match Registry.Get r name with
  | None => (None, renderManagePanel (NoSuchPool name) true)
  | Some e => (Some (Registry.pool e, Pool.Pause (pools (Registry.pool e))), renderManagePanel (PoolPaused name) false)
  end.

Definition resumePoolHandler (name : string) (r : Registry.PoolRegistry) (pools : nat → Pool.Pool) :
  option (nat * Pool.Pool) * (Registry.PoolRegistry → panel) :=
  match Registry.Get r name with
  | None => (None, renderManagePanel (NoSuchPool name) true)
  | Some e => (Some (Registry.pool e, Pool.Resume (pools (Registry.pool e))), renderManagePanel (PoolResumed name) false)
  end.

Definition reconnectPoolHandler (name : string) (r : Registry.PoolRegistry) (pools : nat → Pool.Pool) :
  option (nat * Pool.Pool) * (Registry.PoolRegistry → panel) :=
  match Registry.Get r name with
  | None => (None, renderManagePanel (NoSuchPool name) true)
  | Some e =>
      match Pool.Reconnect (pools (Registry.pool e)) with
      | None => (None, renderManagePanel (NoSuchPool name) true)
      | Some (p, dropped) => (Some (Registry.pool e, p), renderManagePanel (PoolReconnected name dropped) false)
      end
  end.

(** ** The preview of a reload *)

Record preview := mkPreview { toAdd : list string; toRemove : list string; toChange : list string }.

Definition reloadPreview (pools : gmap string Config.PoolConfig) (r : Registry.PoolRegistry) : preview :=
  let current := Registry.PoolNames r in
  let names := (range pools).*1 in
  mkPreview
    (Registry.sort_strings (filter (λ n, n ∉ current) names))
    (Registry.sort_strings (filter (λ n, pools !! n = None) current))
    (Registry.sort_strings (filter (λ n, n ∈ current ∧ is_Some (Registry.PoolConfigOf r n) ∧
                                         Registry.PoolConfigOf r n ≠ pools !! n) names)).

Definition reloadHandler (readFile : string → option string) (unmarshal : string → option Config.Config)
    (path : string) (r : Registry.PoolRegistry) : result Config.configErr preview :=
  let? c := Config.loadConfig readFile unmarshal path in Ok (reloadPreview (Config.Pools c) r).

End ranging.

(** ** Cancelling a session *)

(** [strconv.ParseUint(s, 10, 32)] *)
Fixpoint parse_digits (acc : Z) (s : string) : option Z :=
  match s with
  | EmptyString => Some acc
  | String c s => if is_digit c then parse_digits (10 * acc + Z.of_nat (byte_of c - 48)) s else None
  end.
Definition ParseUint32 (s : string) : option Z :=
  if bool_decide (s = "") then None
  else match parse_digits 0 s with
       | Some n => if n <? 2 ^ 32 then Some n else None
       | None => None
       end.

(** The status answered, and the cancel request sent when there is one. *)
Definition cancelSessionHandler (pid : string) (sent : Session.cancelTarget → bool) (w : Session.world) :
  Z * option Session.cancelTarget :=
  match ParseUint32 pid with
  | None => (400, None)
  | Some p => match Session.cancelSession p w with
              | Err _ => (400, None)
              | Ok t => (if sent t then 204 else 400, Some t)
              end
  end.

(** ** The event stream *)

Definition NL : string := String LF EmptyString.

(** [strings.Split(s, "\n")] *)
Definition splitLines (s : string) : list string := split_byte LF s.

Definition dataLine (line : string) : string := "data: " +:+ line +:+ NL.

Fixpoint concat_str (l : list string) : string := match l with [] => "" | s :: l => s +:+ concat_str l end.

Definition writeEvent (name body : string) : string :=
  "event: " +:+ name +:+ NL +:+ concat_str (dataLine <$> splitLines body) +:+ NL +:+ NL.

End AdminUI.
