(* ===== verification/AdminUITheorems.v ===== *)
(** * The admin UI: what its operations do

    Whatever is changed through the UI, by a reload or by the reaper, a pool
    that leaves the registry is handed to the drain and a pool that stays is
    not; the reload preview announces exactly what a reload would do; a client
    of the event stream reads back the text that was rendered. *)

From Stdlib Require Import Ascii.
From S2P Require Import Prelude GoStrings Config Pool Registry RegistryLemmas RegistryOps RegistryTheorems RegistryReload AdminUI.
From S2P Require Import ConfigTheorems.
Import Config ConfigTheorems Registry RegistryLemmas RegistryOps RegistryReload.
Open Scope string_scope.
Open Scope list_scope.
Open Scope nat_scope.

Module AdminUITheorems.

(** ** Pools that leave the registry *)

(** From [r] to [r'] the pools in [old] are taken out and given to the drain. *)
Record handover (r r' : PoolRegistry) (old : list nat) : Prop := mkHandover {
  ho_gone p k e : p ∈ old → entries r' !! k = Some e → pool e ≠ p;
  ho_kept k e : entries r !! k = Some e →
    (∃ k' e', entries r' !! k' = Some e' ∧ pool e' = pool e) ∨ pool e ∈ old;
  ho_new k e : entries r' !! k = Some e →
    (∃ k' e', entries r !! k' = Some e' ∧ pool e' = pool e) ∨ nextPool r ≤ pool e;
  ho_next : nextPool r ≤ nextPool r';
  ho_old p : p ∈ old → p < nextPool r';
}.

Lemma handover_refl r : handover r r [].
Proof. split; try set_solver; eauto. Qed.

Lemma handover_trans r1 r2 r3 old1 old2 :
  handover r1 r2 old1 → handover r2 r3 old2 → handover r1 r3 (old1 ++ old2).
Proof.
  intros [G1 K1 N1 X1 O1] [G2 K2 N2 X2 O2]. split.
  - intros p k e [Hp|Hp]%elem_of_app He; [|by eapply G2].
    apply N2 in He as [(k' & e' & He' & <-)|Hge]; [by eapply G1|]. apply O1 in Hp. lia.
  - intros k e He. apply K1 in He as [(k' & e' & He' & E)|Hp]; [|set_solver].
    apply K2 in He' as [(k2 & e2 & He2 & E2)|Hp]; rewrite E in *; [left; eauto|set_solver].
  - intros k e He. apply N2 in He as [(k' & e' & He' & E)|Hge]; [|right; lia].
    apply N1 in He' as [(k2 & e2 & He2 & E2)|Hge]; rewrite <-E; [left; eauto|by right].
  - lia.
  - intros p [Hp%O1|Hp%O2]%elem_of_app; lia.
Qed.

Section ranging.
Context `{MapRange}.

Lemma puts_next t n l r : nextPool r ≤ nextPool (puts t n l r).
Proof.
  revert r. induction l as [|[u c] l IH]; intros r; [done|]. simpl.
  specialize (IH (putEntry t n u c false r)). simpl in IH. lia.
Qed.

Lemma puts_fresh t n l r k e :
  entries (puts t n l r) !! k = Some e → entries r !! k = Some e ∨ nextPool r ≤ pool e.
Proof.
  revert r. induction l as [|[u c] l IH]; intros r He; [by left|]. simpl in He.
  apply IH in He as [He|He]; simpl in *; [|right; lia].
  apply lookup_insert_Some in He as [[_ <-]|[_ He]]; [by right|by left].
Qed.

(** Adding a pool whose name is unused displaces nothing. *)
Lemma add_handover t n c r :
  WF r → clean n r → has_separator n = false → users c !! "" = None → handover r (addEntries t n c r) [].
Proof.
  intros [HE HG] Hcl Hn Hu.
  destruct (addEntries_Puts t n c r) as [_ _ _ _ Hold _ _]; try done.
  rewrite addEntries_puts in *. split; [set_solver| | | |set_solver].
  - intros k e He. left. exists k, e. split; [by apply Hold|done].
  - intros k e He. apply puts_fresh in He as [He|?]; [|by right]. left. by exists k, e.
  - apply (puts_next t n (identities c) (with_byDatabase (route n (served n c) (byDatabase r)) r)).
Qed.

(** Taking a pool out hands over its entries. *)
Lemma without_handover n r : WF r → handover r (without n r) (pool <$> (takeEntries n r).1).
Proof.
  intros [HE HG]. split.
  - intros p k e (e' & -> & (k' & He' & Hn)%take_old)%list_elem_of_fmap [He Hne]%without_entries E.
    assert (k = k') as <- by (by eapply wf_distinct). congruence.
  - intros k e He. destruct (decide (poolName e = n)) as [E|E].
    + right. apply list_elem_of_fmap. exists e. split; [done|]. apply take_old. eauto.
    + left. exists k, e. split; [by apply without_entries|done].
  - intros k e [He _]%without_entries. left. by exists k, e.
  - unfold without, takeEntries. simpl. by case_bool_decide.
  - intros p (e & -> & (k & He & _)%take_old)%list_elem_of_fmap. apply (wf_fresh r HE) in He.
    unfold without, takeEntries. simpl. by case_bool_decide.
Qed.

Lemma replace_handover t n c r :
  WF r → has_separator n = false → users c !! "" = None →
  handover r (addEntries t n c (without n r)) (pool <$> (takeEntries n r).1).
Proof.
  intros Hw Hn Hu. rewrite <-(app_nil_r (pool <$> _)).
  eapply handover_trans; [by apply without_handover|].
  apply add_handover; [by apply without_WF|apply without_clean|done|done].
Qed.

Lemma Add_handover t n c r r' : WF r → users c !! "" = None → Add t n c r = Ok r' → handover r r' [].
Proof.
  unfold Add. intros Hw Hu. destruct (validatePoolConfig n c) eqn:Hv; [done|]. rewrite poolKey_nil.
  destruct (entries r !! n) eqn:Hn; [done|]. intros [= <-].
  apply add_handover; [done|by apply base_None_clean|by eapply validate_name|done].
Qed.

Lemma Reconfigure_handover t n c r r' old ch :
  WF r → users c !! "" = None → Reconfigure t n c r = Ok (r', old, ch) → handover r r' old.
Proof.
  intros Hw Hu (Hs & b & _ & [(_ & -> & -> & _)|(_ & -> & -> & _)])%Reconfigure_eq; [apply handover_refl|].
  by apply replace_handover.
Qed.

Lemma Remove_handover n r r' old : WF r → Remove n r = Ok (r', old) → handover r r' old.
Proof.
  unfold Remove. rewrite (surjective_pairing (takeEntries n r)).
  case_bool_decide; [done|]. intros Hw [= <- <-]. by apply without_handover.
Qed.

Lemma Resize_handover t n l r r' old :
  WF r → has_separator n = false → Resize t n l r = Ok (r', old) → handover r r' old.
Proof.
  unfold Resize. intros Hw Hn. case_match; [done|]. rewrite poolKey_nil.
  destruct (entries r !! n) as [b|] eqn:Hb; [|done].
  rewrite (surjective_pairing (takeEntries n r)). intros [= <- <-].
  apply replace_handover; [done..|]. destruct Hw as [HE _]. by eapply (wf_empty r HE).
Qed.

Lemma Evict_handover t idleFor active inUse r :
  WF r → let '(r', _, ps) := EvictIdlePassthrough t idleFor active inUse r in handover r r' ps.
Proof.
  intros [HE HG]. destruct (Z_le_gt_dec idleFor 0) as [Hle|Hgt].
  { unfold EvictIdlePassthrough. rewrite (proj2 (Z.leb_le _ _)) by done. apply handover_refl. }
  unfold EvictIdlePassthrough. rewrite (proj2 (Z.leb_gt _ _)) by lia.
  set (victim k e := evictable (t - idleFor) active inUse k e).
  set (ev := filter (λ '(k, e), victim k e = true) (entries r)).
  assert (Hps : ∀ p, p ∈ omap (λ k, pool <$> ev !! k) (sort_strings (range ev).*1) ↔
    ∃ k e, entries r !! k = Some e ∧ victim k e = true ∧ pool e = p).
  { intros p. rewrite list_elem_of_omap. split.
    - intros (k & _ & Hk). apply fmap_Some in Hk as (e & [He Hv]%map_lookup_filter_Some & ->). eauto.
    - intros (k & e & He & Hv & <-). exists k. assert (Hev : ev !! k = Some e) by (by apply map_lookup_filter_Some).
      rewrite RegistryTheorems.elem_of_sort, Hev. split; [|done]. apply list_elem_of_fmap.
      exists (k, e). split; [done|]. by apply elem_of_range. }
  split; cbn [stopWatchers with_entries entries nextPool].
  - intros p k e (k' & e' & He' & Hv & <-)%Hps [He Hv']%map_lookup_filter_Some E.
    assert (k = k') as <- by (by eapply wf_distinct). congruence.
  - intros k e He. destruct (victim k e) eqn:Hv; [right; apply Hps; eauto|].
    left. exists k, e. split; [|done]. by apply map_lookup_filter_Some.
  - intros k e [He _]%map_lookup_filter_Some. left. by exists k, e.
  - done.
  - intros p (k & e & He & _ & <-)%Hps. by eapply wf_fresh.
Qed.

Lemma applyOne_handover t pools current r x n :
  PoolsOK pools → WF r →
  ∃ old, drained (applyOne t pools current (r, x) n).2 = drained x ++ old ∧
    handover r (applyOne t pools current (r, x) n).1 old.
Proof.
  intros Hok Hw. unfold applyOne. cbn [fst snd].
  assert (Same : ∃ old, drained x = drained x ++ old ∧ handover r r old).
  { exists []. rewrite app_nil_r. split; [done|apply handover_refl]. }
  destruct (pools !! n) as [c|] eqn:Hc; [|done]. destruct (Hok n c Hc) as [_ Hu].
  case_bool_decide.
  - destruct (Reconfigure t n c r) as [[[r' old] []]|] eqn:E; [| |done]; cbn [fst snd drained].
    + apply Reconfigure_handover in E; [|done..]. by exists old.
    + apply Reconfigure_eq in E as (_ & b & _ & [(_ & -> & _)|(_ & _ & _ & [=])]). done.
  - destruct (Add t n c r) as [r'|] eqn:E; [|done]. cbn [fst snd drained].
    apply Add_handover in E; [|done..]. exists []. by rewrite app_nil_r.
Qed.

Lemma removeOne_handover pools r x n :
  WF r →
  ∃ old, drained (removeOne pools (r, x) n).2 = drained x ++ old ∧ handover r (removeOne pools (r, x) n).1 old.
Proof.
  intros Hw. unfold removeOne. cbn [fst snd].
  assert (Same : ∃ old, drained x = drained x ++ old ∧ handover r r old).
  { exists []. rewrite app_nil_r. split; [done|apply handover_refl]. }
  destruct (pools !! n); [done|]. destruct (Remove n r) as [[r' old]|] eqn:E; [|done].
  cbn [fst snd drained]. apply Remove_handover in E; [|done]. by exists old.
Qed.

(** The pools a reload has handed to the drain so far. *)
Definition drained_by (pc : reloading) : list nat :=
  match pc with Starting => [] | Applying _ _ x | Removing _ x | Reloaded x => drained x end.

Lemma reloadStep_handover t pools r pc r' pc' :
  PoolsOK pools → WF r → reloadStep t pools r pc = Some (r', pc') →
  ∃ old, drained_by pc' = drained_by pc ++ old ∧ handover r r' old.
Proof.
  intros Hok Hw.
  assert (Same : drained_by pc' = drained_by pc → r' = r → ∃ old, drained_by pc' = drained_by pc ++ old ∧ handover r r' old).
  { intros -> ->. exists []. rewrite app_nil_r. split; [done|apply handover_refl]. }
  destruct pc as [|cur [|n todo] x|[|n todo] x|x]; cbn [reloadStep]; intros E; try (by injection E as <- <-; apply Same); [| |done].
  - destruct (applyOne_handover t pools cur r x n Hok Hw) as (old & Hd & Hh).
    destruct (applyOne t pools cur (r, x) n). injection E as <- <-. by exists old.
  - destruct (removeOne_handover pools r x n Hw) as (old & Hd & Hh).
    destruct (removeOne pools (r, x) n). injection E as <- <-. by exists old.
Qed.

(** C25: Nothing is lost and nothing in use is closed.  In any state a registry
    reaches without a resize addressed to one user's entry: whether pools change
    through the UI (a resize by pool name), by a step of a reload or by the reaper,
    every pool that leaves the registry is handed to the drain, and no pool that is
    handed to the drain is still registered; a refused request changes and drains
    nothing. *)
Theorem displaced_pools_drained ops r P now name f pools idleFor active inUse :
  reachable ops (r, P) → Forall by_name ops → loaded pools →
  let add := AdminUI.addPoolHandler now f r in
  let resize := AdminUI.resizePoolHandler now name f r in
  let remove := AdminUI.removePoolHandler name r in
  handover r (AdminUI.registry add) (AdminUI.draining add) ∧
  (has_separator name = false → handover r (AdminUI.registry resize) (AdminUI.draining resize)) ∧
  handover r (AdminUI.registry remove) (AdminUI.draining remove) ∧
  (∀ pc r' pc', reloadStep now pools r pc = Some (r', pc') →
     ∃ old, drained_by pc' = drained_by pc ++ old ∧ handover r r' old) ∧
  (let '(r', _, ps) := EvictIdlePassthrough now idleFor active inUse r in handover r r' ps) ∧
  ∀ e, e = add ∨ e = resize ∨ e = remove →
    ∀ r', AdminUI.isError (AdminUI.respond e r') = true → AdminUI.registry e = r ∧ AdminUI.draining e = [].
Proof.
  intros Hr Hn Hl. cbv zeta. destruct (reachable_WF _ _ Hr Hn) as [Hw _]. cbn [fst] in Hw. split_and!.
  - unfold AdminUI.addPoolHandler. repeat case_match; simpl; try apply handover_refl.
    eapply Add_handover; [done| |done]. apply lookup_empty.
  - intros Hs. unfold AdminUI.resizePoolHandler. repeat case_match; simpl; try apply handover_refl.
    by eapply Resize_handover.
  - unfold AdminUI.removePoolHandler. repeat case_match; simpl; try apply handover_refl. by eapply Remove_handover.
  - intros pc r' pc' E. by eapply reloadStep_handover; [apply loaded_ok| |].
  - by apply Evict_handover.
  - unfold AdminUI.addPoolHandler, AdminUI.resizePoolHandler, AdminUI.removePoolHandler.
    intros e He r'. destruct He as [->|[->| ->]]; repeat case_match; done.
Qed.

(** ** The preview *)

Lemma filter_ext_in {A} (P Q : A → Prop) `{!∀ x, Decision (P x), !∀ x, Decision (Q x)} (l : list A) :
  (∀ x, x ∈ l → P x ↔ Q x) → filter P l = filter Q l.
Proof.
  induction l as [|x l IH]; intros HPQ; [done|]. rewrite !filter_cons.
  rewrite IH by (intros y Hy; apply HPQ; by right). destruct (HPQ x) as [K1 K2]; [by left|].
  repeat case_decide; tauto || done.
Qed.

Definition is_new (r : PoolRegistry) (n : string) : Prop := shown r n = None.
Definition is_changed (pools : gmap string PoolConfig) (r : PoolRegistry) (n : string) : Prop :=
  shown r n ≠ None ∧ shown r n ≠ pools !! n.

#[local] Instance is_new_dec r n : Decision (is_new r n).
Proof. unfold is_new. apply _. Defined.
#[local] Instance is_changed_dec pools r n : Decision (is_changed pools r n).
Proof. unfold is_changed. apply _. Defined.

(** What one name of the file is reported as. *)
Lemma applyOne_report t pools current s n c :
  file_ok pools → pools !! n = Some c → (n ∈ current ↔ is_Some (shown s.1 n)) →
  let x := (applyOne t pools current s n).2 in
  Added x = Added s.2 ++ filter (is_new s.1) [n] ∧
  Reconfigured x = Reconfigured s.2 ++ filter (is_changed pools s.1) [n] ∧
  Removed x = Removed s.2.
Proof.
  intros Hok Hc Hcur. destruct s as [r x]. destruct (Hok n c Hc) as [Hv _]. cbn [fst snd] in *.
  apply validate_name in Hv as Hn. destruct (validated t n c r Hv) as [Hadd Hrec].
  unfold applyOne. rewrite Hc, Hadd, Hrec. clear Hadd Hrec.
  assert (Hsh : shown r n = config <$> entries r !! n) by (unfold shown; by rewrite Hn).
  destruct (entries r !! n) as [b|] eqn:Hb; simpl in Hsh; rewrite Hsh in Hcur.
  - rewrite (bool_decide_true (n ∈ current)) by (apply Hcur; eauto).
    rewrite (filter_cons_False (is_new r)) by (unfold is_new; by rewrite Hsh).
    destruct (decide (config b = c)) as [E|E].
    + rewrite (bool_decide_true _ E). cbn [fst snd Added Reconfigured Removed].
      rewrite filter_cons_False by (unfold is_changed; rewrite Hsh, Hc, E; tauto). rewrite !app_nil_r. done.
    + rewrite (bool_decide_false _ E). cbn [fst snd Added Reconfigured Removed].
      rewrite filter_cons_True by (unfold is_changed; rewrite Hsh, Hc; split; congruence). rewrite app_nil_r. done.
  - rewrite (bool_decide_false (n ∈ current)) by (intros [? ?]%Hcur; done).
    cbn [fst snd Added Reconfigured Removed].
    rewrite (filter_cons_True (is_new r)) by done.
    rewrite filter_cons_False by (unfold is_changed; rewrite Hsh; tauto). rewrite app_nil_r. done.
Qed.

(** The loop over the file. *)
Lemma apply_loop_report t pools current l s :
  file_ok pools → disjoint_names pools → NoDup l → (∀ n, n ∈ l → is_Some (pools !! n)) →
  (∀ n, n ∈ l → n ∈ current ↔ is_Some (shown s.1 n)) → Progress pools s →
  let x := (foldl (applyOne t pools current) s l).2 in
  Added x = Added s.2 ++ filter (is_new s.1) l ∧
  Reconfigured x = Reconfigured s.2 ++ filter (is_changed pools s.1) l ∧
  Removed x = Removed s.2.
Proof.
  intros Hok Hdis. revert s. induction l as [|n l IH]; intros s Hnd Hl Hcur HP; [by rewrite !app_nil_r|].
  apply NoDup_cons in Hnd as [Hn Hnd]. destruct (Hl n) as [c Hc]; [by left|].
  destruct (applyOne_progress t pools current s n c) as [HP' Hs']; try done; [by apply Hcur; left|].
  destruct (applyOne_report t pools current s n c) as (Ha & Hr & Hd); try done; [by apply Hcur; left|].
  assert (Hsame : ∀ m, m ∈ l → shown (applyOne t pools current s n).1 m = shown s.1 m).
  { intros m Hm. rewrite Hs', bool_decide_false by congruence. done. }
  cbn [foldl]. destruct (IH (applyOne t pools current s n)) as (Ha' & Hr' & Hd'); try done.
  - intros m Hm. apply Hl. by right.
  - intros m Hm. rewrite Hsame by done. apply Hcur. by right.
  - cbv zeta. rewrite Ha', Hr', Hd', Ha, Hr, Hd, <-!app_assoc.
    rewrite (filter_ext_in (is_new (applyOne t pools current s n).1) (is_new s.1)) by
      (intros m Hm; unfold is_new; by rewrite Hsame).
    rewrite (filter_ext_in (is_changed pools (applyOne t pools current s n).1) (is_changed pools s.1)) by
      (intros m Hm; unfold is_changed; by rewrite Hsame).
    split_and!; [..|done]; f_equal; rewrite <-filter_app; done.
Qed.

Lemma remove_loop_report pools l s :
  NoDup l → (∀ n, n ∈ l → pools !! n = None → is_Some (shown s.1 n)) → Progress pools s →
  let x := (foldl (removeOne pools) s l).2 in
  Added x = Added s.2 ∧ Reconfigured x = Reconfigured s.2 ∧
  Removed x = Removed s.2 ++ filter (λ n, pools !! n = None) l.
Proof.
  revert s. induction l as [|n l IH]; intros s Hnd Hl HP; [by rewrite app_nil_r|].
  apply NoDup_cons in Hnd as [Hn Hnd].
  destruct (removeOne_progress pools s n) as [HP' Hs']; [by apply Hl; left|done|].
  cbn [foldl]. destruct (IH (removeOne pools s n)) as (Ha & Hr & Hd); try done.
  { intros m Hm Hpm. rewrite Hs', bool_decide_false; [|naive_solver]. apply Hl; [by right|done]. }
  cbv zeta. rewrite Ha, Hr, Hd. clear IH Ha Hr Hd Hs' HP'. destruct s as [r x]. unfold removeOne.
  rewrite filter_cons. destruct (pools !! n) as [c|] eqn:Hc; [by case_decide|]. case_decide; [|done].
  destruct (Hl n (list_elem_of_here _ _) Hc) as [c [Hs (b & Hb & _)]%shown_Some]. cbn [fst] in *.
  unfold Remove. rewrite (surjective_pairing (takeEntries n r)), bool_decide_false.
  - cbn [fst snd Added Reconfigured Removed]. by rewrite <-app_assoc.
  - intros Hnil. destruct (pr_WF _ _ HP) as [HE _]. apply (take_nil_clean n r Hnil n b Hb).
    by destruct (base_entry r n b).
Qed.

Lemma sorted_filter (P : string → Prop) `{!∀ x, Decision (P x)} l :
  filter P (sort_strings l) = sort_strings (filter P l).
Proof.
  assert (Hs : ∀ k, StronglySorted str_le k → StronglySorted str_le (filter P k)).
  { induction 1 as [|x k Hk IH Hx]; [constructor|]. rewrite filter_cons. case_decide; [|done].
    constructor; [done|]. apply Forall_forall. intros y [_ Hy]%list_elem_of_filter. rewrite Forall_forall in Hx. auto. }
  assert (Hm : ∀ k, StronglySorted str_le (sort_strings k)).
  { intros k. apply Sorted_StronglySorted; [apply _|]. apply Sorted_merge_sort. apply _. }
  apply (StronglySorted_unique str_le); [by apply Hs|done|]. by rewrite !sort_perm.
Qed.

(** The preview keeps its word: for a valid file without colliding names,
    what the reload endpoint lists as missing, surplus and different is exactly
    what a reload of the same registry adds, removes and replaces, in the same
    order. *)
Theorem preview_matches_reload t pools r :
  file_ok pools → disjoint_names pools → WF r → exact_routes r →
  let p := AdminUI.reloadPreview pools r in
  let x := (applyPools t pools r).2 in
  AdminUI.toAdd p = Added x ∧ AdminUI.toRemove p = Removed x ∧ AdminUI.toChange p = Reconfigured x.
Proof.
  intros Hok Hdis Hw Hex. cbv zeta.
  assert (Hnames : ∀ n, n ∈ PoolNames r ↔ is_Some (shown r n)) by (intros n; by apply elem_of_PoolNames).
  assert (Hfile : ∀ n, n ∈ sort_strings (range pools).*1 ↔ is_Some (pools !! n)).
  { intros n. rewrite sort_perm, list_elem_of_fmap. split.
    - intros ([k c] & -> & Hc%elem_of_range). by exists c.
    - intros [c Hc]. exists (n, c). split; [done|]. by apply elem_of_range. }
  assert (HP0 : Progress pools (r, noResult)) by (by apply exact_start).
  unfold applyPools. set (s0 := (r, noResult)) in *.
  set (l := sort_strings (range pools).*1) in *.
  assert (Hnd : NoDup l) by (unfold l; rewrite sort_perm; apply NoDup_range_fst).
  destruct (apply_loop t pools (PoolNames r) l s0) as [HP Hs]; try done; [by apply Hfile|].
  destruct (apply_loop_report t pools (PoolNames r) l s0) as (Ha & Hr & Hd); try done; [by apply Hfile|].
  destruct (remove_loop_report pools (PoolNames r) (foldl (applyOne t pools (PoolNames r)) s0 l))
    as (Ha' & Hr' & Hd'); [apply NoDup_PoolNames| |done|].
  { intros n Hn Hp. rewrite Hs, bool_decide_false; [by apply Hnames|]. rewrite Hfile, Hp. by intros []. }
  rewrite Ha', Hr', Hd', Ha, Hr, Hd. unfold AdminUI.reloadPreview, l.
  cbn [AdminUI.toAdd AdminUI.toRemove AdminUI.toChange fst snd s0 noResult Added Removed Reconfigured app].
  rewrite !sorted_filter. split_and!.
  - f_equal. apply filter_ext_in. intros n _. rewrite Hnames. unfold is_new.
    destruct (shown r n); split; [intros []; eauto|done|done|by intros _ []].
  - unfold PoolNames at 2. rewrite sorted_filter. apply sort_strings_perm.
    unfold PoolNames. by rewrite sort_perm.
  - f_equal. apply filter_ext_in. intros n Hn.
    assert (Hl : n ∈ l) by (unfold l; by rewrite sort_perm). apply Hfile in Hl as [c Hc]. destruct (Hok n c Hc) as [Hv _]. apply validate_name in Hv.
    rewrite Hnames. unfold is_changed, shown, PoolConfigOf, Get. rewrite Hv.
    destruct (entries r !! n) as [b|]; simpl; [|split; [by intros [[] _]|by intros [? _]]].
    split; [by intros (_ & _ & ?)|]. intros [_ ?]. split_and!; eauto.
Qed.

End ranging.

(** *** Witnesses *)

Definition running : PoolRegistry := NewPoolRegistry 0 None old_file.

Lemma running_WF : WF running.
Proof. apply New_WF, file_ok_PoolsOK, old_file_ok. Qed.

Lemma displaced_pools_drained_witness :
  let resize := AdminUI.resizePoolHandler 7 "legacy" (Some {[ "limit" := "25" ]}) running in
  handover running (AdminUI.registry resize) (AdminUI.draining resize) ∧ AdminUI.draining resize ≠ [].
Proof.
  destruct (displaced_pools_drained [] running [] 7 "legacy" (Some {[ "limit" := "25" ]}) new_file 0 ∅ (λ _, 0)
    (reach_nokeys 0 None old_file old_file_loaded) (Forall_nil_2 _) new_file_loaded) as (_ & H & _).
  split; [apply H; vm_compute; reflexivity|]. vm_compute. discriminate.
Defined.

Lemma preview_matches_reload_witness :
  let p := AdminUI.reloadPreview new_file running in
  let x := (applyPools 10 new_file running).2 in
  AdminUI.toAdd p = Added x ∧ AdminUI.toRemove p = Removed x ∧ AdminUI.toChange p = Reconfigured x ∧
  AdminUI.toAdd p = ["cold"].
Proof.
  destruct (preview_matches_reload 10 new_file running new_file_ok new_file_disjoint running_WF) as (H1 & H2 & H3).
  - apply New_exact; [apply file_ok_PoolsOK, old_file_ok|apply old_file_disjoint].
  - split; [exact H1|]. split; [exact H2|]. split; [exact H3|]. vm_compute. reflexivity.
Defined.

(** ** The event stream *)

(** A reader of the stream.  Lines end at LF, CR or CRLF. *)
Fixpoint stream_lines (s : string) : list string :=
  match s with
  | EmptyString => [""]
  | String c s =>
      if Ascii.eqb c CR then
        match s with
        | String d s' => if Ascii.eqb d LF then "" :: stream_lines s' else "" :: stream_lines s
        | EmptyString => ["" ; ""]
        end
      else if Ascii.eqb c LF then "" :: stream_lines s
      else match stream_lines s with
           | l :: ls => String c l :: ls
           | [] => [String c ""]
           end
  end.

(** A field's value, without the space that may follow the colon. *)
Definition field (l : string) : string * string :=
  match cut_byte ":" l with
  | None => (l, "")
  | Some (k, v) => (k, match v with String c v' => if Ascii.eqb c SP then v' else v | EmptyString => "" end)
  end.

(** Events are dispatched at empty lines, when they have data. *)
Fixpoint dispatch (ev : string) (data : list string) (ls : list string) : list (string * string) :=
  match ls with
  | [] => []
  | l :: ls =>
      if bool_decide (l = "") then
        match data with [] => dispatch "" [] ls | _ => (ev, join_byte LF data) :: dispatch "" [] ls end
      else let '(k, v) := field l in
           if bool_decide (k = "event") then dispatch v data ls
           else if bool_decide (k = "data") then dispatch ev (data ++ [v]) ls
           else dispatch ev data ls
  end.

(** A line that has not ended is not looked at. *)
Definition readStream (s : string) : list (string * string) := dispatch "" [] (removelast (stream_lines s)).

Lemma stream_lines_cons l s : no_bytes [CR; LF] l = true → stream_lines (l +:+ String LF s) = l :: stream_lines s.
Proof.
  induction l as [|c l IH]; intros Hl; [by rewrite str_nil_app|]. rewrite str_cons_app.
  cbn [no_bytes mem existsb] in Hl. apply andb_true_iff in Hl as [Hc Hl].
  apply negb_true_iff in Hc. rewrite orb_false_r in Hc. apply orb_false_iff in Hc as [H1 H2].
  cbn [stream_lines]. rewrite H1, H2, (IH Hl). done.
Qed.

Lemma stream_lines_ne s : stream_lines s ≠ [].
Proof. destruct s as [|c s]; simpl; repeat case_match; done. Qed.

Lemma removelast_cons {A} (x : A) l : l ≠ [] → removelast (x :: l) = x :: removelast l.
Proof. by destruct l. Qed.

Lemma splitLines_no_newline s : no_bytes [CR] s = true → Forall (λ l, no_bytes [CR; LF] l = true) (split_byte LF s).
Proof.
  induction s as [|c s IH]; intros Hs; [by repeat constructor|].
  cbn [no_bytes mem existsb] in Hs. apply andb_true_iff in Hs as [Hc Hs]. specialize (IH Hs).
  simpl. destruct (Ascii.eqb c LF) eqn:El; [by constructor|].
  pose proof (split_byte_ne LF s) as Hne. destruct (split_byte LF s) as [|l ls]; [done|].
  apply Forall_cons in IH as [Hl Hls]. constructor; [|done].
  cbn [no_bytes mem existsb]. apply negb_true_iff in Hc. rewrite orb_false_r in *. by rewrite Hc, El, Hl.
Qed.

Lemma NL_app s : AdminUI.NL +:+ s = String LF s.
Proof. done. Qed.

Lemma data_lines ls rest :
  Forall (λ l, no_bytes [CR; LF] l = true) ls →
  stream_lines (AdminUI.concat_str (AdminUI.dataLine <$> ls) +:+ rest) =
  ((λ l, "data: " +:+ l) <$> ls) ++ stream_lines rest.
Proof.
  induction 1 as [|l ls Hl _ IH]; [by rewrite str_nil_app|]. cbn [fmap list_fmap AdminUI.concat_str].
  unfold AdminUI.dataLine at 1. rewrite !str_app_assoc, NL_app.
  rewrite <-(str_app_assoc "data: " l). rewrite stream_lines_cons by (simpl; exact Hl).
  rewrite IH. done.
Qed.

Lemma event_lines name body rest :
  no_bytes [CR; LF] name = true → no_bytes [CR] body = true →
  stream_lines (AdminUI.writeEvent name body +:+ rest) =
  ("event: " +:+ name) :: ((λ l, "data: " +:+ l) <$> split_byte LF body) ++ "" :: "" :: stream_lines rest.
Proof.
  intros Hn Hb. unfold AdminUI.writeEvent, AdminUI.splitLines. rewrite !str_app_assoc, !NL_app.
  rewrite <-(str_app_assoc "event: " name). rewrite stream_lines_cons by (simpl; exact Hn).
  rewrite data_lines by (by apply splitLines_no_newline). done.
Qed.

Lemma dispatch_data ev data ls rest :
  dispatch ev data (((λ l, "data: " +:+ l) <$> ls) ++ rest) = dispatch ev (data ++ ls) rest.
Proof.
  revert data. induction ls as [|l ls IH]; intros data; [by rewrite app_nil_r|].
  cbn [fmap list_fmap app dispatch]. rewrite bool_decide_false by done.
  unfold field. simpl. rewrite IH, <-app_assoc. done.
Qed.

(** The event stream is faithful: a browser that reads what the stream
    writes gets back every event, in order, with its name and exactly the text
    that was rendered, as long as that text has no carriage return. *)
Theorem sse_roundtrip evs :
  Forall (λ '(name, body), no_bytes [CR; LF] name = true ∧ no_bytes [CR] body = true) evs →
  readStream (AdminUI.concat_str ((λ '(name, body), AdminUI.writeEvent name body) <$> evs)) = evs.
Proof.
  unfold readStream. induction 1 as [|[name body] evs [Hn Hb] _ IH]; [done|].
  cbn [fmap list_fmap AdminUI.concat_str]. rewrite event_lines by done.
  set (s := stream_lines _) in *. assert (Hs : s ≠ []) by apply stream_lines_ne. clearbody s.
  rewrite removelast_cons by (by destruct (split_byte LF body)).
  rewrite removelast_app by done. rewrite !removelast_cons by done.
  cbn [dispatch]. rewrite bool_decide_false by done. unfold field at 1. simpl.
  rewrite dispatch_data. cbn [dispatch app]. rewrite bool_decide_true by done.
  pose proof (split_byte_ne LF body) as Hne. pose proof (join_split_byte LF body) as Hj.
  destruct (split_byte LF body) as [|l ls]; [done|]. by rewrite Hj, IH.
Qed.

Lemma sse_roundtrip_witness :
  let evs := [("pools", "<table>" +:+ AdminUI.NL +:+ "</table>"); ("sessions", ""); ("events", "a: b")] in
  readStream (AdminUI.concat_str ((λ '(name, body), AdminUI.writeEvent name body) <$> evs)) = evs.
Proof. apply sse_roundtrip. repeat constructor. Defined.

(** A carriage return in the text ends the event early: what follows it is read
    as an event of its own, with the name the text gives. *)
Lemma sse_carriage_return :
  readStream (AdminUI.writeEvent "sessions"
    ("ann" +:+ String CR (String CR ("event: pools" +:+ String CR ("data: gone" +:+ String CR (String CR "")))))) =
  [("sessions", "ann"); ("pools", "gone")].
Proof. vm_compute. reflexivity. Qed.

End AdminUITheorems.
