(* ===== verification/AdminServer.v ===== *)
(** * The admin listener

    src/main.go's newAdminServer: the routes of the admin listener, Go's
    ServeMux that picks one (method first, then the most specific path, with the
    redirects that clean a path), and the access check of admin_auth.go in front
    of all of them.  The handlers are those of AdminUI.v, here with what they do
    to the registry, the pools and the sessions. *)

From Stdlib Require Import Ascii.
From stdpp Require Import functions.
From S2P Require Import Prelude GoStrings GoURL Config Pool Registry Session AdminAuth AdminUI.
Open Scope string_scope.
Open Scope list_scope.
Open Scope Z_scope.

Module AdminServer.

(** ** Paths *)

(** [path.Clean] of a rooted path, on its segments: empty ones and dots go, two
    dots take the segment before with them. *)
Definition clean_step (stack : list string) (seg : string) : list string :=
  if bool_decide (seg = "") || bool_decide (seg = ".") then stack
  else if bool_decide (seg = "..") then tail stack
  else seg :: stack.

Definition clean_segs (segs : list string) : list string := reverse (foldl clean_step [] segs).

Definition hasTrailingSlash (p : string) : bool := bool_decide (last (split_byte "/" p) = Some "").

(** http's [cleanPath]: a trailing slash stays. *)
Definition cleanPath (p : string) : string :=
  let p := match p with String "/" _ => p | _ => String "/" p end in
  match clean_segs (split_byte "/" p) with
  | [] => "/"
  | segs => "/" +:+ join_byte "/" segs +:+
            (if hasTrailingSlash p then "/" else "")
  end.

(** [pathUnescape]: the segment itself when it cannot be decoded. *)
Definition pathUnescape (s : string) : string := default s (GoURL.unescape GoURL.encodePath s).

(** The segments [firstSegment] cuts from a clean path; a trailing slash is the
    segment "/". *)
Definition segments (p : string) : list string :=
  (λ s, if bool_decide (s = "") then "/" else pathUnescape s) <$>
    split_byte "/" match p with String "/" q => q | _ => p end.

(** ** Patterns *)

Inductive seg := Lit (s : string) | Wild | Multi.
#[export] Instance seg_eq_dec : EqDecision seg.
Proof. solve_decision. Defined.

Record route H := mkRoute { r_method : string; r_path : list seg; r_handler : H }.
Arguments mkRoute {H} r_method r_path r_handler.
Arguments r_method {H} _.
Arguments r_path {H} _.
Arguments r_handler {H} _.

Section mux.
Context {H : Type}.
Implicit Types rs : list (route H).

(** A node of the routing tree is the list of the routes below it, each with
    what is left of its pattern. *)
Abbreviation node := (list (list seg * route H)).

Definition lit_child (s : string) (n : node) : node :=
  omap (λ '(p, r), match p with Lit t :: p' => if String.eqb s t then Some (p', r) else None | _ => None end) n.
Definition wild_child (n : node) : node :=
  omap (λ '(p, r), match p with Wild :: p' => Some (p', r) | _ => None end) n.
Definition multi_child (n : node) : option (route H) :=
  head (omap (λ '(p, r), match p with [Multi] => Some r | _ => None end) n).
Definition leaf (n : node) : option (route H) :=
  head (omap (λ '(p, r), match p with [] => Some r | _ => None end) n).

(** [matchPath]: a literal is tried before a wildcard, that before the rest of
    the path; a wildcard does not take a trailing slash. *)
Fixpoint matchPath (n : node) (path matches : list string) : option (route H * list string) :=
  match path with
  | [] => (λ r, (r, matches)) <$> leaf n
  | s :: rest =>
      match matchPath (lit_child s n) rest matches with
      | Some x => Some x
      | None =>
          match (if bool_decide (s = "/") then None else matchPath (wild_child n) rest (matches ++ [s])) with
          | Some x => Some x
          | None => (λ r, (r, matches)) <$> multi_child n
          end
      end
  end.

(** ** The mux *)

Definition below (method : string) (rs : list (route H)) : node :=
  (λ r, (r_path r, r)) <$> filter (λ r, r_method r = method) rs.

(** [matchMethodAndPath]: HEAD falls back on GET. *)
Definition matchMethod (rs : list (route H)) (method : string) (segs : list string) :
  option (route H * list string) :=
  match matchPath (below method rs) segs [] with
  | Some x => Some x
  | None => if bool_decide (method = "HEAD") then matchPath (below "GET" rs) segs [] else None
  end.

(** A match by the rest of the path is exact only when that rest is empty. *)
Definition exactMatch (rs : list (route H)) (method path : string) : bool :=
  match matchMethod rs method (segments path) with
  | None => false
  | Some (r, _) =>
      negb (bool_decide (last (r_path r) = Some Multi)) ||
      (hasTrailingSlash path && bool_decide (length (r_path r) = length (segments path)))
  end.

Inductive found := Found (h : H) (values : list string) | MovedTo (path : string) | MethodNotAllowed | NotFound.

(** [findHandler], for a method other than CONNECT. *)
Definition findHandler (rs : list (route H)) (method escapedPath : string) : found :=
  let path := cleanPath escapedPath in
  if negb (exactMatch rs method path) && negb (hasTrailingSlash path) && exactMatch rs method (path +:+ "/")
  then MovedTo (path +:+ "/")
  else if negb (bool_decide (path = escapedPath)) then MovedTo path
  else match matchMethod rs method (segments path) with
       | Some (r, values) => Found (r_handler r) values
       | None => if existsb (λ r, bool_decide (is_Some (matchMethod rs (r_method r) (segments path)))) rs
                 then MethodNotAllowed else NotFound
       end.
End mux.

(** ** The routes *)

Inductive handler :=
| HIndex | HStatic | HEvents | HReload | HAdd | HResize | HRemove | HPause | HResume | HReconnect | HCancel
| HPprof (page : string).

Definition on_pool (action : string) (h : handler) : route handler := mkRoute "POST" [Lit "pools"; Wild; Lit action] h.

Definition pprofRoutes : list (route handler) :=
  let page method name := mkRoute method [Lit "debug"; Lit "pprof"; Lit name] (HPprof name) in
  [mkRoute "GET" [Lit "debug"; Lit "pprof"; Multi] (HPprof "");
   page "GET" "cmdline"; page "GET" "profile"; page "GET" "symbol"; page "GET" "trace"; page "POST" "symbol"].

Definition adminRoutes (enablePprof : bool) : list (route handler) :=
  [mkRoute "GET" [Multi] HIndex;
   mkRoute "GET" [Lit "static"; Multi] HStatic;
   mkRoute "GET" [Lit "events"] HEvents;
   mkRoute "POST" [Lit "reload"] HReload;
   mkRoute "POST" [Lit "pools"] HAdd;
   on_pool "resize" HResize;
   on_pool "remove" HRemove;
   on_pool "pause" HPause;
   on_pool "resume" HResume;
   on_pool "reconnect" HReconnect;
   mkRoute "POST" [Lit "sessions"; Wild; Lit "cancel"] HCancel] ++
  (if enablePprof then pprofRoutes else []).

(** ** Serving a request *)

Record areq := mkAReq {
  base : AdminAuth.request;
  path : string;                            (** as it was sent *)
  form : option (gmap string string);       (** [None] when it cannot be parsed *)
}.

(** What the handlers can reach; a pool is known by its number. *)
Record plane := mkPlane {
  reg : Registry.PoolRegistry;
  pools : nat → Pool.Pool;
  sess : Session.world;
  drains : list nat;                        (** handed to drainPoolsInBackground *)
  cancels : list Session.cancelTarget;      (** cancel requests sent *)
}.

Inductive response :=
| Denied (status : Z) (body : string) (challenges : list AdminAuth.challenge)
| Redirect (path : string)
| Status (status : Z)
| Panel (p : Registry.PoolRegistry → AdminUI.panel)
| Preview (p : result Config.configErr AdminUI.preview)
| ReadOnly (h : handler).                   (** pages, files, streams, profiles *)

Section serve.
Context `{MapRange}.
Context (verifyToken : string → option AdminAuth.claims) (bcryptMatches : string → string → bool).
Context (readFile : string → option string) (unmarshal : string → option Config.Config) (configPath : string).

Definition after_effect (e : AdminUI.effect) (l : plane) : plane * response :=
  (mkPlane (AdminUI.registry e) (pools l) (sess l) (drains l ++ AdminUI.draining e) (cancels l),
   Panel (AdminUI.respond e)).

Definition after_method (x : option (nat * Pool.Pool) * (Registry.PoolRegistry → AdminUI.panel)) (l : plane) :
  plane * response :=
  (match x.1 with
   | None => l
   | Some (i, p) => mkPlane (reg l) (<[ i := p ]> (pools l)) (sess l) (drains l) (cancels l)
   end, Panel x.2).

(** [sent] is whether the cancel request could be delivered. *)
Definition runHandler (now : Z) (sent : Session.cancelTarget → bool) (h : handler) (name : string)
    (f : option (gmap string string)) (l : plane) : plane * response :=
  match h with
  | HIndex | HStatic | HEvents | HPprof _ => (l, ReadOnly h)
  | HReload => (l, Preview (AdminUI.reloadHandler readFile unmarshal configPath (reg l)))
  | HAdd => after_effect (AdminUI.addPoolHandler now f (reg l)) l
  | HResize => after_effect (AdminUI.resizePoolHandler now name f (reg l)) l
  | HRemove => after_effect (AdminUI.removePoolHandler name (reg l)) l
  | HPause => after_method (AdminUI.pausePoolHandler name (reg l) (pools l)) l
  | HResume => after_method (AdminUI.resumePoolHandler name (reg l) (pools l)) l
  | HReconnect => after_method (AdminUI.reconnectPoolHandler name (reg l) (pools l)) l
  | HCancel =>
      let '(status, t) := AdminUI.cancelSessionHandler name sent (sess l) in
      (mkPlane (reg l) (pools l) (sess l) (drains l) (cancels l ++ option_list t), Status status)
  end.

(** [adminAuth(cfg, oidcVerifier, mux)] *)
Definition serve (cfg : Config.Config) (oidc : option AdminAuth.oidcAuth) (now : Z)
    (sent : Session.cancelTarget → bool) (q : areq) (l : plane) : plane * response :=
  match AdminAuth.adminAuth verifyToken bcryptMatches cfg oidc (base q) with
  | AdminAuth.Refuse status body ch => (l, Denied status body ch)
  | AdminAuth.Next =>
      match findHandler (adminRoutes (Config.EnablePprof cfg)) (AdminAuth.Method (base q)) (path q) with
      | Found h values => runHandler now sent h (default "" (head values)) (form q) l
      | MovedTo p => (l, Redirect p)
      | MethodNotAllowed => (l, Status 405)
      | NotFound => (l, Status 404)
      end
  end.
End serve.

(** [newAdminServer]: what it refuses to start with. *)
Inductive adminSrvErr := AdminOIDC (e : AdminAuth.oidcErr) | AdminTLS (e : AdminAuth.tlsErr).

Definition newAdminServer (discovery loadsKeyPair : bool) (readCA : option string) (appendsPEM : string → bool)
    (cfg : Config.Config) : result adminSrvErr (option AdminAuth.oidcAuth * option AdminAuth.adminTLS) :=
  match AdminAuth.buildOIDCVerifier discovery cfg with
  | Err e => Err (AdminOIDC e)
  | Ok oidc => match AdminAuth.buildAdminTLSConfig loadsKeyPair readCA appendsPEM cfg with
               | Err e => Err (AdminTLS e)
               | Ok t => Ok (oidc, t)
               end
  end.

End AdminServer.
