(* ===== verification/AdminServerTheorems.v ===== *)
(** * What the admin listener lets through

    About AdminServer.v: nothing changes without an authenticated same-site
    POST, and the links the management panel renders reach the handlers they
    are for, with the pool's name; those of a pool split by user do not. *)

From Stdlib Require Import Ascii.
From stdpp Require Import functions.
From S2P Require Import Prelude GoStrings GoURL Config Pool Registry Session AdminAuth AdminAuthTheorems AdminUI AdminServer.
Import AdminServer.
Open Scope string_scope.
Open Scope list_scope.
Open Scope Z_scope.

Module AdminServerTheorems.

(** ** The mux *)

Section mux.
Context {H : Type}.

Lemma in_omap_snd (f : list seg * route H → option (list seg * route H)) (n : list (list seg * route H)) r :
  (∀ p x p' x', f (p, x) = Some (p', x') → x' = x) → r ∈ (omap f n).*2 → r ∈ n.*2.
Proof.
  intros Hf. rewrite !list_elem_of_fmap. intros ([p x] & -> & Hin).
  apply list_elem_of_omap in Hin as ([p0 x0] & Hin & E). apply Hf in E as ->. by exists (p0, x0).
Qed.

Lemma in_head_omap (f : list seg * route H → option (route H)) (n : list (list seg * route H)) r :
  (∀ p x x', f (p, x) = Some x' → x' = x) → head (omap f n) = Some r → r ∈ n.*2.
Proof.
  intros Hf Hh. apply head_Some_elem_of in Hh. apply list_elem_of_omap in Hh as ([p x] & Hin & E).
  apply Hf in E as ->. apply list_elem_of_fmap. by exists (p, x).
Qed.

Lemma matchPath_in segs : ∀ (n : list (list seg * route H)) ms r vs, matchPath n segs ms = Some (r, vs) → r ∈ n.*2.
Proof.
  induction segs as [|s segs IH]; intros n ms r vs; cbn [matchPath].
  { destruct (leaf n) eqn:E; [|done]. intros [= -> ->]. eapply in_head_omap, E.
    intros [] ?? ?; by simplify_eq. }
  destruct (matchPath (lit_child s n) segs ms) as [[r1 v1]|] eqn:E1.
  { intros [= -> ->]. apply IH in E1. eapply in_omap_snd, E1. intros [|[]] ??? Hx; simpl in *; repeat case_match; by simplify_eq. }
  destruct (if bool_decide (s = "/") then _ else _) as [[r2 v2]|] eqn:E2.
  { intros [= -> ->]. case_match; [done|]. apply IH in E2. eapply in_omap_snd, E2.
    intros [|[]] ??? Hx; simpl in *; by simplify_eq. }
  destruct (multi_child n) eqn:E; [|done]. intros [= -> ->]. eapply in_head_omap, E.
  intros [|[] []] ?? ?; by simplify_eq/=.
Qed.

Lemma below_in m (rs : list (route H)) r : r ∈ (below m rs).*2 → r ∈ rs ∧ r_method r = m.
Proof.
  unfold below. rewrite <-list_fmap_compose, list_elem_of_fmap. intros (x & -> & Hx).
  apply list_elem_of_filter in Hx as [? ?]. done.
Qed.

Lemma matchMethod_in (rs : list (route H)) m segs r vs :
  matchMethod rs m segs = Some (r, vs) → r ∈ rs ∧ (r_method r = m ∨ m = "HEAD" ∧ r_method r = "GET").
Proof.
  unfold matchMethod. destruct (matchPath _ _ _) as [[r1 v1]|] eqn:E.
  - intros [= -> ->]. apply matchPath_in, below_in in E as [? ?]. auto.
  - case_bool_decide; [|done]. intros Hm. apply matchPath_in, below_in in Hm as [? ?]. auto.
Qed.

Lemma findHandler_in (rs : list (route H)) m p h vs :
  findHandler rs m p = Found h vs →
  ∃ r, r ∈ rs ∧ r_handler r = h ∧ (r_method r = m ∨ m = "HEAD" ∧ r_method r = "GET").
Proof.
  unfold findHandler. cbv zeta. do 2 (case_match; [done|]).
  destruct (matchMethod _ _ _) as [[r v]|] eqn:E; [|by case_match].
  intros [= <- <-]. apply matchMethod_in in E as [? ?]. eauto.
Qed.
End mux.

(** ** Nothing changes without permission *)

(** The handlers that can change something. *)
Definition changes (h : handler) : bool :=
  match h with HAdd | HResize | HRemove | HPause | HResume | HReconnect | HCancel => true | _ => false end.

Lemma changes_by_post b r : r ∈ adminRoutes b → changes (r_handler r) = true → r_method r = "POST".
Proof.
  assert (Hall : Forall (λ r, changes (r_handler r) = true → r_method r = "POST") (adminRoutes b))
    by (destruct b; repeat constructor; by try discriminate).
  rewrite Forall_forall in Hall. apply Hall.
Qed.

Section access.
Context `{MapRange}.
Context (verifyToken : string → option AdminAuth.claims) (bcryptMatches : string → string → bool).
Context (readFile : string → option string) (unmarshal : string → option Config.Config) (configPath : string).
Abbreviation serve := (serve verifyToken bcryptMatches readFile unmarshal configPath).

Lemma runHandler_reads now sent h name f l :
  changes h = false → (runHandler readFile unmarshal configPath now sent h name f l).1 = l.
Proof. by destruct h. Qed.

(** C18: The control plane is closed: a request changes a pool, the registry or
    a session's query, or makes a pool drain, only if it is a POST that is not
    cross-site and comes with an allowed certificate, an allowed token, the
    password, or, with none of these configured, unproxied from the machine
    itself; and only through the handler its path is routed to. *)
Theorem admin_changes_authorised cfg oidc now sent q l :
  (serve cfg oidc now sent q l).1 = l ∨
  AdminAuth.Method (base q) = "POST" ∧ AdminAuthTheorems.same_site (base q) ∧
  (AdminAuthTheorems.by_certificate cfg (base q) ∨ AdminAuthTheorems.by_token verifyToken oidc (base q) ∨
   AdminAuthTheorems.by_password bcryptMatches cfg (base q) ∨ AdminAuthTheorems.as_local cfg oidc (base q)) ∧
  ∃ h values, findHandler (adminRoutes (Config.EnablePprof cfg)) "POST" (path q) = Found h values ∧ changes h = true.
Proof.
  unfold AdminServer.serve.
  destruct (AdminAuth.adminAuth _ _ _ _ _) eqn:Ea; [|by left].
  apply AdminAuthTheorems.adminAuth_ok in Ea as [Hs Hw].
  destruct (findHandler _ _ _) as [h vs| | |] eqn:Ef; try by left.
  destruct (changes h) eqn:Ec; [|left; by apply runHandler_reads]. right.
  pose proof (findHandler_in _ _ _ _ _ Ef) as (r & Hr & <- & Hm).
  pose proof (changes_by_post _ _ Hr Ec) as Hp.
  assert (E : AdminAuth.Method (base q) = "POST") by (destruct Hm as [Hm|[_ Hm]]; congruence).
  rewrite E in Ef. eauto 10.
Qed.

End access.

(** ** The links of the management panel *)

(** The panel puts the name into the link as it is. *)
Definition link (name action : string) : string := "/pools/" +:+ name +:+ "/" +:+ action.

(** A name that a URL carries unchanged. *)
Definition plain_char (c : ascii) : bool := is_letter c || is_digit c || mem c ["-"; "_"; "."; "~"]%char.
Fixpoint all_plain (s : string) : bool :=
  match s with EmptyString => true | String c s => plain_char c && all_plain s end.
Definition linkable (name : string) : Prop := all_plain name = true ∧ name ≠ "" ∧ name ≠ "." ∧ name ≠ "..".

Lemma plain_bytes c : plain_char c = true → mem c ["/"]%char = false ∧ Ascii.eqb c "%" = false.
Proof. by destruct c as [[] [] [] [] [] [] [] []]. Qed.

Lemma plain_no_slash s : all_plain s = true → no_bytes ["/"]%char s = true.
Proof.
  induction s as [|c s IH]; [done|]. cbn [all_plain]. intros [Hc Hs]%andb_true_iff.
  rewrite no_bytes_cons. split; [by apply plain_bytes|by apply IH].
Qed.

Lemma plain_unescape s : all_plain s = true → pathUnescape s = s.
Proof.
  intros Hs. unfold pathUnescape. enough (GoURL.unescape GoURL.encodePath s = Some s) as -> by done.
  induction s as [|c s IH]; [done|]. cbn [all_plain] in Hs. apply andb_true_iff in Hs as [Hc Hs].
  cbn [GoURL.unescape]. destruct (plain_bytes c Hc) as [_ ->]. by rewrite IH.
Qed.

(** A path of linkable segments. *)
Definition path_of (segs : list string) : string := "/" +:+ join_byte "/" segs.

Lemma split_path segs : segs ≠ [] → Forall linkable segs → split_byte "/" (path_of segs) = "" :: segs.
Proof.
  intros Hne Hs. unfold path_of. change ("/" +:+ ?x) with (String "/" x). cbn [split_byte].
  rewrite Ascii.eqb_refl. f_equal.
  induction Hs as [|s segs [Hp _] Hs IH]; [done|]. destruct segs as [|t segs].
  - by apply split_byte_one, plain_no_slash.
  - change (join_byte "/" (s :: t :: segs)) with (s +:+ String "/" (join_byte "/" (t :: segs))).
    rewrite split_byte_app by (by apply plain_no_slash). by rewrite IH.
Qed.

Lemma clean_step_linkable stack s : linkable s → clean_step stack s = s :: stack.
Proof. intros (_ & H1 & H2 & H3). unfold clean_step. by rewrite !bool_decide_false. Qed.

Lemma clean_linkable segs stack : Forall linkable segs → foldl clean_step stack segs = reverse segs ++ stack.
Proof.
  intros Hs. revert stack. induction Hs as [|s segs Hl _ IH]; intros stack; [done|].
  cbn [foldl]. rewrite clean_step_linkable, IH, reverse_cons, <-app_assoc by done. done.
Qed.

Lemma no_trailing_slash segs : segs ≠ [] → Forall linkable segs → hasTrailingSlash (path_of segs) = false.
Proof.
  intros Hne Hs. unfold hasTrailingSlash. rewrite split_path by done. apply bool_decide_false.
  rewrite last_cons. destruct (last segs) as [s|] eqn:E; [|by apply last_None in E].
  intros [= ->]. apply last_Some_elem_of in E. rewrite Forall_forall in Hs. by destruct (Hs _ E) as (_ & [] & _).
Qed.

Lemma clean_path_of segs : segs ≠ [] → Forall linkable segs → cleanPath (path_of segs) = path_of segs.
Proof.
  intros Hne Hs. unfold cleanPath. cbv zeta. change (match path_of segs with String "/" _ => path_of segs | _ => _ end) with (path_of segs).
  rewrite no_trailing_slash, split_path by done. unfold clean_segs. cbn [foldl].
  change (clean_step [] "") with (@nil string). rewrite clean_linkable, app_nil_r, reverse_involutive by done.
  destruct segs; [done|]. unfold path_of. by rewrite str_app_nil.
Qed.

Lemma segments_path_of segs : segs ≠ [] → Forall linkable segs → segments (path_of segs) = segs.
Proof.
  intros Hne Hs. unfold segments.
  assert (E : split_byte "/" (join_byte "/" segs) = segs).
  { pose proof (split_path segs Hne Hs) as E. unfold path_of in E.
    change ("/" +:+ ?x) with (String "/" x) in E. cbn [split_byte] in E. rewrite Ascii.eqb_refl in E. by simplify_eq. }
  change (match path_of segs with String "/" q => q | _ => path_of segs end) with (join_byte "/" segs). rewrite E.
  rewrite <-(list_fmap_id segs) at 2. apply list_fmap_ext. intros i s Hi.
  rewrite Forall_lookup in Hs. destruct (Hs i s Hi) as (Hp & H1 & _). rewrite bool_decide_false by done.
  by apply plain_unescape.
Qed.

Lemma matchPath_nil {H} segs ms : matchPath (H := H) [] segs ms = None.
Proof. revert ms. induction segs as [|s segs IH]; intros ms; [done|]. cbn [matchPath].
  change (lit_child s []) with (@nil (list seg * route H)). change (wild_child (H := H) []) with (@nil (list seg * route H)).
  rewrite !IH. by destruct (bool_decide _).
Qed.

Definition actions : list (string * handler) :=
  [("resize", HResize); ("remove", HRemove); ("pause", HPause); ("resume", HResume); ("reconnect", HReconnect)].

(** The tree below POST, and below POST /pools. *)
Definition at_pools : list (list seg * route handler) :=
  ([], mkRoute "POST" [Lit "pools"] HAdd) :: ((λ '(a, h), ([Wild; Lit a], on_pool a h)) <$> actions).
Definition at_pool : list (list seg * route handler) := (λ '(a, h), ([Lit a], on_pool a h)) <$> actions.

Lemma post_pools b : lit_child "pools" (below "POST" (adminRoutes b)) = at_pools.
Proof. by destruct b; vm_compute. Qed.

Lemma post_multi b : multi_child (below "POST" (adminRoutes b)) = None.
Proof. by destruct b; vm_compute. Qed.

Lemma post_wild b : wild_child (below "POST" (adminRoutes b)) = [].
Proof. by destruct b; vm_compute. Qed.

Lemma match_pools b name rest :
  name ≠ "/" → matchMethod (adminRoutes b) "POST" ("pools" :: name :: rest) = matchPath at_pool rest [name].
Proof.
  intros Hn. unfold matchMethod. cbn [matchPath app]. rewrite post_pools, post_wild, post_multi.
  change (lit_child name at_pools) with (@nil (list seg * route handler)).
  change (wild_child at_pools) with at_pool. change (multi_child at_pools) with (@None (route handler)).
  change (lit_child name []) with (@nil (list seg * route handler)).
  change (wild_child (H := handler) []) with (@nil (list seg * route handler)).
  rewrite !matchPath_nil, (bool_decide_false (name = "/")) by done.
  destruct (matchPath at_pool rest [name]) as [x|] eqn:E; [done|].
  by rewrite !bool_decide_false.
Qed.

Lemma linkable_not_slash name : linkable name → name ≠ "/".
Proof. by intros (Hp & _) ->. Qed.

Lemma action_linkable action h : (action, h) ∈ actions → linkable action.
Proof.
  unfold actions. rewrite !elem_of_cons, elem_of_nil.
  by intros [[= -> ->]|[[= -> ->]|[[= -> ->]|[[= -> ->]|[[= -> ->]|[]]]]]].
Qed.

(** What a link does, up to the handler. *)
Lemma link_found b name action h :
  linkable name → (action, h) ∈ actions →
  findHandler (adminRoutes b) "POST" (link name action) = Found h [name].
Proof.
  intros Hn Ha.
  pose proof (action_linkable _ _ Ha) as Hl.
  assert (Hs : Forall linkable ["pools"; name; action]) by (repeat constructor; by try apply Hn || apply Hl).
  change (link name action) with (path_of ["pools"; name; action]).
  assert (Hm : matchMethod (adminRoutes b) "POST" ["pools"; name; action] = Some (on_pool action h, [name])).
  { rewrite match_pools by (by apply linkable_not_slash).
    unfold actions in Ha. rewrite !elem_of_cons, elem_of_nil in Ha.
    by destruct Ha as [[= -> ->]|[[= -> ->]|[[= -> ->]|[[= -> ->]|[[= -> ->]|[]]]]]]. }
  unfold findHandler. cbv zeta. rewrite clean_path_of by done. unfold exactMatch at 1.
  rewrite !segments_path_of, Hm by done. rewrite (bool_decide_true (path_of _ = path_of _)) by done. done.
Qed.

Lemma split_byte_snoc b s : split_byte b (s +:+ String b "") = split_byte b s ++ [""].
Proof.
  induction s as [|c s IH]; [rewrite str_nil_app; simpl; by rewrite Ascii.eqb_refl|].
  rewrite str_cons_app. cbn [split_byte]. rewrite IH. destruct (Ascii.eqb c b); [done|].
  pose proof (split_byte_ne b s). by destruct (split_byte b s).
Qed.

Lemma segments_slash segs :
  segs ≠ [] → Forall linkable segs → segments (path_of segs +:+ "/") = segs ++ ["/"].
Proof.
  intros Hne Hs. rewrite <-(segments_path_of segs) at 2 by done. unfold segments, path_of.
  change (("/" +:+ join_byte "/" segs) +:+ "/") with (String "/" (join_byte "/" segs +:+ "/")).
  change ("/" +:+ join_byte "/" segs) with (String "/" (join_byte "/" segs)). cbv iota.
  by rewrite split_byte_snoc, fmap_app.
Qed.

Lemma leaves_end {H} (n : list (list seg * route H)) s :
  Forall (λ x, x.1 = []) n → lit_child s n = [] ∧ wild_child n = [] ∧ multi_child n = None.
Proof.
  unfold multi_child. induction 1 as [|[p r] n Hp _ (H1 & H2 & H3)]; [done|]. simpl in *. by subst.
Qed.

Lemma past_action x : Forall (λ y, y.1 = []) (lit_child x at_pool).
Proof.
  apply Forall_forall. intros [p r] Hin. apply list_elem_of_omap in Hin as ([q r'] & Hin & E).
  apply list_elem_of_fmap in Hin as ([a h] & [= -> ->] & _). case_match; by simplify_eq.
Qed.

Lemma two_past_pool x y rest name : matchPath at_pool (x :: y :: rest) name = None.
Proof.
  cbn [matchPath]. pose proof (λ z, leaves_end _ z (past_action x)) as E.
  destruct (E y) as (-> & -> & ->). change (wild_child at_pool) with (@nil (list seg * route handler)).
  change (multi_child at_pool) with (@None (route handler)).
  change (lit_child y []) with (@nil (list seg * route handler)).
  change (wild_child (H := handler) []) with (@nil (list seg * route handler)).
  rewrite !matchPath_nil. by repeat destruct (bool_decide _).
Qed.

Lemma get_matches b s segs : is_Some (matchMethod (adminRoutes b) "GET" (s :: segs)).
Proof.
  unfold matchMethod. cbn [matchPath]. assert (E : is_Some (multi_child (below "GET" (adminRoutes b)))) by (destruct b; by eexists).
  destruct (matchPath (lit_child _ _) _ _); [by eexists|].
  destruct (if bool_decide (s = "/") then _ else _); [by eexists|]. destruct E as [r ->]. by eexists.
Qed.

(** The entries of a pool split by user have a slash in their name: their links
    have a segment too many, and no handler. *)
Theorem split_link_dead b pool user action h :
  linkable pool → linkable user → (action, h) ∈ actions →
  findHandler (adminRoutes b) "POST" (link (pool +:+ "/" +:+ user) action) = MethodNotAllowed.
Proof.
  intros Hp Hu Ha. apply action_linkable in Ha.
  set (segs := ["pools"; pool; user; action]).
  assert (Hs : Forall linkable segs) by (repeat constructor; by try apply Hp || apply Hu || apply Ha).
  assert (E : link (pool +:+ "/" +:+ user) action = path_of segs)
    by (unfold link; rewrite str_app_assoc; done).
  assert (Hm : ∀ rest, matchMethod (adminRoutes b) "POST" (segs ++ rest) = None).
  { intros rest. subst segs. cbn [app]. rewrite match_pools by (by apply linkable_not_slash). apply two_past_pool. }
  rewrite E. unfold findHandler. cbv zeta. rewrite clean_path_of by done. unfold exactMatch.
  rewrite segments_slash, Hm, andb_false_r by done. rewrite segments_path_of by done.
  rewrite <-(app_nil_r segs), Hm, app_nil_r. rewrite (bool_decide_true (path_of _ = path_of _)) by done. cbn [negb].
  assert (Hx : existsb (λ r, bool_decide (is_Some (matchMethod (adminRoutes b) (r_method r) segs))) (adminRoutes b) = true).
  { apply existsb_exists. exists (mkRoute "GET" [Multi] HIndex). split; [by left|]. apply bool_decide_true, get_matches. }
  by rewrite Hx.
Qed.

(** An admitted request through a link of the panel runs that action's handler
    on the pool of that name. *)
Theorem panel_link_works `{MapRange} verifyToken bcryptMatches readFile unmarshal configPath
    cfg oidc now sent q l name action h :
  linkable name → (action, h) ∈ actions →
  AdminAuth.adminAuth verifyToken bcryptMatches cfg oidc (base q) = AdminAuth.Next →
  AdminAuth.Method (base q) = "POST" → path q = link name action →
  serve verifyToken bcryptMatches readFile unmarshal configPath cfg oidc now sent q l =
  runHandler readFile unmarshal configPath now sent h name (form q) l.
Proof.
  intros Hn Ha Hok Hm Hp. unfold serve. rewrite Hok, Hm, Hp, (link_found _ _ _ h) by done. done.
Qed.

(** In particular a pool can be paused by anyone who is let in, and nothing else
    changes. *)
Corollary pause_link_pauses `{MapRange} verifyToken bcryptMatches readFile unmarshal configPath
    cfg oidc now sent q l name e :
  linkable name → AdminAuth.adminAuth verifyToken bcryptMatches cfg oidc (base q) = AdminAuth.Next →
  AdminAuth.Method (base q) = "POST" → path q = link name "pause" →
  Registry.Get (reg l) name = Some e →
  (serve verifyToken bcryptMatches readFile unmarshal configPath cfg oidc now sent q l).1 =
  mkPlane (reg l) (<[ Registry.pool e := Pool.Pause (pools l (Registry.pool e)) ]> (pools l)) (sess l)
    (drains l) (cancels l).
Proof.
  intros Hn Hok Hm Hp He. assert (Ha : ("pause", HPause) ∈ actions) by (unfold actions; set_solver).
  rewrite (panel_link_works _ _ _ _ _ _ _ _ _ _ _ name "pause" HPause) by done.
  unfold runHandler, AdminUI.pausePoolHandler. by rewrite He.
Qed.

End AdminServerTheorems.
