(* ===== verification/Wiring.v ===== *)
(** * How the process is put together

    src/main.go: the data-plane certificate (buildDataPlaneTLS), the chain of
    authenticators (buildAuthBackend), the knobs and gates derived from the
    configuration (runtimeOptsFromConfig, applyRuntimeLimits), the order in
    which run brings the listeners up and takes them down again when one cannot
    be opened, the loop that reloads on SIGHUP, the pass-through sweep, and the
    command line's exit codes. *)

From Stdlib Require Import Ascii.
From S2P Require Import Prelude GoStrings Prepared HBA Config Pool Registry Scram Session Limits RateLimit Startup Server Relay Health.
Open Scope string_scope.
Open Scope list_scope.
Open Scope Z_scope.

Module Wiring.

(** ** The certificate clients connect with *)

Record dataTLS := mkDataTLS { verifiesClients : bool }.

Inductive dataTLSErr := LoadKeyPair | ReadClientCA | NoClientPEM.

(** [loadsKeyPair] and [readCA] are what the files hold; [appendsPEM] is
    whether a bundle contains a certificate. *)
Definition buildDataPlaneTLS (loadsKeyPair : bool) (readCA : option string) (appendsPEM : string → bool)
    (cfg : Config.Config) : result dataTLSErr (option dataTLS) :=
  if bool_decide (Config.TLSCertFile cfg = "") then Ok None
  else if negb loadsKeyPair then Err LoadKeyPair
  else if bool_decide (Config.TLSClientCAFile cfg = "") then Ok (Some (mkDataTLS false))
  else match readCA with
       | None => Err ReadClientCA
       | Some bundle => if appendsPEM bundle then Ok (Some (mkDataTLS true)) else Err NoClientPEM
       end.

(** The peer certificate a handshake under this configuration leaves, for a
    client that presents one whose chain verifies or not: a server without
    [ClientCAs] asks for none, [VerifyClientCertIfGiven] fails the handshake
    ([None]) on one that does not verify. *)
Definition peerCertificate (t : dataTLS) (presented : option (HBA.text * bool)) : option (option HBA.text) :=
  if negb (verifiesClients t) then Some None
  else match presented with
       | None => Some None
       | Some (cn, true) => Some (Some cn)
       | Some (_, false) => None
       end.

(** ** The chain of authenticators *)

Inductive AuthBackend :=
| TrustAuth
| UseSCRAM (a : Scram.SCRAMAuth)
| UseHBA (rules : list HBA.HBARule) (inner : AuthBackend).

Inductive authChainErr :=
| AuthUser (user : string) (e : Scram.verifierErr)
| AuthBinding
| HBAOpen
| HBALine (line : nat) (e : HBA.hbaErr)
| HBAScan.

(** What the scanner makes of the pg_hba file. *)
Abbreviation hbaScan := (option (list HBA.text * bool)).

Section auth.
Context `{MapRange, HBA.UnicodeFold}.

(** [tlsCert]: the certificate, with whether its leaf can be parsed for the
    channel binding.  [lookup] is the auth_query provider, [hbaFile] what
    the scanner reads of the file when it can be opened: the lines, and whether it
    stopped on an error (a read failed, or a line is too long). *)
Definition newSCRAM (users : gmap string string) (tlsCert : option bool) : result authChainErr Scram.SCRAMAuth :=
  match Scram.NewSCRAMAuth (HBA.lit <$> users) (bool_decide (is_Some tlsCert)) with
  | Err (user, e) => Err (AuthUser user e)
  | Ok a => match tlsCert with Some false => Err AuthBinding | _ => Ok a end
  end.

Definition setDynamicLookup (f : string → option Scram.StoredCredentials) (a : Scram.SCRAMAuth) : Scram.SCRAMAuth :=
  Scram.mkAuth (Scram.auth_users a) (Some f) (Scram.serverEndpointBinding a).

Definition baseBackend (cfg : Config.Config) (tlsCert : option bool)
    (lookup : string → option Scram.StoredCredentials) : result authChainErr AuthBackend :=
  if negb (bool_decide (Config.AuthUsers cfg = ∅)) || negb (bool_decide (Config.AuthQueryDSN cfg = "")) then
    let? a := newSCRAM (Config.AuthUsers cfg) tlsCert in
    Ok (UseSCRAM (if bool_decide (Config.AuthQueryDSN cfg = "") then a else setDynamicLookup lookup a))
  else Ok TrustAuth.

(** [NewHBAAuth]: an empty file gates nothing. *)
Definition gate (rules : list HBA.HBARule) (inner : AuthBackend) : AuthBackend :=
  match rules with [] => inner | _ => UseHBA rules inner end.

Definition LoadHBAFile (path : string) (file : hbaScan) : result authChainErr (list HBA.HBARule) :=
  if bool_decide (path = "") then Ok []
  else match file with
       | None => Err HBAOpen
       | Some (ls, failed) => match HBA.loadLines 1 ls with
                              | Err (n, e) => Err (HBALine n e)
                              | Ok rules => if failed : bool then Err HBAScan else Ok rules.*1
                              end
       end.

Definition buildAuthBackend (cfg : Config.Config) (tlsCert : option bool)
    (lookup : string → option Scram.StoredCredentials) (hbaFile : hbaScan) :
  result authChainErr AuthBackend :=
  let? b := baseBackend cfg tlsCert lookup in
  if bool_decide (Config.AuthHBAFile cfg = "") then Ok b
  else let? rules := LoadHBAFile (Config.AuthHBAFile cfg) hbaFile in Ok (gate rules b).

(** [Authenticate] through the chain: whether the client is accepted, and what
    the key store holds afterwards.  [runes] reads a name as text. *)
Context (cv : Scram.conversation) (runes : string → HBA.text).

Definition with_inner (ok : bool) (c : HBA.connection) : HBA.connection :=
  HBA.mkConn (HBA.isTLS c) (HBA.isUnix c) (HBA.remoteIP c) (HBA.peerCN c) (HBA.peerCredSupported c)
    (HBA.peerUser c) ok.

Fixpoint authenticate (b : AuthBackend) (c : HBA.connection) (user database : string) (l : Scram.login)
    (store : Scram.clientKeyStore) : HBA.verdict * Scram.clientKeyStore :=
  match b with
  | TrustAuth => (HBA.Accept, store)
  | UseSCRAM a =>
      let '(_, store, r) := Scram.Authenticate cv a user l store in
      (if is_ok r then HBA.Accept else HBA.Refuse false, store)
  | UseHBA rules inner =>
      let decide ok := HBA.Authenticate rules (with_inner ok c) (runes user) (runes database) in
      match HBA.MatchHBA rules (HBA.isTLS c) (HBA.isUnix c) (HBA.remoteIP c) (runes user) (runes database) with
      | Some r =>
          match HBA.Method r with
          | HBA.HBAMethodSCRAM =>
              let '(v, store) := authenticate inner c user database l store in
              (decide (match v with HBA.Accept => true | HBA.Refuse _ => false end), store)
          | _ => (decide false, store)
          end
      | None => (decide false, store)
      end
  end.
End auth.

(** ** Knobs and gates *)

(** [runtimeOpts]; the parts that belong to the relay and to the connection
    handler are the records of their files. *)
Record runtimeOpts := mkRuntimeOpts {
  clientLoginTimeout : Z;
  queryWaitTimeout : Z;
  tcpKeepAlive : Z;
  healthCheckTimeout : Z;
  clientWriteTimeout : Z;
  relayOpts : Relay.runtimeOpts;
  handler : Startup.handlerOpts;
  clientSlots : option nat;
  connLimiter : option Limits.ConnLimiter;
  userRateLimiter : option RateLimit.RateLimiter;
}.

Definition runtimeOptsFromConfig (cfg : Config.Config) : runtimeOpts :=
  mkRuntimeOpts (Config.ClientLoginTimeout cfg) (Config.QueryWaitTimeout cfg) (Config.TCPKeepAlive cfg)
    (Config.HealthCheckTimeout cfg) (Config.ClientWriteTimeout cfg)
    (Relay.mkOpts (Config.IdleTransactionTimeout cfg) (Config.ClientIdleTimeout cfg) (Config.QueryTimeout cfg)
       (Config.ServerResetQuery cfg) (Config.ServerResetQuerySkipSameSession cfg))
    (Startup.mkHandlerOpts (Config.AdminDatabase cfg) false (Startup.adminUserSet (Config.AdminUsers cfg))
       (Config.MaxPreparedStatements cfg) (default [] (Config.TrackExtraParameters cfg)))
    (Server.setMaxClientConn (Config.MaxClientConn cfg)) None None.

Definition with_adminSession (h : Startup.handlerOpts) : Startup.handlerOpts :=
  Startup.mkHandlerOpts (Startup.adminDatabase h) true (Startup.adminUsers h) (Startup.maxPreparedStmts h)
    (Startup.trackExtraParams h).

Definition applyRuntimeLimits (cfg : Config.Config) (o : runtimeOpts) : runtimeOpts :=
  let h := if bool_decide (Startup.adminDatabase (handler o) = "") then handler o else with_adminSession (handler o) in
  let caps := if (0 <? Config.MaxDBConnections cfg) || (0 <? Config.MaxUserConnections cfg)
              then Some (Limits.NewConnLimiter (Config.MaxDBConnections cfg) (Config.MaxUserConnections cfg))
              else connLimiter o in
  let rate := if 0 <? Config.MaxSessionsPerSecPerUser cfg then
                let burst := if Config.MaxSessionsBurstPerUser cfg <=? 0
                             then Config.MaxSessionsPerSecPerUser cfg else Config.MaxSessionsBurstPerUser cfg in
                RateLimit.NewRateLimiter (Config.MaxSessionsPerSecPerUser cfg) burst
              else userRateLimiter o in
  mkRuntimeOpts (clientLoginTimeout o) (queryWaitTimeout o) (tcpKeepAlive o) (healthCheckTimeout o)
    (clientWriteTimeout o) (relayOpts o) h (clientSlots o) caps rate.

Definition runOpts (cfg : Config.Config) : runtimeOpts := applyRuntimeLimits cfg (runtimeOptsFromConfig cfg).

(** ** What run starts with *)

Section state.
Context `{MapRange}.

(** The key store exists when a pool asks for pass-through. *)
Definition wantsKeyStore (cfg : Config.Config) : bool :=
  existsb (λ '(_, pc), Config.ScramPassthrough pc) (range (Config.Pools cfg)).

Definition newRegistry (now : Z) (cfg : Config.Config) : Registry.PoolRegistry :=
  let r := Registry.NewPoolRegistry now (Some cfg) (Config.Pools cfg) in
  if wantsKeyStore cfg then Registry.SetClientKeyStore ∅ r else r.

Definition newAuthLimiter : Limits.authLimiter := Limits.newAuthLimiterWithCapacity Limits.authLimiterCap.

(** The state the connection handlers share. *)
Definition initialShared (now : Z) (cfg : Config.Config) : Startup.shared :=
  Startup.mkShared newAuthLimiter (userRateLimiter (runOpts cfg)) (connLimiter (runOpts cfg))
    (newRegistry now cfg) Session.init_world.

(** The process once its accept loops run: one, or two with a Unix socket. *)
Definition initialSystem (now : Z) (cfg : Config.Config) : Server.sys :=
  Server.start (if bool_decide (Config.UnixSocketDir cfg = "") then 1 else 2) (Config.MaxClientConn cfg)
    (initialShared now cfg).

(** ** Sweeping pass-through pools *)

(** The interval, when a sweep runs at all. *)
Definition startPassthroughReaper (idleFor : Z) : option Z :=
  if idleFor <=? 0 then None else Some (Registry.passthroughReapInterval idleFor).

(** One sweep: the registry afterwards, and the pools that are drained under
    their keys.  The table of sessions is walked before the registry is locked. *)
Definition reapPassthroughPools (now idleFor : Z) (ws : nat → Session.world) (inUse : nat → nat)
    (r : Registry.PoolRegistry) : Registry.PoolRegistry * list (string * nat) :=
  let active := Session.activeSessionPoolKeys ws in
  let '(r', keys, pools) := Registry.EvictIdlePassthrough now idleFor active inUse r in
  (r', zip keys pools).
End state.

(** ** Bringing the process up and down *)

Inductive surface := SData | SMetrics | SAdmin | SUnix.

Inductive runEvent :=
| Bound (x : surface)          (** a listener is open *)
| Accepting (x : surface)      (** its accept loop runs *)
| Serving (x : surface)        (** its HTTP server runs *)
| Closed (x : surface)
| SocketRemoved
| Sweeping | SweepStopped      (** the pass-through reaper *)
| Reloading | ReloadStopped    (** the SIGHUP loop *)
| Ready
| Draining.

Inductive runErr :=
| StartAdmin | StartTLS | StartAudit | StartAuth | ListenData | ListenMetrics | ListenAdmin | ListenUnix
| DrainIncomplete.

(** What can go wrong: the builders, and one flag per listener; [drains] says
    whether the sessions drain in time. *)
Record runEnv := mkRunEnv {
  adminBuilt : bool; tlsBuilt : bool; auditOpened : bool; authBuilt : bool;
  dataListens : bool; metricsListens : bool; adminListens : bool; unixListens : bool;
  drains : bool;
}.

(** From the Unix socket on.  [undo] is what has been deferred so far. *)
Definition serveAll (unix : bool) (drained : bool) (undo : list runEvent) : list runEvent * option runErr :=
  let unixUp := if unix then [Bound SUnix; Accepting SUnix] else [] in
  let unixDown := if unix then [Closed SUnix; SocketRemoved] else [] in
  (unixUp ++ [Serving SMetrics; Serving SAdmin; Reloading; Ready] ++
   (* shutdown *)
   [Closed SData] ++ (if unix then [Closed SUnix] else []) ++ [Draining; Closed SMetrics; Closed SAdmin] ++
   (* the deferred calls, last first *)
   [ReloadStopped] ++ unixDown ++ undo,
   if drained then None else Some DrainIncomplete).

Definition run (cfg : Config.Config) (keyStore : bool) (env : runEnv) : list runEvent * option runErr :=
  let sweeps := keyStore && bool_decide (is_Some (startPassthroughReaper (Config.ScramPassthroughIdleTimeout cfg))) in
  let up := if sweeps then [Sweeping] else [] in
  let undo := if sweeps then [SweepStopped] else [] in
  if negb (adminBuilt env) then (up ++ undo, Some StartAdmin)
  else if negb (tlsBuilt env) then (up ++ undo, Some StartTLS)
  else if negb (auditOpened env) then (up ++ undo, Some StartAudit)
  else if negb (authBuilt env) then (up ++ undo, Some StartAuth)
  else if negb (dataListens env) then (up ++ undo, Some ListenData)
  else
    let up := up ++ [Bound SData] in
    let undo := Closed SData :: undo in
    if negb (metricsListens env) then (up ++ undo, Some ListenMetrics)
    else if negb (adminListens env) then (up ++ [Bound SMetrics; Closed SMetrics] ++ undo, Some ListenAdmin)
    else
      let up := up ++ [Bound SMetrics; Bound SAdmin; Accepting SData] in
      let unix := negb (bool_decide (Config.UnixSocketDir cfg = "")) in
      if unix && negb (unixListens env) then (up ++ [Closed SMetrics; Closed SAdmin] ++ undo, Some ListenUnix)
      else let '(evs, r) := serveAll unix (drains env) undo in (up ++ evs, r).

(** ** Reloading on SIGHUP *)

(** The goroutine of [startConfigReloader]; [RStopped] is after its [done]
    channel is closed. *)
Inductive reload_pc := RWaiting | RApplying | RStopped.

Record reloader := mkReloader {
  pending : bool;              (** the channel of one signal *)
  stopping : bool;             (** the stop channel is closed, or the context done *)
  rpc : reload_pc;
  signals : nat;               (** delivered so far *)
  covered : nat;               (** delivered before the last reload began *)
}.

Inductive reload_step : reloader → reloader → Prop :=
| rl_signal r :
    reload_step r (mkReloader true (stopping r) (rpc r) (S (signals r)) (covered r))
| rl_take r : rpc r = RWaiting → pending r = true →
    reload_step r (mkReloader false (stopping r) RApplying (signals r) (signals r))
| rl_applied r : rpc r = RApplying →
    reload_step r (mkReloader (pending r) (stopping r) RWaiting (signals r) (covered r))
| rl_stop r : reload_step r (mkReloader (pending r) true (rpc r) (signals r) (covered r))
| rl_exit r : rpc r = RWaiting → stopping r = true →
    reload_step r (mkReloader (pending r) (stopping r) RStopped (signals r) (covered r)).

Definition startConfigReloader : reloader := mkReloader false false RWaiting 0 0.

(** ** The command line *)

Record flags := mkFlags {
  configPath : string;
  genVerifierFor : string;
  genAdminPassword : string;
  showVersion : bool;
  healthCheck : bool;
}.

Inductive printed := Version | Verifier (v : string) | Hash (h : string) | Complaint.

(** The exit code and what is printed.  [parsed] is [None] when the flags cannot
    be parsed; the other arguments are what the modes call. *)
Definition cli (parsed : option flags) (verifier hash : string → option string)
    (load : string → result Config.configErr Config.Config) (probe : string → option Health.probeErr)
    (go : Config.Config → option runErr) : Z * list printed :=
  match parsed with
  | None => (2, [])
  | Some f =>
      if showVersion f then (0, [Version])
      else if negb (bool_decide (genVerifierFor f = "")) then
        match verifier (genVerifierFor f) with Some v => (0, [Verifier v]) | None => (1, [Complaint]) end
      else if negb (bool_decide (genAdminPassword f = "")) then
        match hash (genAdminPassword f) with Some h => (0, [Hash h]) | None => (1, [Complaint]) end
      else match load (configPath f) with
           | Err _ => (1, [Complaint])
           | Ok cfg =>
               if healthCheck f then
                 match probe (Config.MetricsAddr cfg) with Some _ => (1, [Complaint]) | None => (0, []) end
               else match go cfg with
                    | None => (0, [])
                    | Some DrainIncomplete => (1, [])
                    | Some _ => (1, [Complaint])
                    end
           end
  end.

End Wiring.
