(* ===== verification/WiringTheorems.v ===== *)
(** * The process as configured

    What the assembled process guarantees in terms of its configuration file:
    who is let in, which limits hold, that nothing stays open, that a reload is
    not lost. *)

From Stdlib Require Import Ascii.
From S2P Require Import Prelude GoStrings Prepared HBA HBATheorems Config ConfigTheorems Pool Registry Scram Session Limits LimitsTheorems RateLimit Startup Server ServerRuns ServerTheorems Relay Health Wiring.
Import Wiring.
Open Scope string_scope.
Open Scope list_scope.
Open Scope Z_scope.

Module WiringTheorems.

#[local] Instance surface_eq_dec : EqDecision surface.
Proof. solve_decision. Defined.
#[local] Instance runEvent_eq_dec : EqDecision runEvent.
Proof. solve_decision. Defined.

#[local] Instance runErr_eq_dec : EqDecision runErr.
Proof. solve_decision. Defined.

(** A closed statement that a decision procedure settles. *)
Ltac decided := first [apply (bool_decide_unpack _); vm_compute; exact I |
                       apply (bool_decide_eq_false _); vm_compute; reflexivity].

(** ** Who is let in *)

Section auth.
Context `{MapRange, HBA.UnicodeFold}.
Context (cv : Scram.conversation) (runes : string → HBA.text).

(** The verifier a login of [user] is checked against. *)
Definition verifier_of (cfg : Config.Config) (lookup : string → option Scram.StoredCredentials) (user : string)
    (c : Scram.StoredCredentials) : Prop :=
  (∃ v, Config.AuthUsers cfg !! user = Some v ∧ Scram.ParseSCRAMVerifier (HBA.lit v) = Ok c) ∨
  Config.AuthUsers cfg !! user = None ∧ Config.AuthQueryDSN cfg ≠ "" ∧ lookup user = Some c.

(** The client completed an exchange that validates against it; a channel-bound
    one only inside TLS. *)
Definition proved (cfg : Config.Config) (lookup : string → option Scram.StoredCredentials) (user : string)
    (l : Scram.login) : Prop :=
  ∃ c mech first final out, verifier_of cfg lookup user c ∧
    Scram.initialMsg l = Scram.SASLInitialResponse mech first ∧ Scram.responseMsg l = Scram.SASLResponse final ∧
    (mech = Scram.PLAIN ∨ mech = Scram.PLUS ∧ Scram.isTLS l = true) ∧
    Scram.conv_final cv c (bool_decide (mech = Scram.PLUS)) first final = Some (out, true).

(** Authentication has been switched off, explicitly. *)
Definition everyone (cfg : Config.Config) : Prop :=
  Config.AllowInsecureTrustAuth cfg = true ∧ Config.AuthUsers cfg = ∅ ∧ Config.AuthQueryDSN cfg = "".

Lemma parseUsers_sound l m user c :
  Scram.parseUsers l = Ok m → m !! user = Some c →
  ∃ v, (user, v) ∈ l ∧ Scram.ParseSCRAMVerifier v = Ok c.
Proof.
  revert m. induction l as [|[u v] l IH]; intros m; simpl; [intros [= <-]; done|].
  destruct (Scram.ParseSCRAMVerifier v) as [c0|] eqn:Ev; [|done].
  destruct (Scram.parseUsers l) as [m0|]; [|done]. intros [= <-]. rewrite lookup_insert_Some.
  intros [[-> ->]|[_ Hm]]; [exists v; split; [by left|done]|].
  destruct (IH m0 eq_refl Hm) as (w & Hw & Hc). exists w. split; [by right|done].
Qed.

Lemma parseUsers_complete l m user : Scram.parseUsers l = Ok m → m !! user = None → ∀ v, (user, v) ∉ l.
Proof.
  revert m. induction l as [|[u v] l IH]; intros m; simpl; [intros _ _ v; apply not_elem_of_nil|].
  destruct (Scram.ParseSCRAMVerifier v) as [c0|] eqn:Ev; [|done].
  destruct (Scram.parseUsers l) as [m0|]; [|done]. intros [= <-]. rewrite lookup_insert_None.
  intros [Hm Hne] w [[= -> ->]|Hw]%elem_of_cons; [done|]. by eapply IH.
Qed.

Lemma Authenticate_proof a user l store sent store' :
  Scram.Authenticate cv a user l store = (sent, store', Ok tt) →
  ∃ c mech first final out, Scram.findCreds a user = Ok c ∧
    Scram.initialMsg l = Scram.SASLInitialResponse mech first ∧ Scram.responseMsg l = Scram.SASLResponse final ∧
    (mech = Scram.PLAIN ∨ mech = Scram.PLUS ∧ Scram.isTLS l = true) ∧
    Scram.conv_final cv c (bool_decide (mech = Scram.PLUS)) first final = Some (out, true).
Proof.
  unfold Scram.Authenticate. destruct (Scram.findCreds a user) as [c|]; [|done].
  destruct (Scram.flushMechs l), (Scram.setSASL l); simpl; try done.
  destruct (Scram.initialMsg l) as [|mech cf| |] eqn:Ei; try done.
  destruct (bool_decide (mech = Scram.PLUS) && _) eqn:Eb; [done|].
  destruct (bool_decide (mech = Scram.PLUS) || bool_decide (mech = Scram.PLAIN)) eqn:Em; [|done].
  unfold Scram.runConversation. destruct (Scram.conv_first _ _ _ _); [|done].
  destruct (Scram.flushContinue l), (Scram.setContinue l); simpl; try done.
  destruct (Scram.responseMsg l) as [| |final|] eqn:Er; try done.
  destruct (Scram.conv_final _ _ _ _ _) as [[out []]|] eqn:Ef; simpl; try done.
  destruct (Scram.flushFinal l); [|done]. intros _.
  exists c, mech, cf, final, out. split_and!; [done..| |done].
  apply orb_true_iff in Em. rewrite !bool_decide_eq_true in Em. destruct Em as [-> | ->]; [|by left].
  right. split; [done|]. rewrite bool_decide_true in Eb by done. simpl in Eb.
  by destruct (Scram.isTLS l).
Qed.

Lemma base_proved cfg lookup m tls user l store sent store' :
  Scram.parseUsers (range (HBA.lit <$> Config.AuthUsers cfg)) = Ok m →
  Scram.Authenticate cv (if bool_decide (Config.AuthQueryDSN cfg = "") then Scram.mkAuth m None tls
                         else setDynamicLookup lookup (Scram.mkAuth m None tls)) user l store = (sent, store', Ok tt) →
  proved cfg lookup user l.
Proof.
  intros Hm Ha. apply Authenticate_proof in Ha as (c & mech & cf & final & out & Hc & H1 & H2 & H3 & H4).
  exists c, mech, cf, final, out. split_and!; [|done..]. clear H1 H2 H3 H4.
  assert (Hs : ∀ v, (user, v) ∈ range (HBA.lit <$> Config.AuthUsers cfg) →
                ∃ w, Config.AuthUsers cfg !! user = Some w ∧ v = HBA.lit w).
  { intros v Hv. apply elem_of_range in Hv. rewrite lookup_fmap in Hv.
    destruct (Config.AuthUsers cfg !! user) as [w|]; [|done]. simplify_eq/=. by exists w. }
  unfold Scram.findCreds in Hc. destruct (m !! user) as [c0|] eqn:Eu.
  - assert (c0 = c) as -> by (case_bool_decide; simpl in Hc; rewrite Eu in Hc; congruence).
    destruct (parseUsers_sound _ _ _ _ Hm Eu) as (v & Hv & Hp). destruct (Hs v Hv) as (w & Hw & ->).
    left. by exists w.
  - right. case_bool_decide as Ed; simpl in Hc; rewrite Eu in Hc; [done|].
    split_and!; [|done|by destruct (lookup user); simplify_eq].
    destruct (Config.AuthUsers cfg !! user) as [w|] eqn:Ew; [|done].
    destruct (parseUsers_complete _ _ _ Hm Eu (HBA.lit w)). apply elem_of_range. by rewrite lookup_fmap, Ew.
Qed.

Lemma base_accepts cfg tls lookup b c user db l store store' :
  ConfigTheorems.WellConfigured cfg → baseBackend cfg tls lookup = Ok b →
  authenticate cv runes b c user db l store = (HBA.Accept, store') →
  everyone cfg ∨ proved cfg lookup user l.
Proof.
  intros Hw. unfold baseBackend. destruct (negb _ || negb _) eqn:Eb; last first.
  { intros [= <-] _. left. apply orb_false_iff in Eb as [E1 E2].
    apply negb_false_iff, bool_decide_eq_true in E1. apply negb_false_iff, bool_decide_eq_true in E2.
    split; [by apply (ConfigTheorems.wc_auth cfg Hw)|done]. }
  unfold newSCRAM, Scram.NewSCRAMAuth. destruct (Scram.parseUsers _) as [m|[]] eqn:Em; [|done]. simpl.
  destruct tls as [[]|]; [|done|]; simpl; intros [= <-]; cbn [authenticate];
    destruct (Scram.Authenticate cv _ user l store) as [[sent st] [[]|]] eqn:Ea; try done;
    intros _; right; by eapply base_proved.
Qed.

Lemma with_inner_accepts rules c user db ok :
  HBATheorems.accepted_by rules (with_inner ok c) user db →
  ∃ pre r post, rules = pre ++ r :: post ∧
    forallb (λ q, negb (HBA.matches (HBA.isTLS c) (HBA.isUnix c) (HBA.remoteIP c) user db q)) pre = true ∧
    HBA.matches (HBA.isTLS c) (HBA.isUnix c) (HBA.remoteIP c) user db r = true ∧
    match HBA.Method r with
    | HBA.HBAMethodTrust => True
    | HBA.HBAMethodReject => False
    | HBA.HBAMethodSCRAM => ok = true
    | HBA.HBAMethodPeer => HBA.isUnix c = true ∧ HBA.peerUser c = Some user
    | HBA.HBAMethodCert => HBA.isTLS c = true ∧ HBA.peerCN c = Some user
    end.
Proof. done. Qed.

(** The terms on which a login of [user] to [db] is let in. *)
Definition let_in cfg lookup (rules : list HBA.HBARule) (c : HBA.connection) (user db : string) (l : Scram.login) : Prop :=
  let inner := everyone cfg ∨ proved cfg lookup user l in
  match rules with
  | [] => inner
  | _ => ∃ pre r post, rules = pre ++ r :: post ∧
      forallb (λ q, negb (HBA.matches (HBA.isTLS c) (HBA.isUnix c) (HBA.remoteIP c) (runes user) (runes db) q)) pre = true ∧
      HBA.matches (HBA.isTLS c) (HBA.isUnix c) (HBA.remoteIP c) (runes user) (runes db) r = true ∧
      match HBA.Method r with
      | HBA.HBAMethodTrust => True
      | HBA.HBAMethodReject => False
      | HBA.HBAMethodSCRAM => inner
      | HBA.HBAMethodPeer => HBA.isUnix c = true ∧ HBA.peerUser c = Some (runes user)
      | HBA.HBAMethodCert => HBA.isTLS c = true ∧ HBA.peerCN c = Some (runes user)
      end
  end.

Lemma login_terms cfg tls lookup file b c user db l store store' rules :
  ConfigTheorems.WellConfigured cfg → buildAuthBackend cfg tls lookup file = Ok b →
  LoadHBAFile (Config.AuthHBAFile cfg) file = Ok rules →
  authenticate cv runes b c user db l store = (HBA.Accept, store') →
  let_in cfg lookup rules c user db l.
Proof.
  intros Hw Hb Hl Ha. unfold let_in. set (inner := everyone cfg ∨ proved cfg lookup user l).
  unfold buildAuthBackend in Hb.
  destruct (baseBackend cfg tls lookup) as [b0|] eqn:E0; [|done].
  destruct rules as [|r0 rules].
  { assert (b = b0) as ->.
    { revert Hb. rewrite Hl. case_bool_decide; by intros [= <-]. }
    by eapply base_accepts. }
  assert (b = UseHBA (r0 :: rules) b0) as ->.
  { revert Hb. rewrite Hl. case_bool_decide as E; [|by intros [= <-]]. unfold LoadHBAFile in Hl.
    by rewrite bool_decide_true in Hl. }
  assert (Hok : ∃ ok, HBA.Authenticate (r0 :: rules) (with_inner ok c) (runes user) (runes db) = HBA.Accept ∧
    (ok = true → inner)).
  { cbn [authenticate] in Ha. destruct (HBA.MatchHBA _ _ _ _ _ _) as [r|]; [destruct (HBA.Method r)|].
    all: try (exists false; split; [congruence|done]).
    destruct (authenticate cv runes b0 c user db l store) as [[|] st] eqn:Ei; [|exists false; split; [congruence|done]].
    exists true. split; [congruence|]. intros _. by eapply base_accepts. }
  destruct Hok as (ok & Hok & Hin).
  apply HBATheorems.accept_terms, with_inner_accepts in Hok as (pre & r & post & E & Hp & Hm & Ht).
  exists pre, r, post. split_and!; [done..|]. destruct (HBA.Method r); auto.
Qed.

(** C10: Whoever gets in has been let in by the configuration: through the
    process that is built from an accepted configuration, a login succeeds only
    on the terms of the first pg_hba rule that matches it, if there are rules:
    a trust rule, a Unix socket owned by the user, a client certificate in the
    user's name.  Without rules, and where the rule that matches is a scram-sha-256
    one, the client has completed a SCRAM exchange that validates against the
    verifier listed for the user, or fetched by the configured auth_query for a
    user that is not listed; or authentication was switched off explicitly
    (allow_insecure_trust_auth) with nobody listed and no auth_query, and then
    everybody gets in there, also through a scram-sha-256 rule. *)
Theorem login_authenticated cfg tls lookup file b c user db l store store' rules :
  ConfigTheorems.WellConfigured cfg → buildAuthBackend cfg tls lookup file = Ok b →
  LoadHBAFile (Config.AuthHBAFile cfg) file = Ok rules →
  authenticate cv runes b c user db l store = (HBA.Accept, store') →
  let inner := everyone cfg ∨ proved cfg lookup user l in
  match rules with
  | [] => inner
  | _ => ∃ pre r post, rules = pre ++ r :: post ∧
      forallb (λ q, negb (HBA.matches (HBA.isTLS c) (HBA.isUnix c) (HBA.remoteIP c) (runes user) (runes db) q)) pre = true ∧
      HBA.matches (HBA.isTLS c) (HBA.isUnix c) (HBA.remoteIP c) (runes user) (runes db) r = true ∧
      match HBA.Method r with
      | HBA.HBAMethodTrust => True
      | HBA.HBAMethodReject => False
      | HBA.HBAMethodSCRAM => inner
      | HBA.HBAMethodPeer => HBA.isUnix c = true ∧ HBA.peerUser c = Some (runes user)
      | HBA.HBAMethodCert => HBA.isTLS c = true ∧ HBA.peerCN c = Some (runes user)
      end
  end.
Proof. apply login_terms. Qed.

(** A scram-sha-256 rule asks for a password only if somebody has one: without
    users and with the trust switch on, the rule lets everybody in. *)
Theorem scram_rule_without_users cfg rules c user db l store r :
  everyone cfg → HBA.MatchHBA rules (HBA.isTLS c) (HBA.isUnix c) (HBA.remoteIP c) (runes user) (runes db) = Some r →
  HBA.Method r = HBA.HBAMethodSCRAM → rules ≠ [] →
  ∃ b, baseBackend cfg None (λ _, None) = Ok b ∧ (authenticate cv runes (gate rules b) c user db l store).1 = HBA.Accept.
Proof.
  intros (_ & Hu & Hq) Hm Hr Hne. exists TrustAuth. unfold baseBackend. rewrite Hu, Hq, !bool_decide_true by done.
  split; [done|]. destruct rules as [|r0 rules]; [done|]. cbn [gate authenticate]. rewrite Hm, Hr. cbn [fst].
  unfold HBA.Authenticate. cbn [with_inner HBA.isTLS HBA.isUnix HBA.remoteIP HBA.innerOk]. by rewrite Hm, Hr.
Qed.

End auth.

(** ** Limits of the configured process *)

Section limits.
Context `{MapRange}.
Implicit Type cfg : Config.Config.

Abbreviation listeners cfg := (if bool_decide (Config.UnixSocketDir cfg = "") then 1%nat else 2%nat).

Abbreviation reached now cfg s :=
  (rtc (Server.sstep (handler (runOpts cfg))) (initialSystem now cfg) s).

Lemma initial_fresh now cfg :
  ServerTheorems.fresh (Config.MaxDBConnections cfg) (Config.MaxUserConnections cfg) (initialShared now cfg).
Proof.
  split; [done|]. unfold initialShared, runOpts, applyRuntimeLimits. simpl.
  destruct (_ || _); [by right|by left].
Qed.

Lemma configured_users cfg :
  Startup.adminUsers (handler (runOpts cfg)) = Startup.adminUserSet (Config.AdminUsers cfg) ∧
  Startup.adminDatabase (handler (runOpts cfg)) = Config.AdminDatabase cfg.
Proof. unfold runOpts, applyRuntimeLimits. simpl. by destruct (bool_decide _). Qed.

(** The caps stay on. *)
Lemma hstep_caps o remote x h i x' h' out :
  Startup.hstep o remote x h i = Some (x', h', out) →
  is_Some (Startup.caps x) → is_Some (Startup.caps x').
Proof.
  intros Hx Hc. destruct h, i; simpl in Hx; try done;
    repeat (case_match; simplify_eq/=; try done); simplify_eq/=; try done.
  - unfold Limits.Reserve in *. destruct (Startup.caps x); [|by destruct Hc]. repeat case_match; simplify_eq; done.
  - destruct Hc as [c ->]. by eexists.
Qed.

Lemma caps_stay o s s' :
  rtc (Server.sstep o) s s' → is_Some (Startup.caps (Server.shr (Server.proc s))) →
  is_Some (Startup.caps (Server.shr (Server.proc s'))).
Proof.
  induction 1 as [|s1 s2 s3 Hs _ IH]; [done|]. intros Hc. apply IH. clear IH.
  destruct Hs as [p ts1 t ts2 p' t' new Ht|]; [|done]. simpl in *.
  destruct Ht; simpl; try done. by eapply hstep_caps.
Qed.


(** The admin console belongs to the file's admin_users: in the process
    that run starts, a console session is that of an authenticated client who
    asked for admin_database by name and is listed; with an empty list, or with
    no admin database, there is none. *)
Theorem configured_console now cfg s r msg p l :
  reached now cfg s →
  Server.TConn r (Server.CRun (Startup.HServe msg Startup.Console p l)) ∈ Server.threads s →
  Config.AdminDatabase cfg ≠ "" ∧ Startup.parameter "database" msg = Config.AdminDatabase cfg ∧
  Startup.parameter "user" msg ∈ Config.AdminUsers cfg.
Proof.
  intros Hr Hin. destruct (configured_users cfg) as [Hu Hd].
  destruct (ServerTheorems.console_allowlisted _ _ _ _ _ _ _ _ _ _ _ _ (initial_fresh now cfg) Hr Hu Hin)
    as (H1 & H2 & _ & H3 & _).
  by rewrite Hd in *.
Qed.

End limits.

(** ** A configured process *)

Definition ann_verifier : string :=
  "SCRAM-SHA-256$4096:c2FsdA==$BwcHBwcHBwcHBwcHBwcHBwcHBwcHBwcHBwcHBwcHBwc=:CQkJCQkJCQkJCQkJCQkJCQkJCQkJCQkJCQkJCQkJCQk=".

(** A configuration with these users and pools. *)
Definition shop_with : gmap string string → gmap string Config.PoolConfig → Config.Config := ConfigTheorems.sample_config.

Definition shop_config : Config.Config := shop_with {[ "ann" := ann_verifier ]} {[ "shop" := ServerRuns.day_pool ]}.

Lemma shop_well_configured : ConfigTheorems.WellConfigured shop_config.
Proof.
  constructor; try done.
  intros name pc Hp. change (Config.Pools shop_config) with ({[ "shop" := ServerRuns.day_pool ]} : gmap string Config.PoolConfig) in Hp.
  apply lookup_singleton_Some in Hp as [<- <-]. repeat split; done.
Qed.

(** The state after a run of the demonstration. *)
Definition shop_after (ms : list (nat * ServerRuns.choice)) : Server.sys :=
  ServerRuns.after (handler (runOpts shop_config)) 1 2 (initialShared 0 shop_config) ms.


Lemma configured_console_witness :
  ∃ msg l, Server.TConn "10.0.0.7" (Server.CRun (Startup.HServe msg Startup.Console 78 l))
             ∈ Server.threads (shop_after ServerRuns.admin_in) ∧
    Startup.parameter "user" msg ∈ ["root"].
Proof.
  eexists _, _.
  assert (Hin : Server.TConn "10.0.0.7" (Server.CRun (Startup.HServe (Startup.mkStartup (<[ "user" := "root" ]> {[ "database" := "pgman" ]}))
    Startup.Console 78 0)) ∈ Server.threads (shop_after ServerRuns.admin_in)) by (vm_compute; left).
  split; [exact Hin|].
  exact (proj2 (proj2 (configured_console 0 shop_config _ _ _ _ _ (ServerRuns.after_reachable _ _ _ _ _) Hin))).
Defined.

#[local] Instance plain_fold : HBA.UnicodeFold := λ r, r.

(** A server conversation that accepts one proof. *)
Definition one_proof : Scram.conversation :=
  Scram.mkConv (λ _ _ _, Some (HBA.lit "r=n,s=,i=1"))
    (λ _ _ _ final, if bool_decide (final = HBA.lit "proof") then Some (HBA.lit "v=", true) else None).

Definition ann_login : Scram.login :=
  Scram.mkLogin false true true (Scram.SASLInitialResponse Scram.PLAIN (HBA.lit "n,,n=,r=n")) true true
    (Scram.SASLResponse (HBA.lit "proof")) true.

Definition ann_backend : AuthBackend :=
  match buildAuthBackend shop_config None (λ _, None) None with Ok b => b | Err _ => TrustAuth end.

Lemma login_authenticated_witness :
  proved one_proof shop_config (λ _, None) "ann" ann_login.
Proof.
  assert (Hin : let inner := everyone shop_config ∨ proved one_proof shop_config (λ _, None) "ann" ann_login in inner).
  { refine (login_authenticated one_proof HBA.lit shop_config None (λ _, None) None ann_backend
      (HBA.mkConn false false None None false None false) "ann" "shop" ann_login None None []
      shop_well_configured _ _ _); vm_compute; reflexivity. }
  destruct Hin as [(Hx & _)|Hp]; [discriminate Hx|exact Hp].
Defined.

(** ** Up and down *)

Fixpoint still_open (open : list surface) (evs : list runEvent) : list surface :=
  match evs with
  | [] => open
  | Bound x :: evs => still_open (x :: open) evs
  | Closed x :: evs => still_open (filter (λ y, y ≠ x) open) evs
  | _ :: evs => still_open open evs
  end.

Fixpoint upto (e : runEvent) (evs : list runEvent) : list runEvent :=
  match evs with [] => [] | x :: evs => if bool_decide (x = e) then [] else x :: upto e evs end.

Ltac settled := simpl; split_and!;
  [reflexivity|by decided|
   intros Hr x; destruct x; (by auto) || (right; by decided) || (by exfalso; revert Hr; decided)].

(** Whatever fails on the way up, nothing stays open: every listener that was
    bound is closed again by the time run returns.  The process announces itself
    exactly when it has not failed to start, and only once everything it was
    asked for is bound. *)
Theorem run_leaves_nothing_open cfg keyStore env :
  let '(evs, r) := run cfg keyStore env in
  still_open [] evs = [] ∧
  (Ready ∈ evs ↔ r = None ∨ r = Some DrainIncomplete) ∧
  (Ready ∈ evs → ∀ x, x = SUnix ∧ Config.UnixSocketDir cfg = "" ∨ Bound x ∈ upto Ready evs).
Proof.
  unfold run, serveAll. cbv zeta.
  destruct (keyStore && _); destruct (bool_decide (Config.UnixSocketDir cfg = "")) eqn:Eu;
    [apply bool_decide_eq_true in Eu| |apply bool_decide_eq_true in Eu|];
    (destruct (adminBuilt env), (tlsBuilt env), (auditOpened env), (authBuilt env); try by settled);
    (destruct (dataListens env); [|by settled]); (destruct (metricsListens env); [|by settled]);
    (destruct (adminListens env); [|by settled]); destruct (unixListens env), (drains env); by settled.
Qed.

(** The accept loop of the TCP listener runs before the Unix socket is bound:
    a client can be served by a process that then fails to start. *)
Theorem accepts_before_bound cfg keyStore env :
  Config.UnixSocketDir cfg ≠ "" → adminBuilt env && tlsBuilt env && auditOpened env && authBuilt env = true →
  dataListens env && metricsListens env && adminListens env = true → unixListens env = false →
  ∃ evs, run cfg keyStore env = (evs, Some ListenUnix) ∧ Accepting SData ∈ evs.
Proof.
  intros Hu Ha Hl Hx. unfold run. cbv zeta. rewrite (bool_decide_false (Config.UnixSocketDir cfg = "")) by done.
  rewrite Hx. destruct (adminBuilt env), (tlsBuilt env), (auditOpened env), (authBuilt env); try done.
  destruct (dataListens env), (metricsListens env), (adminListens env); try done. simpl.
  eexists. split; [reflexivity|]. rewrite !elem_of_app, !elem_of_cons. tauto.
Qed.

(** ** Reloads *)

(** No SIGHUP is lost: every signal that has been delivered is followed by a
    reload that begins after it, or is still waiting to be taken; and once the
    stop function has returned no reload runs. *)
Theorem reload_covers_signals r :
  rtc reload_step startConfigReloader r →
  (covered r = signals r ∨ pending r = true) ∧
  (rpc r = RStopped → ∀ r', rtc reload_step r r' → rpc r' = RStopped).
Proof.
  intros Hr. split.
  - eapply (rtc_ind_r (λ r, covered r = signals r ∨ pending r = true) startConfigReloader); [by left| |exact Hr].
    intros r1 r2 _ Hs IH. destruct Hs; simpl; auto.
  - clear Hr. intros Hp r' Hr'. revert Hp. induction Hr' as [|r1 r2 r3 Hs _ IH]; [done|]. intros Hp. apply IH.
    destruct Hs; simpl; congruence.
Qed.

Section keystore.
Context `{MapRange}.

Lemma foldl_keeps {A B C} (g : A → C) (f : A → B → A) l a : (∀ a x, g (f a x) = g a) → g (foldl f a l) = g a.
Proof. intros Hf. revert a. induction l as [|x l IH]; intros a; [done|]. simpl. by rewrite IH, Hf. Qed.

Lemma addEntries_keys t n c r : Registry.keys (Registry.addEntries t n c r) = Registry.keys r.
Proof.
  unfold Registry.addEntries. cbv zeta.
  rewrite (foldl_keeps Registry.keys) by (by intros ? []). done.
Qed.

Lemma takeEntries_keys n r : Registry.keys (Registry.takeEntries n r).2 = Registry.keys r.
Proof. unfold Registry.takeEntries. simpl. by case_bool_decide. Qed.

Lemma applyPools_keys t pools r : Registry.keys (Registry.applyPools t pools r).1 = Registry.keys r.
Proof.
  unfold Registry.applyPools. cbv zeta. set (g := λ x : Registry.PoolRegistry * Registry.ReloadResult, Registry.keys x.1).
  change (g (foldl (Registry.removeOne pools)
    (foldl (Registry.applyOne t pools (Registry.PoolNames r)) (r, Registry.noResult)
       (Registry.sort_strings (range pools).*1)) (Registry.PoolNames r)) = g (r, Registry.noResult)).
  rewrite !(foldl_keeps g); [done|..]; intros [r1 x] n; unfold g.
  - unfold Registry.applyOne, Registry.Reconfigure, Registry.Add. pose proof (takeEntries_keys n r1) as Ht.
    destruct (Registry.takeEntries n r1) as [old r2]. simpl in Ht.
    repeat (case_match; simplify_eq/=; try done); rewrite addEntries_keys; done.
  - unfold Registry.removeOne, Registry.Remove. pose proof (takeEntries_keys n r1) as Ht.
    destruct (Registry.takeEntries n r1) as [old r2]. simpl in Ht.
    repeat (case_match; simplify_eq/=; try done).
Qed.

(** A key store is only made at the start: a reload that turns scram_passthrough
    on leaves every user without a DSN of their own on the shared backend role. *)
Theorem reload_cannot_enable_passthrough now t cfg pools pc user :
  wantsKeyStore cfg = false → Config.users pc !! user = None →
  Registry.backendIdentityFor (Registry.applyPools t pools (newRegistry now cfg)).1 pc user = ("", false).
Proof.
  intros Hk Hu. unfold Registry.backendIdentityFor, Registry.has_key.
  rewrite applyPools_keys. unfold newRegistry. rewrite Hk. unfold Registry.NewPoolRegistry.
  rewrite (foldl_keeps Registry.keys) by (intros ? []; apply addEntries_keys). simpl.
  rewrite Hu, andb_false_r. by case_bool_decide.
Qed.
End keystore.

End WiringTheorems.
