(* ===== verification/Sockets.v ===== *)
(** * The Unix socket and the writes to a client

    src/unix_socket.go: where the socket is put, what is removed before and
    after, and the mode it gets.  src/client_write.go: the deadline around each
    write towards a client.  The results of the system calls are inputs; the
    calls made are the output. *)

From Stdlib Require Import Ascii.
From stdpp Require Import pretty.
From S2P Require Import Prelude GoStrings HBA BackendAddr Scram.
Open Scope string_scope.
Open Scope list_scope.
Open Scope Z_scope.

Module Sockets.

(** ** Where the socket is *)

Definition socketPort (listenAddr : string) : Z :=
  match BackendAddr.SplitHostPort (HBA.lit listenAddr) with
  | Some (_, portStr) => default 5432 (Scram.Atoi portStr)
  | None => 5432
  end.

(** [path.Clean] on segments: two dots take the segment before with them; at the
    root they go, at the start of a relative path they stay. *)
Definition clean_step (rooted : bool) (stack : list string) (seg : string) : list string :=
  if bool_decide (seg = "") || bool_decide (seg = ".") then stack
  else if bool_decide (seg = "..") then
    match stack with
    | [] => if rooted then [] else [".."]
    | top :: rest => if bool_decide (top = "..") then ".." :: stack else rest
    end
  else seg :: stack.

Definition rooted (p : string) : bool := HasPrefix p "/".

Definition Clean (p : string) : string :=
  let segs := reverse (foldl (clean_step (rooted p)) [] (split_byte "/" p)) in
  if rooted p then "/" +:+ join_byte "/" segs
  else match segs with [] => "." | _ => join_byte "/" segs end.

(** [filepath.Join(dir, name)]: an empty element is left out. *)
Definition Join (dir name : string) : string :=
  Clean (if bool_decide (dir = "") then name else dir +:+ "/" +:+ name).

Definition socketPath (socketDir listenAddr : string) : string :=
  Join socketDir (".s.PGSQL." +:+ pretty (socketPort listenAddr)).

(** ** The mode *)

(** [strconv.ParseUint(s, 8, 32)] *)
Fixpoint octal (acc : Z) (s : string) : option Z :=
  match s with
  | EmptyString => Some acc
  | String c s => let d := Z.of_nat (byte_of c) - 48 in
                  if (0 <=? d) && (d <=? 7) then octal (8 * acc + d) s else None
  end.
Definition ParseMode (s : string) : option Z :=
  if bool_decide (s = "") then None
  else match octal 0 s with Some v => if v <? 2 ^ 32 then Some v else None | None => None end.

Definition defaultMode : Z := 511.    (** 0o777 *)

Definition socketMode (modeStr : string) : Z := default defaultMode (ParseMode (TrimSpace modeStr)).

(** ** Opening it *)

Inductive call :=
| MkdirAll (dir : string)
| Remove (path : string)
| Listen (path : string)
| Chmod (path : string) (mode : Z)
| CloseListener.

Inductive removal := Removed | NotExist | RemoveFailed.

Record fsEnv := mkFS { mkdirOk : bool; removal_is : removal; listenOk : bool; chmodOk : bool }.

Inductive socketErr := MkdirErr | RemoveErr | ListenErr | ChmodErr.

Definition openUnixSocket (socketDir listenAddr modeStr : string) (env : fsEnv) :
  list call * result socketErr string :=
  let path := socketPath socketDir listenAddr in
  let mode := socketMode modeStr in
  if negb (mkdirOk env) then ([MkdirAll socketDir], Err MkdirErr)
  else match removal_is env with
       | RemoveFailed => ([MkdirAll socketDir; Remove path], Err RemoveErr)
       | _ =>
           let calls := [MkdirAll socketDir; Remove path; Listen path] in
           if negb (listenOk env) then (calls, Err ListenErr)
           else if negb (chmodOk env)
           then (calls ++ [Chmod path mode; CloseListener; Remove path], Err ChmodErr)
           else (calls ++ [Chmod path mode], Ok path)
       end.

(** ** Writing to a client *)

(** [newClientWriter]: [None] writes to the connection itself. *)
Definition newClientWriter (timeout : Z) : option Z := if timeout <=? 0 then None else Some timeout.

(** The connection's write deadline, and the bytes the kernel took. *)
Record wconn := mkWConn { deadline : option Z; written : list Z }.

Inductive writeErr := DeadlineErr | WriteErr.

(** [taken] is how many bytes a write gets through before it fails, if it does;
    [canSet] and [canClear] are whether the deadline can be set. *)
Definition rawWrite (b : list Z) (taken : option nat) (c : wconn) : wconn * nat * option writeErr :=
  match taken with
  | None => (mkWConn (deadline c) (written c ++ b), length b, None)
  | Some n => (mkWConn (deadline c) (written c ++ take n b), Nat.min n (length b), Some WriteErr)
  end.

Definition Write (w : option Z) (now : Z) (b : list Z) (canSet canClear : bool) (taken : option nat) (c : wconn) :
  wconn * nat * option writeErr :=
  match w with
  | None => rawWrite b taken c
  | Some timeout =>
      if negb canSet then (c, 0%nat, Some DeadlineErr)
      else
        let '(c, n, e) := rawWrite b taken (mkWConn (Some (now + timeout)) (written c)) in
        (if canClear then mkWConn None (written c) else c, n, e)
  end.

(** ** What is left behind *)

Definition listening (calls : list call) : bool :=
  foldl (λ up c, match c with Listen _ => true | CloseListener => false | _ => up end) false calls.

(** The socket: opened only when every step worked, and then under the name
    libpq looks for and with the mode asked for; a failure after the bind closes
    the listener and removes the file again, and nothing but that name is ever
    removed. *)
Theorem openUnixSocket_exact socketDir listenAddr modeStr env :
  let '(calls, r) := openUnixSocket socketDir listenAddr modeStr env in
  let path := socketPath socketDir listenAddr in
  (is_ok r = true ↔ mkdirOk env = true ∧ removal_is env ≠ RemoveFailed ∧ listenOk env = true ∧ chmodOk env = true) ∧
  (∀ p, r = Ok p → p = path ∧ listening calls = true ∧ last calls = Some (Chmod path (socketMode modeStr))) ∧
  (is_ok r = false → listenOk env = true → listening calls = false) ∧
  (r = Err ChmodErr → last calls = Some (Remove path)) ∧
  (∀ p, Remove p ∈ calls → p = path).
Proof.
  unfold openUnixSocket. cbv zeta.
  destruct env as [[] [] [] []]; simpl; split_and!; try done; try (intros ? [= <-]; done); try set_solver.
  all: split; [done|]; by intros (? & ? & ? & ?).
Qed.

(** A write leaves no deadline behind it, whether it succeeds or not, and puts
    on the connection exactly the bytes it reports, in front of nothing else. *)
Theorem write_clears_deadline w now b canSet taken c :
  deadline c = None →
  let '(c', n, e) := Write w now b canSet true taken c in
  deadline c' = None ∧ written c' = written c ++ take n b ∧ (e = None → n = length b).
Proof.
  intros Hd. assert (Hm : ∀ n, take n b = take (n `min` length b) b).
  { intros n. destruct (Nat.le_ge_cases n (length b)); [by rewrite Nat.min_l|].
    by rewrite Nat.min_r, firstn_all, take_ge. }
  unfold Write, rawWrite. destruct w as [t|], taken as [n|], canSet; simpl;
    rewrite ?take_0, ?app_nil_r, ?firstn_all, <-?Hm; done.
Qed.

(** A mode that is not octal, such as the one Go and Python write with a prefix,
    opens the socket to everybody. *)
Lemma mode_fallback : socketMode "0o770" = defaultMode ∧ socketMode "0770" = 504 ∧ socketMode "" = defaultMode.
Proof. done. Qed.

Lemma socket_path_example : socketPath "/var/run/pgman/" "0.0.0.0:6432" = "/var/run/pgman/.s.PGSQL.6432".
Proof. by vm_compute. Qed.

End Sockets.
