(* ===== verification/Metrics.v ===== *)
(** * What is exported

    src/metrics.go, src/pgbouncer_metrics.go and newMetricsServer of
    src/main.go: the two collectors that read the pools at scrape time, the
    counters of reloads and evictions, the server that answers scrapes and
    probes, and that the PgBouncer names are aliases of pgman's own.  A sample is
    a metric name, its label and its value; the client library is not modelled. *)

From Stdlib Require Import Ascii.
From S2P Require Import Prelude BackendAddr Config Pool Registry RateLimit Health AdminServer.
Open Scope string_scope.
Open Scope list_scope.
Open Scope Z_scope.

Module Metrics.

Inductive kind := GaugeValue | CounterValue.

Record sample := mkSample { metric : string; mtype : kind; value : RateLimit.float64; label : string }.

Definition f (n : Z) : RateLimit.float64 := RateLimit.of_int n.

(** [poolsCollector.Collect] for one pool. *)
Definition collectPool (name : string) (s : Pool.Stats) : list sample :=
  [mkSample "pgman_pool_limit" GaugeValue (f (Z.of_nat (Pool.Limit s))) name;
   mkSample "pgman_pool_in_use" GaugeValue (f (Z.of_nat (Pool.InUse s))) name;
   mkSample "pgman_pool_idle" GaugeValue (f (Z.of_nat (Pool.Idle s))) name;
   mkSample "pgman_pool_waiting" GaugeValue (f (Pool.Waiting s)) name;
   mkSample "pgman_pool_acquire_total" CounterValue (f (Pool.WaitCount s)) name;
   mkSample "pgman_pool_acquire_seconds_total" CounterValue (RateLimit.Seconds (Pool.WaitTime s)) name;
   mkSample "pgman_pool_discards_total" CounterValue (f (Pool.Discards s)) name;
   mkSample "pgman_pool_dial_errors_total" CounterValue (f (Pool.DialErrors s)) name;
   mkSample "pgman_pool_reaped_total" CounterValue (f (Pool.Reaped s)) name;
   mkSample "pgman_pool_circuit_open" GaugeValue (f (if Pool.StatsCircuitOpen s then 1 else 0)) name].

(** [pgbouncerCollector.Collect] for one pool. *)
Definition collectAlias (name : string) (s : Pool.Stats) : list sample :=
  [mkSample "pgbouncer_pools_server_active_connections" GaugeValue (f (Z.of_nat (Pool.InUse s))) name;
   mkSample "pgbouncer_pools_server_idle_connections" GaugeValue (f (Z.of_nat (Pool.Idle s))) name;
   mkSample "pgbouncer_pools_client_waiting_connections" GaugeValue (f (Pool.Waiting s)) name;
   mkSample "pgbouncer_databases_pool_size" GaugeValue (f (Z.of_nat (Pool.Limit s))) name;
   mkSample "pgbouncer_databases_current_connections" GaugeValue (f (Z.of_nat (Pool.InUse s + Pool.Idle s))) name;
   mkSample "pgbouncer_stats_queries_pooled_total" CounterValue (f (Pool.WaitCount s)) name].

Section collect.
Context `{MapRange}.

(** [Collect]: the pools of one snapshot of the registry, each read on its own. *)
Definition Collect (one : string → Pool.Stats → list sample) (stats : nat → Pool.Stats)
    (r : Registry.PoolRegistry) : list sample :=
  range (Registry.pool <$> Registry.entries r) ≫= λ '(name, p), one name (stats p).

(** ** Counters *)

Record reloadCounters := mkReloadCounters { applied : nat; failed : nat; byAction : gmap string nat }.

Definition bump (action : string) (names : list string) (m : gmap string nat) : gmap string nat :=
  match names with
  | [] => m
  | _ => <[ action := (default 0 (m !! action) + length names)%nat ]> m
  end.

(** [observeConfigReload] *)
Definition observeConfigReload (res : result Config.configErr Registry.ReloadResult) (c : reloadCounters) :
  reloadCounters :=
  match res with
  | Err _ => mkReloadCounters (applied c) (S (failed c)) (byAction c)
  | Ok x => mkReloadCounters (S (applied c)) (failed c)
      (foldl (λ m '(action, names), bump action names m) (byAction c)
         (range ({[ "added" := Registry.Added x; "removed" := Registry.Removed x;
                    "reconfigured" := Registry.Reconfigured x ]} : gmap string (list string))))
  end.

Definition observePassthroughEvictions (n : nat) (total : nat) : nat := if (n =? 0)%nat then total else (total + n)%nat.

(** ** The metrics server *)

Inductive page := Scrape | Liveness | Readiness.

Definition metricsRoutes : list (AdminServer.route page) :=
  [AdminServer.mkRoute "GET" [AdminServer.Lit "metrics"] Scrape;
   AdminServer.mkRoute "GET" [AdminServer.Lit "health"] Liveness;
   AdminServer.mkRoute "GET" [AdminServer.Lit "ready"] Readiness].

(** The status of an answer; a scrape that succeeds is 200. *)
Definition newMetricsServer (stats : nat → Pool.Stats) (draining : bool) (r1 r2 : Registry.PoolRegistry)
    (method path : string) : Z :=
  match AdminServer.findHandler metricsRoutes method path with
  | AdminServer.Found Scrape _ => 200
  | AdminServer.Found Liveness _ => fst Health.healthHandler
  | AdminServer.Found Readiness _ => fst (Health.readyHandler stats draining r1 r2)
  | AdminServer.MovedTo _ => 301
  | AdminServer.MethodNotAllowed => 405
  | AdminServer.NotFound => 404
  end.

(** ** The aliases *)

Definition aliases : list (string * string) :=
  [("pgbouncer_pools_server_active_connections", "pgman_pool_in_use");
   ("pgbouncer_pools_server_idle_connections", "pgman_pool_idle");
   ("pgbouncer_pools_client_waiting_connections", "pgman_pool_waiting");
   ("pgbouncer_databases_pool_size", "pgman_pool_limit");
   ("pgbouncer_stats_queries_pooled_total", "pgman_pool_acquire_total")].

(** The PgBouncer names show the same numbers: whatever pgman exports under one
    of its names for a pool, it exports under the alias too, and the other way
    round. *)
Theorem aliases_agree stats r alias native t v name :
  (alias, native) ∈ aliases →
  mkSample alias t v name ∈ Collect collectAlias stats r ↔ mkSample native t v name ∈ Collect collectPool stats r.
Proof.
  intros Ha. unfold Collect. rewrite !list_elem_of_bind.
  assert (E : ∀ k s, mkSample alias t v name ∈ collectAlias k s ↔ mkSample native t v name ∈ collectPool k s).
  { intros k s. unfold collectAlias, collectPool. rewrite !elem_of_cons, !elem_of_nil.
    unfold aliases in Ha. rewrite !elem_of_cons, elem_of_nil in Ha.
    destruct Ha as [[= -> ->]|[[= -> ->]|[[= -> ->]|[[= -> ->]|[[= -> ->]|[]]]]]]; split; intros Hx;
      repeat (destruct Hx as [Hx|Hx]); try done; injection Hx as -> -> ->; tauto. }
  split; intros ([k p] & Hin & Hp); exists (k, p); (split; [by apply E|done]).
Qed.

(** The open connections of a pool are the ones in use and the idle ones. *)
Theorem current_connections stats r name v :
  mkSample "pgbouncer_databases_current_connections" GaugeValue v name ∈ Collect collectAlias stats r ↔
  ∃ e, Registry.entries r !! name = Some e ∧
    v = f (Z.of_nat (Pool.InUse (stats (Registry.pool e)) + Pool.Idle (stats (Registry.pool e)))).
Proof.
  unfold Collect. rewrite list_elem_of_bind. split.
  - intros ([k p] & Hin & Hp%elem_of_range). unfold collectAlias in Hin. rewrite !elem_of_cons, elem_of_nil in Hin.
    rewrite lookup_fmap in Hp. destruct (Registry.entries r !! k) as [e|] eqn:E; [|done]. simplify_eq/=.
    repeat (destruct Hin as [Hin|Hin]); try done. injection Hin as -> ->. by exists e.
  - intros (e & He & ->). exists (name, Registry.pool e). split; [|apply elem_of_range; by rewrite lookup_fmap, He].
    unfold collectAlias. rewrite !elem_of_cons. tauto.
Qed.

Lemma bump_count a action names m :
  default 0%nat (bump action names m !! a) =
  (default 0 (m !! a) + if bool_decide (a = action) then length names else 0)%nat.
Proof.
  unfold bump. case_bool_decide as E; destruct names as [|n names]; subst; simpl.
  - lia.
  - by rewrite lookup_insert_eq.
  - lia.
  - rewrite lookup_insert_ne by done. lia.
Qed.

Lemma bumps_count a l m :
  NoDup l.*1 →
  default 0%nat (foldl (λ m '(action, names), bump action names m) m l !! a) =
  (default 0 (m !! a) + length (default [] ((list_to_map l : gmap string (list string)) !! a)))%nat.
Proof.
  revert m. induction l as [|[action names] l IH]; intros m Hnd; [simpl; rewrite lookup_empty; simpl; lia|].
  apply NoDup_cons in Hnd as [Hn Hnd]. cbn [foldl]. rewrite IH, bump_count by done. cbn [list_to_map foldr uncurry fst snd].
  case_bool_decide as E.
  - subst. rewrite lookup_insert_eq, not_elem_of_list_to_map_1 by done. simpl. lia.
  - rewrite lookup_insert_ne by done. lia.
Qed.

Lemma list_to_map_range (m : gmap string (list string)) : list_to_map (range m) = m.
Proof.
  rewrite (list_to_map_proper (range m) (map_to_list m)); [apply list_to_map_to_list|apply NoDup_range_fst|apply range_perm].
Qed.

(** The reload counters: an applied reload adds to each action the number of its
    pools, whatever the order in which the three are visited; a failed one adds
    to none. *)
Theorem reload_counts res c a :
  let c' := observeConfigReload res c in
  (applied c' + failed c' = S (applied c + failed c))%nat ∧
  default 0%nat (byAction c' !! a) =
  (default 0 (byAction c !! a) + match res with
     | Err _ => 0
     | Ok x => length (default [] (({[ "added" := Registry.Added x; "removed" := Registry.Removed x;
                    "reconfigured" := Registry.Reconfigured x ]} : gmap string (list string)) !! a))
     end)%nat.
Proof.
  destruct res as [x|e]; simpl; split; try lia.
  rewrite bumps_count by apply NoDup_range_fst. by rewrite list_to_map_range.
Qed.

(** The self-probe asks the process's own server the right question: on an
    address that can be split it succeeds exactly when the process is ready.
    [get] is the exchange with that server. *)
Theorem probe_reports_readiness stats draining r1 r2 get body addr :
  (∀ url, Health.probeURL addr = Some url →
     ∃ origin path, url = origin +:+ path ∧ path = "/ready" ∧
       get url = Some (newMetricsServer stats draining r1 r2 "GET" path, body)) →
  Health.probeReady get addr = None ↔
  is_Some (Health.probeURL addr) ∧ fst (Health.readyHandler stats draining r1 r2) = Health.StatusOK.
Proof.
  intros Hget. unfold Health.probeReady. destruct (Health.probeURL addr) as [url|].
  - destruct (Hget url eq_refl) as (origin & path & _ & -> & ->).
    change (newMetricsServer stats draining r1 r2 "GET" "/ready") with (fst (Health.readyHandler stats draining r1 r2)).
    destruct (Z.eqb_spec (fst (Health.readyHandler stats draining r1 r2)) Health.StatusOK) as [E|E].
    + split; [|done]. intros _. split; [by eexists|done].
    + split; [done|]. by intros [_ ?].
  - split; [done|]. by intros [[? ?] _].
Qed.

End collect.
End Metrics.
