(* ===== verification/FloatFacts.v ===== *)
(** * Facts about float64 arithmetic

    What is needed of IEEE 754 binary64 to reason about the token buckets of
    RateLimit.v: the value of a non-negative float as an integer multiple of the
    smallest one, that the comparison compares values, that a result is the
    exact value when that fits, and bounds on rounding otherwise. *)

From Stdlib Require Import SpecFloat.
From S2P Require Import Prelude RateLimit.
Import RateLimit.
Open Scope Z_scope.

Module FloatFacts.

(** ** Values *)

(** The smallest positive float is 2^-1074; [unit1] is the number of them in 1. *)
Definition unit1 : Z := 2 ^ 1074.

(** [fin x v]: the float [x] is finite, not negative and canonical, and its
    value is [v] times the smallest one. *)
Definition fin (x : float64) (v : Z) : Prop :=
  match x with
  | S754_zero false => v = 0
  | S754_finite false m e => bounded prec emax m e = true ∧ v = Zpos m * 2 ^ (e + 1074)
  | _ => False
  end.

Lemma pow2_pos n : 0 <= n → 0 < 2 ^ n.
Proof. intros. by apply Z.pow_pos_nonneg. Qed.

Lemma unit1_pos : 0 < unit1.
Proof. by apply pow2_pos. Qed.

Lemma digits_log2 p : Zpos (digits2_pos p) = Z.log2 (Zpos p) + 1.
Proof.
  assert (E : digits2_pos p = Pos.size p) by (induction p as [p IH|p IH|]; simpl; by rewrite ?IH).
  rewrite E. destruct p; simpl; lia.
Qed.

(** The exponent a value is rounded at. *)
Definition expo (m e : Z) : Z := Z.max (Z.log2 m + 1 + e - 53) (-1074).

Lemma fexp_expo p e : fexp prec emax (Zpos (digits2_pos p) + e) = expo (Zpos p) e.
Proof. unfold fexp, expo, emin, prec, emax. rewrite digits_log2. f_equal; lia. Qed.

Lemma bounded_iff m e : bounded prec emax m e = true ↔ expo (Zpos m) e = e ∧ e <= 971.
Proof.
  unfold bounded, canonical_mantissa. rewrite andb_true_iff, Z.eqb_eq, Z.leb_le, fexp_expo.
  unfold emax, prec. split; intros [? ?]; split; lia.
Qed.

Lemma log2_bounds m : 0 < m → 2 ^ Z.log2 m <= m < 2 ^ (Z.log2 m + 1).
Proof. intros H. pose proof (Z.log2_spec m H). by rewrite <-Z.add_1_r in *. Qed.

(** A canonical mantissa has 53 bits, except at the smallest exponent. *)
Lemma canonical_bounds m e :
  expo (Zpos m) e = e → -1074 <= e ∧ Zpos m < 2 ^ 53 ∧ (-1074 < e → 2 ^ 52 <= Zpos m).
Proof.
  intros Hc. pose proof (log2_bounds (Zpos m) ltac:(lia)) as [H1 H2]. unfold expo in Hc.
  split_and!; [lia|..].
  - eapply Z.lt_le_trans; [exact H2|]. apply Z.pow_le_mono_r; lia.
  - intros He. etrans; [|exact H1]. apply Z.pow_le_mono_r; lia.
Qed.

Lemma fin_nonneg x v : fin x v → 0 <= v.
Proof.
  destruct x as [[]|[]| |[] m e]; simpl; try done; [lia|]. intros [Hb ->].
  apply bounded_iff in Hb as [Hc _]. pose proof (canonical_bounds _ _ Hc) as (? & _).
  pose proof (pow2_pos (e + 1074)). lia.
Qed.

Lemma fin_inj x v w : fin x v → fin x w → v = w.
Proof. destruct x as [[]|[]| |[] m e]; simpl; try done; [by intros -> ->|]. by intros [_ ->] [_ ->]. Qed.

(** ** Comparison *)

Lemma value_lt m1 e1 m2 e2 :
  expo (Zpos m1) e1 = e1 → expo (Zpos m2) e2 = e2 → e1 < e2 →
  Zpos m1 * 2 ^ (e1 + 1074) < Zpos m2 * 2 ^ (e2 + 1074).
Proof.
  intros H1 H2 He. apply canonical_bounds in H1 as (L1 & U1 & _). apply canonical_bounds in H2 as (L2 & _ & B2).
  specialize (B2 ltac:(lia)). pose proof (pow2_pos (e1 + 1074) ltac:(lia)) as P1.
  apply Z.lt_le_trans with (2 ^ 53 * 2 ^ (e1 + 1074)); [by apply Z.mul_lt_mono_pos_r|].
  rewrite <-Z.pow_add_r by lia. etrans; [apply (Z.pow_le_mono_r 2 _ (52 + (e2 + 1074))); lia|].
  rewrite Z.pow_add_r by lia. pose proof (pow2_pos (e2 + 1074) ltac:(lia)). by apply Z.mul_le_mono_nonneg_r; [lia|].
Qed.

Lemma fltb_fin x v y w : fin x v → fin y w → fltb x y = true ↔ v < w.
Proof.
  intros Hx Hy. pose proof (fin_nonneg _ _ Hx) as Nx. pose proof (fin_nonneg _ _ Hy) as Ny.
  unfold fltb, SFltb. destruct x as [[]|[]| |[] m1 e1], y as [[]|[]| |[] m2 e2]; simpl in *; try done.
  - subst. split; [done|lia].
  - destruct Hy as [Hb ->]. subst. apply bounded_iff in Hb as [Hc _]. apply canonical_bounds in Hc as (? & _).
    split; [intros _|done]. pose proof (pow2_pos (e2 + 1074)). lia.
  - subst. split; [done|lia].
  - destruct Hx as [Hb1 ->], Hy as [Hb2 ->]. apply bounded_iff in Hb1 as [H1 _]. apply bounded_iff in Hb2 as [H2 _].
    destruct (Z.compare_spec e1 e2) as [->|He|He].
    + change (Pos.compare_cont Eq m1 m2) with (m1 ?= m2)%positive.
      pose proof (canonical_bounds _ _ H1) as (? & _). pose proof (pow2_pos (e2 + 1074) ltac:(lia)).
      rewrite <-Z.mul_lt_mono_pos_r by done. destruct (Pos.compare_spec m1 m2); (split; [try done; lia|try done; lia]).
    + split; [|done]. intros _. by apply value_lt.
    + split; [done|]. pose proof (value_lt _ _ _ _ H2 H1 He). lia.
Qed.

(** ** Rounding *)

Lemma iter_pos_nat {A} (f : A → A) p x : SpecFloat.iter_pos f p x = Nat.iter (Pos.to_nat p) f x.
Proof.
  revert x. induction p as [p IH|p IH|]; intros x; cbn [SpecFloat.iter_pos]; [| |done]; rewrite !IH.
  - change (f x) with (Nat.iter 1 f x). rewrite Pos2Nat.inj_xI, <-!Nat.iter_add. f_equal. lia.
  - rewrite Pos2Nat.inj_xO, <-Nat.iter_add. f_equal. lia.
Qed.

Lemma shr_1_m r : 0 <= shr_m r → shr_m (shr_1 r) = shr_m r / 2.
Proof. destruct r as [[|[]|[]] [] []]; simpl; intros; try done; by rewrite <-Z.div2_div. Qed.

Lemma shr_1_exact m : m mod 2 = 0 → shr_1 (Build_shr_record m false false) = Build_shr_record (m / 2) false false.
Proof.
  intros Hm. destruct m as [|[p|p|]|[p|p|]]; simpl; rewrite <-?Z.div2_div; try done.
  all: exfalso; revert Hm; rewrite Zmod_odd; done.
Qed.

Lemma shr_iter_m k r : 0 <= shr_m r → shr_m (Nat.iter k shr_1 r) = shr_m r / 2 ^ Z.of_nat k.
Proof.
  intros Hr. induction k as [|k IH]; [by rewrite Z.div_1_r|].
  change (Nat.iter (S k) shr_1 r) with (shr_1 (Nat.iter k shr_1 r)).
  assert (0 <= shr_m r / 2 ^ Z.of_nat k) by (apply Z.div_pos; [done|apply pow2_pos; lia]).
  rewrite shr_1_m, IH by lia. rewrite Z.div_div by (try apply pow2_pos; lia).
  by rewrite Z.mul_comm, <-Z.pow_succ_r, <-Nat2Z.inj_succ by lia.
Qed.

Lemma shr_iter_exact k m :
  (2 ^ Z.of_nat k | m) →
  Nat.iter k shr_1 (Build_shr_record m false false) = Build_shr_record (m / 2 ^ Z.of_nat k) false false.
Proof.
  induction k as [|k IH]; intros Hd; [by rewrite Z.div_1_r|].
  change (Nat.iter (S k) shr_1 ?r) with (shr_1 (Nat.iter k shr_1 r)).
  rewrite Nat2Z.inj_succ, Z.pow_succ_r in * by lia. pose proof (pow2_pos (Z.of_nat k) ltac:(lia)) as Hp.
  destruct Hd as [c ->]. rewrite IH by (exists (c * 2); lia).
  replace (c * (2 * 2 ^ Z.of_nat k)) with (c * 2 * 2 ^ Z.of_nat k) by lia. rewrite Z.div_mul by lia.
  rewrite shr_1_exact by (by rewrite Z.mod_mul). rewrite Z.div_mul by lia. f_equal.
  replace (c * 2 * 2 ^ Z.of_nat k) with (c * (2 * 2 ^ Z.of_nat k)) by lia. by rewrite Z.div_mul by lia.
Qed.

(** What a result with mantissa [m] at exponent [e] is. *)
Definition rounded (x : float64) (v : Z) : Prop := fin x v ∨ x = S754_infinity false ∧ 2 ^ 2098 <= v.

Lemma finite_or_top p e :
  (-1074 < e → 2 ^ 52 <= Zpos p) → expo (Zpos p) e = e →
  rounded (if e <=? emax - prec then S754_finite false p e else S754_infinity false) (Zpos p * 2 ^ (e + 1074)).
Proof.
  intros Hp Hc. change (emax - prec) with 971. destruct (Z.leb_spec e 971) as [He|He].
  - left. split; [|done]. by apply bounded_iff.
  - right. split; [done|]. change (2 ^ 2098) with (2 ^ 52 * 2 ^ (972 + 1074)).
    apply Z.mul_le_mono_nonneg; [by apply Z.lt_le_incl, pow2_pos|apply Hp; lia|by apply Z.lt_le_incl, pow2_pos|].
    apply Z.pow_le_mono_r; lia.
Qed.

Lemma finish m e :
  0 <= m <= 2 ^ 53 → -1074 <= e → (-1074 < e → 2 ^ 52 <= m) →
  rounded (let '(r, e'') := shr_fexp prec emax m e loc_Exact in
    match shr_m r with
    | Z0 => S754_zero false
    | Zpos p => if e'' <=? emax - prec then S754_finite false p e'' else S754_infinity false
    | Zneg _ => S754_nan
    end) (m * 2 ^ (e + 1074)).
Proof.
  intros Hm He Hc. unfold shr_fexp. destruct m as [|p|p]; [|..|lia].
  { cbn [Zdigits2 shr_record_of_loc]. unfold fexp, prec, emax, emin, shr. 
    replace (Z.max (0 + e - 53) (3 - 1024 - 53) - e) with (Z.max (-53) (-1074 - e)) by lia.
    destruct (Z.max (-53) (-1074 - e)) eqn:E; [left; done|lia|left; done]. }
  cbn [Zdigits2 shr_record_of_loc]. rewrite fexp_expo.
  destruct (Z.eq_dec (Zpos p) (2 ^ 53)) as [E|E].
  - assert (Hx : expo (Zpos p) e = e + 1) by (rewrite E; unfold expo; rewrite Z.log2_pow2; lia).
    rewrite Hx. replace (e + 1 - e) with 1 by lia. cbn [shr].
    rewrite E. change (shr_m (SpecFloat.iter_pos shr_1 1 {| shr_m := 2 ^ 53; shr_r := false; shr_s := false |})) with (Zpos (2 ^ 52)).
    replace (2 ^ 53 * 2 ^ (e + 1074)) with (2 ^ 52 * 2 ^ (e + 1 + 1074)) by (rewrite <-!Z.pow_add_r by lia; f_equal; lia).
    apply finite_or_top; [lia|]. unfold expo. change (Z.log2 (Zpos (2 ^ 52))) with 52. lia.
  - assert (Hx : expo (Zpos p) e = e).
    { pose proof (log2_bounds (Zpos p) ltac:(lia)) as [H1 H2]. unfold expo.
      assert (Z.log2 (Zpos p) < 53) by (apply Z.log2_lt_pow2; lia).
      destruct (Z.eq_dec e (-1074)) as [->|]; [lia|].
      assert (52 <= Z.log2 (Zpos p)) by (apply Z.log2_le_pow2; lia). lia. }
    rewrite Hx, Z.sub_diag. cbn [shr shr_m]. apply finite_or_top; [|done]. intros. apply Hc. lia.
Qed.

Lemma round_even_bounds m l :
  m <= round_nearest_even m l <= m + 1 ∧ (l = loc_Exact → round_nearest_even m l = m).
Proof. destruct l as [|[]]; simpl; repeat case_match; split; try done; lia. Qed.

Lemma shr_m_loc m l : shr_m (shr_record_of_loc m l) = m.
Proof. by destruct l as [|[]]. Qed.

Lemma shr_spec m e l n :
  0 <= m → 0 <= n →
  let '(r, e') := shr (shr_record_of_loc m l) e n in
  shr_m r = m / 2 ^ n ∧ e' = e + n ∧ (l = loc_Exact → (2 ^ n | m) → loc_of_shr_record r = loc_Exact).
Proof.
  intros Hm Hn. destruct n as [|p|]; [|..|lia]; cbn [shr].
  - rewrite shr_m_loc, Z.div_1_r. split_and!; [done|lia|]. by intros -> _.
  - rewrite iter_pos_nat. rewrite <-(positive_nat_Z p). split_and!; [|done|].
    + by rewrite shr_iter_m; rewrite shr_m_loc.
    + intros -> Hd. cbn [shr_record_of_loc]. by rewrite shr_iter_exact.
Qed.

Lemma quot_bounds m e :
  0 < m → e <= expo m e →
  m / 2 ^ (expo m e - e) < 2 ^ 53 ∧ (-1074 < expo m e → 2 ^ 52 <= m / 2 ^ (expo m e - e)).
Proof.
  intros Hm He. pose proof (log2_bounds m Hm) as [H1 H2]. pose proof (Z.log2_nonneg m).
  pose proof (pow2_pos (expo m e - e) ltac:(lia)) as Hp. split.
  - apply Z.div_lt_upper_bound; [done|]. rewrite <-Z.pow_add_r by lia.
    eapply Z.lt_le_trans; [exact H2|]. apply Z.pow_le_mono_r; unfold expo; lia.
  - intros Hx. apply Z.div_le_lower_bound; [done|]. rewrite <-Z.pow_add_r by lia.
    etrans; [|exact H1]. apply Z.pow_le_mono_r; unfold expo in *; lia.
Qed.

Lemma round_aux_spec m e l :
  0 < m → e <= expo m e →
  let q := m / 2 ^ (expo m e - e) in
  ∃ m1, q <= m1 <= q + 1 ∧ (l = loc_Exact → (2 ^ (expo m e - e) | m) → m1 = q) ∧
    rounded (binary_round_aux prec emax false m e l) (m1 * 2 ^ (expo m e + 1074)).
Proof.
  intros Hm He q. destruct (quot_bounds m e Hm He) as [Hq1 Hq2]. fold q in Hq1, Hq2.
  assert (Hq0 : 0 <= q) by (apply Z.div_pos; [lia|apply pow2_pos; lia]).
  unfold binary_round_aux. unfold shr_fexp at 1.
  assert (E : fexp prec emax (Zdigits2 m + e) = expo m e) by (destruct m as [|p|p]; [lia|apply fexp_expo|lia]).
  rewrite E. pose proof (shr_spec m e l (expo m e - e) ltac:(lia) ltac:(lia)) as Hs.
  destruct (shr _ e (expo m e - e)) as [r e']. destruct Hs as (Hr & -> & Hx).
  replace (e + (expo m e - e)) with (expo m e) by lia. fold q in Hr. rewrite Hr.
  destruct (round_even_bounds q (loc_of_shr_record r)) as [Hb Hex].
  exists (round_nearest_even q (loc_of_shr_record r)). split_and!; [lia|lia|auto|].
  apply finish; [lia|unfold expo; lia|]. intros Hlt. specialize (Hq2 Hlt). lia.
Qed.

(** What is at least one stays at least one. *)
Lemma quot_low m e m1 E :
  0 < m → e <= expo m e → 0 <= Z.log2 m + e → m / 2 ^ (E - e) <= m1 → expo m e = E →
  unit1 <= m1 * 2 ^ (E + 1074).
Proof.
  intros Hm He Hl Hb <-. set (E := expo m e) in *. pose proof (log2_bounds m Hm) as [H1 _].
  assert (HE : -1074 <= E <= Z.log2 m + e) by (unfold E, expo; lia).
  assert (Hq : 2 ^ (Z.log2 m - (E - e)) <= m / 2 ^ (E - e)).
  { apply Z.div_le_lower_bound; [apply pow2_pos; lia|]. rewrite <-Z.pow_add_r by lia.
    etrans; [|exact H1]. apply Z.pow_le_mono_r; lia. }
  etrans; [|apply Z.mul_le_mono_nonneg_r; [apply Z.lt_le_incl, pow2_pos; lia|exact Hb]].
  etrans; [|apply Z.mul_le_mono_nonneg_r; [apply Z.lt_le_incl, pow2_pos; lia|exact Hq]].
  rewrite <-Z.pow_add_r by lia. unfold unit1. apply Z.pow_le_mono_r; lia.
Qed.

(** Rounding down does not pass a float below the value. *)
Lemma floor_above x c m e :
  fin x c → 0 < m → e <= expo m e → -1074 <= e → c <= m * 2 ^ (e + 1074) →
  c <= m / 2 ^ (expo m e - e) * 2 ^ (expo m e + 1074).
Proof.
  intros Hx Hm He Hee Hle. set (E := expo m e) in *. destruct (quot_bounds m e Hm He) as [_ Hq]. fold E in Hq.
  pose proof (pow2_pos (E + 1074) ltac:(lia)) as HpE. pose proof (pow2_pos (E - e) ltac:(lia)) as Hpn.
  assert (Hq0 : 0 <= m / 2 ^ (E - e)) by (apply Z.div_pos; lia).
  destruct x as [[]|[]| |[] mx ex]; simpl in Hx; try done; [subst; nia|].
  destruct Hx as [Hb ->]. apply bounded_iff in Hb as [Hc _]. destruct (canonical_bounds _ _ Hc) as (Lx & Ux & _).
  destruct (Z_lt_le_dec ex E) as [Hlt|Hge].
  - specialize (Hq ltac:(lia)). apply Z.le_trans with (2 ^ 53 * 2 ^ (ex + 1074)).
    { apply Z.mul_le_mono_nonneg_r; [apply Z.lt_le_incl, pow2_pos; lia|lia]. }
    apply Z.le_trans with (2 ^ 52 * 2 ^ (E + 1074)); [|by apply Z.mul_le_mono_nonneg_r; [lia|]].
    rewrite <-!Z.pow_add_r by lia. apply Z.pow_le_mono_r; lia.
  - assert (Ex : Zpos mx * 2 ^ (ex + 1074) = Zpos mx * 2 ^ (ex - E) * 2 ^ (E + 1074))
      by (rewrite <-Z.mul_assoc, <-Z.pow_add_r by lia; do 2 f_equal; lia).
    rewrite Ex in *. apply Z.mul_le_mono_nonneg_r; [lia|]. apply Z.div_le_lower_bound; [done|].
    assert (Em : m * 2 ^ (e + 1074) * 2 ^ (E - e) = m * 2 ^ (E + 1074))
      by (rewrite <-Z.mul_assoc, <-Z.pow_add_r by lia; do 2 f_equal; lia).
    apply (Z.mul_le_mono_pos_r _ _ (2 ^ (e + 1074))); [apply pow2_pos; lia|].
    etrans; [|exact Hle]. rewrite (Z.mul_comm (2 ^ (E - e))), <-Z.mul_assoc, <-Z.pow_add_r by lia.
    by replace (E - e + (e + 1074)) with (E + 1074) by lia.
Qed.

(** Rounding adds at most one part in 2^52. *)
Lemma round_up_normal m e m1 :
  0 < m → e <= expo m e → -1074 <= e → -1074 < expo m e →
  m1 <= m / 2 ^ (expo m e - e) + 1 →
  2 ^ 52 * (m1 * 2 ^ (expo m e + 1074)) <= (2 ^ 52 + 1) * (m * 2 ^ (e + 1074)).
Proof.
  intros Hm He Hee HE Hm1. set (E := expo m e) in *. destruct (quot_bounds m e Hm He) as [_ Hq]. fold E in Hq.
  pose proof (pow2_pos (E - e) ltac:(lia)) as Hpn. pose proof (pow2_pos (e + 1074) ltac:(lia)) as Hpe.
  assert (EE : 2 ^ (E + 1074) = 2 ^ (E - e) * 2 ^ (e + 1074)) by (rewrite <-Z.pow_add_r by lia; f_equal; lia).
  assert (Hfl : m / 2 ^ (E - e) * 2 ^ (E - e) <= m) by (rewrite Z.mul_comm; by apply Z.mul_div_le).
  rewrite EE. specialize (Hq HE).
  set (q := m / 2 ^ (E - e)) in *. clearbody q. set (P := 2 ^ (E - e)) in *. clearbody P.
  set (R := 2 ^ (e + 1074)) in *. clearbody R. clear - Hm1 Hq Hfl Hpn Hpe Hm.
  assert (2 ^ 52 * (m1 * P) <= (2 ^ 52 + 1) * m) by nia. nia.
Qed.

Lemma round_up_bound m e m1 :
  0 < m → e <= expo m e → -1074 <= e →
  m / 2 ^ (expo m e - e) <= m1 <= m / 2 ^ (expo m e - e) + 1 →
  ((2 ^ (expo m e - e) | m) → m1 = m / 2 ^ (expo m e - e)) →
  2 ^ 52 * (m1 * 2 ^ (expo m e + 1074)) <= (2 ^ 52 + 1) * (m * 2 ^ (e + 1074)).
Proof.
  intros Hm He Hee Hm1 Hx. destruct (Z.eq_dec (expo m e) (-1074)) as [E0|E0].
  - replace (expo m e - e) with 0 in * by lia. change (2 ^ 0) with 1 in *. rewrite Z.div_1_r in *.
    rewrite Hx by (apply Z.divide_1_l). replace (expo m e) with e by lia.
    pose proof (pow2_pos (e + 1074) ltac:(lia)). nia.
  - apply round_up_normal; [done..|unfold expo in *; lia|lia].
Qed.

Lemma shift_xO p d : Zpos (Pos.iter xO p d) = Zpos p * 2 ^ Zpos d.
Proof.
  induction d as [|d IH] using Pos.peano_ind; [simpl; lia|].
  rewrite Pos.iter_succ, Pos2Z.inj_succ, Z.pow_succ_r by lia. rewrite Pos2Z.inj_xO, IH. lia.
Qed.

(** Alignment does not change a value. *)
Lemma shl_align_fst p e e' : e' <= e → Zpos (fst (shl_align p e e')) = Zpos p * 2 ^ (e - e').
Proof.
  intros He. unfold shl_align. destruct (e' - e) as [|d|d] eqn:E; [|lia|].
  - replace (e - e') with 0 by lia. simpl. lia.
  - replace (e - e') with (Zpos d) by lia. apply shift_xO.
Qed.

Lemma expo_shift m e k : 0 < m → 0 <= k → expo (m * 2 ^ k) (e - k) = expo m e.
Proof. intros Hm Hk. unfold expo. rewrite Z.log2_mul_pow2 by lia. f_equal. lia. Qed.

(** [binary_normalize] of a positive value [m * 2^e]: the result is the value
    when that is a multiple of the unit at its exponent, and within one unit of
    it otherwise. *)
Lemma normalize_spec m e :
  0 < m →
  ∃ v, rounded (binary_normalize prec emax m e false) v ∧
    (∀ k j, m = k * 2 ^ j → 0 <= j → 0 < k < 2 ^ 53 → -1074 <= e + j → -1074 <= e → v = m * 2 ^ (e + 1074)) ∧
    (-1074 <= e →
      (∀ x c, fin x c → c <= m * 2 ^ (e + 1074) → c <= v) ∧ 2 ^ 52 * v <= (2 ^ 52 + 1) * (m * 2 ^ (e + 1074))).
Proof.
  intros Hm. destruct m as [|p|p]; [lia| |lia]. cbn [binary_normalize]. unfold binary_round.
  rewrite fexp_expo. set (E := expo (Zpos p) e).
  (* the mantissa and exponent that are rounded *)
  assert (Ha : ∃ mz ez, shl_align p e E = (mz, ez) ∧ ez <= E ∧ ez <= e ∧ (ez = e ∨ ez = E) ∧ Zpos mz = Zpos p * 2 ^ (e - ez)).
  { unfold shl_align. destruct (E - e) as [|d|d] eqn:Ed.
    - exists p, e. split_and!; [done|lia|lia|by left|]. rewrite Z.sub_diag. lia.
    - exists p, e. split_and!; [done|lia|lia|by left|]. rewrite Z.sub_diag. lia.
    - exists (Pos.iter xO p d), E. split_and!; [done|lia|lia|by right|]. rewrite shift_xO. do 2 f_equal. lia. }
  destruct Ha as (mz & ez & -> & Hz & Hze & Hor & Hmz).
  assert (Ee : expo (Zpos mz) ez = E).
  { rewrite Hmz. replace ez with (e - (e - ez)) at 2 by lia. apply expo_shift; lia. }
  destruct (round_aux_spec (Zpos mz) ez loc_Exact) as (m1 & Hb & Hx & Hr); [lia|lia|].
  rewrite Ee in *. exists (m1 * 2 ^ (E + 1074)). split_and!; [done|..].
  - intros k j Hk Hj Hk2 Hje He. assert (HE : E <= e + j).
    { assert (Z.log2 k < 53) by (apply Z.log2_lt_pow2; lia).
      unfold E, expo. rewrite Hk, Z.log2_mul_pow2 by lia. lia. }
    assert (Hm1 : Zpos mz = k * 2 ^ (e + j - E) * 2 ^ (E - ez)).
    { rewrite Hmz, Hk, <-!Z.mul_assoc, <-!Z.pow_add_r by lia. do 2 f_equal. lia. }
    rewrite Hx by (done || (exists (k * 2 ^ (e + j - E)); lia)).
    rewrite Hm1, Z.div_mul by (pose proof (pow2_pos (E - ez)); lia).
    assert (-1074 <= E) by (unfold E, expo; lia).
    rewrite Hk, <-!Z.mul_assoc, <-!Z.pow_add_r by lia. do 2 f_equal. lia.
  - intros He. assert (HE : -1074 <= E) by (unfold E, expo; lia).
    assert (Hez : -1074 <= ez) by lia.
    assert (Ev : Zpos p * 2 ^ (e + 1074) = Zpos mz * 2 ^ (ez + 1074))
      by (rewrite Hmz, <-Z.mul_assoc, <-Z.pow_add_r by lia; do 2 f_equal; lia).
    rewrite Ev. split.
    + intros x c Hx' Hle. pose proof (floor_above x c (Zpos mz) ez Hx' ltac:(lia) ltac:(lia) Hez Hle) as Hf.
      rewrite Ee in Hf. etrans; [exact Hf|]. apply Z.mul_le_mono_nonneg_r; [apply Z.lt_le_incl, pow2_pos; lia|lia].
    + rewrite <-Ee. apply round_up_bound; [lia|lia|done|rewrite Ee; lia|]. rewrite Ee. intros Hd. by apply Hx.
Qed.

(** ** Operations *)

Lemma rounded_fin x v : rounded x v → v < 2 ^ 2098 → fin x v.
Proof. intros [?|[_ ?]]; [done|lia]. Qed.

Lemma unit1_scale n : 0 <= n <= 2 ^ 53 → n * unit1 < 2 ^ 2098.
Proof.
  intros Hn. apply Z.le_lt_trans with (2 ^ 53 * 2 ^ 1074).
  - apply Z.mul_le_mono_nonneg_r; [by apply Z.lt_le_incl, pow2_pos|lia].
  - rewrite <-Z.pow_add_r by lia. apply Z.pow_lt_mono_r; lia.
Qed.

(** Small integers are exact. *)
Lemma of_int_fin n : 0 <= n < 2 ^ 53 → fin (of_int n) (n * unit1).
Proof.
  intros Hn. destruct (Z.eq_dec n 0) as [->|Hz]; [done|].
  destruct (normalize_spec n 0) as (v & Hr & Hx & _); [lia|].
  assert (v = n * unit1) as ->.
  { rewrite (Hx n 0); [done|lia..]. }
  apply rounded_fin; [exact Hr|]. apply unit1_scale. lia.
Qed.

Lemma one_is : of_int 1 = S754_finite false 4503599627370496 (-52).
Proof. by vm_compute. Qed.

(** Taking one from a float that is at least one is exact. *)
Lemma fsub_one t v : fin t v → unit1 <= v → v < 2 ^ 53 * unit1 → fin (fsub t (of_int 1)) (v - unit1).
Proof.
  intros Ht Hlo Hhi. rewrite one_is. pose proof unit1_pos as Hu.
  destruct t as [[]|[]| |[] m e]; simpl in Ht; try done; [lia|]. destruct Ht as [Hb ->].
  apply bounded_iff in Hb as [Hc _]. destruct (canonical_bounds _ _ Hc) as (He & Hm & Hn).
  assert (He1 : -52 <= e).
  { destruct (Z_lt_le_dec e (-52)); [|done]. exfalso.
    assert (Zpos m * 2 ^ (e + 1074) < 2 ^ 53 * 2 ^ (e + 1074)) by (apply Z.mul_lt_mono_pos_r; [apply pow2_pos; lia|done]).
    rewrite <-Z.pow_add_r in * by lia. assert (2 ^ (53 + (e + 1074)) <= 2 ^ 1074) by (apply Z.pow_le_mono_r; lia).
    unfold unit1 in *. lia. }
  assert (He2 : e <= 0).
  { destruct (Z_lt_le_dec 0 e); [|done]. exfalso. specialize (Hn ltac:(lia)).
    assert (2 ^ 53 * unit1 <= Zpos m * 2 ^ (e + 1074)); [|lia]. unfold unit1. rewrite <-Z.pow_add_r by lia.
    etrans; [apply (Z.pow_le_mono_r 2 _ (52 + (e + 1074))); lia|]. rewrite Z.pow_add_r by lia.
    apply Z.mul_le_mono_nonneg_r; [apply Z.lt_le_incl, pow2_pos; lia|done]. }
  unfold fsub, SFsub. rewrite Z.min_r by lia. cbn [cond_Zopp].
  rewrite !shl_align_fst by lia. rewrite Z.sub_diag. change (2 ^ 0) with 1. rewrite Z.mul_1_r.
  change (Zpos 4503599627370496) with (2 ^ 52).
  assert (HD : Zpos m * 2 ^ (e - -52) - 2 ^ 52 = (Zpos m - 2 ^ (- e)) * 2 ^ (e + 52)).
  { rewrite Z.mul_sub_distr_r, <-Z.pow_add_r by lia. f_equal; do 2 f_equal; lia. }
  assert (HV : Zpos m * 2 ^ (e + 1074) - unit1 = (Zpos m - 2 ^ (- e)) * 2 ^ (e + 1074)).
  { unfold unit1. rewrite Z.mul_sub_distr_r, <-Z.pow_add_r by lia. do 2 f_equal. lia. }
  pose proof (pow2_pos (e + 1074) ltac:(lia)) as Hp. pose proof (pow2_pos (- e) ltac:(lia)) as Hp2.
  assert (Hk : 0 <= Zpos m - 2 ^ (- e)) by nia.
  rewrite HD, HV. destruct (Z.eq_dec (Zpos m - 2 ^ (- e)) 0) as [E0|E0].
  { rewrite E0. done. }
  assert (Hk2 : Zpos m - 2 ^ (- e) < 2 ^ 53) by lia. set (k := Zpos m - 2 ^ (- e)) in *. clearbody k.
  assert (Hpos : 0 < k * 2 ^ (e + 52)) by (apply Z.mul_pos_pos; [lia|apply pow2_pos; lia]).
  destruct (normalize_spec (k * 2 ^ (e + 52)) (-52) Hpos) as (v & Hr & Hx & _).
  rewrite (Hx k (e + 52)) in Hr by (reflexivity || lia).
  rewrite <-Z.mul_assoc, <-Z.pow_add_r in Hr by lia.
  replace (e + 52 + (-52 + 1074)) with (e + 1074) in Hr by lia. apply rounded_fin; [done|].
  rewrite <-HV. pose proof (unit1_scale (2 ^ 53) ltac:(lia)). lia.
Qed.

Lemma log2_at_least_one M e : 0 < M → -1074 <= e → unit1 <= M * 2 ^ (e + 1074) → 0 <= Z.log2 M + e.
Proof.
  intros HM He Hge. destruct (Z_lt_le_dec (Z.log2 M + e) 0) as [Hlt|]; [|done]. exfalso.
  pose proof (log2_bounds M HM) as [_ H2].
  assert (M * 2 ^ (e + 1074) < 2 ^ (Z.log2 M + 1) * 2 ^ (e + 1074)) by (apply Z.mul_lt_mono_pos_r; [apply pow2_pos; lia|done]).
  pose proof (Z.log2_nonneg M). rewrite <-Z.pow_add_r in * by lia.
  assert (2 ^ (Z.log2 M + 1 + (e + 1074)) <= 2 ^ 1074) by (apply Z.pow_le_mono_r; lia). unfold unit1 in *. lia.
Qed.

(** A sum is rounded, not below any float it reaches, and up by at most one
    part in 2^52. *)
Lemma fadd_spec x v y w :
  fin x v → fin y w →
  ∃ u, rounded (fadd x y) u ∧ (∀ z c, fin z c → c <= v + w → c <= u) ∧ 2 ^ 52 * u <= (2 ^ 52 + 1) * (v + w).
Proof.
  intros Hx Hy.
  destruct x as [[]|[]| |[] m1 e1], y as [[]|[]| |[] m2 e2]; simpl in Hx, Hy; try done.
  - exists 0. split_and!; [by left| |]; subst; [|done]. lia.
  - exists w. assert (0 <= w) by (destruct Hy as [? ->]; pose proof (pow2_pos (e2 + 1074)); nia).
    split_and!; [by left| |]; subst; intros; lia.
  - exists v. split_and!; [by left| |]; subst; intros; lia.
  - destruct Hx as [Hb1 ->], Hy as [Hb2 ->]. apply bounded_iff in Hb1 as [H1 _]. apply bounded_iff in Hb2 as [H2 _].
    apply canonical_bounds in H1 as (L1 & _). apply canonical_bounds in H2 as (L2 & _).
    unfold fadd, SFadd. cbn [cond_Zopp]. rewrite !shl_align_fst by lia.
    set (ez := Z.min e1 e2). set (M := Zpos m1 * 2 ^ (e1 - ez) + Zpos m2 * 2 ^ (e2 - ez)).
    assert (HM : M * 2 ^ (ez + 1074) = Zpos m1 * 2 ^ (e1 + 1074) + Zpos m2 * 2 ^ (e2 + 1074)).
    { unfold M. rewrite Z.mul_add_distr_r, <-!Z.mul_assoc, <-!Z.pow_add_r by lia. f_equal; do 2 f_equal; lia. }
    assert (HM0 : 0 < M).
    { unfold M. pose proof (pow2_pos (e1 - ez) ltac:(lia)). pose proof (pow2_pos (e2 - ez) ltac:(lia)). nia. }
    destruct (normalize_spec M ez HM0) as (u & Hr & _ & Hu). rewrite HM in Hu.
    destruct (Hu ltac:(lia)) as [Hu1 Hu2]. exists u. by split_and!.
Qed.

Lemma billion_is : of_int 1000000000 = S754_finite false 8388608000000000 (-23).
Proof. by vm_compute. Qed.

(** The quotient before it is rounded. *)
Lemma div_core m e a :
  0 < a < 1000000000 → fin (S754_finite false m e) (a * unit1) →
  ∃ q l, SFdiv_core_binary prec emax (Zpos m) e 8388608000000000 (-23) = (q, Z.log2 a - 82, l) ∧
    2 ^ 52 <= q ∧ q * 2 ^ (Z.log2 a - 82 + 1074) * 1000000000 <= a * unit1.
Proof.
  intros Ha [Hb Hv]. apply bounded_iff in Hb as [Hc He]. destruct (canonical_bounds _ _ Hc) as (L & U & N).
  assert (Hlog : Z.log2 (Zpos m) + e = Z.log2 a).
  { apply (f_equal Z.log2) in Hv. unfold unit1 in Hv. rewrite !Z.log2_mul_pow2 in Hv by lia. lia. }
  assert (La : 0 <= Z.log2 a < 30) by (split; [apply Z.log2_nonneg|apply Z.log2_lt_pow2; lia]).
  assert (Lm : 0 <= Z.log2 (Zpos m) < 53) by (split; [apply Z.log2_nonneg|apply Z.log2_lt_pow2; lia]).
  unfold SFdiv_core_binary.
  assert (Ee : Z.min (fexp prec emax (Zdigits2 (Zpos m) + e - (Zdigits2 8388608000000000 + -23))) (e - -23) = Z.log2 a - 82).
  { unfold fexp, emin, prec, emax. change (Zdigits2 8388608000000000) with 53. cbn [Zdigits2]. rewrite digits_log2. lia. }
  rewrite Ee. set (e' := Z.log2 a - 82) in *. set (k := e - -23 - e').
  assert (Hk : 0 < k) by lia.
  assert (Em : match k with Z0 => Zpos m | Zpos _ => Z.shiftl (Zpos m) k | Zneg _ => 0 end = Zpos m * 2 ^ k).
  { destruct k; [lia|by rewrite Z.shiftl_mul_pow2 by lia|lia]. }
  rewrite Em. pose proof (Z_div_mod (Zpos m * 2 ^ k) 8388608000000000 ltac:(lia)) as Hd.
  destruct (Z.div_eucl _ _) as [q r]. destruct Hd as [Hq Hr]. eexists q, _. split_and!; [done|..].
  - pose proof (log2_bounds (Zpos m) ltac:(lia)) as [Hm _].
    assert (2 ^ 105 <= Zpos m * 2 ^ k).
    { etrans; [|apply Z.mul_le_mono_nonneg_r; [apply Z.lt_le_incl, pow2_pos; lia|exact Hm]].
      rewrite <-Z.pow_add_r by lia. apply Z.pow_le_mono_r; lia. }
    clear - H Hq Hr. lia.
  - rewrite Hv. assert (E1 : Zpos m * 2 ^ (e + 1074) * 2 ^ 23 = Zpos m * 2 ^ k * 2 ^ (e' + 1074)).
    { rewrite <-!Z.mul_assoc, <-!Z.pow_add_r by lia. do 2 f_equal. lia. }
    pose proof (pow2_pos (e' + 1074) ltac:(lia)) as Hp.
    set (R := 2 ^ (e' + 1074)) in *. set (V := Zpos m * 2 ^ (e + 1074)) in *. clearbody R V. rewrite Hq in E1.
    clear - E1 Hp Hr. assert (0 <= r * R) by nia. lia.
Qed.

(** Part of a second: positive, and up by at most one part in 2^52. *)
Lemma fdiv_billion a :
  0 < a < 1000000000 →
  ∃ v, fin (fdiv (of_int a) (of_int 1000000000)) v ∧ 2 ^ 1040 <= v ∧
    1000000000 * 2 ^ 52 * v <= (2 ^ 52 + 1) * (a * unit1).
Proof.
  intros Ha. pose proof unit1_pos as Hu. pose proof (of_int_fin a ltac:(lia)) as Hf. rewrite billion_is.
  destruct (of_int a) as [[]|[]| |[] m e]; try done; [simpl in Hf; nia|].
  destruct (div_core m e a Ha Hf) as (q & l & Hcore & Hq0 & Hq). pose proof (Z.log2_nonneg a).
  unfold fdiv, SFdiv. rewrite Hcore. cbn [xorb]. set (e' := Z.log2 a - 82) in *.
  assert (Lq : 52 <= Z.log2 q) by (apply Z.log2_le_pow2; lia).
  assert (HE : e' <= expo q e') by (unfold expo; lia).
  destruct (round_aux_spec q e' l) as (m1 & Hm1 & _ & Hround); [lia|done|].
  pose proof (round_up_normal q e' m1 ltac:(lia) HE ltac:(lia) ltac:(lia) ltac:(lia)) as Hup.
  destruct (quot_bounds q e' ltac:(lia) HE) as [_ Hlow]. specialize (Hlow ltac:(lia)).
  set (v := m1 * 2 ^ (expo q e' + 1074)) in *. exists v.
  assert (Hle : 1000000000 * 2 ^ 52 * v <= (2 ^ 52 + 1) * (a * unit1)) by (clear - Hq Hup; lia).
  split_and!; [|..|done].
  - apply rounded_fin; [exact Hround|]. pose proof (unit1_scale 2 ltac:(lia)) as H2.
    assert (a * unit1 <= 1000000000 * unit1) as H1 by (apply Z.mul_le_mono_nonneg_r; lia).
    clearbody v. generalize dependent unit1. clear. intros. lia.
  - apply Z.le_trans with (2 ^ 52 * 2 ^ (e' + 1074)).
    + rewrite <-Z.pow_add_r by lia. apply Z.pow_le_mono_r; lia.
    + unfold v. assert (2 ^ (e' + 1074) <= 2 ^ (expo q e' + 1074)) by (apply Z.pow_le_mono_r; lia).
      pose proof (pow2_pos (e' + 1074) ltac:(lia)). nia.
Qed.

(** [Seconds]: positive for what is, at least one from a second on, and up by
    little. *)
Lemma Seconds_spec d :
  0 < d < 2 ^ 63 →
  ∃ v, fin (Seconds d) v ∧ 2 ^ 1040 <= v ∧ (Second <= d → unit1 <= v) ∧
    1000000000 * 2 ^ 104 * v <= (2 ^ 52 + 1) ^ 2 * (d * unit1).
Proof.
  intros Hd. unfold Seconds. rewrite Z.quot_div_nonneg, Z.rem_mod_nonneg by (unfold Second; lia).
  change Second with 1000000000. pose proof (Z.div_mod d 1000000000 ltac:(lia)) as Hdm.
  pose proof (Z.mod_pos_bound d 1000000000 ltac:(lia)) as Hr.
  set (s := d / 1000000000) in *. set (r := d mod 1000000000) in *. clearbody s r.
  pose proof (of_int_fin s ltac:(lia)) as Hs. pose proof unit1_pos as Hu.
  assert (Hfr : ∃ w, fin (fdiv (of_int r) (of_int 1000000000)) w ∧ 0 <= w ∧ (0 < r → 2 ^ 1040 <= w) ∧
                1000000000 * 2 ^ 52 * w <= (2 ^ 52 + 1) * (r * unit1)).
  { destruct (Z.eq_dec r 0) as [->|Hr0]; [exists 0; split_and!; [by vm_compute|lia..]|].
    destruct (fdiv_billion r ltac:(lia)) as (w & ? & ? & ?). exists w. split_and!; [done| |done..].
    etrans; [|exact H0]. by apply Z.lt_le_incl, pow2_pos. }
  destruct Hfr as (w & Hw & Hw0 & Hwr & Hwu).
  destruct (fadd_spec _ _ _ _ Hs Hw) as (u & Hround & Hlow & Hup). pose proof (unit1_scale 1 ltac:(lia)).
  assert (Hw1 : s * unit1 <= u) by (eapply Hlow; [exact Hs|lia]).
  assert (Hs0 : 0 <= s * unit1) by (apply Z.mul_nonneg_nonneg; lia).
  assert (Hs1 : 1 <= s → unit1 <= s * unit1) by (intros; rewrite <-(Z.mul_1_l unit1) at 1; apply Z.mul_le_mono_nonneg_r; lia).
  assert (Hw2 : w <= u) by (eapply Hlow; [exact Hw|lia]).
  assert (HU : 1000000000 * 2 ^ 104 * u <= (2 ^ 52 + 1) ^ 2 * (d * unit1)).
  { rewrite Hdm. clear - Hup Hwu Hs0. lia. }
  exists u. split_and!; [|..|done].
  - apply rounded_fin; [exact Hround|]. pose proof (unit1_scale (2 ^ 53) ltac:(lia)).
    assert (d * unit1 <= 2 ^ 63 * unit1) by (apply Z.mul_le_mono_nonneg_r; lia). clear - HU H0 H1 Hu. lia.
  - destruct (Z.eq_dec r 0); [|specialize (Hwr ltac:(lia)); lia].
    etrans; [|etrans; [apply Hs1; lia|exact Hw1]]. apply Z.pow_le_mono_r; lia.
  - intros. etrans; [apply Hs1; lia|exact Hw1].
Qed.

(** A product that is not tiny is up by at most one part in 2^52. *)
Lemma fmul_upper x v y w :
  fin x v → fin y w → 2 ^ 1040 <= v → unit1 <= w →
  ∃ u, rounded (fmul x y) u ∧ (unit1 <= v → unit1 <= u) ∧ 2 ^ 52 * (u * unit1) <= (2 ^ 52 + 1) * (v * w).
Proof.
  intros Hx Hy Hv Hw. pose proof unit1_pos as Hu.
  destruct x as [[]|[]| |[] m1 e1]; simpl in Hx; try done; [pose proof (pow2_pos 1040 ltac:(lia)); lia|].
  destruct Hx as [Hb1 ->]. apply bounded_iff in Hb1 as [Hc1 _]. destruct (canonical_bounds _ _ Hc1) as (L1 & U1 & _).
  destruct y as [[]|[]| |[] m2 e2]; simpl in Hy; try done; [lia|].
  destruct Hy as [Hb2 ->]. apply bounded_iff in Hb2 as [Hc2 _]. destruct (canonical_bounds _ _ Hc2) as (L2 & U2 & B2).
  assert (H1 : -34 <= Z.log2 (Zpos m1) + e1).
  { apply Z.log2_le_pow2 in Hv; [|pose proof (pow2_pos (e1 + 1074)); lia]. rewrite Z.log2_mul_pow2 in Hv by lia. lia. }
  assert (H2 : 0 <= Z.log2 (Zpos m2) + e2) by (apply log2_at_least_one; lia).
  assert (K1 : Z.log2 (Zpos m1) < 53) by (apply Z.log2_lt_pow2; lia).
  assert (K2 : Z.log2 (Zpos m2) < 53) by (apply Z.log2_lt_pow2; lia).
  assert (K3 : 52 <= Z.log2 (Zpos m2)) by (apply Z.log2_le_pow2; [lia|]; apply B2; lia).
  unfold fmul, SFmul. cbn [xorb]. rewrite Pos2Z.inj_mul.
  assert (Hl : Z.log2 (Zpos m1) + Z.log2 (Zpos m2) <= Z.log2 (Zpos m1 * Zpos m2)) by (apply Z.log2_mul_below; lia).
  pose proof (Z.log2_nonneg (Zpos m1)). set (M := Zpos m1 * Zpos m2) in *.
  assert (He : e1 + e2 <= expo M (e1 + e2)) by (unfold expo; lia).
  destruct (round_aux_spec M (e1 + e2) loc_Exact) as (m & Hm & _ & Hr); [lia|done|].
  eexists. split_and!; [exact Hr|..].
  - intros Hge. apply log2_at_least_one in Hge; [|lia..].
    eapply (quot_low M (e1 + e2)); [lia|done|lia|exact (proj1 Hm)|done].
  - pose proof (round_up_normal M (e1 + e2) m ltac:(lia) He ltac:(lia) ltac:(unfold expo; lia) ltac:(lia)) as Hup.
    assert (E : Zpos m1 * 2 ^ (e1 + 1074) * (Zpos m2 * 2 ^ (e2 + 1074)) = M * 2 ^ (e1 + e2 + 1074) * unit1).
    { assert (P : 2 ^ (e1 + 1074) * 2 ^ (e2 + 1074) = 2 ^ (e1 + e2 + 1074) * unit1)
        by (unfold unit1; rewrite <-!Z.pow_add_r by lia; f_equal; lia).
      rewrite <-(Z.mul_assoc M), <-P. unfold M. lia. }
    rewrite E. apply (Z.mul_le_mono_nonneg_r _ _ unit1) in Hup; [|lia]. lia.
Qed.

End FloatFacts.
