(* ===== verification/RateLimitTheorems.v ===== *)
(** * What the rate limiter grants

    The token buckets of RateLimit.v, in the float64 arithmetic they are
    computed in, over any sequence of calls whose clock does not go back: how
    many sessions a user is granted at one instant and over a stretch of time,
    when a user is granted one again, and that users do not share a bucket. *)

From Stdlib Require Import SpecFloat.
From S2P Require Import Prelude RateLimit FloatFacts.
Import RateLimit FloatFacts.
Open Scope Z_scope.

Module RateLimitTheorems.

(** ** Sequences of calls *)

(** A call of [Allow] and what its two reads of the clock gave. *)
Record call := mkCall { made : Z; read : Z; who : string }.

Definition allow (c : call) : option RateLimiter → bool * option RateLimiter := Allow (made c) (read c) (who c).

Definition after (l : option RateLimiter) (cs : list call) : option RateLimiter :=
  foldl (λ l c, snd (allow c l)) l cs.

(** The sessions a key is granted. *)
Fixpoint allowed (k : string) (l : option RateLimiter) (cs : list call) : Z :=
  match cs with
  | [] => 0
  | c :: cs =>
      (if bool_decide (who c = k) && fst (allow c l) then 1 else 0) + allowed k (snd (allow c l)) cs
  end.

(** The calls under the limiter's lock, by a clock that does not go back; a
    time is an int64 of nanoseconds. *)
Fixpoint ordered (t : Z) (cs : list call) : Prop :=
  match cs with
  | [] => True
  | c :: cs => t <= made c ∧ made c <= read c < 2 ^ 63 ∧ ordered (read c) cs
  end.

Definition times (k : string) (cs : list call) : list Z := read <$> filter (λ c, who c = k) cs.

Lemma ordered_tail t h w : ordered t (h ++ w) → ordered t h ∧ ∃ t', t <= t' ∧ Forall (λ c, t <= read c <= t') h ∧ ordered t' w.
Proof.
  revert t. induction h as [|c h IH]; intros t.
  { intros. split; [done|]. exists t. split_and!; [lia|constructor|done]. }
  intros (H1 & H2 & H3). destruct (IH _ H3) as [? (t' & ? & ? & ?)].
  split; [done|]. exists t'. split_and!; [lia| |done].
  constructor; [lia|]. eapply Forall_impl; [done|]. simpl. lia.
Qed.

Lemma ordered_weaken t t' cs : t' <= t → ordered t cs → ordered t' cs.
Proof. destruct cs; [done|]. simpl. intros ? (?&?&?). split_and!; [lia..|done]. Qed.

(** ** One bucket *)

Section Bucket.
Context (rate brst : Z) (Hrate : 0 < rate < 2 ^ 53) (Hbrst : 0 < brst < 2 ^ 53).

(** A bucket that holds [v] (in units of the smallest float). *)
Definition holds (b : rlBucket) (v : Z) : Prop := fin (tokens b) v ∧ v <= brst * unit1.

Definition configured (r : RateLimiter) : Prop := tokensPerSec r = of_int rate ∧ burst r = of_int brst.

Lemma refill_same r b : refill r (lastRefill b) b = b.
Proof. unfold refill. rewrite Z.sub_diag. by replace (fltb (of_int 0) (Seconds 0)) with false by (by vm_compute). Qed.

(** The tokens of a stretch of time, rounding included. *)
Lemma earned d sv :
  0 < d < 2 ^ 63 → fin (Seconds d) sv → 2 ^ 1040 <= sv → 1000000000 * 2 ^ 104 * sv <= (2 ^ 52 + 1) ^ 2 * (d * unit1) →
  ∃ u, fin (fmul (Seconds d) (of_int rate)) u ∧ (unit1 <= sv → unit1 <= u) ∧
    Second * 2 ^ 52 * u <= (2 ^ 52 + 4) * (rate * d * unit1).
Proof.
  intros Hd Hs Hlo Hup. pose proof unit1_pos as Hu. pose proof (of_int_fin rate ltac:(lia)) as Hr.
  assert (Hr1 : unit1 <= rate * unit1) by (rewrite <-(Z.mul_1_l unit1) at 1; apply Z.mul_le_mono_nonneg_r; lia).
  destruct (fmul_upper _ _ _ _ Hs Hr Hlo Hr1) as (u & Hround & Hge & Hmul). exists u.
  assert (H52 : 2 ^ 52 * u <= (2 ^ 52 + 1) * (sv * rate)).
  { apply (Z.mul_le_mono_pos_r _ _ unit1); [done|]. clear - Hmul. lia. }
  assert (H3 : 1000000000 * 2 ^ 104 * (sv * rate) <= (2 ^ 52 + 1) ^ 2 * (rate * d * unit1)).
  { apply (Z.mul_le_mono_nonneg_r _ _ rate) in Hup; [|lia]. clear - Hup. lia. }
  assert (H0 : 0 <= rate * d * unit1) by (apply Z.mul_nonneg_nonneg; [apply Z.mul_nonneg_nonneg|]; lia).
  assert (Hb : Second * 2 ^ 52 * u <= (2 ^ 52 + 4) * (rate * d * unit1)).
  { unfold Second. clear - H52 H3 H0. lia. }
  split_and!; [|done|done]. apply rounded_fin; [done|].
  assert (rate * d * unit1 <= 2 ^ 116 * unit1).
  { apply Z.mul_le_mono_nonneg_r; [lia|]. change (2 ^ 116) with (2 ^ 53 * 2 ^ 63). apply Z.mul_le_mono_nonneg; lia. }
  assert (2 ^ 116 * unit1 < 2 ^ 2098) by (unfold unit1; rewrite <-Z.pow_add_r by lia; apply Z.pow_lt_mono_r; lia).
  unfold Second in Hb. clear - Hb H H1 Hu. lia.
Qed.

(** The refill at [t]: nothing is lost, a second earns a token, and what is
    earned is bounded by the rate. *)
Lemma refill_spec r b v t :
  configured r → holds b v → 0 <= t - lastRefill b < 2 ^ 63 →
  ∃ v', holds (refill r t b) v' ∧ lastRefill (refill r t b) = t ∧ v <= v' ∧
    (Second <= t - lastRefill b → unit1 <= v') ∧
    Second * 2 ^ 52 * v' <= Second * 2 ^ 52 * v + (2 ^ 52 + 4) * (rate * (t - lastRefill b) * unit1) + Second * (brst * unit1).
Proof.
  intros [Ct Cb] [Hf Hv] Hd. pose proof unit1_pos as Hu. pose proof (fin_nonneg _ _ Hf) as Hv0.
  pose proof (of_int_fin brst ltac:(lia)) as HB. pose proof (fin_nonneg _ _ HB) as HB0.
  assert (HB1 : unit1 <= brst * unit1) by (rewrite <-(Z.mul_1_l unit1) at 1; apply Z.mul_le_mono_nonneg_r; lia).
  destruct (Z.eq_dec (t - lastRefill b) 0) as [E|E].
  { replace t with (lastRefill b) by lia. rewrite refill_same. exists v. rewrite Z.sub_diag. unfold Second.
    split_and!; [done|done|lia|lia|lia]. }
  destruct (Seconds_spec (t - lastRefill b) ltac:(lia)) as (sv & Hs & Hs1 & Hs2 & Hs3).
  destruct (earned (t - lastRefill b) sv ltac:(lia) Hs Hs1 Hs3) as (u & Hm & Hu1 & Hu2). pose proof (fin_nonneg _ _ Hm) as Hu0.
  destruct (fadd_spec _ _ _ _ Hf Hm) as (w & Hround & Hlow & Hup).
  assert (Hvw : v <= w) by (eapply Hlow; [exact Hf|lia]). assert (Huw : u <= w) by (eapply Hlow; [exact Hm|lia]).
  assert (Hpos : fltb (of_int 0) (Seconds (t - lastRefill b)) = true).
  { apply (fltb_fin _ 0 _ sv); [done|done|]. pose proof (pow2_pos 1040). lia. }
  unfold refill. rewrite Hpos, Ct, Cb. cbn [lastRefill].
  set (s := fadd (tokens b) _) in *. set (B := brst * unit1) in *.
  assert (Hcap : ∃ v', fin (if fltb (of_int brst) s then of_int brst else s) v' ∧ v' <= B ∧ (v' = B ∨ v' = w) ∧ v' <= w).
  { destruct Hround as [Hs'|[-> Hbig]].
    - destruct (fltb (of_int brst) s) eqn:Hc.
      + apply (fltb_fin _ B _ w) in Hc; [|done..]. exists B. split_and!; [done|lia|by left|lia].
      + exists w. assert (¬ B < w) by (rewrite <-(fltb_fin _ B _ w), Hc by done; done).
        split_and!; [done|lia|by right|lia].
    - assert (Ei : fltb (of_int brst) (S754_infinity false) = true).
      { by destruct (of_int brst) as [[]|[]| |[] ? ?]. }
      rewrite Ei. pose proof (unit1_scale brst ltac:(lia)). exists B. split_and!; [done|lia|by left|lia]. }
  destruct Hcap as (v' & Hv'f & Hv'B & Hor & Hv'w). exists v'. split_and!; [done|done|lia|..].
  - intros Hsec. specialize (Hu1 (Hs2 Hsec)). lia.
  - set (X := rate * (t - lastRefill b) * unit1) in *. clearbody X B. unfold Second in *.
    clear - Hup Hu2 Hv'B Hv'w Hor Hv0 Hu0. lia.
Qed.

Lemma take_spec b v :
  holds b v →
  if v <? unit1 then take b = (false, b)
  else ∃ b', take b = (true, b') ∧ holds b' (v - unit1) ∧ lastRefill b' = lastRefill b.
Proof.
  intros [Hf Hv]. pose proof unit1_pos as Hu. pose proof (fltb_fin _ _ _ _ Hf (of_int_fin 1 ltac:(lia))) as Hlt.
  rewrite Z.mul_1_l in Hlt. unfold take. destruct (Z.ltb_spec v unit1) as [Hl|Hl].
  - apply Hlt in Hl. by rewrite Hl.
  - destruct (fltb (tokens b) (of_int 1)); [assert (v < unit1) by (by apply Hlt); lia|].
    eexists. split; [done|]. split; [|done]. split; [|lia]. apply fsub_one; [done..|].
    apply Z.le_lt_trans with (brst * unit1); [done|]. apply Z.mul_lt_mono_pos_r; lia.
Qed.

(** A bucket on its own, at the times of its calls. *)
Fixpoint grants (r : RateLimiter) (b : rlBucket) (ts : list Z) : Z :=
  match ts with
  | [] => 0
  | t :: ts =>
      let '(ok, b) := take (refill r t b) in
      (if ok then 1 else 0) + grants r b ts
  end.

Fixpoint upto (t : Z) (ts : list Z) (last : Z) : Prop :=
  match ts with
  | [] => t <= last
  | t' :: ts => t <= t' ∧ upto t' ts last
  end.

Lemma upto_le t ts last : upto t ts last → t <= last.
Proof. revert t. induction ts as [|t' ts IH]; intros t; simpl; [done|]. intros [? ?%IH]. lia. Qed.

(** What is granted comes out of the bucket and of the time that passes. *)
Lemma grants_bound r b v ts last :
  configured r → holds b v → upto (lastRefill b) ts last → last - lastRefill b < 2 ^ 63 →
  Second * 2 ^ 52 * (grants r b ts * unit1) <=
  Second * 2 ^ 52 * v + (2 ^ 52 + 4) * (rate * (last - lastRefill b) * unit1) +
  Second * (Z.of_nat (length ts) * (brst * unit1)).
Proof.
  intros Hc. pose proof unit1_pos as Hu. revert b v. induction ts as [|t ts IH]; intros b v Hb Hup Hlast.
  { simpl in *. pose proof (fin_nonneg _ _ (proj1 Hb)).
    assert (0 <= rate * (last - lastRefill b) * unit1) by (apply Z.mul_nonneg_nonneg; [apply Z.mul_nonneg_nonneg|]; lia).
    unfold Second. lia. }
  destruct Hup as [Ht Hts]. pose proof (upto_le _ _ _ Hts) as Htl.
  destruct (refill_spec r b v t Hc Hb ltac:(lia)) as (v' & Hv' & Et & _ & _ & Hle).
  cbn [grants length]. rewrite Nat2Z.inj_succ. pose proof (take_spec _ _ Hv') as Htk.
  set (D := rate * (t - lastRefill b) * unit1) in *.
  assert (E : rate * (last - lastRefill b) * unit1 = rate * (last - t) * unit1 + D) by (unfold D; lia). rewrite E.
  destruct (Z.ltb_spec v' unit1) as [Hlt|Hge].
  - rewrite Htk. specialize (IH _ _ Hv'). rewrite Et in IH. specialize (IH Hts ltac:(lia)).
    clearbody D. clear - IH Hle. lia.
  - destruct Htk as (b' & -> & Hb' & Eb). specialize (IH _ _ Hb'). rewrite Eb, Et in IH.
    specialize (IH Hts ltac:(lia)). clearbody D. clear - IH Hle. lia.
Qed.

(** Calls at one instant. *)
Lemma grants_instant r b v n :
  configured r → holds b v → grants r b (replicate n (lastRefill b)) = Z.min (Z.of_nat n) (v / unit1).
Proof.
  intros Hc. pose proof unit1_pos as Hu. revert b v. induction n as [|n IH]; intros b v Hb; cbn [replicate grants].
  { pose proof (Z.div_pos v unit1 (fin_nonneg _ _ (proj1 Hb)) Hu). simpl. lia. }
  rewrite refill_same. pose proof (take_spec _ _ Hb) as Htk. rewrite Nat2Z.inj_succ.
  destruct (Z.ltb_spec v unit1) as [Hlt|Hge].
  - rewrite Htk, (IH _ _ Hb). rewrite (Z.div_small v) by (split; [apply (fin_nonneg _ _ (proj1 Hb))|done]). lia.
  - destruct Htk as (b' & -> & Hb' & Eb). rewrite <-Eb, (IH _ _ Hb').
    replace (v / unit1) with ((v - unit1) / unit1 + 1); [lia|]. rewrite <-Z.div_add by lia. f_equal. lia.
Qed.

(** The first call at [t] may as well find the bucket refilled. *)
Lemma grants_refilled r b v t ts :
  configured r → holds b v → 0 <= t - lastRefill b < 2 ^ 63 → grants r (refill r t b) (t :: ts) = grants r b (t :: ts).
Proof.
  intros Hc Hb Ht. destruct (refill_spec r b v t Hc Hb Ht) as (v' & _ & E & _). cbn [grants].
  rewrite <-E at 1. by rewrite refill_same.
Qed.

(** ** The limiter's buckets *)

(** What a sequence of calls leaves: every bucket sound, last refilled at a
    call of its key. *)
Definition sound (h : list call) (l : option RateLimiter) : Prop :=
  ∃ r, l = Some r ∧ configured r ∧
    ∀ k b, buckets r !! k = Some b → ∃ v c, holds b v ∧ c ∈ h ∧ who c = k ∧ lastRefill b = read c.

(** The bucket a call works on. *)
Definition bucket_of (r : RateLimiter) (c : call) : rlBucket :=
  default (mkBucket (burst r) (made c)) (buckets r !! who c).

Lemma sound_bucket h r c :
  sound h (Some r) → Forall (λ c', 0 <= read c' <= made c) h → 0 <= made c <= read c → read c < 2 ^ 63 →
  ∃ v, holds (bucket_of r c) v ∧ 0 <= read c - lastRefill (bucket_of r c) < 2 ^ 63.
Proof.
  intros (r' & [= <-] & Hc & Hs) Hh Hm Hr. unfold bucket_of. destruct (buckets r !! who c) as [b|] eqn:E; simpl.
  - apply Hs in E as (v & c' & Hv & Hin & _ & ->). rewrite Forall_forall in Hh. apply Hh in Hin.
    exists v. split; [done|lia].
  - exists (brst * unit1). split; [|lia]. split; [|done]. cbn [tokens]. rewrite (proj2 Hc). apply of_int_fin. lia.
Qed.

(** A call does what [take] and [refill] do to its bucket. *)
Lemma allow_some c r :
  ∃ ok b, take (refill r (read c) (bucket_of r c)) = (ok, b) ∧
    allow c (Some r) = (ok, Some (mkLimiter (tokensPerSec r) (burst r) (<[who c := b]> (buckets r)))).
Proof.
  unfold allow, Allow. fold (bucket_of r c). destruct (take _) as [ok b]. by exists ok, b.
Qed.

Lemma take_holds b v : holds b v → ∃ v', holds (snd (take b)) v' ∧ lastRefill (snd (take b)) = lastRefill b.
Proof.
  intros Hb. pose proof (take_spec _ _ Hb) as Ht. destruct (v <? unit1).
  - rewrite Ht. by exists v.
  - destruct Ht as (b' & -> & ? & ?). by eexists.
Qed.

Lemma sound_step h l c :
  sound h l → Forall (λ c', 0 <= read c' <= made c) h → 0 <= made c <= read c → read c < 2 ^ 63 →
  sound (h ++ [c]) (snd (allow c l)).
Proof.
  intros Hs Hh Hm Hr. destruct Hs as (r & -> & Hc & Hb).
  destruct (sound_bucket h r c) as (v & Hv & Ht); [by exists r|done..|].
  destruct (refill_spec r _ _ _ Hc Hv Ht) as (v' & Hv' & El & _).
  destruct (take_holds _ _ Hv') as (v2 & Hv2 & E2).
  destruct (allow_some c r) as (ok & b & Etk & ->). rewrite Etk in *. simpl in *.
  eexists. split_and!; [done|done|]. cbn [buckets]. intros k b' [[<- <-]|[_ Hk]]%lookup_insert_Some.
  - exists v2, c. split_and!; [done|set_solver|done|congruence].
  - apply Hb in Hk as (v3 & c3 & ? & ? & ? & ?). exists v3, c3. split_and!; [done|set_solver|done..].
Qed.

Lemma sound_after cs :
  ordered 0 cs → sound cs (after (Some (mkLimiter (of_int rate) (of_int brst) ∅)) cs).
Proof.
  induction cs as [|c cs IH] using rev_ind; intros Ho.
  { eexists. split_and!; [done|done|]. cbn [buckets]. intros ? ?. by rewrite lookup_empty. }
  apply ordered_tail in Ho as [Ho (t & Ht & Hreads & Hc)]. unfold after. rewrite foldl_app.
  destruct Hc as (? & ? & _). apply sound_step; [by apply IH| |lia..].
  eapply Forall_impl; [done|]. simpl. lia.
Qed.

End Bucket.

(** The calls of other keys do not touch a bucket. *)
Lemma grants_params r r' b ts :
  tokensPerSec r = tokensPerSec r' → burst r = burst r' → grants r b ts = grants r' b ts.
Proof.
  intros E1 E2. revert b. induction ts as [|t ts IH]; intros b; simpl; [done|].
  assert (Er : refill r t b = refill r' t b) by (unfold refill; by rewrite E1, E2).
  rewrite Er. destruct (take _). by rewrite IH.
Qed.

Definition first_made (k : string) (cs : list call) : Z :=
  default 0 (made <$> head (filter (λ c, who c = k) cs)).

Lemma allowed_grants k cs r :
  allowed k (Some r) cs =
  grants r (default (mkBucket (burst r) (first_made k cs)) (buckets r !! k)) (times k cs).
Proof.
  revert r. induction cs as [|c cs IH]; intros r; [done|]. cbn [allowed].
  destruct (allow_some c r) as (ok & b & Etk & ->). unfold times, first_made in *. rewrite filter_cons.
  cbn [fst snd]. rewrite IH. cbn [buckets burst].
  destruct (decide (who c = k)) as [<-|Hne].
  - rewrite bool_decide_true by done. rewrite lookup_insert_eq. cbn [default fmap list_fmap head option_fmap option_map grants].
    unfold bucket_of in Etk. simpl. rewrite Etk. f_equal. by apply grants_params.
  - rewrite bool_decide_false by done. rewrite lookup_insert_ne by done. simpl. by apply grants_params.
Qed.

Lemma ordered_in t w c : ordered t w → c ∈ w → t <= made c ∧ made c <= read c < 2 ^ 63.
Proof.
  revert t. induction w as [|c' w IH]; intros t; [by rewrite elem_of_nil|].
  intros (H1 & H2 & H3) [->|Hin]%elem_of_cons; [lia|]. destruct (IH _ H3 Hin). lia.
Qed.

Lemma ordered_times k t w last :
  ordered t w → t <= last → Forall (λ c, read c <= last) w → upto t (times k w) last.
Proof.
  revert t. induction w as [|c w IH]; intros t Ho Ht Hw; [done|]. destruct Ho as (H1 & H2 & H3).
  inversion_clear Hw. unfold times. rewrite filter_cons. case_decide; simpl.
  - split; [lia|]. by apply IH.
  - apply IH; [|done..]. eapply ordered_weaken; [|done]. lia.
Qed.

Lemma limiter_made rate brst :
  0 < rate → 0 < brst → NewRateLimiter rate brst = Some (mkLimiter (of_int rate) (of_int brst) ∅).
Proof. intros ? ?. unfold NewRateLimiter. rewrite !(proj2 (Z.leb_gt _ _)) by done. done. Qed.

Section Window.
Context (rate brst : Z) (Hrate : 0 < rate < 2 ^ 53) (Hbrst : 0 < brst < 2 ^ 53).
Context (h w : list call) (Hord : ordered 0 (h ++ w)).

(** A key without a bucket is given a full one. *)
Lemma full_when_absent r b c t v v' :
  configured rate brst r → b = bucket_of r c → holds brst b v → holds brst (refill r t b) v' → v <= v' →
  buckets r !! who c = None → v' = brst * unit1.
Proof.
  intros Hc -> [Hf _] [_ Hle] Hv E. unfold bucket_of in Hf. rewrite E in Hf. simpl in Hf. rewrite (proj2 Hc) in Hf.
  pose proof (fin_inj _ _ _ Hf (of_int_fin brst ltac:(lia))). lia.
Qed.

Lemma sound_absent r k : sound rate brst h (Some r) → Forall (λ c, who c ≠ k) h → buckets r !! k = None.
Proof.
  intros (r' & [= <-] & _ & Hs) Hk. destruct (buckets r !! k) as [b|] eqn:E; [|done].
  apply Hs in E as (_ & c & _ & Hin & Hw & _). rewrite Forall_forall in Hk. by destruct (Hk c Hin).
Qed.

(** The calls of a key after any others: a bucket, refilled at the first. *)
Lemma window k t ts :
  times k w = t :: ts →
  ∃ r b v c, allowed k (after (NewRateLimiter rate brst) h) w = grants r b (t :: ts) ∧
    after (NewRateLimiter rate brst) h = Some r ∧ b = refill r t (bucket_of r c) ∧
    c ∈ w ∧ who c = k ∧ read c = t ∧ configured rate brst r ∧ holds brst b v ∧ lastRefill b = t ∧
    (Forall (λ c, who c ≠ k) h → v = brst * unit1) ∧
    (Forall (λ c, who c = k → read c + Second <= t) h → unit1 <= v).
Proof.
  intros Hts. apply ordered_tail in Hord as [Hh (t0 & Ht0 & Hreads & Hw)].
  pose proof Hts as Hts'. unfold times in Hts'. destruct (filter _ w) as [|c cs] eqn:Hf; [done|].
  injection Hts' as Ec _.
  assert (Hin : c ∈ filter (λ c, who c = k) w) by (rewrite Hf; by left).
  apply list_elem_of_filter in Hin as [Hk Hin]. destruct (ordered_in _ _ _ Hw Hin) as [Hm Hr].
  pose proof (sound_after rate brst Hrate Hbrst h Hh) as Hs. rewrite limiter_made by lia.
  pose proof Hs as (r & Er & Hc & _). rewrite Er in *.
  destruct (sound_bucket rate brst Hbrst h r c) as (v & Hv & Hd); [done| |lia..|].
  { eapply Forall_impl; [done|]. simpl. lia. }
  destruct (refill_spec rate brst Hrate Hbrst r _ _ _ Hc Hv Hd) as (v' & Hv' & El & Hge & Hsec & _).
  rewrite Ec in *. exists r, (refill r t (bucket_of r c)), v', c. split_and!; try done.
  - rewrite allowed_grants, Hts. unfold first_made. rewrite Hf.
    rewrite (grants_refilled rate brst Hrate Hbrst r _ v t ts Hc Hv Hd). unfold bucket_of. by rewrite Hk.
  - intros Hnew. apply (full_when_absent r (bucket_of r c) c t v v'); [done..|].
    rewrite Hk. by apply sound_absent.
  - intros Hold. destruct (buckets r !! k) as [b|] eqn:Eb.
    + apply Hsec. unfold bucket_of. rewrite Hk, Eb. simpl. destruct Hs as (r' & [= <-] & _ & Hs).
      apply Hs in Eb as (_ & c' & _ & Hin' & Hk' & ->). rewrite Forall_forall in Hold. specialize (Hold _ Hin' Hk'). lia.
    + rewrite (full_when_absent r (bucket_of r c) c t v v') by (done || by rewrite Hk).
      rewrite <-(Z.mul_1_l unit1) at 1. apply Z.mul_le_mono_nonneg_r; [pose proof unit1_pos|]; lia.
Qed.

(** C35: a token bucket in float64.  The calls of [w] happen between [start] and
    [stop] (nanoseconds), after any calls [h]: of them a user is granted no more
    sessions than the configured burst, plus the configured rate times the time
    that passes, plus one.  The bounds on the number of calls and on the time
    keep the accumulated rounding below that one. *)
Theorem rate_bound k start stop :
  0 <= start <= stop → stop < 2 ^ 63 → Forall (λ c, start <= made c ∧ read c <= stop) w →
  Z.of_nat (length (times k w)) * brst <= 2 ^ 51 → rate * (stop - start) <= 2 ^ 49 * Second →
  Second * allowed k (after (NewRateLimiter rate brst) h) w <= Second * (brst + 1) + rate * (stop - start).
Proof.
  intros Hs Hstop Hw Hn Ht. pose proof unit1_pos as Hu.
  assert (H0 : 0 <= rate * (stop - start)) by (apply Z.mul_nonneg_nonneg; lia).
  destruct (times k w) as [|t ts] eqn:Hts.
  { pose proof (sound_after rate brst Hrate Hbrst h (proj1 (ordered_tail _ _ _ Hord))) as (r & Er & _).
    rewrite limiter_made, Er, allowed_grants, Hts by lia. simpl. unfold Second. lia. }
  destruct (window k t ts Hts) as (r & b & v & c & -> & _ & _ & Hin & _ & Ec & Hc & Hb & El & _).
  pose proof (ordered_tail _ _ _ Hord) as [_ (t0 & Ht0 & _ & Ho)]. rewrite Forall_forall in Hw.
  pose proof (ordered_in _ _ _ Ho Hin) as [? ?]. pose proof (Hw _ Hin) as [? ?].
  assert (Hup : upto t0 (t :: ts) stop).
  { rewrite <-Hts. apply ordered_times; [done|lia|]. apply Forall_forall. intros c' Hc'. by apply Hw. }
  destruct Hup as [_ Hup].
  pose proof (grants_bound rate brst Hrate Hbrst r b v (t :: ts) stop Hc Hb) as Hg. rewrite El in Hg.
  specialize (Hg ltac:(split; [lia|done]) ltac:(lia)). destruct Hb as [_ Hv].
  set (G := grants r b (t :: ts)) in *. set (N := Z.of_nat (length (t :: ts))) in *. clearbody G N.
  assert (Hg2 : Second * 2 ^ 52 * G <= Second * 2 ^ 52 * brst + (2 ^ 52 + 4) * (rate * (stop - t)) + Second * (N * brst)).
  { apply (Z.mul_le_mono_pos_r _ _ unit1); [done|]. unfold Second in *. clear - Hg Hv. lia. }
  assert (H5 : rate * (stop - t) <= rate * (stop - start)) by (apply Z.mul_le_mono_nonneg_l; lia).
  unfold Second in *. clear - Hg2 H5 Hn Ht H0. lia.
Qed.

(** The calls of a key at one instant. *)
Lemma times_instant k t : Forall (λ c, who c = k ∧ read c = t) w → times k w = replicate (length w) t.
Proof.
  clear Hord. induction 1 as [|c w' [Hk Hr] _ IH]; [done|]. unfold times in *. rewrite filter_cons, decide_True by done.
  rewrite fmap_cons. cbn [length replicate]. by rewrite IH, Hr.
Qed.

(** the burst.  After any calls, a user who opens sessions at one instant is
    granted at most the configured burst of them; one who has not been seen
    before is granted exactly that many, or all if they are fewer. *)
Theorem instant_burst k t :
  Forall (λ c, who c = k ∧ read c = t) w →
  allowed k (after (NewRateLimiter rate brst) h) w <= brst ∧
  (Forall (λ c, who c ≠ k) h →
   allowed k (after (NewRateLimiter rate brst) h) w = Z.min (Z.of_nat (length w)) brst).
Proof.
  intros Hw. pose proof (times_instant k t Hw) as Hts. pose proof unit1_pos as Hu.
  destruct (length w) as [|n] eqn:En.
  { apply nil_length_inv in En. rewrite En. simpl. split; [lia|intros; lia]. }
  destruct (window k t (replicate n t) Hts) as (r & b & v & c' & -> & _ & _ & _ & _ & _ & Hc & Hb & El & Hnew & _).
  change (t :: replicate n t) with (replicate (S n) t). rewrite <-El, (grants_instant rate brst Hbrst r b v) by done.
  assert (Hv : v / unit1 <= brst) by (apply Z.div_le_upper_bound; [done|]; destruct Hb; lia).
  split; [lia|]. intros ->%Hnew. by rewrite Z.div_mul by lia.
Qed.

End Window.

(** C36: a user is granted a session again a second after the last attempt: every
    refused client that backs off that long gets through, whatever the others
    do. *)
Theorem second_admits rate brst h c :
  0 < rate < 2 ^ 53 → 0 < brst < 2 ^ 53 → ordered 0 (h ++ [c]) →
  Forall (λ c', who c' = who c → read c' + Second <= read c) h →
  fst (allow c (after (NewRateLimiter rate brst) h)) = true.
Proof.
  intros Hr Hb Ho Hold. pose proof unit1_pos as Hu.
  assert (Hts : times (who c) [c] = [read c]) by (unfold times; rewrite filter_cons, decide_True by done; done).
  destruct (window rate brst Hr Hb h [c] Ho _ _ _ Hts) as (r & b & v & c' & Ha & _ & _ & _ & _ & _ & Hc & Hv & El & _ & Hge).
  specialize (Hge Hold). pose proof (grants_instant rate brst Hb r b v 1 Hc Hv) as Hg. rewrite El in Hg. cbn [replicate] in Hg.
  assert (1 <= v / unit1) by (apply Z.div_le_lower_bound; lia). rewrite Hg in Ha. cbn [allowed] in Ha.
  rewrite bool_decide_true in Ha by done. destruct (fst _); [done|]. simpl in Ha. lia.
Qed.

(** ** A limiter of one session a second, in bursts of two *)

Definition earlier : list call := [mkCall 0 1 "bob"; mkCall 5 6 "ann"].
Definition attempts : list call :=
  [mkCall 10 11 "ann"; mkCall 12 13 "ann"; mkCall 1000000012 1000000013 "ann"; mkCall 1000000020 1000000021 "ann"].

Lemma demo_ordered : ordered 0 (earlier ++ attempts).
Proof. simpl. lia. Defined.

Lemma rate_bound_witness :
  allowed "ann" (after (NewRateLimiter 1 2) earlier) attempts = 2 ∧
  Second * allowed "ann" (after (NewRateLimiter 1 2) earlier) attempts <= Second * (2 + 1) + 1 * (1000000021 - 10).
Proof.
  split; [by vm_compute|].
  apply (rate_bound 1 2 ltac:(lia) ltac:(lia) earlier attempts demo_ordered "ann" 10 1000000021); [lia|lia| | |].
  - repeat constructor; simpl; lia.
  - by vm_compute.
  - by vm_compute.
Defined.

Lemma instant_burst_witness :
  allowed "eve" (after (NewRateLimiter 1 2) earlier) (replicate 3 (mkCall 7 7 "eve")) = 2.
Proof.
  pose proof (instant_burst 1 2 ltac:(lia) ltac:(lia) earlier (replicate 3 (mkCall 7 7 "eve"))
    ltac:(simpl; lia) "eve" 7 ltac:(by repeat constructor)) as [_ H].
  exact (H ltac:(by repeat constructor)).
Defined.

Lemma second_admits_witness :
  fst (allow (mkCall 2000000030 2000000031 "ann") (after (NewRateLimiter 1 2) (earlier ++ attempts))) = true.
Proof.
  apply second_admits; [lia|lia|simpl; lia|]. repeat (constructor; [by vm_compute|]). constructor.
Defined.

End RateLimitTheorems.
