(* ===== verification/Proxy.v ===== *)
(** * The proxy: sessions over one pool

    The composition of src/relay.go with the contract of src/pool/pool.go (which
    PoolSpec.v shows the pool refines): any number of client sessions, each the
    relay of Relay.v, take backends from one pool and give them back, in any
    interleaving, while the pool evicts idle connections and shuts down as it
    likes.  Every connection carries a log of what its server has been sent since
    it last ran the reset query, and by whom. *)

From S2P Require Import Prelude Prepared PreparedTheorems Relay PoolSpec.
Import Prepared PreparedTheorems Relay.
Open Scope string_scope.
Open Scope list_scope.
Open Scope nat_scope.

Module Proxy.

(** ** Connections *)

(** A message on its way to a server: the session that had it put there, the
    statements that session had open at that moment, and the message. *)
Record entry := mkEntry { author : Z; knew : psCacheT; msg : fmsg }.

(** [sent] is what the server has received since its last reset, [queued] what
    the connection's Frontend still buffers. *)
Record wire := mkWire { sent : list entry; queued : list entry }.

Definition log (w : wire) : list entry := sent w ++ queued w.

(** The table of statements the log makes when all of it is carried out. *)
Definition statements (w : wire) : psCacheT := serve_all ∅ (msg <$> log w).

(** A connection: the proxy's record of it as it was last given back. *)
Record conn := mkConn { record : backendConn; line : wire }.

Definition tag (s : session) (l : list fmsg) : list entry := mkEntry (sid s) (cached s) <$> l.

(** A buffer only grows until it is written: what is behind the messages that
    are queued has been added by [s]. *)
Definition added (s : session) (l : list fmsg) (w : wire) : list entry := tag s (drop (length (queued w)) l).

Definition write (s : session) (l : list fmsg) (w : wire) : wire := mkWire (sent w ++ queued w ++ added s l w) [].
Definition buffer (s : session) (l : list fmsg) (w : wire) : wire := mkWire (sent w) (queued w ++ added s l w).

Definition on_line (f : wire → wire) (c : conn) : conn := mkConn (record c) (f (line c)).

(** ** State *)

Record proxy := mkProxy {
  pool : PoolSpec.astate;
  conns : gmap nat conn;           (** every connection opened so far *)
  sessions : list relay;
  known : gset Z;                  (** the ids of the sessions so far *)
}.

Definition init : proxy := mkProxy PoolSpec.ainit ∅ [] ∅.

Definition with_pool a p := mkProxy a (conns p) (sessions p) (known p).

(** ** Steps *)

Section steps.
Context (o : runtimeOpts) (L : nat).

(** What the actions of a session's step do to the pool and the connections.  A
    released connection is kept or closed, at the pool's choice. *)
Inductive settle (s : session) : list action → PoolSpec.astate * gmap nat conn →
    PoolSpec.astate * gmap nat conn → Prop :=
| settle_nil x : settle s [] x x
| settle_send m l x y : settle s l x y → settle s (PgSend m :: l) x y
| settle_flush l x y : settle s l x y → settle s (PgFlush :: l) x y
| settle_write b ms l a cs y :
    settle s l (a, alter (on_line (write s ms)) b cs) y → settle s (ToBackend b ms :: l) (a, cs) y
| settle_keep b l F B G cs y :
    settle s l (PoolSpec.mkA (F ∪ {[ bid b ]}) (B ∖ {[ bid b ]}) G false,
                alter (λ c, mkConn b (buffer s (feBuf b) (line c))) (bid b) cs) y →
    settle s (PoolRelease b :: l) (PoolSpec.mkA F B G false, cs) y
| settle_retire b l F B G shut cs y :
    settle s l (PoolSpec.mkA F (B ∖ {[ bid b ]}) (G ∪ {[ bid b ]}) shut, cs) y →
    settle s (PoolRelease b :: l) (PoolSpec.mkA F B G shut, cs) y
| settle_discard b l F B G shut cs y :
    settle s l (PoolSpec.mkA F (B ∖ {[ bid b ]}) (G ∪ {[ bid b ]}) shut, cs) y →
    settle s (PoolDiscard b :: l) (PoolSpec.mkA F B G shut, cs) y.

(** The server has run the reset query when it answers with ReadyForQuery; had it
    failed there would have been an ErrorResponse first.  The log starts anew; the
    session is as new only if that query is one that makes it so, as DISCARD ALL
    does. *)
Definition scrubbed (r : relay) (i : input) (cs : gmap nat conn) : gmap nat conn :=
  match ph r, i, backend r with
  | RReset _, Reply (ReadyForQuery _), Some b => alter (on_line (λ _, mkWire [] [])) (bid b) cs
  | _, _, _ => cs
  end.

(** What the session has put into the buffer of the connection it holds. *)
Definition holding (s : session) (r : relay) (cs : gmap nat conn) : gmap nat conn :=
  match backend r with
  | Some b => alter (on_line (buffer s (feBuf b))) (bid b) cs
  | None => cs
  end.

(** One step; the label is the session that moves and what it is handed. *)
Inductive pstep : option (relay * input) → proxy → proxy → Prop :=
| p_connect p s : (0 < sid s)%Z → sid s ∉ known p → psCache s = None →
    pstep None p (mkProxy (pool p) (conns p) (sessions p ++ [relay_init s]) ({[ sid s ]} ∪ known p))
| p_evict p F B G shut X : pool p = PoolSpec.mkA F B G shut → X ⊆ F →
    pstep None p (with_pool (PoolSpec.mkA (F ∖ X) B (G ∪ X) shut) p)
| p_shut p F B G shut : pool p = PoolSpec.mkA F B G shut → pstep None p (with_pool (PoolSpec.mkA F B G true) p)
| p_session p k r e i r' acts a cs :
    sessions p !! k = Some r → (∀ b, i ≠ Acquired b) → step o e r i = Some (r', acts) →
    settle (sess r) acts (pool p, scrubbed r i (conns p)) (a, cs) →
    pstep (Some (r, i)) p (mkProxy a (holding (sess r) r' cs) (<[ k := r' ]> (sessions p)) (known p))
| p_open p k r m e c r' acts a cs F B G shut :
    let b := mkBackend c None 0 [] in
    sessions p !! k = Some r → ph r = RAcquire m → pool p = PoolSpec.mkA F B G shut →
    c ∉ F ∪ B ∪ G → size B < L → step o e r (Acquired b) = Some (r', acts) →
    settle (sess r) acts (PoolSpec.mkA F (B ∪ {[ c ]}) G shut, <[ c := mkConn b (mkWire [] []) ]> (conns p)) (a, cs) →
    pstep (Some (r, Acquired b)) p
      (mkProxy a (holding (sess r) r' cs) (<[ k := r' ]> (sessions p)) (known p))
| p_take p k r m e c x r' acts a cs F B G shut :
    sessions p !! k = Some r → ph r = RAcquire m → pool p = PoolSpec.mkA F B G shut →
    c ∈ F → size B < L → conns p !! c = Some x → step o e r (Acquired (record x)) = Some (r', acts) →
    settle (sess r) acts (PoolSpec.mkA (F ∖ {[ c ]}) (B ∪ {[ c ]}) G shut, conns p) (a, cs) →
    pstep (Some (r, Acquired (record x))) p
      (mkProxy a (holding (sess r) r' cs) (<[ k := r' ]> (sessions p)) (known p)).

End steps.

End Proxy.
