(* ===== verification/ProxySession.v ===== *)
(** * What one session does to its connection

    A step of Relay.v seen from the wire: every message it has written or
    buffered is the session's own once the connection has been scrubbed, the
    proxy's record of a connection it serves agrees with the server's table, and
    a connection is given back with nothing but the session's own messages on it. *)

From Stdlib Require Import Ascii.
From S2P Require Import Prelude GoStrings Prepared PreparedTheorems TrackedParams Relay RelayTheorems Proxy.
Import Prepared PreparedTheorems TrackedParams Relay RelayTheorems Proxy.
Open Scope string_scope.
Open Scope list_scope.
Open Scope nat_scope.

Module ProxySession.

(** ** Buffers *)

Lemma buffer_log s l w : log (buffer s l w) = log w ++ added s l w.
Proof. unfold log, buffer. simpl. by rewrite app_assoc. Qed.

Lemma write_log s l w : log (write s l w) = log w ++ added s l w.
Proof. unfold log, write. simpl. by rewrite app_nil_r, app_assoc. Qed.

Lemma added_prefix s l w : (msg <$> queued w) `prefix_of` l → (msg <$> queued w) ++ (msg <$> added s l w) = l.
Proof.
  intros [k ->]. unfold added, tag. rewrite <-(length_fmap msg (queued w)), drop_app_length.
  by rewrite <-list_fmap_compose, list_fmap_id.
Qed.

Lemma buffer_queued s l w : (msg <$> queued w) `prefix_of` l → msg <$> queued (buffer s l w) = l.
Proof. intros H. simpl. rewrite fmap_app. by apply added_prefix. Qed.

Lemma added_same s l w : msg <$> queued w = l → added s l w = [].
Proof. intros <-. unfold added. rewrite <-(length_fmap msg), drop_all. done. Qed.

Lemma buffer_same s l w : msg <$> queued w = l → buffer s l w = w.
Proof. intros H. unfold buffer. rewrite added_same by done. destruct w. simpl. by rewrite app_nil_r. Qed.

Lemma added_app s l k w : (msg <$> queued w) `prefix_of` l → added s (l ++ k) w = added s l w ++ tag s k.
Proof.
  intros [j ->]. unfold added, tag. rewrite <-(length_fmap msg (queued w)), <-app_assoc, !drop_app_length.
  by rewrite fmap_app.
Qed.

Lemma buffer_after_write s l w k : buffer s k (write s l w) = mkWire (log w ++ added s l w) (tag s k).
Proof. unfold buffer, write, added, log. simpl. by rewrite drop_0, <-app_assoc. Qed.

Section session.
Context (o : runtimeOpts) (watched : Z).

(** The reset query is configured; a session that gets its own connection back
    without it is not watched. *)
Context (Hreset : serverResetQuery o ≠ "") (Hskip : resetSkipSameSession o = true → watched = 0%Z).

(** ** Properties of a log *)

Definition own (s : Z) (l : list entry) : Prop := Forall (λ e, author e = s) l.

(** Every Bind or Describe the watched session has put on this wire found the
    statement that session had under that name. *)
Definition found (l : list entry) : Prop :=
  ∀ l1 e l2 n info, l = l1 ++ e :: l2 → author e = watched → refers (msg e) = Some n → n ≠ "" →
    knew e !! n = Some info → serve_all ∅ (msg <$> l1) !! n = Some info.

Lemma own_tag s l : own (sid s) (tag s l).
Proof. apply Forall_fmap, Forall_true. done. Qed.

Lemma own_app s l k : own s (l ++ k) ↔ own s l ∧ own s k.
Proof. apply Forall_app. Qed.

Lemma found_nil : found [].
Proof. intros [|] ? ? ? ? ?; done. Qed.

Lemma found_app s l ms :
  found l →
  (sid s = watched → ∀ m1 m m2 n info, ms = m1 ++ m :: m2 → refers m = Some n → n ≠ "" →
     cached s !! n = Some info → serve_all (serve_all ∅ (msg <$> l)) m1 !! n = Some info) →
  found (l ++ tag s ms).
Proof.
  intros Hl Hs l1 e l2 n info E Ha Hr Hn Hk.
  apply app_eq_inv in E as [(k & -> & Hk2)|(k & -> & E)].
  - destruct k as [|e' k]; simpl in Hk2.
    + rewrite app_nil_r in *. destruct ms as [|m ms]; [done|]. injection Hk2 as -> ->. simpl in *.
      apply (Hs Ha [] m ms n info); done.
    + injection Hk2 as <- ->. by eapply Hl.
  - unfold tag in E. apply fmap_app_inv in E as (m1 & [|m m2] & -> & E2 & ->); [done|].
    injection E2 as -> ->. simpl in *. rewrite fmap_app, serve_all_app. 
    rewrite <-list_fmap_compose, list_fmap_id. by eapply Hs.
Qed.

Lemma found_quiet s l ms :
  found l → (sid s = watched → Forall (λ m, refers m = None) ms) → found (l ++ tag s ms).
Proof.
  intros Hl Hq. apply found_app; [done|]. intros Hs m1 m m2 n info -> Hr. specialize (Hq Hs).
  apply Forall_app in Hq as [_ Hq]. inversion Hq. congruence.
Qed.

(** ** The state of a session and its connection *)

(** A message the replay handles: no DDL, no name prepared twice. *)
Definition polite (s : session) (m : fmsg) : Prop := sid s = watched → ddl_free m = true ∧ fresh_parse s m.

(** A message that touches no statement. *)
Definition quiet (m : fmsg) : Prop := refers m = None ∧ ∀ T, serve T m = T.

(** A session that serves its client from [b]; [s] is the session at the start
    of the step, [ss] as it is now. *)
Record serves (s ss : session) (b : backendConn) (w : wire) : Prop := mkServes {
  sv_prefix : (msg <$> queued w) `prefix_of` feBuf b;
  sv_owner : stateOwner b = sid s;
  sv_own : own (sid s) (log (buffer s (feBuf b) w));
  sv_found : found (log (buffer s (feBuf b) w));
  sv_coh : sid s = watched → Coh ss b (statements (buffer s (feBuf b) w));
}.

Definition serving (f : phase) : bool :=
  match f with RClient | RBatch _ | RBackend _ | RCopyIn _ _ | RCopyBoth _ _ => true | _ => false end.

(** The message that waits for a backend. *)
Definition awaits (f : phase) : option fmsg :=
  match f with RAcquire m | RReset m | RParams m => Some m | _ => None end.

Abbreviation held := (option (nat * wire)).

Record fits (s : session) (r : relay) (b : backendConn) (w : wire) : Prop := mkFits {
  ft_prefix : (msg <$> queued w) `prefix_of` feBuf b;
  ft_found : found (log (buffer s (feBuf b) w));
  ft_serving : serving (ph r) = true → serves s (sess r) b w;
  ft_params : ∀ m, ph r = RParams m →
    own (sid s) (log (buffer s (feBuf b) w)) ∧ preparedStmts b = None ∧
    (sid s = watched → statements (buffer s (feBuf b) w) = ∅);
  ft_reset : ∀ m, ph r = RReset m → feBuf b = [];
}.

Record good (s : session) (r : relay) (h : held) : Prop := mkGood {
  gd_sid : sid (sess r) = sid s;
  gd_awaits : ∀ m, awaits (ph r) = Some m → polite (sess r) m;
  gd_backend : match needs_backend (ph r) with
               | None => True
               | Some true => is_Some (backend r)
               | Some false => backend r = None
               end;
  gd_held : match h, backend r with
            | None, None => True
            | Some (c, w), Some b => c = bid b ∧ fits s r b w
            | _, _ => False
            end;
}.

(** What must hold of the actions of a step, and then [Q] of what is held. *)
Fixpoint runs (s : session) (l : list action) (h : held) (Q : held → Prop) : Prop :=
  match l with
  | [] => Q h
  | PgSend _ :: l | PgFlush :: l => runs s l h Q
  | ToBackend c ms :: l =>
      match h with
      | Some (c', w) => c' = c ∧ (msg <$> queued w) `prefix_of` ms ∧ found (log (write s ms w)) ∧
          runs s l (Some (c, write s ms w)) Q
      | None => False
      end
  | PoolRelease b :: l =>
      match h with
      | Some (c, w) => c = bid b ∧ (∃ ss, serves s ss b w) ∧ runs s l None Q
      | None => False
      end
  | PoolDiscard b :: l =>
      match h with Some (c, w) => c = bid b ∧ runs s l None Q | None => False end
  end.

Definition fine (s : session) (x : relay * list action) (h : held) : Prop := runs s x.2 h (good s x.1).

Lemma runs_app s l k h Q : runs s (l ++ k) h Q ↔ runs s l h (λ h, runs s k h Q).
Proof.
  revert h. induction l as [|a l IH]; intros h; [done|].
  destruct a; simpl; try apply IH; destruct h as [[c w]|]; try done; rewrite IH; done.
Qed.

Lemma runs_mono s l h (Q Q' : held → Prop) : (∀ h, Q h → Q' h) → runs s l h Q → runs s l h Q'.
Proof.
  intros HQ. revert h. induction l as [|a l IH]; intros h; [apply HQ|].
  destruct a; simpl; try apply IH; destruct h as [[c w]|]; try done; naive_solver.
Qed.

(** ** Messages *)

Lemma evict_grows fuel limit b s sw b' s' sw' :
  evict fuel limit b s sw = (b', s', sw') → feBuf b `prefix_of` feBuf b'.
Proof.
  revert b s sw. induction fuel as [|fuel IH]; intros b s sw; simpl; [by intros; simplify_eq|].
  destruct (limit <=? size (stmts b)); [|by intros; simplify_eq].
  destruct (lruStmt (stmts b)); [|by intros; simplify_eq].
  intros E. apply IH in E. simpl in E. etrans; [|exact E]. by eexists.
Qed.

Lemma mark_grows b s n b' s' sw : markBackendHasStmt b s n = (b', s', sw) → feBuf b `prefix_of` feBuf b'.
Proof.
  unfold markBackendHasStmt, touch. destruct (_ && _).
  - destruct (evict _ _ b s no_swallow) as [[b1 s1] sw1] eqn:Ev. intros; simplify_eq/=. by eapply evict_grows.
  - by intros; simplify_eq.
Qed.

Lemma side_grows b s sql b' s' : checkSQLSideEffects b s sql = (b', s') → feBuf b' = feBuf b.
Proof.
  unfold checkSQLSideEffects, checkListenWarn, invalidatePSCachesOnDDL. intros.
  repeat case_match; simplify_eq/=; done.
Qed.

Lemma ensure_grows b s n b' s' sw : ensureBackendHasStmt b s n = (b', s', sw) → feBuf b `prefix_of` feBuf b'.
Proof.
  unfold ensureBackendHasStmt, touch. intros. repeat case_match; simplify_eq/=; try done.
  match goal with H : markBackendHasStmt _ _ _ = _ |- _ => apply mark_grows in H; etrans; [exact H|] end.
  by eexists.
Qed.

Lemma process_grows b s m b' s' sw : processClientMsg b s m = Ok (b', s', sw) → feBuf b `prefix_of` feBuf b'.
Proof.
  destruct m; simpl; unfold trackClientParse; intros H; repeat case_match; simplify_eq/=; try done;
    repeat match goal with
    | H : checkSQLSideEffects _ _ _ = _ |- _ => apply side_grows in H
    | H : ensureBackendHasStmt _ _ _ = _ |- _ => apply ensure_grows in H
    | H : markBackendHasStmt _ _ _ = _ |- _ => apply mark_grows in H
    end; try done; match goal with H : feBuf _ = _ |- _ => by rewrite H end.
Qed.

Lemma injected_quiet l :
  count is_parse l + count is_close l <= length l ∧
  (length l = count is_parse l + count is_close l → Forall (λ m, refers m = None) l).
Proof.
  unfold count. induction l as [|m l [IH1 IH2]]; [done|].
  rewrite !filter_cons. destruct m; simpl; (split; [lia|]); intros E; try (exfalso; lia);
    constructor; try done; apply IH2; lia.
Qed.

Lemma buffer_more s b w k :
  (msg <$> queued w) `prefix_of` feBuf b →
  log (buffer s (feBuf b ++ k) w) = log (buffer s (feBuf b) w) ++ tag s k.
Proof. intros H. rewrite !buffer_log, added_app by done. by rewrite app_assoc. Qed.

Lemma msg_tag s k : msg <$> tag s k = k.
Proof. unfold tag. by rewrite <-list_fmap_compose, list_fmap_id. Qed.

Lemma statements_more s b w k :
  (msg <$> queued w) `prefix_of` feBuf b →
  statements (buffer s (feBuf b ++ k) w) = serve_all (statements (buffer s (feBuf b) w)) k.
Proof. intros H. unfold statements. by rewrite buffer_more, fmap_app, serve_all_app, msg_tag. Qed.

Lemma Coh_send s b m T : Coh s b T → Coh s (send m b) T.
Proof. by intros []. Qed.

(** A message of the client, with what is injected before it. *)
Lemma process_serves s b w m b' s' sw :
  serves s s b w → polite s m → processClientMsg b s m = Ok (b', s', sw) → serves s s' (send m b') w.
Proof.
  intros [Hp Ho Hw Hf Hc] Hm E. destruct (process_grows _ _ _ _ _ _ E) as [inj Hg].
  pose proof (process_keeps _ _ _ _ _ _ E) as (_ & Hk & _).
  assert (Hbuf : feBuf (send m b') = feBuf b ++ inj ++ [m]) by (simpl; by rewrite Hg, <-app_assoc).
  constructor; rewrite ?Hbuf, ?buffer_more, ?statements_more by done.
  - by apply prefix_app_r.
  - simpl. congruence.
  - apply own_app. split; [done|apply own_tag].
  - apply found_app; [done|]. intros Hs m1 m0 m2 n info Em Hr Hn Hi. destruct (Hm Hs) as [Hd Hfp].
    destruct (process_replays _ _ _ _ _ _ _ (Hc Hs) Hd Hfp E) as (inj' & Hb' & _ & _ & Hn1 & Hn2 & Hn3 & Hi').
    rewrite Hg in Hb'. apply app_inj_1 in Hb' as [_ <-]; [|done].
    assert (Hq : Forall (λ m, refers m = None) inj) by (apply injected_quiet; lia).
    destruct m2 as [|x m2 _] using rev_ind.
    + apply app_inj_tail in Em as [<- <-]. by apply Hi'.
    + exfalso. rewrite app_comm_cons, app_assoc in Em. apply app_inj_tail in Em as [-> _].
      apply Forall_app in Hq as [_ Hq]. inversion Hq. congruence.
  - intros Hs. destruct (Hm Hs) as [Hd Hfp].
    destruct (process_replays _ _ _ _ _ _ _ (Hc Hs) Hd Hfp E) as (inj' & Hb' & _ & Hco & _).
    rewrite Hg in Hb'. apply app_inj_1 in Hb' as [_ <-]; [|done]. by apply Coh_send.
Qed.

(** A message that is passed on as it is. *)
Lemma send_serves s ss b w m : serves s ss b w → (sid s = watched → quiet m) → serves s ss (send m b) w.
Proof.
  intros [Hp Ho Hw Hf Hc] Hq. constructor; simpl; rewrite ?buffer_more, ?statements_more by done.
  - by apply prefix_app_r.
  - done.
  - apply own_app. split; [done|apply own_tag].
  - apply found_quiet; [done|]. intros Hs. constructor; [by apply Hq|done].
  - intros Hs. simpl. rewrite (proj2 (Hq Hs)). by apply Coh_send, Hc.
Qed.

(** Writing the buffer. *)
Lemma flushed_log s b w : log (buffer s [] (write s (feBuf b) w)) = log (buffer s (feBuf b) w).
Proof. rewrite buffer_after_write, buffer_log. unfold log at 1. simpl. by rewrite app_nil_r. Qed.

Lemma flush_serves s ss b w : serves s ss b w → serves s ss (with_feBuf [] b) (write s (feBuf b) w).
Proof.
  intros [Hp Ho Hw Hf Hc]. constructor; simpl; unfold statements; rewrite ?flushed_log; try done.
  intros Hs. by destruct (Hc Hs).
Qed.

Lemma write_found s b w : found (log (buffer s (feBuf b) w)) → found (log (write s (feBuf b) w)).
Proof. by rewrite write_log, buffer_log. Qed.

(** ** Helpers of the relay *)

Lemma leave_fine k s r b w :
  backend r = Some b → sid (sess r) = sid s →
  (k = true → serves s (sess r) (with_stateOwner (sid s) b) w) → fine s (leave k r) (Some (bid b, w)).
Proof.
  intros Hb Hs Hk. unfold leave, release. rewrite Hb. unfold fine. destruct k; simpl.
  - split; [done|]. split; [rewrite Hs; eexists; by apply Hk|]. by constructor.
  - split; [done|]. by constructor.
Qed.

Lemma leave_none_fine k s r : backend r = None → sid (sess r) = sid s → fine s (leave k r) None.
Proof. intros Hb Hs. unfold leave, release. rewrite Hb. unfold fine. simpl. constructor; simpl; by rewrite ?Hb. Qed.

Lemma serves_owner s ss b w : serves s ss b w → serves s ss (with_stateOwner (sid s) b) w.
Proof. intros [? Ho ? ? Hc]. constructor; try done. intros Hs. by destruct (Hc Hs). Qed.

Lemma fine_cons s a x h :
  (match a with PgSend _ | PgFlush => true | _ => false end = true) → fine s x h → fine s (x.1, a :: x.2) h.
Proof. unfold fine. by destruct a. Qed.

Lemma fine_fatal s x h code message : fine s x h → fine s (x.1, fatal code message ++ x.2) h.
Proof. done. Qed.

Lemma fine_after_fatal s x h code message : fine s x h → fine s (x.1, x.2 ++ fatal code message) h.
Proof. unfold fine. simpl. by rewrite runs_app. Qed.

(** A state in which the session serves its client from [b]. *)
Lemma serving_good s r b w :
  serving (ph r) = true → backend r = Some b → sid (sess r) = sid s → serves s (sess r) b w →
  good s r (Some (bid b, w)).
Proof.
  intros Hf Hb Hs Hw. constructor.
  - done.
  - intros m. by destruct (ph r).
  - rewrite Hb. revert Hf. destruct (ph r); (done || by eexists).
  - rewrite Hb. split; [done|]. pose proof Hw as [? ? ? ? ?].
    constructor; try done; intros m E; by rewrite E in Hf.
Qed.

(** A state without a backend. *)
Lemma bare_good s r :
  backend r = None → sid (sess r) = sid s → (∀ m, awaits (ph r) = Some m → polite (sess r) m) →
  needs_backend (ph r) ≠ Some true → good s r None.
Proof.
  intros Hb Hs Ha Hn. constructor; [done|done| |by rewrite Hb].
  destruct (needs_backend (ph r)) as [[|]|]; [done|done|done].
Qed.

Lemma serving_fine s f r b w :
  serving f = true → backend r = Some b → sid (sess r) = sid s → serves s (sess r) b w →
  fine s (set_ph f r, []) (Some (bid b, w)).
Proof. intros. by apply serving_good. Qed.

Lemma flush_batch_fine e sw s b r w :
  sid (sess r) = sid s → serves s (sess r) b w → fine s (flushToBackend e sw b r) (Some (bid b, w)).
Proof.
  intros Hs Hw. unfold flushToBackend. destruct (feFlushOk e).
  - cbn [feFlush]. unfold fine. simpl. pose proof Hw as [Hp _ _ Hf _].
    split_and!; [done|done|by apply write_found|].
    apply (serving_good s _ (with_feBuf [] b)); [done..|]. by apply flush_serves.
  - by apply leave_fine.
Qed.

Lemma forward_fine e start sw m s b r w :
  backend r = Some b → sess r = s → polite s m → serves s s b w →
  fine s (forward e start sw m b r) (Some (bid b, w)).
Proof.
  intros Hb Hs Hm Hw. unfold forward. rewrite Hs.
  destruct (processClientMsg b s m) as [[[b' s'] inj]|n] eqn:E.
  - pose proof (process_keeps _ _ _ _ _ _ E) as (Hk & _ & Hks & _).
    pose proof (process_serves _ _ _ _ _ _ _ Hw Hm E) as Hw'. rewrite <-Hk.
    destruct (isTerminalMessage m).
    + by apply (flush_batch_fine e _ s (send m b') (set_sess s' r) w).
    + unfold fine. simpl. by apply (serving_good s _ (send m b')).
  - rewrite (surjective_pairing (leave _ r)). apply fine_fatal.
    apply leave_fine; [done|by rewrite Hs|]. intros _. rewrite Hs. by apply serves_owner.
Qed.

Lemma failReport_fine e code message s r :
  backend r = None → sid (sess r) = sid s → fine s (failReport e code message r) None.
Proof.
  intros Hb Hs. unfold fine, failReport. simpl. destruct (pgFlushOk e); by apply bare_good.
Qed.

Lemma failQuery_fine e m code message s r :
  backend r = None → sid (sess r) = sid s → fine s (failQuery e m code message r) None.
Proof.
  intros Hb Hs. unfold failQuery. destruct (isTerminalMessage m); [by apply failReport_fine|].
  unfold fine. simpl. by apply bare_good.
Qed.

Lemma adoptFailed_fine e m s b r w :
  sid (sess r) = sid s → fine s (adoptFailed e m b r) (Some (bid b, w)).
Proof.
  intros Hs. unfold adoptFailed. rewrite (surjective_pairing (failQuery _ _ _ _ _)).
  unfold fine. simpl. split; [done|]. by apply failQuery_fine.
Qed.

(** ** Adoption *)

(** A connection as it comes out of the pool, for session [s]. *)
Record pooled (s : session) (b : backendConn) (w : wire) : Prop := mkPooled {
  pl_queued : msg <$> queued w = feBuf b;
  pl_found : found (log w);
  pl_new : stateOwner b = 0%Z → log w = [];
  pl_own : stateOwner b = sid s → own (sid s) (log w);
}.

Lemma log_nil w : log w = [] → queued w = [] ∧ sent w = [].
Proof. unfold log. intros E. by apply app_eq_nil in E as [? ?]. Qed.

Lemma Coh_new s b : preparedStmts b = None → Coh s b ∅.
Proof.
  intros Hb. assert (Hs : stmts b = ∅) by (unfold stmts; by rewrite Hb).
  constructor; [by rewrite Hs| |]; intros n; rewrite Hs, lookup_empty; [by intros []|done].
Qed.

Lemma adopted_fine e m s b r w :
  sess r = s → polite s m → serves s s b w → fine s (adopted e m b r) (Some (bid b, w)).
Proof. intros Hs Hm Hw. unfold adopted. by apply forward_fine. Qed.

Lemma silent_fine e m sql f s b r w :
  sess r = s → polite s m → (f = RReset m ∨ f = RParams m) →
  (msg <$> queued w) `prefix_of` feBuf b → found (log (buffer s (feBuf b) w)) →
  (f = RParams m → log w = [] ∧ feBuf b = [] ∧ preparedStmts b = None) →
  fine s (silently e m sql f b r) (Some (bid b, w)).
Proof.
  intros Hs Hm Hor Hp Hf Hpar. unfold silently.
  destruct (feFlushOk e); [|apply (adoptFailed_fine e m s (send (Query sql) b)); by rewrite Hs].
  assert (Hf' : found (log (buffer s (feBuf (send (Query sql) b)) w))).
  { simpl. rewrite buffer_more by done. apply found_quiet; [done|]. intros _. by constructor. }
  pose proof (flushed_log s (send (Query sql) b) w) as Hfl. simpl in Hfl.
  cbn [feFlush]. unfold fine. simpl. split_and!; [done|by apply prefix_app_r|by apply (write_found s (send (Query sql) b))|].
  constructor; simpl.
  - by rewrite Hs.
  - intros m' E. rewrite Hs. destruct Hor as [->| ->]; simpl in E; by injection E as <-.
  - destruct Hor as [->| ->]; by eexists.
  - split; [done|]. constructor; simpl.
    + done.
    + by rewrite Hfl.
    + by destruct Hor as [->| ->].
    + intros m' E. destruct Hor as [->|Ep]; [done|]. destruct (Hpar Ep) as (Hl & Hbuf & Hps).
      rewrite Hbuf in *. destruct (log_nil _ Hl) as [Hq Hse]. unfold statements.
      rewrite Hfl. unfold log, buffer, added. simpl. rewrite Hq, Hse. simpl. split_and!; [by constructor|done|done].
    + done.
Qed.

Lemma adoptParams_fine e m s b r w :
  sess r = s → polite s m → log w = [] → feBuf b = [] → fine s (adoptParams e m b r) (Some (bid b, w)).
Proof.
  intros Hs Hm Hl Hb. destruct (log_nil _ Hl) as [Hq Hse]. unfold adoptParams.
  assert (Hlog : log (buffer s [] w) = []) by (rewrite buffer_log, Hl; unfold added; by rewrite drop_nil).
  destruct (params_of (sess r)) as [|q ps].
  - apply (adopted_fine e m s (with_stateOwner _ (clearBackendPSCache b))); [done..|].
    constructor; simpl; rewrite ?Hb; unfold statements; rewrite ?Hlog.
    + by rewrite Hq.
    + by rewrite Hs.
    + constructor.
    + apply found_nil.
    + intros _. by apply Coh_new.
  - apply (silent_fine e m _ _ s (clearBackendPSCache b)); simpl; try done.
    + by right.
    + by rewrite Hq, Hb.
    + rewrite Hb, Hlog. apply found_nil.
Qed.

Lemma adoptBackend_fine e m s b r w :
  sess r = s → sid s ≠ 0%Z → polite s m → pooled s b w → fine s (adoptBackend o e m b r) (Some (bid b, w)).
Proof.
  intros Hs H0 Hm [Hq Hf Hn Ho]. unfold adoptBackend. rewrite Hs. apply Z.eqb_neq in H0 as H0'. rewrite H0'.
  cbn zeta iota. rewrite Hs.
  assert (Hbuf : buffer s (feBuf b) w = w) by (by apply buffer_same).
  destruct (resetSkipSameSession o && (stateOwner b =? sid s)%Z) eqn:Ek.
  - to_prop. apply adopted_fine; [done..|].
    constructor; rewrite ?Hbuf; [by rewrite Hq|done|by apply Ho|done|].
    intros Hw. exfalso. apply H0. rewrite Hw. by apply Hskip.
  - clear Ek. destruct (negb (stateOwner b =? 0)%Z && _) eqn:Er.
    + apply silent_fine; [done|done|by left|by rewrite Hq|by rewrite Hbuf|done].
    + assert (stateOwner b = 0%Z).
      { destruct (String.eqb_spec (serverResetQuery o) ""); [done|]. rewrite andb_true_r in Er.
        apply negb_false_iff in Er. by apply Z.eqb_eq. }
      pose proof (Hn H) as Hl. destruct (log_nil _ Hl) as [Hq' _].
      apply adoptParams_fine; [done..|]. by rewrite <-Hq, Hq'.
Qed.

(** ** Replies and COPY *)

Lemma after_flush_fine e s r k b w :
  backend r = Some b → sid (sess r) = sid s →
  (∀ r', r' = set_pending 0%Z r ∨ r' = r → fine s (k r') (Some (bid b, w))) →
  fine s (after_flush e r k) (Some (bid b, w)).
Proof.
  intros Hb Hs Hk. unfold after_flush, flushClient. destruct (Z.eqb_spec (pending r) 0) as [H0|H0].
  - rewrite (surjective_pairing (k r)). unfold fine. simpl. apply Hk. by right.
  - destruct (pgFlushOk e).
    + rewrite (surjective_pairing (k _)). unfold fine. simpl. apply Hk. by left.
    + rewrite (surjective_pairing (leave _ _)). unfold fine. simpl.
      by apply (leave_fine false s (set_pending 0%Z r) b w).
Qed.

Lemma endOfCycle_fine tx s r b w :
  backend r = Some b → sid (sess r) = sid s → serves s (sess r) b w →
  fine s (endOfCycle tx r) (Some (bid b, w)).
Proof.
  intros Hb Hs Hw.
  assert (HR : ∀ k, fine s (let '(r1, acts) := release k (set_tx tx r) in (set_ph RClient r1, acts)) (Some (bid b, w))).
  { intros k. unfold release. cbn [backend set_tx]. rewrite Hb. unfold fine. destruct k; simpl.
    - split; [done|]. split; [rewrite Hs; eexists; by apply serves_owner|]. by apply bare_good.
    - split; [done|]. by apply bare_good. }
  assert (HS : fine s (set_ph RClient (set_tx tx r), []) (Some (bid b, w))) by (by apply serving_fine).
  unfold endOfCycle. cbn [sess set_tx]. repeat case_match; simplify_eq; try exact HS.
  all: match goal with H : release ?k _ = _ |- _ => specialize (HR k); rewrite H in HR; exact HR end.
Qed.

Lemma relayReply_fine e sw x s r b w :
  backend r = Some b → ph r = RBackend sw → sid (sess r) = sid s → serves s (sess r) b w →
  fine s (relayReply e sw x r) (Some (bid b, w)).
Proof.
  intros Hb Hph Hs Hw. unfold relayReply. destruct (swallowReply sw x); [by apply serving_fine|].
  set (r1 := set_pending (pending r + replyEncodedSize x)%Z r). set (k := λ r : relay, _).
  assert (Hk : ∀ r', backend r' = Some b → ph r' = RBackend sw → sess r' = sess r → fine s (k r') (Some (bid b, w))).
  { intros r' Hb' Hph' Hs'. rewrite <-Hs' in *. subst k. cbn beta.
    assert (Hstay : fine s (r', []) (Some (bid b, w))) by (unfold fine; cbn [fst snd runs]; apply serving_good; [by rewrite Hph'|done..]).
    destruct x; try exact Hstay; apply after_flush_fine; try done; intros r2 [->| ->];
      first [by apply serving_fine | by apply endOfCycle_fine]. }
  assert (HK : fine s (if (clientFlushThreshold <=? pending r1)%Z then after_flush e r1 k else k r1) (Some (bid b, w))).
  { destruct (clientFlushThreshold <=? pending r1)%Z; [|by apply Hk].
    apply after_flush_fine; [done..|]. intros r2 [->| ->]; by apply Hk. }
  destruct (if (clientFlushThreshold <=? pending r1)%Z then _ else _) as [r2 acts]. exact HK.
Qed.

Lemma copyFlush_fine e sw f s b r w :
  serving f = true → sid (sess r) = sid s → serves s (sess r) b w →
  fine s (copyFlush e sw b f r) (Some (bid b, w)).
Proof.
  intros Hf Hs Hw. unfold copyFlush. destruct (feFlushOk e); [|apply leave_fine; [done|done|by intros]].
  cbn [feFlush]. unfold fine. simpl. pose proof Hw as [Hp _ _ Hfo _].
  split_and!; [done|done|by apply write_found|].
  apply (serving_good s _ (with_feBuf [] b)); [done..|]. by apply flush_serves.
Qed.

Lemma relayCopyIn_fine e sw n m s b r w :
  sid (sess r) = sid s → serves s (sess r) b w → (sid s = watched → quiet m) →
  fine s (relayCopyIn e sw n m b r) (Some (bid b, w)).
Proof.
  intros Hs Hw Hq. unfold relayCopyIn.
  assert (HF : ∀ m f, serving f = true → (sid s = watched → quiet m) →
    fine s (copyFlush e sw (send m b) f r) (Some (bid b, w))).
  { intros m0 f Hf Hq0. apply (copyFlush_fine e sw f s (send m0 b)); [done..|]. by apply send_serves. }
  destruct m as [| | | | | | | |d| | | |]; try (by apply HF).
  - case_match; [by apply HF|].
    apply (serving_fine s _ (set_backend (Some (send (CopyData d) b)) r) (send (CopyData d) b)); try done.
    by apply send_serves.
Qed.

Lemma pumpEnd_fine k sw ps s r b w :
  backend r = Some b → sid (sess r) = sid s → serves s (sess r) b w → fine s (pumpEnd k sw ps r) (Some (bid b, w)).
Proof.
  intros Hb Hs Hw. unfold pumpEnd.
  assert (HL : fine s (leave false r) (Some (bid b, w))) by (by apply leave_fine).
  repeat case_match; try exact HL; by apply serving_fine.
Qed.

Lemma clientPump_fine e sw ps m s b r w :
  sid (sess r) = sid s → serves s (sess r) b w → (sid s = watched → quiet m) →
  fine s (clientPump e sw ps m b r) (Some (bid b, w)).
Proof.
  intros Hs Hw Hq. unfold clientPump. set (m' := match m with Terminate => CopyDone | _ => m end).
  assert (Hq' : sid s = watched → quiet m') by (subst m'; by destruct m).
  pose proof (send_serves s (sess r) b w m' Hw Hq') as Hw1. pose proof (flush_serves _ _ _ _ Hw1) as Hw2.
  pose proof Hw1 as [Hp1 _ _ Hf1 _]. pose proof (write_found _ _ _ Hf1) as Hwf. simpl in Hp1, Hwf, Hw2.
  cbn [feFlush]. set (r1 := set_backend (Some (with_feBuf [] (send m' b))) r).
  assert (HE : ∀ k ended, fine s (let '(r2, acts) := pumpEnd k sw ended r1 in
    (r2, [ToBackend (bid (send m' b)) (feBuf (send m' b))] ++ acts)) (Some (bid b, w))).
  { intros k ended. rewrite (surjective_pairing (pumpEnd _ _ _ _)). unfold fine. simpl.
    split_and!; [done|done|done|]. by apply (pumpEnd_fine k sw ended s r1 (with_feBuf [] (send m' b))). }
  assert (HS : fine s (set_ph (RCopyBoth sw ps) r1, [ToBackend (bid (send m' b)) (feBuf (send m' b))]) (Some (bid b, w))).
  { unfold fine. simpl. split_and!; [done|done|done|].
    by apply (serving_good s _ (with_feBuf [] (send m' b))). }
  subst m'. destruct m; try (apply HE); (destruct (feFlushOk e); [exact HS|apply HE]).
Qed.

Lemma backendPump_fine e sw ps x s r b w :
  backend r = Some b → sid (sess r) = sid s → serves s (sess r) b w →
  fine s (backendPump e sw ps x r) (Some (bid b, w)).
Proof.
  intros Hb Hs Hw. unfold backendPump.
  match goal with |- fine s (let '(r0, acts) := ?y in _) _ =>
    assert (HK : fine s y (Some (bid b, w))); [|by destruct y] end.
  destruct (negb (pgFlushOk e)); [by apply pumpEnd_fine|].
  destruct x; try (by apply serving_fine). by apply pumpEnd_fine.
Qed.

(** ** Every step *)

(** What the client may send, if it is watched: no DDL and no name twice, and
    inside COPY only what belongs there. *)
Definition polite_input (r : relay) (i : input) : Prop :=
  match ph r, i with
  | RClient, Client m | RBatch _, Client m => polite (sess r) m
  | RCopyIn _ _, Client m | RCopyBoth _ _, Client m => sid (sess r) = watched → quiet m
  | _, _ => True
  end.

(** What a step starts from: an acquired connection comes from the pool, and
    the answer to the reset query empties the log. *)
Definition starts (r : relay) (i : input) (h h0 : held) : Prop :=
  match i with
  | Acquired b => ∃ w, h0 = Some (bid b, w) ∧ pooled (sess r) b w
  | Reply (ReadyForQuery _) =>
      match ph r with
      | RReset _ => h0 = (λ '(c, _), (c, mkWire [] [])) <$> h
      | _ => h0 = h
      end
  | _ => h0 = h
  end.

Lemma adoptParams_scrubbed e m s r b :
  sess r = s → polite s m → feBuf b = [] → fine s (adoptParams e m b r) (Some (bid b, mkWire [] [])).
Proof. intros. by apply adoptParams_fine. Qed.

Lemma params_serves s r m b w :
  fits s r b w → ph r = RParams m → serves s s (with_stateOwner (sid s) b) w.
Proof.
  intros [Hp Hf _ Hpar _] Hph. destruct (Hpar m Hph) as (Ho & Hps & Hst). constructor; simpl; try done.
  intros Hw. rewrite (Hst Hw). by apply Coh_new.
Qed.

Lemma cut_fine k s r b w :
  backend r = Some b → sid (sess r) = sid s → serves s (sess r) b w → fine s (leave k r) (Some (bid b, w)).
Proof. intros Hb Hs Hw. apply leave_fine; [done..|]. intros _. by apply serves_owner. Qed.

(** Steps without a backend. *)
Lemma step_bare e r i r' acts h0 :
  step o e r i = Some (r', acts) → good (sess r) r None → sid (sess r) ≠ 0%Z → polite_input r i →
  starts r i None h0 → fine (sess r) (r', acts) h0.
Proof.
  intros H G H0 Hi Hst. pose proof G as [_ Ha Hb Hh]. destruct (backend r) as [b|] eqn:Eb; [done|].
  unfold step in H. rewrite Eb in H. unfold polite_input, starts in *.
  destruct (ph r) as [|m|m|m|code message|sw|sw|sw n|sw ps|] eqn:Hph; simpl in Hb; try (by destruct Hb);
    destruct i as [m'|dl|c|ae|x|dl|]; try done.
  - destruct (isTerminate m'); [|destruct (draining e)]; simplify_eq; apply bare_good; try done.
    by intros m [= <-].
  - subst h0. destruct (armClientIdleDeadline o r) as [[code reason]|]; unfold leave, release in H; rewrite Eb in H;
      [destruct dl|]; simplify_eq; by apply bare_good.
  - destruct Hst as (w & -> & Hp). simplify_eq. rewrite <-H. apply adoptBackend_fine; try done. by apply Ha.
  - subst h0. destruct ae; simplify_eq; [by apply bare_good| |];
      match goal with H : _ = (?a, ?l) |- _ => rewrite <-H end; by apply failQuery_fine.
  - subst h0. destruct (isTerminate m'); [simplify_eq; by apply bare_good|].
    destruct (isTerminalMessage m'); simplify_eq; [|exact G].
    match goal with H : _ = (?a, ?l) |- _ => rewrite <-H end. by apply failReport_fine.
  - subst h0. simplify_eq. by apply bare_good.
Qed.

(** Steps of a session that serves its client from [b]. *)
Lemma step_serving e r i r' acts b w :
  step o e r i = Some (r', acts) → serving (ph r) = true → backend r = Some b → serves (sess r) (sess r) b w →
  polite_input r i → fine (sess r) (r', acts) (Some (bid b, w)).
Proof.
  intros H Hs Eb Hw Hi. pose proof (λ k, cut_fine k (sess r) r b w Eb eq_refl Hw) as HL.
  unfold step in H. rewrite Eb in H. unfold polite_input in Hi.
  destruct (ph r) as [|m|m|m|code message|sw|sw|sw n|sw ps|] eqn:Hph; try done;
    destruct i as [m'|dl|c|ae|x|dl|]; try done.
  - destruct (isTerminate m'); simplify_eq; match goal with H : _ = (?a, ?l) |- _ => rewrite <-H end; [done|].
    by apply forward_fine.
  - specialize (HL (idleTx r)). destruct (leave _ r) as [r1 l]. repeat case_match; simplify_eq; done.
  - destruct (isTerminate m'); simplify_eq; match goal with H : _ = (?a, ?l) |- _ => rewrite <-H end; [done|].
    by apply forward_fine.
  - simplify_eq. specialize (HL (idleTx r)). by rewrite H in HL.
  - simplify_eq. rewrite <-H. by apply relayReply_fine.
  - specialize (HL false). destruct (leave _ r) as [r1 l]. case_match; simplify_eq; [|done].
    by apply (fine_after_fatal _ (r', l)).
  - simplify_eq. rewrite <-H. by apply relayCopyIn_fine.
  - simplify_eq. specialize (HL false). by rewrite H in HL.
  - destruct (c_run ps); simplify_eq. rewrite <-H. by apply clientPump_fine.
  - destruct (c_run ps); simplify_eq. rewrite <-H. by apply pumpEnd_fine.
  - destruct (b_run ps); simplify_eq. rewrite <-H. by apply backendPump_fine.
  - destruct (b_run ps); simplify_eq. rewrite <-H. by apply pumpEnd_fine.
  - destruct (first ps); simplify_eq. rewrite <-H. by apply pumpEnd_fine.
Qed.

Lemma step_fine e r i r' acts h h0 :
  step o e r i = Some (r', acts) → good (sess r) r h → sid (sess r) ≠ 0%Z → polite_input r i →
  starts r i h h0 → fine (sess r) (r', acts) h0.
Proof.
  intros H G H0 Hi Hst. pose proof G as [_ Ha Hb Hh].
  destruct h as [[c w]|]; [|by eapply step_bare].
  destruct (backend r) as [b|] eqn:Eb; [|done]. destruct Hh as [-> Hft].
  destruct (serving (ph r)) eqn:Hs.
  { assert (h0 = Some (bid b, w)) as ->.
    { unfold step in H. rewrite Eb in H. revert Hs H Hst. unfold starts.
      destruct (ph r), i as [| | | |[]| |]; done. }
    eapply step_serving; try done. by apply Hft. }
  unfold step in H. rewrite Eb in H. unfold starts in Hst.
  destruct (ph r) as [|m|m|m|code message|sw|sw|sw n|sw ps|] eqn:Hph; simpl in Hb; try done;
    destruct i as [m'|dl|c|ae|x|dl|]; try done.
  - specialize (Ha m eq_refl). pose proof (ft_reset _ _ _ _ Hft m Hph) as Hbuf.
    destruct x; try (subst h0; simplify_eq; exact G); simplify_eq; rewrite <-H;
      [by apply adoptParams_scrubbed|by apply adoptFailed_fine].
  - subst h0. simplify_eq. rewrite <-H. by apply adoptFailed_fine.
  - specialize (Ha m eq_refl). assert (h0 = Some (bid b, w)) as -> by (by destruct x).
    destruct x; simplify_eq; try exact G; rewrite <-H; [|by apply adoptFailed_fine].
    apply (adopted_fine e m (sess r) (with_stateOwner (sid (sess r)) b)); [done..|]. by eapply params_serves.
  - subst h0. simplify_eq. rewrite <-H. by apply adoptFailed_fine.
Qed.

End session.
End ProxySession.
