(* ===== verification/ProxyTheorems.v ===== *)
(** * Isolation across the proxy

    The invariant of Proxy.v: sessions hold distinct connections, as many as the
    pool allows; what is on the wire of a connection that serves a session is
    that session's alone; and a Bind finds the statement its session prepared. *)

From Stdlib Require Import Ascii.
From S2P Require Import Prelude GoStrings Prepared PreparedTheorems TrackedParams Relay RelayTheorems PoolSpec Proxy ProxySession.
Import Prepared PreparedTheorems TrackedParams Relay RelayTheorems Proxy ProxySession.
Open Scope string_scope.
Open Scope list_scope.
Open Scope nat_scope.

Module ProxyTheorems.

Section proxy.
Context (o : runtimeOpts) (L : nat) (watched : Z).
Context (Hreset : serverResetQuery o ≠ "") (Hskip : resetSkipSameSession o = true → watched = 0%Z).

Abbreviation good := (ProxySession.good watched).
Abbreviation fine := (ProxySession.fine watched).
Abbreviation runs := (ProxySession.runs watched).
Abbreviation serves := (ProxySession.serves watched).
Abbreviation found := (ProxySession.found watched).

(** ** Between steps *)

(** Everything buffered is accounted for: whose step comes next is immaterial. *)
Lemma serves_rebase s s' ss b w :
  msg <$> queued w = feBuf b → sid s = sid s' → serves s ss b w → serves s' ss b w.
Proof.
  intros Hq Hs [Hp Ho Hw Hf Hc]. rewrite buffer_same in * by done.
  constructor; rewrite ?buffer_same by done; rewrite <-?Hs; done.
Qed.

Lemma good_settled s r b w :
  backend r = Some b → good s r (Some (bid b, w)) →
  let w' := buffer s (feBuf b) w in
  msg <$> queued w' = feBuf b ∧ good (sess r) r (Some (bid b, w')) ∧ found (log w').
Proof.
  intros Hb [Hs Ha Hn Hh] w'. rewrite Hb in Hh. destruct Hh as [_ [Hp Hf Hsv Hpar Hrs]].
  assert (Hq : msg <$> queued w' = feBuf b) by (by apply buffer_queued). split_and!; [done| |done].
  assert (Hb1 : ∀ s0, buffer s0 (feBuf b) w' = w') by (intros; by apply buffer_same).
  constructor; [done|done|done|]. rewrite Hb. split; [done|]. constructor; rewrite ?Hb1; try done.
  - by rewrite Hq.
  - intros Hph. destruct (Hsv Hph) as [? ? ? ? ?]. constructor; rewrite ?Hb1, ?Hs; try done. by rewrite Hq.
  - rewrite Hs. exact Hpar.
Qed.

(** ** What a session's step does to the pool *)

Abbreviation holds h cs :=
  (match h with Some (c, w) => ∃ x : conn, cs !! c = Some x ∧ line x = w | None => True end).

Lemma settle_bare s l Q a cs y : runs s l None Q → settle s l (a, cs) y → y = (a, cs) ∧ Q None.
Proof.
  revert a cs. induction l as [|act l IH]; intros a cs Hr Hs; inversion Hs; subst; simpl in Hr; try done; by apply IH.
Qed.

(** What becomes of a held connection [c]. *)
Inductive outcome (s : session) (c : nat) (F B G : gset nat) (shut : bool) (cs : gmap nat conn) :
    PoolSpec.astate → gmap nat conn → option (nat * wire) → Prop :=
| oc_held cs' x : cs' !! c = Some x → (∀ c', c' ≠ c → cs' !! c' = cs !! c') →
    outcome s c F B G shut cs (PoolSpec.mkA F B G shut) cs' (Some (c, line x))
| oc_kept cs' b w ss : shut = false → bid b = c → serves s ss b w →
    cs' !! c = Some (mkConn b (buffer s (feBuf b) w)) → (∀ c', c' ≠ c → cs' !! c' = cs !! c') →
    outcome s c F B G shut cs (PoolSpec.mkA (F ∪ {[ c ]}) (B ∖ {[ c ]}) G shut) cs' None
| oc_gone cs' x : cs' !! c = Some x → found (log (line x)) → (∀ c', c' ≠ c → cs' !! c' = cs !! c') →
    outcome s c F B G shut cs (PoolSpec.mkA F (B ∖ {[ c ]}) (G ∪ {[ c ]}) shut) cs' None.

Lemma settle_held s l Q c w F B G shut cs x a' cs' :
  runs s l (Some (c, w)) Q → settle s l (PoolSpec.mkA F B G shut, cs) (a', cs') →
  cs !! c = Some x → line x = w → found (log w) →
  ∃ h', Q h' ∧ outcome s c F B G shut cs a' cs' h'.
Proof.
  revert w cs x. induction l as [|act l IH]; intros w cs x Hr Hs Hx Hl Hf.
  { inversion Hs; subst. eexists. split; [exact Hr|]. by econstructor. }
  inversion Hs; subst; simpl in Hr; try (by eapply IH);
    match goal with H : settle _ l _ _ |- _ => rename H into Hst end.
  - destruct Hr as (<- & Hp & Hf' & Hr).
    destruct (IH _ _ (on_line (write s ms) x) Hr Hst) as (h' & HQ & Ho); [by rewrite lookup_alter_eq, Hx|done|done|].
    exists h'. split; [done|]. inversion Ho; subst; econstructor; try done; intros c' Hc';
      match goal with H : ∀ c', _ → _ !! c' = _ |- _ => rewrite H by done end; by rewrite lookup_alter_ne.
  - destruct Hr as (-> & [ss Hsv] & Hr). destruct (settle_bare _ _ _ _ _ _ Hr Hst) as [[= -> ->] HQ].
    exists None. split; [done|]. eapply (oc_kept _ _ _ _ _ _ _ _ b (line x) ss); try done.
    + by rewrite lookup_alter_eq, Hx.
    + intros c' Hc'. by rewrite lookup_alter_ne.
  - destruct Hr as (-> & _ & Hr). destruct (settle_bare _ _ _ _ _ _ Hr Hst) as [[= -> ->] HQ].
    exists None. split; [done|]. by eapply oc_gone.
  - destruct Hr as (-> & Hr). destruct (settle_bare _ _ _ _ _ _ Hr Hst) as [[= -> ->] HQ].
    exists None. split; [done|]. by eapply oc_gone.
Qed.

(** ** The invariant *)

Definition placed (cs : gmap nat conn) (B : gset nat) (ids : gset Z) (r : relay) : Prop :=
  ((0 < sid (sess r))%Z ∧ sid (sess r) ∈ ids) ∧
  match backend r with
  | None => good (sess r) r None
  | Some b => bid b ∈ B ∧ ∃ x, cs !! bid b = Some x ∧ msg <$> queued (line x) = feBuf b ∧
      good (sess r) r (Some (bid b, line x))
  end.

(** An idle connection is new, or carries the state of the session it names. *)
Definition idles (cs : gmap nat conn) (ids : gset Z) (c : nat) : Prop :=
  ∃ x, cs !! c = Some x ∧ bid (record x) = c ∧ msg <$> queued (line x) = feBuf (record x) ∧
    (stateOwner (record x) = 0%Z ∧ log (line x) = [] ∨
     ((0 < stateOwner (record x))%Z ∧ stateOwner (record x) ∈ ids) ∧ own (stateOwner (record x)) (log (line x))).

Definition holder (ss : list relay) (k c : nat) : Prop :=
  ∃ r b, ss !! k = Some r ∧ backend r = Some b ∧ bid b = c.

Record Inv (p : proxy) : Prop := mkInv {
  iv_pool : PoolSpec.awf L (pool p);
  iv_sess : ∀ k r, sessions p !! k = Some r → placed (conns p) (PoolSpec.busy (pool p)) (known p) r;
  iv_ids : ∀ k k' r r', sessions p !! k = Some r → sessions p !! k' = Some r' → k ≠ k' → sid (sess r) ≠ sid (sess r');
  iv_excl : ∀ k k' c, holder (sessions p) k c → holder (sessions p) k' c → k = k';
  iv_busy : ∀ c, c ∈ PoolSpec.busy (pool p) → ∃ k, holder (sessions p) k c;
  iv_free : ∀ c, c ∈ PoolSpec.free (pool p) → idles (conns p) (known p) c;
  iv_found : ∀ c x, conns p !! c = Some x → found (log (line x));
}.

(** The state in which the actions of session [k] take effect: as [p], with [h]
    in the hands of the session. *)
Record ready (p : proxy) (k : nat) (h : option (nat * wire)) (a : PoolSpec.astate) (cs : gmap nat conn) : Prop := mkReady {
  rd_pool : PoolSpec.awf L a;
  rd_others : ∀ k' r, k' ≠ k → sessions p !! k' = Some r → placed cs (PoolSpec.busy a) (known p) r;
  rd_mine : match h with
            | Some (c, w) => c ∈ PoolSpec.busy a ∧ (∃ x, cs !! c = Some x ∧ line x = w) ∧ ∀ k', k' ≠ k → ¬ holder (sessions p) k' c
            | None => True
            end;
  rd_busy : ∀ c, c ∈ PoolSpec.busy a → (∃ w, h = Some (c, w)) ∨ ∃ k', k' ≠ k ∧ holder (sessions p) k' c;
  rd_free : ∀ c, c ∈ PoolSpec.free a → idles cs (known p) c;
  rd_found : ∀ c x, cs !! c = Some x → found (log (line x));
}.

Lemma holder_insert ss k r c k' :
  k < length ss → holder (<[ k := r ]> ss) k' c ↔ (if decide (k' = k) then bid <$> backend r = Some c else holder ss k' c).
Proof.
  intros Hk. unfold holder. case_decide as Hd; [subst|].
  - rewrite list_lookup_insert_eq by done. split.
    + intros (r1 & b & [= <-] & -> & <-). done.
    + intros E. destruct (backend r) as [b|] eqn:Eb; [|done]. injection E as <-. by exists r, b.
  - by rewrite list_lookup_insert_ne by done.
Qed.

Lemma placed_same cs cs' B B' ids r :
  placed cs B ids r → (∀ b, backend r = Some b → cs' !! bid b = cs !! bid b ∧ (bid b ∈ B → bid b ∈ B')) →
  placed cs' B' ids r.
Proof.
  intros [Hs Hp] Hsame. split; [done|]. destruct (backend r) as [b|]; [|done].
  destruct (Hsame b eq_refl) as [E HB]. destruct Hp as [Hin Hp]. split; [auto|]. by rewrite E.
Qed.

Lemma assemble p k r r' a cs :
  Inv p → sessions p !! k = Some r → sid (sess r') = sid (sess r) → PoolSpec.awf L a →
  placed cs (PoolSpec.busy a) (known p) r' →
  (∀ k' r2, k' ≠ k → sessions p !! k' = Some r2 → placed cs (PoolSpec.busy a) (known p) r2) →
  (∀ b k', backend r' = Some b → k' ≠ k → ¬ holder (sessions p) k' (bid b)) →
  (∀ c, c ∈ PoolSpec.busy a → bid <$> backend r' = Some c ∨ ∃ k', k' ≠ k ∧ holder (sessions p) k' c) →
  (∀ c, c ∈ PoolSpec.free a → idles cs (known p) c) →
  (∀ c x, cs !! c = Some x → found (log (line x))) →
  Inv (mkProxy a cs (<[ k := r' ]> (sessions p)) (known p)).
Proof.
  intros I Hk Hs Ha Hm Ho Hx Hb Hf Hfo. pose proof (lookup_lt_Some _ _ _ Hk) as Hlt.
  assert (Hlk : ∀ k' r2, <[ k := r' ]> (sessions p) !! k' = Some r2 →
    k' = k ∧ r2 = r' ∨ k' ≠ k ∧ sessions p !! k' = Some r2).
  { intros k' r2. destruct (decide (k' = k)) as [->|Hne].
    - rewrite list_lookup_insert_eq by done. intros [= <-]. by left.
    - rewrite list_lookup_insert_ne by done. by right. }
  constructor; cbn [pool conns sessions known]; [done|..].
  - intros k' r2 [[-> ->]|[Hne E]]%Hlk; [done|eauto].
  - intros k1 k2 r1 r2 [[-> ->]|[H1 E1]]%Hlk [[-> ->]|[H2 E2]]%Hlk Hne; [done|..]; rewrite ?Hs;
      by eapply (iv_ids _ I).
  - intros k1 k2 c. rewrite !holder_insert by done. repeat case_decide; subst; [done|..].
    + intros E Hh. destruct (backend r') as [b|] eqn:Eb; [|done]. injection E as <-. by destruct (Hx b k2).
    + intros Hh E. destruct (backend r') as [b|] eqn:Eb; [|done]. injection E as <-. by destruct (Hx b k1).
    + apply (iv_excl _ I).
  - intros c [E|(k' & Hne & Hh)]%Hb.
    + exists k. apply holder_insert; [done|]. by rewrite decide_True.
    + exists k'. apply holder_insert; [done|]. by rewrite decide_False.
  - done.
  - done.
Qed.

Lemma placed_bare cs B ids r s :
  (0 < sid s)%Z ∧ sid s ∈ ids → good s r None → backend r = None ∧ placed cs B ids r.
Proof.
  intros Hr [Hs Ha Hn Hh]. destruct (backend r) eqn:Eb; [done|]. split; [done|].
  split; [by rewrite Hs|]. rewrite Eb. constructor; [done|done|by rewrite Eb|by rewrite Eb].
Qed.

(** A session gives its connection [c] back. *)
Lemma let_go p k r r' c w a cs a' cs' :
  Inv p → sessions p !! k = Some r → ready p k (Some (c, w)) a cs → good (sess r) r' None →
  PoolSpec.awf L a' → PoolSpec.busy a' = PoolSpec.busy a ∖ {[ c ]} →
  (∀ c', c' ≠ c → cs' !! c' = cs !! c') →
  (∀ c', c' ∈ PoolSpec.free a' → idles cs' (known p) c') →
  (∀ x, cs' !! c = Some x → found (log (line x))) →
  Inv (mkProxy a' (holding (sess r) r' cs') (<[ k := r' ]> (sessions p)) (known p)).
Proof.
  intros I Hk [Ra Ro (Hc & _ & Hnot) Rb Rf Rfo] Hg Ha Hbusy Hsame Hfree Hfy.
  pose proof (proj1 (iv_sess _ I _ _ Hk)) as Hid.
  destruct (placed_bare cs' (PoolSpec.busy a') _ _ _ Hid Hg) as [Hbr Hp]. unfold holding. rewrite Hbr.
  eapply assemble; try done.
  - by apply Hg.
  - intros k' r2 Hk' E. eapply placed_same; [by eapply Ro|]. intros b2 Eb2.
    assert (bid b2 ≠ c) by (intros <-; apply (Hnot k' Hk'); by exists r2, b2).
    rewrite Hbusy. split; [by apply Hsame|]. intros ?. apply elem_of_difference. split; [done|].
    by rewrite elem_of_singleton.
  - by rewrite Hbr.
  - rewrite Hbusy. intros c' [Hc' Hn]%elem_of_difference. rewrite elem_of_singleton in Hn.
    destruct (Rb c' Hc') as [[? [= <- _]]|?]; [done|by right].
  - intros c' z Hz. destruct (decide (c' = c)) as [->|Hd]; [auto|]. rewrite Hsame in Hz by done. by eapply Rfo.
Qed.

(** A session's step keeps the invariant. *)
Lemma advance p k r r' acts h a cs a' cs1 :
  Inv p → sessions p !! k = Some r → ready p k h a cs → fine (sess r) (r', acts) h →
  settle (sess r) acts (a, cs) (a', cs1) →
  Inv (mkProxy a' (holding (sess r) r' cs1) (<[ k := r' ]> (sessions p)) (known p)).
Proof.
  intros I Hk R Hfine Hst. pose proof R as [Ra Ro Rm Rb Rf Rfo]. pose proof (proj1 (iv_sess _ I _ _ Hk)) as Hid.
  destruct h as [[c w]|].
  2: { destruct (settle_bare _ _ _ _ _ _ Hfine Hst) as [[= -> ->] Hg].
       destruct (placed_bare cs (PoolSpec.busy a) _ _ _ Hid Hg) as [Hb Hp]. simpl in Hg, Hb, Hp.
       unfold holding. rewrite Hb. eapply assemble; try done; [by apply Hg|by rewrite Hb|].
       intros c' Hc'. destruct (Rb c' Hc') as [[? ?]|?]; [done|by right]. }
  destruct Rm as (Hc & (x & Hx & Hl) & Hnot). destruct a as [F B G shut].
  assert (Hother : ∀ k' r2 b, k' ≠ k → sessions p !! k' = Some r2 → backend r2 = Some b → bid b ≠ c).
  { intros k' r2 b Hne E Eb <-. apply (Hnot k' Hne). by exists r2, b. }
  destruct (settle_held _ _ _ _ _ _ _ _ _ _ _ _ _ Hfine Hst Hx Hl) as (h' & Hg & Ho); [subst w; by eapply Rfo|].
  pose proof Ra as (_ & Ra2 & _). simpl in *.
  assert (Hdis : ∀ c', c' ∈ F → c' ≠ c) by (intros c' Hc' ->; by apply (Ra2 c)).
  destruct Ho as [cs' y Hy Hsame|cs' b w' ss Hsh Hb Hsv Hy Hsame|cs' y Hy Hfy Hsame].
  - pose proof Hg as [Hs _ _ Hh]. destruct (backend r') as [b|] eqn:Eb; [|done]. destruct Hh as [-> _].
    destruct (good_settled _ _ _ _ Eb Hg) as (Hq & Hg' & Hfo). unfold holding. rewrite Eb.
    assert (Hlook : alter (on_line (buffer (sess r) (feBuf b))) (bid b) cs' !! bid b
      = Some (on_line (buffer (sess r) (feBuf b)) y)) by (by rewrite lookup_alter_eq, Hy).
    assert (Hne : ∀ c', c' ≠ bid b → alter (on_line (buffer (sess r) (feBuf b))) (bid b) cs' !! c' = cs !! c')
      by (intros c' Hc'; rewrite lookup_alter_ne by done; by apply Hsame).
    eapply assemble; try done.
    + split; [by rewrite Hs|]. rewrite Eb. split; [done|]. eexists. by rewrite Hlook.
    + intros k' r2 Hk' E. eapply placed_same; [by eapply Ro|]. intros b2 Eb2. split; [|done].
      apply Hne. by eapply Hother.
    + intros b2 k'. rewrite Eb. intros [= <-]. apply Hnot.
    + intros c' Hc'. destruct (Rb c' Hc') as [[w' [= <- _]]|?]; [left; by rewrite Eb|by right].
    + intros c' Hc'. destruct (Rf c' Hc') as (z & Hz & Hrest). exists z. split; [|done].
      by rewrite Hne by auto.
    + intros c' z Hz. destruct (decide (c' = bid b)) as [->|Hd]; [|rewrite Hne in Hz by done; by eapply Rfo].
      rewrite Hlook in Hz. by injection Hz as <-.
  - subst shut. eapply let_go; try done; [by apply PoolSpec.awf_step with (1 := PoolSpec.a_give L F B G c Hc)|..].
    + intros c' [Hc'|Hc']%elem_of_union.
      * destruct (Rf c' Hc') as (z & Hz & Hrest). exists z. split; [|done]. by rewrite Hsame by auto.
      * apply elem_of_singleton in Hc' as ->. eexists. split; [exact Hy|]. pose proof Hsv as [Hp1 Hp2 Hp3 _ _].
        cbn [record line]. split_and!; [done|by apply buffer_queued|]. right. rewrite Hp2. by split.
    + intros z. rewrite Hy. intros [= <-]. apply Hsv.
  - eapply let_go; try done; [by apply PoolSpec.awf_step with (1 := PoolSpec.a_kill L F B G shut c Hc)|..].
    + intros c' Hc'. destruct (Rf c' Hc') as (z & Hz & Hrest). exists z. split; [|done]. by rewrite Hsame by auto.
    + intros z. rewrite Hy. by intros [= <-].
Qed.

(** ** Every step *)

Definition polite_label (lab : option (relay * input)) : Prop :=
  match lab with Some (r, i) => polite_input watched r i | None => True end.

Lemma placed_later cs B ids ids' r : ids ⊆ ids' → placed cs B ids r → placed cs B ids' r.
Proof. intros Hle [[? ?] ?]. split; [split; [done|by apply Hle]|done]. Qed.

Lemma idles_later cs ids ids' c : ids ⊆ ids' → idles cs ids c → idles cs ids' c.
Proof.
  intros Hle (x & ? & ? & ? & [?|[[? ?] ?]]). { exists x. by auto. }
  exists x. split_and!; [done..|]. right. split; [split; [done|by apply Hle]|done].
Qed.

Lemma Inv_connect p s :
  Inv p → (0 < sid s)%Z → sid s ∉ known p →
  Inv (mkProxy (pool p) (conns p) (sessions p ++ [relay_init s]) ({[ sid s ]} ∪ known p)).
Proof.
  intros I Hs Hn. assert (Hle : known p ⊆ {[ sid s ]} ∪ known p) by apply union_subseteq_r.
  assert (Hlk : ∀ k r, (sessions p ++ [relay_init s]) !! k = Some r →
    sessions p !! k = Some r ∨ (k = length (sessions p) ∧ r = relay_init s)).
  { intros k r [?|[? E]]%lookup_app_Some; [by left|]. right. apply list_lookup_singleton_Some in E as [E <-]. split; [lia|done]. }
  assert (Hold : ∀ k r, sessions p !! k = Some r → sid (sess r) ≠ sid s).
  { intros k r E Eq. destruct (iv_sess _ I _ _ E) as [[_ Hin] _]. by rewrite Eq in Hin. }
  assert (Hh : ∀ k c, holder (sessions p ++ [relay_init s]) k c ↔ holder (sessions p) k c).
  { intros k c. split.
    - intros (r & b & [E|[_ ->]]%Hlk & Eb & Ec); [by exists r, b|done].
    - intros (r & b & E & Eb & Ec). exists r, b. by rewrite (lookup_app_l_Some _ _ _ _ E). }
  constructor; cbn [pool conns sessions known].
  - apply (iv_pool _ I).
  - intros k r [E|[-> ->]]%Hlk.
    + eapply placed_later; [done|by eapply (iv_sess _ I)].
    + split; [split; [done|by apply elem_of_union_l, elem_of_singleton]|]. by apply bare_good.
  - intros k k' r r' [E|[-> ->]]%Hlk [E'|[-> ->]]%Hlk Hne; [by eapply (iv_ids _ I)|by eapply Hold| |done].
    intros Eq. by eapply Hold.
  - intros k k' c. rewrite !Hh. apply (iv_excl _ I).
  - intros c [k Hc]%(iv_busy _ I). exists k. by apply Hh.
  - intros c Hc%(iv_free _ I). by eapply idles_later.
  - apply (iv_found _ I).
Qed.

Lemma Inv_pool p a :
  Inv p → PoolSpec.awf L a → PoolSpec.busy a = PoolSpec.busy (pool p) → PoolSpec.free a ⊆ PoolSpec.free (pool p) →
  Inv (with_pool a p).
Proof.
  intros I Ha Hb Hf. constructor; cbn [with_pool pool conns sessions known]; rewrite ?Hb; try apply I; [done|].
  intros c Hc. apply (iv_free _ I). by apply Hf.
Qed.

(** The session as it stands, before its step. *)
Definition mine (p : proxy) (r : relay) : option (nat * wire) :=
  match backend r with Some b => (λ x, (bid b, line x)) <$> conns p !! bid b | None => None end.

Lemma mine_good p k r : Inv p → sessions p !! k = Some r → good (sess r) r (mine p r).
Proof.
  intros I Hk. destruct (iv_sess _ I _ _ Hk) as [_ Hp]. unfold mine. destruct (backend r) as [b|]; [|done].
  destruct Hp as (_ & x & Hx & _ & Hg). by rewrite Hx.
Qed.

(** Only the connection of the session that moves can change. *)
Lemma ready_same p k r cs h :
  Inv p → sessions p !! k = Some r →
  (∀ c, (bid <$> backend r) ≠ Some c → cs !! c = conns p !! c) →
  match h with Some (c, w) => bid <$> backend r = Some c ∧ ∃ x, cs !! c = Some x ∧ line x = w | None => backend r = None end →
  (∀ c x, cs !! c = Some x → found (log (line x))) →
  ready p k h (pool p) cs.
Proof.
  intros I Hk Hsame Hh Hfo.
  assert (Hmine : ∀ c k', bid <$> backend r = Some c → k' ≠ k → ¬ holder (sessions p) k' c).
  { intros c k' E Hne Hh'. apply Hne. apply (iv_excl _ I k' k c); [done|].
    destruct (backend r) as [b|] eqn:Eb; [|done]. injection E as <-. by exists r, b. }
  constructor; [apply (iv_pool _ I)|..].
  - intros k' r2 Hne E. eapply placed_same; [by eapply (iv_sess _ I)|]. intros b Eb. split; [|done].
    apply Hsame. intros Ec. apply (Hmine _ k' Ec Hne). by exists r2, b.
  - destruct h as [[c w]|]; [|done]. destruct Hh as (Ec & Hx). split_and!; [|done|auto].
    destruct (backend r) as [b|] eqn:Eb; [|done]. injection Ec as <-.
    pose proof (proj2 (iv_sess _ I _ _ Hk)) as Hp. rewrite Eb in Hp. apply Hp.
  - intros c (k' & Hc)%(iv_busy _ I). destruct (decide (k' = k)) as [->|Hne]; [|eauto]. left.
    destruct Hc as (r2 & b & E & Eb & <-). simplify_eq. destruct h as [[c w]|]; [|congruence].
    destruct Hh as [Ec _]. rewrite Eb in Ec. injection Ec as <-. eauto.
  - intros c Hc. destruct (iv_free _ I c Hc) as (x & Hx & Hrest). exists x. split; [|done]. rewrite Hsame; [done|].
    intros Ec. destruct (backend r) as [b|] eqn:Eb; [|done]. injection Ec as <-.
    pose proof (proj2 (iv_sess _ I _ _ Hk)) as Hp. rewrite Eb in Hp. destruct Hp as [Hin _].
    destruct (iv_pool _ I) as (_ & Hd & _). by apply (Hd (bid b)).
  - done.
Qed.

(** What a session starts from when it is not handed a connection. *)
Lemma ready_session p k r i :
  Inv p → sessions p !! k = Some r → (∀ b, i ≠ Acquired b) →
  ∃ h, starts watched r i (mine p r) h ∧ ready p k h (pool p) (scrubbed r i (conns p)).
Proof.
  intros I Hk Hi. pose proof (proj2 (iv_sess _ I _ _ Hk)) as Hp.
  assert (Hsame : ready p k (mine p r) (pool p) (conns p)).
  { eapply ready_same; try done; [|apply (iv_found _ I)]. unfold mine.
    destruct (backend r) as [b|]; [|done]. destruct Hp as (_ & x & Hx & _). rewrite Hx. simpl. split; [done|]. eauto. }
  unfold starts, scrubbed.
  destruct (ph r), i as [| |b| |[]| |]; try (by eexists); try (by destruct (Hi b)).
  unfold mine in *. destruct (backend r) as [b|] eqn:Eb; [|by eexists].
  destruct Hp as (_ & x & Hx & _). rewrite Hx in *. simpl.
  exists (Some (bid b, mkWire [] [])). split; [done|]. eapply ready_same; try done.
  - intros c Hc. rewrite lookup_alter_ne; [done|]. intros <-. by rewrite Eb in Hc.
  - rewrite Eb, lookup_alter_eq, Hx. split; [done|]. by eexists.
  - intros c y Hy. destruct (decide (c = bid b)) as [->|Hne].
    + rewrite lookup_alter_eq, Hx in Hy. injection Hy as <-. apply found_nil.
    + rewrite lookup_alter_ne in Hy by done. by eapply (iv_found _ I).
Qed.

(** A session that waits for a connection is handed [c]. *)
Lemma ready_acquire p k r m c x F G shut B :
  Inv p → sessions p !! k = Some r → ph r = RAcquire m →
  PoolSpec.awf L (PoolSpec.mkA F (B ∪ {[ c ]}) G shut) → PoolSpec.busy (pool p) = B →
  F ⊆ PoolSpec.free (pool p) → c ∉ B → found (log (line x)) →
  ready p k (Some (c, line x)) (PoolSpec.mkA F (B ∪ {[ c ]}) G shut) (<[ c := x ]> (conns p)).
Proof.
  intros I Hk Hph Ha HB HF Hc Hf.
  assert (Hb : backend r = None).
  { pose proof (gd_backend _ _ _ _ (mine_good p k r I Hk)) as Hn. by rewrite Hph in Hn. }
  assert (Hin : ∀ k' c', holder (sessions p) k' c' → c' ∈ B).
  { intros k' c' (r2 & b & E & Eb & <-). pose proof (proj2 (iv_sess _ I _ _ E)) as Hp. rewrite Eb in Hp.
    rewrite <-HB. apply Hp. }
  constructor; cbn [PoolSpec.busy PoolSpec.free]; [done|..].
  - intros k' r2 Hne E. eapply placed_same; [by eapply (iv_sess _ I)|]. intros b Eb. rewrite HB.
    assert (bid b ∈ B) by (eapply (Hin k'); by exists r2, b).
    split; [|intros; by apply elem_of_union_l]. rewrite lookup_insert_ne; [done|]. by intros ->.
  - split_and!; [by apply elem_of_union_r, elem_of_singleton|exists x; by rewrite lookup_insert_eq|].
    intros k' _ Hh. by apply Hin in Hh.
  - intros c' [Hc'|Hc']%elem_of_union.
    + right. rewrite <-HB in Hc'. destruct (iv_busy _ I c' Hc') as [k' Hh]. exists k'. split; [|done].
      intros ->. destruct Hh as (r2 & b & E & Eb & _). by simplify_eq.
    + apply elem_of_singleton in Hc' as ->. left. eauto.
  - intros c' Hc'. destruct (iv_free _ I c' (HF _ Hc')) as (y & Hy & Hrest). exists y. split; [|done].
    rewrite lookup_insert_ne; [done|]. intros <-. destruct Ha as (_ & Hd & _). apply (Hd c); [done|].
    by apply elem_of_union_r, elem_of_singleton.
  - intros c' y. rewrite lookup_insert_Some. intros [[<- <-]|[_ Hy]]; [done|by eapply (iv_found _ I)].
Qed.

Lemma pooled_idle p c x s :
  idles (conns p) (known p) c → conns p !! c = Some x → (0 < sid s)%Z → found (log (line x)) →
  bid (record x) = c ∧ pooled watched s (record x) (line x).
Proof.
  intros (y & Hy & Hb & Hq & Ho) Hx Hs Hf. simplify_eq. split; [done|]. constructor; [done|done|..].
  - intros E. destruct Ho as [[_ ?]|[? _]]; [done|lia].
  - intros E. destruct Ho as [[? _]|[_ ?]]; [lia|congruence].
Qed.

(** A step of the environment, or one of a session that starts ready. *)
Inductive kind_of (p p' : proxy) : Prop :=
| by_pool s : (0 < sid s)%Z → sid s ∉ known p →
    p' = mkProxy (pool p) (conns p) (sessions p ++ [relay_init s]) ({[ sid s ]} ∪ known p) → kind_of p p'
| by_contract a : PoolSpec.astep L (pool p) a → PoolSpec.busy a = PoolSpec.busy (pool p) →
    PoolSpec.free a ⊆ PoolSpec.free (pool p) → p' = with_pool a p → kind_of p p'
| by_session k r r' acts h a0 cs0 a cs :
    sessions p !! k = Some r → rtc (PoolSpec.astep L) (pool p) a0 → ready p k h a0 cs0 →
    fine (sess r) (r', acts) h → settle (sess r) acts (a0, cs0) (a, cs) →
    p' = mkProxy a (holding (sess r) r' cs) (<[ k := r' ]> (sessions p)) (known p) → kind_of p p'.

Lemma pstep_kind lab p p' : pstep o L lab p p' → polite_label lab → Inv p → kind_of p p'.
Proof.
  intros Hst Hpl I.
  destruct Hst as [p s Hs Hnew _|p F B G sh X Ep HX|p F B G sh Ep|p k r e i r' acts a cs Hk Hi Hstep Hset
    |p k r m e c r' acts a cs F B G sh b Hk Hph Ep Hc HL Hstep Hset|p k r m e c x r' acts a cs F B G sh Hk Hph Ep Hc HL Hx Hstep Hset];
    try (pose proof (proj1 (iv_sess _ I _ _ Hk)) as Hid); pose proof (iv_pool _ I) as Ha.
  - by eapply by_pool.
  - eapply by_contract; [| | |done]; rewrite Ep; [by apply PoolSpec.a_evict|done|simpl; set_solver].
  - eapply by_contract; [| | |done]; rewrite Ep; [|done|done].
    destruct sh; [apply PoolSpec.a_skip|apply PoolSpec.a_shut].
  - destruct (ready_session p k r i I Hk Hi) as (h & Hs & Hr).
    eapply by_session; try done. eapply step_fine; try done; [by eapply mine_good|lia].
  - rewrite Ep in Ha. pose proof (PoolSpec.a_open L F B G sh c Hc HL) as Hop.
    pose proof (ready_acquire p k r m c (mkConn b (mkWire [] [])) F G sh B I Hk Hph (PoolSpec.awf_step L _ _ Hop Ha)) as Hr.
    rewrite Ep in Hr. specialize (Hr eq_refl ltac:(done) ltac:(set_solver) (found_nil watched)).
    eapply by_session; [done| |exact Hr| |done|done]; [rewrite Ep; by apply rtc_once|].
    eapply step_fine; try done; [by eapply mine_good|lia|].
    exists (mkWire [] []). split; [done|]. constructor; try done; [apply found_nil|]. intros _. constructor.
  - rewrite Ep in Ha. pose proof (PoolSpec.a_take L F B G sh c Hc HL) as Hop.
    assert (Hcb : c ∉ B) by (intros ?; destruct Ha as (_ & Hd & _); by apply (Hd c)).
    destruct (pooled_idle p c x (sess r)) as [Hb Hpo]; [apply (iv_free _ I); by rewrite Ep|done|lia|by eapply (iv_found _ I)|].
    pose proof (ready_acquire p k r m c x (F ∖ {[ c ]}) G sh B I Hk Hph (PoolSpec.awf_step L _ _ Hop Ha)) as Hr.
    rewrite Ep, (insert_id _ _ _ Hx) in Hr. specialize (Hr eq_refl ltac:(simpl; set_solver) Hcb ltac:(by eapply (iv_found _ I))).
    eapply by_session; [done| |exact Hr| |done|done]; [rewrite Ep; by apply rtc_once|].
    eapply step_fine; try done; [by eapply mine_good|lia|]. exists (line x). by rewrite Hb.
Qed.

Lemma isolation_step lab p p' : pstep o L lab p p' → polite_label lab → Inv p → Inv p'.
Proof.
  intros Hst Hpl I. destruct (pstep_kind _ _ _ Hst Hpl I) as [s Hs Hn ->|a Ha Hb Hf ->|]; [by apply Inv_connect| |].
  - apply Inv_pool; try done. eapply PoolSpec.awf_step; [done|apply (iv_pool _ I)].
  - subst p'. by eapply advance.
Qed.

Lemma isolation_init : Inv init.
Proof.
  clear o Hreset Hskip.
  constructor; simpl; try done.
  - split_and!; [apply (Nat.le_0_l L)|set_solver..].
  - intros k k' c (r & b & E & _). done.
Qed.

(** ** The pool is used as its contract says *)

Lemma outcome_step s c F B G shut cs a' cs' h :
  c ∈ B → outcome s c F B G shut cs a' cs' h → PoolSpec.astep L (PoolSpec.mkA F B G shut) a'.
Proof. intros Hc []; [apply PoolSpec.a_skip|subst; by apply PoolSpec.a_give|by apply PoolSpec.a_kill]. Qed.

Lemma settle_step p k r r' acts h a cs a' cs' :
  ready p k h a cs → fine (sess r) (r', acts) h → settle (sess r) acts (a, cs) (a', cs') → PoolSpec.astep L a a'.
Proof.
  intros [_ _ Rm _ _ Rfo] Hf Hs. destruct h as [[c w]|].
  - destruct Rm as (Hc & (x & Hx & Hl) & _). destruct a as [F B G sh]. subst w.
    destruct (settle_held _ _ _ _ _ _ _ _ _ _ _ _ _ Hf Hs Hx eq_refl (Rfo _ _ Hx)) as (h' & _ & Ho).
    by eapply outcome_step.
  - destruct (settle_bare _ _ _ _ _ _ Hf Hs) as [[= -> ->] _]. apply PoolSpec.a_skip.
Qed.

End proxy.

(** ** Reachable states *)

Section reachable.
Context (o : runtimeOpts) (L : nat).

Definition moves (ok : option (relay * input) → Prop) (p p' : proxy) : Prop := ∃ lab, pstep o L lab p p' ∧ ok lab.

Abbreviation reachable p := (rtc (moves (λ _, True)) init p).

(** Nobody is watched: every label is fine. *)
Lemma polite_nobody lab p p' : Inv L 0 p → pstep o L lab p p' → polite_label 0 lab.
Proof.
  intros I Hs. assert (Hk : ∀ k r i, sessions p !! k = Some r → polite_input 0 r i).
  { intros k r i Hk. pose proof (proj1 (iv_sess _ _ _ I _ _ Hk)) as Hid. unfold polite_input, polite.
    destruct (ph r), i; try done; intros ?; lia. }
  destruct Hs; simpl; eauto.
Qed.

Lemma isolation_holds p : serverResetQuery o ≠ "" → reachable p → Inv L 0 p.
Proof.
  intros Hr. apply (rtc_ind_r (Inv L 0) init); [apply isolation_init|].
  intros y z _ (lab & Hs & _) I. eapply isolation_step; try done. by eapply polite_nobody.
Qed.

Lemma watched_inv watched p :
  serverResetQuery o ≠ "" → resetSkipSameSession o = false → rtc (moves (polite_label watched)) init p → Inv L watched p.
Proof.
  intros Hr Hsk. apply (rtc_ind_r (Inv L watched) init); [apply isolation_init|].
  intros y z _ (lab & Hs & Hpl) I. eapply isolation_step; try done. by rewrite Hsk.
Qed.

(** The connections the sessions hold. *)
Definition in_use (p : proxy) : list nat := omap (λ r, bid <$> backend r) (sessions p).

Lemma in_use_holder p c : c ∈ in_use p ↔ ∃ k, holder (sessions p) k c.
Proof.
  unfold in_use, holder. rewrite list_elem_of_omap. split.
  - intros (r & Hr & E). apply list_elem_of_lookup in Hr as [k Hk]. destruct (backend r) as [b|] eqn:Eb; [|done].
    injection E as <-. exists k, r, b. done.
  - intros (k & r & b & Hk & Eb & <-). exists r. rewrite Eb. split; [by eapply list_elem_of_lookup_2|done].
Qed.

Lemma NoDup_in_use ss :
  (∀ k k' c, holder ss k c → holder ss k' c → k = k') → NoDup (omap (λ r, bid <$> backend r) ss).
Proof.
  induction ss as [|r ss IH]; intros H; [constructor|]. simpl.
  assert (Hsh : ∀ k c, holder ss k c → holder (r :: ss) (S k) c) by (intros k c (r1 & b & ? & ? & ?); by exists r1, b).
  assert (NoDup (omap (λ r, bid <$> backend r) ss)).
  { apply IH. intros k k' c H1 H2. enough (S k = S k') by lia. by eapply H; apply Hsh. }
  destruct (backend r) as [b|] eqn:Eb; [|done]. simpl. constructor; [|done].
  intros Hin. apply (in_use_holder (mkProxy PoolSpec.ainit ∅ ss ∅)) in Hin as [k Hk].
  assert (0 = S k); [|lia]. apply (H 0 (S k) (bid b)); [by exists r, b|by apply Hsh].
Qed.

Lemma serving_own watched p k r b :
  Inv L watched p → sessions p !! k = Some r → backend r = Some b → serving (ph r) = true →
  ∃ x, conns p !! bid b = Some x ∧ Forall (λ e, author e = sid (sess r)) (log (line x)) ∧
    ∀ k' r', sessions p !! k' = Some r' → sid (sess r') = sid (sess r) → k' = k.
Proof.
  intros I Hk Eb Hs. pose proof (proj2 (iv_sess _ _ _ I _ _ Hk)) as Hpl. rewrite Eb in Hpl.
  destruct Hpl as (_ & x & Hx & Hq & Hg). exists x. split_and!; [done| |].
  - pose proof (gd_held _ _ _ _ Hg) as Hh. rewrite Eb in Hh. destruct Hh as [_ Hft].
    pose proof (sv_own _ _ _ _ _ (ft_serving _ _ _ _ _ Hft Hs)) as Ho. by rewrite buffer_same in Ho.
  - intros k' r' Hk' E. destruct (decide (k' = k)) as [|Hne]; [done|]. by destruct (iv_ids _ _ _ I _ _ _ _ Hk' Hk Hne).
Qed.

(** *** Every message has an author *)

Definition authored (ids : gset Z) (cs : gmap nat conn) : Prop :=
  ∀ c x e, cs !! c = Some x → e ∈ log (line x) → author e ∈ ids.

Lemma authored_alter ids f c cs :
  (∀ x, (∀ e, e ∈ log (line x) → author e ∈ ids) → ∀ e, e ∈ log (line (f x)) → author e ∈ ids) →
  authored ids cs → authored ids (alter f c cs).
Proof.
  intros Hf Hc c' x e. rewrite lookup_alter_Some. intros [(-> & y & Hy & ->)|[_ Hx]] He; [|by eapply Hc].
  eapply Hf; [|done]. intros e'. by eapply Hc.
Qed.

Lemma authored_added (ids : gset Z) s l w e : sid s ∈ ids → e ∈ added s l w → author e ∈ ids.
Proof. unfold added, tag. intros Hs (m & -> & _)%list_elem_of_fmap. done. Qed.

Lemma authored_write (ids : gset Z) s l w :
  sid s ∈ ids → (∀ e, e ∈ log w → author e ∈ ids) →
  (∀ e, e ∈ log (write s l w) → author e ∈ ids) ∧ (∀ e, e ∈ log (buffer s l w) → author e ∈ ids).
Proof.
  unfold log, write, buffer. cbn [sent queued]. intros Hs Hw. split; intros e; rewrite !elem_of_app;
    intros He; pose proof (authored_added ids s l w e Hs); specialize (Hw e); rewrite elem_of_app in Hw.
  - destruct He as [[?|[?|?]]|He]; [by auto..|]. by apply not_elem_of_nil in He.
  - destruct He as [?|[?|?]]; by auto.
Qed.

Lemma authored_settle ids s acts x y :
  settle s acts x y → sid s ∈ ids → authored ids x.2 → authored ids y.2.
Proof.
  intros Hst Hs. induction Hst; cbn [snd] in *; intros Hc; auto; apply IHHst.
  - apply authored_alter; [|done]. intros c Hl. by apply (authored_write ids s ms (line c)).
  - apply authored_alter; [|done]. intros c Hl. by apply (authored_write ids s (feBuf b) (line c)).
Qed.

Lemma authored_scrubbed ids r i cs : authored ids cs → authored ids (scrubbed r i cs).
Proof.
  unfold scrubbed. intros Hc. repeat case_match; try done. apply authored_alter; [|done].
  intros y _ e He. by apply not_elem_of_nil in He.
Qed.

Lemma authored_holding ids s r cs : sid s ∈ ids → authored ids cs → authored ids (holding s r cs).
Proof.
  unfold holding. intros Hs Hc. destruct (backend r) as [b|]; [|done]. apply authored_alter; [|done].
  intros y Hl. by apply (authored_write ids s (feBuf b) (line y)).
Qed.

(** The messages on a connection are from sessions of this proxy. *)
Lemma authored_step watched lab p p' :
  Inv L watched p → pstep o L lab p p' → authored (known p) (conns p) → authored (known p') (conns p').
Proof.
  intros I Hst Hc. destruct Hst as [p s Hs Hnew _|p F B G sh X Ep HX|p F B G sh Ep|p k r e i r' acts a cs Hk Hi Hstep Hset
    |p k r m e c r' acts a cs F B G sh b Hk Hph Ep Hc' HL Hstep Hset|p k r m e c x r' acts a cs F B G sh Hk Hph Ep Hc' HL Hx Hstep Hset];
    cbn [known conns with_pool]; try done; try (destruct (iv_sess _ _ _ I _ _ Hk) as [[_ Hid] _]).
  - intros c x e Hx He. apply elem_of_union_r. by eapply Hc.
  - apply authored_holding; [done|]. apply (authored_settle _ _ _ _ _ Hset Hid). by apply authored_scrubbed.
  - apply authored_holding; [done|]. apply (authored_settle _ _ _ _ _ Hset Hid).
    intros c1 y e1. cbn [snd]. rewrite lookup_insert_Some. intros [[_ <-]|[_ Hy]] He; [|by eapply Hc].
    by apply not_elem_of_nil in He.
  - apply authored_holding; [done|]. by apply (authored_settle _ _ _ _ _ Hset Hid).
Qed.

(** Sessions are isolated.  Over any number of sessions, clients, replies,
    timeouts and pool decisions, in any interleaving: no two sessions hold the
    same connection; together they hold exactly the pool's busy connections, at
    most as many as its limit; and while a session serves its client from a
    connection, everything that has been sent to that server since it was last
    reset, or waits to be sent, is that session's own. *)
Theorem sessions_isolated p :
  serverResetQuery o ≠ "" → reachable p →
  NoDup (in_use p) ∧ list_to_set (in_use p) = PoolSpec.busy (pool p) ∧ length (in_use p) <= L ∧
  ∀ k r b, sessions p !! k = Some r → backend r = Some b → serving (ph r) = true →
    ∃ x, conns p !! bid b = Some x ∧ Forall (λ e, author e = sid (sess r)) (log (line x)) ∧
      ∀ k' r', sessions p !! k' = Some r' → sid (sess r') = sid (sess r) → k' = k.
Proof.
  intros Hr Hp. pose proof (isolation_holds p Hr Hp) as I.
  assert (Hnd : NoDup (in_use p)) by (apply NoDup_in_use; apply (iv_excl _ _ _ I)).
  assert (Hset : list_to_set (in_use p) = PoolSpec.busy (pool p)).
  { apply set_eq. intros c. rewrite elem_of_list_to_set, in_use_holder. split; [|apply (iv_busy _ _ _ I)].
    intros (k & r & b & Hk & Eb & <-). pose proof (proj2 (iv_sess _ _ _ I _ _ Hk)) as Hpl. rewrite Eb in Hpl. apply Hpl. }
  split_and!; [done|done| |].
  - rewrite <-(size_list_to_set (C := gset nat)) by done. rewrite Hset. apply (iv_pool _ _ _ I).
  - intros k r b. by apply (serving_own 0).
Qed.

(** The sessions use the pool as its contract allows: whatever a step of theirs
    does to it is a sequence of the contract's steps. *)
Theorem contract_followed lab p p' :
  serverResetQuery o ≠ "" → reachable p → pstep o L lab p p' → rtc (PoolSpec.astep L) (pool p) (pool p').
Proof.
  intros Hr Hp Hs. pose proof (isolation_holds p Hr Hp) as I.
  destruct (pstep_kind o L 0 Hr ltac:(done) _ _ _ Hs (polite_nobody _ _ _ I Hs) I) as [s _ _ ->|a Ha _ _ ->|]; [done|by apply rtc_once|].
  subst p'. eapply rtc_r; [done|]. by eapply (settle_step L 0).
Qed.

(** C6: Prepared statements work across backends.  Whatever the other clients
    do, for a client that does not use DDL, does not prepare a name it has open
    and keeps to COPY messages during COPY, with the reset query DISCARD ALL and
    not skipped: when a Bind or Describe of a named statement the client has open
    is put on whatever connection, the server there, having processed what it was
    sent since it was opened or last reset, has the statement under that name with
    the client's own text and types, and refuses the message for no lack of it.
    This is for any server that has lost no Parse or Close of a named statement to
    an error since, and whose table no SQL text has changed. *)
Theorem own_statements watched p c x l1 e l2 n info h :
  serverResetQuery o = "DISCARD ALL" → resetSkipSameSession o = false → rtc (moves (polite_label watched)) init p →
  conns p !! c = Some x → log (line x) = l1 ++ e :: l2 →
  author e = watched → refers (msg e) = Some n → n ≠ "" → knew e !! n = Some info →
  h.*1 = msg <$> l1 → lossless fresh_server h →
  tab (reacts fresh_server h) !! n = Some info ∧
  ∀ y, outcome_of (reacts fresh_server h) (msg e) y = Refused → fails y = true.
Proof.
  intros Hr Hsk Hp Hx El Ha Hn Hne Hk Eh Hl. assert (Hr' : serverResetQuery o ≠ "") by (by rewrite Hr).
  pose proof (watched_inv watched p Hr' Hsk Hp) as I.
  assert (Ht : tab (reacts fresh_server h) !! n = Some info).
  { rewrite lossless_table, Eh by done. by eapply (iv_found _ _ _ I). }
  split; [done|]. intros y. unfold outcome_of.
  assert (Hacc : accepts (tab (reacts fresh_server h)) (msg e) = true).
  { destruct (msg e); simpl in *; try done; [|destruct (Ascii.eqb objectType "S"); [|done]]; simplify_eq;
      rewrite Ht; by destruct (String.eqb_spec n ""). }
  rewrite Hacc, orb_false_r. by destruct (msg e), (skipping (reacts fresh_server h)), (fails y).
Qed.

End reachable.
End ProxyTheorems.
