(* ===== verification/ProxyRuns.v ===== *)
(** * Concrete runs of the proxy

    An executable scheduler for Proxy.v, used to reach concrete states: the
    witnesses of the isolation theorems, and two runs that show what happens when
    a session gets its own connection back unscrubbed, or leaves a batch behind. *)

From Stdlib Require Import Ascii.
From S2P Require Import Prelude GoStrings Prepared PreparedTheorems TrackedParams Relay PoolSpec Proxy ProxySession ProxyTheorems.
Import Prepared PreparedTheorems TrackedParams Relay Proxy ProxySession ProxyTheorems.
Open Scope string_scope.
Open Scope list_scope.
Open Scope nat_scope.

Module ProxyRuns.

(** ** The scheduler *)

(** A pool that keeps what it is given. *)
Fixpoint settled (s : session) (l : list action) (x : PoolSpec.astate * gmap nat conn) :
  PoolSpec.astate * gmap nat conn :=
  match l with
  | [] => x
  | PgSend _ :: l | PgFlush :: l => settled s l x
  | ToBackend b ms :: l => settled s l (x.1, alter (on_line (write s ms)) b x.2)
  | PoolRelease b :: l =>
      let '(PoolSpec.mkA F B G shut, cs) := x in
      if shut then settled s l (PoolSpec.mkA F (B ∖ {[ bid b ]}) (G ∪ {[ bid b ]}) shut, cs)
      else settled s l (PoolSpec.mkA (F ∪ {[ bid b ]}) (B ∖ {[ bid b ]}) G false,
                        alter (λ c, mkConn b (buffer s (feBuf b) (line c))) (bid b) cs)
  | PoolDiscard b :: l =>
      let '(PoolSpec.mkA F B G shut, cs) := x in
      settled s l (PoolSpec.mkA F (B ∖ {[ bid b ]}) (G ∪ {[ bid b ]}) shut, cs)
  end.

Lemma settled_sound s l x : settle s l x (settled s l x).
Proof.
  revert x. induction l as [|a l IH]; intros x; [constructor|]. destruct x as [[F B G shut] cs].
  destruct a; simpl; try (constructor; apply IH); try (destruct shut; constructor; apply IH).
Qed.

Inductive event := Connect (s : session) | Move (k : nat) (i : input) | Open (k c : nat) | Take (k c : nat).

Definition quick : env := mkEnv true true false 0.

Definition is_acquired (i : input) : bool := match i with Acquired _ => true | _ => false end.
Definition acquiring (r : relay) : bool := match ph r with RAcquire _ => true | _ => false end.

Section play.
Context (o : runtimeOpts) (L : nat).

Definition after_step (p : proxy) (k : nat) (r : relay) (i : input) (x : PoolSpec.astate * gmap nat conn) :
  option (option (relay * input) * proxy) :=
  match step o quick r i with
  | Some (r', acts) =>
      let '(a, cs) := settled (sess r) acts x in
      Some (Some (r, i), mkProxy a (holding (sess r) r' cs) (<[ k := r' ]> (sessions p)) (known p))
  | None => None
  end.

Definition play (ev : event) (p : proxy) : option (option (relay * input) * proxy) :=
  match ev with
  | Connect s =>
      if (0 <? sid s)%Z && bool_decide (sid s ∉ known p) && bool_decide (psCache s = None)
      then Some (None, mkProxy (pool p) (conns p) (sessions p ++ [relay_init s]) ({[ sid s ]} ∪ known p))
      else None
  | Move k i =>
      match sessions p !! k with
      | Some r => if is_acquired i then None else after_step p k r i (pool p, scrubbed r i (conns p))
      | None => None
      end
  | Open k c =>
      let '(PoolSpec.mkA F B G shut) := pool p in
      match sessions p !! k with
      | Some r =>
          if acquiring r && bool_decide (c ∉ F ∪ B ∪ G) && bool_decide (size B < L) then
            let b := mkBackend c None 0 [] in
            after_step p k r (Acquired b)
              (PoolSpec.mkA F (B ∪ {[ c ]}) G shut, <[ c := mkConn b (mkWire [] []) ]> (conns p))
          else None
      | None => None
      end
  | Take k c =>
      let '(PoolSpec.mkA F B G shut) := pool p in
      match sessions p !! k, conns p !! c with
      | Some r, Some x =>
          if acquiring r && bool_decide (c ∈ F) && bool_decide (size B < L) then
            after_step p k r (Acquired (record x)) (PoolSpec.mkA (F ∖ {[ c ]}) (B ∪ {[ c ]}) G shut, conns p)
          else None
      | _, _ => None
      end
  end.

Lemma after_step_some p k r i x lab p' :
  after_step p k r i x = Some (lab, p') →
  ∃ r' acts, step o quick r i = Some (r', acts) ∧ lab = Some (r, i) ∧
    let '(a, cs) := settled (sess r) acts x in
    p' = mkProxy a (holding (sess r) r' cs) (<[ k := r' ]> (sessions p)) (known p).
Proof.
  unfold after_step. destruct (step o quick r i) as [[r' acts]|]; [|done]. intros H. exists r', acts.
  destruct (settled _ _ x) as [a cs]. by simplify_eq.
Qed.

Lemma event_sound ev p lab p' : play ev p = Some (lab, p') → pstep o L lab p p'.
Proof.
  destruct ev as [s|k i|k c|k c]; simpl.
  - destruct ((0 <? sid s)%Z && _ && _) eqn:E; [|done]. to_prop. intros; simplify_eq. by apply p_connect.
  - destruct (sessions p !! k) as [r|] eqn:Hk; [|done]. destruct (is_acquired i) eqn:Hi; [done|].
    intros (r' & acts & Hs & -> & Hp)%after_step_some.
    pose proof (settled_sound (sess r) acts (pool p, scrubbed r i (conns p))) as Hset.
    destruct (settled _ _ _) as [a cs]. subst p'. eapply p_session; try done. intros b ->. done.
  - destruct (pool p) as [F B G shut] eqn:Ep. destruct (sessions p !! k) as [r|] eqn:Hk; [|done].
    destruct (acquiring r && _ && _) eqn:Hc; [|done]. to_prop.
    intros (r' & acts & Hs & -> & Hp)%after_step_some.
    match type of Hp with let '(_, _) := settled ?s ?l ?x in _ => pose proof (settled_sound s l x) as Hset end.
    destruct (settled _ _ _) as [a cs]. subst p'. destruct (ph r) eqn:Hph; unfold acquiring in *; rewrite Hph in *; try done.
    by eapply p_open.
  - destruct (pool p) as [F B G shut] eqn:Ep. destruct (sessions p !! k) as [r|] eqn:Hk; [|done].
    destruct (conns p !! c) as [x|] eqn:Hx; [|done].
    destruct (acquiring r && _ && _) eqn:Hc; [|done]. to_prop.
    intros (r' & acts & Hs & -> & Hp)%after_step_some.
    match type of Hp with let '(_, _) := settled ?s ?l ?x in _ => pose proof (settled_sound s l x) as Hset end.
    destruct (settled _ _ _) as [a cs]. subst p'. destruct (ph r) eqn:Hph; unfold acquiring in *; rewrite Hph in *; try done.
    by eapply p_take.
Qed.

(** A list of events; [ok] is checked on every label. *)
Fixpoint plays (ok : option (relay * input) → bool) (evs : list event) (p : proxy) : option proxy :=
  match evs with
  | [] => Some p
  | ev :: evs =>
      match play ev p with
      | Some (lab, p') => if ok lab then plays ok evs p' else None
      | None => None
      end
  end.

Lemma plays_sound (ok : option (relay * input) → bool) (P : option (relay * input) → Prop) evs p p' :
  (∀ lab, ok lab = true → P lab) → plays ok evs p = Some p' → rtc (moves o L P) p p'.
Proof.
  intros HP. revert p. induction evs as [|ev evs IH]; intros p; simpl; [by intros [= ->]|].
  destruct (play ev p) as [[lab p1]|] eqn:E; [|done]. destruct (ok lab) eqn:Eo; [|done]. intros H.
  eapply rtc_l; [|by apply IH]. exists lab. split; [by apply event_sound in E|auto].
Qed.

End play.

(** The executable check of [polite_label]; nobody copies in these runs. *)
Definition politeb (watched : Z) (lab : option (relay * input)) : bool :=
  match lab with
  | Some (r, Client m) =>
      match ph r with
      | RCopyIn _ _ | RCopyBoth _ _ => false
      | _ => ddl_free m && match m with Parse n _ _ => (n =? "")%string || bool_decide (cached (sess r) !! n = None) | _ => true end
      end
  | _ => true
  end.

Lemma politeb_sound watched lab : politeb watched lab = true → polite_label watched lab.
Proof.
  destruct lab as [[r i]|]; [|done]. unfold politeb, polite_label, polite_input, polite.
  destruct i as [m| | | | | |]; destruct (ph r); try done; intros H _; to_prop; (split; [done|]);
    destruct m; try done; simpl; to_prop; destruct H0; to_prop; try (by right); left; by apply String.eqb_eq.
Qed.

(** ** The runs *)

Definition options (skip : bool) : runtimeOpts := mkOpts 0 0 0 "DISCARD ALL" skip.
Definition client (n : Z) : session := mkSession n "transaction" None 200 0 false false [].

Definition ready_I : input := Reply (ReadyForQuery "I").

(** Two clients and two connections.  The first client prepares [q] on connection
    0; on connection 1 it closes [q] and prepares it anew; then connection 0
    comes back to it. *)
Definition prepare_twice : list event :=
  [Connect (client 1); Connect (client 2);
   Move 0 (Client (Parse "q" "SELECT 1" [])); Open 0 0; Move 0 (Client Sync); Move 0 (Reply ParseComplete);
   Move 1 (Client (Query "SELECT 9")); Open 1 1; Move 0 ready_I; Move 1 ready_I;
   Move 0 (Client (CloseMsg "S" "q")); Take 0 1; Move 0 ready_I;
   Move 0 (Client (Parse "q" "SELECT 2" [])); Move 0 (Client Sync);
   Move 0 (Reply CloseComplete); Move 0 (Reply ParseComplete); Move 0 ready_I;
   Move 1 (Client (Query "SELECT 9")); Take 1 1; Move 1 ready_I;
   Move 0 (Client (Bind "q" "")); Take 0 0].

Definition end_of (o : runtimeOpts) (evs : list event) : proxy :=
  default init (plays o 2 (politeb 1) evs init).

Lemma end_reachable o evs :
  (match plays o 2 (politeb 1) evs init with Some _ => true | None => false end) = true →
  rtc (moves o 2 (polite_label 1)) init (end_of o evs).
Proof.
  unfold end_of. destruct (plays o 2 (politeb 1) evs init) eqn:E; [|done]. intros _. simpl.
  eapply plays_sound; [|done]. apply politeb_sound.
Qed.

Lemma moves_any o L P p p' : rtc (moves o L P) p p' → rtc (moves o L (λ _, True)) p p'.
Proof. apply rtc_subrel. intros x y (lab & H & _). by exists lab. Qed.

(** With server_reset_query_skip_same_session a session that gets its own
    connection back keeps what that connection had: here the client's Bind of
    [q], now SELECT 2, runs SELECT 1, without an error. *)
Theorem stale_statement_with_skip :
  ∃ p x l1 e l2, rtc (moves (options true) 2 (polite_label 1)) init p ∧ conns p !! 0 = Some x ∧
    log (line x) = l1 ++ e :: l2 ∧ author e = 1%Z ∧ msg e = Bind "q" "" ∧
    knew e !! "q" = Some (mkInfo "SELECT 2" []) ∧ serve_all ∅ (msg <$> l1) !! "q" = Some (mkInfo "SELECT 1" []).
Proof.
  exists (end_of (options true) prepare_twice).
  eexists _, [_; _], _, []. split; [apply end_reachable; by vm_compute|].
  split; [vm_compute; reflexivity|]. by split_and!.
Qed.

(** A client that leaves in the middle of a batch: its messages stay in the
    buffer of a connection that goes back to the pool, and are sent to the
    server when the next session takes that connection. *)
Definition leave_a_batch : list event :=
  [Connect (client 1); Connect (client 2);
   Move 0 (Client (Query "SELECT 1")); Open 0 0; Move 0 ready_I;
   Move 0 (Client (Parse "" "DELETE FROM t" [])); Take 0 0; Move 0 ready_I;
   Move 0 (Client (Bind "" "")); Move 0 (Client (Execute "")); Move 0 (ClientErr false)].

Theorem abandoned_batch_runs_later :
  ∃ p x p' x', rtc (moves (options false) 2 (polite_label 1)) init p ∧
    rtc (moves (options false) 2 (polite_label 1)) p p' ∧
    (ph <$> sessions p !! 0 = Some RDone) ∧
    conns p !! 0 = Some x ∧ (msg <$> sent (line x)) = [] ∧
    conns p' !! 0 = Some x' ∧
    ((λ e, (author e, msg e)) <$> sent (line x')) =
      [(1, Parse "" "DELETE FROM t" []); (1, Bind "" ""); (1, Execute ""); (2, Query "DISCARD ALL")]%Z.
Proof.
  exists (end_of (options false) leave_a_batch). eexists _.
  exists (end_of (options false) (leave_a_batch ++ [Move 1 (Client (Query "SELECT 2")); Take 1 0])). eexists _.
  split; [apply end_reachable; by vm_compute|]. split.
  { eapply (plays_sound _ _ (politeb 1) _ [Move 1 (Client (Query "SELECT 2")); Take 1 0]); [apply politeb_sound|].
    vm_compute. reflexivity. }
  split; [by vm_compute|]. split; [vm_compute; reflexivity|]. split; [by vm_compute|].
  split; [vm_compute; reflexivity|by vm_compute].
Qed.

(** ** Witnesses *)

(** The same two clients with the reset query always run. *)
Definition scrubbed_end : proxy := end_of (options false) (prepare_twice ++ [Move 0 ready_I]).

Lemma scrubbed_reachable : rtc (moves (options false) 2 (polite_label 1)) init scrubbed_end.
Proof. apply end_reachable. by vm_compute. Defined.

Definition zeroth : conn := default (mkConn (mkBackend 0 None 0 []) (mkWire [] [])) (conns scrubbed_end !! 0).

Lemma sessions_isolated_witness :
  NoDup (in_use scrubbed_end) ∧ in_use scrubbed_end = [0; 1] ∧
  (∀ k r b, sessions scrubbed_end !! k = Some r → backend r = Some b → serving (ph r) = true →
    ∃ x, conns scrubbed_end !! bid b = Some x ∧ Forall (λ e, author e = sid (sess r)) (log (line x)) ∧
      ∀ k' r', sessions scrubbed_end !! k' = Some r' → sid (sess r') = sid (sess r) → k' = k).
Proof.
  destruct (sessions_isolated (options false) 2 scrubbed_end ltac:(by vm_compute) (moves_any _ _ _ _ _ scrubbed_reachable))
    as (H1 & _ & _ & H4).
  split; [exact H1|]. split; [by vm_compute|exact H4].
Defined.

Lemma own_statements_witness :
  ((λ e, (author e, msg e)) <$> log (line zeroth)) = [(1, Parse "q" "SELECT 2" []); (1, Bind "q" "")]%Z ∧
  tab (reacts fresh_server [(Parse "q" "SELECT 2" [], succeeds)]) !! "q" = Some (mkInfo "SELECT 2" []).
Proof.
  split; [by vm_compute|].
  apply (own_statements (options false) 2 1 scrubbed_end 0 zeroth
    [default (mkEntry 0 ∅ Sync) (log (line zeroth) !! 0)] (default (mkEntry 0 ∅ Sync) (log (line zeroth) !! 1)) []
    "q" (mkInfo "SELECT 2" []) [(Parse "q" "SELECT 2" [], succeeds)] ltac:(by vm_compute) ltac:(by vm_compute) scrubbed_reachable
    ltac:(by vm_compute) ltac:(by vm_compute) ltac:(by vm_compute) ltac:(by vm_compute) ltac:(by vm_compute) ltac:(by vm_compute)
    ltac:(by vm_compute) ltac:(by split; [right|])).
Defined.

End ProxyRuns.
