(* ===== verification/MetricsDesc.v ===== *)
(** * The metrics that are registered

    src/metrics.go and src/pgbouncer_metrics.go: the descriptors of every metric
    the process exports and their registration in [run] of src/main.go.  The
    Prometheus client library panics at start when two metrics share a name, a
    name or label is not well-formed or the buckets of a histogram do not
    increase, and at scrape time when a collected metric was not described; the
    theorem is that none of this happens, here or in the two collectors the
    library itself provides. *)

From Stdlib Require Import Ascii.
From S2P Require Import Prelude GoStrings Pool Registry RateLimit Metrics.
Open Scope string_scope.
Open Scope list_scope.
Open Scope Z_scope.

Module MetricsDesc.

(** ** Descriptors *)

(** Buckets are upper bounds in units of 100 microseconds. *)
Inductive shape := Const | Gauge | Counter | Histogram (buckets : list Z).

Record Desc := mkDesc { fqName : string; help : string; labels : list string; type : shape }.

(** ** [poolsCollector] *)

Record poolsCollector := mkPoolsCollector {
  limit : Desc; inUse : Desc; idle : Desc; waiting : Desc; acquireTotal : Desc; acquireSeconds : Desc;
  discardsTotal : Desc; dialErrorsTotal : Desc; reapedTotal : Desc; circuitOpen : Desc }.

Definition newPoolsCollector : poolsCollector :=
  let d name text := mkDesc name text ["pool"] Const in
  {| limit := d "pgman_pool_limit" "Configured maximum outstanding backend connections.";
     inUse := d "pgman_pool_in_use" "Backend connections currently acquired by a session.";
     idle := d "pgman_pool_idle" "Backend connections currently idle, ready for reuse.";
     waiting := d "pgman_pool_waiting" "Goroutines currently parked in Acquire waiting for a slot.";
     acquireTotal := d "pgman_pool_acquire_total" "Total Acquire calls.";
     acquireSeconds := d "pgman_pool_acquire_seconds_total"
       "Cumulative time spent inside Acquire (slot wait + health-check + dial).";
     discardsTotal := d "pgman_pool_discards_total" "Connections discarded as unhealthy or broken.";
     dialErrorsTotal := d "pgman_pool_dial_errors_total" "Failed dials to the real backend.";
     reapedTotal := d "pgman_pool_reaped_total" "Connections closed by the idle/lifetime reaper.";
     circuitOpen := d "pgman_pool_circuit_open"
       "1 while the pool's circuit breaker is rejecting dials, 0 otherwise." |}.

(** [poolsCollector.Describe] *)
Definition describePools (c : poolsCollector) : list Desc :=
  [limit c; inUse c; idle c; waiting c; acquireTotal c; acquireSeconds c; discardsTotal c; dialErrorsTotal c;
   reapedTotal c; circuitOpen c].

(** ** [pgbouncerCollector] *)

Record pgbouncerCollector := mkPgbouncerCollector {
  serverActive : Desc; serverIdle : Desc; clientWaiting : Desc; poolSize : Desc; currentConns : Desc;
  queriesPooledTotal : Desc }.

Definition newPgbouncerCollector : pgbouncerCollector :=
  let d name text := mkDesc name text ["database"] Const in
  {| serverActive := d "pgbouncer_pools_server_active_connections" "Backend connections currently in use (PgBouncer parity).";
     serverIdle := d "pgbouncer_pools_server_idle_connections"
       "Backend connections currently idle in the pool (PgBouncer parity).";
     clientWaiting := d "pgbouncer_pools_client_waiting_connections"
       "Client sessions parked in Acquire waiting for a backend slot (PgBouncer parity).";
     poolSize := d "pgbouncer_databases_pool_size" "Configured pool size (max backend connections) — PgBouncer parity.";
     currentConns := d "pgbouncer_databases_current_connections"
       "Total backend connections currently open (in_use + idle) — PgBouncer parity.";
     queriesPooledTotal := d "pgbouncer_stats_queries_pooled_total"
       "Total pooled queries served (approximated as Acquire count) — PgBouncer parity." |}.

(** [pgbouncerCollector.Describe] *)
Definition describeAliases (c : pgbouncerCollector) : list Desc :=
  [serverActive c; serverIdle c; clientWaiting c; poolSize c; currentConns c; queriesPooledTotal c].

(** ** [proxyMetrics] *)

Record proxyMetrics := mkProxyMetrics {
  AcquireWait : Desc; QueryDuration : Desc; ClientConnActive : Desc; ClientConnTotal : Desc; ClientLoginFail : Desc;
  ClientLoginOK : Desc; MaxConnRejected : Desc; PreparedStmtEvictions : Desc; PassthroughEvictions : Desc;
  ConfigReloads : Desc; ConfigReloadPools : Desc }.

Definition newProxyMetrics : proxyMetrics :=
  {| AcquireWait := mkDesc "pgman_pool_acquire_wait_seconds"
       "Histogram of Acquire wait time (slot wait + healthcheck + dial), labelled by pool." ["pool"]
       (Histogram [1; 5; 10; 50; 100; 500; 1000; 5000; 10000; 50000; 100000; 300000; 1200000]);
     QueryDuration := mkDesc "pgman_query_duration_seconds"
       ("Histogram of query round-trip time through the proxy: from " +:+
        "forwarding the terminal message (Query/Sync) to the backend " +:+
        "until its ReadyForQuery arrives. Labelled by pool.") ["pool"]
       (Histogram [5; 10; 25; 50; 100; 250; 500; 1000; 2500; 5000; 10000; 25000; 50000; 100000; 300000; 600000]);
     ClientConnActive := mkDesc "pgman_client_conn_active" "Number of client connections currently held by the proxy." [] Gauge;
     ClientConnTotal := mkDesc "pgman_client_conn_total" "Total client connections accepted (regardless of outcome)." [] Counter;
     ClientLoginFail := mkDesc "pgman_client_login_failures_total" "Total client startup/auth failures, labelled by reason."
       ["reason"] Counter;
     ClientLoginOK := mkDesc "pgman_client_login_ok_total" "Total successful client logins." [] Counter;
     MaxConnRejected := mkDesc "pgman_max_client_conn_rejected_total"
       "Total client connections rejected because max_client_conn was reached." [] Counter;
     PreparedStmtEvictions := mkDesc "pgman_prepared_stmt_evictions_total"
       "Named prepared statements closed on a backend to stay within max_prepared_statements, by pool." ["pool"] Counter;
     PassthroughEvictions := mkDesc "pgman_passthrough_pools_evicted_total"
       "SCRAM pass-through pools closed after scram_passthrough_idle_timeout." [] Counter;
     ConfigReloads := mkDesc "pgman_config_reloads_total" "Config reloads attempted, by result (applied / failed)."
       ["result"] Counter;
     ConfigReloadPools := mkDesc "pgman_config_reload_pools_total"
       "Pools affected by config reloads, by action (added / removed / reconfigured)." ["action"] Counter |}.

Definition newBuildInfoCollector : Desc :=
  mkDesc "pgman_build_info" "Build information. Always 1; the labels are the payload." ["version"; "go_version"] Gauge.

(** In the order of the calls of [MustRegister]. *)
Definition registerProxy (m : proxyMetrics) : list Desc :=
  [AcquireWait m; QueryDuration m; ClientConnActive m; ClientConnTotal m; ClientLoginFail m; ClientLoginOK m;
   MaxConnRejected m] ++
  [PreparedStmtEvictions m; PassthroughEvictions m; ConfigReloads m; ConfigReloadPools m] ++
  [newBuildInfoCollector].

(** What [run] registers after the two collectors of the client library. *)
Definition exported : list Desc :=
  registerProxy newProxyMetrics ++ describePools newPoolsCollector ++ describeAliases newPgbouncerCollector.

(** ** Observations

    The series of the two metrics the relay feeds, by the pool they are labelled
    with; [None] is a nil [*proxyMetrics]. *)

Record series := mkSeries { durations : gmap string (list RateLimit.float64); evictions : gmap string nat }.

Definition observeQuery (pool : string) (d : Z) (m : option series) : option series :=
  match m with
  | None => None
  | Some s => Some (mkSeries (<[ pool := default [] (durations s !! pool) ++ [RateLimit.Seconds d] ]> (durations s))
                      (evictions s))
  end.

Definition observePreparedStmtEviction (pool : string) (m : option series) : option series :=
  match m with
  | None => None
  | Some s => Some (mkSeries (durations s) (<[ pool := S (default 0%nat (evictions s !! pool)) ]> (evictions s)))
  end.

(** ** Registration succeeds *)

Definition name_start (c : ascii) : bool := is_letter c || Ascii.eqb c "_".
Definition name_char (c : ascii) : bool := name_start c || is_digit c.

Definition valid_name (s : string) : bool :=
  match s with String c s => name_start c && forallb name_char (String.list_ascii_of_string s) | "" => false end.

(** Names that start with two underscores are reserved, and a histogram adds
    the label [le] itself. *)
Definition valid_label (t : shape) (s : string) : bool :=
  valid_name s && negb (HasPrefix s "__") &&
  match t with Histogram _ => negb (s =? "le")%string | _ => true end.

Fixpoint increasing (l : list Z) : bool :=
  match l with a :: (b :: _) as l => (a <? b) && increasing l | _ => true end.

Definition valid (d : Desc) : bool :=
  valid_name (fqName d) && forallb (valid_label (type d)) (labels d) && bool_decide (NoDup (labels d)) &&
  match type d with Histogram bs => negb (bool_decide (bs = [])) && increasing bs | _ => true end.

(** The names a histogram's series have. *)
Definition series_names (d : Desc) : list string :=
  match type d with
  | Histogram _ => [fqName d; fqName d +:+ "_bucket"; fqName d +:+ "_sum"; fqName d +:+ "_count"]
  | _ => [fqName d]
  end.

(** Every sample of a scrape is one of the described metrics, with a value for
    its one label. *)
Definition described (ds : list Desc) (s : Metrics.sample) : Prop :=
  ∃ d, d ∈ ds ∧ fqName d = Metrics.metric s ∧ length (labels d) = 1%nat.

Lemma described_all ds (l : list Metrics.sample) :
  forallb (λ s, existsb (λ d, (fqName d =? Metrics.metric s)%string && (length (labels d) =? 1)%nat) ds) l = true →
  Forall (described ds) l.
Proof.
  rewrite forallb_forall, Forall_forall. intros Hl s Hs.
  apply list_elem_of_In, Hl, existsb_exists in Hs as (d & Hd & [E1 E2]%andb_prop).
  exists d. split_and!; [by apply list_elem_of_In|by apply String.eqb_eq|by apply Nat.eqb_eq].
Qed.

Lemma collect_described `{MapRange} ds one stats r :
  (∀ k s, Forall (described ds) (one k s)) → Forall (described ds) (Metrics.Collect one stats r).
Proof.
  intros Ho. unfold Metrics.Collect. apply Forall_bind, Forall_forall. intros [k p] _. apply Ho.
Qed.

(** The process never panics over its metrics: the names it registers, with the
    series its histograms add, are pairwise different and well-formed, as are
    labels and buckets; they stay out of the name spaces of the client library's
    own collectors; and whatever the registry and the pools are, a scrape only
    collects metrics that were described, with one value for their one label. *)
Theorem metrics_register `{MapRange} stats r :
  NoDup (exported ≫= series_names) ∧
  forallb valid exported = true ∧
  (∀ d, d ∈ exported → HasPrefix (fqName d) "go_" = false ∧ HasPrefix (fqName d) "process_" = false) ∧
  Forall (described exported) (Metrics.Collect Metrics.collectPool stats r) ∧
  Forall (described exported) (Metrics.Collect Metrics.collectAlias stats r).
Proof.
  split_and!.
  - apply (bool_decide_unpack _). by vm_compute.
  - by vm_compute.
  - apply Forall_forall. apply (bool_decide_unpack _). by vm_compute.
  - apply collect_described. intros k s. apply described_all. by vm_compute.
  - apply collect_described. intros k s. apply described_all. by vm_compute.
Qed.

End MetricsDesc.
