(* ===== verification/Html.v ===== *)
(** * Reading HTML

    What a browser makes of the text the templates write: the states of the
    HTML tokenizer that the pages need.  It is strict: text on which the
    tokenizer would have to recover from an error (an unknown character
    reference, an unquoted or repeated attribute, a stray [<]) is refused, so
    an accepted text reads the same in every browser.  [html] is the structure
    a template describes, [tokens] the tokens it stands for. *)

From Stdlib Require Import Ascii.
From S2P Require Import Prelude GoStrings.
Open Scope string_scope.
Open Scope list_scope.
Open Scope nat_scope.

Module Html.

(** ** Literals *)

(** A string literal of the code, with its double quotes written as back
    quotes, which the templates do not use. *)
Definition quote : ascii := "034".
Definition q : string → string := map_string (λ c, if Ascii.eqb c "`" then quote else c).

Definition snoc (s : string) (c : ascii) : string := s +:+ String c "".
Definition chars : string → list ascii := String.list_ascii_of_string.

(** ** Character references *)

(** The characters escaped text does not have. *)
Definition markup : list ascii := ["<"%char; quote].

Definition reference (name : string) : option ascii :=
  match name with
  | "amp" => Some "&"%char | "lt" => Some "<"%char | "gt" => Some ">"%char
  | "quot" | "#34" => Some quote | "apos" | "#39" => Some "'"%char
  | _ => None
  end.

Definition ref_char (c : ascii) : bool := is_letter c || is_digit c || Ascii.eqb c "#".

(** The text with its references resolved; [pend] is the name being read. *)
Fixpoint unescape_from (pend : option string) (s : string) : option string :=
  match s, pend with
  | "", None => Some ""
  | "", Some _ => None
  | String c s, None => if Ascii.eqb c "&" then unescape_from (Some "") s else String c <$> unescape_from None s
  | String c s, Some name =>
      if Ascii.eqb c ";" then
        match reference name with Some d => String d <$> unescape_from None s | None => None end
      else if ref_char c then unescape_from (Some (snoc name c)) s
      else None
  end.

Definition unescape : string → option string := unescape_from None.

(** ** Tokens *)

Inductive token :=
| Char (c : ascii)
| StartTag (name : string) (attrs : list (string * string))
| EndTag (name : string)
| Doctype (text : string).

Inductive state :=
| Data
| DataRef (name : string)
| TagOpen
| TagName (name : string)
| EndTagName (name : string)
| BeforeAttr (tag : string) (attrs : list (string * string))
| AttrName (tag : string) (attrs : list (string * string)) (name : string)
| BeforeValue (tag : string) (attrs : list (string * string)) (name : string)
| Value (tag : string) (attrs : list (string * string)) (name val : string)
| ValueRef (tag : string) (attrs : list (string * string)) (name val ref : string)
| AfterValue (tag : string) (attrs : list (string * string))
| RawText (tag seen : string)     (** [seen]: the part of the end tag read so far *)
| Markup (text : string).

(** Whether the text of the element is not markup. *)
Definition raw_text (tag : string) : bool := (tag =? "style")%string || (tag =? "script")%string.

Definition tag_char (c : ascii) : bool := is_lower c || is_digit c.
Definition attr_char (c : ascii) : bool := is_lower c || is_digit c || Ascii.eqb c "-".

Definition opened (tag : string) (attrs : list (string * string)) : option (list token * state) :=
  Some ([StartTag tag attrs], if raw_text tag then RawText tag "" else Data).

Definition attr (attrs : list (string * string)) (name val : string) : option (list (string * string)) :=
  if existsb (String.eqb name) attrs.*1 then None else Some (attrs ++ [(name, val)]).

(** The end tag of a raw text element, as far as it has been matched. *)
Definition raw_step (tag seen : string) (c : ascii) : option (list token * state) :=
  let close := "</" +:+ tag +:+ ">" in
  let in_tag := is_letter c || mem c ["<"; "/"; ">"]%char in
  if in_tag && (snoc seen c =? close)%string then Some ([EndTag tag], Data)
  else if in_tag && HasPrefix close (snoc seen c) then Some ([], RawText tag (snoc seen c))
  else if in_tag && HasPrefix close (snoc seen (low c)) then None
  else if (seen =? "</" +:+ tag)%string || Ascii.eqb c "!" && (seen =? "<")%string then None
  else if Ascii.eqb c "<" then Some (Char <$> chars seen, RawText tag "<")
  else Some (Char <$> chars (snoc seen c), RawText tag "").

Definition step (st : state) (c : ascii) : option (list token * state) :=
  match st with
  | Data =>
      if Ascii.eqb c "<" then Some ([], TagOpen)
      else if Ascii.eqb c "&" then Some ([], DataRef "")
      else Some ([Char c], Data)
  | DataRef name =>
      if Ascii.eqb c ";" then
        match reference name with Some d => Some ([Char d], Data) | None => None end
      else if ref_char c then Some ([], DataRef (snoc name c)) else None
  | TagOpen =>
      if Ascii.eqb c "!" then Some ([], Markup "")
      else if Ascii.eqb c "/" then Some ([], EndTagName "")
      else if is_lower c then Some ([], TagName (String c "")) else None
  | TagName name =>
      if Ascii.eqb c ">" then opened name []
      else if Ascii.eqb c " " then Some ([], BeforeAttr name [])
      else if tag_char c then Some ([], TagName (snoc name c)) else None
  | EndTagName name =>
      if Ascii.eqb c ">" then match name with "" => None | _ => Some ([EndTag name], Data) end
      else if tag_char c then Some ([], EndTagName (snoc name c)) else None
  | BeforeAttr tag attrs =>
      if is_lower c then Some ([], AttrName tag attrs (String c "")) else None
  | AttrName tag attrs name =>
      if Ascii.eqb c "=" then Some ([], BeforeValue tag attrs name)
      else if attr_char c then Some ([], AttrName tag attrs (snoc name c))
      else match attr attrs name "" with
           | None => None
           | Some attrs => if Ascii.eqb c ">" then opened tag attrs
                           else if Ascii.eqb c " " then Some ([], BeforeAttr tag attrs) else None
           end
  | BeforeValue tag attrs name => if Ascii.eqb c quote then Some ([], Value tag attrs name "") else None
  | Value tag attrs name val =>
      if Ascii.eqb c quote then
        match attr attrs name val with Some attrs => Some ([], AfterValue tag attrs) | None => None end
      else if Ascii.eqb c "&" then Some ([], ValueRef tag attrs name val "")
      else Some ([], Value tag attrs name (snoc val c))
  | ValueRef tag attrs name val ref =>
      if Ascii.eqb c ";" then
        match reference ref with Some d => Some ([], Value tag attrs name (snoc val d)) | None => None end
      else if ref_char c then Some ([], ValueRef tag attrs name val (snoc ref c)) else None
  | AfterValue tag attrs =>
      if Ascii.eqb c ">" then opened tag attrs
      else if Ascii.eqb c " " then Some ([], BeforeAttr tag attrs) else None
  | RawText tag seen => raw_step tag seen c
  | Markup text => if Ascii.eqb c ">" then Some ([Doctype text], Data) else Some ([], Markup (snoc text c))
  end.

Fixpoint scan (st : state) (s : string) : option (list token * state) :=
  match s with
  | "" => Some ([], st)
  | String c s =>
      match step st c with
      | None => None
      | Some (ts, st') =>
          match scan st' s with None => None | Some (us, st'') => Some (ts ++ us, st'') end
      end
  end.

(** The tokens of a whole text. *)
Definition read (s : string) : option (list token) :=
  match scan Data s with Some (ts, Data) => Some ts | _ => None end.

(** ** Structure *)

Inductive html :=
| Text (s : string)
| Element (tag : string) (attrs : list (string * string)) (kids : list html)
| Void (tag : string) (attrs : list (string * string))    (** br, input, meta: no content, no end tag *)
| DocType (text : string).

Fixpoint tokens (h : html) : list token :=
  match h with
  | Text s => Char <$> chars s
  | Element tag attrs kids =>
      StartTag tag attrs :: (fix all l := match l with [] => [] | k :: l => tokens k ++ all l end) kids ++ [EndTag tag]
  | Void tag attrs => [StartTag tag attrs]
  | DocType text => [Doctype text]
  end.

Definition all_tokens (l : list html) : list token := l ≫= tokens.

(** ** Reading *)

Lemma scan_app st s ts st1 t us st2 :
  scan st s = Some (ts, st1) → scan st1 t = Some (us, st2) → scan st (s +:+ t) = Some (ts ++ us, st2).
Proof.
  revert st ts. induction s as [|c s IH]; intros st ts; simpl; [by intros [= <- <-]|].
  destruct (step st c) as [[a st']|]; [|done]. destruct (scan st' s) as [[b st'']|] eqn:E; [|done].
  intros [= <- <-] Ht. rewrite (IH st' b) by done. by rewrite app_assoc.
Qed.

Lemma snoc_app v c s : snoc v c +:+ s = v +:+ String c s.
Proof. unfold snoc. by rewrite str_app_assoc. Qed.

(** Escaped text reads as the text it stands for. *)
Lemma scan_text v s : no_bytes markup v = true → unescape v = Some s → scan Data v = Some (Char <$> chars s, Data).
Proof.
  intros Hn Hu. unfold unescape in Hu.
  enough (∀ pend, unescape_from pend v = Some s →
    scan (match pend with None => Data | Some n => DataRef n end) v = Some (Char <$> chars s, Data)) by (by apply (H None)).
  clear Hu. revert s. induction v as [|c v IH]; intros s pend; [by destruct pend; intros [= <-]|].
  apply andb_prop in Hn as [Hc Hn]. specialize (IH Hn). destruct pend as [name|]; simpl.
  - destruct (Ascii.eqb c ";").
    + destruct (reference name) as [d|]; [|done]. intros (w & Hw & ->)%fmap_Some. by rewrite (IH w None).
    + destruct (ref_char c); [|done]. intros Hu. by rewrite (IH s (Some (snoc name c))).
  - destruct (Ascii.eqb_spec c "<") as [->|Hlt]; [done|]. destruct (Ascii.eqb c "&").
    + intros Hu. by rewrite (IH s (Some "")).
    + intros (w & Hw & ->)%fmap_Some. by rewrite (IH w None).
Qed.

Lemma scan_value v s tag attrs name val :
  no_bytes markup v = true → unescape v = Some s →
  scan (Value tag attrs name val) v = Some ([], Value tag attrs name (val +:+ s)).
Proof.
  intros Hn Hu. unfold unescape in Hu.
  enough (∀ pend, unescape_from pend v = Some s →
    scan (match pend with None => Value tag attrs name val | Some n => ValueRef tag attrs name val n end) v =
      Some ([], Value tag attrs name (val +:+ s))) by (by apply (H None)).
  clear Hu. revert s val. induction v as [|c v IH]; intros s val pend.
  { destruct pend; [done|]. intros [= <-]. simpl. by rewrite str_app_nil. }
  apply andb_prop in Hn as [Hc Hn]. specialize (IH Hn). destruct pend as [ref|]; simpl.
  - destruct (Ascii.eqb c ";").
    + destruct (reference ref) as [d|]; [|done]. intros (w & Hw & ->)%fmap_Some.
      by rewrite (IH w (snoc val d) None), snoc_app.
    + destruct (ref_char c); [|done]. intros Hu. by rewrite (IH s val (Some (snoc ref c))).
  - destruct (Ascii.eqb_spec c quote) as [->|Hq]; [done|]. destruct (Ascii.eqb c "&").
    + intros Hu. by rewrite (IH s val (Some "")).
    + intros (w & Hw & ->)%fmap_Some. by rewrite (IH w (snoc val c) None), snoc_app.
Qed.

(** ** What reading keeps *)

(** The text a token carries: everything but the names of tags and attributes. *)
Definition values (attrs : list (string * string)) : list ascii := attrs.*2 ≫= chars.
Definition carried (t : token) : list ascii :=
  match t with
  | Char c => [c]
  | StartTag _ attrs => values attrs
  | EndTag _ => []
  | Doctype s => chars s
  end.

Definition pending (st : state) : list ascii :=
  match st with
  | BeforeAttr _ attrs | AttrName _ attrs _ | BeforeValue _ attrs _ | AfterValue _ attrs => values attrs
  | Value _ attrs _ v | ValueRef _ attrs _ v _ => values attrs ++ chars v
  | Markup s => chars s
  | _ => []
  end.

Lemma chars_app s t : chars (s +:+ t) = chars s ++ chars t.
Proof. induction s as [|c s IH]; [done|]. exact (f_equal (cons c) IH). Qed.

Lemma chars_snoc s c : chars (snoc s c) = chars s ++ [c].
Proof. apply chars_app. Qed.

Lemma values_attr attrs n v attrs' : attr attrs n v = Some attrs' → values attrs' = values attrs ++ chars v.
Proof.
  unfold attr. destruct (existsb _ _); [done|]. intros [= <-]. unfold values.
  rewrite fmap_app, bind_app. f_equal. apply app_nil_r.
Qed.

Lemma carried_chars (l : list ascii) : (Char <$> l) ≫= carried = l.
Proof. induction l as [|c l IH]; [done|]. exact (f_equal (cons c) IH). Qed.

(** A carriage return is part of no name and no reference. *)
Lemma step_keeps st c ts st' :
  step st c = Some (ts, st') → CR ∈ pending st ++ [c] → CR ∈ (ts ≫= carried) ++ pending st'.
Proof.
  assert (Hc : ∀ a, CR ∈ [] ++ [a] → a = CR) by (intros a ->%list_elem_of_singleton; done).
  unfold step, opened, raw_step. intros Hs Hin. destruct (decide (c = CR)) as [->|Hne].
  - clear Hc Hin. destruct st; simpl in Hs; repeat case_match; simplify_eq; simpl;
      rewrite ?chars_snoc, ?carried_chars; set_solver.
  - assert (CR ∈ pending st) by (apply elem_of_app in Hin as [?|E%list_elem_of_singleton]; [done|by destruct Hne]). clear Hin.
    destruct st; simpl in *; try (by apply not_elem_of_nil in H);
      repeat case_match; simplify_eq; simpl; rewrite ?app_nil_r, ?chars_snoc;
      repeat match goal with E : attr _ _ _ = Some _ |- _ => rewrite (values_attr _ _ _ _ E); clear E end;
      set_solver.
Qed.

Lemma scan_keeps st s ts st' :
  scan st s = Some (ts, st') → CR ∈ pending st ++ chars s → CR ∈ (ts ≫= carried) ++ pending st'.
Proof.
  revert st ts. induction s as [|c s IH]; intros st ts; simpl; [by intros [= <- <-]; rewrite app_nil_r|].
  destruct (step st c) as [[a st1]|] eqn:E; [|done]. destruct (scan st1 s) as [[b st2]|] eqn:E'; [|done].
  intros [= <- <-] Hin. rewrite bind_app, <-app_assoc. apply elem_of_app.
  assert (CR ∈ pending st ++ [c] ∨ CR ∈ chars s) as [Hc|Hc] by (clear -Hin; set_solver).
  - apply (step_keeps _ _ _ _ E), elem_of_app in Hc as [?|?]; [by left|]. right.
    apply (IH _ _ E'). apply elem_of_app. by left.
  - right. apply (IH _ _ E'). apply elem_of_app. by right.
Qed.

Lemma no_bytes_chars b s : b ∉ chars s → no_bytes [b] s = true.
Proof.
  induction s as [|c s IH]; [done|]. intros [Hc Hs]%not_elem_of_cons. cbn [no_bytes mem existsb].
  rewrite (IH Hs). destruct (Ascii.eqb_spec c b); [congruence|done].
Qed.

(** A text whose tokens have no carriage return has none. *)
Lemma read_clean s ts : read s = Some ts → CR ∉ ts ≫= carried → no_bytes [CR] s = true.
Proof.
  unfold read. destruct (scan Data s) as [[us []]|] eqn:E; try done. intros [= <-] Hts.
  apply no_bytes_chars. intros Hin. apply (scan_keeps _ _ _ _ E), elem_of_app in Hin as [?|?]; [done|].
  by apply not_elem_of_nil in H.
Qed.

End Html.
