(* ===== verification/Templ.v ===== *)
(** * The template library

    github.com/a-h/templ as the generated code of src/web uses it: the operations
    are an interface, with the documented behaviour the pages rely on as laws.
    A component writes text until its context is cancelled, a write fails or
    it is done. *)

From Stdlib Require Import Ascii.
From S2P Require Import Prelude GoStrings Html.
Import Html.
Open Scope string_scope.
Open Scope list_scope.
Open Scope nat_scope.

Module Templ.

(** ** Writing *)

Inductive error :=
| Plain (text : string)
| Located (e : error) (file : string) (line col : nat).    (** templ.Error *)

(** What the environment does, given the text written so far: [ctx.Err()], a
    write that fails after a part of its text, and the buffer's last flush. *)
Record env := mkEnv {
  ctxErr : string → option error;
  refuses : string → string → option (nat * error);
  flushFails : string → option (nat * error);
}.

(** A piece of a component: the text in the buffer afterwards, and the error. *)
Definition out : Type := env → string → string * option error.

Definition nothing : out := λ _ buf, (buf, None).
Definition fail (e : error) : out := λ _ buf, (buf, Some e).

Definition put (s : string) : out := λ e buf,
  match refuses e buf s with
  | None => (buf +:+ s, None)
  | Some (n, er) => (buf +:+ take_str n s, Some er)
  end.

Definition seq (a b : out) : out := λ e buf,
  match a e buf with (buf, None) => b e buf | stopped => stopped end.

Definition each {A} (f : A → out) (l : list A) : out := foldr (λ x k, seq (f x) k) nothing l.

Definition when (c : bool) (a : out) : out := if c then a else nothing.

(** The frame of every generated component. *)
Definition component (body : out) : out := λ e buf,
  match ctxErr e buf with Some er => (buf, Some er) | None => body e buf end.

(** [Render] on a writer that is no templ buffer: a buffer of its own, which is
    flushed at the end.  The result is what the writer got, and the error. *)
Definition Render (c : out) (e : env) : string * option error :=
  let '(buf, err) := c e "" in
  match flushFails e buf with
  | None => (buf, err)
  | Some (n, fe) => (take_str n buf, match err with None => Some fe | _ => err end)
  end.

(** ** The library *)

(** An element of a class list: a name, or a name with a condition. *)
Inductive class := Name (s : string) | KV (s : string) (on : bool).

Definition enabled (c : class) : option string :=
  match c with Name s => Some s | KV s on => if on then Some s else None end.

Class Templ := {
  JoinStringErrs : string → string * option error;
  EscapeString : string → string;
  ResolveAttributeValue : string → string * option error;
  CSSClasses : list class → string;
  RenderCSSItems : list class → out;
  WriteString : nat → string → out;
}.

Definition class_name (s : string) : bool := forallb is_lower (chars s) && negb (s =? "")%string.
Definition named (c : class) : string := match c with Name s | KV s _ => s end.

(** Its documented behaviour: without errors a joined string is the string;
    escaped text has no markup and stands for the text it was made from, and so
    does the value of an attribute; the class list names the enabled classes in
    order; classes that are mere names need no style of their own; and outside
    the development mode a literal is written as it is. *)
Class TemplLaws `{Templ} := {
  join_one s : JoinStringErrs s = (s, None);
  escape_plain s : no_bytes markup (EscapeString s) = true;
  escape_stands s : unescape (EscapeString s) = Some s;
  resolve_plain s : ∃ v, ResolveAttributeValue s = (v, None) ∧ no_bytes markup v = true ∧ unescape v = Some s;
  classes_string cs : forallb class_name (named <$> cs) = true → NoDup (named <$> cs) →
    CSSClasses cs = join_byte SP (omap enabled cs);
  render_names cs : RenderCSSItems cs = nothing;
  write_string n s : WriteString n s = put s;
}.

(** ** The steps generated for an expression *)

Section generated.
Context `{Templ}.

Definition file : string := "web/pools.templ".

(** [{ s }] as text, and as the value of an attribute. *)
Definition text (line col : nat) (s : string) : out :=
  match JoinStringErrs s with
  | (_, Some e) => fail (Located e file line col)
  | (v, None) => put (EscapeString v)
  end.

Definition attribute (line col : nat) (s : string) : out :=
  match ResolveAttributeValue s with
  | (_, Some e) => fail (Located e file line col)
  | (v, None) => put v
  end.

End generated.

Notation "a ;; b" := (seq a b) (at level 100, b at level 200, right associativity).

(** ** Reasoning *)

(** [p] writes [s], or a part of it and then fails. *)
Definition emits (p : out) (s : string) : Prop := ∀ e buf,
  p e buf = (buf +:+ s, None) ∨ ∃ n er, p e buf = (buf +:+ take_str n s, Some er).

Lemma take_str_0 s : take_str 0 s = "".
Proof. by destruct s. Qed.

Lemma take_str_all s : take_str (String.length s) s = s.
Proof. induction s as [|c s IH]; [done|]. simpl. by rewrite IH. Qed.

Lemma take_str_app_le n s t : n ≤ String.length s → take_str n (s +:+ t) = take_str n s.
Proof.
  revert n. induction s as [|c s IH]; intros [|n] Hn; simpl in *; try (by rewrite ?take_str_0); [lia|].
  by rewrite IH by lia.
Qed.

Lemma take_str_app s n t : take_str (String.length s + n) (s +:+ t) = s +:+ take_str n t.
Proof. induction s as [|c s IH]; [done|]. simpl. by rewrite IH. Qed.

Lemma take_str_cap n s : take_str n s = take_str (n `min` String.length s) s.
Proof. revert n. induction s as [|c s IH]; intros [|n]; simpl; try done. by rewrite IH. Qed.

Lemma emits_nothing : emits nothing "".
Proof. intros e buf. left. by rewrite str_app_nil. Qed.

Lemma emits_put s : emits (put s) s.
Proof. intros e buf. unfold put. destruct (refuses e buf s) as [[n er]|]; eauto. Qed.

Lemma emits_seq a b s t : emits a s → emits b t → emits (a ;; b) (s +:+ t).
Proof.
  intros Ha Hb e buf. unfold seq. destruct (Ha e buf) as [->|(n & er & ->)].
  - rewrite <-str_app_assoc. destruct (Hb e (buf +:+ s)) as [->|(n & er & ->)]; [by left|].
    right. exists (String.length s + n), er. by rewrite take_str_app, str_app_assoc.
  - right. exists (n `min` String.length s), er.
    rewrite take_str_app_le by lia. by rewrite <-take_str_cap.
Qed.

Lemma emits_component a s : emits a s → emits (component a) s.
Proof.
  intros Ha e buf. unfold component. destruct (ctxErr e buf) as [er|]; [|apply Ha].
  right. exists 0, er. by rewrite take_str_0, str_app_nil.
Qed.

(** [p] writes text that takes the tokenizer from [st] to [st'] over [ts]. *)
Definition yields (p : out) (st : state) (ts : list token) (st' : state) : Prop :=
  ∃ s, emits p s ∧ scan st s = Some (ts, st').

Lemma yields_nothing st : yields nothing st [] st.
Proof. exists "". split; [apply emits_nothing|done]. Qed.

Lemma yields_seq a b st ts st1 us st2 :
  yields a st ts st1 → yields b st1 us st2 → yields (a ;; b) st (ts ++ us) st2.
Proof. intros (s & Hs & Es) (t & Ht & Et). exists (s +:+ t). split; [by apply emits_seq|by eapply scan_app]. Qed.

Lemma yields_component a st ts st' : yields a st ts st' → yields (component a) st ts st'.
Proof. intros (s & Hs & Es). exists s. split; [by apply emits_component|done]. Qed.

Lemma yields_each {A} (f : A → out) (g : A → list token) l :
  (∀ x, x ∈ l → yields (f x) Data (g x) Data) → yields (each f l) Data (l ≫= g) Data.
Proof.
  induction l as [|x l IH]; intros Hf; [apply yields_nothing|]. simpl.
  eapply yields_seq; [apply Hf; by left|apply IH]. intros y Hy. apply Hf. by right.
Qed.

Lemma yields_when (c : bool) a st ts : (c = true → yields a st ts st) → yields (when c a) st (if c then ts else []) st.
Proof. destruct c; intros Ha; [by apply Ha|apply yields_nothing]. Qed.

Lemma yields_if (c : bool) a b st ts us st' :
  yields a st ts st' → yields b st us st' → yields (if c then a else b) st (if c then ts else us) st'.
Proof. by destruct c. Qed.

Section laws.
Context `{TemplLaws}.

Lemma yields_literal n s st ts st' : scan st s = Some (ts, st') → yields (WriteString n s) st ts st'.
Proof. intros Hs. exists s. rewrite write_string. split; [apply emits_put|done]. Qed.

Lemma yields_text line col s : yields (text line col s) Data (Char <$> chars s) Data.
Proof.
  unfold text. rewrite join_one. eexists. split; [apply emits_put|].
  apply scan_text; [apply escape_plain|apply escape_stands].
Qed.

Lemma yields_attribute line col s tag attrs name val :
  yields (attribute line col s) (Value tag attrs name val) [] (Value tag attrs name (val +:+ s)).
Proof.
  unfold attribute. destruct (resolve_plain s) as (v & -> & Hp & Hu). exists v. split; [apply emits_put|].
  by apply scan_value.
Qed.

Lemma yields_classes cs st : yields (RenderCSSItems cs) st [] st.
Proof. rewrite render_names. apply yields_nothing. Qed.

End laws.

(** A component rendered to a writer: a complete document with the structure
    [hs], or a part of it and an error. *)
Definition renders (c : out) (hs : list html) : Prop :=
  ∃ doc, read doc = Some (all_tokens hs) ∧
    ∀ e, Render c e = (doc, None) ∨ ∃ n er, Render c e = (take_str n doc, Some er).

Lemma take_take n m s : ∃ k, take_str n (take_str m s) = take_str k s.
Proof.
  revert n s. induction m as [|m IH]; intros n s; [exists 0; rewrite take_str_0; by destruct n|].
  destruct s as [|c s]; [by exists 0; destruct n|]. destruct n as [|n]; [by exists 0|].
  destruct (IH n s) as [k Hk]. exists (S k). simpl. by rewrite Hk.
Qed.

Lemma yields_renders c hs : yields c Data (all_tokens hs) Data → renders c hs.
Proof.
  intros (s & Hs & Es). exists s. split; [unfold read; by rewrite Es|]. intros e. unfold Render.
  destruct (Hs e "") as [->|(n & er & ->)]; rewrite str_nil_app; destruct (flushFails e _) as [[m fe]|]; eauto.
  right. destruct (take_take m n s) as [k ->]. eauto.
Qed.

End Templ.
