(* ===== verification/TemplatesTheorems.v ===== *)
(** * What the dashboard's pages say

    The generated code writes what the templates describe: whatever the names of
    pools, users and databases and the texts of errors are, a browser reads the
    structure of the template, with the data as text and attribute values. *)

From Stdlib Require Import Ascii.
From stdpp Require Import pretty.
From S2P Require Import Prelude GoStrings Html Templ RateLimit AdminUI Templates.
Import Html Templ Templates.
Open Scope string_scope.
Open Scope list_scope.
Open Scope nat_scope.

Module TemplatesTheorems.

(** ** Tokens of a structure *)

Lemma tokens_element tag attrs kids : tokens (Element tag attrs kids) = StartTag tag attrs :: all_tokens kids ++ [EndTag tag].
Proof. done. Qed.

Lemma all_cons h l : all_tokens (h :: l) = tokens h ++ all_tokens l.
Proof. done. Qed.

Lemma all_app l l' : all_tokens (l ++ l') = all_tokens l ++ all_tokens l'.
Proof. apply bind_app. Qed.

Lemma all_fmap {A} (f : A → html) l : all_tokens (f <$> l) = l ≫= (λ x, tokens (f x)).
Proof. induction l as [|x l IH]; [done|]. rewrite fmap_cons, all_cons, IH. done. Qed.

Lemma all_only c h : all_tokens (only c h) = if c then tokens h else [].
Proof. destruct c; [apply app_nil_r|done]. Qed.

Lemma list_cons_app {A} (x : A) l l' : (x :: l) ++ l' = x :: l ++ l'.
Proof. done. Qed.

Lemma all_imap {A} (f : nat → A → list html) l :
  all_tokens (concat (imap f l)) = imap pair l ≫= (λ '(i, x), all_tokens (f i x)).
Proof.
  enough (∀ h : nat → nat, all_tokens (concat (imap (λ i, f (h i)) l)) =
    imap (λ i, pair (h i)) l ≫= (λ '(i, x), all_tokens (f i x))) by exact (H (λ i, i)).
  induction l as [|x l IH]; intros h; [done|]. rewrite !imap_cons, bind_cons. cbn [concat].
  rewrite all_app. f_equal. exact (IH (λ i, h (S i))).
Qed.

Create HintDb structure.
#[export] Hint Rewrite tokens_element all_cons all_app @all_fmap all_only @app_nil_r @list_cons_app : structure.
#[export] Hint Rewrite <-@app_assoc : structure.

(** Two ways to write the same tokens. *)
Ltac same := autorewrite with structure; simpl; autorewrite with structure; reflexivity.

(** One step of a component: a literal runs the tokenizer, an expression is
    read as it is. *)
Ltac literal := apply yields_literal; vm_compute; reflexivity.
Ltac piece := first [apply yields_text | apply yields_attribute | apply yields_classes | literal].
Ltac pieces := first
  [ piece
  | apply yields_when; intros _; solve [pieces]
  | apply yields_if; solve [pieces]
  | eapply yields_seq; [solve [pieces]|pieces]
  | idtac ].

Section pages.
Context `{TemplLaws}.

Lemma saturated_class b : CSSClasses [KV "saturated" b] = if b then "saturated" else "".
Proof. rewrite classes_string; [by destruct b|done|apply NoDup_singleton]. Qed.

Lemma notice_class b : CSSClasses (notice b) = noticeClass b.
Proof.
  unfold notice. rewrite classes_string; [by destruct b|done|]. apply NoDup_cons. split; [set_solver|apply NoDup_singleton].
Qed.

Lemma yields_same p st ts us st' : yields p st ts st' → ts = us → yields p st us st'.
Proof. by intros ? ->. Qed.

Ltac rows g := eapply yields_seq; [apply (yields_each _ (λ r, tokens (g r)))|].

Lemma yields_events rows : yields (RecentEvents rows) Data (tokens (recentEvents rows)) Data.
Proof.
  apply yields_component. eapply yields_same.
  - pieces. rows eventRow; [intros [t p k e] _; eapply yields_same; [pieces|same]|]. pieces.
  - unfold recentEvents, table. same.
Qed.

Lemma yields_sessions rows : yields (SessionsTable rows) Data (tokens (sessionsTable rows)) Data.
Proof.
  apply yields_component. eapply yields_same.
  - pieces. rows sessionRow; [intros [p u d a c t] _; unfold sessionRow|pieces].
    cbn [AdminUI.PID AdminUI.Active AdminUI.User AdminUI.Database AdminUI.ConnectedFor AdminUI.TxFor].
    generalize (pretty p). clear p. intros p.
    eapply yields_same; [pieces|]. destruct a; same.
  - unfold sessionsTable, table. same.
Qed.

Lemma yields_pools rows : yields (PoolsTable rows) Data (tokens (poolsTable rows)) Data.
Proof.
  apply yields_component. eapply yields_same.
  - pieces. rows poolRow; [|pieces]. intros r _. unfold poolRow. rewrite saturated_class.
    generalize (fixed3 (AdminUI.AcquireSeconds r)). intros secs. generalize (Saturated r). intros sat.
    destruct r as [n l u i t s d e].
    cbn [AdminUI.Name AdminUI.InUse AdminUI.Limit AdminUI.Idle AdminUI.AcquireTotal AdminUI.Discards AdminUI.DialErrors].
    eapply yields_same; [pieces|]. destruct sat; same.
  - unfold poolsTable, table. same.
Qed.

Lemma yields_reload lines isError : yields (ReloadResult lines isError) Data (tokens (reloadResult lines isError)) Data.
Proof.
  apply yields_component. unfold reloadResult. rewrite notice_class. generalize (noticeClass isError). intros cls.
  eapply yields_same.
  - pieces. eapply yields_seq; [apply (yields_each _ (λ '(i, l), all_tokens (reloadLine i l)))|pieces]. intros [i l] _.
    eapply yields_same; [pieces|]. unfold reloadLine. same.
  - rewrite tokens_element, all_imap. done.
Qed.

Lemma yields_manage rows message isError :
  yields (ManagePanel rows message isError) Data (tokens (managePanel rows message isError)) Data.
Proof.
  apply yields_component. unfold managePanel. rewrite notice_class. generalize (noticeClass isError). intros cls.
  eapply yields_same.
  - pieces. rows manageRow; [|pieces]. intros [n l] _. unfold manageRow, panelForm. cbn [Name Limit].
    generalize (pretty l). clear l. intros l. eapply yields_same; [pieces|same].
  - same.
Qed.

Lemma yields_style : yields pageStyle Data (all_tokens [Element "style" [] [Text css]; Element "script" [] [Text js]]) Data.
Proof. apply yields_component, yields_literal. vm_compute. reflexivity. Qed.

#[local] Opaque css js.

Lemma yields_page rows sessions events manage :
  yields (Page rows sessions events manage) Data (all_tokens (page rows sessions events manage)) Data.
Proof.
  unfold Page, page. apply yields_component. eapply yields_same.
  - eapply yields_seq; [literal|]. eapply yields_seq; [apply yields_style|].
    eapply yields_seq; [literal|]. eapply yields_seq; [apply yields_pools|].
    do 3 (eapply yields_seq; [literal|]). eapply yields_seq; [apply yields_sessions|].
    do 3 (eapply yields_seq; [literal|]). eapply yields_seq; [apply yields_manage|].
    do 3 (eapply yields_seq; [literal|]). eapply yields_seq; [apply yields_events|]. literal.
  - unfold head, live.
    generalize (poolsTable rows), (sessionsTable sessions), (managePanel manage "" false), (recentEvents events).
    intros p s m e. same.
Qed.

(** ** What runs in the page *)

(** A token that makes the browser run code. *)
Definition active (t : token) : bool :=
  match t with
  | StartTag tag attrs => (tag =? "script")%string || existsb (λ a, HasPrefix a "on") attrs.*1
  | _ => false
  end.

Abbreviation code h := (List.filter active (tokens h)).
Abbreviation codes l := (List.filter active (all_tokens l)).

Lemma code_element tag attrs kids :
  code (Element tag attrs kids) = (if active (StartTag tag attrs) then [StartTag tag attrs] else []) ++ codes kids.
Proof.
  rewrite tokens_element. cbn [List.filter]. rewrite List.filter_app, (app_nil_r (codes kids) : _ ++ List.filter active [EndTag tag] = _).
  by destruct (active (StartTag tag attrs)).
Qed.

Lemma code_text s : code (Text s) = [].
Proof. cbn [tokens]. induction s as [|c s IH]; [done|exact IH]. Qed.

Lemma codes_cons h l : codes (h :: l) = code h ++ codes l.
Proof. rewrite all_cons. apply List.filter_app. Qed.

Lemma codes_app l l' : codes (l ++ l') = codes l ++ codes l'.
Proof. rewrite all_app. apply List.filter_app. Qed.

Lemma codes_nil : codes [] = [].
Proof. done. Qed.

Lemma codes_only c h : codes (only c h) = if c then code h else [].
Proof. rewrite all_only. by destruct c. Qed.

Lemma codes_rows {A} (g : A → html) l : (∀ x, code (g x) = []) → codes (g <$> l) = [].
Proof. intros Hg. induction l as [|x l IH]; [done|]. rewrite fmap_cons, codes_cons, Hg. exact IH. Qed.

Create HintDb code.
Hint Rewrite code_element code_text codes_cons codes_app codes_nil codes_only : code.

(** The code of a structure: its tags one by one. *)
Ltac coded := autorewrite with code; cbn [active existsb fmap list_fmap fst]; cbn; repeat case_match; try done.

Lemma inactive_pool r : code (poolRow r) = [].
Proof. unfold poolRow, td, dim, el. coded. Qed.

Lemma inactive_session r : code (sessionRow r) = [].
Proof. unfold sessionRow, td, dim, el, danger. destruct (AdminUI.Active r); coded. Qed.

Lemma inactive_event r : code (eventRow r) = [].
Proof. unfold eventRow, td, dim, el. coded. Qed.

Lemma inactive_manage r : code (manageRow r) = [].
Proof. unfold manageRow, panelForm, el, danger, button. coded. Qed.

(** The scripts of the page and its four tabs. *)
Definition fixed_code : list token :=
  [StartTag "script" [("src", "/static/htmx.min.js")]; StartTag "script" [("src", "/static/htmx-ext-sse.js")];
   StartTag "script" []] ++
  ((λ '(cls, id), StartTag "button"
      [("type", "button"); ("class", cls); ("data-tab", id); ("onclick", "showTab('" +:+ id +:+ "')")]) <$>
   [("tab-btn active", "status"); ("tab-btn", "sessions"); ("tab-btn", "manage"); ("tab-btn", "errors")]).

Lemma code_page rows sessions events manage : codes (page rows sessions events manage) = fixed_code.
Proof.
  unfold page, head, live, poolsTable, sessionsTable, recentEvents, managePanel, table.
  autorewrite with code.
  rewrite (codes_rows _ _ inactive_pool), (codes_rows _ _ inactive_session), (codes_rows _ _ inactive_event),
    (codes_rows _ _ inactive_manage).
  destruct (length rows =? 0), (length sessions =? 0), (length events =? 0), (length manage =? 0); vm_compute; reflexivity.
Qed.

(** C29: Whatever the data is (names of pools, users and databases are chosen by
    clients and operators), a browser reads in every page and fragment exactly
    the structure of its template, with the data as text and attribute values;
    a failed write or a cancelled request leaves a part of that document; and
    the only code in the page is the page's own. *)
Theorem templates_faithful rows sessions events manage lines message isError :
  renders (Page rows sessions events manage) (page rows sessions events manage) ∧
  renders (PoolsTable rows) [poolsTable rows] ∧
  renders (SessionsTable sessions) [sessionsTable sessions] ∧
  renders (RecentEvents events) [recentEvents events] ∧
  renders (ManagePanel manage message isError) [managePanel manage message isError] ∧
  renders (ReloadResult lines isError) [reloadResult lines isError] ∧
  List.filter active (all_tokens (page rows sessions events manage)) = fixed_code.
Proof.
  assert (Hone : ∀ h, all_tokens [h] = tokens h) by (intros; rewrite all_cons; apply app_nil_r).
  split_and!; [..|apply code_page]; apply yields_renders; rewrite ?Hone.
  - apply yields_page.
  - apply yields_pools.
  - apply yields_sessions.
  - apply yields_events.
  - apply yields_manage.
  - apply yields_reload.
Qed.

End pages.

(** ** An implementation of the library *)

(** [html.EscapeString]. *)
Fixpoint escape (s : string) : string :=
  match s with
  | "" => ""
  | String c s =>
      (if Ascii.eqb c "&" then "&amp;" else if Ascii.eqb c "'" then "&#39;" else if Ascii.eqb c "<" then "&lt;"
       else if Ascii.eqb c ">" then "&gt;" else if Ascii.eqb c quote then "&#34;" else String c "") +:+ escape s
  end.

Definition plainTempl : Templ := {|
  JoinStringErrs s := (s, None);
  EscapeString := escape;
  ResolveAttributeValue s := (escape s, None);
  CSSClasses cs := join_byte SP (omap enabled cs);
  RenderCSSItems _ := nothing;
  WriteString _ s := put s;
|}.

Lemma no_bytes_app bs s t : no_bytes bs (s +:+ t) = no_bytes bs s && no_bytes bs t.
Proof. induction s as [|c s IH]; [done|]. cbn [no_bytes]. rewrite <-andb_assoc, <-IH. done. Qed.

Lemma escape_no_markup s : no_bytes markup (escape s) = true.
Proof.
  induction s as [|c s IH]; [done|]. cbn [escape]. rewrite no_bytes_app, IH, andb_true_r.
  repeat (case_match; [done|]). cbn [no_bytes]. rewrite andb_true_r. unfold mem, markup. cbn [existsb].
  by rewrite H1, H3.
Qed.

Lemma escape_unescape s : unescape (escape s) = Some s.
Proof.
  unfold unescape. induction s as [|c s IH]; [done|]. cbn [escape].
  assert (Hs : String c <$> unescape_from None (escape s) = Some (String c s)) by (by rewrite IH). rewrite <-Hs.
  destruct (Ascii.eqb_spec c "&") as [->|H1]; [done|]. destruct (Ascii.eqb_spec c "'") as [->|]; [done|].
  destruct (Ascii.eqb_spec c "<") as [->|]; [done|]. destruct (Ascii.eqb_spec c ">") as [->|]; [done|].
  destruct (Ascii.eqb_spec c quote) as [->|]; [done|]. rewrite str_cons_app, str_nil_app. cbn [unescape_from].
  by destruct (Ascii.eqb_spec c "&").
Qed.

#[local] Existing Instance plainTempl.

Lemma plainLaws : TemplLaws.
Proof.
  constructor; try done; [apply escape_no_markup|apply escape_unescape|].
  intros s. exists (escape s). split_and!; [done|apply escape_no_markup|apply escape_unescape].
Qed.

(** A pool and a user that try to be markup. *)
Lemma templates_faithful_witness :
  let rows := [AdminUI.mkPoolRow "<script>alert(1)</script>" 2 2 0 7 (RateLimit.Seconds 1500000000) 0 0] in
  let sessions := [AdminUI.mkSessionRow 42 (q "a` onclick=`evil()") "shop&co" true "1m0s" "2s"] in
  renders (Page rows sessions [] [mkManageRow "x`'y" 2]) (page rows sessions [] [mkManageRow "x`'y" 2]) ∧
  List.filter active (all_tokens (page rows sessions [] [mkManageRow "x`'y" 2])) = fixed_code ∧
  fixed3 (RateLimit.Seconds 1500000000) = "1.500".
Proof.
  intros rows sessions. pose proof plainLaws as Hl.
  destruct (templates_faithful rows sessions [] [mkManageRow "x`'y" 2] [] "" false) as (Hp & _ & _ & _ & _ & _ & Hc).
  split; [exact Hp|]. split; [exact Hc|]. by vm_compute.
Defined.

End TemplatesTheorems.
