(* ===== verification/Dashboard.v ===== *)
(** * The dashboard

    The handlers of src/ui.go that show the state of the process: the page and the
    event stream that keeps its tables current.  They read the registry, the
    pools, the sessions and the log of events one after the other; a [view] is
    what one reading found.  The last part composes them with the templates and
    the framing of the stream: what a browser makes of what it is sent. *)

From Stdlib Require Import Ascii.
From stdpp Require Import pretty.
From S2P Require Import Prelude GoStrings Pool Config Registry Session Limits RateLimit RegistryLemmas RegistryTheorems AdminUI AdminUITheorems Html Templ Templates TemplatesTheorems.
Import Html Templ.
Open Scope string_scope.
Open Scope list_scope.
Open Scope Z_scope.

Module Dashboard.

(** ** Events *)

Record Event := mkEvent { Time : Z; Pool : string; Kind : string; Err : string }.

(** [EventLog.Record] as [PoolRegistry.onEvent] calls it for the pool [name]. *)
Definition onEvent (now : Z) (name kind : string) (err : option string) (log : Limits.EventLog Event) :
  Limits.EventLog Event :=
  Limits.record_event (mkEvent now name kind (default "" err)) log.

Definition pad2 (n : Z) : string := if n <? 10 then "0" +:+ pretty n else pretty n.

(** [t.Format("15:04:05")]; [zone] is the local time zone's offset in seconds. *)
Definition clock (zone : Z → Z) (t : Z) : string :=
  let s := (t / Second + zone t) mod 86400 in
  pad2 (s / 3600) +:+ ":" +:+ pad2 (s / 60 mod 60) +:+ ":" +:+ pad2 (s mod 60).

Definition eventRows (zone : Z → Z) (log : Limits.EventLog Event) : list Templates.EventRow :=
  (λ e, Templates.mkEventRow (clock zone (Time e)) (Pool e) (Kind e) (Err e)) <$> Limits.Recent log.

(** ** Views *)

Definition Pools (r : Registry.PoolRegistry) : gmap string nat := Registry.pool <$> Registry.entries r.

Record view := mkView {
  registry : Registry.PoolRegistry;       (** when [Pools] reads it *)
  stats : nat → Pool.Stats;
  now : Z;
  infos : list Session.SessionInfo;       (** [listSessions] *)
  events : Limits.EventLog Event;
}.

Section handlers.
Context `{MapRange} `{Templ} (zone : Z → Z).

Definition pools (v : view) : list AdminUI.PoolRow := AdminUI.poolRows (stats v) (Pools (registry v)).
Definition sessions (v : view) : list AdminUI.SessionRow := AdminUI.sessionRows (now v) (infos v).
Definition recent (v : view) : list Templates.EventRow := eventRows zone (events v).

Definition manageRows (r : Registry.PoolRegistry) : list Templates.ManageRow :=
  (λ '(name, limit), Templates.mkManageRow name limit) <$> AdminUI.manageRows r.

(** ** [indexHandler]

    The registry is read once more, for the panel. *)
Definition indexHandler (v : view) (r : Registry.PoolRegistry) : env → string * option error :=
  Render (Templates.Page (pools v) (sessions v) (recent v) (manageRows r)).

(** ** [sseHandler] *)

(** The component is rendered to a strings.Builder, which takes everything;
    only the request's context can stop it. *)
Definition building (e : env) (buf : string) : env :=
  mkEnv (λ s, ctxErr e (buf +:+ s)) (λ _ _, None) (λ _, None).

Definition writeEvent (name : string) (c : out) : out := λ e buf,
  match Render c (building e buf) with
  | (_, Some er) => (buf, Some er)
  | (s, None) =>
      (put ("event: " +:+ name +:+ AdminUI.NL) ;;
       each (λ line, put (AdminUI.dataLine line)) (AdminUI.splitLines s) ;;
       put (AdminUI.NL +:+ AdminUI.NL)) e buf
  end.

(** One round of the loop. *)
Definition tick (v : view) : out :=
  writeEvent "pools" (Templates.PoolsTable (pools v)) ;;
  writeEvent "sessions" (Templates.SessionsTable (sessions v)) ;;
  writeEvent "events" (Templates.RecentEvents (recent v)).

Inductive response :=
| HTTPError (text : string) (code : nat)
| Stream (headers : list (string * string)) (body : out).

(** The views are those of the rounds until the request's context is done. *)
Definition sseHandler (flusher : bool) (views : list view) : response :=
  if negb flusher then HTTPError "streaming unsupported" 500
  else Stream [("Content-Type", "text/event-stream"); ("Cache-Control", "no-cache"); ("Connection", "keep-alive")]
         (each tick views).

End handlers.

(** ** What the browser sees *)

Section shown.
Context `{MapRange} `{TemplLaws} (zone : Z → Z).

Lemma emits_each {A} (f : A → out) (g : A → string) l :
  (∀ x, emits (f x) (g x)) → emits (each f l) (AdminUI.concat_str (g <$> l)).
Proof. intros Hf. induction l as [|x l IH]; [apply emits_nothing|]. by apply emits_seq. Qed.

(** A component that is rendered to a builder is complete unless its context is
    cancelled. *)
Lemma emits_event name c doc : emits c doc → emits (writeEvent name c) (AdminUI.writeEvent name doc).
Proof.
  intros Hc e buf. unfold writeEvent, Render. destruct (Hc (building e buf) "") as [->|(n & er & ->)]; cbn [building flushFails].
  - rewrite str_nil_app. unfold AdminUI.writeEvent.
    assert (Hl : emits (put ("event: " +:+ name +:+ AdminUI.NL) ;;
        each (λ line, put (AdminUI.dataLine line)) (AdminUI.splitLines doc) ;; put (AdminUI.NL +:+ AdminUI.NL))
      (("event: " +:+ name +:+ AdminUI.NL) +:+
       AdminUI.concat_str (AdminUI.dataLine <$> AdminUI.splitLines doc) +:+ AdminUI.NL +:+ AdminUI.NL)).
    { apply emits_seq; [apply emits_put|]. apply emits_seq; [|apply emits_put].
      apply emits_each. intros line. apply emits_put. }
    rewrite !str_app_assoc in Hl. apply Hl.
  - right. exists 0%nat, er. by rewrite take_str_0, str_app_nil.
Qed.

(** The three documents of one round, and what they read as. *)
Definition shows (v : view) (evs : list (string * string)) : Prop :=
  ∃ p s r, evs = [("pools", p); ("sessions", s); ("events", r)] ∧
    read p = Some (tokens (Templates.poolsTable (pools v))) ∧
    read s = Some (tokens (Templates.sessionsTable (sessions v))) ∧
    read r = Some (tokens (Templates.recentEvents (recent zone v))).

Definition frames (evs : list (string * string)) : string :=
  AdminUI.concat_str ((λ '(name, body), AdminUI.writeEvent name body) <$> evs).

Lemma frames_app a b : frames (a ++ b) = frames a +:+ frames b.
Proof.
  unfold frames. rewrite fmap_app. generalize ((λ '(name, body), AdminUI.writeEvent name body) <$> b). intros l.
  induction ((λ '(name, body), AdminUI.writeEvent name body) <$> a) as [|x k IH]; [done|].
  cbn [app AdminUI.concat_str]. by rewrite IH, str_app_assoc.
Qed.

Lemma yields_read c h : yields c Data (tokens h) Data → ∃ doc, emits c doc ∧ read doc = Some (tokens h).
Proof. intros (s & Hs & E). exists s. split; [done|]. unfold read. by rewrite E. Qed.

Lemma tick_shows v : ∃ evs, emits (tick zone v) (frames evs) ∧ shows v evs.
Proof.
  destruct (yields_read _ _ (TemplatesTheorems.yields_pools (pools v))) as (p & Hp & Rp).
  destruct (yields_read _ _ (TemplatesTheorems.yields_sessions (sessions v))) as (s & Hs & Rs).
  destruct (yields_read _ _ (TemplatesTheorems.yields_events (recent zone v))) as (r & Hr & Rr).
  exists [("pools", p); ("sessions", s); ("events", r)]. split; [|by exists p, s, r].
  unfold frames. cbn [fmap list_fmap AdminUI.concat_str]. rewrite str_app_nil.
  repeat apply emits_seq; by apply emits_event.
Qed.

Lemma ticks_show views : ∃ rounds, Forall2 shows views rounds ∧ emits (each (tick zone) views) (frames (concat rounds)).
Proof.
  induction views as [|v views (rounds & Hs & He)]; [exists []; split; [done|apply emits_nothing]|].
  destruct (tick_shows v) as (evs & Hv & Hsh). exists (evs :: rounds). split; [by constructor|].
  cbn [concat]. rewrite frames_app. by apply emits_seq.
Qed.

(** No carriage return is shown: the tables have none in their text. *)
Definition clean (v : view) : Prop :=
  CR ∉ tokens (Templates.poolsTable (pools v)) ≫= carried ∧
  CR ∉ tokens (Templates.sessionsTable (sessions v)) ≫= carried ∧
  CR ∉ tokens (Templates.recentEvents (recent zone v)) ≫= carried.

Lemma shows_readable v evs : shows v evs → clean v →
  Forall (λ '(name, body), no_bytes [CR; LF] name = true ∧ no_bytes [CR] body = true) evs.
Proof.
  intros (p & s & r & -> & Rp & Rs & Rr) (Cp & Cs & Cr).
  repeat constructor; by eapply read_clean.
Qed.

(** The table of pools has one row for every entry of the registry, sorted by
    key, with that pool's own counters. *)
Definition row_of (v : view) (key : string) (e : Registry.registryEntry) : AdminUI.PoolRow :=
  let s := stats v (Registry.pool e) in
  AdminUI.mkPoolRow key (Pool.Limit s) (Pool.InUse s) (Pool.Idle s) (Pool.WaitCount s)
    (RateLimit.Seconds (Pool.WaitTime s)) (Pool.Discards s) (Pool.DialErrors s).

Lemma sorted_keys {A B} (f : A → B) (m : gmap string A) :
  Registry.sort_strings (range (f <$> m)).*1 = Registry.sort_strings (range m).*1.
Proof.
  apply RegistryLemmas.sort_strings_perm. rewrite !range_perm, map_to_list_fmap, <-list_fmap_compose.
  rewrite (list_fmap_ext (fst ∘ prod_map id f) fst) by done. done.
Qed.

Lemma pools_exact v :
  (AdminUI.Name <$> pools v) = Registry.Names (registry v) ∧
  ∀ row, row ∈ pools v ↔ ∃ key e, Registry.entries (registry v) !! key = Some e ∧ row = row_of v key e.
Proof.
  assert (Hn : ∀ k, k ∈ Registry.Names (registry v) ↔ ∃ e, Registry.entries (registry v) !! k = Some e).
  { intros k. unfold Registry.Names. rewrite RegistryTheorems.elem_of_sort, list_elem_of_fmap. split.
    - intros ([k' e] & -> & He%elem_of_range). by exists e.
    - intros [e He]. exists (k, e). split; [done|]. by apply elem_of_range. }
  assert (Hp : pools v = omap (λ key, row_of v key <$> Registry.entries (registry v) !! key) (Registry.Names (registry v))).
  { unfold pools, AdminUI.poolRows, Pools, Registry.Names. rewrite sorted_keys.
    generalize (Registry.sort_strings (range (Registry.entries (registry v))).*1). intros l. induction l as [|k l IH]; [done|]. cbn. rewrite IH, lookup_fmap. by destruct (Registry.entries _ !! k). }
  rewrite Hp. split.
  - clear Hp. assert (Hl : Forall (λ k, is_Some (Registry.entries (registry v) !! k)) (Registry.Names (registry v))).
    { apply Forall_forall. intros k Hk. by apply Hn. }
    clear Hn. induction Hl as [|k l [e He] _ IH]; [done|]. cbn. rewrite He. cbn. f_equal. exact IH.
  - intros row. rewrite list_elem_of_omap. split.
    + intros (k & _ & (e & He & ->)%fmap_Some). eauto.
    + intros (k & e & He & ->). exists k. rewrite He. split; [apply Hn; eauto|done].
Qed.

(** C30: The dashboard shows the state of the process.  The page is its template
    over what was read, with one row for every registered pool; the event stream
    then gives a browser, in every round and in order, the tables of pools,
    sessions and events as they were read in that round, however the names
    look, as long as no text has a carriage return.  A response that is cut
    off has delivered a part of this one. *)
Theorem dashboard_shows r views :
  Forall clean views →
  (∀ v, (AdminUI.Name <$> pools v) = Registry.Names (registry v) ∧
    ∃ doc, read doc = Some (all_tokens (Templates.page (pools v) (sessions v) (recent zone v) (manageRows r))) ∧
      ∀ e, indexHandler zone v r e = (doc, None) ∨ ∃ n er, indexHandler zone v r e = (take_str n doc, Some er)) ∧
  ∃ rounds body, Forall2 shows views rounds ∧
    sseHandler zone true views = Stream
      [("Content-Type", "text/event-stream"); ("Cache-Control", "no-cache"); ("Connection", "keep-alive")] body ∧
    emits body (frames (concat rounds)) ∧
    AdminUITheorems.readStream (frames (concat rounds)) = concat rounds.
Proof.
  intros Hcl. split; [intros v; split; [apply pools_exact|apply yields_renders, TemplatesTheorems.yields_page]|].
  destruct (ticks_show views) as (rounds & Hs & He).
  exists rounds, (each (tick zone) views). split_and!; [done|done|done|]. apply AdminUITheorems.sse_roundtrip.
  clear He. induction Hs as [|v evs views rounds Hv Hs IH]; [done|].
  apply Forall_cons in Hcl as [Hc Hcl]. apply Forall_app. split; [by eapply shows_readable|by apply IH].
Qed.

End shown.

(** A process with one pool, a session of a user whose name is markup, and a
    failed dial. *)
#[local] Existing Instance TemplatesTheorems.plainTempl.

Definition demo_view : view :=
  mkView RegistryTheorems.demo (λ _, Pool.mkStats 2 1 0 0 3 1500000000 0 1 0 false) (90 * Second)
    [Session.mkInfo 7 "<b>bob</b>" "shop" "shop" true 0 (60 * Second)]
    (onEvent (86399 * Second) "shop" "dial_error" (Some "connection refused") (Limits.NewEventLog 50)).

Lemma dashboard_shows_witness :
  clean (λ _, 0) demo_view ∧
  (∃ rounds, Forall2 (shows (λ _, 0)) [demo_view] rounds ∧
    AdminUITheorems.readStream (frames (concat rounds)) = concat rounds) ∧
  (AdminUI.Name <$> pools demo_view) = ["shop"; "shop/alice"] ∧
  recent (λ _, 0) demo_view = [Templates.mkEventRow "23:59:59" "shop" "dial_error" "connection refused"].
Proof.
  assert (Hc : clean (λ _, 0) demo_view) by (split_and!; apply (bool_decide_unpack _); by vm_compute).
  pose proof TemplatesTheorems.plainLaws as Hl.
  destruct (dashboard_shows (λ _, 0) RegistryTheorems.demo [demo_view]) as [Hi (rounds & body & Hs & _ & _ & Hr)].
  { constructor; [exact Hc|constructor]. }
  split; [exact Hc|]. split; [by exists rounds|]. split; by vm_compute.
Defined.

End Dashboard.
