(* ===== verification/PeerCred.v ===== *)
(** * Who is at the other end of a socket

    src/peer_cred_linux.go, src/peer_cred_other.go and what src/hba.go reads off
    a connection: the kind of socket, the address of the client, the client
    certificate, and the operating system user behind a Unix socket.  A
    connection is what the listener accepted, or a TLS session over it, and
    receiveStartupMessage of Startup.v decides which of the two
    authentication gets to see. *)

From S2P Require Import Prelude HBA HBATheorems Startup.
Import HBA Startup.
Open Scope list_scope.
Open Scope Z_scope.

Module PeerCred.

(** ** Connections *)

(** [syscall.Ucred] *)
Record Ucred := mkUcred { Pid : Z; Uid : Z; Gid : Z }.

(** A Unix socket as the kernel answers for it: whether [SyscallConn] and
    [Control] succeed, and what getsockopt returns. *)
Record unixSock := mkUnix { syscallConn : bool; control : bool; getsockopt : option Ucred }.

(** The [net.Conn]s the accept loops and the TLS upgrade produce; a TLS session
    has the common names of the certificates its client presented. *)
Inductive netConn :=
| TCPConn (ip : IP)
| UnixConn (s : unixSock)
| TLSConn (under : netConn) (names : list text).

Inductive peerErr := NotUnixSocket | SyscallConnFailed | ControlFailed | GetsockoptFailed | NotSupported.

(** ** The credentials *)

Definition getPeerCred_linux (c : netConn) : result peerErr (Z * Z * Z) :=
  match c with
  | UnixConn s =>
      if negb (syscallConn s) then Err SyscallConnFailed
      else if negb (control s) then Err ControlFailed
      else match getsockopt s with
           | None => Err GetsockoptFailed
           | Some u => Ok (Uid u, Gid u, Pid u)
           end
  | _ => Err NotUnixSocket
  end.

Definition getPeerCred_other (_ : netConn) : result peerErr (Z * Z * Z) := Err NotSupported.

(** Which of the two files the build has. *)
Definition getPeerCred (linux : bool) (c : netConn) : result peerErr (Z * Z * Z) :=
  if linux then getPeerCred_linux c else getPeerCred_other c.

(** [RemoteAddr] of a TLS session is that of the connection under it. *)
Fixpoint remoteAddrIP (c : netConn) : option IP :=
  match c with
  | TCPConn ip => Some ip
  | UnixConn _ => None
  | TLSConn under _ => remoteAddrIP under
  end.

Section seen.
Context `{UnicodeFold}.

(** [lookupUsernameByUID], the system's user database. *)
Context (linux : bool) (lookupUsernameByUID : Z → option text).

(** What HBAAuth reads off the connection; [inner] is the inner backend's
    verdict. *)
Definition seen (inner : bool) (c : netConn) : connection := {|
  isTLS := match c with TLSConn _ _ => true | _ => false end;
  isUnix := match c with UnixConn _ => true | _ => false end;
  remoteIP := remoteAddrIP c;
  peerCN := match c with TLSConn _ names => head names | _ => None end;
  peerCredSupported := linux;
  peerUser := match getPeerCred linux c with
              | Ok (uid, _, _) => lookupUsernameByUID uid
              | Err _ => None
              end;
  innerOk := inner |}.

(** The connection that goes to authentication when the listener accepted
    [base]; the accept loop of the Unix socket has no TLS configuration. *)
Definition handed (tls : bool) (base : netConn) (names : list text) (ms : list (firstMsg * bool * bool)) :
  result recvErr (firstMsg * netConn) :=
  match (receiveStartupMessage (match base with UnixConn _ => false | _ => tls end) false ms).1 with
  | Ok (m, sealed) => Ok (m, if sealed then TLSConn base names else base)
  | Err e => Err e
  end.

(** ** Theorems *)

(** Without a TLS configuration no handshake happens. *)
Lemma never_sealed ms m b : (receiveStartupMessage false false ms).1 = Ok (m, b) → b = false.
Proof.
  revert m b. induction ms as [|[[x w] k] ms IH]; intros m b; [done|]. simpl.
  destruct x; simpl; try done; try congruence; destruct w; simpl; try done;
    destruct (receiveStartupMessage false false ms) as [r out]; simpl in *; apply IH.
Qed.

(** A rule speaks of the socket a client really came through: what a client of
    the Unix socket sends cannot make it anything but local, and a client that
    came over TCP is never local, and is under TLS exactly when the handshake
    took place. *)
Theorem rules_follow_the_socket tls base names ms m c inner user db r :
  handed tls base names ms = Ok (m, c) → (∀ b l, base ≠ TLSConn b l) →
  MatchHBA [r] (isTLS (seen inner c)) (isUnix (seen inner c)) (remoteIP (seen inner c)) user db = Some r →
  match base with
  | UnixConn _ => Type_ r = HBALocal ∧ c = base
  | _ => Type_ r ≠ HBALocal ∧ remoteIP (seen inner c) = remoteAddrIP base ∧
         (Type_ r = HBAHostSSL → c = TLSConn base names) ∧ (Type_ r = HBAHostNoSSL → c = base)
  end.
Proof.
  unfold handed. intros Hh Hb Hm.
  destruct (receiveStartupMessage _ false ms).1 as [[x sealed]|] eqn:E; [|done]. injection Hh as -> <-.
  simpl in Hm. destruct (matches _ _ _ _ _ r) eqn:Em; [|done]. unfold matches, matchHBAType in Em.
  destruct base as [ip|s|b l]; [| |by destruct (Hb b l)].
  - destruct sealed; simpl in *; destruct (Type_ r); done.
  - apply never_sealed in E as ->. simpl in *. by destruct (Type_ r).
Qed.

(** A peer login is the kernel's word: a client is accepted by a METHOD=peer
    rule only on Linux, on a Unix socket, and when the user id the kernel
    reports for the process at the other end belongs to the user it asked for. *)
Theorem peer_login_sound rules c inner user db r :
  MatchHBA rules (isTLS (seen inner c)) (isUnix (seen inner c)) (remoteIP (seen inner c)) user db = Some r →
  Method r = HBAMethodPeer → Authenticate rules (seen inner c) user db = Accept →
  linux = true ∧ ∃ s u, c = UnixConn s ∧ getsockopt s = Some u ∧ lookupUsernameByUID (Uid u) = Some user.
Proof.
  intros Hm Hp Ha. unfold Authenticate in Ha. rewrite Hm, Hp in Ha. unfold authenticatePeer in Ha.
  destruct c as [ip|s|b l]; simpl in Ha; try done. unfold getPeerCred in Ha. destruct linux; [|done]. split; [done|].
  simpl in Ha. destruct (syscallConn s); [|done]. destruct (control s); [|done]. simpl in Ha.
  destruct (getsockopt s) as [u|] eqn:Eu; [|done]. exists s, u. split; [done|]. split; [done|].
  destruct (lookupUsernameByUID (Uid u)) as [v|]; [|done]. case_bool_decide; [by subst|done].
Qed.

End seen.

(** *** Witnesses *)

#[local] Instance plain_fold : UnicodeFold := λ r, r.

Definition local_peer : HBARule := mkRule HBALocal true true [] [] None false HBAMethodPeer.
Definition asking : firstMsg := FStartup (mkStartup ∅).

(** The client asks for TLS first, and is told no. *)
Lemma rules_follow_the_socket_witness :
  let sock := UnixConn (mkUnix true true (Some (mkUcred 42 1000 1000))) in
  Type_ local_peer = HBALocal ∧ sock = sock.
Proof.
  exact (rules_follow_the_socket true (λ _, Some (lit "alice")) true
    (UnixConn (mkUnix true true (Some (mkUcred 42 1000 1000)))) [] [(FSSL, true, true); (asking, true, true)] asking
    _ false (lit "alice") (lit "shop") local_peer ltac:(reflexivity) ltac:(done) ltac:(reflexivity)).
Defined.

Lemma peer_login_sound_witness :
  true = true ∧ ∃ s u, UnixConn (mkUnix true true (Some (mkUcred 42 1000 1000))) = UnixConn s ∧
    getsockopt s = Some u ∧ Some (lit "alice") = Some (lit "alice").
Proof.
  exact (peer_login_sound true (λ _, Some (lit "alice")) [local_peer]
    (UnixConn (mkUnix true true (Some (mkUcred 42 1000 1000)))) false (lit "alice") (lit "shop") local_peer
    ltac:(reflexivity) ltac:(reflexivity) ltac:(reflexivity)).
Defined.

End PeerCred.
