(* ===== verification/Gateway.v ===== *)
(** * The gateway: handlers, registry and pools together

    What src/main.go wires up: the process of Server.v, whose handlers log
    clients in and route them; the registry of Registry.v, which the admin API,
    reloads and the reaper rewrite meanwhile; and, for every pool the registry
    ever built, the proxy of Proxy.v, in which the sessions routed to that pool
    run their relays.  A handler that has finished the handshake starts its relay
    in the pool it was routed to, and returns when the relay has. *)

From S2P Require Import Prelude Prepared Relay PoolSpec Proxy Pool Registry RegistryOps Session Startup Server.
Import Session Startup Server.
Open Scope string_scope.
Open Scope list_scope.
Open Scope nat_scope.

Module Gateway.

(** ** State *)

Abbreviation poolTable := (gmap nat (Registry.poolSpec * Proxy.proxy)).

Record gateway := mkGateway {
  srv : sys;
  pools : poolTable;                        (** every pool built so far, by its number *)
  past : list Registry.PoolRegistry;        (** every registry there has been, the last one first *)
  logins : list startupMsg;                 (** the startup messages that authenticated *)
  requests : list RegistryOps.op;           (** what was asked of the registry from outside, the last first *)
}.

Definition reg (s : sys) : Registry.PoolRegistry := registry (shr (proc s)).
Definition table (s : sys) : world := sessions (shr (proc s)).

(** [pool.New] for the entries that have no pool yet. *)
Definition build (r : Registry.PoolRegistry) (P : poolTable) : poolTable :=
  map_fold (λ _ e P, match P !! Registry.pool e with
                     | Some _ => P
                     | None => <[ Registry.pool e := (Registry.spec e, Proxy.init) ]> P
                     end) P (Registry.entries r).

(** The pools and the history after a step that may have written the registry. *)
Definition observe (s : sys) (P : poolTable) (R : list Registry.PoolRegistry) (A : list startupMsg)
    (O : list RegistryOps.op) : gateway :=
  mkGateway s (build (reg s) P) (reg s :: R) A O.

(** ** A handler and its relay *)

Definition connect (s : Prepared.session) (p : Proxy.proxy) : Proxy.proxy :=
  Proxy.mkProxy (Proxy.pool p) (Proxy.conns p) (Proxy.sessions p ++ [Relay.relay_init s])
    ({[ Prepared.sid s ]} ∪ Proxy.known p).

(** A handler that goes from the handshake to serving a pool's client calls the
    relay with the session and the pool of its route. *)
Definition enter (t t' : thread) (w : world) (P : poolTable) : poolTable :=
  match t, t' with
  | TConn _ (CRun (HHello _ _ _ _)), TConn _ (CRun (HServe _ (Serve d) _ l)) =>
      match deref w l with
      | Some s => alter (λ x, (x.1, connect (relaySession s) x.2)) (Registry.Pool d) P
      | None => P
      end
  | _, _ => P
  end.

(** A handler passes authentication. *)
Definition passed (t t' : thread) (A : list startupMsg) : list startupMsg :=
  match t, t' with
  | TConn _ (CRun (HAuth m)), TConn _ (CRun (HRate _)) => m :: A
  | _, _ => A
  end.

(** Only a login that authentication vouches for passes. *)
Definition admits (vouched : startupMsg → Prop) (t t' : thread) : Prop :=
  match t, t' with
  | TConn _ (CRun (HAuth m)), TConn _ (CRun (HRate _)) => vouched m
  | _, _ => True
  end.

(** Its relay has returned. *)
Definition finished (t t' : thread) (w : world) (P : poolTable) : bool :=
  match t, t' with
  | TConn _ (CRun (HServe _ (Serve d) _ l)), TConn _ (CRun (HDeregister _ _ _ _)) =>
      match deref w l, P !! Registry.Pool d with
      | Some s, Some (_, p) =>
          forallb (λ r, negb (Prepared.sid (Relay.sess r) =? id s)%Z ||
                        match Relay.ph r with Relay.RDone => true | _ => false end) (Proxy.sessions p)
      | _, _ => true
      end
  | _, _ => true
  end.

(** ** Steps *)

Section steps.
(** [vouched] says which startup messages the authentication backend accepts. *)
Context `{MapRange} (ho : handlerOpts) (ro : Relay.runtimeOpts) (vouched : startupMsg → Prop).

Definition limitOf (sp : Registry.poolSpec) : nat := Pool.limit (Registry.spec_opts sp).

(** A thread of the process; a writer of the registry (an admin's request, a step
    of a reload, the reaper), with nothing asked of what it asks for; or a step
    inside one pool, of a relay or of the pool itself, which brings no new
    session. *)
Inductive gstep : gateway → gateway → Prop :=
| g_thread p ts1 t ts2 p' t' new P R A O :
    tstep ho p t p' t' new → admits vouched t t' → finished t t' (sessions (shr p)) P = true →
    gstep (mkGateway (mkSys p (ts1 ++ t :: ts2)) P R A O)
          (observe (mkSys p' (option_list new ++ ts1 ++ t' :: ts2)) (enter t t' (sessions (shr p')) P) R
             (passed t t' A) O)
| g_writer a p ts r P R A O : RegistryOps.rstep a (registry (shr p), []) (r, []) →
    gstep (mkGateway (mkSys p ts) P R A O)
          (observe (mkSys (with_shr (with_registry r (shr p)) p) ts) P R A (a :: O))
| g_pool s P R A O n sp p lab p' :
    P !! n = Some (sp, p) → Proxy.pstep ro (limitOf sp) lab p p' → Proxy.known p' = Proxy.known p →
    gstep (mkGateway s P R A O) (mkGateway s (<[ n := (sp, p') ]> P) R A O).

Definition begin (n : nat) (m : Z) (s0 : shared) : gateway := observe (start n m s0) ∅ [] [] [].

Definition reached (n : nat) (m : Z) (s0 : shared) (g : gateway) : Prop := rtc gstep (begin n m s0) g.

End steps.

End Gateway.
