(* ===== verification/GatewayRouting.v ===== *)
(** * Routing while the registry changes

    What a handler's two accesses to the registry give it when anything may
    happen between them: how the registry's operations carry pools over, which
    pools are built, and that the pool a handler ends up with is one its client
    is entitled to. *)

From S2P Require Import Prelude GoStrings Config Registry RegistryLemmas RegistryOps RegistryTheorems Proxy.
From S2P Require Import Session Startup Server Gateway.
Import Config Registry RegistryLemmas RegistryOps RegistryTheorems Gateway.
Open Scope string_scope.
Open Scope list_scope.
Open Scope nat_scope.

Module GatewayRouting.

(** ** Pools are carried over *)

(** Every entry has a pool of its own, and the next number is none of theirs.
    Unlike the invariant of the registry, this survives every request. *)
Definition Numbered (r : PoolRegistry) : Prop :=
  (∀ k e, entries r !! k = Some e → pool e < nextPool r) ∧
  (∀ k k' e e', entries r !! k = Some e → entries r !! k' = Some e' → pool e = pool e' → k = k').

Lemma WF_Numbered r : WF r → Numbered r.
Proof. intros [HE _]. split; [apply (wf_fresh r HE)|apply (wf_distinct r HE)]. Qed.

(** From [r] to [r'] an entry is kept, but for the time of its last use, or its
    pool is a new one. *)
Record grows (r r' : PoolRegistry) : Prop := mkGrows {
  gr_new k e' : entries r' !! k = Some e' → (∃ e, entries r !! k = Some e ∧ sim e e') ∨ nextPool r ≤ pool e';
  gr_next : nextPool r ≤ nextPool r';
  gr_defaults : defaults r' = defaults r;
  gr_numbered : Numbered r → Numbered r';
}.

Lemma grows_sub r r' :
  (∀ k e, entries r' !! k = Some e → entries r !! k = Some e) → nextPool r' = nextPool r →
  defaults r' = defaults r → grows r r'.
Proof.
  intros He Hn Hd. split; [|lia|done|].
  - intros k e Hk. left. exists e. by auto using sim_refl.
  - intros [F D]. split; [intros k e Hk; rewrite Hn; by eapply F, He|]. intros k k' e e' Hk Hk'. by eapply D; apply He.
Qed.

Lemma grows_refl r : grows r r.
Proof. by apply grows_sub. Qed.

Lemma grows_trans r1 r2 r3 : grows r1 r2 → grows r2 r3 → grows r1 r3.
Proof.
  intros [N1 X1 D1 U1] [N2 X2 D2 U2]. split; [|lia|congruence|auto].
  intros k e [(e2 & He2 & Hs)|?]%N2; [|right; lia].
  destruct (N1 k e2 He2) as [(e1 & He1 & Hs1)|Hge].
  - left. exists e1. unfold sim in *. naive_solver congruence.
  - right. destruct Hs as (_ & _ & _ & _ & <- & _). done.
Qed.

Lemma grows_put t n u c pt r : grows r (putEntry t n u c pt r).
Proof.
  split; [|simpl; lia|done|].
  - intros k e. simpl. intros [[_ <-]|[_ He]]%lookup_insert_Some; [by right|].
    left. exists e. by auto using sim_refl.
  - intros [F D]. split; simpl.
    + intros k e [[_ <-]|[_ He]]%lookup_insert_Some; [simpl; lia|]. apply F in He. lia.
    + intros k k' e e' [[<- <-]|[_ He]]%lookup_insert_Some [[<- <-]|[_ He']]%lookup_insert_Some; simpl; try done.
      * apply F in He'. lia.
      * apply F in He. lia.
      * by eapply D.
Qed.

Lemma grows_stamp t k e r : grows r (stamp t k e r).
Proof.
  unfold stamp. destruct (entries r !! k) as [e1|] eqn:He1; [|apply grows_refl].
  destruct (pool e1 =? pool e); [|apply grows_refl].
  split; [|done|done|].
  - intros k' e'. simpl. intros [[<- <-]|[_ He]]%lookup_insert_Some; left; [by exists e1|by exists e'].
  - intros [F D]. split; simpl.
    + intros k' e' [[<- <-]|[_ He]]%lookup_insert_Some; [by apply (F k e1)|by eapply F].
    + intros k1 k2 e2 e3 [[<- <-]|[_ He]]%lookup_insert_Some [[<- <-]|[_ He']]%lookup_insert_Some; simpl; try done;
        by eapply D.
Qed.

Lemma grows_finish t l r : grows r (resolveFinish t l r).1.
Proof.
  destruct l as [|k e|n u c]; simpl; [apply grows_refl| |].
  - destruct (passthrough e); [apply grows_stamp|apply grows_refl].
  - unfold createPassthroughEntry. repeat case_match; simpl; apply grows_refl || apply grows_put.
Qed.

Lemma grows_remember u r : grows r (remember u r).
Proof. unfold remember. destruct (keys r); by apply grows_sub. Qed.

Section ranging.
Context `{MapRange}.

Lemma grows_foldl {A} (f : PoolRegistry → A → PoolRegistry) l r :
  (∀ r a, grows r (f r a)) → grows r (foldl f r l).
Proof.
  intros Hf. apply (foldl_inv f (grows r)); [|apply grows_refl].
  intros r' a Hr. by eapply grows_trans.
Qed.

Lemma grows_add t n c r : grows r (addEntries t n c r).
Proof.
  rewrite addEntries_puts. unfold puts. eapply grows_trans; [|apply grows_foldl].
  - by apply grows_sub.
  - intros r' [u c']. apply grows_put.
Qed.

Lemma grows_without n r : grows r (without n r).
Proof.
  apply grows_sub.
  - by intros k e [? _]%without_entries.
  - unfold without, takeEntries. simpl. by case_bool_decide.
  - unfold without, takeEntries. simpl. by case_bool_decide.
Qed.

Lemma grows_replace t n c r : grows r (addEntries t n c (without n r)).
Proof. eapply grows_trans; [apply grows_without|apply grows_add]. Qed.

Lemma grows_Add t n c r r' : Add t n c r = Ok r' → grows r r'.
Proof. unfold Add. repeat case_match; try done. intros [= <-]. apply grows_add. Qed.

Lemma grows_Reconfigure t n c r r' old ch : Reconfigure t n c r = Ok (r', old, ch) → grows r r'.
Proof.
  intros (_ & b & _ & [(_ & -> & _)|(_ & -> & _)])%Reconfigure_eq; [apply grows_refl|apply grows_replace].
Qed.

Lemma grows_Remove n r r' old : Remove n r = Ok (r', old) → grows r r'.
Proof.
  unfold Remove. rewrite (surjective_pairing (takeEntries n r)).
  case_bool_decide; [done|]. intros [= <- _]. apply (grows_without n r).
Qed.

Lemma grows_Resize t n l r r' old : Resize t n l r = Ok (r', old) → grows r r'.
Proof.
  unfold Resize. case_match; [done|]. destruct (entries r !! poolKey n "") as [b|]; [|done].
  rewrite (surjective_pairing (takeEntries n r)). intros [= <- _]. apply (grows_replace t n).
Qed.

Lemma grows_evict t idleFor active inUse r : grows r (EvictIdlePassthrough t idleFor active inUse r).1.1.
Proof.
  unfold EvictIdlePassthrough. destruct (idleFor <=? 0)%Z; [apply grows_refl|].
  apply grows_sub; [|done|done]. by intros k e [? _]%map_lookup_filter_Some.
Qed.

Lemma grows_reload t pools r pc r' pc' : reloadStep t pools r pc = Some (r', pc') → grows r r'.
Proof.
  destruct pc as [|cur [|n todo] x|[|n todo] x|x]; cbn [reloadStep]; intros E;
    try (by injection E as <- <-; apply grows_refl); [| |done].
  - unfold applyOne in E. destruct (pools !! n) as [c|]; [|simplify_eq; apply grows_refl]. case_bool_decide.
    + destruct (Reconfigure t n c r) as [[[r2 old] []]|] eqn:E2; simplify_eq; [..|apply grows_refl];
        by eapply grows_Reconfigure.
    + destruct (Add t n c r) as [r2|] eqn:E2; simplify_eq; [by eapply grows_Add|apply grows_refl].
  - unfold removeOne in E. destruct (pools !! n); [simplify_eq; apply grows_refl|].
    destruct (Remove n r) as [[r2 old]|] eqn:E2; simplify_eq; [by eapply grows_Remove|apply grows_refl].
Qed.

Lemma grows_rstep a s s' : rstep a s s' → grows s.1 s'.1.
Proof.
  destruct 1; simpl.
  - apply grows_refl.
  - apply grows_finish.
  - by eapply grows_Add.
  - by eapply grows_Remove.
  - by eapply grows_Resize.
  - by eapply grows_reload.
  - apply grows_evict.
  - apply grows_remember.
Qed.

End ranging.

(** ** The pools that are built *)

Definition backed (P : poolTable) (r : PoolRegistry) : Prop :=
  ∀ k e, entries r !! k = Some e → ∃ p, P !! pool e = Some (spec e, p).

Definition numbered (P : poolTable) (r : PoolRegistry) : Prop := ∀ n, is_Some (P !! n) → n < nextPool r.

Record built (m : gmap string registryEntry) (P Q : poolTable) : Prop := mkBuilt {
  bu_keep n x : P !! n = Some x → Q !! n = Some x;
  bu_new n x : Q !! n = Some x → P !! n = Some x ∨
    (P !! n = None ∧ x.2 = Proxy.init ∧ ∃ k e, m !! k = Some e ∧ pool e = n ∧ x.1 = spec e);
  bu_all k e : m !! k = Some e → is_Some (Q !! pool e);
}.

Lemma build_built r P : built (entries r) P (build r P).
Proof.
  unfold build. apply (map_fold_weak_ind (λ Q m, built m P Q)).
  { split; [done|by left|]. intros k e. by rewrite lookup_empty. }
  intros k e m Q Hk [K N A].
  assert (N' : ∀ n x, Q !! n = Some x → P !! n = Some x ∨ (P !! n = None ∧ x.2 = Proxy.init ∧
    ∃ k' e', <[k:=e]> m !! k' = Some e' ∧ pool e' = n ∧ x.1 = spec e')).
  { intros n x [?|(? & ? & k' & e' & ? & ?)]%N; [by left|]. right. do 2 (split; [done|]). exists k', e'.
    by rewrite lookup_insert_ne by congruence. }
  destruct (Q !! pool e) as [x0|] eqn:E.
  - split; [done|done|]. intros k' e' [[<- <-]|[_ ?]]%lookup_insert_Some; [done|by eapply A].
  - split.
    + intros n x Hn%K. by rewrite lookup_insert_ne by congruence.
    + intros n x [[<- <-]|[_ ?]]%lookup_insert_Some; [|by apply N'].
      destruct (P !! pool e) as [y|] eqn:Ep; [apply K in Ep; congruence|].
      right. do 2 (split; [done|]). exists k, e. by rewrite lookup_insert_eq.
    + intros k' e' [[<- <-]|[_ ?]]%lookup_insert_Some; [by rewrite lookup_insert_eq|].
      destruct (decide (pool e' = pool e)) as [->|?]; [by rewrite lookup_insert_eq|].
      rewrite lookup_insert_ne by done. by eapply A.
Qed.

(** Building after a change of the registry. *)
Lemma build_backed P r r' :
  backed P r → numbered P r → grows r r' → Numbered r' → backed (build r' P) r' ∧ numbered (build r' P) r'.
Proof.
  intros Hb Hn [N X D _] [HF HD]. destruct (build_built r' P) as [K B A]. split.
  - intros k e He. destruct (A k e He) as [[sp p] Hx]. exists p. rewrite Hx. do 2 f_equal.
    destruct (B _ _ Hx) as [Ho|(_ & _ & k' & e' & He' & Hp & Hsp)].
    + destruct (N k e He) as [(e0 & He0 & _ & _ & _ & _ & Hp & Hs & _)|Hge].
      * destruct (Hb _ _ He0) as [p0 Hp0]. rewrite Hp, Ho in Hp0. congruence.
      * assert (pool e < nextPool r) by (by apply Hn; eauto). lia.
    + assert (k' = k) as -> by (by eapply HD). simpl in Hsp. congruence.
  - intros n [x Hx]. destruct (B _ _ Hx) as [Ho|(_ & _ & k & e & He & <- & _)].
    + assert (n < nextPool r) by (apply Hn; eauto). lia.
    + by eapply HF.
Qed.

(** ** Who may use a pool *)

(** At some time the client's database led to a pool name, and at some time this
    is how that pool's configuration had the client reach the backend: with the
    user's own DSN, as the user with the key of its login, or with the shared
    DSN; the pool is the user's own or the shared one. *)
Definition entitled (R : list PoolRegistry) (user database : string) (sp : poolSpec) : Prop :=
  ∃ r0 r1 name base, r0 ∈ R ∧ r1 ∈ R ∧ byDatabase r0 !! database = Some name ∧
    entries r1 !! name = Some base ∧ identity_dialer r1 (config base) user (spec_dial sp) ∧
    has_separator name = false ∧ (spec_name sp = name ∨ spec_name sp = poolKey name user).

Lemma entitled_later R R' user database sp : R ⊆ R' → entitled R user database sp → entitled R' user database sp.
Proof. intros HR (r0 & r1 & name & base & ? & ? & ?). exists r0, r1, name, base. by auto. Qed.

(** What a handler holds between its two accesses. *)
Definition looked (R : list PoolRegistry) (P : poolTable) (user database : string) (l : lookup_result) : Prop :=
  (∃ r0, r0 ∈ R ∧ l = resolveRead r0 database user) ∧
  match l with Exists _ e => ∃ p, P !! pool e = Some (spec e, p) | _ => True end.

Lemma read_looked R P r user database :
  r ∈ R → backed P r → looked R P user database (resolveRead r database user).
Proof.
  intros Hr Hb. split; [eauto|]. unfold resolveRead. repeat (case_match; try done). simplify_eq. by eapply Hb.
Qed.

Lemma spec_name_entry r k e : WFE r → entries r !! k = Some e → spec_name (spec e) = k.
Proof. intros HE He. destruct (wf_spec r HE _ _ He) as [-> _]. unfold newPool. by destruct (defaults r). Qed.

Lemma identity_cases r c user u pt :
  backendIdentityFor r c user = (u, pt) → u = "" ∨ u = user.
Proof. unfold backendIdentityFor. repeat case_match; intros; simplify_eq; auto. Qed.

Lemma exists_entitled R r0 user database k e :
  r0 ∈ R → WF r0 → resolveRead r0 database user = Exists k e → entitled R user database (spec e).
Proof.
  intros Hr [HE HG]. unfold resolveRead. destruct (byDatabase r0 !! database) as [n|] eqn:Hd; [|done].
  destruct (wf_routes r0 HG _ _ Hd) as [_ Hs]. rewrite poolKey_nil.
  destruct (entries r0 !! n) as [b|] eqn:Hb; [|done].
  destruct (backendIdentityFor r0 (config b) user) as [u pt] eqn:Hi.
  destruct (entries r0 !! poolKey n u) as [e0|] eqn:He; [|by destruct pt]. intros [= <- <-].
  exists r0, r0, n, b. do 4 (split; [done|]). split; [by eapply entry_identity|]. split; [done|].
  rewrite (spec_name_entry _ _ _ HE He). destruct (identity_cases _ _ _ _ _ Hi) as [-> | ->]; auto.
Qed.

(** A client that needs an entry of its own passes its key through. *)
Lemma needs_read r0 database user n u c :
  WF r0 → resolveRead r0 database user = NeedsEntry n u c →
  u = user ∧ user ≠ "" ∧ byDatabase r0 !! database = Some n ∧ has_separator n = false ∧
  ∃ b, entries r0 !! n = Some b ∧ c = config b ∧
    ∀ dsn, identity_dialer r0 (config b) user (PassthroughDialer dsn user (requireTLS (defaults r0))).
Proof.
  intros [HE HG]. unfold resolveRead. destruct (byDatabase r0 !! database) as [m|] eqn:Hd; [|done].
  destruct (wf_routes r0 HG _ _ Hd) as [_ Hs]. rewrite poolKey_nil.
  destruct (entries r0 !! m) as [b|] eqn:Hb; [|done].
  destruct (backendIdentityFor r0 (config b) user) as [v pt] eqn:Hi.
  destruct (entries r0 !! poolKey m v); [done|]. destruct pt; [|done]. intros [= <- <- <-].
  assert (user ≠ "" ∧ users (config b) !! user = None ∧ ScramPassthrough (config b) && has_key r0 user = true)
    as (Hne & Hu & Hk).
  { unfold backendIdentityFor in Hi. repeat case_match; to_prop; by simplify_eq. }
  do 4 (split; [done|]). exists b. do 2 (split; [done|]). intros dsn. unfold identity_dialer.
  rewrite Hu, bool_decide_false by done. simpl. rewrite Hk. by exists dsn.
Qed.

(** An entry of a client's own that is there already was made for it, by the
    configuration or by another login of the same user. *)
Lemma own_entry_dial r n user e :
  WF r → has_separator n = false → user ≠ "" → entries r !! poolKey n user = Some e →
  (∃ dsn, spec_dial (spec e) = PassthroughDialer dsn user (requireTLS (defaults r))) ∨
  (∃ b, entries r !! n = Some b ∧ identity_dialer r (config b) user (spec_dial (spec e))).
Proof.
  intros [HE HG] Hs Hne He. destruct (wf_key r HE _ _ He) as [Hk Hse].
  apply poolKey_inj in Hk as [Hn Hu]; [|done..]. rewrite (entry_dial r _ e) by done.
  destruct (passthrough e) eqn:Hp; [left; eexists; by rewrite Hu|]. right.
  destruct (wf_base r HG _ _ He) as [b Hb]. exists b. split; [by rewrite Hn|].
  destruct (wf_user r HG _ e b He Hp Hb) as [?|(dsn & Hd & ->)]; [congruence|].
  unfold identity_dialer. by rewrite Hu, Hd.
Qed.

(** The pool a handler gets has been built. *)
Lemma finish_built R P user database l r t r' key e :
  looked R P user database l → Numbered r → backed P r → numbered P r →
  resolveFinish t l r = (r', Some (key, e)) → ∃ p, build r' P !! pool e = Some (spec e, p).
Proof.
  intros [_ Hx] HN Hb Hn Hf.
  assert (G : grows r r') by (pose proof (grows_finish t l r) as K; by rewrite Hf in K).
  destruct (build_backed P r r' Hb Hn G (gr_numbered _ _ G HN)) as [B' _].
  destruct l as [|k0 e0|n u c]; simpl in Hf; [done| |].
  { injection Hf as _ <- <-. destruct Hx as [p Hp]. exists p. by apply build_built. }
  unfold createPassthroughEntry in Hf. destruct (entries r !! poolKey n u) as [e0|] eqn:He.
  - injection Hf as <- <- <-. by eapply B'.
  - destruct (entries r !! poolKey n "") as [b'|]; [|done]. injection Hf as <- <- <-.
    eapply B'. simpl. apply lookup_insert_eq.
Qed.

(** And it is one the client may use. *)
Lemma finish_entitled R P user database l r t r' key e :
  looked R P user database l → r ∈ R → Forall (λ x, WF x ∧ defaults x = defaults r) R →
  resolveFinish t l r = (r', Some (key, e)) → entitled R user database (spec e).
Proof.
  intros [(r0 & Hr0 & Hl) Hx] Hr HR Hf. rewrite Forall_forall in HR.
  destruct (HR r0 Hr0) as [W0 D0], (HR r Hr) as [W _].
  destruct l as [|k0 e0|n u c]; simpl in Hf; [done| |].
  { injection Hf as _ <- <-. eapply exists_entitled; [exact Hr0|done|by rewrite <- Hl]. }
  destruct (needs_read _ _ _ _ _ _ W0 (eq_sym Hl)) as (-> & Hne & Hd & Hs & b & Hbase & -> & Hid).
  unfold createPassthroughEntry in Hf. destruct (entries r !! poolKey n user) as [e0|] eqn:He.
  - injection Hf as <- <- <-. pose proof (spec_name_entry _ _ _ (proj1 W) He) as Hname.
    destruct (own_entry_dial r n user e0 W Hs Hne He) as [[dsn Hdial]|(b' & Hb' & Hdial)].
    + exists r0, r0, n, b. rewrite Hdial, <- D0. by auto 10.
    + exists r0, r, n, b'. by auto 10.
  - destruct (entries r !! poolKey n "") as [b'|]; [|done]. injection Hf as <- <- <-.
    exists r0, r0, n, b. simpl. rewrite spec_dial_newPool. simpl. rewrite <- D0.
    do 6 (split; [by auto|]). right. unfold newPool. by destruct (defaults r0).
Qed.

End GatewayRouting.
