(* ===== verification/GatewayTheorems.v ===== *)
(** * The gateway end to end

    The guarantees of the parts composed: in every interleaving of logins,
    relays, pool decisions and registry changes, the session a connection serves
    is alone on it; and as long as every resize was addressed to a pool, whatever
    any server is sent was sent for a client that is entitled to that server's
    identity. *)

From S2P Require Import Prelude GoStrings Config Registry RegistryLemmas RegistryOps RegistryTheorems.
From S2P Require Import Prepared Relay PoolSpec Proxy ProxySession ProxyTheorems Session SessionTheorems.
From S2P Require Import Startup Server ServerTheorems Gateway GatewayRouting.
Import Session SessionTheorems Startup Server Gateway GatewayRouting.
Open Scope string_scope.
Open Scope list_scope.
Open Scope nat_scope.

Module GatewayTheorems.

(** ** What a step of a handler does *)

(** To the heap of sessions: a session keeps who it is for. *)
Inductive world_step (h : stage) (w : world) : world → Prop :=
| w_keep w' : heap w' = heap w → nextSessionID w' = nextSessionID w → world_step h w w'
| w_modify l f : (∀ s, id (f s) = id s ∧ user (f s) = user s ∧ database (f s) = database s) →
    world_step h w (modify l f w)
| w_insert now p key m t : h = HRegister m t →
    world_step h w (insertSession now p key (parameter "user" m) (parameter "database" m) w).2.

Lemma hstep_world ho remote s h i s' h' out :
  hstep ho remote s h i = Some (s', h', out) → world_step h (sessions s) (sessions s').
Proof.
  intros H. destruct h, i; simpl in H; try done; repeat (case_match; simplify_eq/=; try done);
    simplify_eq/=; try (by apply w_keep); try (by apply w_modify); by eapply w_insert.
Qed.

(** To the registry. *)
Definition waiting_ok (h : stage) : Prop := match h with HResolve _ l => RegistryOps.pending_ok l | _ => True end.

Lemma hstep_registry ho remote s h i s' h' out :
  hstep ho remote s h i = Some (s', h', out) →
  grows (registry s) (registry s') ∧ (waiting_ok h → RegistryLemmas.WF (registry s) → RegistryLemmas.WF (registry s')).
Proof.
  intros H.
  assert (Same : registry s' = registry s → grows (registry s) (registry s') ∧
    (waiting_ok h → RegistryLemmas.WF (registry s) → RegistryLemmas.WF (registry s'))).
  { intros ->. split; [apply grows_refl|done]. }
  destruct h as [|m|m|m|m|m l|m d|m t|m t p l|m t p l|m t p l|m|], i; simpl in H; try done.
  all: try (repeat (case_match; simplify_eq/=; try done); simplify_eq/=; by apply Same).
  - destruct ok; simplify_eq; [|by apply Same]. simpl. destruct captured; [|by split; [apply grows_refl|]].
    split; [apply grows_remember|]. intros _ Hw. unfold Registry.remember.
    destruct (Registry.keys _); [by apply RegistryOps.keys_WF|done].
  - pose proof (RegistryOps.finish_WF now l (registry s)) as HW.
    pose proof (grows_finish now l (registry s)) as HG. destruct (Registry.resolveFinish now l (registry s)) as [r res].
    destruct (decisionOf res); simplify_eq/=; auto.
Qed.

(** ** The invariant *)

Section gateway.
Context (ho : handlerOpts) (ro : Relay.runtimeOpts) (vouched : startupMsg → Prop).
Context (Hreset : Relay.serverResetQuery ro ≠ "").

(** A pool's sessions are isolated, and each is a session of the table; as long as
    [N], that is every resize was addressed to a pool, it is entitled to the pool. *)
Record pool_ok (N : Prop) (w : world) (R : list Registry.PoolRegistry) (sp : Registry.poolSpec) (p : Proxy.proxy) : Prop := mkPoolOk {
  po_inv : ProxyTheorems.Inv (limitOf sp) 0 p;
  po_authors : ProxyTheorems.authored (Proxy.known p) (Proxy.conns p);
  po_known i : i ∈ Proxy.known p → ∃ l s, heap w !! l = Some s ∧ i = id s ∧ (N → entitled R (user s) (database s) sp);
}.

Record facts (N : Prop) (r : Registry.PoolRegistry) (w : world) (P : poolTable) (R : list Registry.PoolRegistry) : Prop := mkFacts {
  f_now : r ∈ R;
  f_past : Forall (λ x, Numbered x ∧ Registry.defaults x = Registry.defaults r ∧ (N → RegistryLemmas.WF x)) R;
  f_backed : backed P r;
  f_numbered : numbered P r;
  f_next : nextSessionID w = Z.of_nat (length (heap w));
  f_ids l s : heap w !! l = Some s → id s = (Z.of_nat l + 1)%Z;
  f_pools n sp p : P !! n = Some (sp, p) → pool_ok N w R sp p;
  f_apart n n' x x' i : P !! n = Some x → P !! n' = Some x' →
    i ∈ Proxy.known x.2 → i ∈ Proxy.known x'.2 → n = n';
}.

Lemma f_wf N r w P R : facts N r w P R → Numbered r ∧ (N → RegistryLemmas.WF r).
Proof.
  intros F. pose proof (f_past _ _ _ _ _ F) as H. rewrite Forall_forall in H.
  by destruct (H r (f_now _ _ _ _ _ F)) as (? & _ & ?).
Qed.

Lemma pool_ok_later (N N' : Prop) w R R' sp p : (N' → N) → R ⊆ R' → pool_ok N w R sp p → pool_ok N' w R' sp p.
Proof.
  intros HN HR [I A K]. split; [done|done|]. intros i (l & s & ? & ? & He)%K. exists l, s.
  split_and!; [done..|]. intros ?. eapply entitled_later; [done|]. auto.
Qed.

Lemma pool_ok_init N w R sp : pool_ok N w R sp Proxy.init.
Proof.
  split; [apply ProxyTheorems.isolation_init| |].
  - intros c x e. cbn [Proxy.conns Proxy.init]. by rewrite lookup_empty.
  - intros i. cbn [Proxy.known Proxy.init]. set_solver.
Qed.

(** The registry changes. *)
Lemma facts_registry (N N' : Prop) r w P R r' :
  facts N r w P R → grows r r' → (N' → N) → (N' → RegistryLemmas.WF r') → facts N' r' w (build r' P) (r' :: R).
Proof.
  intros F G HN W. destruct (f_wf _ _ _ _ _ F) as [Hnum _]. apply (gr_numbered _ _ G) in Hnum.
  destruct (build_backed P r r' (f_backed _ _ _ _ _ F) (f_numbered _ _ _ _ _ F) G Hnum) as [B Hb].
  destruct (build_built r' P) as [Hk Hn _]. split; [by left| |done|done|apply F|by eapply f_ids| |].
  - constructor; [done|]. eapply Forall_impl; [apply (f_past _ _ _ _ _ F)|]. intros x (? & ? & ?). split; [done|].
    rewrite (gr_defaults _ _ G). split; [done|auto].
  - intros n sp p [Ho|(_ & E & _)]%Hn; [|simpl in E; subst; apply pool_ok_init].
    eapply pool_ok_later; [exact HN| |by eapply (f_pools _ _ _ _ _ F)]. by right.
  - intros n n' x x' i [Ho|(_ & E & _)]%Hn [Ho'|(_ & E' & _)]%Hn; rewrite ?E, ?E'; cbn [Proxy.known Proxy.init];
      [by eapply (f_apart _ _ _ _ _ F)|set_solver..].
Qed.

(** The table of sessions changes. *)
Lemma facts_world N r w P R h w' :
  facts N r w P R → world_step h w w' → (Z.of_nat (length (heap w')) < two64)%Z → facts N r w' P R.
Proof.
  intros F Hw Hlen.
  assert (Keep : (∀ l s, heap w !! l = Some s → ∃ s', heap w' !! l = Some s' ∧ id s' = id s ∧ user s' = user s ∧ database s' = database s) ∧
    nextSessionID w' = Z.of_nat (length (heap w')) ∧ (∀ l s, heap w' !! l = Some s → id s = (Z.of_nat l + 1)%Z)).
  { destruct Hw as [w' Eh En|l f Hf|now p key m t _].
    - rewrite Eh, En. split_and!; [eauto|apply F|by eapply f_ids].
    - simpl. rewrite length_alter. split_and!; [|apply F|].
      + intros l' s Hs. destruct (decide (l' = l)) as [->|Hne].
        * exists (f s). rewrite list_lookup_alter_eq, Hs. destruct (Hf s) as (? & ? & ?). done.
        * exists s. by rewrite list_lookup_alter_ne.
      + intros l' s Hs. destruct (decide (l' = l)) as [->|Hne].
        * rewrite list_lookup_alter_eq in Hs. apply fmap_Some in Hs as (s0 & Hs0 & ->).
          rewrite (proj1 (Hf s0)). by eapply (f_ids _ _ _ _ _ F).
        * rewrite list_lookup_alter_ne in Hs by done. by eapply (f_ids _ _ _ _ _ F).
    - simpl in *. rewrite length_app in *. simpl in *.
      assert (E : nextID w = (Z.of_nat (length (heap w)) + 1)%Z).
      { unfold nextID. rewrite (f_next _ _ _ _ _ F). apply Z.mod_small. lia. }
      split_and!; [|lia|].
      + intros l s Hs. exists s. by rewrite (lookup_app_l_Some _ _ _ _ Hs).
      + intros l s [Hs|[Hge Hs]]%lookup_app_Some; [by eapply (f_ids _ _ _ _ _ F)|].
        apply list_lookup_singleton_Some in Hs as [Hz <-]. simpl. lia. }
  destruct Keep as (Hk & Hn & Hi). split; try apply F; [done|done|..].
  - intros n sp p Hp. destruct (f_pools _ _ _ _ _ F _ _ _ Hp) as [I A K]. split; [done|done|].
    intros i (l & s & Hs & -> & He)%K. destruct (Hk l s Hs) as (s' & ? & E1 & E2 & E3). exists l, s'.
    by rewrite E1, E2, E3.
Qed.

(** A session id no pool knows. *)
Definition unused (P : poolTable) (i : Z) : Prop := ∀ n x, P !! n = Some x → i ∉ Proxy.known x.2.

(** A handler starts its relay. *)
Lemma facts_enter (N : Prop) r w P R n sp p l s :
  facts N r w P R → P !! n = Some (sp, p) → heap w !! l = Some s → unused P (id s) →
  (N → entitled R (user s) (database s) sp) →
  facts N r w (alter (λ x, (x.1, connect (relaySession s) x.2)) n P) R.
Proof.
  intros F Hp Hs Hu He. pose proof (Hu n _ Hp) as Hnew. cbn [snd] in Hnew.
  destruct (f_pools _ _ _ _ _ F _ _ _ Hp) as [I A K].
  assert (Hpos : (0 < id s)%Z) by (rewrite (f_ids _ _ _ _ _ F _ _ Hs); lia).
  assert (Hlk : ∀ n' x, alter (λ x, (x.1, connect (relaySession s) x.2)) n P !! n' = Some x →
    (n' = n ∧ x = (sp, connect (relaySession s) p)) ∨ (n' ≠ n ∧ P !! n' = Some x)).
  { intros n' x. rewrite lookup_alter_Some. intros [(-> & y & Hy & ->)|[? ?]]; [|by right]. left. by simplify_eq. }
  split; try apply F.
  - intros k e Hk. destruct (f_backed _ _ _ _ _ F k e Hk) as [q Hq].
    destruct (decide (Registry.pool e = n)) as [<-|Hne]; [|exists q; by rewrite lookup_alter_ne].
    eexists. rewrite lookup_alter_eq, Hq. done.
  - intros n' [x [(-> & _)|(_ & Hx)]%Hlk]; apply (f_numbered _ _ _ _ _ F); eauto.
  - intros n' sp' p' [(-> & [= -> ->])|(_ & Hx)]%Hlk; [|by eapply (f_pools _ _ _ _ _ F)].
    pose proof (Proxy.p_connect ro (limitOf sp) p (relaySession s) Hpos Hnew eq_refl) as Hst. split.
    + by apply ProxyTheorems.Inv_connect.
    + by apply (ProxyTheorems.authored_step ro (limitOf sp) 0 None p).
    + intros i [->%elem_of_singleton|Hi]%elem_of_union; [by exists l, s|by apply K].
  - intros n1 n2 x1 x2 i [(-> & ->)|(Hn1 & H1)]%Hlk [(-> & ->)|(Hn2 & H2)]%Hlk; try done;
      cbn [snd connect Proxy.known Prepared.sid relaySession]; rewrite ?elem_of_union, ?elem_of_singleton.
    + intros [->|H1] Hi; [by destruct (Hu _ _ H2)|]. by eapply (f_apart _ _ _ _ _ F n n2 (sp, p) x2).
    + intros Hi [->|H2]; [by destruct (Hu _ _ H1)|]. by eapply (f_apart _ _ _ _ _ F n1 n x1 (sp, p)).
    + by eapply (f_apart _ _ _ _ _ F).
Qed.

(** A step inside a pool. *)
Lemma facts_pool N r w P R n sp p lab p' :
  facts N r w P R → P !! n = Some (sp, p) → Proxy.pstep ro (limitOf sp) lab p p' →
  Proxy.known p' = Proxy.known p → facts N r w (<[ n := (sp, p') ]> P) R.
Proof.
  intros F Hp Hst Hk. destruct (f_pools _ _ _ _ _ F _ _ _ Hp) as [I A K].
  assert (Hlk : ∀ n' x, <[ n := (sp, p') ]> P !! n' = Some x →
    ∃ y, P !! n' = Some y ∧ Proxy.known x.2 = Proxy.known y.2).
  { intros n' x [[<- <-]|[_ ?]]%lookup_insert_Some; [by exists (sp, p)|eauto]. }
  split; try apply F.
  - intros k e Hx. destruct (f_backed _ _ _ _ _ F k e Hx) as [q Hq].
    destruct (decide (n = Registry.pool e)) as [->|Hne]; [|exists q; by rewrite lookup_insert_ne].
    exists p'. rewrite lookup_insert_eq. congruence.
  - intros n' [x (y & Hy & _)%Hlk]. apply (f_numbered _ _ _ _ _ F). eauto.
  - intros n' sp' q [[<- [= <- <-]]|[_ Hx]]%lookup_insert_Some; [|by eapply (f_pools _ _ _ _ _ F)]. split.
    + eapply ProxyTheorems.isolation_step; [done|done|done| |done]. by eapply ProxyTheorems.polite_nobody.
    + by eapply ProxyTheorems.authored_step.
    + rewrite Hk. apply K.
  - intros n1 n2 x1 x2 i (y1 & H1 & ->)%Hlk (y2 & H2 & ->)%Hlk. by eapply (f_apart _ _ _ _ _ F).
Qed.

(** *** Handlers between routing and relaying *)

Definition bound (N : Prop) (R : list Registry.PoolRegistry) (P : poolTable) (m : startupMsg) (d : Registry.RouteDecision) : Prop :=
  ∃ sp p, P !! Registry.Pool d = Some (sp, p) ∧ (N → entitled R (parameter "user" m) (parameter "database" m) sp).

Definition routed (N : Prop) (R : list Registry.PoolRegistry) (P : poolTable) (h : stage) : Prop :=
  match h with
  | HResolve m l => looked R P (parameter "user" m) (parameter "database" m) l
  | HCaps m d | HRegister m (Serve d) => bound N R P m d
  | HHello m (Serve d) _ l => bound N R P m d ∧ unused P (Z.of_nat l + 1)
  | _ => True
  end.

(** The pools only get more, and keep what they were built for. *)
Definition extends (P P' : poolTable) : Prop := ∀ n sp p, P !! n = Some (sp, p) → ∃ p', P' !! n = Some (sp, p').

Lemma routed_later (N N' : Prop) R R' P P' h :
  (N' → N) → R ⊆ R' → extends P P' →
  (∀ p l, ServerTheorems.place_stage h = Some (p, l) → unused P (Z.of_nat l + 1) → unused P' (Z.of_nat l + 1)) →
  routed N R P h → routed N' R' P' h.
Proof.
  intros HN HR HP Hl.
  assert (Hb : ∀ m d, bound N R P m d → bound N' R' P' m d).
  { intros m d (sp & p & (p' & Hp')%HP & He). exists sp, p'. split; [done|]. intros ?. eapply entitled_later; [done|]. auto. }
  destruct h as [|m|m|m|m|m k|m d|m [|d]|m [|d] p l|m t p l|m t p l|m|]; simpl; try done; auto.
  - intros [(r0 & ? & ?) Hk]. split; [eauto|]. destruct k as [|key e|]; try done. destruct Hk as [p Hk]. by eapply HP.
  - intros [? ?]. split; [by auto|]. by eapply Hl.
Qed.

Lemma extends_build r P : extends P (build r P).
Proof. intros n sp p Hp. exists p. by apply build_built. Qed.

Lemma unused_build r P i : unused P i → unused (build r P) i.
Proof.
  intros Hu n x [Hx|(_ & -> & _)]%(bu_new _ _ _ (build_built r P)); [by eapply Hu|].
  cbn [Proxy.known Proxy.init]. set_solver.
Qed.

Lemma routed_waiting (N : Prop) r w P R h : facts N r w P R → N → routed N R P h → waiting_ok h.
Proof.
  intros F HN. destruct h; try done. intros [(r0 & Hr & ->) _]. simpl. apply RegistryOps.read_ok.
  pose proof (f_past _ _ _ _ _ F) as H. rewrite Forall_forall in H. by apply (H r0 Hr).
Qed.

Lemma decision_pool res d : decisionOf res = Some d → ∃ key e, res = Some (key, e) ∧ Registry.Pool d = Registry.pool e.
Proof. destruct res as [[key e]|]; [|done]. intros [= <-]. by exists key, e. Qed.

(** A handler's own step. *)
Lemma hstep_routed N remote s h i s' h' out P R :
  facts N (registry s) (sessions s) P R → routed N R P h → hstep ho remote s h i = Some (s', h', out) →
  routed N (registry s' :: R) (build (registry s') P) h'.
Proof.
  intros F Hr H.
  assert (Later : routed N R P h' → routed N (registry s' :: R) (build (registry s') P) h').
  { apply routed_later; [done|by right|apply extends_build|]. intros p l _. apply unused_build. }
  destruct h as [|m|m|m|m|m l|m d|m t|m t p l|m t p l|m t p l|m|], i; simpl in H; try done.
  all: try (repeat (case_match; simplify_eq/=; try done); simplify_eq/=; by apply Later).
  - (* the read half of Resolve *)
    destruct (isConsole ho m); simplify_eq/=; [done|]. apply Later. simpl.
    by apply read_looked; [apply F|apply F].
  - (* the write half *)
    destruct (Registry.resolveFinish now l (registry s)) as [r res] eqn:E.
    destruct (decisionOf res) as [d|] eqn:Ed; simplify_eq/=; [|done].
    destruct (decision_pool _ _ Ed) as (key & e & -> & Hd).
    destruct (finish_built R P _ _ l (registry s) now r key e Hr (proj1 (f_wf _ _ _ _ _ F))
      (f_backed _ _ _ _ _ F) (f_numbered _ _ _ _ _ F) E) as [p Hp].
    exists (Registry.spec e), p. rewrite Hd. split; [done|]. intros HN. eapply entitled_later; [by right|].
    eapply finish_entitled; [exact Hr|apply F| |exact E].
    eapply Forall_impl; [apply (f_past _ _ _ _ _ F)|]. intros x (_ & ? & ?). split; [auto|done].
  - (* the identity of the session *)
    destruct ((p =? 0)%Z || _); simplify_eq/=; [by apply Later|]. apply Later. destruct t as [|d]; [done|].
    simpl. split; [done|]. intros n [sp q] Hn Hi.
    destruct (po_known _ _ _ _ _ (f_pools _ _ _ _ _ F _ _ _ Hn) _ Hi) as (l & x & Hl & E & _).
    rewrite (f_ids _ _ _ _ _ F _ _ Hl) in E. apply lookup_lt_Some in Hl. lia.
Qed.

(** *** Logins *)

Definition known_login (A : list startupMsg) (s : session) : Prop :=
  ∃ m, m ∈ A ∧ user s = parameter "user" m ∧ database s = parameter "database" m.

(** A handler that is past authentication. *)
Definition past_auth (A : list startupMsg) (h : stage) : Prop :=
  match h with
  | HRate m | HRoute m | HResolve m _ | HCaps m _ | HRegister m _ => m ∈ A
  | _ => True
  end.

Lemma past_auth_later A A' h : A ⊆ A' → past_auth A h → past_auth A' h.
Proof. intros HA. destruct h; simpl; auto. Qed.

Lemma known_login_later A A' s : A ⊆ A' → known_login A s → known_login A' s.
Proof. intros HA (m & ? & ?). exists m. by auto. Qed.

Lemma passed_later t t' A : A ⊆ passed t t' A.
Proof.
  destruct t as [|rm [h| | |]|]; try done. destruct t' as [|rm' [h'| | |]|]; try (by destruct h).
  destruct h; try done. destruct h'; try done. intros x Hx. by right.
Qed.

Lemma passed_vouched t t' A m :
  (∀ m, m ∈ A → vouched m) → admits vouched t t' → m ∈ passed t t' A → vouched m.
Proof.
  intros HA. destruct t as [|rm [h| | |]|]; try (by intros _; apply HA).
  destruct t' as [|rm' [h'| | |]|]; try (by destruct h; intros _; apply HA).
  destruct h; try (by intros _; apply HA). destruct h'; try (by intros _; apply HA).
  simpl. intros Hv [->|Hm]%elem_of_cons; [done|by apply HA].
Qed.

(** A handler's own step. *)
Lemma hstep_logins remote s h i s' h' out A :
  past_auth A h → (∀ l x, heap (sessions s) !! l = Some x → known_login A x) →
  hstep ho remote s h i = Some (s', h', out) →
  let A' := passed (TConn remote (CRun h)) (TConn remote (CRun h')) A in
  past_auth A' h' ∧ ∀ l x, heap (sessions s') !! l = Some x → known_login A' x.
Proof.
  intros Hp Hl H A'. assert (HA : A ⊆ A') by apply passed_later. split.
  - subst A'. destruct h as [|m|m|m|m|m l|m d|m t|m t p l|m t p l|m t p l|m|], i; simpl in H; try done;
      repeat (case_match; simplify_eq/=; try done); simplify_eq/=; done || by left.
  - intros l x Hx. apply (known_login_later A); [done|].
    destruct (hstep_world _ _ _ _ _ _ _ _ H) as [w' E _|l' f Hf|now p key m t ->].
    + rewrite E in Hx. by eapply Hl.
    + simpl in Hx. destruct (decide (l = l')) as [->|Hne]; [|rewrite list_lookup_alter_ne in Hx by done; by eapply Hl].
      rewrite list_lookup_alter_eq in Hx. apply fmap_Some in Hx as (y & Hy & ->).
      destruct (Hf y) as (_ & Eu & Ed), (Hl _ _ Hy) as (m & Hm & ?). exists m. by rewrite Eu, Ed.
    + simpl in Hx. apply lookup_app_Some in Hx as [Hx|[_ Hx]]; [by eapply Hl|].
      apply list_lookup_singleton_Some in Hx as [_ <-]. by exists m.
Qed.

(** *** The whole state *)

(** Every resize was addressed to a pool. *)
Definition named (O : list RegistryOps.op) : Prop := Forall RegistryOps.by_name O.

Record good (g : gateway) : Prop := mkGood {
  g_facts : facts (named (requests g)) (reg (srv g)) (table (srv g)) (pools g) (past g);
  g_routed remote h : TConn remote (CRun h) ∈ threads (srv g) → routed (named (requests g)) (past g) (pools g) h;
  g_logins l s : heap (table (srv g)) !! l = Some s → known_login (logins g) s;
  g_vouched m : m ∈ logins g → vouched m;
  g_passed remote h : TConn remote (CRun h) ∈ threads (srv g) → past_auth (logins g) h;
}.

(** A step of the process is one of a handler, or leaves the shared state alone. *)
Lemma tstep_kinds p t p' t' new :
  tstep ho p t p' t' new →
  (shr p' = shr p ∧ (∀ remote h, t' ≠ TConn remote (CRun h)) ∧ (∀ w P, enter t t' w P = P) ∧ (∀ A, passed t t' A = A)) ∧
    (∀ remote h, new = Some (TConn remote (CRun h)) → h = HReceive) ∨
  (∃ remote h i s h' out, t = TConn remote (CRun h) ∧ t' = TConn remote (CRun h') ∧ new = None ∧ p' = with_shr s p ∧
    hstep ho remote (shr p) h i = Some (s, h', out)).
Proof.
  destruct 1; try (left; split_and!; [done|done|done|done|by intros ? ? [= <-]]);
    try (left; split_and!; done).
  right. by exists remote, h, i, s, h', out0.
Qed.

Lemma enter_cases remote s h i s' h' out w P :
  hstep ho remote s h i = Some (s', h', out) →
  enter (TConn remote (CRun h)) (TConn remote (CRun h')) w P = P ∨
  ∃ m d p l, h = HHello m (Serve d) p l ∧ h' = HServe m (Serve d) p l.
Proof.
  intros H. destruct h as [|m|m|m|m|m l|m d|m t|m t p l|m t p l|m t p l|m|]; try (by left).
  destruct i; try done. simpl in H. destruct ok, t as [|d]; simplify_eq/=; eauto 10.
Qed.

(** No other handler has the session that [t] has. *)
Lemma other_place w ts1 t ts2 u p l q k :
  owned ServerTheorems.place w (ts1 ++ t :: ts2) → u ∈ ts1 ++ ts2 →
  ServerTheorems.place t = Some (p, l) → ServerTheorems.place u = Some (q, k) → k ≠ l.
Proof.
  intros Ho Hu Ht Hp ->. pose proof (o_locs _ _ _ Ho l) as K. rewrite total_mid in K.
  assert (E : ∀ v x, ServerTheorems.place v = Some (x, l) → occ l (locs ServerTheorems.place v) = 1).
  { intros v x Hv. unfold locs. rewrite Hv. by rewrite occ_cons_eq. }
  rewrite (E t p Ht) in K. apply elem_of_app in Hu as [Hu|Hu];
    apply (total_elem (λ v, occ l (locs ServerTheorems.place v))) in Hu; rewrite (E u q Hp) in Hu; lia.
Qed.

Section process.
Context (a b : Z) (mx : option nat).

(** What starting a relay does to the pools. *)
Lemma enter_facts N remote s h i s' h' out r P R :
  facts N r (sessions s') P R → routed N R P h → ServerTheorems.stage_ok ho (sessions s') h' →
  hstep ho remote s h i = Some (s', h', out) →
  let P' := enter (TConn remote (CRun h)) (TConn remote (CRun h')) (sessions s') P in
  facts N r (sessions s') P' R ∧ extends P P' ∧
  ∀ k, (∀ p l, ServerTheorems.place_stage h' = Some (p, l) → k ≠ l) →
    unused P (Z.of_nat k + 1) → unused P' (Z.of_nat k + 1).
Proof.
  intros F Hr Hok H P'. subst P'.
  destruct (enter_cases _ _ _ _ _ _ _ (sessions s') P H) as [->|(m & d & p & l & -> & ->)].
  { split_and!; [done| |auto]. intros n sp q Hq. eauto. }
  destruct Hr as [(sp & q & Hq & He) Hu]. destruct Hok as [_ (x & Hx & Hxu & Hxd & _)].
  cbn [enter]. rewrite Hx. unfold deref in Hx. pose proof (f_ids _ _ _ _ _ F _ _ Hx) as Hid. split_and!.
  - eapply facts_enter; [done|exact Hq|exact Hx|by rewrite Hid|by rewrite Hxu, Hxd].
  - intros n sp' p' Hn. destruct (decide (n = Registry.Pool d)) as [->|Hne]; [|exists p'; by rewrite lookup_alter_ne].
    eexists. by rewrite lookup_alter_eq, Hn.
  - intros k Hk Huk n y. rewrite lookup_alter_Some. intros [(_ & z & Hz & ->)|[_ Hy]]; [|by eapply Huk].
    cbn [snd connect Proxy.known Prepared.sid relaySession]. rewrite elem_of_union, elem_of_singleton.
    intros [E|E]; [|by eapply Huk]. specialize (Hk p l eq_refl). lia.
Qed.

Lemma good_thread p ts1 t ts2 p' t' new P R A O :
  good (mkGateway (mkSys p (ts1 ++ t :: ts2)) P R A O) →
  ServerTheorems.inv ho a b mx (mkSys p (ts1 ++ t :: ts2)) →
  ServerTheorems.inv ho a b mx (mkSys p' (option_list new ++ ts1 ++ t' :: ts2)) →
  tstep ho p t p' t' new → admits vouched t t' → (Z.of_nat (length (heap (sessions (shr p')))) < two64)%Z →
  good (observe (mkSys p' (option_list new ++ ts1 ++ t' :: ts2)) (enter t t' (sessions (shr p')) P) R (passed t t' A) O).
Proof.
  intros [F Hro Hlg Hvo Hpa] I I' Hst Had Hlen. unfold reg, table in *. cbn [srv pools past logins requests proc threads] in *.
  assert (Hin : ∀ u, u ∈ ts1 ++ ts2 → u ∈ ts1 ++ t :: ts2) by (intros u; rewrite !elem_of_app, elem_of_cons; tauto).
  assert (Hcase : ∀ u, u ∈ option_list new ++ ts1 ++ t' :: ts2 → new = Some u ∨ u = t' ∨ u ∈ ts1 ++ ts2).
  { intros u. rewrite !elem_of_app, elem_of_cons. destruct new as [v|]; simpl; rewrite ?list_elem_of_singleton; [naive_solver|].
    rewrite elem_of_nil. tauto. }
  destruct (tstep_kinds _ _ _ _ _ Hst) as [((Es & Hnt & -> & ->) & Hnew)|(remote & h & i & s & h' & out & -> & -> & -> & -> & H)].
  - split; unfold reg, table; cbn [observe srv pools past logins requests proc threads]; unfold reg; cbn [proc]; rewrite ?Es; try done.
    + eapply facts_registry; [done|apply grows_refl|done|by apply (f_wf _ _ _ _ _ F)].
    + intros rm h [E|[E|Hu]]%Hcase; [by rewrite (Hnew _ _ E)|by destruct (Hnt rm h)|].
      eapply routed_later; [..|by eapply Hro, Hin]; [done|by right|apply extends_build|]. intros q l _. apply unused_build.
    + intros rm h [E|[E|Hu]]%Hcase; [by rewrite (Hnew _ _ E)|by destruct (Hnt rm h)|by eapply Hpa, Hin].
  - assert (Hh : routed (named O) R P h) by (apply (Hro remote); rewrite elem_of_app, elem_of_cons; tauto).
    assert (Hpass : past_auth A h) by (apply (Hpa remote); rewrite elem_of_app, elem_of_cons; tauto).
    assert (Hok : ServerTheorems.stage_ok ho (sessions s) h').
    { apply (ServerTheorems.i_threads _ _ _ _ _ I' (TConn remote (CRun h'))). simpl. rewrite elem_of_app, elem_of_cons. tauto. }
    destruct (hstep_registry _ _ _ _ _ _ _ _ H) as [G W].
    pose proof (facts_world _ _ _ _ _ _ _ F (hstep_world _ _ _ _ _ _ _ _ H) Hlen) as F1.
    destruct (enter_facts _ _ _ _ _ _ _ _ _ _ _ F1 Hh Hok H) as (F2 & Hext & Hun).
    split; unfold reg, table; cbn [observe srv pools past logins requests proc threads with_shr shr]; unfold reg; cbn [proc with_shr shr].
    + eapply (facts_registry (named O) (named O)); [exact F2|exact G|done|]. intros HN.
      apply W; [exact (routed_waiting _ _ _ _ _ _ F HN Hh)|by apply (f_wf _ _ _ _ _ F)].
    + intros rm hu [E|[E|Hu]]%Hcase; [done| |].
      * injection E as -> ->. pose proof (hstep_routed _ _ _ _ _ _ _ _ _ _ F Hh H) as K.
        destruct (enter_cases _ _ _ _ _ _ _ (sessions s) P H) as [->|(m & d & q & l & -> & ->)]; done.
      * eapply routed_later; [done|by right| | |by apply (Hro rm), Hin].
        -- intros n sp q (q' & Hq')%Hext. by eapply extends_build.
        -- intros q l Hp Hul. apply unused_build, Hun; [|done]. intros q' l' Hp'.
           eapply (other_place (sessions s) ts1 (TConn remote (CRun h')) ts2 (TConn rm (CRun hu)));
             [apply (ServerTheorems.i_table _ _ _ _ _ I')|done|exact Hp'|exact Hp].
    + by apply (hstep_logins _ _ _ _ _ _ _ _ Hpass Hlg H).
    + intros m0. by apply passed_vouched.
    + intros rm hu [E|[E|Hu]]%Hcase; [done| |eapply past_auth_later; [apply passed_later|by eapply Hpa, Hin]].
      injection E as -> ->. by apply (hstep_logins _ _ _ _ _ _ _ _ Hpass Hlg H).
Qed.

Context `{MapRange}.

Lemma good_writer o p ts r P R A O :
  good (mkGateway (mkSys p ts) P R A O) → RegistryOps.rstep o (registry (shr p), []) (r, []) →
  good (observe (mkSys (with_shr (with_registry r (shr p)) p) ts) P R A (o :: O)).
Proof.
  intros [F Hro Hlg Hvo Hpa] Hst. unfold reg, table in *. cbn [srv pools past logins requests proc threads] in *.
  pose proof (grows_rstep _ _ _ Hst) as G. cbn [fst] in *.
  assert (HN : named (o :: O) → named O) by (by intros [_ ?]%Forall_cons).
  split; [| |done|done|done].
  - eapply facts_registry; [exact F|exact G|exact HN|]. intros [Ho HO]%Forall_cons.
    eapply (RegistryOps.rstep_WF _ _ _ Hst Ho). split; [|done]. by apply (f_wf _ _ _ _ _ F).
  - intros rm h Hh. eapply routed_later; [exact HN|by right|apply extends_build| |by eapply Hro].
    intros q l _. apply unused_build.
Qed.

Lemma good_pool s P R A O n sp p lab p' :
  good (mkGateway s P R A O) → P !! n = Some (sp, p) → Proxy.pstep ro (limitOf sp) lab p p' →
  Proxy.known p' = Proxy.known p → good (mkGateway s (<[ n := (sp, p') ]> P) R A O).
Proof.
  intros [F Hro Hlg Hvo Hpa] Hp Hst Hk. cbn [srv pools past logins requests] in *. split; [by eapply facts_pool| |done|done|done].
  cbn [srv pools past].
  intros rm h Hh. eapply routed_later; [done|done| | |by eapply Hro].
  - intros n' sp' q Hq. destruct (decide (n = n')) as [<-|Hne]; [|exists q; by rewrite lookup_insert_ne].
    exists p'. rewrite lookup_insert_eq. congruence.
  - intros q l _ Hu n' x [[<- <-]|[_ Hx]]%lookup_insert_Some; [cbn [snd]; rewrite Hk; by apply (Hu n (sp, p))|by eapply Hu].
Qed.

Lemma begin_good n m s0 :
  sessions s0 = init_world → RegistryLemmas.WF (registry s0) → good (begin n m s0).
Proof.
  intros Hs W. unfold begin, observe. unfold reg at 1 2. cbn [proc start shr].
  set (r := registry s0) in *. set (r0 := Registry.mkRegistry (Registry.defaults r) None ∅ ∅ 0 ∅).
  pose proof (WF_Numbered _ W) as Hnum.
  assert (G : grows r0 r) by (split; [intros k e _; right; simpl; lia|simpl; lia|done|done]).
  destruct (build_backed ∅ r0 r) as [B N]; [intros k e; by rewrite lookup_empty|intros k [x Hx]; by rewrite lookup_empty in Hx|done|done|].
  assert (Hn : ∀ k x, build r ∅ !! k = Some x → x.2 = Proxy.init).
  { intros k x [Hx|(_ & E & _)]%(bu_new _ _ _ (build_built r ∅)); [by rewrite lookup_empty in Hx|done]. }
  split; unfold reg, table; cbn [srv pools past logins requests proc start shr threads]; rewrite ?Hs.
  - split; [by left|by apply Forall_singleton|done|done|done|done| |].
    + intros k sp p Hk. apply Hn in Hk. simpl in Hk. subst. apply pool_ok_init.
    + intros k k' x x' i ->%Hn _. cbn [Proxy.known Proxy.init]. set_solver.
  - intros rm h [E|(i & E & _)%list_elem_of_fmap]%elem_of_cons; done.
  - done.
  - intros m0 Hm. by apply not_elem_of_nil in Hm.
  - intros rm h [E|(i & E & _)%list_elem_of_fmap]%elem_of_cons; done.
Qed.

Lemma gstep_srv g g' : gstep ho ro vouched g g' → rtc (sstep ho) (srv g) (srv g').
Proof. destruct 1; cbn [observe srv]; [apply rtc_once; by constructor|apply rtc_once; constructor|done]. Qed.

Lemma gstep_heap g g' :
  gstep ho ro vouched g g' → length (heap (table (srv g))) ≤ length (heap (table (srv g'))).
Proof.
  destruct 1 as [p ts1 t ts2 p' t' new P R A O Hst _|o p ts r P R A O Hst|]; unfold table; cbn [observe srv proc]; [|done|done].
  destruct (tstep_kinds _ _ _ _ _ Hst) as [((Es & _) & _)|(rm & h & i & s & h' & out0 & _ & _ & _ & -> & Hh)]; [by rewrite Es|].
  cbn [with_shr shr]. destruct (hstep_world _ _ _ _ _ _ _ _ Hh) as [w' -> _|l f _|now q key m0 t0 _]; simpl; [done|by rewrite length_alter|].
  rewrite length_app. lia.
Qed.

End process.

Lemma reached_good `{MapRange} a b n m s0 g :
  ServerTheorems.fresh a b s0 → RegistryOps.reachable [] (registry s0, []) → reached ho ro vouched n m s0 g →
  (Z.of_nat (length (heap (table (srv g)))) < two64)%Z → good g.
Proof.
  intros Hf Hreg Hr. unfold reached in Hr.
  enough (K : Server.reachable ho n m s0 (srv g) ∧
    ((Z.of_nat (length (heap (table (srv g)))) < two64)%Z → good g)) by apply K.
  eapply (rtc_ind_r (λ g, Server.reachable ho n m s0 (srv g) ∧ ((Z.of_nat (length (heap (table (srv g)))) < two64)%Z → good g)));
    [|clear Hr|exact Hr].
  { split; [constructor|]. intros _. apply begin_good; [apply Hf|by apply RegistryOps.reachable_WF in Hreg as [? _]; [|constructor]]. }
  intros g1 g2 _ Hst [Hr IH].
  assert (Hr2 : Server.reachable ho n m s0 (srv g2)) by (unfold Server.reachable in *; etrans; [done|by apply gstep_srv]).
  split; [done|]. intros Hlen. pose proof (gstep_heap _ _ Hst) as Hle. specialize (IH ltac:(lia)).
  pose proof (ServerTheorems.reachable_inv ho a b n m s0 _ Hf Hr) as I1.
  pose proof (ServerTheorems.reachable_inv ho a b n m s0 _ Hf Hr2) as I2.
  destruct Hst; [by eapply good_thread|by eapply good_writer|by eapply good_pool].
Qed.

End gateway.

(** ** Guarantees *)

Section end_to_end.
Context `{MapRange} (ho : handlerOpts) (ro : Relay.runtimeOpts) (vouched : startupMsg → Prop).

(** Every message was put on its connection for an entitled session. *)
Lemma message_entitled a b n m s0 g k sp p c x e :
  Relay.serverResetQuery ro ≠ "" → ServerTheorems.fresh a b s0 → RegistryOps.reachable [] (registry s0, []) →
  reached ho ro vouched n m s0 g → (Z.of_nat (length (heap (table (srv g)))) < two64)%Z →
  pools g !! k = Some (sp, p) → Proxy.conns p !! c = Some x → e ∈ Proxy.log (Proxy.line x) →
  ∃ l s msg, heap (table (srv g)) !! l = Some s ∧ id s = Proxy.author e ∧ msg ∈ logins g ∧ vouched msg ∧
    user s = parameter "user" msg ∧ database s = parameter "database" msg ∧
    (named (requests g) → entitled (past g) (user s) (database s) sp).
Proof.
  intros Hro Hf Hreg Hr Hlen Hp Hx He. pose proof (reached_good ho ro vouched Hro a b n m s0 g Hf Hreg Hr Hlen) as G.
  destruct (f_pools _ _ _ _ _ (g_facts _ _ G) _ _ _ Hp) as [_ A K].
  destruct (K _ (A _ _ _ Hx He)) as (l & s & Hs & ? & ?).
  destruct (g_logins _ _ G _ _ Hs) as (msg & Hm & ? & ?). pose proof (g_vouched _ _ G _ Hm). by exists l, s, msg.
Qed.

(** A session that serves its client is alone on its connection. *)
Lemma served_alone a b n m s0 g k sp p i r bk :
  Relay.serverResetQuery ro ≠ "" → ServerTheorems.fresh a b s0 → RegistryOps.reachable [] (registry s0, []) →
  reached ho ro vouched n m s0 g → (Z.of_nat (length (heap (table (srv g)))) < two64)%Z →
  pools g !! k = Some (sp, p) → Proxy.sessions p !! i = Some r → Relay.backend r = Some bk →
  ProxySession.serving (Relay.ph r) = true →
  (∃ x, Proxy.conns p !! Prepared.bid bk = Some x ∧
     Forall (λ e, Proxy.author e = Prepared.sid (Relay.sess r)) (Proxy.log (Proxy.line x))) ∧
  ∀ k' sp' p' i' r', pools g !! k' = Some (sp', p') → Proxy.sessions p' !! i' = Some r' →
    Prepared.sid (Relay.sess r') = Prepared.sid (Relay.sess r) → k' = k ∧ i' = i.
Proof.
  intros Hro Hf Hreg Hr Hlen Hp Hi Hb Hs. pose proof (g_facts _ _ (reached_good ho ro vouched Hro a b n m s0 g Hf Hreg Hr Hlen)) as F.
  pose proof (po_inv _ _ _ _ _ (f_pools _ _ _ _ _ F _ _ _ Hp)) as I.
  destruct (ProxyTheorems.serving_own _ _ _ _ _ _ I Hi Hb Hs) as (x & Hx & Ho & Hone).
  split; [by exists x|]. intros k' sp' p' i' r' Hp' Hi' E.
  pose proof (po_inv _ _ _ _ _ (f_pools _ _ _ _ _ F _ _ _ Hp')) as I'.
  assert (k' = k) as ->.
  { eapply (f_apart _ _ _ _ _ F k' k (sp', p') (sp, p) (Prepared.sid (Relay.sess r)) Hp' Hp).
    - rewrite <- E. apply (ProxyTheorems.iv_sess _ _ _ I' _ _ Hi').
    - apply (ProxyTheorems.iv_sess _ _ _ I _ _ Hi). }
  simplify_eq. split; [done|]. by eapply Hone.
Qed.

End end_to_end.

End GatewayTheorems.
