(* ===== verification/GatewayRuns.v ===== *)
(** * Running the gateway

    An executable scheduler for the system of Gateway.v, and the moves of one
    run: two users of the same database, one with a DSN of its own and one whose
    login key is passed through, log in, are routed to pools of their own and are
    served, while the reaper sweeps and a pool is resized and removed. *)

From S2P Require Import Prelude Config Limits RateLimit Pool PoolSpec Registry RegistryOps RegistryTheorems.
From S2P Require Import Prepared Relay Proxy ProxySession ProxyRuns Session Startup Server ServerTheorems.
From S2P Require Import ServerRuns Gateway GatewayRouting GatewayTheorems.
Import Session Startup Server ServerRuns Gateway GatewayRouting GatewayTheorems.
Open Scope string_scope.
Open Scope list_scope.
Open Scope nat_scope.

Module GatewayRuns.

(** ** The scheduler *)

(** A thread of the process moves, the registry is written, or something happens
    inside a pool. *)
Inductive move :=
| Thread (i : nat) (c : choice)
| RemovePool (name : string)
| ResizePool (now : Z) (name : string) (limit : Z)
| Sweep (now idleFor : Z)
| Inside (k : nat) (ev : ProxyRuns.event).

Section play.
Context `{MapRange} (ho : handlerOpts) (ro : Relay.runtimeOpts).
(** The logins that are let in. *)
Context (vouched : startupMsg → Prop) (users : list string).
Context (Hvouched : ∀ m, parameter "user" m ∈ users → vouched m).

Definition admitsb (t t' : thread) : bool :=
  match t, t' with
  | TConn _ (CRun (HAuth m)), TConn _ (CRun (HRate _)) => bool_decide (parameter "user" m ∈ users)
  | _, _ => true
  end.

Lemma admitsb_sound t t' : admitsb t t' = true → admits vouched t t'.
Proof.
  destruct t as [|rm [h| | |]|]; try done. destruct t' as [|rm' [h'| | |]|]; try (by destruct h).
  destruct h; try done. destruct h'; try done. simpl. rewrite bool_decide_eq_true. apply Hvouched.
Qed.

Definition write (a : RegistryOps.op) (r : Registry.PoolRegistry) (g : gateway) : gateway :=
  let p := proc (srv g) in
  observe (mkSys (with_shr (with_registry r (shr p)) p) (threads (srv g))) (pools g) (past g) (logins g)
    (a :: requests g).

(** The sweep reads the table of sessions and the busy connections of each pool. *)
Definition inUse (P : poolTable) (k : nat) : nat :=
  match P !! k with Some (_, p) => size (PoolSpec.busy (Proxy.pool p)) | None => 0 end.

Definition play (mv : move) (g : gateway) : option gateway :=
  match mv with
  | Thread i c =>
      match threads (srv g) !! i with
      | None => None
      | Some t =>
          match play_thread ho (proc (srv g)) t c with
          | None => None
          | Some (p, t', new) =>
              if admitsb t t' && finished t t' (table (srv g)) (pools g) then
                Some (observe (mkSys p (option_list new ++ take i (threads (srv g)) ++ t' :: drop (S i) (threads (srv g))))
                        (enter t t' (sessions (shr p)) (pools g)) (past g) (passed t t' (logins g)) (requests g))
              else None
          end
      end
  | RemovePool n =>
      match Registry.Remove n (reg (srv g)) with Ok (r, _) => Some (write (RegistryOps.ORemove n) r g) | Err _ => None end
  | ResizePool now n l =>
      match Registry.Resize now n l (reg (srv g)) with Ok (r, _) => Some (write (RegistryOps.OResize n) r g) | Err _ => None end
  | Sweep now idleFor =>
      Some (write RegistryOps.OEvict (Registry.EvictIdlePassthrough now idleFor (activeSessionPoolKeys (λ _, table (srv g)))
              (inUse (pools g)) (reg (srv g))).1.1 g)
  | Inside k ev =>
      match pools g !! k with
      | Some (sp, p) =>
          match ProxyRuns.play ro (limitOf sp) ev p with
          | Some (_, p') =>
              if bool_decide (Proxy.known p' = Proxy.known p)
              then Some (mkGateway (srv g) (<[ k := (sp, p') ]> (pools g)) (past g) (logins g) (requests g))
              else None
          | None => None
          end
      | None => None
      end
  end.

Lemma move_sound mv g g' : play mv g = Some g' → gstep ho ro vouched g g'.
Proof.
  destruct g as [[p ts] P R A O]. destruct mv as [i c|n|now n l|now idleFor|k ev]; simpl.
  - destruct (ts !! i) as [t|] eqn:Et; [|done].
    destruct (play_thread ho p t c) as [[[p' t'] new]|] eqn:Ep; [|done].
    destruct (admitsb t t') eqn:Ea; [|done]. destruct (finished t t' _ P) eqn:Ef; [|done]. intros [= <-].
    rewrite <- (take_drop_middle ts i t Et) at 1. apply g_thread; [by eapply play_thread_sound|by apply admitsb_sound|done].
  - destruct (Registry.Remove n _) as [[r old]|] eqn:Er; [|done]. intros [= <-].
    apply g_writer. by eapply RegistryOps.step_remove.
  - destruct (Registry.Resize now n l _) as [[r old]|] eqn:Er; [|done]. intros [= <-].
    apply g_writer. by eapply RegistryOps.step_resize.
  - intros [= <-]. apply g_writer, RegistryOps.step_evict.
  - destruct (P !! k) as [[sp q]|] eqn:Ek; [|done].
    destruct (ProxyRuns.play ro (limitOf sp) ev q) as [[lab q']|] eqn:Ev; [|done].
    case_bool_decide; [|done]. intros [= <-]. eapply g_pool; [done|by eapply ProxyRuns.event_sound|done].
Qed.

Fixpoint run (ms : list move) (g : gateway) : option gateway :=
  match ms with
  | [] => Some g
  | mv :: ms => match play mv g with None => None | Some g => run ms g end
  end.

Definition after (n : nat) (m : Z) (s0 : shared) (ms : list move) : gateway :=
  default (begin n m s0) (run ms (begin n m s0)).

Lemma after_reached n m s0 ms : reached ho ro vouched n m s0 (after n m s0 ms).
Proof.
  unfold after, reached. generalize (begin n m s0). induction ms as [|mv ms IH]; intros g; simpl; [done|].
  destruct (play mv g) as [g'|] eqn:E; simpl; [|done].
  specialize (IH g'). destruct (run ms g') as [g2|] eqn:E2; simpl in *; [|done].
  eapply rtc_l; [by eapply move_sound|done].
Qed.

End play.

(** ** A run *)

(** From the accept to the end of the handshake; the loop is thread [i]. *)
Definition logs_in (i : nat) (user : string) (captured : bool) (pid : Z) : list move :=
  [Thread i Go; Thread i Go; Thread i (Accepted "10.0.0.7");
   Thread 0 (Handle (IReceived (Some (startup_of user "shop")))); Thread 0 (Handle (IAt 10%Z));
   Thread 0 (Handle (IAuth 11%Z true captured false)); Thread 0 (Handle (IClock 12%Z 12%Z)); Thread 0 (Handle IGo);
   Thread 0 (Handle (IAt 13%Z)); Thread 0 (Handle IGo); Thread 0 (Handle (IDraw 14%Z pid [1; 2; 3; 4]%Z));
   Thread 0 (Handle (IFlush true))].

Definition asks (k : nat) (sql : string) : list move :=
  [Inside k (ProxyRuns.Move 0 (Relay.Client (Prepared.Query sql))); Inside k (ProxyRuns.Open 0 0)].

Definition two_users : list move :=
  logs_in 1 "alice" false 77 ++ logs_in 2 "bob" true 78 ++ asks 1 "SELECT 1" ++ asks 2 "SELECT 2" ++
  [Sweep 1000 50; ResizePool 1001 "shop" 20; RemovePool "shop"; Inside 2 (ProxyRuns.Move 0 ProxyRuns.ready_I)].

End GatewayRuns.
