(* ===== verification/GatewayConfig.v ===== *)
(** * The configured gateway

    The end-to-end guarantees for the process that src/main.go starts from a
    configuration file: the file is one loadConfig accepts, the options, the
    registry and the shared state are those of Wiring.v. *)

From S2P Require Import Prelude Config ConfigTheorems Registry RegistryOps RegistryTheorems Prepared Relay Pool Proxy.
From S2P Require Import ProxySession ProxyRuns Session Startup Server ServerTheorems ServerRuns Wiring WiringTheorems.
From S2P Require Import HBA Scram PeerCred Gateway GatewayRouting GatewayTheorems GatewayRuns.
Import Session Startup Server Gateway GatewayRouting GatewayTheorems GatewayRuns.
Open Scope string_scope.
Open Scope list_scope.
Open Scope nat_scope.

Module GatewayConfig.

Section configured.
Context `{MapRange, HBA.UnicodeFold} (cv : Scram.conversation) (runes : string → HBA.text).
Context (linux : bool) (lookupUsernameByUID : Z → option HBA.text).

Definition listenersOf (cfg : Config.Config) : nat := if bool_decide (Config.UnixSocketDir cfg = "") then 1 else 2.

(** The authentication chain built from the configuration accepts a login with
    this startup message, over some socket: [lookup] is what auth_query answers,
    [hbaFile] what is read of the pg_hba file. *)
Definition accepted (cfg : Config.Config) (tls : option bool) (hbaFile : Wiring.hbaScan) (m : startupMsg) : Prop :=
  ∃ lookup b nc l store store', Wiring.buildAuthBackend cfg tls lookup hbaFile = Ok b ∧
    Wiring.authenticate cv runes b (PeerCred.seen linux lookupUsernameByUID false nc)
      (parameter "user" m) (parameter "database" m) l store = (HBA.Accept, store').

(** What the gateway that run builds reaches. *)
Definition runs (now : Z) (cfg : Config.Config) (tls : option bool) (hbaFile : Wiring.hbaScan) (g : gateway) : Prop :=
  reached (Wiring.handler (Wiring.runOpts cfg)) (Wiring.relayOpts (Wiring.runOpts cfg)) (accepted cfg tls hbaFile)
    (listenersOf cfg) (Config.MaxClientConn cfg) (Wiring.initialShared now cfg) g.

(** Fewer than 2^64 sessions have been started. *)
Definition ids_left (g : gateway) : Prop := (Z.of_nat (length (heap (table (srv g)))) < two64)%Z.

Lemma config_ok readFile unmarshal path cfg :
  Config.loadConfig readFile unmarshal path = Ok cfg → ConfigTheorems.WellConfigured cfg.
Proof. unfold Config.loadConfig. intros Hl. repeat case_match; simplify_eq. by apply ConfigTheorems.checkConfig_None. Qed.

Lemma config_registry readFile unmarshal path cfg now :
  Config.loadConfig readFile unmarshal path = Ok cfg → RegistryOps.reachable [] (Wiring.newRegistry now cfg, []).
Proof.
  intros Hl. assert (Hok : ConfigTheorems.loaded (Config.Pools cfg)) by (by exists readFile, unmarshal, path, cfg).
  unfold Wiring.newRegistry. destruct (Wiring.wantsKeyStore cfg).
  - by apply RegistryOps.reach_new.
  - by apply RegistryOps.reach_nokeys.
Qed.

Lemma config_reset readFile unmarshal path cfg :
  Config.loadConfig readFile unmarshal path = Ok cfg → Relay.serverResetQuery (Wiring.relayOpts (Wiring.runOpts cfg)) ≠ "".
Proof. intros Hl. apply (ConfigTheorems.documented_opt_outs_ignored _ _ _ _ Hl). Qed.

(** C1: Nobody reaches a server as somebody else.  In the process started from
    any configuration loadConfig accepts, over any number of clients logging in,
    being routed and relayed, while pools are added, resized, removed and evicted
    and any number of reloads take their steps in between: every message that was
    put on any connection of any pool was put there for a session whose startup
    message was let in by the configured authentication, on the terms of the first
    pg_hba rule that matched its socket or by a SCRAM proof (or, with
    authentication switched off, like everybody).  And as long as no resize was addressed to the key of one user's
    entry instead of a pool, that message's user and database entitle it to the
    identity with which that pool dials: the DSN its backend_users lists for the
    user, the user's own role through its login key, or the shared DSN, by a
    configuration that was in force. *)
Theorem every_message_entitled readFile unmarshal path cfg now tls hbaFile rules g k sp p c x e :
  Config.loadConfig readFile unmarshal path = Ok cfg →
  Wiring.LoadHBAFile (Config.AuthHBAFile cfg) hbaFile = Ok rules → runs now cfg tls hbaFile g → ids_left g →
  pools g !! k = Some (sp, p) → Proxy.conns p !! c = Some x → e ∈ Proxy.log (Proxy.line x) →
  ∃ l s msg, heap (table (srv g)) !! l = Some s ∧ id s = Proxy.author e ∧ msg ∈ logins g ∧
    user s = parameter "user" msg ∧ database s = parameter "database" msg ∧
    (∃ lookup nc login, WiringTheorems.let_in cv runes cfg lookup rules (PeerCred.seen linux lookupUsernameByUID false nc)
       (user s) (database s) login) ∧
    (Forall RegistryOps.by_name (requests g) → entitled (past g) (user s) (database s) sp).
Proof.
  intros Hl Hf Hr Hi Hp Hx He. destruct (message_entitled _ _ _ _ _ _ _ _ _ _ _ _ _ _ _ (config_reset _ _ _ _ Hl)
    (WiringTheorems.initial_fresh now cfg) (config_registry _ _ _ _ now Hl) Hr Hi Hp Hx He)
    as (l & s & msg & Hs & Ha & Hm & (lookup & b & nc & login & st & st' & Hb & Hacc) & Hu & Hd & Hent).
  exists l, s, msg. do 5 (split; [done|]). split; [|done]. exists lookup, nc, login. rewrite Hu, Hd.
  eapply WiringTheorems.login_terms; [by eapply config_ok|exact Hb|done|exact Hacc].
Qed.

(** C2: One session per connection, across the whole process.  While a session
    serves its client from a connection of its pool, everything sent to that
    server since its last reset, or waiting to be sent, is that session's own;
    and no relay of any pool but this one has its id. *)
Theorem gateway_isolated readFile unmarshal path cfg now tls hbaFile g k sp p i r bk :
  Config.loadConfig readFile unmarshal path = Ok cfg → runs now cfg tls hbaFile g → ids_left g →
  pools g !! k = Some (sp, p) → Proxy.sessions p !! i = Some r → Relay.backend r = Some bk →
  ProxySession.serving (Relay.ph r) = true →
  (∃ x, Proxy.conns p !! Prepared.bid bk = Some x ∧
     Forall (λ e, Proxy.author e = Prepared.sid (Relay.sess r)) (Proxy.log (Proxy.line x))) ∧
  ∀ k' sp' p' i' r', pools g !! k' = Some (sp', p') → Proxy.sessions p' !! i' = Some r' →
    Prepared.sid (Relay.sess r') = Prepared.sid (Relay.sess r) → k' = k ∧ i' = i.
Proof.
  intros Hl Hr Hi. eapply served_alone; [by eapply config_reset|apply WiringTheorems.initial_fresh| |exact Hr|exact Hi].
  by eapply config_registry.
Qed.

End configured.

(** ** A run *)

(** Alice has a DSN of her own, bob's key is passed through. *)
Definition two_file : Config.Config :=
  WiringTheorems.shop_with (<[ "alice" := WiringTheorems.ann_verifier ]> {[ "bob" := WiringTheorems.ann_verifier ]})
    RegistryTheorems.demo_pools.
Definition two_config : Config.Config := Config.applyDefaults two_file.

Lemma two_loaded : Config.loadConfig (λ _, Some "") (λ _, Some two_file) "pgman.yaml" = Ok two_config.
Proof. vm_compute. reflexivity. Defined.

#[local] Instance plain_fold : HBA.UnicodeFold := λ r, r.

Abbreviation accepted_here := (accepted WiringTheorems.one_proof HBA.lit true (λ _, None) two_config None None).

(** Both log in with a proof of their password. *)
Lemma two_accepted m : parameter "user" m ∈ ["alice"; "bob"] → accepted_here m.
Proof.
  intros Hm. assert (E : ∃ b, Wiring.buildAuthBackend two_config None (λ _, None) None = Ok b ∧ ∀ db store,
    (Wiring.authenticate WiringTheorems.one_proof HBA.lit b (PeerCred.seen true (λ _, None) false (PeerCred.TCPConn []))
       (parameter "user" m) db WiringTheorems.ann_login store).1 = HBA.Accept).
  { eexists. split; [vm_compute; reflexivity|]. intros db store.
    apply elem_of_cons in Hm as [->|Hm]; [by vm_compute|]. apply list_elem_of_singleton in Hm as ->. by vm_compute. }
  destruct E as (b & Hb & Ha). specialize (Ha (parameter "database" m) None).
  destruct (Wiring.authenticate _ _ _ _ _ _ _ _) as [v st] eqn:E. cbn [fst] in Ha. subst v.
  exists (λ _, None), b, (PeerCred.TCPConn []), WiringTheorems.ann_login, None, st. split; [exact Hb|exact E].
Defined.

Definition day : gateway :=
  after (Wiring.handler (Wiring.runOpts two_config)) (Wiring.relayOpts (Wiring.runOpts two_config)) ["alice"; "bob"] 1 2
    (Wiring.initialShared 0 two_config) two_users.

Lemma day_runs : runs WiringTheorems.one_proof HBA.lit true (λ _, None) 0 two_config None None day.
Proof. apply after_reached. apply two_accepted. Defined.

Definition poolAt (k : nat) : Registry.poolSpec * Proxy.proxy :=
  default (Registry.mkSpec "" (Registry.DialBackend "" "" false) (Pool.mkOptions 0 false false 0 0 0 0 0 0 0 0) 0, Proxy.init)
    (pools day !! k).

Definition nobody : Proxy.conn := Proxy.mkConn (Prepared.mkBackend 0 None 0 []) (Proxy.mkWire [] []).
Definition connAt (k c : nat) : Proxy.conn := default nobody (Proxy.conns (poolAt k).2 !! c).
Definition firstOf (k c : nat) : Proxy.entry :=
  default (Proxy.mkEntry 0 ∅ Prepared.Sync) (Proxy.log (Proxy.line (connAt k c)) !! 0).

(** Bob's query went out on a pool that logs in as bob. *)
Lemma every_message_entitled_witness :
  Registry.spec_dial (poolAt 2).1 = Registry.PassthroughDialer "postgres://app@db" "bob" false ∧
  Proxy.msg (firstOf 2 0) = Prepared.Query "SELECT 2" ∧
  ∃ l s msg, heap (table (srv day)) !! l = Some s ∧ id s = Proxy.author (firstOf 2 0) ∧ msg ∈ logins day ∧
    user s = parameter "user" msg ∧ database s = parameter "database" msg ∧
    (∃ lookup nc login, WiringTheorems.let_in WiringTheorems.one_proof HBA.lit two_config lookup []
       (PeerCred.seen true (λ _, None) false nc) (user s) (database s) login) ∧
    entitled (past day) (user s) (database s) (poolAt 2).1.
Proof.
  split; [by vm_compute|]. split; [by vm_compute|].
  destruct (every_message_entitled WiringTheorems.one_proof HBA.lit true (λ _, None) (λ _, Some "") (λ _, Some two_file) "pgman.yaml"
    two_config 0 None None [] day 2 (poolAt 2).1 (poolAt 2).2 0 (connAt 2 0) (firstOf 2 0))
    as (l & s & msg & H1 & H2 & H3 & H4 & H5 & H6 & H7).
  - apply two_loaded.
  - vm_compute. reflexivity.
  - apply day_runs.
  - by vm_compute.
  - vm_compute. reflexivity.
  - vm_compute. reflexivity.
  - apply (list_elem_of_lookup_2 _ 0). vm_compute. reflexivity.
  - exists l, s, msg. refine (conj H1 (conj H2 (conj H3 (conj H4 (conj H5 (conj H6 (H7 _))))))).
    vm_compute. repeat constructor.
Defined.

Definition aliceRelay : Relay.relay :=
  default (Relay.relay_init (ProxyRuns.client 0)) (Proxy.sessions (poolAt 1).2 !! 0).
Definition aliceConn : Prepared.backendConn := default (Prepared.mkBackend 9 None 0 []) (Relay.backend aliceRelay).

(** Alice waits for her answer. *)
Lemma gateway_isolated_witness :
  Registry.spec_dial (poolAt 1).1 = Registry.DialBackend "postgres://alice@db" "db.internal:5432" false ∧
  (∃ x, Proxy.conns (poolAt 1).2 !! Prepared.bid aliceConn = Some x ∧
     Forall (λ e, Proxy.author e = Prepared.sid (Relay.sess aliceRelay)) (Proxy.log (Proxy.line x))) ∧
  ∀ k' sp' p' i' r', pools day !! k' = Some (sp', p') → Proxy.sessions p' !! i' = Some r' →
    Prepared.sid (Relay.sess r') = Prepared.sid (Relay.sess aliceRelay) → k' = 1 ∧ i' = 0.
Proof.
  split; [by vm_compute|].
  apply (gateway_isolated WiringTheorems.one_proof HBA.lit true (λ _, None) (λ _, Some "") (λ _, Some two_file) "pgman.yaml"
    two_config 0 None None day 1 (poolAt 1).1 (poolAt 1).2 0 aliceRelay aliceConn).
  - apply two_loaded.
  - apply day_runs.
  - by vm_compute.
  - vm_compute. reflexivity.
  - vm_compute. reflexivity.
  - vm_compute. reflexivity.
  - by vm_compute.
Defined.

End GatewayConfig.
