(* ===== verification/AuditLog.v ===== *)
(** * The audit stream and the log

    src/audit.go and src/logging.go: the sink of the audit stream, the record
    each event becomes, and the line slog's JSON handler writes for it; and the
    calls of auditLog in the connection handler (src/main.go), the pg_hba gate
    (src/hba.go), the admin console (src/admin_sql.go) and the LISTEN warning
    (src/listen_warn.go), next to the login counters of the handler.  Text is the
    list of its bytes. *)

From Stdlib Require Import Ascii.
From S2P Require Import Prelude GoStrings HBA Scram Limits RateLimit Registry Session Startup Prepared.
Import HBA Startup.
Open Scope string_scope.
Open Scope list_scope.
Open Scope Z_scope.

Module AuditLog.

Abbreviation bytes := (list Z).

(** ** UTF-8 *)

Definition within (lo hi b : Z) : bool := (lo <=? b) && (b <=? hi).

(** How many bytes follow a first byte, and what the second may be. *)
Definition rune_form (b : Z) : option (nat * Z * Z) :=
  if within 194 223 b then Some (1%nat, 128, 191)
  else if b =? 224 then Some (2%nat, 160, 191)
  else if b =? 237 then Some (2%nat, 128, 159)
  else if within 225 239 b then Some (2%nat, 128, 191)
  else if b =? 240 then Some (3%nat, 144, 191)
  else if within 241 243 b then Some (3%nat, 128, 191)
  else if b =? 244 then Some (3%nat, 128, 143)
  else None.

(** The [n] low bits of a byte. *)
Definition low (n b : Z) : Z := Z.land b (Z.ones n).

(** [utf8.DecodeRuneInString] of text whose first byte is not ASCII: the rune
    and its size, or nothing for an invalid encoding. *)
Definition DecodeRune (s : bytes) : option (Z * nat) :=
  match s with
  | b0 :: b1 :: s =>
      match rune_form b0, s with
      | Some (1%nat, lo, hi), _ =>
          if within lo hi b1 then Some (Z.lor (Z.shiftl (low 5 b0) 6) (low 6 b1), 2%nat) else None
      | Some (2%nat, lo, hi), b2 :: _ =>
          if within lo hi b1 && within 128 191 b2
          then Some (Z.lor (Z.lor (Z.shiftl (low 4 b0) 12) (Z.shiftl (low 6 b1) 6)) (low 6 b2), 3%nat) else None
      | Some (3%nat, lo, hi), b2 :: b3 :: _ =>
          if within lo hi b1 && within 128 191 b2 && within 128 191 b3
          then Some (Z.lor (Z.lor (Z.lor (Z.shiftl (low 3 b0) 18) (Z.shiftl (low 6 b1) 12)) (Z.shiftl (low 6 b2) 6)) (low 6 b3), 4%nat)
          else None
      | _, _ => None
      end
  | _ => None
  end.

(** ** The JSON handler of slog *)

Definition DQ : Z := 34.
Definition BACKSLASH : Z := 92.
Definition NL : Z := 10.

Definition hex (d : Z) : Z := if d <? 10 then 48 + d else 87 + d.

Section handler.
(** Whether this release of Go writes \b and \f, or \u0008 and \u000c. *)
Context (bf : bool).

Definition escapeASCII (b : Z) : bytes :=
  if (b =? DQ) || (b =? BACKSLASH) then [BACKSLASH; b]
  else if 32 <=? b then [b]
  else if b =? 10 then lit "\n"
  else if b =? 13 then lit "\r"
  else if b =? 9 then lit "\t"
  else if bf && (b =? 8) then lit "\b"
  else if bf && (b =? 12) then lit "\f"
  else lit "\u00" ++ [hex (b / 16); hex (b mod 16)].

(** [appendEscapedJSONString] *)
Fixpoint appendEscaped (s : bytes) : bytes :=
  match s with
  | [] => []
  | b0 :: s1 =>
      if b0 <? 128 then escapeASCII b0 ++ appendEscaped s1
      else
        match DecodeRune s, s1 with
        | Some (_, 2%nat), b1 :: s2 => b0 :: b1 :: appendEscaped s2
        | Some (c, 3%nat), b1 :: b2 :: s3 =>
            (if (c =? 8232) || (c =? 8233) then lit "\u202" ++ [hex (c mod 16)] else [b0; b1; b2]) ++ appendEscaped s3
        | Some (_, 4%nat), b1 :: b2 :: b3 :: s4 => b0 :: b1 :: b2 :: b3 :: appendEscaped s4
        | _, _ => lit "\ufffd" ++ appendEscaped s1
        end
  end.

Definition quoted (s : bytes) : bytes := DQ :: appendEscaped s ++ [DQ].

(** The values the calls pass: strings and line numbers. *)
Inductive value := VStr (s : bytes) | VInt (n : Z).

Definition appendValue (v : value) : bytes := match v with VStr s => quoted s | VInt n => Scram.Itoa n end.

Definition attr : Type := bytes * value.

Definition appendAttr (a : attr) : bytes := quoted a.1 ++ [58] ++ appendValue a.2.

Fixpoint appendAttrs (l : list attr) : bytes :=
  match l with
  | [] => []
  | [a] => appendAttr a
  | a :: l => appendAttr a ++ [44] ++ appendAttrs l
  end.

(** One record: the built-in fields, the attributes of [With], those of the
    call; [time] is the formatted time. *)
Definition recordOf (time msg : bytes) (withAttrs kv : list attr) : list attr :=
  [(lit "time", VStr time); (lit "level", VStr (lit "INFO")); (lit "msg", VStr msg)] ++ withAttrs ++ kv.

Definition line (l : list attr) : bytes := [123] ++ appendAttrs l ++ [125; NL].

(** ** The audit sink *)

Inductive sink := Stderr | File (path : string).

(** [auditLogger] and what has been written where. *)
Record state := mkState { auditLogger : option sink; written : list (sink * bytes) }.

(** [openFile] says whether the file can be opened. *)
Definition setupAuditLog (openFile : string → bool) (path : string) (s : state) : result string state :=
  if negb (bool_decide (path = "")) && negb (bool_decide (path = "-")) then
    if openFile path then Ok (mkState (Some (File path)) (written s)) else Err path
  else Ok (mkState (Some Stderr) (written s)).

Definition component : list attr := [(lit "component", VStr (lit "audit"))].

Definition auditLog (time : bytes) (event : bytes) (kv : list attr) (s : state) : state :=
  match auditLogger s with
  | None => s
  | Some w => mkState (Some w)
      (written s ++ [(w, line (recordOf time event component ((lit "event", VStr event) :: kv)))])
  end.

End handler.

(** ** The calls *)

Inductive auditEvent :=
| AuthFail (user database remote err : bytes)
| RateLimitReject (user database remote : bytes)
| AdminDenied (user database : bytes)
| ConnLimitReject (user database err : bytes)
| HbaReject (ruleLine : Z) (user database remote_ip : bytes)
| CertAuthFail (ruleLine : Z) (cn requested_user : bytes)
| ListenInPoolMode (user database pool_mode : bytes)
| AdminCmd (cmd : bytes).

Definition eventName (e : auditEvent) : bytes :=
  match e with
  | AuthFail _ _ _ _ => lit "auth_fail"
  | RateLimitReject _ _ _ => lit "rate_limit_reject"
  | AdminDenied _ _ => lit "admin_denied"
  | ConnLimitReject _ _ _ => lit "conn_limit_reject"
  | HbaReject _ _ _ _ => lit "hba_reject"
  | CertAuthFail _ _ _ => lit "cert_auth_fail"
  | ListenInPoolMode _ _ _ => lit "listen_in_pool_mode"
  | AdminCmd _ => lit "admin_cmd"
  end.

Definition str (k : string) (v : bytes) : attr := (lit k, VStr v).

Definition eventAttrs (e : auditEvent) : list attr :=
  match e with
  | AuthFail u d r x => [str "user" u; str "database" d; str "remote" r; str "err" x]
  | RateLimitReject u d r => [str "user" u; str "database" d; str "remote" r]
  | AdminDenied u d => [str "user" u; str "database" d]
  | ConnLimitReject u d x => [str "user" u; str "database" d; str "err" x]
  | HbaReject n u d r => [(lit "line", VInt n); str "user" u; str "database" d; str "remote_ip" r]
  | CertAuthFail n c u => [(lit "line", VInt n); str "cn" c; str "requested_user" u]
  | ListenInPoolMode u d p => [str "user" u; str "database" d; str "pool_mode" p]
  | AdminCmd c => [str "cmd" c]
  end.

Definition audit (bf : bool) (time : bytes) (e : auditEvent) : state → state :=
  auditLog bf time (eventName e) (eventAttrs e).

(** *** In the connection handler *)

Definition asksConsole (o : handlerOpts) (m : startupMsg) : bool :=
  negb (bool_decide (adminDatabase o = "")) && bool_decide (parameter "database" m = adminDatabase o).

Section handling.
Context (o : handlerOpts) (remote : string).

(** The events of one stage.  [inside] are those of the authentication itself,
    [authErr] is the text of its error, [capText] that of a cap's. *)
Context (inside : list auditEvent) (authErr : bytes) (capText : Limits.capErr → bytes).

Definition audits (s : shared) (h : stage) (i : input) : list auditEvent :=
  match h, i with
  | HAuth m, IAuth _ ok _ _ =>
      inside ++ (if ok then [] else
        [AuthFail (lit (parameter "user" m)) (lit (parameter "database" m)) (lit remote) authErr])
  | HRate m, IClock made now =>
      if (RateLimit.Allow made now (parameter "user" m) (userRate s)).1 then []
      else [RateLimitReject (lit (parameter "user" m)) (lit (parameter "database" m)) (lit remote)]
  | HRoute m, IGo =>
      if asksConsole o m && negb (isConsole o m)
      then [AdminDenied (lit (parameter "user" m)) (lit (parameter "database" m))] else []
  | HCaps m d, IGo =>
      match Limits.Reserve (parameter "user" m) (parameter "database" m) (caps s) with
      | Err e => [ConnLimitReject (lit (parameter "user" m)) (lit (parameter "database" m)) (capText e)]
      | Ok _ => []
      end
  | _, _ => []
  end.

(** The login counters of the metrics that one stage increments. *)
Inductive loginCounter := ClientLoginOK | ClientLoginFail (reason : string).

Definition loginCounts (s : shared) (h : stage) (i : input) : list loginCounter :=
  match h, i with
  | HReceive, IReceived None => [ClientLoginFail "startup"]
  | HLimiter m, IAt now => if (Limits.Allowed now remote (limiter s)).1 then [] else [ClientLoginFail "rate_limited"]
  | HAuth m, IAuth _ ok _ _ => if ok then [] else [ClientLoginFail "auth"]
  | HRoute m, IGo => if isConsole o m then [ClientLoginOK] else []
  | HResolve m l, IAt now =>
      match decisionOf (Registry.resolveFinish now l (registry s)).2 with
      | None => [ClientLoginFail "routing"]
      | Some _ => []
      end
  | HCaps m d, IGo =>
      match Limits.Reserve (parameter "user" m) (parameter "database" m) (caps s) with
      | Err _ => [ClientLoginFail "conn_limit"]
      | Ok _ => [ClientLoginOK]
      end
  | _, _ => []
  end.

End handling.

(** *** In the pg_hba gate *)

(** [lineOf] is a rule's LineNum, [showIP] is [IP.String], [runes] reads a
    parameter as text and [utf8] writes text. *)
Definition hbaAudits `{UnicodeFold} (lineOf : HBARule → Z) (showIP : option IP → bytes) (runes : string → text)
    (utf8 : text → bytes) (rules : list HBARule) (c : connection) (user database : string) : list auditEvent :=
  match MatchHBA rules (isTLS c) (isUnix c) (remoteIP c) (runes user) (runes database) with
  | None => []
  | Some r =>
      match Method r with
      | HBAMethodReject => [HbaReject (lineOf r) (lit user) (lit database) (showIP (remoteIP c))]
      | HBAMethodCert =>
          match isTLS c, peerCN c with
          | true, Some cn => if bool_decide (cn = runes user) then [] else [CertAuthFail (lineOf r) (utf8 cn) (lit user)]
          | _, _ => []
          end
      | _ => []
      end
  end.

(** *** In the console and the relay *)

Definition commandAudits `{Unicode} (trimmed : string) : list auditEvent :=
  let upper := ToUpperText trimmed in
  if existsb (λ p, HasPrefix upper p) ["PAUSE"; "RESUME"; "RECONNECT"] then [AdminCmd (lit trimmed)] else [].

(** The first LISTEN of a session outside session pooling. *)
Definition listenAudits (user database : string) (s : Prepared.session) (sql : string) : list auditEvent :=
  if negb (Prepared.listenWarned s) && Prepared.listenWarned (Prepared.checkListenWarn s sql)
  then [ListenInPoolMode (lit user) (lit database) (lit (Prepared.poolMode s))] else [].

(** ** setupLogging *)

Inductive Level := LevelDebug | LevelInfo | LevelWarn | LevelError.
Inductive format := TextHandler | JSONHandler.

Record logging := mkLogging { level : Level; addSource : bool; handler : format }.

(** [lower_runes] is [strings.ToLower] of text with non-ASCII runes. *)
Definition ToLowerText (lower_runes : string → string) (s : string) : string :=
  if all_ascii s then ToLower s else lower_runes s.

Definition setupLogging (lower_runes : string → string) (fmt lvl : string) : logging :=
  let l := ToLowerText lower_runes lvl in
  let level :=
    if bool_decide (l = "debug") then LevelDebug
    else if bool_decide (l = "warn") || bool_decide (l = "warning") then LevelWarn
    else if bool_decide (l = "error") then LevelError
    else LevelInfo in
  mkLogging level (match level with LevelDebug => true | _ => false end)
    (if bool_decide (ToLowerText lower_runes fmt = "text") then TextHandler else JSONHandler).

End AuditLog.
