(* ===== verification/AuditTheorems.v ===== *)
(** * The audit stream can be trusted

    A reader of JSON lines gets back, for every event, exactly the fields the
    event was logged with, whatever bytes a client put into its user name: no
    value can end its line, close its string or forge another record.  And the
    handler's refusals are on the stream. *)

From Stdlib Require Import Ascii.
From S2P Require Import Prelude GoStrings HBA Scram ScramTheorems Limits RateLimit Registry Startup ServerRuns ServerTheorems AuditLog.
Import HBA Startup AuditLog.
Open Scope string_scope.
Open Scope list_scope.
Open Scope Z_scope.

Module AuditTheorems.

(** ** A strict reader of JSON *)

Definition unhex (c : Z) : option Z :=
  if within 48 57 c then Some (c - 48) else if within 97 102 c then Some (c - 87)
  else if within 65 70 c then Some (c - 55) else None.

(** A code point of the basic plane in UTF-8; a surrogate is none. *)
Definition encodeBMP (v : Z) : option bytes :=
  if v <? 128 then Some [v]
  else if v <? 2048 then Some [192 + v / 64; 128 + v mod 64]
  else if within 55296 57343 v then None
  else Some [224 + v / 4096; 128 + (v / 64) mod 64; 128 + v mod 64].

Definition short (e : Z) : option Z :=
  if e =? 34 then Some 34 else if e =? 92 then Some 92 else if e =? 47 then Some 47
  else if e =? 98 then Some 8 else if e =? 102 then Some 12 else if e =? 110 then Some 10
  else if e =? 114 then Some 13 else if e =? 116 then Some 9 else None.

Definition cons_to (p : bytes) (r : option (bytes * bytes)) : option (bytes * bytes) :=
  match r with Some (c, rest) => Some (p ++ c, rest) | None => None end.

(** The contents of a string up to its closing quote, and what follows. *)
Fixpoint readStr (s : bytes) : option (bytes * bytes) :=
  match s with
  | [] => None
  | b :: r =>
      if b =? DQ then Some ([], r)
      else if b =? BACKSLASH then
        match r with
        | [] => None
        | e :: r1 =>
            if e =? 117 then
              match r1 with
              | h1 :: h2 :: h3 :: h4 :: r2 =>
                  match unhex h1, unhex h2, unhex h3, unhex h4 with
                  | Some a, Some b, Some c, Some d =>
                      match encodeBMP (4096 * a + 256 * b + 16 * c + d) with
                      | Some p => cons_to p (readStr r2)
                      | None => None
                      end
                  | _, _, _, _ => None
                  end
              | _ => None
              end
            else match short e with Some x => cons_to [x] (readStr r1) | None => None end
        end
      else if b <? 32 then None
      else cons_to [b] (readStr r)
  end.

(** ** What is written for a string *)

(** The text with every byte that is not part of valid UTF-8 replaced. *)
Fixpoint ToValidUTF8 (s : bytes) : bytes :=
  match s with
  | [] => []
  | b0 :: s1 =>
      if b0 <? 128 then b0 :: ToValidUTF8 s1
      else
        match DecodeRune s, s1 with
        | Some (_, 2%nat), b1 :: s2 => b0 :: b1 :: ToValidUTF8 s2
        | Some (_, 3%nat), b1 :: b2 :: s3 => b0 :: b1 :: b2 :: ToValidUTF8 s3
        | Some (_, 4%nat), b1 :: b2 :: b3 :: s4 => b0 :: b1 :: b2 :: b3 :: ToValidUTF8 s4
        | _, _ => 239 :: 191 :: 189 :: ToValidUTF8 s1
        end
  end.

Definition byte (b : Z) : Prop := 0 ≤ b < 256.

Lemma valid_ascii s : Forall (λ b, b < 128) s → ToValidUTF8 s = s.
Proof. induction 1 as [|b s Hb _ IH]; [done|]. simpl. rewrite (proj2 (Z.ltb_lt _ _) Hb). by rewrite IH. Qed.

(** The cases of a decoded rune. *)
Inductive rune_at : bytes → Z → nat → Prop :=
| at2 b0 b1 s c : 128 ≤ b1 ≤ 191 → 194 ≤ b0 ≤ 223 → rune_at (b0 :: b1 :: s) c 2
| at3 b0 b1 b2 s : 128 ≤ b1 ≤ 191 → 128 ≤ b2 ≤ 191 → 224 ≤ b0 ≤ 239 →
    rune_at (b0 :: b1 :: b2 :: s) (4096 * (b0 - 224) + 64 * (b1 - 128) + (b2 - 128)) 3
| at4 b0 b1 b2 b3 s c : 128 ≤ b1 ≤ 191 → 128 ≤ b2 ≤ 191 → 128 ≤ b3 ≤ 191 → 240 ≤ b0 ≤ 244 →
    rune_at (b0 :: b1 :: b2 :: b3 :: s) c 4.

Lemma low_mod n b : 0 ≤ n → low n b = b mod 2 ^ n.
Proof. intros Hn. unfold low. by apply Z.land_ones. Qed.

Lemma or_add a b n : 0 ≤ n → 0 ≤ b < 2 ^ n → Z.lor (Z.shiftl a n) b = a * 2 ^ n + b.
Proof.
  intros Hn Hb. assert (E : Z.land (Z.shiftl a n) b = 0).
  { apply Z.bits_inj'. intros k Hk. rewrite Z.land_spec, Z.shiftl_spec, Z.bits_0 by done.
    destruct (Z_lt_ge_dec k n); [by rewrite Z.testbit_neg_r by lia|].
    rewrite <- (Z.mod_small b (2 ^ n)) by done. rewrite Z.mod_pow2_bits_high by lia. apply andb_false_r. }
  rewrite <- Z.lxor_lor, <- Z.add_nocarry_lxor by done. by rewrite Z.shiftl_mul_pow2.
Qed.

Lemma within_spec lo hi b : within lo hi b = true ↔ lo ≤ b ≤ hi.
Proof. unfold within. rewrite andb_true_iff, !Z.leb_le. done. Qed.

Lemma rune_form_spec b n lo hi :
  rune_form b = Some (n, lo, hi) →
  128 ≤ lo ∧ hi ≤ 191 ∧
  (n = 1%nat ∧ 194 ≤ b ≤ 223 ∨ n = 2%nat ∧ 224 ≤ b ≤ 239 ∨ n = 3%nat ∧ 240 ≤ b ≤ 244).
Proof.
  unfold rune_form. repeat (case_match; [intros; simplify_eq; rewrite ?within_spec, ?Z.eqb_eq in *; lia|]). done.
Qed.

Lemma rune3 b0 b1 b2 :
  224 ≤ b0 ≤ 239 → 128 ≤ b1 ≤ 191 → 128 ≤ b2 ≤ 191 →
  Z.lor (Z.lor (Z.shiftl (low 4 b0) 12) (Z.shiftl (low 6 b1) 6)) (low 6 b2) =
  4096 * (b0 - 224) + 64 * (b1 - 128) + (b2 - 128).
Proof.
  intros H0 H1 H2. rewrite !low_mod by lia.
  replace (b0 mod 2 ^ 4) with (b0 - 224) by (apply (Z.mod_unique _ _ 14); lia).
  replace (b1 mod 2 ^ 6) with (b1 - 128) by (apply (Z.mod_unique _ _ 2); lia).
  replace (b2 mod 2 ^ 6) with (b2 - 128) by (apply (Z.mod_unique _ _ 2); lia).
  rewrite (or_add (b0 - 224)) by (rewrite ?Z.shiftl_mul_pow2 by lia; change (2 ^ 6) with 64; change (2 ^ 12) with 4096; lia).
  replace ((b0 - 224) * 2 ^ 12 + Z.shiftl (b1 - 128) 6) with (Z.shiftl ((b0 - 224) * 64 + (b1 - 128)) 6)
    by (rewrite !Z.shiftl_mul_pow2 by lia; change (2 ^ 6) with 64; change (2 ^ 12) with 4096; lia).
  rewrite or_add by (change (2 ^ 6) with 64; lia). change (2 ^ 6) with 64. lia.
Qed.

Lemma DecodeRune_at s c n : DecodeRune s = Some (c, n) → rune_at s c n.
Proof.
  unfold DecodeRune. destruct s as [|b0 [|b1 s]]; try done.
  destruct (rune_form b0) as [[[k lo] hi]|] eqn:E; [|done].
  destruct (rune_form_spec _ _ _ _ E) as (Hlo & Hhi & [[-> Hb]|[[-> Hb]|[-> Hb]]]).
  - destruct (within lo hi b1) eqn:E1; [|by destruct s]. apply within_spec in E1. destruct s; intros [= <- <-]; constructor; lia.
  - destruct s as [|b2 s]; [done|]. destruct (within lo hi b1 && within 128 191 b2) eqn:E1; [|done].
    apply andb_true_iff in E1 as [E1 E2]. apply within_spec in E1, E2. intros [= <- <-].
    rewrite rune3 by lia. constructor; lia.
  - destruct s as [|b2 [|b3 s]]; try done.
    destruct (within lo hi b1 && within 128 191 b2 && within 128 191 b3) eqn:E1; [|done].
    rewrite !andb_true_iff in E1. destruct E1 as [[E1 E2] E3]. apply within_spec in E1, E2, E3.
    intros [= <- <-]. constructor; lia.
Qed.

(** *** Reading back one string *)

Lemma cons_to_app p q r : cons_to p (cons_to q r) = cons_to (p ++ q) r.
Proof. destruct r as [[c rest]|]; [|done]. simpl. by rewrite app_assoc. Qed.

Lemma readStr_plain b t : 32 ≤ b → b ≠ 34 → b ≠ 92 → readStr (b :: t) = cons_to [b] (readStr t).
Proof.
  intros H1 H2 H3. cbn [readStr]. unfold DQ, BACKSLASH.
  rewrite (proj2 (Z.eqb_neq _ _) H2), (proj2 (Z.eqb_neq _ _) H3), (proj2 (Z.ltb_ge _ _) H1). done.
Qed.

(** Bytes that are not ASCII are copied. *)
Lemma readStr_copy p t : Forall (λ b, 128 ≤ b) p → readStr (p ++ t) = cons_to p (readStr t).
Proof.
  induction 1 as [|b p Hb _ IH]; [simpl; by destruct (readStr t) as [[c rest]|]|].
  cbn [app]. rewrite readStr_plain by lia. rewrite IH, cons_to_app. done.
Qed.

Lemma readStr_control bf b t : 0 ≤ b < 32 → readStr (escapeASCII bf b ++ t) = cons_to [b] (readStr t).
Proof.
  intros Hb. rewrite <- (Z2Nat.id b) by lia. assert (Hn : (Z.to_nat b < 32)%nat) by lia.
  revert Hn. generalize (Z.to_nat b). intros n Hn.
  do 32 (destruct n as [|n]; [by destruct bf|]). lia.
Qed.

Lemma readStr_ascii bf b t : 0 ≤ b < 128 → readStr (escapeASCII bf b ++ t) = cons_to [b] (readStr t).
Proof.
  intros Hb. destruct (Z_lt_ge_dec b 32) as [Hc|Hc]; [apply readStr_control; lia|].
  unfold escapeASCII, DQ, BACKSLASH.
  destruct (b =? 34) eqn:E1; [apply Z.eqb_eq in E1 as ->; done|].
  destruct (b =? 92) eqn:E2; [apply Z.eqb_eq in E2 as ->; done|].
  cbn [orb]. rewrite (proj2 (Z.leb_le 32 b)) by lia. apply Z.eqb_neq in E1, E2. cbn [app].
  apply readStr_plain; [lia|done|done].
Qed.

Lemma readStr_separator c b0 b1 b2 t :
  c = 4096 * (b0 - 224) + 64 * (b1 - 128) + (b2 - 128) → 128 ≤ b1 ≤ 191 → 128 ≤ b2 ≤ 191 → 224 ≤ b0 ≤ 239 →
  (c =? 8232) || (c =? 8233) = true →
  readStr ((lit "\u202" ++ [hex (c mod 16)]) ++ t) = cons_to [b0; b1; b2] (readStr t).
Proof.
  intros Hc H1 H2 H0 H. apply orb_true_iff in H as [H|H]; apply Z.eqb_eq in H.
  - assert (b0 = 226 ∧ b1 = 128 ∧ b2 = 168) as (-> & -> & ->) by lia. by rewrite H.
  - assert (b0 = 226 ∧ b1 = 128 ∧ b2 = 169) as (-> & -> & ->) by lia. by rewrite H.
Qed.

Lemma read_escaped bf s rest :
  Forall byte s → readStr (appendEscaped bf s ++ DQ :: rest) = Some (ToValidUTF8 s, rest).
Proof.
  remember (length s) as n eqn:Hn. revert s Hn. induction (lt_wf n) as [n _ IH]. intros s -> Hs.
  destruct s as [|b0 s1]; [done|]. inversion_clear Hs as [|? ? H0 Hs1]. unfold byte in H0.
  assert (Next : ∀ p q s', (length s' ≤ length s1)%nat → Forall byte s' →
    readStr (q ++ appendEscaped bf s' ++ DQ :: rest) = cons_to p (readStr (appendEscaped bf s' ++ DQ :: rest)) →
    readStr ((q ++ appendEscaped bf s') ++ DQ :: rest) = Some (p ++ ToValidUTF8 s', rest)).
  { intros p q s' Hl Hs' E. rewrite <- app_assoc, E, (IH (length s')) by (simpl; done || lia). done. }
  cbn [appendEscaped ToValidUTF8]. destruct (b0 <? 128) eqn:Eb.
  { apply Z.ltb_lt in Eb. apply (Next [b0]); [lia|done|]. apply readStr_ascii; lia. }
  assert (Bad : readStr ((lit "\ufffd" ++ appendEscaped bf s1) ++ DQ :: rest) = Some (239 :: 191 :: 189 :: ToValidUTF8 s1, rest)).
  { by apply (Next [239; 191; 189]); [lia|..]. }
  destruct (DecodeRune (b0 :: s1)) as [[c k]|] eqn:E; [|by destruct s1].
  apply DecodeRune_at in E. inversion E as [? b1 s' ? H1|? b1 b2 s' H1 H2|? b1 b2 b3 s' ? H1 H2 H3]; subst; simpl in *.
  - apply (Next [b0; b1] [b0; b1]); [lia|by inversion_clear Hs1|]. apply readStr_copy. repeat constructor; lia.
  - destruct (orb _ _) eqn:Ec.
    + apply (Next [b0; b1; b2] (lit "\u202" ++ [hex _])); [lia|by inversion_clear Hs1 as [|? ? ? Hs2]; inversion_clear Hs2|].
      by eapply readStr_separator.
    + apply (Next [b0; b1; b2] [b0; b1; b2]); [lia|by inversion_clear Hs1 as [|? ? ? Hs2]; inversion_clear Hs2|].
      apply readStr_copy. repeat constructor; lia.
  - apply (Next [b0; b1; b2; b3] [b0; b1; b2; b3]); [lia| |].
    + inversion_clear Hs1 as [|? ? ? Hs2]; inversion_clear Hs2 as [|? ? ? Hs3]; by inversion_clear Hs3.
    + apply readStr_copy. repeat constructor; lia.
Qed.

(** *** Reading back a line *)

Fixpoint spanDigits (s : bytes) : bytes * bytes :=
  match s with
  | [] => ([], [])
  | b :: r => if within 48 57 b then let '(ds, rest) := spanDigits r in (b :: ds, rest) else ([], s)
  end.

Definition readValue (s : bytes) : option (value * bytes) :=
  match s with
  | b :: r =>
      if b =? DQ then match readStr r with Some (c, rest) => Some (VStr c, rest) | None => None end
      else let '(ds, rest) := spanDigits s in
           match Scram.Atoi ds with Some n => Some (VInt n, rest) | None => None end
  | [] => None
  end.

Definition readAttr (s : bytes) : option (attr * bytes) :=
  match s with
  | b :: r =>
      if b =? DQ then
        match readStr r with
        | Some (k, c :: rest) =>
            if c =? 58 then match readValue rest with Some (v, rest) => Some ((k, v), rest) | None => None end
            else None
        | _ => None
        end
      else None
  | [] => None
  end.

(** The members of an object up to its closing brace; every member takes at
    least one byte, so the length of the text is fuel enough. *)
Fixpoint readAttrs (fuel : nat) (s : bytes) : option (list attr * bytes) :=
  match fuel with
  | O => None
  | S fuel =>
      match readAttr s with
      | Some (a, b :: rest) =>
          if b =? 125 then Some ([a], rest)
          else if b =? 44 then
            match readAttrs fuel rest with Some (l, rest) => Some (a :: l, rest) | None => None end
          else None
      | _ => None
      end
  end.

(** One line, without its end. *)
Definition readLine (s : bytes) : option (list attr) :=
  match s with
  | b :: r =>
      if b =? 123 then match readAttrs (length r) r with Some (l, []) => Some l | _ => None end else None
  | [] => None
  end.

(** What a reader is to find: every string in valid UTF-8. *)
Definition shown (a : attr) : attr :=
  (ToValidUTF8 a.1, match a.2 with VStr s => VStr (ToValidUTF8 s) | VInt n => VInt n end).

Definition attr_ok (a : attr) : Prop :=
  Forall byte a.1 ∧ match a.2 with VStr s => Forall byte s | VInt n => 0 ≤ n < two63 end.

Lemma span_digits ds b rest :
  Forall (λ c, 48 ≤ c ≤ 57) ds → within 48 57 b = false → spanDigits (ds ++ b :: rest) = (ds, b :: rest).
Proof.
  intros Hd Hb. induction Hd as [|d ds H _ IH]; simpl; [by rewrite Hb|].
  rewrite (proj2 (within_spec 48 57 d) H), IH. done.
Qed.

Lemma Itoa_head n : 0 ≤ n → ∃ c ds, Scram.Itoa n = c :: ds ∧ 48 ≤ c ≤ 57.
Proof. intros Hn. unfold Scram.Itoa. destruct (ScramTheorems.decimal_head 19 n Hn) as (c & ds & -> & ? & _). eauto. Qed.

Lemma read_value bf v b rest :
  match v with VStr s => Forall byte s | VInt n => 0 ≤ n < two63 end → within 48 57 b = false →
  readValue (appendValue bf v ++ b :: rest) = Some ((shown ([], v)).2, b :: rest).
Proof.
  intros Hv Hb. destruct v as [s|n]; simpl.
  - rewrite <- app_assoc. simpl. by rewrite read_escaped.
  - destruct (Itoa_head n) as (c & ds & E & Hc); [lia|].
    pose proof (ScramTheorems.Itoa_digits n ltac:(lia)) as Hd. pose proof (ScramTheorems.Atoi_Itoa n Hv) as Ha.
    rewrite E in *. unfold readValue. cbn [app].
    rewrite (proj2 (Z.eqb_neq c DQ)) by (unfold DQ; lia). change (c :: ds ++ b :: rest) with ((c :: ds) ++ b :: rest).
    by rewrite span_digits, Ha.
Qed.

Lemma read_attr bf a b rest :
  attr_ok a → within 48 57 b = false → readAttr (appendAttr bf a ++ b :: rest) = Some (shown a, b :: rest).
Proof.
  destruct a as [k v]. intros [Hk Hv] Hb. unfold appendAttr, quoted. cbn [fst snd] in *.
  rewrite <- !app_assoc. cbn [app]. unfold readAttr. rewrite Z.eqb_refl, <- app_assoc. cbn [app].
  rewrite read_escaped by done. rewrite (read_value bf v) by done. done.
Qed.

Lemma read_attrs bf l rest fuel :
  l ≠ [] → Forall attr_ok l → (length l ≤ fuel)%nat →
  readAttrs fuel (appendAttrs bf l ++ 125 :: rest) = Some (shown <$> l, rest).
Proof.
  intros Hne Hl. revert fuel. induction Hl as [|a l Ha Hl IH]; [done|]. intros fuel Hf.
  destruct fuel as [|fuel]; [simpl in Hf; lia|]. destruct l as [|a' l].
  - cbn [appendAttrs readAttrs]. by rewrite read_attr.
  - change (appendAttrs bf (a :: a' :: l)) with (appendAttr bf a ++ [44] ++ appendAttrs bf (a' :: l)).
    rewrite <- !app_assoc. cbn [app readAttrs]. rewrite read_attr by done. cbn [Z.eqb Pos.eqb].
    rewrite IH by (done || (simpl in *; lia)). done.
Qed.

Lemma attrs_length bf l : (length l ≤ length (appendAttrs bf l))%nat.
Proof.
  induction l as [|a [|a' l] IH]; [done|simpl; unfold quoted; rewrite !length_app; simpl; lia|].
  change (appendAttrs bf (a :: a' :: l)) with (appendAttr bf a ++ [44] ++ appendAttrs bf (a' :: l)).
  rewrite !length_app. unfold appendAttr, quoted. simpl in *. rewrite !length_app. simpl in *. lia.
Qed.

Lemma read_line bf l :
  l ≠ [] → Forall attr_ok l → readLine (123 :: appendAttrs bf l ++ [125]) = Some (shown <$> l).
Proof.
  intros Hne Hl. unfold readLine. cbn [Z.eqb Pos.eqb]. rewrite (read_attrs bf l []); [done|done|done|].
  rewrite length_app. pose proof (attrs_length bf l). lia.
Qed.

(** *** No value ends its line *)

Definition printable (l : bytes) : Prop := Forall (λ b, 32 ≤ b) l.

(** Symbolic bytes one by one, literals by evaluation. *)
Ltac solve_printable :=
  unfold printable;
  first [ repeat (apply Forall_cons_2; [by auto with lia|]); apply Forall_nil_2
        | apply (bool_decide_unpack _); vm_compute; reflexivity ].

Lemma printable_ascii bf b : 0 ≤ b < 128 → printable (escapeASCII bf b).
Proof.
  intros Hb. unfold escapeASCII. assert (Hx : ∀ d, 0 ≤ d < 16 → 32 ≤ hex d) by (intros d Hd; unfold hex; case_match; lia).
  pose proof (Z.mod_pos_bound b 16 ltac:(lia)). assert (0 ≤ b / 16 < 16) by (split; [apply Z.div_pos|apply Z.div_lt_upper_bound]; lia).
  unfold printable, DQ, BACKSLASH. repeat case_match; rewrite ?orb_true_iff, ?Z.eqb_eq, ?Z.leb_le in *;
    solve_printable.
Qed.

Lemma printable_escaped bf s : Forall byte s → printable (appendEscaped bf s).
Proof.
  remember (length s) as n eqn:Hn. revert s Hn. induction (lt_wf n) as [n _ IH]. intros s -> Hs.
  destruct s as [|b0 s1]; [constructor|]. inversion_clear Hs as [|? ? H0 Hs1]. unfold byte in H0.
  assert (Next : ∀ q s', (length s' ≤ length s1)%nat → Forall byte s' → printable q → printable (q ++ appendEscaped bf s')).
  { intros q s' Hl Hs' Hq. apply Forall_app. split; [done|]. apply (IH (length s')); simpl; done || lia. }
  cbn [appendEscaped]. destruct (b0 <? 128) eqn:Eb.
  { apply Z.ltb_lt in Eb. apply Next; [lia|done|]. apply printable_ascii. lia. }
  assert (Bad : printable (lit "\ufffd" ++ appendEscaped bf s1)) by (apply Next; [lia|done|solve_printable]).
  destruct (DecodeRune (b0 :: s1)) as [[c k]|] eqn:E; [|by destruct s1].
  apply DecodeRune_at in E. inversion E as [? b1 s' ? H1|? b1 b2 s' H1 H2|? b1 b2 b3 s' ? H1 H2 H3]; subst; simpl in *.
  - apply (Next [b0; b1]); [lia|by inversion_clear Hs1|solve_printable].
  - destruct (orb _ _) eqn:Ec.
    + apply (Next (lit "\u202" ++ [hex _])); [lia|by inversion_clear Hs1 as [|? ? ? Hs2]; inversion_clear Hs2|].
      apply orb_true_iff in Ec as [Ec|Ec]; apply Z.eqb_eq in Ec; rewrite Ec; solve_printable.
    + apply (Next [b0; b1; b2]); [lia|by inversion_clear Hs1 as [|? ? ? Hs2]; inversion_clear Hs2|solve_printable].
  - apply (Next [b0; b1; b2; b3]); [lia| |solve_printable].
    inversion_clear Hs1 as [|? ? ? Hs2]; inversion_clear Hs2 as [|? ? ? Hs3]; by inversion_clear Hs3.
Qed.

Lemma printable_quoted bf s : Forall byte s → printable (quoted bf s).
Proof.
  intros Hs. unfold quoted. constructor; [unfold DQ; lia|]. apply Forall_app. split; [by apply printable_escaped|].
  repeat constructor. unfold DQ. lia.
Qed.

Lemma printable_attrs bf l : Forall attr_ok l → printable (appendAttrs bf l).
Proof.
  assert (One : ∀ a, attr_ok a → printable (appendAttr bf a)).
  { intros [k v] [Hk Hv]. unfold appendAttr. cbn [fst snd] in *. apply Forall_app. split; [by apply printable_quoted|].
    constructor; [lia|]. destruct v as [s|n]; [by apply printable_quoted|].
    eapply Forall_impl; [apply ScramTheorems.Itoa_digits; lia|]. simpl. lia. }
  induction 1 as [|a l Ha Hl IH]; [constructor|]. destruct l as [|a' l]; [by apply One|].
  change (appendAttrs bf (a :: a' :: l)) with (appendAttr bf a ++ [44] ++ appendAttrs bf (a' :: l)).
  apply Forall_app. split; [by apply One|]. constructor; [lia|done].
Qed.

(** ** The stream *)

(** The lines of a stream; the last one is empty. *)
Definition readStream (s : bytes) : option (list (list attr)) := mapM readLine (removelast (HBA.split_on NL s)).

Lemma read_stream bf (ls : list (list attr)) :
  Forall (λ l, l ≠ [] ∧ Forall attr_ok l) ls →
  readStream (concat (line bf <$> ls)) = Some ((λ l : list attr, shown <$> l) <$> ls).
Proof.
  intros Hls. unfold readStream.
  assert (E : HBA.split_on NL (concat (line bf <$> ls)) = ((λ l, 123 :: appendAttrs bf l ++ [125]) <$> ls) ++ [[]]).
  { induction Hls as [|l ls [_ Hl] _ IH]; [done|]. cbn [fmap list_fmap concat app]. rewrite <- IH.
    unfold line at 1. cbn [app]. rewrite <- ScramTheorems.split_on_cons.
    - f_equal. cbn [app]. f_equal. rewrite <- !app_assoc. done.
    - intros Hin. assert (Hp : printable (123 :: appendAttrs bf l ++ [125])).
      { constructor; [lia|]. apply Forall_app. split; [by apply printable_attrs|]. repeat constructor. lia. }
      unfold printable in Hp. rewrite Forall_forall in Hp. apply Hp in Hin. unfold NL in Hin. lia. }
  rewrite E, removelast_last. apply mapM_Some. clear E.
  induction Hls as [|l ls [Hne Hl] _ IH]; [constructor|]. constructor; [by apply read_line|done].
Qed.

(** What an event is to be read as. *)
Definition fields (t : bytes) (e : auditEvent) : list attr :=
  shown <$> recordOf t (eventName e) component ((lit "event", VStr (eventName e)) :: eventAttrs e).

Definition event_ok (e : auditEvent) : Prop := Forall attr_ok (eventAttrs e).

Lemma lit_bytes s : Forall byte (lit s).
Proof.
  induction s as [|c s IH]; [constructor|]. simpl. constructor; [|done]. unfold byte.
  pose proof (nat_ascii_bounded c). lia.
Qed.

Lemma fields_keys t e : NoDup (fields t e).*1.
Proof. destruct e; vm_compute; apply (bool_decide_unpack _); by vm_compute. Qed.

Lemma record_ok t e : Forall byte t → event_ok e →
  Forall attr_ok (recordOf t (eventName e) component ((lit "event", VStr (eventName e)) :: eventAttrs e)).
Proof.
  intros Ht He. assert (Hn : Forall byte (eventName e)) by (destruct e; apply lit_bytes).
  unfold recordOf, component. repeat (apply Forall_cons_2; [split; (apply lit_bytes || done)|]). done.
Qed.

Lemma audit_writes bf evs s w :
  auditLogger s = Some w →
  let s' := foldl (λ s x, audit bf x.1 x.2 s) s evs in
  auditLogger s' = Some w ∧
  written s' = written s ++ ((λ x, (w, line bf (recordOf x.1 (eventName x.2) component
    ((lit "event", VStr (eventName x.2)) :: eventAttrs x.2)))) <$> evs).
Proof.
  revert s. induction evs as [|[t e] evs IH]; intros s Hs; simpl; [by rewrite app_nil_r|].
  unfold audit at 2 4, auditLog. rewrite Hs. destruct (IH (mkState (Some w) (written s ++
    [(w, line bf (recordOf t (eventName e) component ((lit "event", VStr (eventName e)) :: eventAttrs e)))]))) as [H1 H2]; [done|].
  split; [done|]. rewrite H2. cbn [written]. by rewrite <- app_assoc.
Qed.

(** C31: The audit stream cannot be forged.  Once the sink is set up, whatever
    bytes users, database names, certificate names and commands are made of, the
    stream that a sequence of events leaves reads back line by line as exactly
    those events, in their order, each with its own name and fields and no field
    twice; only bytes that are not UTF-8 are shown as the replacement character.
    The stream goes to the configured file, or to stderr without one. *)
Theorem audit_stream_faithful bf openFile path s0 s evs :
  setupAuditLog openFile path s0 = Ok s → written s0 = [] → Forall (λ x, Forall byte x.1 ∧ event_ok x.2) evs →
  let s' := foldl (λ s x, audit bf x.1 x.2 s) s evs in
  Forall (λ w, w = if bool_decide (path = "" ∨ path = "-") then Stderr else File path) (written s').*1 ∧
  readStream (concat (written s').*2) = Some ((λ x, fields x.1 x.2) <$> evs) ∧
  ∀ x, x ∈ evs → NoDup (fields x.1 x.2).*1.
Proof.
  intros Hset H0 Hev s'.
  assert (Hw : auditLogger s = Some (if bool_decide (path = "" ∨ path = "-") then Stderr else File path) ∧ written s = []).
  { unfold setupAuditLog in Hset. repeat case_bool_decide; simpl in *; try tauto; repeat case_match; simplify_eq; done. }
  destruct Hw as [Hw Hn]. destruct (audit_writes bf evs s _ Hw) as [_ E]. fold s' in E. rewrite Hn in E. cbn [app] in E.
  rewrite E. split_and!.
  - rewrite Forall_fmap. apply Forall_fmap. apply Forall_true. done.
  - rewrite <- list_fmap_compose.
    set (L := (λ x : bytes * auditEvent, recordOf x.1 (eventName x.2) component
      ((lit "event", VStr (eventName x.2)) :: eventAttrs x.2)) <$> evs).
    transitivity (readStream (concat (line bf <$> L))); [unfold L; by rewrite <- list_fmap_compose|].
    rewrite read_stream; [unfold L; by rewrite <- list_fmap_compose|]. unfold L. apply Forall_fmap.
    eapply Forall_impl; [exact Hev|]. intros [t e] [Ht He]. split; [done|]. by apply record_ok.
  - intros [t e] _. apply fields_keys.
Qed.

(** ** Refusals are on the stream *)

(** The gates that refuse a login with an audit: a failed login, a session over
    its rate, one over a cap. *)
Inductive refusalKind := ByAuth | ByRate | ByCap.

Definition refused_by (x : out) : option refusalKind :=
  match x with
  | Send (Fatal _ PasswordFailed) => Some ByAuth
  | Send (Fatal _ SessionRate) => Some ByRate
  | Send (Fatal _ (CapReached _)) => Some ByCap
  | _ => None
  end.

Definition logged_by (e : auditEvent) : option refusalKind :=
  match e with
  | AuthFail _ _ _ _ => Some ByAuth
  | RateLimitReject _ _ _ => Some ByRate
  | ConnLimitReject _ _ _ => Some ByCap
  | _ => None
  end.

(** What the pg_hba rules log themselves. *)
Definition of_rule (e : auditEvent) : bool :=
  match e with HbaReject _ _ _ _ | CertAuthFail _ _ _ => true | _ => false end.

(** An event is about the client of a startup message; a certificate that does not
    fit is logged without the database, and nothing else is logged on the way in. *)
Definition names (m : startupMsg) (e : auditEvent) : Prop :=
  let u' := lit (parameter "user" m) in let d' := lit (parameter "database" m) in
  match e with
  | AuthFail u d _ _ | RateLimitReject u d _ | ConnLimitReject u d _ | AdminDenied u d | HbaReject _ u d _ =>
      u = u' ∧ d = d'
  | CertAuthFail _ _ u => u = u'
  | ListenInPoolMode _ _ _ | AdminCmd _ => False
  end.

Definition message (h : stage) : option startupMsg :=
  match h with
  | HReceive | HClose => None
  | HLimiter m | HAuth m | HRate m | HRoute m | HResolve m _ | HCaps m _ | HRegister m _ | HHello m _ _ _
  | HServe m _ _ _ | HDeregister m _ _ _ | HRelease m => Some m
  end.

Section runs.
Context (o : handlerOpts) (remote : string) (capText : Limits.capErr → bytes).

Section gated.
Context `{UnicodeFold} (lineOf : HBARule → Z) (showIP : option IP → bytes) (runes : string → text) (utf8 : text → bytes).
Context (rules : list HBARule).

Abbreviation ruleAudits c m := (hbaAudits lineOf showIP runes utf8 rules c (parameter "user" m) (parameter "database" m)).

(** Authentication is the gate's on the client's connection [c]: its verdict and
    the events it logs. *)
Definition gated (c : connection) (h : stage) (i : input) (inside : list auditEvent) : Prop :=
  match h, i with
  | HAuth m, IAuth _ ok _ reported =>
      inside = ruleAudits c m ∧
      match NewHBAAuth rules c (runes (parameter "user" m)) (runes (parameter "database" m)) with
      | Accept => ok = true
      | Refuse told => ok = false ∧ reported = told
      end
  | _, _ => True
  end.

(** The answers and the events of one handler, while the shared state moves
    between its steps. *)
Inductive asteps (c : connection) : stage → list out → list auditEvent → stage → Prop :=
| as_nil h : asteps c h [] [] h
| as_cons s h i s' h' inside err out1 out2 ev2 h'' :
    gated c h i inside → hstep o remote s h i = Some (s', h', out1) → asteps c h' out2 ev2 h'' →
    asteps c h (out1 ++ out2) (audits o remote inside err capText s h i ++ ev2) h''.

(** The rules log at most one event, about this client, and none if they accept. *)
Lemma rule_audits c m :
  let l := ruleAudits c m in
  Forall (names m) l ∧ List.filter of_rule l = l ∧ omap logged_by l = [] ∧
  (NewHBAAuth rules c (runes (parameter "user" m)) (runes (parameter "database" m)) = Accept → l = []).
Proof.
  cbv zeta. unfold hbaAudits. destruct (MatchHBA rules _ _ _ _ _) as [r|] eqn:Em; [|done].
  assert (Hr : rules ≠ []) by (by destruct rules). unfold NewHBAAuth.
  destruct rules as [|r0 rs]; [done|]. unfold Authenticate. rewrite Em. unfold authenticateCert.
  destruct (Method r); try done.
  - split_and!; try done. by repeat constructor.
  - destruct (isTLS c); [|done]. cbn [negb]. destruct (peerCN c) as [cn|]; [|done].
    case_bool_decide; [done|]. split_and!; try done. by repeat constructor.
Qed.

Lemma step_audited c s h i s' h' inside err out m :
  gated c h i inside → hstep o remote s h i = Some (s', h', out) → message h = Some m →
  let A := audits o remote inside err capText s h i in
  omap logged_by A = omap refused_by out ∧ Forall (names m) A ∧ (h' = HClose ∨ message h' = Some m) ∧
  (omap logged_by A = [] ∧ List.filter of_rule A = [] ∨
   h' = HClose ∧ length (omap logged_by A) = 1%nat ∧
   (List.filter of_rule A = [] ∨ omap logged_by A = [ByAuth] ∧ List.filter of_rule A = ruleAudits c m)).
Proof.
  intros Hg Hst Hm. cbv zeta.
  destruct h as [|m'|m'|m'|m'|m' l|m' d|m' t|m' t p l|m' t p l|m' t p l|m'|], i; simpl in Hst; try done;
    injection Hm as ->.
  2: { cbn [audits]. destruct Hg as [-> Hg]. destruct (rule_audits c m) as (Hn & Hf & Hl & Ha).
    rewrite omap_app, List.filter_app, Hf, Hl. destruct (NewHBAAuth rules c _ _) as [|told].
    - subst ok. simplify_eq/=. rewrite Ha by done. split_and!; try done; auto.
    - destruct Hg as [-> ->]. simplify_eq/=.
      split_and!; [by destruct told|apply Forall_app; split; [done|by repeat constructor]|by left|].
      right. split_and!; [done|done|]. right. by rewrite app_nil_r. }
  2: { cbn [audits]. destruct (RateLimit.Allow made now (parameter "user" m) (userRate s)) as [[] r]; simplify_eq/=;
      split_and!; try done; auto; by repeat constructor. }
  all: clear Hg; repeat (case_match; simplify_eq/=; try done); simplify_eq/=; split_and!; try done; auto;
    by repeat constructor.
Qed.

Lemma closed_stays c outs evs h : asteps c HClose outs evs h → outs = [] ∧ evs = [] ∧ h = HClose.
Proof. inversion 1 as [|s ? i]; subst; [done|]. by destruct i. Qed.

(** C32: Every login the gates refuse is on the audit stream, once and under its
    own name.  For each client whose startup message is read, behind any pg_hba
    rules and however the process moves meanwhile: the events for a failed login,
    an exceeded rate and a reached cap are exactly the refusals of those kinds it
    is sent, in order, and at most one; the rules' own events are there only with
    a failed login, and then they are what the rules log for this client; and
    every event names the user of the startup message and, but for the one about
    a certificate, its database. *)
Theorem denials_audited c msg outs evs h :
  asteps c (HLimiter msg) outs evs h →
  omap logged_by evs = omap refused_by outs ∧ (length (omap logged_by evs) ≤ 1)%nat ∧ Forall (names msg) evs ∧
  (List.filter of_rule evs = [] ∨
   omap logged_by evs = [ByAuth] ∧ List.filter of_rule evs = ruleAudits c msg).
Proof.
  intros Hs. enough (K : ∀ h0 outs evs h, asteps c h0 outs evs h → message h0 = Some msg →
    omap logged_by evs = omap refused_by outs ∧ (length (omap logged_by evs) ≤ 1)%nat ∧ Forall (names msg) evs ∧
    (List.filter of_rule evs = [] ∨ omap logged_by evs = [ByAuth] ∧ List.filter of_rule evs = ruleAudits c msg))
    by (by eapply K).
  clear. induction 1 as [h|s h i s' h' inside err out1 out2 ev2 h'' Hg Hst H2 IH]; intros Hm.
  { split_and!; simpl; [done|lia|constructor|by left]. }
  destruct (step_audited c s h i s' h' inside err out1 msg Hg Hst Hm) as (Hd & Hn & Hnext & Hcase).
  rewrite !omap_app, List.filter_app. destruct Hnext as [->|Hm'].
  - apply closed_stays in H2 as (-> & -> & _). simpl. rewrite !app_nil_r.
    destruct Hcase as [[E1 E2]|(_ & E1 & E2)]; split_and!; try done; [by rewrite E1; simpl; lia|by left|lia].
  - destruct (IH Hm') as (IHd & IHl & IHn & IHc). destruct Hcase as [[E1 E2]|(-> & _)]; [|done].
    rewrite <- Hd, E1, E2, IHd. split_and!; [done|by rewrite <- IHd|by apply Forall_app|by rewrite <- IHd].
Qed.

End gated.

(** *** The login counters *)

Inductive csteps : stage → list out → list loginCounter → stage → Prop :=
| cs_nil h : csteps h [] [] h
| cs_cons s h i s' h' out1 out2 c2 h'' :
    hstep o remote s h i = Some (s', h', out1) → csteps h' out2 c2 h'' →
    csteps h (out1 ++ out2) (loginCounts o remote s h i ++ c2) h''.

(** The reason a refusal is counted under; one for the session rate has none. *)
Definition failure_of (x : out) : option loginCounter :=
  match x with
  | Send (Fatal _ TooManyFailures) => Some (ClientLoginFail "rate_limited")
  | Send (Fatal _ PasswordFailed) => Some (ClientLoginFail "auth")
  | Send (Fatal _ (DatabaseNotConfigured _)) => Some (ClientLoginFail "routing")
  | Send (Fatal _ (CapReached _)) => Some (ClientLoginFail "conn_limit")
  | _ => None
  end.

Definition is_failure (c : loginCounter) : Prop := match c with ClientLoginFail _ => True | ClientLoginOK => False end.
#[global] Instance is_failure_dec c : Decision (is_failure c).
Proof. destruct c; simpl; apply _. Defined.

Definition rate_refusals (l : list out) : nat :=
  length (List.filter (λ x, match x with Send (Fatal _ SessionRate) => true | _ => false end) l).

(** Whether a client past its first message has been counted. *)
Definition settled (h : stage) : nat :=
  match h with
  | HReceive | HLimiter _ | HAuth _ | HRate _ | HRoute _ | HResolve _ _ | HCaps _ _ => 0
  | _ => 1
  end.

Lemma step_counted s h i s' h' out :
  hstep o remote s h i = Some (s', h', out) → h ≠ HReceive →
  h' ≠ HReceive ∧ filter is_failure (loginCounts o remote s h i) = omap failure_of out ∧
  (settled h + length (loginCounts o remote s h i) + rate_refusals out = settled h')%nat.
Proof.
  intros H Hn.
  destruct h as [|m|m|m|m|m l|m d|m t|m t p l|m t p l|m t p l|m|], i; simpl in H; try done.
  - cbn [loginCounts]. destruct (Limits.Allowed now remote (limiter s)) as [[] lim]; simplify_eq/=; done.
  - cbn [loginCounts]. destruct ok, reported; simplify_eq/=; done.
  - destruct (RateLimit.Allow made now (parameter "user" m) (userRate s)) as [[] r]; simplify_eq/=; done.
  - cbn [loginCounts]. destruct (isConsole o m); simplify_eq/=; done.
  - cbn [loginCounts]. destruct (Registry.resolveFinish now l (registry s)) as [r res]. cbn [snd].
    destruct (decisionOf res); simplify_eq/=; done.
  - cbn [loginCounts]. destruct (Limits.Reserve _ _ _); simplify_eq/=; done.
  - destruct ((p =? 0) || _); simplify_eq/=; done.
  - destruct ok, t; simplify_eq/=; done.
  - by simplify_eq/=.
  - by simplify_eq/=.
  - destruct t; by simplify_eq/=.
  - by simplify_eq/=.
Qed.

(** Every login is counted once.  For a client whose startup message is read,
    the failure counters it increments are exactly those of the refusals it is
    sent, in order; and by the time its handler is past the gates or done it has
    been counted exactly once, as a success or as a failure, or has been refused
    for its session rate, which no counter shows. *)
Theorem login_counted msg outs cs h :
  csteps (HLimiter msg) outs cs h →
  filter is_failure cs = omap failure_of outs ∧ (length cs + rate_refusals outs = settled h)%nat.
Proof.
  intros Hs. enough (K : ∀ h0 outs cs h, csteps h0 outs cs h → h0 ≠ HReceive →
    filter is_failure cs = omap failure_of outs ∧ (settled h0 + length cs + rate_refusals outs = settled h)%nat).
  { by destruct (K _ _ _ _ Hs) as [? ?]. }
  clear. induction 1 as [h|s h i s' h' out1 out2 c2 h'' Hst H2 IH]; intros Hn.
  { split; [done|]. unfold rate_refusals. simpl. lia. }
  destruct (step_counted _ _ _ _ _ _ Hst Hn) as (Hn' & Hf & Hc). destruct (IH Hn') as [IHf IHc].
  unfold rate_refusals in *. rewrite filter_app, omap_app, List.filter_app, !length_app, Hf, IHf. split; [done|lia].
Qed.

End runs.

(** ** Witnesses *)

(** A user name that closes its string, ends its line and opens a record of its
    own, and is not even UTF-8. *)
Definition forger : bytes := lit "eve" ++ [34; 125; 10; 123; 34; 255].

Definition attempts : list (bytes * auditEvent) :=
  [(lit "2026-01-01T00:00:00Z", AuthFail forger (lit "shop") (lit "10.0.0.7") (lit "hba: no matching rule"));
   (lit "2026-01-01T00:00:01Z", HbaReject 3 forger (lit "shop") (lit "10.0.0.7"));
   (lit "2026-01-01T00:00:02Z", AdminCmd (lit "PAUSE shop"))].

Lemma attempts_ok : Forall (λ x, Forall byte x.1 ∧ event_ok x.2) attempts.
Proof.
  assert (Hf : Forall byte forger).
  { apply Forall_app. split; [apply lit_bytes|]. unfold byte. repeat (apply Forall_cons_2; [lia|]). apply Forall_nil_2. }
  repeat apply Forall_cons_2; try apply Forall_nil_2; (split; [apply lit_bytes|]);
    repeat apply Forall_cons_2; try apply Forall_nil_2; split; try apply lit_bytes; try exact Hf. simpl. unfold two63. lia.
Defined.

Lemma audit_stream_faithful_witness :
  let s' := foldl (λ s x, audit true x.1 x.2 s) (mkState (Some Stderr) []) attempts in
  Forall (λ w, w = Stderr) (written s').*1 ∧
  readStream (concat (written s').*2) = Some ((λ x, fields x.1 x.2) <$> attempts) ∧
  length (written s').*2 = 3%nat.
Proof.
  destruct (audit_stream_faithful true (λ _, false) "-" (mkState None []) (mkState (Some Stderr) []) attempts
    ltac:(reflexivity) ltac:(reflexivity) attempts_ok) as (H1 & H2 & _).
  split; [exact H1|]. split; [exact H2|reflexivity].
Defined.

Definition alice_in : startupMsg := mkStartup (<[ "user" := "alice" ]> {[ "database" := "shop_ro" ]}).

#[local] Instance plain_runes : UnicodeFold := λ r, r.

(** A rule that refuses everybody, on line 3. *)
Definition closed_rules : list HBARule := [mkRule HBAHostAny true true [] [] None false HBAMethodReject].

Definition from_lan : connection := mkConn false false (Some [10; 0; 0; 7]) None false None false.

Lemma denials_audited_witness :
  let rule := HbaReject 3 (lit "alice") (lit "shop_ro") (lit "10.0.0.7") in
  let e := AuthFail (lit "alice") (lit "shop_ro") (lit "10.0.0.7") (lit "hba: rejected") in
  let outs := fatal "28000" HBARefused ++ fatal "28P01" PasswordFailed in
  omap logged_by [rule; e] = omap refused_by outs ∧ (length (omap logged_by [rule; e]) ≤ 1)%nat ∧
  Forall (names alice_in) [rule; e] ∧ List.filter of_rule [rule; e] = [rule].
Proof.
  intros rule e outs.
  destruct (denials_audited ServerRuns.day_opts "10.0.0.7" (λ _, []) (λ _, 3) (λ _, lit "10.0.0.7") lit id closed_rules
    from_lan alice_in outs [rule; e] HClose) as (H1 & H2 & H3 & _); [|by split_and!].
  apply (as_cons _ _ _ _ _ _ _ _ _ ServerRuns.day_shared (HLimiter alice_in) (IAt 10)
    (with_limiter (Limits.Allowed 10 "10.0.0.7" (limiter ServerRuns.day_shared)).2 ServerRuns.day_shared) (HAuth alice_in)
    [] [] [] outs [_; _] HClose); [done|reflexivity|].
  refine (as_cons _ _ _ _ _ _ _ _ _ ServerRuns.day_shared (HAuth alice_in) (IAuth 11 false false true) _ HClose
    [rule] (lit "hba: rejected") outs [] [] HClose _ ltac:(reflexivity) (as_nil _ _ _ _ _ _ _ _ _ HClose)).
  split; [by vm_compute|]. vm_compute. done.
Defined.

Lemma login_counted_witness :
  filter is_failure [ClientLoginFail "auth"] = omap failure_of (fatal "28P01" PasswordFailed) ∧
  (length [ClientLoginFail "auth"] + rate_refusals (fatal "28P01" PasswordFailed) = 1)%nat.
Proof.
  apply (login_counted ServerRuns.day_opts "10.0.0.7" alice_in (fatal "28P01" PasswordFailed) [ClientLoginFail "auth"] HClose).
  apply (cs_cons _ _ ServerRuns.day_shared (HLimiter alice_in) (IAt 10)
    (with_limiter (Limits.Allowed 10 "10.0.0.7" (limiter ServerRuns.day_shared)).2 ServerRuns.day_shared) (HAuth alice_in)
    [] (fatal "28P01" PasswordFailed) [ClientLoginFail "auth"] HClose); [reflexivity|].
  exact (cs_cons _ _ ServerRuns.day_shared (HAuth alice_in) (IAuth 11 false false false) _ HClose
    (fatal "28P01" PasswordFailed) [] [] HClose ltac:(reflexivity) (cs_nil _ _ HClose)).
Defined.

End AuditTheorems.
